(* ===== verification/_CoqProject ===== *)
-Q . S2P
Prelude.v
Utf8.v
Fs.v
TotInbox.v
TotConfig.v
TotServer.v
TotStamp.v
TotTheorems.v
TotSession.v
TotRun.v
TotSandbox.v
Errors.v
CoreTypes.v
Confine.v
CareOf.v
Sinks.v
SinkTheorems.v
TotConcurrent.v
Config.v
Stats.v
StatsTheorems.v
GaugeRace.v
Carriers.v
CarrierTheorems.v
Pop3Theorems.v
Pull.v
PullTheorems.v
ImapTheorems.v
Lambda.v
LambdaTheorems.v
Supervisor.v
SupervisorTheorems.v
Pgp.v
PgpTheorems.v
CoreIpc.v
Email.v
EmailTheorems.v
Gateway.v
Handlers.v
GatewayTheorems.v
Effects.v
InboxTheorems.v
HandlerTheorems.v
ChequeTheorems.v
AdmissionTheorems.v
Loops.v
LoopTheorems.v
Boot.v
Footprint.v
MailFlow.v
MailLoops.v
BootTheorems.v
Cli.v
CliTheorems.v
RoundTrip.v
