(* ===== verification/Prelude.v ===== *)
(** * AXIOM carriers: a verification library

    The repository holds the two mail-side programs of an AXIOM validator, in
    Rust: [tot], which accepts messages from sockets and browsers and writes them
    into a maildir, and [antie], the gateway that pulls mail from carriers, reads
    the requests, has them judged by Core and Lambda, and routes the replies.
    ([fatmama], a development tool in Python, is not modelled.)

    ** How the parts work together

    tot demultiplexes a connection (raw frame, WebSocket intake, session, Nabla or
    FATMAMA tunnel), limits and stamps what it takes in, and delivers it into an
    inbox.  A session owns a directory in tot's outbox; antie deposits replies
    there, the session's pump sends them down the socket and removes them.  antie
    fetches mail through carriers (maildir, POP3, IMAP), stages pulled mail into
    its own inbox with at-least-once semantics, dispatches every inbox message and
    sends the one reply to the requester: into the session's directory when tot
    stamped the request, else by mail through the configured outbound.  A health
    endpoint exposes counters, gauges and the heartbeats of every loop.

    ** The files

    - Prelude: bytes, results, the state-and-error monad [M], machine integers,
      the string functions of the Rust standard library, hints and tactics.
    - Utf8: [from_utf8], [from_utf8_lossy].
    - Fs: the file system: paths, system calls with an oracle of failures and
      short writes, the history of stores a concurrent reader can observe; the
      interface [AtomicPublish] that every delivery implements.
    - TotInbox, TotConfig, TotServer: [tot/src/maildir.rs], [config.rs], [main.rs]
      and [tunnel.rs]; their theorems in TotStamp, TotTheorems, TotSession.  TotRun
      is the start of tot and its accept loop, with its theorem; TotSandbox is
      [sandbox.rs].  TotConcurrent cuts a delivery at its system calls and lets
      all connections, ANTIE and the rest of the machine interleave.
    - Errors: [antie/src/error.rs] and [error_response.rs].
    - Confine: [within R m], that a computation changes a disk inside the regions
      [R] only, closed under the constructs of the monad and the system calls.
    - CareOf: [care_of.rs]; Sinks: [custody.rs], [uncle_sink.rs], [skip_list.rs]
      and [maildir.rs], with SinkTheorems.
    - Config: [config.rs] and the configuration half of [carrier.rs].
    - Stats: [stats.rs] and [health.rs], with StatsTheorems; GaugeRace cuts
      the back-off gauges at their atomic operations.
    - Carriers: the carriers and sessions of [carrier.rs] (modules Io, Pop3, Imap,
      Smtp, Split, Local, Routed), with CarrierTheorems and Pop3Theorems, which
      holds an RFC 1939 reference server.
    - Pull: the inbound funnel of [gateway.rs]; PullTheorems, which states what the
      funnel needs of a carrier ([LeavesMail]).  ImapTheorems holds an RFC 3501
      reference server, against which the IMAP carrier keeps that promise.
    - Email: [email.rs] and [decrypt.rs]; EmailTheorems.
    - CoreTypes: the types and functions of Core and its wire formats, an interface
      ([CoreValues], [CoreFns]).
    - Lambda: framing and the client of [lambda_client.rs] over an interface of the
      host ([LambdaHost], [Rustls]), with LambdaTheorems; Supervisor: its start,
      stop and supervision loop as a step relation, with SupervisorTheorems.
    - CoreIpc: [core_ipc.rs].  Pgp: the key cache of [pgp.rs]; PgpTheorems.
    - Gateway: admission, dispatch and reply routing of [gateway.rs], against the
      interface [LambdaOps] that the client implements ([client_ops]);
      GatewayTheorems holds its limiter and session theorems.
    - Handlers: every request handler of [gateway.rs] and the deliveries a verdict
      calls for.  Effects shows once for all handlers that they reach the world by
      the delivery operations and the sender only ([Harmless]), so that a property
      these keep is one the handling of a message keeps.
      Their theorems: InboxTheorems (accounting, the busy gate),
      HandlerTheorems (replies, queries), ChequeTheorems (where a cheque goes),
      AdmissionTheorems (the gates before Lambda).
    - Loops: the loops of [gateway.rs] around the funnel, the inbox and the
      background ticks, over the list of what their iterations read;
      LoopTheorems.  Boot: [Gateway::new], the announcement and the tasks [run]
      spawns; BootTheorems.  Footprint names the regions of the disk a gateway
      writes to and instantiates Effects with them.
    - MailFlow: a pass of the dispatch loop over its maildir; MailLoops: the pull
      loop and the dispatch loop interleaved, with crashes, as a step relation.
    - Cli: what [main.rs] does with its arguments, the configurations it prints and
      saves, the banner, when [malloc_trim.rs] trims; CliTheorems.
    - RoundTrip: tot and antie composed: a request over a session, through the
      inbox, parser, reply routing and custody deposit, back down the socket.

    Definitions keep the names of the Rust functions; where a Rust function is
    split, the pieces are named after what they compute.  A method that takes
    [&self] takes the record; state behind a lock or an atomic is threaded.

    ** The models

    Bytes are eight-bit [ascii]; strings are their UTF-8 bytes.  Unsigned integers
    are [Z] with the source's wrap-around or saturation written out ([wrap],
    [sat_sub], ...).  Fallible stateful code is in [M W E A], whose world survives
    an error.  A disk is [Fs.world]: every system call takes an outcome from the
    oracle (run, short write, failure), and every store it creates is recorded, so
    "a reader never sees a partial file" quantifies over all interleaved reads and
    over a crash after any call.  A network session is [Io.net] over a [Peer]
    that answers each write with segments: a theorem over all peers is a theorem
    over all segmentations and stream ends.  Clocks, fresh names and process ids
    are arguments.

    Fuel: loops that read a stream take one unit per turn and are started with one
    more than the bytes pending ([Io.run_loop]); [session_loops_never_spin] shows
    it is never exhausted, whatever the peer.  [trim], [split_whitespace] and the
    UTF-8 functions use the length of their input, which drops at every turn
    ([lossy_fuel_enough]); [beats_until] a bound its theorem covers.

    A computation that waits for another process can fail, leave the process or
    never end: the error type [Errors.fault] is [Failed], [Exited] or [Hung], and
    only [Failed] is seen by a caller that matches on the result ([recover]).  A
    stream to Lambda is a pipe of arrived pieces with the way it ends; what its
    other side answers is the host's.  The lock around the child is modelled by
    its exclusive use for the length of one operation; the supervision loop takes
    it, and [stop] in two steps, as the code does.  The gateway's world is a record
    of everything outside, its counters, limiter, key cache and Lambda.

    What is other people's code is a parameter with the little that is relied on
    stated as a hypothesis: MIME parsing, Base64, CBOR, the sealed envelope, the
    wallet classes and checksums of Core, its interpreter and types, Lambda itself,
    [axiom_errors], OpenPGP, HTTP, processes, sockets and TLS.

    ** What the theorems show

    - Intake: the stamped mail begins with the server's session header and keeps
      none of the client's lines that name it outright; a name with white space
      before its colon and continuation lines pass (TotStamp); frames and tunnels are verbatim and confined, deliveries never
      collide nor show a partial message, the limiter bounds every second.
      However all calls interleave, what was acknowledged is in the inbox or was
      taken by ANTIE, once and whole, and every call ends (TotConcurrent).
    - Sessions: replies leave in name order, once, whole; every exit removes the
      session's directory; the sweep removes session directories only.
      What is sent over a session, in a mail that holds no such line, is read by
      ANTIE as that session, and its reply is sent by the next tick, on that socket
      alone, where the row suppresses mail and no file call fails (RoundTrip).
    - Deliveries: all five file deliveries of antie are atomic for readers; whatever
      a message says and whatever fails, handling it changes nothing on the disk
      outside the regions its configuration names (Footprint).
    - Routing: outbound routes match the exact right-hand domain; a care-of
      delivery happens only on a verified wallet; a reply to a held session goes
      to that session's directory and, unless its row suppresses it, to the mail
      as well; never for a dev wallet.
    - Carriers: the POP3 and IMAP clients read the mailboxes of reference servers
      exactly - of a POP3 server that sends status lines in segments of their own,
      of an IMAP server that refuses no FETCH, and there what is unseen -, an IMAP
      deletion removes its message and what was already flagged as deleted, the
      SMTP client writes exactly the conversation, no loop spins.
    - Funnel and inbox: however the pull loop, the dispatch loop, failures and kills
      interleave, every message that arrived is on the server, spam, whole in
      [new/], or handled and whole in [cur/] (MailLoops); an undisturbed pass works
      the inbox off (MailFlow).  [no_mail_is_lost] needs a carrier that deletes by
      identity and reports truly: IMAP is one when its server refuses no FETCH
      ([imap_leaves_mail]), POP3 is not.  Every
      inbox message is acknowledged and counted exactly once, with the handlers the
      gateway has, unless Core ends the process or Lambda never answers.
    - Admission: the per-wallet limiter is exact, evictions included; the witness
      handler asks Lambda only behind the gates, from which an overlapped signature
      exempts, and with the request that was decoded.
    - Handlers: replies are well formed for every type and outcome, a witness's
      being Core's projection of Lambda's own answer; a cheque goes one way; a query discloses four fields; a key is fetched once an hour.
    - Lambda: a frame is read exactly however the stream cuts it; the child is a
      queue, and after a timed-out call every caller gets the reply of the one before;
      respawning is paced on every interleaving.
    - Mail: the subject grammar, the one wire format per message type, and replies
      given byte for byte, whose headers a client cannot extend.
    - Start: a gateway that starts has every part its configuration asks for, over
      TLS where a name is given, and one loop per enabled account under its own
      name; the secrets file changes passwords and the relay's login only; what --init-maildir writes, ANTIE starts from; tot serves only sealed
      and with no stale session, and sealed means exactly the twelve calls are dead.
    - Health: a silent loop turns the verdict red by name, stalls are reported
      once, the gauges bound the streaks, the back-off beats while it waits.  With
      all loops racing, the number in back-off is exact and the streak never
      outlives the last one.  /status needs the token, /health needs none
      and shows the verdict, the uptime and three gauges.

    Some theorems prove behaviour the comments of the source do not promise:
    requests that leave a TLS client in the clear, a frame limit that some paths
    lack, replies of a child that fall one behind after a time-out, a [stop] that
    leaves a child running, a limiter that forged requests turn against a wallet; POP3
    sessions that lose a merged reply or acknowledge by stale numbers, the busy
    gate that drops sealed requests, a spaced session header that survives the
    stamp, a deposit that recreates a closed session, two readings of a
    recipient's domain, stale gauges, a back-off gauge that outlives its streak, a
    busy gate that outlives its data, a sweep that can remove tot's own inbox, a
    reply that is removed unsent because it replaced the one being sent, a reply
    without an id that is never sent, a streak gauge cleared by another loop, an
    IMAP message that is deleted because the server refused to hand it out.

    ** What is not modelled

    The scheduler (which tasks are spawned is [Boot.tasks] and [TotRun.serve]; how
    they interleave is modelled where they share state, as above: tot's deliveries
    call by call, the gauges operation by operation, the two loops of antie message
    by message, with a kill at any call), the file
    watcher of the inbox, the shutdown of the runtime; TLS and the WebSocket
    handshake; serde and TOML parsing, argument parsing; the allocator and the
    signals that reach it; decryption and key generation of [pgp.rs], which only
    its tests call. *)

From Stdlib Require Export Ascii.
From stdpp Require Export base gmap sets list strings sorting.
From Stdlib Require Export ZArith Lia.
From Stdlib Require Import DecimalN ZifyBool ZifyN.
#[global] Open Scope Z_scope.

(** ** Bytes

    A Rust [u8] is an [ascii] (eight bits), and [Vec<u8>], [&[u8]], [String]
    and [&str] are all byte sequences; a [str] is the UTF-8 encoding of its
    text.  Pattern searches for ASCII patterns on valid UTF-8 are byte
    searches. *)
Abbreviation byte := Ascii.ascii (only parsing).
Abbreviation bytes := (list Ascii.ascii) (only parsing).

Declare Scope carrier_scope.
Delimit Scope carrier_scope with carrier.
Notation "$ s" := (String.list_ascii_of_string s%string)
  (at level 1, s at level 0, format "$ s") : carrier_scope.
#[global] Open Scope carrier_scope.

Definition ch (n : N) : byte := Ascii.ascii_of_N n.
Definition code (b : byte) : N := Ascii.N_of_ascii b.
Definition CR : byte := ch 13.
Definition LF : byte := ch 10.
Definition DQ : byte := ch 34.
Definition BSLASH : byte := ch 92.
Definition crlf : bytes := [CR; LF].

Definition byte_eqb (a b : byte) : bool := bool_decide (a = b).

(** ** Results: Rust's [Result], the error type first. *)
Inductive result (E A : Type) : Type :=
  | Ok (a : A)
  | Err (e : E).
Arguments Ok {E A} a.
Arguments Err {E A} e.

#[export] Instance result_ret E : MRet (result E) := fun A a => Ok a.
#[export] Instance result_bind E : MBind (result E) :=
  fun A B f m => match m with Ok a => f a | Err e => Err e end.
#[export] Instance result_fmap E : FMap (result E) :=
  fun A B f m => match m with Ok a => Ok (f a) | Err e => Err e end.
#[export] Instance result_eq_dec E A `{EqDecision E, EqDecision A} :
  EqDecision (result E A).
Proof. solve_decision. Defined.

Lemma Ok_inj {E A} (a b : A) : Ok (E := E) a = Ok b -> a = b.
Proof. by intros [= ->]. Qed.
Lemma Err_inj {E A} (a b : E) : Err (A := A) a = Err b -> a = b.
Proof. by intros [= ->]. Qed.

Definition map_err {E F A} (f : E -> F) (m : result E A) : result F A :=
  match m with Ok a => Ok a | Err e => Err (f e) end.
Definition ok_or {E A} (e : E) (o : option A) : result E A :=
  match o with Some a => Ok a | None => Err e end.
Definition ok {E A} (m : result E A) : option A :=
  match m with Ok a => Some a | Err _ => None end.
Definition is_ok {E A} (m : result E A) : bool :=
  match m with Ok _ => true | Err _ => false end.
Definition unwrap_or {A} (d : A) (o : option A) : A :=
  match o with Some a => a | None => d end.

(** ** State and errors: a computation over a world [W] that may fail with an
    [E]; the world survives the failure, as it does when a Rust function
    returns early through the [?] operator. *)
Definition M (W E A : Type) : Type := W -> result E A * W.

#[export] Instance M_ret W E : MRet (M W E) := fun A a w => (Ok a, w).
#[export] Instance M_bind W E : MBind (M W E) := fun A B f m w =>
  match m w with
  | (Ok a, w') => f a w'
  | (Err e, w') => (Err e, w')
  end.

Definition throw {W E A} (e : E) : M W E A := fun w => (Err e, w).
Definition lift {W E A} (r : result E A) : M W E A := fun w => (r, w).
Definition get {W E} : M W E W := fun w => (Ok w, w).
Definition gets {W E A} (f : W -> A) : M W E A := fun w => (Ok (f w), w).
Definition modify {W E} (f : W -> W) : M W E unit := fun w => (Ok tt, f w).
(** [let _ = m] / [match m { Ok .. Err .. }]: the error becomes a value. *)
Definition attempt {W E F A} (m : M W E A) : M W F (result E A) :=
  fun w => let '(r, w') := m w in (Ok r, w').
Definition with_err {W E F A} (f : E -> F) (m : M W E A) : M W F A :=
  fun w => let '(r, w') := m w in (map_err f r, w').
(** Run a computation over a part of the world. *)
Definition zoom {W V E A} (g : W -> V) (s : V -> W -> W) (m : M V E A) : M W E A :=
  fun w => let '(r, v) := m (g w) in (r, s v w).
Definition mwhen {W E} (b : bool) (m : M W E unit) : M W E unit :=
  if b then m else mret tt.
Fixpoint mapM_ {W E A} (f : A -> M W E unit) (l : list A) : M W E unit :=
  match l with
  | [] => mret tt
  | x :: l' => f x ≫= fun _ => mapM_ f l'
  end.

(** ** Machine integers *)
Definition U8_MAX : Z := 2 ^ 8 - 1.
Definition U16_MAX : Z := 2 ^ 16 - 1.
Definition U32_MAX : Z := 2 ^ 32 - 1.
Definition U64_MAX : Z := 2 ^ 64 - 1.
Definition wrap (w x : Z) : Z := x mod 2 ^ w.
Definition sat_sub (x y : Z) : Z := Z.max 0 (x - y).
Definition sat_add_u64 (x y : Z) : Z := Z.min U64_MAX (x + y).
Definition sat_mul_u64 (x y : Z) : Z := Z.min U64_MAX (x * y).

Lemma wrap_bounds w x : 0 <= w -> 0 <= wrap w x < 2 ^ w.
Proof. intros. apply Z.mod_pos_bound. lia. Qed.
Lemma wrap_small w x : 0 <= x < 2 ^ w -> wrap w x = x.
Proof. apply Z.mod_small. Qed.
Lemma sat_sub_nonneg x y : 0 <= sat_sub x y.
Proof. unfold sat_sub; lia. Qed.
Lemma sat_sub_le x y : 0 <= x -> 0 <= y -> sat_sub x y <= x.
Proof. unfold sat_sub; lia. Qed.

(** ** String operations of the Rust standard library *)
Definition is_digit (b : byte) : bool := ((48 <=? code b) && (code b <=? 57))%N.
Definition is_alnum (b : byte) : bool :=
  (is_digit b || ((65 <=? code b) && (code b <=? 90))
   || ((97 <=? code b) && (code b <=? 122)))%N.
Definition ascii_lower (b : byte) : byte :=
  if ((65 <=? code b) && (code b <=? 90))%N then ch (code b + 32) else b.
Definition to_ascii_lowercase (s : bytes) : bytes := map ascii_lower s.
Definition ascii_upper (b : byte) : byte :=
  if ((97 <=? code b) && (code b <=? 122))%N then ch (code b - 32) else b.
Definition to_ascii_uppercase (s : bytes) : bytes := map ascii_upper s.
Definition eq_ignore_ascii_case (a b : bytes) : bool :=
  bool_decide (to_ascii_lowercase a = to_ascii_lowercase b).

(** [s.strip_prefix(p)] *)
Fixpoint strip_prefix (p s : bytes) : option bytes :=
  match p, s with
  | [], _ => Some s
  | a :: p', b :: s' => if decide (a = b) then strip_prefix p' s' else None
  | _ :: _, [] => None
  end.
Definition starts_with (p s : bytes) : bool :=
  match strip_prefix p s with Some _ => true | None => false end.
Definition strip_suffix (p s : bytes) : option bytes :=
  match strip_prefix (rev p) (rev s) with Some r => Some (rev r) | None => None end.
Definition ends_with (p s : bytes) : bool := starts_with (rev p) (rev s).
(** [s.contains(p)]: some suffix of [s] starts with [p]. *)
Fixpoint contains (p s : bytes) : bool :=
  starts_with p s || match s with [] => false | _ :: s' => contains p s' end.
(** [s.find(p)]: the byte index of the first match. *)
Fixpoint find_sub (p s : bytes) : option nat :=
  if starts_with p s then Some O
  else match s with [] => None | _ :: s' => S <$> find_sub p s' end.
(** [s.split_once(c)] *)
Fixpoint split_once (c : byte) (s : bytes) : option (bytes * bytes) :=
  match s with
  | [] => None
  | x :: s' => if decide (x = c) then Some ([], s')
               else match split_once c s' with
                    | Some (l, r) => Some (x :: l, r)
                    | None => None
                    end
  end.
(** [s.rsplit_once(c)] *)
Definition rsplit_once (c : byte) (s : bytes) : option (bytes * bytes) :=
  match split_once c (rev s) with
  | Some (r, l) => Some (rev l, rev r)
  | None => None
  end.
(** [s.split(c)] *)
Fixpoint split (c : byte) (s : bytes) : list bytes :=
  match s with
  | [] => [[]]
  | x :: s' => if decide (x = c) then [] :: split c s'
               else match split c s' with
                    | h :: t => (x :: h) :: t
                    | [] => [[x]]
                    end
  end.
(** [s.split_inclusive(c)]: every piece keeps its terminator; no empty last
    piece. *)
Fixpoint split_inclusive (c : byte) (s : bytes) : list bytes :=
  match s with
  | [] => []
  | x :: s' =>
      if decide (x = c) then [x] :: split_inclusive c s'
      else match split_inclusive c s' with
           | h :: t => (x :: h) :: t
           | [] => [[x]]
           end
  end.
(** [s.trim_start_matches(p)] and [s.trim_end_matches(p)] for a byte class. *)
Fixpoint trim_start_by (p : byte -> bool) (s : bytes) : bytes :=
  match s with
  | x :: s' => if p x then trim_start_by p s' else s
  | [] => []
  end.
Definition trim_end_by (p : byte -> bool) (s : bytes) : bytes :=
  rev (trim_start_by p (rev s)).
Definition is_crlf (b : byte) : bool := bool_decide (b = CR ∨ b = LF).
(** [str::lines]: split at LF, one trailing CR of each line dropped, no empty
    last line. *)
Definition drop_one_cr (l : bytes) : bytes :=
  unwrap_or l (strip_suffix [CR] l).
Definition lines (s : bytes) : list bytes :=
  map (fun l => match strip_suffix [LF] l with
                | Some l' => drop_one_cr l'
                | None => l
                end) (split_inclusive LF s).

(** [char::is_whitespace] over UTF-8: how many bytes of a leading
    White_Space code point the sequence starts with. *)
Definition ws_prefix (s : bytes) : nat :=
  match map code s with
  | (9 | 10 | 11 | 12 | 13 | 32)%N :: _ => 1
  | 194%N :: (133 | 160)%N :: _ => 2
  | 225%N :: 154%N :: 128%N :: _ => 3
  | 226%N :: 128%N :: c :: _ =>
      if ((128 <=? c) && (c <=? 138))%N || (c =? 168)%N || (c =? 169)%N || (c =? 175)%N
      then 3 else 0
  | 226%N :: 129%N :: 159%N :: _ => 3
  | 227%N :: 128%N :: 128%N :: _ => 3
  | _ => 0
  end.
(** The same from the end of a reversed sequence. *)
Definition is_ws1 (c : N) : bool := ((9 <=? c) && (c <=? 13))%N || (c =? 32)%N.
Definition is_ws2 (c d : N) : bool := ((c =? 194)%N && ((d =? 133)%N || (d =? 160)%N)).
Definition is_ws3 (c d e : N) : bool :=
  ((c =? 225) && (d =? 154) && (e =? 128) || (c =? 226) && (d =? 129) && (e =? 159)
   || (c =? 227) && (d =? 128) && (e =? 128)
   || (c =? 226) && (d =? 128)
      && ((128 <=? e) && (e <=? 138) || (e =? 168) || (e =? 169) || (e =? 175)))%N.
Definition ws_suffix (r : bytes) : nat :=
  match map code r with
  | [] => 0
  | c :: l =>
      if is_ws1 c then 1
      else match l with
           | [] => 0
           | d :: l' =>
               if is_ws2 d c then 2
               else match l' with e :: _ => if is_ws3 e d c then 3 else 0 | [] => 0 end
           end
  end.
Fixpoint trim_fuel (f : bytes -> nat) (fuel : nat) (s : bytes) : bytes :=
  match fuel with
  | O => s
  | S fuel' => match f s with O => s | n => trim_fuel f fuel' (drop n s) end
  end.
Definition trim_start (s : bytes) : bytes := trim_fuel ws_prefix (length s) s.
Definition trim_end (s : bytes) : bytes :=
  rev (trim_fuel ws_suffix (length s) (rev s)).
Definition trim (s : bytes) : bytes := trim_start (trim_end s).
(** [s.split_whitespace()] *)
Fixpoint split_ws_fuel (fuel : nat) (cur s : bytes) : list bytes :=
  match fuel with
  | O => []
  | S fuel' =>
      match s with
      | [] => if decide (cur = []) then [] else [rev cur]
      | x :: s' =>
          match ws_prefix s with
          | O => split_ws_fuel fuel' (x :: cur) s'
          | n => (if decide (cur = []) then [] else [rev cur])
                 ++ split_ws_fuel fuel' [] (drop n s)
          end
      end
  end.
Definition split_whitespace (s : bytes) : list bytes :=
  split_ws_fuel (S (length s)) [] s.

(** ** Decimal and hexadecimal text *)
Fixpoint uint_bytes (d : Decimal.uint) : bytes :=
  match d with
  | Decimal.Nil => []
  | Decimal.D0 d => "0"%char :: uint_bytes d
  | Decimal.D1 d => "1"%char :: uint_bytes d
  | Decimal.D2 d => "2"%char :: uint_bytes d
  | Decimal.D3 d => "3"%char :: uint_bytes d
  | Decimal.D4 d => "4"%char :: uint_bytes d
  | Decimal.D5 d => "5"%char :: uint_bytes d
  | Decimal.D6 d => "6"%char :: uint_bytes d
  | Decimal.D7 d => "7"%char :: uint_bytes d
  | Decimal.D8 d => "8"%char :: uint_bytes d
  | Decimal.D9 d => "9"%char :: uint_bytes d
  end.
(** [format!("{n}")] for an unsigned integer. *)
Definition show_N (n : N) : bytes := uint_bytes (N.to_uint n).
Definition show_Z (z : Z) : bytes :=
  if z <? 0 then "-"%char :: show_N (Z.to_N (- z)) else show_N (Z.to_N z).

Fixpoint digits_value (acc : N) (s : bytes) : option N :=
  match s with
  | [] => Some acc
  | x :: s' => if is_digit x then digits_value (10 * acc + (code x - 48))%N s' else None
  end.
(** [s.parse::<uN>()] with [max] the largest value of the type: an optional
    plus sign, at least one digit, no overflow. *)
Definition parse_uint (max : Z) (s : bytes) : option Z :=
  let ds := match s with x :: s' => if decide (x = "+"%char) then s' else s | [] => [] end in
  match ds with
  | [] => None
  | _ => match digits_value 0 ds with
         | Some n => if Z.of_N n <=? max then Some (Z.of_N n) else None
         | None => None
         end
  end.

(** [format!("{:?}")] of a string: quotes, backslashes and control characters
    are escaped (of the characters beyond ASCII, those of the Unicode categories
    Rust escapes as well are left as they are). *)
Definition debug_char (b : byte) : bytes :=
  let hex n := if (n <? 10)%N then ch (48 + n) else ch (87 + n) in
  if decide (b = ch 34 \/ b = ch 92) then [ch 92; b]
  else if decide (b = ch 9) then $"\t" else if decide (b = CR) then $"\r" else if decide (b = LF) then $"\n"
  else if decide (b = ch 0) then $"\0"
  else if ((code b <? 32) || (code b =? 127))%N then
    $"\u{" ++ (if (code b <? 16)%N then [] else [hex (code b / 16)%N]) ++ [hex (code b mod 16)%N] ++ $"}"
  else [b].
Definition debug_str (s : bytes) : bytes := [ch 34] ++ flat_map debug_char s ++ [ch 34].

Definition hex_digit (n : N) : byte := if (n <? 10)%N then ch (48 + n) else ch (87 + n).
(** [hex::encode] and [format!("{x:02x}")] of every byte. *)
Definition hex_encode (b : bytes) : bytes :=
  flat_map (fun x => [hex_digit (code x / 16)%N; hex_digit (code x mod 16)%N]) b.

(** ** Lemmas on byte strings, with the hint database of the development *)
Create HintDb carriers.
#[export] Hint Resolve wrap_bounds sat_sub_nonneg : carriers.

(** Split every [decide] and boolean test of the goal. *)
Ltac case_all :=
  repeat match goal with
  | |- context [decide ?P] => destruct (decide P)
  | |- context [if ?b then _ else _] => destruct b eqn:?
  end.

Lemma code_ch n : (n < 256)%N -> code (ch n) = n.
Proof. apply N_ascii_embedding. Qed.
Lemma ch_code b : ch (code b) = b.
Proof. apply ascii_N_embedding. Qed.
Lemma code_bound b : (code b < 256)%N.
Proof. apply N_ascii_bounded. Qed.
Lemma code_inj a b : code a = code b -> a = b.
Proof. intros H. rewrite <- (ch_code a), <- (ch_code b). by rewrite H. Qed.
#[export] Hint Resolve code_bound : carriers.

Lemma strip_prefix_Some p s r : strip_prefix p s = Some r <-> s = p ++ r.
Proof.
  revert s. induction p as [|a p IH]; intros s; simpl.
  - split; congruence.
  - destruct s as [|b s]; [split; discriminate|]. case_decide as D.
    + subst. rewrite IH. split; intros E; [by subst|by injection E].
    + split; [discriminate|]. intros E. injection E. congruence.
Qed.
Lemma strip_prefix_app p r : strip_prefix p (p ++ r) = Some r.
Proof. by apply strip_prefix_Some. Qed.
Lemma starts_with_spec p s : starts_with p s = true <-> exists r, s = p ++ r.
Proof.
  unfold starts_with. destruct (strip_prefix p s) as [r|] eqn:E.
  - apply strip_prefix_Some in E. split; eauto.
  - split; [discriminate|]. intros [r ->]. by rewrite strip_prefix_app in E.
Qed.
Lemma starts_with_app p r : starts_with p (p ++ r) = true.
Proof. apply starts_with_spec; eauto. Qed.
#[export] Hint Resolve starts_with_app strip_prefix_app : carriers.
Lemma rev_eq_app {A} (s a b : list A) : rev s = a ++ b <-> s = rev b ++ rev a.
Proof.
  rewrite <- rev_app_distr. split; intros E; [|subst; apply rev_involutive].
  by rewrite <- E, rev_involutive.
Qed.
Lemma strip_suffix_Some p s r : strip_suffix p s = Some r <-> s = r ++ p.
Proof.
  unfold strip_suffix. split.
  - destruct (strip_prefix (rev p) (rev s)) as [b|] eqn:E; [|discriminate].
    intros [= <-]. apply strip_prefix_Some, rev_eq_app in E.
    by rewrite rev_involutive in E.
  - intros ->. by rewrite rev_app_distr, strip_prefix_app, rev_involutive.
Qed.
Lemma contains_spec p s : contains p s = true <-> exists l r, s = l ++ p ++ r.
Proof.
  induction s as [|x s IH]; cbn [contains].
  - rewrite orb_false_r, starts_with_spec. split.
    + intros [r E]. by exists [], r.
    + intros (l & r & E). destruct l; [|discriminate]. by exists r.
  - rewrite orb_true_iff, IH, starts_with_spec. split.
    + intros [[r E]|(l & r & ->)]; [by exists [], r|by exists (x :: l), r].
    + intros (l & r & E). destruct l as [|y l].
      * left. by exists r.
      * right. injection E as -> ->. eauto.
Qed.
Lemma contains_single c s : contains [c] s = true <-> c ∈ s.
Proof.
  rewrite contains_spec. split.
  - intros (l & r & ->). set_solver.
  - intros H. apply list_elem_of_split in H as (l & r & ->). by exists l, r.
Qed.
Lemma split_once_Some c s l r :
  split_once c s = Some (l, r) <-> s = l ++ c :: r /\ c ∉ l.
Proof.
  revert l. induction s as [|x s IH]; intros l; cbn [split_once].
  - split; [discriminate|]. intros [E _]. by destruct l.
  - case_decide as D.
    + subst x. split.
      * intros [= <- <-]. split; [done|set_solver].
      * intros [E N]. destruct l as [|y l]; simplify_eq/=; [done|set_solver].
    + split.
      * destruct (split_once c s) as [[l' r']|]; [|discriminate].
        intros [= <- <-]. destruct (proj1 (IH l') eq_refl) as [-> N].
        split; [done|set_solver].
      * intros [E N]. destruct l as [|y l]; simplify_eq/=.
        rewrite (proj2 (IH l)); [done|]. split; [done|set_solver].
Qed.
Lemma split_once_None c s : split_once c s = None <-> c ∉ s.
Proof.
  split.
  - intros E H. apply list_elem_of_split_l in H as (l & r & -> & N).
    rewrite (proj2 (split_once_Some c _ l r)) in E; done.
  - intros N. destruct (split_once c s) as [[l r]|] eqn:E; [|done].
    apply split_once_Some in E as [-> _]. set_solver.
Qed.
Lemma rev_elem {A} (x : A) l : x ∈ rev l <-> x ∈ l.
Proof. by rewrite !list_elem_of_In, <- in_rev. Qed.
Lemma rsplit_once_Some c s l r :
  rsplit_once c s = Some (l, r) <-> s = l ++ c :: r /\ c ∉ r.
Proof.
  unfold rsplit_once. split.
  - destruct (split_once c (rev s)) as [[a b]|] eqn:E; [|discriminate].
    intros [= <- <-]. apply split_once_Some in E as [E N].
    apply rev_eq_app in E. simpl in E. rewrite <- app_assoc in E.
    split; [done|by rewrite rev_elem].
  - intros [-> N]. rewrite rev_app_distr. simpl. rewrite <- app_assoc.
    rewrite (proj2 (split_once_Some c _ (rev r) (rev l))).
    + by rewrite !rev_involutive.
    + split; [done|by rewrite rev_elem].
Qed.
Lemma concat_split_inclusive c s : concat (split_inclusive c s) = s.
Proof.
  induction s as [|x s IH]; simpl; [done|].
  case_decide; simpl; [by rewrite IH|].
  destruct (split_inclusive c s); simpl in *; by rewrite <- IH.
Qed.
Lemma split_inclusive_nonempty c s l : l ∈ split_inclusive c s -> l <> [].
Proof.
  revert l. induction s as [|x s IH]; simpl; intros l; [set_solver|].
  case_decide; [set_solver|].
  destruct (split_inclusive c s); set_solver.
Qed.
Lemma split_inclusive_line c b s :
  c ∉ b -> split_inclusive c (b ++ c :: s) = (b ++ [c]) :: split_inclusive c s.
Proof.
  induction b as [|x b IH]; intros N; simpl; [by rewrite decide_True|].
  rewrite decide_False by set_solver. by rewrite IH by set_solver.
Qed.

(** *** Decimal text *)
Lemma uint_bytes_digits d : Forall (fun b => is_digit b = true) (uint_bytes d).
Proof. induction d; simpl; constructor; done. Qed.
Lemma show_N_digits n : Forall (fun b => is_digit b = true) (show_N n).
Proof. apply uint_bytes_digits. Qed.
Lemma uint_bytes_inj a b : uint_bytes a = uint_bytes b -> a = b.
Proof.
  revert b. induction a; intros []; simpl; intros E;
    (discriminate E || (injection E as E; f_equal; auto) || reflexivity).
Qed.
#[export] Instance show_N_inj : Inj (=) (=) show_N.
Proof. intros a b E. by apply Unsigned.to_uint_inj, uint_bytes_inj. Qed.

(** Two digit runs followed by a non-digit agree when the texts agree. *)
Lemma digits_app_inj a b c d x y :
  Forall (fun b => is_digit b = true) a -> Forall (fun b => is_digit b = true) c ->
  is_digit x = false -> is_digit y = false ->
  a ++ x :: b = c ++ y :: d -> a = c /\ x = y /\ b = d.
Proof.
  intros Ha. revert c. induction Ha as [|h a Hh Ha IH]; intros c Hc Hx Hy E.
  - destruct Hc; simplify_eq/=; [done|congruence].
  - destruct Hc as [|h' c Hh' Hc]; simplify_eq/=; [congruence|].
    destruct (IH c) as (-> & -> & ->); auto.
Qed.

(** *** Parsing what was printed *)
Lemma digits_value_pos d p :
  digits_value (N.pos p) (uint_bytes d) = Some (N.pos (Pos.of_uint_acc d p)).
Proof.
  revert p. induction d; intros p; [done|..];
    cbn [uint_bytes digits_value Pos.of_uint_acc]; rewrite <- IHd;
    match goal with |- context [is_digit ?x] =>
      let c := eval vm_compute in (code x) in
      change (is_digit x) with true; change (code x) with c
    end; f_equal; lia.
Qed.
Lemma digits_value_show n : digits_value 0 (show_N n) = Some n.
Proof.
  unfold show_N. rewrite <- (Unsigned.of_to n) at 2. unfold N.of_uint.
  induction (N.to_uint n); [done|exact IHu|..];
    cbn [uint_bytes digits_value]; apply digits_value_pos.
Qed.
Lemma show_N_nonempty n : exists x s, show_N n = x :: s /\ is_digit x = true.
Proof.
  pose proof (show_N_digits n) as D. destruct (show_N n) as [|x s] eqn:E.
  - unfold show_N in E. destruct n as [|p]; [discriminate|].
    assert (Pos.to_uint p <> Decimal.Nil) as Hp by apply DecimalPos.Unsigned.to_uint_nonnil.
    simpl in E. by destruct (Pos.to_uint p).
  - exists x, s. split; [done|]. by inversion D.
Qed.
Lemma parse_uint_show max z : 0 <= z <= max -> parse_uint max (show_Z z) = Some z.
Proof.
  intros Hz. unfold show_Z. destruct (Z.ltb_spec z 0); [lia|]. unfold parse_uint.
  destruct (show_N_nonempty (Z.to_N z)) as (x & s & E & D).
  pose proof (digits_value_show (Z.to_N z)) as V. rewrite E in *.
  rewrite decide_False by (intros ->; discriminate). rewrite V, Z2N.id by lia.
  destruct (Z.leb_spec z max); [done|lia].
Qed.
Lemma parse_uint_bounds max s z : parse_uint max s = Some z -> 0 <= z <= max.
Proof.
  unfold parse_uint. destruct (match s with [] => [] | _ => _ end); [discriminate|].
  destruct (digits_value _ _) as [n|]; [|discriminate].
  destruct (Z.leb_spec (Z.of_N n) max); [|discriminate]. intros [= <-]. lia.
Qed.
#[export] Hint Resolve parse_uint_show : carriers.

(** *** Lists *)
Lemma filter_ext_in {A} (P Q : A -> Prop) `{forall x, Decision (P x), forall x, Decision (Q x)} (l : list A) :
  (forall x, x ∈ l -> P x <-> Q x) -> filter P l = filter Q l.
Proof.
  induction l as [|x l IH]; intros Hx; [done|].
  assert (filter P l = filter Q l) as E by (apply IH; set_solver).
  destruct (decide (P x)) as [Hp|Hp].
  - rewrite !filter_cons_True, E; [done|apply Hx; [set_solver|done]|done].
  - rewrite !filter_cons_False, E; [done|rewrite <- Hx by set_solver; done|done].
Qed.

(** *** Trimming *)
Definition printable (b : byte) : bool := ((33 <=? code b) && (code b <=? 126))%N.
Lemma ws_prefix_printable c s : printable c = true -> ws_prefix (c :: s) = O.
Proof.
  intros H. destruct c as [[] [] [] [] [] [] [] []];
    (reflexivity || (vm_compute in H; discriminate H)).
Qed.
Lemma ws_suffix_printable c s : printable c = true -> ws_suffix (c :: s) = O.
Proof.
  unfold printable. intros H. unfold ws_suffix. cbn [map]. set (n := code c) in *.
  assert (is_ws1 n = false) as -> by (unfold is_ws1; lia).
  destruct (map code s) as [|d [|e l]]; [done|..];
    assert (is_ws2 d n = false) as -> by (unfold is_ws2; lia); [done|].
  by assert (is_ws3 e d n = false) as -> by (unfold is_ws3; lia).
Qed.
Lemma trim_end_stop x c s :
  printable c = true -> Forall (fun b => ws_suffix [b] = 1%nat /\ forall r, ws_suffix (b :: r) = 1%nat) s ->
  trim_end (x ++ [c] ++ s) = x ++ [c].
Proof.
  intros Hc Hs. unfold trim_end. rewrite !rev_app_distr, <- app_assoc. change (rev [c]) with [c].
  assert (forall t, Forall (fun b => ws_suffix [b] = 1%nat /\ forall r, ws_suffix (b :: r) = 1%nat) t ->
    forall fuel, (length t <= fuel)%nat ->
    trim_fuel ws_suffix fuel (t ++ [c] ++ rev x) = [c] ++ rev x) as H.
  { induction t as [|b t IH]; intros Ht fuel Hf.
    - destruct fuel; [done|]. cbn [app trim_fuel]. by rewrite ws_suffix_printable.
    - inversion_clear Ht as [|? ? [_ Hb] Ht']. destruct fuel as [|fuel]; [simpl in Hf; lia|].
      cbn [app trim_fuel]. rewrite Hb. cbn [drop]. apply IH; [done|simpl in Hf; lia]. }
  rewrite H.
  - cbn [app rev]. by rewrite rev_involutive.
  - by apply Forall_rev.
  - rewrite !length_app, length_rev. lia.
Qed.
Lemma trim_crlf a c x :
  head x = Some a -> last x = Some c -> printable a = true -> printable c = true ->
  trim (x ++ crlf) = x.
Proof.
  intros Ha Hc Pa Pc. apply last_Some in Hc as [y ->]. unfold trim.
  replace ((y ++ [c]) ++ crlf) with (y ++ [c] ++ crlf) by (by rewrite app_assoc).
  rewrite trim_end_stop; [|done|by repeat constructor].
  unfold trim_start. destruct (y ++ [c]) as [|a' z]; [done|]. simplify_eq/=.
  by rewrite ws_prefix_printable.
Qed.
Lemma show_N_no c n : is_digit c = false -> c ∉ show_N n.
Proof.
  intros Hc Hin. pose proof (show_N_digits n) as D. rewrite Forall_forall in D.
  apply D in Hin. congruence.
Qed.
Lemma show_Z_N z : 0 <= z -> show_Z z = show_N (Z.to_N z).
Proof. intros H. unfold show_Z. destruct (Z.ltb_spec z 0); [lia|done]. Qed.

(** *** Words *)
Lemma split_ws_word fuel cur w s :
  forallb printable w = true -> (length w < fuel)%nat ->
  split_ws_fuel fuel cur (w ++ " "%char :: s) =
  (if decide (rev cur ++ w = []) then [] else [rev cur ++ w])
    ++ split_ws_fuel (fuel - length w - 1) [] s.
Proof.
  revert fuel cur. induction w as [|x w IH]; intros fuel cur Hw Hf.
  - destruct fuel as [|fuel]; [simpl in Hf; lia|]. rewrite app_nil_r.
    cbn [app split_ws_fuel ws_prefix map drop length]. change (ws_prefix (" "%char :: s)) with 1%nat.
    cbn [drop]. replace (S fuel - 0 - 1)%nat with fuel by lia.
    destruct (decide (cur = [])) as [->|N]; [done|].
    rewrite decide_False; [done|]. intros E. apply N. by rewrite <- (rev_involutive cur), E.
  - cbn [forallb length] in *. apply andb_true_iff in Hw as [Hx Hw].
    destruct fuel as [|fuel]; [lia|]. cbn [app split_ws_fuel].
    rewrite ws_prefix_printable by done. rewrite IH by (done || lia). cbn [rev].
    rewrite <- app_assoc. reflexivity.
Qed.
Lemma show_N_printable n : forallb printable (show_N n) = true.
Proof.
  apply forallb_forall. intros b Hb%list_elem_of_In. pose proof (show_N_digits n) as D.
  rewrite Forall_forall in D. apply D in Hb. unfold is_digit, printable in *. lia.
Qed.
