(* ===== verification/Utf8.v ===== *)
(** * UTF-8 as the Rust standard library decodes it

    [utf8_next] is one step of [core::str::lossy::Utf8Chunks]: how many bytes
    the next code point, or the next maximal invalid prefix, takes.
    [from_utf8_lossy] is [String::from_utf8_lossy]; [is_utf8] is what
    [std::str::from_utf8] and [read_to_string] accept. *)
From S2P Require Import Prelude.

Definition in_range (lo hi : N) (b : option byte) : bool :=
  match b with
  | Some c => ((lo <=? code c) && (code c <=? hi))%N
  | None => false
  end.
Definition cont := in_range 128 191.

(** (is it valid, how many bytes); only called on a non-empty sequence. *)
Definition utf8_next (s : bytes) : bool * nat :=
  let b0 := s !! 0%nat in let b1 := s !! 1%nat in
  let b2 := s !! 2%nat in let b3 := s !! 3%nat in
  if in_range 0 127 b0 then (true, 1%nat)
  else if in_range 194 223 b0 then
    if cont b1 then (true, 2%nat) else (false, 1%nat)
  else if in_range 224 239 b0 then
    if (if in_range 224 224 b0 then in_range 160 191 b1
        else if in_range 237 237 b0 then in_range 128 159 b1
        else cont b1)
    then if cont b2 then (true, 3%nat) else (false, 2%nat)
    else (false, 1%nat)
  else if in_range 240 244 b0 then
    if (if in_range 240 240 b0 then in_range 144 191 b1
        else if in_range 244 244 b0 then in_range 128 143 b1
        else cont b1)
    then if cont b2 then
           if cont b3 then (true, 4%nat) else (false, 3%nat)
         else (false, 2%nat)
    else (false, 1%nat)
  else (false, 1%nat).

Definition REPLACEMENT : bytes := [ch 239; ch 191; ch 189].

Fixpoint lossy_fuel (fuel : nat) (s : bytes) : bytes :=
  match fuel, s with
  | S fuel', _ :: _ =>
      let '(valid, n) := utf8_next s in
      (if valid then take n s else REPLACEMENT) ++ lossy_fuel fuel' (drop n s)
  | _, _ => []
  end.
Definition from_utf8_lossy (s : bytes) : bytes := lossy_fuel (length s) s.

Fixpoint is_utf8_fuel (fuel : nat) (s : bytes) : bool :=
  match s with
  | [] => true
  | _ :: _ =>
      match fuel with
      | O => false
      | S fuel' => let '(valid, n) := utf8_next s in valid && is_utf8_fuel fuel' (drop n s)
      end
  end.
Definition is_utf8 (s : bytes) : bool := is_utf8_fuel (length s) s.
Definition is_ascii (s : bytes) : bool := forallb (fun b => (code b <? 128)%N) s.

Ltac utf8_cases := unfold utf8_next; case_all; simpl; try lia; auto.

Lemma utf8_next_pos s : (1 <= (utf8_next s).2)%nat.
Proof. utf8_cases. Qed.

Lemma utf8_next_length s : s <> [] -> ((utf8_next s).2 <= length s)%nat.
Proof.
  intros H. destruct s as [|a [|b [|c [|d s]]]]; [done|..];
    unfold utf8_next, cont; simpl; case_all; simpl in *; try lia; try discriminate;
    repeat match goal with H : (if ?b then _ else _) = true |- _ => destruct b end;
    discriminate.
Qed.

Lemma lossy_fuel_enough fuel s :
  (length s <= fuel)%nat -> lossy_fuel fuel s = from_utf8_lossy s.
Proof.
  unfold from_utf8_lossy. revert s.
  induction fuel as [fuel IH] using lt_wf_ind; intros s Hl.
  destruct s as [|a s]; [by destruct fuel|]. destruct fuel as [|fuel]; [simpl in *; lia|].
  cbn [lossy_fuel length]. pose proof (utf8_next_pos (a :: s)) as Hp.
  destruct (utf8_next (a :: s)) as [v n] eqn:E. simpl in Hp. f_equal.
  destruct n as [|n]; [lia|]. simpl in *.
  assert (length (drop n s) <= length s)%nat by (rewrite length_drop; lia).
  rewrite (IH fuel) by lia.
  destruct (decide (length s = fuel)) as [->|]; [by rewrite (IH fuel) by lia|].
  rewrite (IH (length s)) by lia. done.
Qed.

Lemma from_utf8_lossy_cons a s :
  from_utf8_lossy (a :: s) =
    (if (utf8_next (a :: s)).1 then take (utf8_next (a :: s)).2 (a :: s) else REPLACEMENT)
    ++ from_utf8_lossy (drop (utf8_next (a :: s)).2 (a :: s)).
Proof.
  unfold from_utf8_lossy at 1. cbn [lossy_fuel length].
  pose proof (utf8_next_pos (a :: s)) as Hp.
  destruct (utf8_next (a :: s)) as [v n]. simpl in *. f_equal.
  apply lossy_fuel_enough. destruct n; [lia|]. simpl. rewrite length_drop. lia.
Qed.

(** Valid UTF-8 passes through unchanged. *)
Lemma lossy_valid s : is_utf8 s = true -> from_utf8_lossy s = s.
Proof.
  unfold is_utf8, from_utf8_lossy. generalize (length s) at 1 2. intros n. revert s.
  induction n as [|n IH]; intros [|a s]; try done.
  cbn [is_utf8_fuel lossy_fuel]. destruct (utf8_next (a :: s)) as [[] k]; [|done].
  intros H. rewrite (IH _ H). apply take_drop.
Qed.

Lemma ascii_next a s : (code a < 128)%N -> utf8_next (a :: s) = (true, 1%nat).
Proof.
  intros H. unfold utf8_next. simpl.
  destruct (code a); simpl; [done|].
  assert ((N.pos p <=? 127)%N = true) as -> by (apply N.leb_le; lia). done.
Qed.
Lemma lossy_ascii_cons a s :
  (code a < 128)%N -> from_utf8_lossy (a :: s) = a :: from_utf8_lossy s.
Proof. intros H. by rewrite from_utf8_lossy_cons, ascii_next. Qed.
Lemma is_ascii_utf8 s : is_ascii s = true -> is_utf8 s = true.
Proof.
  unfold is_utf8. induction s as [|a s IH]; [done|]. cbn [is_utf8_fuel length is_ascii forallb].
  rewrite andb_true_iff, N.ltb_lt. intros [Ha Hs]. rewrite ascii_next by done.
  by apply IH.
Qed.
Lemma lossy_ascii s : is_ascii s = true -> from_utf8_lossy s = s.
Proof. auto using lossy_valid, is_ascii_utf8. Qed.
#[export] Hint Resolve is_ascii_utf8 lossy_valid lossy_ascii : carriers.
Lemma is_ascii_app a b : is_ascii (a ++ b) = is_ascii a && is_ascii b.
Proof. apply forallb_app. Qed.
Lemma is_ascii_show n : is_ascii (show_N n) = true.
Proof.
  apply forallb_forall. intros b Hb%list_elem_of_In. pose proof (show_N_digits n) as D.
  rewrite Forall_forall in D. apply D in Hb. unfold is_digit in Hb. lia.
Qed.
Lemma printable_ascii c : printable c = true -> is_ascii [c] = true.
Proof. unfold printable, is_ascii. cbn [forallb]. lia. Qed.
