(* ===== verification/Fs.v ===== *)
(** * The file system both programs write

    A path is the list of its components from the root; [join] is
    [PathBuf::join] followed by the resolution the operating system applies to
    ["."] and [".."] (no symbolic links).  The store maps every path to a
    directory or to a file with its content.  Each system call consumes one
    entry of [oracle]: [Go] lets it run, [Short n] makes a [write(2)] accept
    only [n] bytes, [Fail e] makes it fail with [e]; an exhausted oracle lets
    every call run.  [hist] holds every store a concurrent reader could have
    seen, newest first, so that "never observes a partial file" is a statement
    about [hist].  [listing] is the order in which the operating system lists
    a directory. *)
From S2P Require Import Prelude.

Abbreviation path := (list bytes) (only parsing).

Inductive io_kind : Type :=
  | NotFound | PermissionDenied | AlreadyExists | InvalidInput | InvalidData
  | NotADirectory | IsADirectory | StorageFull | WriteZero | UnexpectedEof
  | TimedOut | ConnectionReset | OtherIo.
#[export] Instance io_kind_eq_dec : EqDecision io_kind.
Proof. solve_decision. Defined.

Record io_error : Type := IoErr { io_kind_of : io_kind; io_msg : bytes }.
#[export] Instance io_error_eq_dec : EqDecision io_error.
Proof. solve_decision. Defined.

Inductive node : Type := Dir | File (content : bytes).
#[export] Instance node_eq_dec : EqDecision node.
Proof. solve_decision. Defined.

Abbreviation store :=
  (@gmap (list (list Ascii.ascii)) (@list_eq_dec (list Ascii.ascii) list_eq_dec)
     (@list_countable (list Ascii.ascii) _ (@list_countable Ascii.ascii _ Ascii.countable)) node).

Inductive outcome : Type := Go | Short (n : nat) | Fails (e : io_error).

Record world : Type := World {
    fs : store;
    oracle : list outcome;
    hist : list store;
    listing : list bytes -> list bytes;
}.

Abbreviation io := (M world io_error).

(** ** Paths *)
Definition resolve1 (p : path) (c : bytes) : path :=
  if decide (c = [] ∨ c = $".") then p
  else if decide (c = $"..") then removelast p
  else p ++ [c].
Definition resolve (p : path) (cs : list bytes) : path := foldl resolve1 p cs.
(** [p.join(name)]: an absolute [name] replaces [p]. *)
Definition join (p : path) (name : bytes) : path :=
  if starts_with $"/" name then resolve [] (split "/"%char name)
  else resolve p (split "/"%char name).
Definition parse_path (s : bytes) : path := resolve [] (split "/"%char s).
(** [p.display()] of an absolute path. *)
Definition display_path (p : path) : bytes := flat_map (fun c => $"/" ++ c) p.
Definition file_name (p : path) : option bytes := last p.
(** [Path::extension]: what follows the last dot of the file name, unless the
    only dot is its first byte. *)
Definition extension (p : path) : option bytes :=
  match file_name p with
  | Some n => match rsplit_once "."%char n with
              | Some ([], _) | None => None
              | Some (_, e) => Some e
              end
  | None => None
  end.
Definition parent (p : path) : path := removelast p.

(** ** System calls *)
Definition err_not_found : io_error :=
  IoErr NotFound $"No such file or directory (os error 2)".
Definition err_exists : io_error := IoErr AlreadyExists $"File exists (os error 17)".
Definition err_not_dir : io_error := IoErr NotADirectory $"Not a directory (os error 20)".
Definition err_is_dir : io_error := IoErr IsADirectory $"Is a directory (os error 21)".
Definition err_write_zero : io_error := IoErr WriteZero $"failed to write whole buffer".

Definition set_fs (m : store) (w : world) : world :=
  {| fs := m; oracle := oracle w; hist := m :: hist w; listing := listing w |}.
Definition set_oracle (o : list outcome) (w : world) : world :=
  {| fs := fs w; oracle := o; hist := hist w; listing := listing w |}.
Definition put_fs (m : store) : io unit := modify (set_fs m).
Definition next_outcome : io outcome := fun w =>
  match oracle w with
  | [] => (Ok Go, w)
  | o :: os => (Ok o, set_oracle os w)
  end.
(** A call that either runs or fails, with no partial effect. *)
Definition syscall : io unit :=
  o ← next_outcome; match o with Fails e => throw e | _ => mret tt end.

Definition is_dir (m : store) (p : path) : bool := bool_decide (p = [] ∨ m !! p = Some Dir).
Definition is_file (m : store) (p : path) : bool :=
  match m !! p with Some (File _) => true | _ => false end.

Definition mkdir_step (full p : path) : io unit :=
  m ← gets fs;
  if is_dir m p then mret tt
  else match m !! p with
       | Some _ => throw (if decide (p = full) then err_exists else err_not_dir)
       | None => _ ← syscall; put_fs (<[p := Dir]> m)
       end.
Fixpoint prefixes_from (p : path) (rest : path) : list path :=
  match rest with
  | [] => []
  | c :: rest' => (p ++ [c]) :: prefixes_from (p ++ [c]) rest'
  end.
(** [create_dir_all]: every missing level, outermost first. *)
Definition create_dir_all (p : path) : io unit := mapM_ (mkdir_step p) (prefixes_from [] p).

(** [File::create]: create or truncate. *)
Definition file_create (p : path) : io unit :=
  _ ← syscall; m ← gets fs;
  if is_dir m p then throw err_is_dir
  else if is_dir m (parent p) then put_fs (<[p := File []]> m)
  else throw err_not_found.

(** One [write(2)] of the descriptor open on [p], appending at its offset. *)
Definition append_at (p : path) (b : bytes) : io unit :=
  m ← gets fs;
  match m !! p with
  | Some (File c) => put_fs (<[p := File (c ++ b)]> m)
  | _ => mret tt
  end.
(** [write_all]: write(2) until every byte is accepted; a write accepting no
    byte is the [WriteZero] error. *)
Fixpoint write_all_fuel (fuel : nat) (p : path) (b : bytes) : io unit :=
  match fuel, b with
  | _, [] => mret tt
  | O, _ => throw err_write_zero
  | S fuel', _ =>
      o ← next_outcome;
      match o with
      | Fails e => throw e
      | Short O => throw err_write_zero
      | Short n => _ ← append_at p (take n b); write_all_fuel fuel' p (drop n b)
      | Go => append_at p b
      end
  end.
Definition write_all (p : path) (b : bytes) : io unit := write_all_fuel (length b) p b.
Definition sync_all : io unit := syscall.
(** [File::open(dir)?.sync_all()?] *)
Definition sync_dir (p : path) : io unit :=
  _ ← syscall; m ← gets fs;
  if is_dir m p || is_file m p then sync_all else throw err_not_found.
(** [fs::write]: create, then write everything. *)
Definition fs_write (p : path) (b : bytes) : io unit :=
  _ ← file_create p; write_all p b.

(** [fs::rename] of a file; only files are renamed by the programs. *)
Definition rename (src dst : path) : io unit :=
  _ ← syscall; m ← gets fs;
  match m !! src with
  | Some (File c) =>
      if is_dir m dst then throw err_is_dir
      else if is_dir m (parent dst)
      then put_fs (<[dst := File c]> (delete src m))
      else throw err_not_found
  | Some Dir => throw err_is_dir
  | None => throw err_not_found
  end.
Definition remove_file (p : path) : io unit :=
  _ ← syscall; m ← gets fs;
  match m !! p with
  | Some (File _) => put_fs (delete p m)
  | Some Dir => throw err_is_dir
  | None => throw err_not_found
  end.
Definition remove_dir_all (p : path) : io unit :=
  _ ← syscall; m ← gets fs;
  match m !! p with
  | Some Dir => put_fs (filter (fun kv => ~ (p `prefix_of` kv.1)) m)
  | Some (File _) => throw err_not_dir
  | None => throw err_not_found
  end.

(** The names in a directory; [read_dir] lists them in the order the
    operating system chooses. *)
Definition child_of (p q : path) : option bytes :=
  match last q with
  | Some n => if decide (q = p ++ [n]) then Some n else None
  | None => None
  end.
Definition children (m : store) (p : path) : list bytes :=
  omap (fun kv => child_of p kv.1) (map_to_list m).
Definition read_dir (p : path) : io (list bytes) :=
  _ ← syscall; m ← gets fs;
  if is_dir m p then f ← gets listing; mret (f (children m p))
  else match m !! p with
       | Some _ => throw err_not_dir
       | None => throw err_not_found
       end.
Definition read_file (p : path) : io bytes :=
  _ ← syscall; m ← gets fs;
  match m !! p with
  | Some (File c) => mret c
  | Some Dir => throw err_is_dir
  | None => throw err_not_found
  end.

(** ** Byte order, the [Ord] of names in one directory *)
Fixpoint bytes_leb (a b : bytes) : bool :=
  match a, b with
  | [], _ => true
  | _ :: _, [] => false
  | x :: a', y :: b' =>
      if decide (code x = code y) then bytes_leb a' b' else (code x <? code y)%N
  end.
Definition bytes_le (a b : bytes) : Prop := bytes_leb a b = true.
#[export] Instance bytes_le_dec : RelDecision bytes_le.
Proof. intros a b. unfold bytes_le. apply _. Defined.
#[export] Instance bytes_le_total : Total bytes_le.
Proof.
  unfold bytes_le. intros a. induction a as [|x a IH]; intros [|y b]; simpl; auto.
  repeat case_decide; try congruence; auto.
  destruct (N.lt_total (code x) (code y)) as [L|[L|L]]; [|congruence|];
    apply N.ltb_lt in L; auto.
Qed.
#[export] Instance bytes_le_trans : Transitive bytes_le.
Proof.
  unfold bytes_le. intros a. induction a as [|x a IH]; intros [|y b] [|z c]; simpl; auto;
    try discriminate.
  repeat case_decide; try congruence; eauto; rewrite ?N.ltb_lt; try congruence; lia.
Qed.
#[export] Instance bytes_le_antisym : AntiSymm (=) bytes_le.
Proof.
  unfold bytes_le. intros a. induction a as [|x a IH]; intros [|y b]; simpl;
    try discriminate; auto.
  repeat case_decide; try congruence.
  - intros. f_equal; [by apply code_inj|auto].
  - rewrite !N.ltb_lt. lia.
Qed.
Definition sort_names : list bytes -> list bytes := merge_sort bytes_le.

(** ** Joining one plain name *)
Definition plain_name (n : bytes) : bool :=
  bool_decide ("/"%char ∉ n /\ n <> [] /\ n <> $"." /\ n <> $"..").

Lemma split_no_sep c s : c ∉ s -> split c s = [s].
Proof.
  induction s as [|x s IH]; intros N; simpl; [done|].
  rewrite decide_False by set_solver. rewrite IH; set_solver.
Qed.
Lemma join_plain p n : plain_name n = true -> join p n = p ++ [n].
Proof.
  unfold plain_name. rewrite bool_decide_eq_true. intros (Hs & H0 & H1 & H2).
  unfold join. destruct (starts_with _ n) eqn:E.
  - apply starts_with_spec in E as [r ->]. set_solver.
  - rewrite split_no_sep by done. simpl. unfold resolve1.
    rewrite decide_False by (intros [?|?]; done). by rewrite decide_False.
Qed.
#[export] Hint Resolve join_plain : carriers.

(** ** A program logic for file-system code

    [triple I P m Q]: run from a store satisfying [P], [m] ends with [Q] of its
    result and store, every store it makes visible on the way satisfies [I],
    and the outcomes it consumed are the first ones of the oracle. *)
Definition triple {E A : Type} (I P : store -> Prop) (m : M world E A)
    (Q : result E A -> store -> Prop) : Prop :=
  forall w, P (fs w) ->
    (exists new used, hist (m w).2 = new ++ hist w /\ oracle w = used ++ oracle (m w).2 /\
       Forall I new) /\ Q (m w).1 (fs (m w).2).

(** The part of a postcondition that a failure must meet. *)
Definition on_err {E T U : Type} (Q : result E U -> store -> Prop)
    (P : T -> store -> Prop) (r : result E T) : store -> Prop :=
  match r with Ok a => P a | Err e => Q (Err e) end.

Section logic.
Context {E A B : Type}.
Implicit Types (I P : store -> Prop).

Lemma triple_ret I P (a : A) (Q : result E A -> store -> Prop) :
  (forall s, P s -> Q (Ok a) s) -> triple I P (mret a) Q.
Proof. intros HQ w HP. split; [by exists [], []|simpl; auto]. Qed.
Lemma triple_throw I P (e : E) (Q : result E A -> store -> Prop) :
  (forall s, P s -> Q (Err e) s) -> triple I P (throw e) Q.
Proof. intros HQ w HP. split; [by exists [], []|simpl; auto]. Qed.
Lemma triple_bind I P (m : M world E A) (f : A -> M world E B)
  (R : A -> store -> Prop) (Q : result E B -> store -> Prop) :
  triple I P m (on_err Q R) -> (forall a, triple I (R a) (f a) Q) ->
  triple I P (m ≫= f) Q.
Proof.
  intros Hm Hf w HP. destruct (Hm w HP) as ((n1 & u1 & E1 & O1 & F1) & Q1).
  unfold mbind, M_bind. destruct (m w) as [[a|e] w'] eqn:Em; simpl in *.
  - destruct (Hf a w' Q1) as ((n2 & u2 & E2 & O2 & F2) & Q2). split; [|done].
    exists (n2 ++ n1), (u1 ++ u2). rewrite E2, E1, O1, O2, !app_assoc.
    repeat split; try done. by apply Forall_app.
  - split; [|done]. by exists n1, u1.
Qed.
Lemma triple_conseq I P P' (m : M world E A) (Q Q' : result E A -> store -> Prop) :
  (forall s, P s -> P' s) -> (forall r s, Q' r s -> Q r s) ->
  triple I P' m Q' -> triple I P m Q.
Proof. intros HP HQ Hm w H. destruct (Hm w (HP _ H)) as [? ?]. auto. Qed.
Lemma triple_pure I P (m : M world E A) (Q : result E A -> store -> Prop) (X : Prop) :
  (forall s, P s -> X) -> (X -> triple I P m Q) -> triple I P m Q.
Proof. intros HX Hm w HP. apply Hm; eauto. Qed.
Lemma triple_weaken I I' P (m : M world E A) (Q : result E A -> store -> Prop) :
  (forall s, I s -> I' s) -> triple I P m Q -> triple I' P m Q.
Proof.
  intros HI Hm w H. destruct (Hm w H) as ((n & u & E1 & E2 & F) & HQ). split; [|done].
  exists n, u. repeat split; try done. eapply Forall_impl; eauto.
Qed.
End logic.

Implicit Types (I P : store -> Prop) (s : store).

Lemma triple_with_fs {E A : Type} I P (f : store -> M world E A)
    (Q : result E A -> store -> Prop) :
  (forall s0, P s0 -> triple I (eq s0) (f s0) Q) -> triple I P (m ← gets fs; f m) Q.
Proof. intros Hf w HP. unfold mbind, M_bind, gets. simpl. by apply (Hf (fs w) HP w). Qed.
Lemma triple_put I P s (Q : result io_error unit -> store -> Prop) :
  (forall s0, P s0 -> I s /\ Q (Ok tt) s) -> triple I P (put_fs s) Q.
Proof.
  intros HQ w HP. destruct (HQ _ HP) as [HI Hq].
  split; [exists [s], []; simpl; auto|done].
Qed.
Lemma triple_next I P (Q : result io_error outcome -> store -> Prop) :
  (forall o s, P s -> Q (Ok o) s) -> triple I P next_outcome Q.
Proof.
  intros HQ w HP. unfold next_outcome. destruct (oracle w) as [|o os] eqn:E; simpl.
  - split; [exists [], []; simpl; auto|auto].
  - split; [exists [], [o]; simpl; auto|auto].
Qed.
Lemma triple_syscall I P (Q : result io_error unit -> store -> Prop) :
  (forall r s, P s -> Q r s) -> triple I P syscall Q.
Proof.
  intros HQ. unfold syscall. apply triple_bind with (fun _ => P).
  - apply triple_next. auto.
  - intros []; (apply triple_ret || apply triple_throw); auto.
Qed.
Lemma triple_sync_dir I P p (Q : result io_error unit -> store -> Prop) :
  (forall r s, P s -> Q r s) -> triple I P (sync_dir p) Q.
Proof.
  intros HQ. unfold sync_dir. apply triple_bind with (fun _ => P).
  - apply triple_syscall. intros [] s; simpl; auto.
  - intros _. apply triple_with_fs. intros s0 HP. case_match.
    + apply triple_syscall. intros r s <-; auto.
    + apply triple_throw. intros s <-; auto.
Qed.
Lemma triple_attempt {E F A : Type} I P (m : M world E A)
    (Q : result F (result E A) -> store -> Prop) :
  triple I P m (fun r s => Q (Ok r) s) -> triple I P (attempt m) Q.
Proof.
  intros Hm w HP. destruct (Hm w HP) as [H ?]. unfold attempt.
  by destruct (m w).
Qed.
Lemma triple_with_err {E F A : Type} I P (f : E -> F) (m : M world E A)
    (Q : result F A -> store -> Prop) :
  triple I P m (fun r s => Q (map_err f r) s) -> triple I P (with_err f m) Q.
Proof.
  intros Hm w HP. destruct (Hm w HP) as [H ?]. unfold with_err.
  by destruct (m w).
Qed.
Lemma triple_mapM_ {E A : Type} I P (f : A -> M world E unit) l
    (Q : result E unit -> store -> Prop) :
  (forall x, triple I P (f x) (on_err Q (fun _ => P))) -> (forall s, P s -> Q (Ok tt) s) ->
  triple I P (mapM_ f l) Q.
Proof.
  intros Hf HQ. induction l as [|x l IH]; simpl; [by apply triple_ret|].
  by apply triple_bind with (fun _ => P).
Qed.

(** *** Atomic publication

    [published s0 tmp dst b s]: starting from [s0], the only file that differs
    in [s], the private [tmp] aside, is [dst], and it holds all of [b];
    directories may have been created where nothing was. *)
Definition published (s0 : store) (tmp dst : path) (b : bytes) (s : store) : Prop :=
  forall q, q <> tmp ->
    s !! q = s0 !! q \/ (q = dst /\ s !! q = Some (File b))
    \/ (s0 !! q = None /\ s !! q = Some Dir).

Section publication.
Variables (s0 : store) (tmp dst : path) (b : bytes).
Abbreviation I := (published s0 tmp dst b).

Lemma published_refl : I s0.
Proof. intros q _. by left. Qed.
Lemma published_tmp s v : I s -> I (<[tmp := v]> s).
Proof. intros H q Hq. rewrite lookup_insert_ne by done. auto. Qed.
Lemma published_del_tmp s : I s -> I (delete tmp s).
Proof. intros H q Hq. rewrite lookup_delete_ne by done. auto. Qed.
Lemma published_mkdir s p : I s -> s !! p = None -> I (<[p := Dir]> s).
Proof.
  intros H Hp q Hq. destruct (decide (q = p)) as [->|N].
  - rewrite lookup_insert_eq. destruct (H p Hq) as [E|[[_ E]|[_ E]]]; [|congruence..].
    right; right. by rewrite <- E.
  - rewrite lookup_insert_ne by done. auto.
Qed.
Lemma published_dst s : I s -> I (<[dst := File b]> (delete tmp s)).
Proof.
  intros H q Hq. destruct (decide (q = dst)) as [->|N].
  - rewrite lookup_insert_eq. auto.
  - rewrite lookup_insert_ne, lookup_delete_ne by done. auto.
Qed.

Lemma create_dir_all_keeps p (Q : result io_error unit -> store -> Prop) :
  (forall r s, I s -> Q r s) -> triple I I (create_dir_all p) Q.
Proof.
  intros HQ. apply triple_mapM_; [|auto]. intros x. unfold mkdir_step.
  apply triple_with_fs. intros s HI. case_match.
  - apply triple_ret. by intros ? <-.
  - destruct (s !! x) as [v|] eqn:E.
    + apply triple_throw. intros ? <-. simpl. auto.
    + apply triple_bind with (fun _ => eq s).
      * apply triple_syscall. intros [] ? <-; simpl; auto.
      * intros _. apply triple_put. intros ? <-. simpl.
        split; by apply published_mkdir.
Qed.

Lemma append_at_keeps c d :
  triple I (fun s => I s /\ s !! tmp = Some (File c)) (append_at tmp d)
  (fun r s => r = Ok tt /\ I s /\ s !! tmp = Some (File (c ++ d))).
Proof.
  unfold append_at. apply triple_with_fs. intros s [HI E]. rewrite E.
  apply triple_put. intros ? <-. rewrite lookup_insert_eq.
  repeat split; by apply published_tmp.
Qed.

(** Whatever the writes do, the bytes reach the private file only, and a
    [write_all] that succeeds has written them all. *)
Lemma write_all_fuel_keeps fuel c d :
  triple I (fun s => I s /\ s !! tmp = Some (File c)) (write_all_fuel fuel tmp d)
  (fun r s => I s /\ (r = Ok tt -> s !! tmp = Some (File (c ++ d)))).
Proof.
  revert c d. induction fuel as [|fuel IH]; intros c d; simpl; destruct d as [|x d'].
  - apply triple_ret. intros s [? ?]. by rewrite app_nil_r.
  - apply triple_throw. intros s [? ?]. split; [done|discriminate].
  - apply triple_ret. intros s [? ?]. by rewrite app_nil_r.
  - set (d := x :: d'). apply triple_bind with
      (fun _ s => I s /\ s !! tmp = Some (File c)); [by apply triple_next|].
    intros [|[|n]|e].
    + eapply triple_conseq, (append_at_keeps c d); [done|]. intros r s (-> & ? & ?). auto.
    + apply triple_throw. intros s [? ?]. split; [done|discriminate].
    + apply triple_bind with
        (fun _ s => I s /\ s !! tmp = Some (File (c ++ take (S n) d))).
      * eapply triple_conseq, (append_at_keeps c (take (S n) d)); [done|].
        by intros r s (-> & ? & ?).
      * intros _. replace (c ++ d) with ((c ++ take (S n) d) ++ drop (S n) d).
        -- apply IH.
        -- by rewrite <- app_assoc, take_drop.
    + apply triple_throw. intros s [? ?]. split; [done|discriminate].
Qed.

Lemma file_create_keeps :
  triple I I (file_create tmp)
  (fun r s => I s /\ (r = Ok tt -> s !! tmp = Some (File []))).
Proof.
  unfold file_create. apply triple_bind with (fun _ => I).
  { apply triple_syscall. intros [] s ?; simpl; [done|]. split; [done|discriminate]. }
  intros _. apply triple_with_fs. intros s HI. case_match; [|case_match].
  - apply triple_throw. intros ? <-. split; [done|discriminate].
  - apply triple_put. intros ? <-. rewrite lookup_insert_eq.
    repeat split; by apply published_tmp.
  - apply triple_throw. intros ? <-. split; [done|discriminate].
Qed.

Lemma fs_write_keeps :
  triple I I (fs_write tmp b)
  (fun r s => I s /\ (r = Ok tt -> s !! tmp = Some (File b))).
Proof.
  unfold fs_write. apply triple_bind with (fun _ s => I s /\ s !! tmp = Some (File [])).
  - eapply triple_conseq, file_create_keeps; [done|].
    intros [[]|] s [? H]; simpl; [auto|]. split; [done|discriminate].
  - intros _. unfold write_all. eapply triple_conseq, (write_all_fuel_keeps _ []); done.
Qed.

Lemma rename_publishes :
  triple I (fun s => I s /\ s !! tmp = Some (File b)) (rename tmp dst)
  (fun r s => I s /\ (r = Ok tt -> s !! dst = Some (File b))).
Proof.
  unfold rename. apply triple_bind with (fun _ s => I s /\ s !! tmp = Some (File b)).
  { apply triple_syscall. intros [] s [? ?]; simpl; [done|]. split; [done|discriminate]. }
  intros _. apply triple_with_fs. intros s [HI E]. rewrite E.
  case_match; [|case_match].
  - apply triple_throw. intros ? <-. split; [done|discriminate].
  - apply triple_put. intros ? <-. rewrite lookup_insert_eq.
    repeat split; by apply published_dst.
  - apply triple_throw. intros ? <-. split; [done|discriminate].
Qed.

Lemma remove_tmp_keeps : triple I I (remove_file tmp) (fun _ => I).
Proof.
  unfold remove_file. apply triple_bind with (fun _ => I).
  { apply triple_syscall. by intros [] s ?. }
  intros _. apply triple_with_fs. intros s HI. destruct (s !! tmp) as [[|c]|].
  - apply triple_throw. by intros ? <-.
  - apply triple_put. intros ? <-. split; by apply published_del_tmp.
  - apply triple_throw. by intros ? <-.
Qed.
End publication.

(** *** An operation that publishes nothing

    Every file outside [tmp] is as it was. *)
Definition files_kept (tmp : path) (s0 s : store) : Prop :=
  forall q c, q <> tmp -> s !! q = Some (File c) <-> s0 !! q = Some (File c).
Lemma published_nothing s0 tmp b s : published s0 tmp tmp b s -> files_kept tmp s0 s.
Proof.
  intros H q c Hq. destruct (H q Hq) as [->|[[-> _]|[E1 E2]]]; [done..|]. split; congruence.
Qed.
Lemma rename_fails P src dst :
  triple (fun _ => True) P (rename src dst) (fun r s => is_ok r = false -> P s).
Proof.
  unfold rename. apply triple_bind with (fun _ => P); [by apply triple_syscall; intros [] ? ?; simpl|].
  intros _. apply triple_with_fs. intros s HP. destruct (s !! src) as [[|c]|];
    [by apply triple_throw; intros ? <-| |by apply triple_throw; intros ? <-].
  case_match; [by apply triple_throw; intros ? <-|].
  case_match; [by apply triple_put; intros ? <-|by apply triple_throw; intros ? <-].
Qed.
(** Preparing the private file publishes nothing. *)
Definition prepares {E A : Type} (s0 : store) (tmp : path) (b : bytes) (m : M world E A) : Prop :=
  triple (fun _ => True) (published s0 tmp tmp b) m (fun _ => published s0 tmp tmp b).
Lemma prepares_mkdir s0 tmp b p : prepares s0 tmp b (create_dir_all p).
Proof. eapply triple_weaken; [|by apply create_dir_all_keeps]. done. Qed.
Lemma prepares_write s0 tmp b : prepares s0 tmp b (fs_write tmp b).
Proof.
  eapply triple_weaken, triple_conseq, fs_write_keeps; [done..|]. by intros r s [? _].
Qed.
Lemma prepares_remove s0 tmp b : prepares s0 tmp b (remove_file tmp).
Proof. eapply triple_weaken, remove_tmp_keeps. done. Qed.
Lemma prepares_err {E F A : Type} s0 tmp b (f : E -> F) (m : M world E A) :
  prepares s0 tmp b m -> prepares s0 tmp b (with_err f m).
Proof. intros H. by apply triple_with_err. Qed.
Lemma prepares_bind {E A B : Type} s0 tmp b (m : M world E A) (f : A -> M world E B) (Q : result E B -> store -> Prop) :
  prepares s0 tmp b m -> (forall e s, published s0 tmp tmp b s -> Q (Err e) s) ->
  (forall a, triple (fun _ => True) (published s0 tmp tmp b) (f a) Q) ->
  triple (fun _ => True) (published s0 tmp tmp b) (m ≫= f) Q.
Proof.
  intros Hm He Hf. apply triple_bind with (fun _ => published s0 tmp tmp b); [|done].
  eapply triple_conseq, Hm; [done|]. intros [a|e] s H; simpl; auto.
Qed.

(** The promise every delivery into a directory read by another process makes:
    at no point does the store show a file other than the private temporary one
    changed, except the destination, complete; and success means it is there. *)
Class AtomicPublish {E A : Type} (op : M world E A) (tmp dst : path) (b : bytes) : Prop := {
    publish_triple : forall s0,
      triple (published s0 tmp dst b) (eq s0) op
        (fun r s => published s0 tmp dst b s /\
                    (is_ok r = true -> s !! dst = Some (File b)));
}.

(** *** Sequencing inside a publication *)
Section publish_steps.
Context (s0 : store) (tmp dst : path) (b : bytes).
Abbreviation I := (published s0 tmp dst b).
Definition pub_post {E A : Type} (r : result E A) (s : store) : Prop :=
  published s0 tmp dst b s /\ (is_ok r = true -> s !! dst = Some (File b)).
Definition pub_step {E A : Type} (P R : store -> Prop) (m : M world E A) : Prop :=
  triple I (fun s => I s /\ P s) m (fun r s => I s /\ (is_ok r = true -> R s)).

Lemma pub_bind {E A B : Type} P R (m : M world E A) (f : A -> M world E B) :
  pub_step P R m ->
  (forall a, triple I (fun s => I s /\ R s) (f a) pub_post) ->
  triple I (fun s => I s /\ P s) (m ≫= f) pub_post.
Proof.
  intros Hm Hf. apply triple_bind with (fun _ s => I s /\ R s); [|done].
  eapply triple_conseq, Hm; [done|]. intros [a|e] s [? H]; simpl; auto.
  split; [done|discriminate].
Qed.
Lemma pub_step_err {E F A : Type} P R (g : E -> F) (m : M world E A) :
  pub_step P R m -> pub_step P R (with_err g m).
Proof.
  intros Hm. apply triple_with_err. eapply triple_conseq, Hm; [done|].
  intros [a|e] s [? H]; simpl; auto.
Qed.
Lemma pub_attempt {E F A B : Type} P R (m : M world E A) (f : result E A -> M world F B) :
  pub_step P R m ->
  (forall a, triple I (fun s => I s /\ R s) (f (Ok a)) pub_post) ->
  (forall e, triple I (fun s => I s /\ True) (f (Err e)) pub_post) ->
  triple I (fun s => I s /\ P s) (attempt m ≫= f) pub_post.
Proof.
  intros Hm Hok Herr.
  apply triple_bind with (fun r s => I s /\ (is_ok r = true -> R s)).
  - by apply triple_attempt.
  - intros [a|e].
    + eapply triple_conseq, Hok; [|done]. intros s [? H]. auto.
    + eapply triple_conseq, Herr; [|done]. by intros s [? _].
Qed.
Lemma pub_ret {E A : Type} (a : A) (P : store -> Prop) :
  (forall s, P s -> s !! dst = Some (File b)) ->
  triple I (fun s => I s /\ P s) (mret (M := M world E) a) pub_post.
Proof. intros H. apply triple_ret. intros s [? ?]. split; auto. Qed.
Lemma pub_throw {E A : Type} (e : E) (P : store -> Prop) :
  triple I (fun s => I s /\ P s) (throw (A := A) e) pub_post.
Proof. apply triple_throw. intros s [? _]. split; [done|discriminate]. Qed.
Lemma pub_start {E A : Type} (m : M world E A) :
  triple I (fun s => I s /\ True) m pub_post -> triple I (eq s0) m pub_post.
Proof. apply triple_conseq; [|done]. intros s <-. split; [apply published_refl|done]. Qed.

Lemma step_mkdir p : pub_step (fun _ => True) (fun _ => True) (create_dir_all p).
Proof.
  eapply triple_conseq, (create_dir_all_keeps s0 tmp dst b p (fun _ => I)); [|auto|auto].
  by intros s [? _].
Qed.
Lemma step_create : pub_step (fun _ => True) (fun s => s !! tmp = Some (File [])) (file_create tmp).
Proof.
  eapply triple_conseq, file_create_keeps; [by intros s [? _]|].
  intros [[]|] s [? H]; simpl; auto. by split.
Qed.
Lemma step_write_all :
  pub_step (fun s => s !! tmp = Some (File [])) (fun s => s !! tmp = Some (File b)) (write_all tmp b).
Proof.
  eapply triple_conseq, (write_all_fuel_keeps s0 tmp dst b _ []); [done|].
  intros [[]|] s [? H]; simpl; auto. by split.
Qed.
Lemma step_fs_write : pub_step (fun _ => True) (fun s => s !! tmp = Some (File b)) (fs_write tmp b).
Proof.
  eapply triple_conseq, fs_write_keeps; [by intros s [? _]|].
  intros [[]|] s [? H]; simpl; auto. by split.
Qed.
Lemma step_rename :
  pub_step (fun s => s !! tmp = Some (File b)) (fun s => s !! dst = Some (File b)) (rename tmp dst).
Proof.
  eapply triple_conseq, rename_publishes; [done|].
  intros [[]|] s [? H]; simpl; auto. by split.
Qed.
Lemma step_remove P : pub_step P (fun _ => True) (remove_file tmp).
Proof. eapply triple_conseq, remove_tmp_keeps; [by intros s [? _]|auto]. Qed.
Lemma step_sync P : pub_step P P sync_all.
Proof. apply triple_syscall. intros r s [? ?]. auto. Qed.
Lemma step_sync_dir p P : pub_step P P (sync_dir p).
Proof. apply triple_sync_dir. intros r s [? ?]. auto. Qed.
Lemma step_attempt_sync_dir {F : Type} p P :
  pub_step P P (attempt (F := F) (sync_dir p)).
Proof. apply triple_attempt, triple_sync_dir. intros r s [? ?]. auto. Qed.
End publish_steps.
#[export] Hint Resolve step_mkdir step_create step_write_all step_fs_write step_rename
  step_remove pub_step_err : carriers.
#[export] Hint Extern 1 (pub_step _ _ _ _ _ _ sync_all) => eapply step_sync : carriers.
#[export] Hint Extern 1 (pub_step _ _ _ _ _ _ (attempt (sync_dir _))) =>
  eapply step_attempt_sync_dir : carriers.
#[export] Hint Extern 1 (pub_step _ _ _ _ _ _ (sync_dir _)) => eapply step_sync_dir : carriers.
(** One step of a publication proof. *)
Ltac pub_next :=
  first [ eapply pub_ret; intros; assumption
        | eapply pub_throw
        | eapply pub_bind; [solve [eauto with carriers]|intros ?]
        | eapply pub_attempt; [solve [eauto with carriers]|intros ?|intros ?] ].

Section publish_client.
Context {E A : Type} (op : M world E A) (tmp dst : path) (b : bytes) `{!AtomicPublish op tmp dst b}.

(** A reader that opens a file other than the temporary one, at any moment of
    the operation, finds what was there before or the whole message. *)
Lemma publish_reader w s q c :
  s ∈ hist (op w).2 -> q <> tmp -> s !! q = Some (File c) ->
  s ∈ hist w \/ fs w !! q = Some (File c) \/ (q = dst /\ c = b).
Proof.
  intros Hs Hq Hc. destruct (publish_triple (fs w) w eq_refl) as ((new & used & Eh & _ & F) & _).
  rewrite Eh in Hs. apply elem_of_app in Hs as [Hs|Hs]; [|by left]. right.
  rewrite Forall_forall in F. destruct (F s Hs q Hq) as [E'|[[-> E']|[_ E']]].
  - left. congruence.
  - right. split; congruence.
  - congruence.
Qed.
Lemma publish_done w : is_ok (op w).1 = true -> fs (op w).2 !! dst = Some (File b).
Proof. destruct (publish_triple (fs w) w eq_refl) as (_ & _ & H). auto. Qed.
Lemma publish_frame w q c :
  q <> tmp -> q <> dst -> fs w !! q = Some (File c) -> fs (op w).2 !! q = Some (File c).
Proof.
  intros Ht Hd Hc. destruct (publish_triple (fs w) w eq_refl) as (_ & H & _).
  destruct (H q Ht) as [E'|[[-> _]|[E' _]]]; congruence.
Qed.
End publish_client.

(** ** What a single call does to the store *)
Lemma syscall_cases w :
  exists w', fs w' = fs w /\ listing w' = listing w /\
    (syscall w = (Ok tt, w') \/ exists e, syscall w = (Err e, w')).
Proof.
  unfold syscall, next_outcome, mbind, M_bind, mret, M_ret, throw.
  destruct (oracle w) as [|o os]; [by exists w; auto|].
  exists (set_oracle os w). do 2 (split; [done|]). destruct o; simpl; eauto.
Qed.
Lemma read_file_cases p w :
  fs (read_file p w).2 = fs w /\
  (forall b, (read_file p w).1 = Ok b -> fs w !! p = Some (File b)).
Proof.
  destruct (syscall_cases w) as (w' & Hf & _ & H).
  unfold read_file, mbind, M_bind, gets, mret, M_ret, throw.
  destruct H as [->|[e ->]]; [|by simpl]. rewrite Hf.
  destruct (fs w !! p) as [[|c]|]; simpl; try (split; [done|discriminate]).
  split; [done|]. by intros b [= ->].
Qed.
Lemma remove_file_cases p w :
  fs (remove_file p w).2 = fs w \/ fs (remove_file p w).2 = delete p (fs w).
Proof.
  destruct (syscall_cases w) as (w' & Hf & _ & H).
  unfold remove_file, mbind, M_bind, gets, mret, M_ret, throw.
  destruct H as [->|[e ->]]; [|by left]. rewrite Hf.
  destruct (fs w !! p) as [[|c]|]; simpl; auto.
Qed.
Lemma read_dir_cases p w :
  fs (read_dir p w).2 = fs w /\
  (forall ns, (read_dir p w).1 = Ok ns -> ns = listing w (children (fs w) p)).
Proof.
  destruct (syscall_cases w) as (w' & Hf & Hl & H).
  unfold read_dir, mbind, M_bind, gets, mret, M_ret, throw.
  destruct H as [->|[e ->]]; [|by simpl]. rewrite Hf.
  destruct (is_dir (fs w) p); simpl.
  - split; [done|]. rewrite Hl, ?Hf. by intros ns [= ->].
  - destruct (fs w !! p); simpl; by split.
Qed.

(** ** Listing a directory *)
Lemma child_of_Some p q n : child_of p q = Some n <-> q = p ++ [n].
Proof.
  unfold child_of. split.
  - destruct (last q); [|discriminate]. case_decide; congruence.
  - intros ->. by rewrite last_snoc, decide_True.
Qed.
Lemma elem_of_children m p n : n ∈ children m p <-> is_Some (m !! (p ++ [n])).
Proof.
  unfold children. rewrite list_elem_of_omap. split.
  - intros ([q v] & Hq & E). simpl in E. apply child_of_Some in E as ->.
    apply elem_of_map_to_list in Hq. eauto.
  - intros [v E]. exists (p ++ [n], v). simpl. rewrite child_of_Some.
    split; [by apply elem_of_map_to_list|done].
Qed.
Lemma children_NoDup m p : NoDup (children m p).
Proof.
  unfold children. pose proof (NoDup_fst_map_to_list m) as H.
  induction (map_to_list m) as [|[q v] l IH]; [constructor|].
  cbn [omap list_omap fst fmap list_fmap] in *. apply NoDup_cons in H as [Hq Hl].
  destruct (child_of p q) as [n|] eqn:E; [|by apply IH].
  apply NoDup_cons. split; [|by apply IH]. rewrite list_elem_of_omap.
  intros ([q' v'] & Hin & E'). simpl in E'. apply child_of_Some in E, E'. subst.
  apply Hq. by apply (list_elem_of_fmap_2 fst) in Hin.
Qed.
Lemma sort_names_perm l1 l2 : l1 ≡ₚ l2 -> sort_names l1 = sort_names l2.
Proof.
  intros H. unfold sort_names. apply (Sorted_unique bytes_le); try apply Sorted_merge_sort;
    try apply _. by rewrite !merge_sort_Permutation.
Qed.

(** ** Directories survive everything but their removal *)
Section dirs_survive.
Context (d : path).
Abbreviation I := (fun s : store => s !! d = Some Dir).

Lemma keeps_syscall : triple I I syscall (fun _ => I).
Proof. by apply triple_syscall. Qed.
Lemma keeps_put_file s p c :
  s !! d = Some Dir -> s !! p <> Some Dir ->
  triple I (eq s) (put_fs (<[p := File c]> s)) (fun _ => I).
Proof.
  intros H N. apply triple_put. intros ? <-.
  rewrite lookup_insert_ne by congruence. auto.
Qed.
Lemma keeps_throw {A : Type} (e : io_error) s :
  s !! d = Some Dir -> triple I (eq s) (throw (A := A) e) (fun _ => I).
Proof. intros H. apply triple_throw. by intros ? <-. Qed.
Lemma is_dir_false s p : is_dir s p = false -> s !! p <> Some Dir.
Proof. unfold is_dir. rewrite bool_decide_eq_false. tauto. Qed.
Lemma keeps_after_syscall {A : Type} (f : store -> io A) :
  (forall s, s !! d = Some Dir -> triple I (eq s) (f s) (fun _ => I)) ->
  triple I I (_ ← syscall; m ← gets fs; f m) (fun _ => I).
Proof.
  intros Hf. apply triple_bind with (fun _ => I).
  - apply triple_syscall. by intros [] s ?.
  - intros _. by apply triple_with_fs.
Qed.
Lemma keeps_file_create p : triple I I (file_create p) (fun _ => I).
Proof.
  apply keeps_after_syscall. intros s H. destruct (is_dir s p) eqn:E; [by apply keeps_throw|].
  case_match; [|by apply keeps_throw]. apply keeps_put_file; [done|by apply is_dir_false].
Qed.
Lemma keeps_append p b : triple I I (append_at p b) (fun _ => I).
Proof.
  apply triple_with_fs. intros s H. destruct (s !! p) as [[|c]|] eqn:E.
  - apply triple_ret. by intros ? <-.
  - apply keeps_put_file; congruence.
  - apply triple_ret. by intros ? <-.
Qed.
Lemma keeps_write_all_fuel fuel p b : triple I I (write_all_fuel fuel p b) (fun _ => I).
Proof.
  revert b. induction fuel as [|fuel IH]; intros b; simpl; destruct b as [|x b].
  - by apply triple_ret.
  - by apply triple_throw.
  - by apply triple_ret.
  - apply triple_bind with (fun _ => I); [by apply triple_next|]. intros [|[|n]|e].
    + apply keeps_append.
    + by apply triple_throw.
    + apply triple_bind with (fun _ => I); [|intros _; apply IH].
      eapply triple_conseq, keeps_append; [done|]. by intros [] s ?.
    + by apply triple_throw.
Qed.
Lemma keeps_rename p q : triple I I (rename p q) (fun _ => I).
Proof.
  apply keeps_after_syscall. intros s H. destruct (s !! p) as [[|c]|] eqn:E;
    try by apply keeps_throw.
  destruct (is_dir s q) eqn:D; [by apply keeps_throw|].
  case_match; [|by apply keeps_throw]. apply is_dir_false in D.
  apply triple_put. intros ? <-.
  rewrite lookup_insert_ne, lookup_delete_ne by congruence. auto.
Qed.
Lemma keeps_remove_file p : triple I I (remove_file p) (fun _ => I).
Proof.
  apply keeps_after_syscall. intros s H. destruct (s !! p) as [[|c]|] eqn:E;
    try by apply keeps_throw.
  apply triple_put. intros ? <-. rewrite lookup_delete_ne by congruence. auto.
Qed.
Lemma keeps_read_file p : triple I I (read_file p) (fun _ => I).
Proof.
  apply keeps_after_syscall. intros s H. destruct (s !! p) as [[|c]|] eqn:E;
    try by apply keeps_throw. apply triple_ret. by intros ? <-.
Qed.
Lemma keeps_read_dir p : triple I I (read_dir p) (fun _ => I).
Proof.
  apply keeps_after_syscall. intros s H. case_match.
  - intros w Hw. split; [by exists [], []|]. simpl. by rewrite <- Hw.
  - case_match; by apply keeps_throw.
Qed.
Lemma keeps_create_dir_all p : triple I I (create_dir_all p) (fun _ => I).
Proof.
  apply triple_mapM_; [|done]. intros x. apply triple_with_fs. intros s H.
  case_match; [apply triple_ret; by intros ? <-|].
  destruct (s !! x) eqn:E; [apply triple_throw; intros ? <-; exact H|].
  apply triple_bind with (fun _ => eq s).
  - apply triple_syscall. intros [] ? <-; done.
  - intros _. apply triple_put. intros ? <-.
    simpl. destruct (decide (d = x)) as [->|]; [by rewrite lookup_insert_eq|].
    by rewrite lookup_insert_ne by done.
Qed.
Lemma keeps_bind {A B : Type} (m : io A) (f : A -> io B) :
  triple I I m (fun _ => I) -> (forall a, triple I I (f a) (fun _ => I)) ->
  triple I I (m ≫= f) (fun _ => I).
Proof.
  intros Hm Hf. apply triple_bind with (fun _ => I); [|done].
  eapply triple_conseq, Hm; [done|]. by intros [] s ?.
Qed.
Lemma keeps_attempt {A : Type} (m : io A) :
  triple I I m (fun _ => I) -> triple I I (attempt (F := io_error) m) (fun _ => I).
Proof. intros H. by apply triple_attempt. Qed.
End dirs_survive.
#[export] Hint Resolve keeps_syscall keeps_file_create keeps_append keeps_write_all_fuel
  keeps_rename keeps_remove_file keeps_read_file keeps_read_dir keeps_create_dir_all
  keeps_bind keeps_attempt : carriers.

(** ** Creating directories *)
Lemma prefixes_last p r : r <> [] -> last (prefixes_from p r) = Some (p ++ r).
Proof.
  revert p. induction r as [|c r IH]; intros p H; [done|]. destruct r as [|c' r]; [done|].
  cbn [prefixes_from] in *. rewrite last_cons_cons, (IH (p ++ [c])) by done.
  by rewrite <- app_assoc.
Qed.
Lemma prefixes_in p : p <> [] -> p ∈ prefixes_from [] p.
Proof.
  intros H. pose proof (prefixes_last [] p H) as E. simpl in E.
  by eapply last_Some_elem_of in E.
Qed.

Lemma mkdir_step_keeps d full x :
  triple (fun _ => True) (fun s => s !! d = Some Dir) (mkdir_step full x)
    (fun _ s => s !! d = Some Dir).
Proof.
  apply triple_with_fs. intros s H. case_match; [apply triple_ret; intros ? <-; exact H|].
  destruct (s !! x) eqn:E; [apply triple_throw; intros ? <-; exact H|].
  apply triple_bind with (fun _ => eq s).
  - apply triple_syscall. intros [] ? <-; done.
  - intros _. apply triple_put. intros ? <-. split; [done|].
    by rewrite lookup_insert_ne by congruence.
Qed.
Lemma mkdir_step_makes d full :
  d <> [] ->
  triple (fun _ => True) (fun _ => True) (mkdir_step full d)
    (fun r s => r = Ok tt -> s !! d = Some Dir).
Proof.
  intros N. apply triple_with_fs. intros s _. destruct (is_dir s d) eqn:E.
  - apply triple_ret. intros ? <- _. apply bool_decide_eq_true in E. by destruct E.
  - destruct (s !! d); [by apply triple_throw; intros ? <-|].
    apply triple_bind with (fun _ _ => True); [by apply triple_syscall; intros [] ? _|].
    intros _. apply triple_put. intros ? _. split; [done|]. intros _.
    by rewrite lookup_insert_eq.
Qed.
Lemma mkdir_step_any full x :
  triple (fun _ => True) (fun _ => True) (mkdir_step full x) (fun _ _ => True).
Proof.
  apply triple_with_fs. intros s _. case_match; [by apply triple_ret|].
  case_match; [by apply triple_throw|].
  apply triple_bind with (fun _ _ => True); [by apply triple_syscall; intros []|].
  intros _. by apply triple_put.
Qed.
Lemma mkdirs_make d full l :
  d <> [] -> d ∈ l ->
  triple (fun _ => True) (fun _ => True) (mapM_ (mkdir_step full) l)
    (fun r s => r = Ok tt -> s !! d = Some Dir).
Proof.
  intros N. induction l as [|x l IH]; intros Hd; [by apply not_elem_of_nil in Hd|].
  cbn [mapM_]. destruct (decide (d = x)) as [->|Hx].
  - apply triple_bind with (fun _ s => s !! x = Some Dir).
    { eapply triple_conseq, mkdir_step_makes; [done| |done]. intros [[]|e] s H; simpl; auto. }
    intros _. apply triple_conseq with (P' := fun s => s !! x = Some Dir)
      (Q' := fun _ s => s !! x = Some Dir); [done|done|].
    apply triple_mapM_; [|done]. intros y.
    eapply triple_conseq, (mkdir_step_keeps x); [done|]. by intros [] s H.
  - apply triple_bind with (fun _ _ => True).
    { eapply triple_conseq, mkdir_step_any; [done|]. intros [] s _; [done|discriminate]. }
    intros _. apply IH. set_solver.
Qed.
Lemma mkdirs_frame full q l w :
  (forall x, x ∈ l -> x <> q) ->
  fs (mapM_ (mkdir_step full) l w).2 !! q = fs w !! q.
Proof.
  revert w. induction l as [|x l IH]; intros w Hx; [done|]. cbn [mapM_].
  assert (fs (mkdir_step full x w).2 !! q = fs w !! q) as E.
  { unfold mkdir_step, mbind, M_bind, gets. destruct (is_dir _ _); [done|].
    destruct (fs w !! x); [done|].
    destruct (syscall_cases w) as (w1 & Hf & _ & [->|[e ->]]); simpl; [|by rewrite Hf].
    rewrite lookup_insert_ne; [done|]. apply Hx. set_solver. }
  unfold mbind, M_bind. destruct (mkdir_step full x w) as [[[]|e] w1]; [|done].
  rewrite IH by set_solver. exact E.
Qed.
Lemma mkdirs_listing full l w : listing (mapM_ (mkdir_step full) l w).2 = listing w.
Proof.
  revert w. induction l as [|x l IH]; intros w; [done|]. cbn [mapM_].
  assert (listing (mkdir_step full x w).2 = listing w) as E.
  { unfold mkdir_step, mbind, M_bind, gets. destruct (is_dir _ _); [done|].
    destruct (fs w !! x); [done|].
    by destruct (syscall_cases w) as (w1 & _ & Hl & [->|[e ->]]). }
  unfold mbind, M_bind. destruct (mkdir_step full x w) as [[[]|e] w1]; [|done].
  by rewrite IH.
Qed.
Lemma prefixes_length p r x : x ∈ prefixes_from p r -> (length x <= length p + length r)%nat.
Proof.
  revert p. induction r as [|c r IH]; intros p; cbn [prefixes_from];
    [by intros ?%not_elem_of_nil|].
  intros [->|H]%elem_of_cons; [rewrite length_app; simpl; lia|].
  apply IH in H. rewrite length_app in H. simpl in *. lia.
Qed.

(** On a machine without failures. *)
Lemma mkdirs_ok full l w :
  oracle w = [] -> Forall (fun x => is_file (fs w) x = false) l ->
  exists w', mapM_ (mkdir_step full) l w = (Ok tt, w') /\ oracle w' = [] /\
    (forall q, fs w' !! q = if decide (q ∈ l /\ q <> [] /\ fs w !! q = None) then Some Dir
                            else fs w !! q).
Proof.
  revert w. induction l as [|x l IH]; intros w Ho Hl.
  - exists w. split; [done|]. split; [done|]. intros q. rewrite decide_False; [done|].
    intros [H _]. by apply not_elem_of_nil in H.
  - apply Forall_cons in Hl as [Hx Hl]. cbn [mapM_].
    assert (exists w1, mkdir_step full x w = (Ok tt, w1) /\ oracle w1 = [] /\
      (forall q, fs w1 !! q = if decide (q = x /\ q <> [] /\ fs w !! q = None) then Some Dir
                              else fs w !! q)) as (w1 & E & Ho1 & Hf).
    { unfold mkdir_step, mbind, M_bind, gets. destruct (is_dir (fs w) x) eqn:D.
      - exists w. split; [done|]. split; [done|]. intros q. rewrite decide_False; [done|].
        apply bool_decide_eq_true in D. intros (-> & N & E). destruct D; congruence.
      - destruct (fs w !! x) as [[]|] eqn:E.
        + apply bool_decide_eq_false in D. tauto.
        + unfold is_file in Hx. by rewrite E in Hx.
        + unfold syscall, next_outcome, mbind, M_bind. rewrite Ho. simpl.
          eexists. split; [done|]. split; [done|]. intros q. simpl.
          apply bool_decide_eq_false in D.
          destruct (decide (q = x)) as [->|N].
          * rewrite lookup_insert_eq, decide_True; [done|]. tauto.
          * rewrite lookup_insert_ne, decide_False; [done|tauto|done]. }
    destruct (IH w1) as (w2 & E2 & Ho2 & Hf2); [done| |].
    { eapply Forall_impl; [exact Hl|]. simpl. intros y Hy. unfold is_file in *.
      rewrite Hf. case_decide; [done|exact Hy]. }
    exists w2. unfold mbind, M_bind. rewrite E. split; [done|]. split; [done|].
    intros q. rewrite Hf2, Hf. repeat case_decide; try done; exfalso; set_solver.
Qed.

Lemma prefixes_prefix p r x : x ∈ prefixes_from p r -> x `prefix_of` p ++ r.
Proof.
  revert p. induction r as [|c r IH]; intros p; cbn [prefixes_from];
    [by intros ?%not_elem_of_nil|].
  intros [->|H]%elem_of_cons; [exists r; by rewrite <- app_assoc|].
  apply IH in H. by rewrite <- app_assoc in H.
Qed.
Lemma prefixes_has p q r : q <> [] -> p ++ q ∈ prefixes_from p (q ++ r).
Proof.
  revert p. induction q as [|c q IH]; intros p H; [done|]. cbn [app prefixes_from].
  destruct q as [|c' q]; [left|right].
  replace (p ++ c :: c' :: q) with ((p ++ [c]) ++ c' :: q) by (by rewrite <- app_assoc).
  by apply IH.
Qed.

(** What [create_dir_all] leaves. *)
Lemma dir_kept_mkdirs full d l w :
  fs w !! d = Some Dir -> fs (mapM_ (mkdir_step full) l w).2 !! d = Some Dir.
Proof.
  intros H. assert (triple (fun _ => True) (fun s => s !! d = Some Dir) (mapM_ (mkdir_step full) l)
    (fun _ s => s !! d = Some Dir)) as T.
  { apply triple_mapM_; [|done]. intros x. eapply triple_conseq, (mkdir_step_keeps d); [done|]. by intros []. }
  by apply T.
Qed.
Lemma mkdirs_made p d w w' : d <> [] -> d `prefix_of` p -> create_dir_all p w = (Ok tt, w') -> fs w' !! d = Some Dir.
Proof.
  intros N [r ->] E.
  destruct (mkdirs_make d (d ++ r) (prefixes_from [] (d ++ r)) N (prefixes_has [] d r N) w I) as [_ H].
  unfold create_dir_all in E. rewrite E in H. by apply H.
Qed.
Lemma dir_kept p d w r w' : create_dir_all p w = (r, w') -> fs w !! d = Some Dir -> fs w' !! d = Some Dir.
Proof. intros E H. pose proof (dir_kept_mkdirs p d (prefixes_from [] p) w H) as K. fold (create_dir_all p) in K. by rewrite E in K. Qed.
Lemma mkdirs_same_listing p w r w' : create_dir_all p w = (r, w') -> listing w' = listing w.
Proof. intros E. pose proof (mkdirs_listing p (prefixes_from [] p) w) as K. fold (create_dir_all p) in K. by rewrite E in K. Qed.
Lemma mkdirs_beside p q w r w' : ~ q `prefix_of` p -> create_dir_all p w = (r, w') -> fs w' !! q = fs w !! q.
Proof.
  intros N E. pose proof (mkdirs_frame p q (prefixes_from [] p) w) as K. fold (create_dir_all p) in K.
  rewrite E in K. apply K. intros x Hx ->. apply N. by apply prefixes_prefix in Hx.
Qed.

(** ** A disk inside a larger world *)
Class HasDisk (W : Type) : Type := { disk_of : W -> world; set_disk : world -> W -> W }.
#[export] Instance disk_world : HasDisk world := {| disk_of := fun w => w; set_disk := fun d _ => d |}.
(** Writing the disk back and reading it again. *)
Class LawfulDisk (W : Type) `{HD : HasDisk W} : Prop :=
  disk_set : forall d w, disk_of (set_disk d w) = d.
#[export] Instance lawful_world : LawfulDisk world.
Proof. done. Qed.

(** [OpenOptions::new().create(true).append(true).open(p)] *)
Definition open_append (p : path) : io unit :=
  _ ← syscall; m ← gets fs;
  if is_dir m p then throw err_is_dir
  else if is_file m p then mret tt
  else if is_dir m (parent p) then put_fs (<[p := File []]> m)
  else throw err_not_found.
