(* ===== verification/TotInbox.v ===== *)
(** * TOT's inbox: [tot/src/maildir.rs]

    The one directory the tunnel writes: a submission goes to [tmp/], is
    synced, renamed into [new/] and the directory synced.  The process-wide
    [SEQ] counter is part of the state; the wall clock is an argument. *)
From S2P Require Import Prelude Fs.

Module TotInbox.

(** [SystemTime::now()] since the epoch (zero before it). *)
Record wall_clock : Type := { as_secs : N; subsec_nanos : N }.

Record Inbox : Type := { tmp : path; new : path }.

Definition open (inbox_dir : path) : io Inbox :=
  let tmp_ := join inbox_dir $"tmp" in
  let new_ := join inbox_dir $"new" in
  let cur_ := join inbox_dir $"cur" in
  _ ← mapM_ create_dir_all [tmp_; new_; cur_];
  mret {| tmp := tmp_; new := new_ |}.

(** The file system and [SEQ] ([AtomicU64]: [fetch_add] wraps at 2^64). *)
Record inbox_world : Type := { files : world; SEQ : Z }.
Definition on_files {A} (m : io A) : M inbox_world io_error A :=
  zoom files (fun v w => {| files := v; SEQ := SEQ w |}) m.
Definition fetch_add_seq : M inbox_world io_error Z := fun w =>
  (Ok (SEQ w), {| files := files w; SEQ := wrap 64 (SEQ w + 1) |}).

Definition name_of (now : wall_clock) (seq : Z) (pid : N) : bytes :=
  show_N (as_secs now) ++ $"." ++ show_N (subsec_nanos now) ++ $".M" ++
  show_N (Z.to_N seq) ++ $"P" ++ show_N pid ++ $".tot".
Definition unique_name (now : wall_clock) (pid : N) : M inbox_world io_error bytes :=
  seq ← fetch_add_seq; mret (name_of now seq pid).

(** [deliver] after the name is chosen. *)
Definition deliver_as (ib : Inbox) (name b : bytes) : io unit :=
  let tmp_path := join (tmp ib) name in
  let new_path := join (new ib) name in
  _ ← file_create tmp_path;
  _ ← write_all tmp_path b;
  _ ← sync_all;
  r ← attempt (rename tmp_path new_path);
  match r with
  | Err e => _ ← attempt (E := io_error) (remove_file tmp_path); throw e
  | Ok _ => sync_dir (new ib)
  end.
Definition deliver (ib : Inbox) (now : wall_clock) (pid : N) (b : bytes)
    : M inbox_world io_error unit :=
  name ← unique_name now pid; on_files (deliver_as ib name b).

(** ** The server-generated name *)
Lemma name_split n r :
  Forall (fun b => is_digit b = true) n -> In "/"%char (n ++ r) -> In "/"%char r.
Proof.
  intros Hn H. apply in_app_or in H as [H|H]; [|done].
  rewrite Forall_forall in Hn. apply list_elem_of_In in H. by apply Hn in H.
Qed.
Lemma name_no_slash now seq pid : "/"%char ∉ name_of now seq pid.
Proof.
  unfold name_of. rewrite list_elem_of_In. intros H.
  repeat ((apply name_split in H; [|apply show_N_digits])
          || (apply in_app_or in H as [H|H]; [simpl in H; intuition discriminate|])).
  simpl in H. intuition discriminate.
Qed.
Lemma name_seq_inj n1 n2 s1 s2 p1 p2 :
  name_of n1 s1 p1 = name_of n2 s2 p2 -> Z.to_N s1 = Z.to_N s2.
Proof.
  unfold name_of. intros E. pose proof show_N_digits as D.
  apply digits_app_inj in E as (_ & _ & E); try done; try apply D.
  apply digits_app_inj in E as (_ & _ & E); try done; try apply D.
  simpl in E. injection E as E.
  apply digits_app_inj in E as (E & _ & _); try done; try apply D.
  by apply show_N_inj.
Qed.
Lemma name_plain now seq pid : plain_name (name_of now seq pid) = true.
Proof.
  unfold plain_name. apply bool_decide_eq_true. split; [apply name_no_slash|].
  assert (length (name_of now seq pid) >= 7)%nat as L.
  { unfold name_of. rewrite !length_app. simpl. lia. }
  repeat split; intros E; rewrite E in L; simpl in L; lia.
Qed.
#[export] Hint Resolve name_plain : carriers.

(** ** Delivery is an atomic publication *)
#[export] Instance deliver_as_atomic ib name b :
  AtomicPublish (deliver_as ib name b) (join (tmp ib) name) (join (new ib) name) b.
Proof.
  constructor. intros s0. apply pub_start. unfold deliver_as. cbv zeta.
  do 4 pub_next.
  - apply step_sync_dir.
  - repeat pub_next.
Qed.

Definition target (ib : Inbox) (now : wall_clock) (pid : N) (w : inbox_world) : path :=
  new ib ++ [name_of now (SEQ w) pid].
Definition staging (ib : Inbox) (now : wall_clock) (pid : N) (w : inbox_world) : path :=
  tmp ib ++ [name_of now (SEQ w) pid].

Lemma deliver_run ib now pid b w :
  let r := deliver_as ib (name_of now (SEQ w) pid) b (files w) in
  deliver ib now pid b w =
    (r.1, {| files := r.2; SEQ := wrap 64 (SEQ w + 1) |}).
Proof.
  unfold deliver, unique_name, mbind, M_bind, mret, M_ret, fetch_add_seq, on_files, zoom.
  simpl. by destruct (deliver_as _ _ _ _).
Qed.
Lemma deliver_as_atomic_plain ib now pid b w :
  AtomicPublish (deliver_as ib (name_of now (SEQ w) pid) b)
    (staging ib now pid w) (target ib now pid w) b.
Proof.
  unfold staging, target. rewrite <- !(join_plain _ _ (name_plain _ _ _)). apply _.
Qed.

(** A delivery is all or nothing for whoever reads the inbox: at every
    moment of [deliver], a reader of any file but the private one under [tmp/]
    finds the file as it was before or the complete submission under [new/];
    and when [deliver] returns [Ok] the complete submission is in [new/] under
    the server-generated name. *)
Theorem deliver_atomic ib now pid b w :
  let w' := (deliver ib now pid b w).2 in
  (forall s q c, s ∈ hist (files w') -> q <> staging ib now pid w ->
     s !! q = Some (File c) ->
     s ∈ hist (files w) \/ fs (files w) !! q = Some (File c)
     \/ (q = target ib now pid w /\ c = b)) /\
  (is_ok (deliver ib now pid b w).1 = true ->
     fs (files w') !! target ib now pid w = Some (File b)).
Proof.
  pose proof (deliver_as_atomic_plain ib now pid b w) as Hat.
  rewrite deliver_run. simpl. split.
  - intros s q c. apply (publish_reader _ _ _ _ (files w)).
  - apply (publish_done _ _ _ _ (files w)).
Qed.

Lemma wrap_succ_ne x : 0 <= x <= U64_MAX -> Z.to_N (wrap 64 (x + 1)) <> Z.to_N x.
Proof.
  unfold wrap, U64_MAX. intros Hx E. apply Z2N.inj in E; [|apply Z.mod_pos_bound|]; lia.
Qed.

(** Two deliveries in a row never overwrite one another, whatever the clock
    does (it may stand still or go back): when both report success, both
    submissions are in [new/], under different names. *)
Theorem deliver_keeps_both ib now1 now2 pid b1 b2 w :
  0 <= SEQ w <= U64_MAX -> tmp ib <> new ib ->
  let w1 := (deliver ib now1 pid b1 w).2 in
  let w2 := (deliver ib now2 pid b2 w1).2 in
  is_ok (deliver ib now1 pid b1 w).1 = true ->
  is_ok (deliver ib now2 pid b2 w1).1 = true ->
  target ib now1 pid w <> target ib now2 pid w1 /\
  fs (files w2) !! target ib now1 pid w = Some (File b1) /\
  fs (files w2) !! target ib now2 pid w1 = Some (File b2).
Proof.
  intros Hseq Htn w1 w2 H1 H2.
  assert (SEQ w1 = wrap 64 (SEQ w + 1)) as Hs1 by (unfold w1; by rewrite deliver_run).
  assert (target ib now1 pid w <> target ib now2 pid w1) as Hne.
  { unfold target. rewrite Hs1. intros E%app_inj_2; [|done]. destruct E as [_ [= E]].
    apply name_seq_inj in E. by apply (wrap_succ_ne _ Hseq). }
  split; [done|].
  pose proof (deliver_as_atomic_plain ib now1 pid b1 w) as A1.
  pose proof (deliver_as_atomic_plain ib now2 pid b2 w1) as A2.
  assert (fs (files w1) !! target ib now1 pid w = Some (File b1)) as F1.
  { unfold w1 in *. rewrite deliver_run in *. by apply (publish_done _ _ _ _ (files w)). }
  unfold w2 in *. rewrite deliver_run in *. simpl in *. split.
  - apply (publish_frame _ _ _ _ (files w1)); [|done|done].
    unfold target, staging. intros E%app_inj_2; [|done]. by destruct E as [E _].
  - by apply (publish_done _ _ _ _ (files w1)).
Qed.

(** A concrete inbox, opened on an empty disk, whose writes are short. *)
Definition ex_disk : world :=
  {| fs := ∅; oracle := []; hist := []; listing := fun l => l |}.
Definition ex_inbox : Inbox := {| tmp := [$"inbox"; $"tmp"]; new := [$"inbox"; $"new"] |}.
Definition ex_world : inbox_world :=
  {| files := set_oracle [Go; Short 2; Short 1] (open [$"inbox"] ex_disk).2;
     SEQ := U64_MAX |}.
Definition ex_now : wall_clock := {| as_secs := 1700000000; subsec_nanos := 5 |}.

Lemma open_ex : (open [$"inbox"] ex_disk).1 = Ok ex_inbox.
Proof. vm_compute. reflexivity. Qed.

Lemma deliver_keeps_both_witness :
  let w1 := (deliver ex_inbox ex_now 7 $"hello" ex_world).2 in
  let w2 := (deliver ex_inbox ex_now 7 $"world" w1).2 in
  target ex_inbox ex_now 7 ex_world <> target ex_inbox ex_now 7 w1 /\
  fs (files w2) !! target ex_inbox ex_now 7 ex_world = Some (File $"hello") /\
  fs (files w2) !! target ex_inbox ex_now 7 w1 = Some (File $"world").
Proof.
  apply (deliver_keeps_both ex_inbox ex_now ex_now 7 $"hello" $"world" ex_world).
  - vm_compute. split; discriminate.
  - discriminate.
  - vm_compute. reflexivity.
  - vm_compute. reflexivity.
Defined.
End TotInbox.
