(* ===== verification/TotConfig.v ===== *)
(** * TOT's configuration and routing table: [tot/src/config.rs] and the
    [Route] of [tot/src/main.rs] *)
From S2P Require Import Prelude Fs.

Module TotConfig.

Record NablaNode : Type := { name : bytes; addr : bytes }.

Record Config : Type := {
    listen : bytes;
    maildir_inbox : path;
    nabla : list NablaNode;
    custody_outbox : option path;
    fatmama : list NablaNode;
    intake_max_msgs_per_sec : Z;   (* u32 *)
    max_message_bytes : Z;         (* usize *)
}.

Definition default_intake_rate : Z := 8.
Definition default_max_message_bytes : Z := 256 * 1024.

Inductive config_error : Type := NablaEmpty | MaxMessageZero.

Definition validate (c : Config) : result config_error unit :=
  if decide (nabla c = []) then Err NablaEmpty
  else if max_message_bytes c =? 0 then Err MaxMessageZero
  else Ok tt.

(** ** Routes *)
Inductive Route : Type :=
  | Intake
  | Session
  | Nabla (idx : Z)
  | Fatmama (idx : Z).
#[export] Instance Route_eq_dec : EqDecision Route.
Proof. solve_decision. Defined.

(** [Route::parse]; [dev_fatmama] is the cargo feature. *)
Definition parse (dev_fatmama : bool) (p : bytes) : option Route :=
  if decide (p = $"/intake") then Some Intake
  else if decide (p = $"/session") then Some Session
  else match strip_prefix $"/nabla/" p with
  | Some idx => Nabla <$> parse_uint U64_MAX idx
  | None =>
      if dev_fatmama then
        match strip_prefix $"/fatmama/" p with
        | Some idx => Fatmama <$> parse_uint U64_MAX idx
        | None => None
        end
      else None
  end.

(** The path a client dials to reach a route. *)
Definition route_path (r : Route) : bytes :=
  match r with
  | Intake => $"/intake"
  | Session => $"/session"
  | Nabla i => $"/nabla/" ++ show_Z i
  | Fatmama i => $"/fatmama/" ++ show_Z i
  end.

Definition route_ok (dev_fatmama : bool) (r : Route) : Prop :=
  match r with
  | Intake | Session => True
  | Nabla i => 0 <= i <= U64_MAX
  | Fatmama i => dev_fatmama = true /\ 0 <= i <= U64_MAX
  end.

(** Routing is a round trip and nothing else reaches a leg.  The path of
    every route the build supports parses back to that route, and whatever
    parses is a supported route whose index is an unsigned 64-bit number:
    in a release build no path at all reaches the dev tunnel. *)
Theorem route_parse_exact dev :
  (forall r, route_ok dev r -> parse dev (route_path r) = Some r) /\
  (forall p r, parse dev p = Some r -> route_ok dev r).
Proof.
  split.
  - intros [| |i|i] H; try done; unfold parse, route_path.
    + rewrite !decide_False by discriminate.
      by rewrite strip_prefix_app, parse_uint_show.
    + destruct H as [-> H]. rewrite !decide_False by discriminate.
      rewrite strip_prefix_app, parse_uint_show by done. done.
  - intros p r. unfold parse. repeat case_decide; [by intros [= <-]..|].
    destruct (strip_prefix $"/nabla/" p) as [i|].
    + destruct (parse_uint _ i) eqn:E; [|discriminate]. intros [= <-].
      by apply parse_uint_bounds in E.
    + destruct dev; [|discriminate].
      destruct (strip_prefix $"/fatmama/" p) as [i|]; [|discriminate].
      destruct (parse_uint _ i) eqn:E; [|discriminate]. intros [= <-].
      split; [done|]. by apply parse_uint_bounds in E.
Qed.
End TotConfig.
