(* ===== verification/TotServer.v ===== *)
(** * The tunnel itself: [tot/src/main.rs] and [tot/src/tunnel.rs]

    A connection is a list of events: what the socket delivers, the ticks of
    the reply poll, and what other processes do to the disk in between.  The
    WebSocket handshake and framing (tungstenite) are the parameter [accept]. *)
From S2P Require Import Prelude Utf8 Fs TotInbox TotConfig.
Import TotInbox TotConfig.

Module TotServer.

Definition NANOS : Z := 1000000000.

(** ** The fixed-window rate limiter; an [Instant] is a number of
    nanoseconds and [duration_since] saturates at zero. *)
Record RateLimiter : Type := { max_per_sec : Z; window_start : Z; count : Z }.
Definition limiter_new (max_per_sec now : Z) : RateLimiter :=
  {| max_per_sec := max_per_sec; window_start := now; count := 0 |}.
Definition allow (rl : RateLimiter) (now : Z) : bool * RateLimiter :=
  if max_per_sec rl =? 0 then (true, rl)
  else
    let rl := if NANOS <=? sat_sub now (window_start rl)
              then {| max_per_sec := max_per_sec rl; window_start := now; count := 0 |}
              else rl in
    let rl := {| max_per_sec := max_per_sec rl; window_start := window_start rl;
                 count := wrap 32 (count rl + 1) |} in
    (count rl <=? max_per_sec rl, rl).

(** ** Errors, one constructor per message *)
Inductive tot_error : Type :=
  | ReadDemuxHead | Handshake | UnknownRoute (p : bytes)
  | WebsocketRecv | MessageTooLarge (n cap : Z) | RateLimitExceeded
  | MaildirDeliver (e : io_error)
  | ZeroLengthFrame | FrameTooLarge (n cap : Z) | ReadBody
  | NoHeaderBlock | Entropy (e : io_error) | NoCustodyOutbox
  | SessionDirCreate (e : io_error) | SessionDirUnreadable (e : io_error)
  | ReadReply (e : io_error) | SendReply
  | NablaOutside (idx : Z) | FatmamaOutside (idx : Z) | ConnectNode | TunnelFailed.

(** ** The state of one connection: the disk with [SEQ], what was sent on the
    socket (newest last), for each further send whether it succeeds, and the
    bytes written to the node of a tunnel. *)
Record tot : Type := {
  box : inbox_world; sent : list bytes; sends : list bool; to_node : bytes }.
Abbreviation TM := (M tot tot_error).

Definition set_box (b : inbox_world) (t : tot) : tot :=
  {| box := b; sent := sent t; sends := sends t; to_node := to_node t |}.
Definition set_disk (d : world) (t : tot) : tot :=
  set_box {| files := d; SEQ := SEQ (box t) |} t.
Definition disk (t : tot) : world := files (box t).
Definition on_disk {A : Type} (f : io_error -> tot_error) (m : io A) : TM A :=
  with_err f (zoom disk set_disk m).
Definition send (b : bytes) : TM unit := fun t =>
  match sends t with
  | false :: r =>
      (Err SendReply, {| box := box t; sent := sent t; sends := r; to_node := to_node t |})
  | r =>
      (Ok tt, {| box := box t; sent := sent t ++ [b]; sends := tail r; to_node := to_node t |})
  end.

(** What a task sees next. *)
Inductive ws_event : Type :=
  | Binary (b : bytes) | Close | OtherMessage | RecvError.
Inductive conn_event : Type :=
  | Incoming (m : ws_event)
  | Tick
  | Others (f : store -> store).
(** An event with the clocks read while handling it. *)
Record timed : Type := { instant : Z; wall : wall_clock; event : conn_event }.

Definition others (f : store -> store) : TM unit :=
  modify (fun t => set_disk (set_fs (f (fs (disk t))) (disk t)) t).
Definition inbox_deliver (ib : Inbox) (now : wall_clock) (pid : N) (b : bytes) : TM unit :=
  with_err MaildirDeliver (zoom box set_box (deliver ib now pid b)).

(** ** The envelope stamp *)
Definition stamp_header (id : bytes) : bytes := $"X-TOT-Session: " ++ id ++ crlf.
Definition trim_eol (line : bytes) : bytes := trim_end_by is_crlf line.
Definition is_session_header (line : bytes) : bool :=
  starts_with $"x-tot-session:" (to_ascii_lowercase (trim_eol line)).
(** The loop over [split_inclusive('\n')], [in_headers] its flag. *)
Fixpoint stamp_lines (in_headers : bool) (ls : list bytes) : bytes :=
  match ls with
  | [] => []
  | line :: ls' =>
      if in_headers then
        if decide (trim_eol line = []) then line ++ stamp_lines false ls'
        else if is_session_header line then stamp_lines true ls'
        else line ++ stamp_lines true ls'
      else line ++ stamp_lines false ls'
  end.
Definition has_header_block (raw : bytes) : bool :=
  contains (crlf ++ crlf) raw || contains [LF; LF] raw.
Definition stamp_session (raw id : bytes) : result tot_error bytes :=
  if negb (has_header_block raw) then Err NoHeaderBlock
  else Ok (stamp_header id ++ stamp_lines true (split_inclusive LF (from_utf8_lossy raw))).

(** ** [/intake] over a WebSocket *)
Section legs.
Context (cfg : Config) (ib : Inbox) (pid : N).

Fixpoint intake_loop (limiter : RateLimiter) (evs : list timed) : TM unit :=
  match evs with
  | [] => mret tt
  | e :: evs' =>
    match event e with
    | Others f => _ ← others f; intake_loop limiter evs'
    | Tick => intake_loop limiter evs'
    | Incoming RecvError => throw WebsocketRecv
    | Incoming (Binary b) =>
        if max_message_bytes cfg <? Z.of_nat (length b)
        then throw (MessageTooLarge (Z.of_nat (length b)) (max_message_bytes cfg))
        else let '(allowed, limiter') := allow limiter (instant e) in
             if negb allowed then throw RateLimitExceeded
             else _ ← inbox_deliver ib (wall e) pid b; intake_loop limiter' evs'
    | Incoming Close => mret tt
    | Incoming OtherMessage => intake_loop limiter evs'
    end
  end.
Definition intake_leg (now : Z) (evs : list timed) : TM unit :=
  intake_loop (limiter_new (intake_max_msgs_per_sec cfg) now) evs.

(** ** Session directories *)
Definition sweep_entry (outbox : path) (n : Z) (name : bytes) : io Z :=
  _ ← syscall; m ← gets fs;
  if is_dir m (outbox ++ [name])
  then _ ← remove_dir_all (outbox ++ [name]); mret (n + 1)
  else mret n.
Fixpoint sweep_entries (outbox : path) (n : Z) (names : list bytes) : io Z :=
  match names with
  | [] => mret n
  | x :: names' => n' ← sweep_entry outbox n x; sweep_entries outbox n' names'
  end.
Definition sweep_stale_sessions (outbox : path) : io Z :=
  _ ← create_dir_all outbox;
  names ← read_dir outbox;
  sweep_entries outbox 0 names.

Definition REPLY_POLL_MS : Z := 100.

Definition is_reply (name : bytes) : bool := bool_decide (extension [name] = Some $"cbor").
Definition reply_names (names : list bytes) : list bytes :=
  sort_names (filter (fun n => is_reply n = true) names).
Definition pump_one (dir : path) (name : bytes) : TM unit :=
  b ← on_disk ReadReply (read_file (dir ++ [name]));
  _ ← send b;
  _ ← attempt (E := tot_error) (on_disk ReadReply (remove_file (dir ++ [name])));
  mret tt.
Definition pump_replies (dir : path) : TM unit :=
  names ← on_disk SessionDirUnreadable (read_dir dir);
  mapM_ (pump_one dir) (reply_names names).

(** [SessionDir::create] and its [Drop]. *)
Definition session_create (outbox : path) (id : bytes) : TM path :=
  let p := join outbox id in
  _ ← on_disk SessionDirCreate (create_dir_all p); mret p.
Definition session_drop (dir : path) : TM unit :=
  _ ← attempt (E := tot_error) (on_disk SessionDirUnreadable (remove_dir_all dir)); mret tt.

(** ** [/session] *)
Fixpoint session_loop (id : bytes) (dir : path) (limiter : RateLimiter)
  (evs : list timed) : TM unit :=
  match evs with
  | [] => mret tt
  | e :: evs' =>
    match event e with
    | Others f => _ ← others f; session_loop id dir limiter evs'
    | Tick => _ ← pump_replies dir; session_loop id dir limiter evs'
    | Incoming RecvError => throw WebsocketRecv
    | Incoming (Binary b) =>
        if max_message_bytes cfg <? Z.of_nat (length b)
        then throw (MessageTooLarge (Z.of_nat (length b)) (max_message_bytes cfg))
        else let '(allowed, limiter') := allow limiter (instant e) in
             if negb allowed then throw RateLimitExceeded
             else stamped ← lift (stamp_session b id);
                  _ ← inbox_deliver ib (wall e) pid stamped;
                  session_loop id dir limiter' evs'
    | Incoming Close => mret tt
    | Incoming OtherMessage => session_loop id dir limiter evs'
    end
  end.
(** [entropy] is what reading 32 bytes of [/dev/urandom] gives. *)
Definition session_leg (entropy : result io_error bytes) (now : Z) (evs : list timed)
  : TM unit :=
  b ← lift (map_err Entropy entropy);
  let id := hex_encode b in
  outbox ← lift (ok_or NoCustodyOutbox (custody_outbox cfg));
  dir ← session_create outbox id;
  r ← attempt (E := tot_error)
      (session_loop id dir (limiter_new (intake_max_msgs_per_sec cfg) now) evs);
  _ ← session_drop dir;
  lift r.

(** ** Raw TCP: one frame, its length already read *)
Definition u32_le (p : bytes) : Z :=
  foldr (fun b acc => Z.of_N (code b) + 256 * acc) 0 p.
(** [read_exact] on what the peer will have sent when it closes. *)
Definition read_exact (n : nat) (input : bytes) : option (bytes * bytes) :=
  if (length input <? n)%nat then None else Some (take n input, drop n input).
Definition tcp_intake_leg (input : bytes) (len_prefix : bytes) (now : wall_clock) : TM unit :=
  let len := u32_le len_prefix in
  if len =? 0 then throw ZeroLengthFrame
  else if max_message_bytes cfg <? len then throw (FrameTooLarge len (max_message_bytes cfg))
  else match read_exact (Z.to_nat len) input with
     | None => throw ReadBody
     | Some (body, _) => inbox_deliver ib now pid body
     end.
End legs.

(** ** The demux's pushed-back prefix: one [poll_read] into a buffer with
    [room] bytes left, given what the socket would return for that buffer. *)
Record PrefixedStream : Type := { prefix_ : bytes; pos : nat; inner : bytes }.
Definition prefixed_new (prefix inner : bytes) : PrefixedStream :=
  {| prefix_ := prefix; pos := 0; inner := inner |}.
Definition poll_read (s : PrefixedStream) (room chunk : nat) : bytes * PrefixedStream :=
  if (pos s <? length (prefix_ s))%nat then
    let remaining := drop (pos s) (prefix_ s) in
    let n := Nat.min (length remaining) room in
    (take n remaining, {| prefix_ := prefix_ s; pos := pos s + n; inner := inner s |})
  else
    let n := Nat.min chunk room in
    (take n (inner s), {| prefix_ := prefix_ s; pos := pos s; inner := drop n (inner s) |}).
(** Everything a reader gets from a series of reads. *)
Fixpoint poll_reads (s : PrefixedStream) (rs : list (nat * nat)) : bytes * PrefixedStream :=
  match rs with
  | [] => ([], s)
  | (room, chunk) :: rs' =>
      let '(b, s1) := poll_read s room chunk in
      let '(bs, s2) := poll_reads s1 rs' in (b ++ bs, s2)
  end.
Definition unread (s : PrefixedStream) : bytes := drop (pos s) (prefix_ s) ++ inner s.

(** ** The opaque tunnel *)
Section tunnel.
(** Client to node: binary payloads are written until the client closes; a
    failed write ends the tunnel with an error. [writes]: whether each write
    succeeds. *)
Fixpoint client_to_nabla (msgs : list ws_event) (writes : list bool) : bytes * bool :=
  match msgs with
  | [] => ([], true)
  | Binary b :: msgs' =>
    match writes with
    | false :: _ => ([], false)
    | _ => let '(out, r) := client_to_nabla msgs' (tail writes) in (b ++ out, r)
    end
  | (Close | RecvError) :: _ => ([], true)
  | OtherMessage :: msgs' => client_to_nabla msgs' writes
  end.
Definition TUNNEL_BUF : nat := 16 * 1024.
(** Node to client: each read of up to 16 KiB becomes one binary message,
    until a read returns nothing or a send fails.  [chunks]: how much each
    read returns; [fuel]: more than the length of the input is enough. *)
Fixpoint nabla_to_client (fuel : nat) (input : bytes) (chunks : list nat)
  (sends : list bool) : list bytes :=
  match fuel with
  | O => []
  | S fuel' =>
    let n := Nat.min TUNNEL_BUF
               (match chunks with c :: _ => Nat.max 1 c | [] => TUNNEL_BUF end) in
    let b := take n input in
    if decide (b = []) then []
    else match sends with
         | false :: _ => []
         | _ => b :: nabla_to_client fuel' (drop n input) (tail chunks) (tail sends)
         end
  end.
(** [tunnel::pump]: both directions under [try_join!]; when the client's
    direction fails, the other one is cancelled after [cancelled] messages. *)
Definition pump (msgs : list ws_event) (writes : list bool) (from_node : bytes)
  (chunks : list nat) (cancelled : nat) : TM unit := fun t =>
  let '(out, fine) := client_to_nabla msgs writes in
  let back := nabla_to_client (S (length from_node)) from_node chunks (sends t) in
  let back := if fine then back else take cancelled back in
  (if fine then Ok tt else Err TunnelFailed,
   {| box := box t; sent := sent t ++ back; sends := drop (length back) (sends t);
    to_node := to_node t ++ out |}).
End tunnel.

(** ** Dispatch *)
Section conn.
Context (cfg : Config) (ib : Inbox) (pid : N) (dev_fatmama : bool).
(** The handshake of tungstenite over the byte stream the client sent: the
    request path, and what the connection then delivers. *)
Context (accept : bytes -> option (bytes * list timed)).
(** [TcpStream::connect] to a node: what the node will send, if it answers,
    and how the two sockets chop and fail. *)
Context (connect : NablaNode -> option bytes).
Context (writes : list bool) (chunks : list nat) (cancelled : nat).
Context (entropy : result io_error bytes).

Definition messages (evs : list timed) : list ws_event :=
  omap (fun e => match event e with Incoming m => Some m | _ => None end) evs.
Definition tunnel_leg (err : tot_error) (node : option NablaNode) (evs : list timed)
  : TM unit :=
  match node with
  | None => throw err
  | Some nd =>
    match connect nd with
    | None => throw ConnectNode
    | Some from_node => pump (messages evs) writes from_node chunks cancelled
    end
  end.
Definition nabla_leg (idx : Z) (evs : list timed) : TM unit :=
  tunnel_leg (NablaOutside idx) (nabla cfg !! Z.to_nat idx) evs.
Definition fatmama_leg (idx : Z) (evs : list timed) : TM unit :=
  tunnel_leg (FatmamaOutside idx) (fatmama cfg !! Z.to_nat idx) evs.

Definition websocket_conn (stream : bytes) (now : Z) : TM unit :=
  match accept stream with
  | None => throw Handshake
  | Some (p, evs) =>
    match parse dev_fatmama p with
    | Some Intake => intake_leg cfg ib pid now evs
    | Some Session => session_leg cfg ib pid entropy now evs
    | Some (Nabla idx) => nabla_leg idx evs
    | Some (Fatmama idx) => fatmama_leg idx evs
    | None => throw (UnknownRoute p)
    end
  end.
Definition GET_ : bytes := $"GET ".
(** [handle_conn] on all the peer sends before closing. *)
Definition handle_conn (input : bytes) (now : Z) (clock : wall_clock) : TM unit :=
  match read_exact 4 input with
  | None => throw ReadDemuxHead
  | Some (head, rest) =>
    if decide (head = GET_)
    then websocket_conn (unread (prefixed_new head rest)) now
    else tcp_intake_leg cfg ib pid rest head clock
  end.
End conn.
End TotServer.
