(* ===== verification/TotStamp.v ===== *)
(** * The custody stamp of [/session] envelopes

    Theorems about [stamp_session] of TotServer: which header lines of the client
    TOT drops under its own stamp, which it leaves, and that the rest is unchanged. *)
From S2P Require Import Prelude Utf8 Fs TotServer.
Import TotServer.

Module TotStamp.

(** ** Lines that end in a separator, the last one perhaps not *)
Fixpoint pieces (c : byte) (ls : list bytes) : Prop :=
  match ls with
  | [] => True
  | l :: ls' =>
      (exists b, c ∉ b /\ (l = b ++ [c] \/ (l = b /\ b <> [] /\ ls' = []))) /\ pieces c ls'
  end.

Lemma split_pieces c s : pieces c (split_inclusive c s).
Proof.
  induction s as [|x s IH]; simpl; [done|]. case_decide as D.
  - subst. simpl. split; [|done]. exists []. split; [set_solver|by left].
  - destruct (split_inclusive c s) as [|l ls]; simpl in *.
    + split; [|done]. exists [x]. split; [set_solver|by right].
    + destruct IH as [(b & N & [->|(-> & Hb & ->)]) H]; (split; [|done]).
      * exists (x :: b). split; [set_solver|by left].
      * exists (x :: b). split; [set_solver|by right].
Qed.

Lemma split_inclusive_none c b : c ∉ b -> b <> [] -> split_inclusive c b = [b].
Proof.
  induction b as [|x b IH]; intros N H; [done|]. simpl.
  rewrite decide_False by set_solver. destruct b as [|y b]; [done|].
  by rewrite IH by set_solver.
Qed.
Lemma pieces_split c ls : pieces c ls -> split_inclusive c (concat ls) = ls.
Proof.
  induction ls as [|l ls IH]; simpl; [done|].
  intros [(b & N & [->|(-> & Hb & ->)]) H].
  - rewrite <- app_assoc. simpl. by rewrite split_inclusive_line, IH.
  - simpl. rewrite app_nil_r. by apply split_inclusive_none.
Qed.

(** ** Header block and body of a list of lines *)
Definition blank (l : bytes) : bool := bool_decide (trim_eol l = []).
Fixpoint header_lines (ls : list bytes) : list bytes :=
  match ls with
  | [] => []
  | l :: ls' => if blank l then [] else l :: header_lines ls'
  end.
Fixpoint body_lines (ls : list bytes) : list bytes :=
  match ls with
  | [] => []
  | l :: ls' => if blank l then l :: ls' else body_lines ls'
  end.
Definition not_session_header (l : bytes) : bool := negb (is_session_header l).

Lemma header_body ls : header_lines ls ++ body_lines ls = ls.
Proof. induction ls as [|l ls IH]; simpl; [done|]. case_match; simpl; by rewrite ?IH. Qed.

Definition kept (ls : list bytes) : list bytes :=
  List.filter not_session_header (header_lines ls) ++ body_lines ls.

Lemma stamp_lines_body ls : stamp_lines false ls = concat ls.
Proof. induction ls as [|l ls IH]; simpl; by rewrite ?IH. Qed.
Lemma stamp_lines_cons l ls :
  stamp_lines true (l :: ls) =
    if blank l then l ++ stamp_lines false ls
    else if is_session_header l then stamp_lines true ls else l ++ stamp_lines true ls.
Proof.
  unfold blank. cbn [stamp_lines]. destruct (decide (trim_eol l = [])) as [D|D].
  - by rewrite bool_decide_true.
  - by rewrite bool_decide_false.
Qed.
Lemma stamp_lines_kept ls : stamp_lines true ls = concat (kept ls).
Proof.
  induction ls as [|l ls IH]; [done|]. rewrite stamp_lines_cons. unfold kept in *.
  cbn [header_lines body_lines]. destruct (blank l); simpl; [by rewrite stamp_lines_body|].
  unfold not_session_header at 1. by destruct (is_session_header l); simpl; rewrite IH.
Qed.

Lemma pieces_filter_header c ls :
  pieces c ls -> pieces c (kept ls).
Proof.
  unfold kept. induction ls as [|l ls IH]; simpl; [done|]. intros [H Hls].
  destruct (blank l); simpl; [by split|].
  destruct (not_session_header l); simpl; [|auto].
  split; [|auto]. destruct H as (b & N & [->|(-> & Hb & ->)]).
  - exists b. auto.
  - exists b. split; [done|]. right. auto.
Qed.

Lemma header_lines_kept ls :
  header_lines (kept ls) = List.filter not_session_header (header_lines ls).
Proof.
  unfold kept. induction ls as [|l ls IH]; simpl; [done|].
  destruct (blank l) eqn:B; simpl; [by rewrite B|].
  destruct (not_session_header l); simpl; by rewrite ?B, ?IH.
Qed.
Lemma body_lines_kept ls : body_lines (kept ls) = body_lines ls.
Proof.
  unfold kept. induction ls as [|l ls IH]; simpl; [done|].
  destruct (blank l) eqn:B; simpl; [by rewrite B|].
  destruct (not_session_header l); simpl; by rewrite ?B, ?IH.
Qed.

(** ** The stamp's own line *)
Lemma trim_start_by_app p a b :
  trim_start_by p (a ++ b) =
    match trim_start_by p a with [] => trim_start_by p b | r => r ++ b end.
Proof. induction a as [|x a IH]; simpl; [by destruct (trim_start_by p b)|]. by destruct (p x). Qed.
Lemma trim_end_by_app p a x b :
  p x = false -> trim_end_by p (a ++ x :: b) = a ++ x :: trim_end_by p b.
Proof.
  intros Hx. unfold trim_end_by. rewrite rev_app_distr. simpl. rewrite <- app_assoc.
  rewrite trim_start_by_app. destruct (trim_start_by p (rev b)) as [|y r]; simpl.
  - rewrite Hx. simpl. by rewrite rev_involutive.
  - rewrite rev_app_distr. simpl. by rewrite rev_involutive, <- !app_assoc.
Qed.
Lemma stamp_trim id :
  trim_eol (stamp_header id) = $"X-TOT-Session: " ++ trim_eol (id ++ crlf).
Proof.
  unfold trim_eol, stamp_header.
  change $"X-TOT-Session: " with ($"X-TOT-Session:" ++ [" "%char]).
  rewrite <- !app_assoc. by apply (trim_end_by_app is_crlf).
Qed.
Lemma stamp_is_header id :
  is_session_header (stamp_header id) = true /\ blank (stamp_header id) = false.
Proof.
  unfold is_session_header, blank. rewrite stamp_trim. split; [done|].
  by apply bool_decide_eq_false.
Qed.

Lemma stamp_split id text :
  LF ∉ id ->
  split_inclusive LF (stamp_header id ++ stamp_lines true (split_inclusive LF text))
  = stamp_header id :: kept (split_inclusive LF text).
Proof.
  intros N. rewrite stamp_lines_kept.
  assert (stamp_header id = ($"X-TOT-Session: " ++ id ++ [CR]) ++ [LF]) as ->.
  { unfold stamp_header, crlf. by rewrite <- !app_assoc. }
  rewrite <- app_assoc. simpl ([LF] ++ _).
  rewrite split_inclusive_line by (simpl; set_solver).
  by rewrite pieces_split by apply pieces_filter_header, split_pieces.
Qed.

(** ** Which lines the stamp drops, without reference to the code
    A line is dropped when its bytes begin with the custody name, in either case,
    directly followed by a colon. *)
Definition names_session (l : bytes) : Prop :=
  exists name rest, l = name ++ $":" ++ rest /\ eq_ignore_ascii_case name $"X-TOT-Session" = true.
(** The line that ends a header block: nothing but line breaks. *)
Definition only_breaks (l : bytes) : Prop := Forall (fun c => c = CR \/ c = LF) l.
(** [strips head below]: [below] is [head] without the lines that name the custody
    header, in order. *)
Inductive strips : list bytes -> list bytes -> Prop :=
  | strips_nil : strips [] []
  | strips_drop l head below : names_session l -> strips head below -> strips (l :: head) below
  | strips_keep l head below : ~ names_session l -> strips head below -> strips (l :: head) (l :: below).
(** A header block and what follows it. *)
Definition block (ls head body : list bytes) : Prop :=
  ls = head ++ body /\ Forall (fun l => ~ only_breaks l) head /\
  (body = [] \/ exists l rest, body = l :: rest /\ only_breaks l).

Lemma trim_start_by_nil p s : trim_start_by p s = [] <-> Forall (fun c => p c = true) s.
Proof.
  induction s as [|x s IH]; cbn [trim_start_by]; [done|]. rewrite Forall_cons. destruct (p x) eqn:E; [rewrite IH; tauto|].
  split; [discriminate|]. by intros [? _].
Qed.
Lemma trim_end_split p s : exists t, s = trim_end_by p s ++ t /\ Forall (fun c => p c = true) t.
Proof.
  unfold trim_end_by. assert (forall r, exists t, r = t ++ trim_start_by p r /\ Forall (fun c => p c = true) t) as H.
  { intros r. induction r as [|x r (t & E & F)]; [by exists []|]. cbn [trim_start_by].
    destruct (p x) eqn:Px; [|by exists []]. exists (x :: t). cbn [app]. rewrite <- E. by split; [|constructor]. }
  destruct (H (rev s)) as (t & E & F). exists (rev t). rewrite <- rev_app_distr, <- E, rev_involutive. split; [done|].
  rewrite !Forall_forall in *. intros c Hc. apply F. rewrite list_elem_of_In in *. by apply in_rev.
Qed.
Lemma lower_colon x : ascii_lower x = ":"%char -> x = ":"%char.
Proof. destruct x as [[] [] [] [] [] [] [] []]; vm_compute; congruence. Qed.
Lemma is_session_spec l : is_session_header l = true <-> names_session l.
Proof.
  unfold is_session_header, names_session, eq_ignore_ascii_case, trim_eol. rewrite starts_with_spec. split.
  - intros [r E]. destruct (trim_end_split is_crlf l) as (t & El & _). rewrite El.
    set (u := trim_end_by is_crlf l) in *. clearbody u. clear El.
    change $"x-tot-session:" with ($"x-tot-session" ++ $":") in E. rewrite <- app_assoc in E.
    apply map_eq_app in E as (name & v & -> & En & Ev). change ($":" ++ r) with (":"%char :: r) in Ev.
    apply map_eq_cons in Ev as (x & rest & -> & Ex%lower_colon & _). subst x.
    exists name, (rest ++ t). split; [by rewrite <- app_assoc|]. apply bool_decide_eq_true. exact En.
  - intros (name & rest & -> & En%bool_decide_eq_true). exists (to_ascii_lowercase (trim_end_by is_crlf rest)).
    change ($":" ++ rest) with (":"%char :: rest). rewrite (trim_end_by_app is_crlf name ":"%char rest eq_refl).
    unfold to_ascii_lowercase in *. rewrite map_app, En. reflexivity.
Qed.
Lemma blank_spec l : blank l = true <-> only_breaks l.
Proof.
  unfold blank, trim_eol, trim_end_by, only_breaks. rewrite bool_decide_eq_true.
  assert (forall s : bytes, rev s = [] <-> s = []) as Hr.
  { intros s. split; [|by intros ->]. intros E. by rewrite <- (rev_involutive s), E. }
  rewrite Hr, trim_start_by_nil, !Forall_forall. unfold is_crlf.
  setoid_rewrite bool_decide_eq_true. setoid_rewrite list_elem_of_In. by setoid_rewrite <- in_rev.
Qed.
Lemma block_of ls : block ls (header_lines ls) (body_lines ls).
Proof.
  split; [by rewrite header_body|]. split.
  - induction ls as [|l ls IH]; cbn [header_lines]; [done|]. destruct (blank l) eqn:B; [done|].
    constructor; [|done]. intros H%blank_spec. congruence.
  - induction ls as [|l ls IH]; cbn [body_lines]; [by left|]. destruct (blank l) eqn:B; [|done].
    right. exists l, ls. by rewrite <- blank_spec.
Qed.
Lemma strips_filter ls : strips ls (List.filter not_session_header ls).
Proof.
  induction ls as [|l ls IH]; cbn [List.filter]; [constructor|]. unfold not_session_header at 1.
  destruct (is_session_header l) eqn:E; cbn [negb].
  - apply strips_drop; [by apply is_session_spec|done].
  - apply strips_keep; [|done]. intros H%is_session_spec. congruence.
Qed.
Lemma white_names_none c l : c = " "%char \/ c = ch 9 -> ~ names_session (c :: l).
Proof.
  intros Hc (name & rest & E & H%bool_decide_eq_true). destruct name as [|x name]; [discriminate|].
  injection E as <- _. by destruct Hc as [-> | ->].
Qed.
Lemma spaced_names_none v : ~ names_session ($"X-TOT-Session : " ++ v).
Proof.
  intros (name & rest & E & H%bool_decide_eq_true). apply (f_equal (@length _)) in H.
  unfold to_ascii_lowercase in H. rewrite !length_map in H.
  change ($"X-TOT-Session : " ++ v) with ($"X-TOT-Session" ++ $" : " ++ v) in E.
  apply app_inj_1 in E as [_ E]; [discriminate|done].
Qed.

(** C1: strip-then-add, exactly.  A message is refused exactly when it holds
    neither an empty CRLF line nor an empty LF line.  Otherwise the result is text
    to its last byte (what is not UTF-8 is decoded lossily first): this session's
    stamp on the first line; then the client's header lines, in order, less those
    that begin, in either case, with the custody name directly followed by a
    colon; then, from the blank line on, everything unchanged.  So only lines
    spelled that way are dropped: a custody header with white space before its
    colon, and every line that continues another, a dropped one too, is passed on. *)
Theorem stamp_session_strip_then_add raw id :
  LF ∉ id ->
  match stamp_session raw id with
  | Err _ => forall a b, raw <> a ++ crlf ++ crlf ++ b /\ raw <> a ++ [LF; LF] ++ b
  | Ok out =>
      (exists a b, raw = a ++ crlf ++ crlf ++ b \/ raw = a ++ [LF; LF] ++ b) /\
      exists text head body below,
        text = from_utf8_lossy raw /\ (is_utf8 raw = true -> text = raw) /\
        block (split_inclusive LF text) head body /\ strips head below /\
        out = $"X-TOT-Session: " ++ id ++ crlf ++ concat below ++ concat body /\
        block (split_inclusive LF out) (($"X-TOT-Session: " ++ id ++ crlf) :: below) body /\
        (forall l, l ∈ below -> ~ names_session l) /\
        (forall c l, c :: l ∈ head -> c = " "%char \/ c = ch 9 -> c :: l ∈ below) /\
        (forall v, $"X-TOT-Session : " ++ v ∈ head -> $"X-TOT-Session : " ++ v ∈ below)
  end.
Proof.
  intros N. unfold stamp_session, has_header_block.
  destruct (contains (crlf ++ crlf) raw || contains [LF; LF] raw) eqn:E; cbn [negb]; cycle 1.
  { apply orb_false_iff in E as [E1 E2]. intros a b. split; intros ->.
    - assert (contains (crlf ++ crlf) (a ++ crlf ++ crlf ++ b) = true) by (apply contains_spec; exists a, b; by rewrite <- !app_assoc). congruence.
    - assert (contains [LF; LF] (a ++ [LF; LF] ++ b) = true) by (apply contains_spec; by exists a, b). congruence. }
  split.
  { apply orb_true_iff in E as [(a & b & ->)%contains_spec|(a & b & ->)%contains_spec]; exists a, b; [left|by right].
    by rewrite <- !app_assoc. }
  set (text := from_utf8_lossy raw). set (ls := split_inclusive LF text).
  exists text, (header_lines ls), (body_lines ls), (List.filter not_session_header (header_lines ls)).
  split; [done|]. split; [by apply lossy_valid|]. split; [apply block_of|]. split; [apply strips_filter|].
  assert (block (split_inclusive LF (stamp_header id ++ stamp_lines true ls))
    (stamp_header id :: List.filter not_session_header (header_lines ls)) (body_lines ls)) as Hb.
  { rewrite (stamp_split id text N : split_inclusive LF (stamp_header id ++ stamp_lines true ls) = stamp_header id :: kept ls). destruct (stamp_is_header id) as [_ H2].
    pose proof (block_of (stamp_header id :: kept ls)) as Hb. cbn [header_lines body_lines] in Hb.
    by rewrite H2, header_lines_kept, body_lines_kept in Hb. }
  split; [rewrite stamp_lines_kept; unfold kept, stamp_header; by rewrite concat_app, <- !app_assoc|]. split; [exact Hb|].
  assert (forall l, l ∈ List.filter not_session_header (header_lines ls) <-> l ∈ header_lines ls /\ ~ names_session l) as Hf.
  { intros l. rewrite !list_elem_of_In, filter_In, <- is_session_spec. unfold not_session_header. by rewrite negb_true_iff, not_true_iff_false. }
  split; [by intros l [_ ?]%Hf|].
  split; [intros c l Hl Hc|intros v Hl]; (apply Hf; split; [done|]); [by apply white_names_none|by apply spaced_names_none].
Qed.
Lemma stamp_session_strip_then_add_witness :
  let raw := $"From: a@b" ++ crlf ++ $"x-tot-SESSION:evil" ++ crlf ++ $" fold" ++ crlf ++ crlf ++ $"body" in
  let out := stamp_header $"ab12" ++ $"From: a@b" ++ crlf ++ $" fold" ++ crlf ++ crlf ++ $"body" in
  LF ∉ $"ab12" /\ stamp_session raw $"ab12" = Ok out /\
  exists head body below, block (split_inclusive LF raw) head body /\ strips head below /\
    out = $"X-TOT-Session: " ++ $"ab12" ++ crlf ++ concat below ++ concat body.
Proof.
  intros raw out. assert (LF ∉ $"ab12") as N by (apply (bool_decide_unpack _); vm_compute; exact I).
  assert (stamp_session raw $"ab12" = Ok out) as E by (vm_compute; reflexivity).
  split; [exact N|]. split; [exact E|]. pose proof (stamp_session_strip_then_add raw $"ab12" N) as H. rewrite E in H.
  destruct H as (_ & text & head & body & below & _ & Ht & Hb & Hs & Ho & _).
  rewrite Ht in Hb by (vm_compute; reflexivity). exists head, body, below. split; [exact Hb|]. split; [exact Hs|exact Ho].
Defined.

Definition spaced_line (victim : bytes) : bytes := $"X-TOT-Session : " ++ victim ++ crlf.
Lemma spaced_trim victim :
  trim_eol ($"X-TOT-Session : " ++ victim ++ crlf)
  = $"X-TOT-Session : " ++ trim_eol (victim ++ crlf).
Proof.
  change $"X-TOT-Session : " with ($"X-TOT-Session :" ++ [" "%char]).
  rewrite <- !app_assoc. by apply (trim_end_by_app is_crlf).
Qed.

(** The strip compares the text up to the colon, so the obsolete spelling
    of a header with white space before its colon is not recognised: such a
    line of the client reaches the inbox below TOT's stamp, whatever the
    session and whatever the value. *)
Theorem stamp_session_keeps_spaced_name id victim :
  LF ∉ victim -> is_utf8 (spaced_line victim ++ crlf) = true ->
  stamp_session (spaced_line victim ++ crlf) id
  = Ok (stamp_header id ++ spaced_line victim ++ crlf).
Proof.
  unfold spaced_line. set (line := $"X-TOT-Session : " ++ victim ++ crlf). intros N U. unfold stamp_session, has_header_block.
  assert (contains (crlf ++ crlf) (line ++ crlf) = true) as ->.
  { apply contains_spec. exists ($"X-TOT-Session : " ++ victim), [].
    unfold line. by rewrite app_nil_r, <- !app_assoc. }
  cbn [negb orb]. rewrite (lossy_valid _ U). do 2 f_equal.
  assert (split_inclusive LF (line ++ crlf) = [line; crlf]) as ->.
  { assert (line = ($"X-TOT-Session : " ++ victim ++ [CR]) ++ [LF]) as E.
    { unfold line, crlf. by rewrite <- !app_assoc. }
    rewrite E, <- (app_assoc _ [LF]). cbn [app].
    rewrite split_inclusive_line by (simpl; set_solver). by rewrite <- E. }
  rewrite !stamp_lines_cons.
  assert (blank line = false) as ->.
  { apply bool_decide_eq_false. unfold line. by rewrite spaced_trim. }
  assert (is_session_header line = false) as ->.
  { unfold is_session_header, line. by rewrite spaced_trim. }
  reflexivity.
Qed.
Lemma stamp_session_keeps_spaced_name_witness :
  stamp_session (spaced_line $"00ff" ++ crlf) $"ab12"
  = Ok (stamp_header $"ab12" ++ spaced_line $"00ff" ++ crlf).
Proof.
  apply (stamp_session_keeps_spaced_name $"ab12" $"00ff").
  - apply (bool_decide_unpack _). vm_compute. exact I.
  - vm_compute. reflexivity.
Defined.
End TotStamp.
