(* ===== verification/TotTheorems.v ===== *)
(** * Theorems about the tunnel of TotServer *)
From S2P Require Import Prelude Utf8 Fs TotInbox TotConfig TotServer.
Import TotInbox TotConfig TotServer.

(** ** The rate limiter *)
Module Limiter.

Fixpoint run (rl : RateLimiter) (ts : list Z) : list (Z * bool) :=
  match ts with
  | [] => []
  | x :: ts' => let '(b, rl') := allow rl x in (x, b) :: run rl' ts'
  end.
(** How many of the calls made in [[t, t + 1 s)] were allowed. *)
Definition in_second (t : Z) (c : Z * bool) : bool :=
  c.2 && (t <=? c.1) && (c.1 <? t + NANOS).
Definition granted (t : Z) (cs : list (Z * bool)) : Z :=
  Z.of_nat (length (List.filter (in_second t) cs)).

Lemma granted_cons t c cs :
  granted t (c :: cs) = (if in_second t c then 1 else 0) + granted t cs.
Proof. unfold granted. simpl. destruct (in_second t c); simpl; lia. Qed.

(** One call, its window already decided. *)
Definition opened (rl : RateLimiter) (x : Z) : RateLimiter :=
  if NANOS <=? sat_sub x (window_start rl)
  then {| max_per_sec := max_per_sec rl; window_start := x; count := 0 |} else rl.
Lemma allow_eq rl x :
  0 < max_per_sec rl -> 0 <= count rl < U32_MAX ->
  allow rl x =
    (count (opened rl x) + 1 <=? max_per_sec rl,
     {| max_per_sec := max_per_sec rl; window_start := window_start (opened rl x);
        count := count (opened rl x) + 1 |}).
Proof.
  intros Hm Hc. unfold allow. destruct (Z.eqb_spec (max_per_sec rl) 0); [lia|].
  fold (opened rl x). unfold U32_MAX in *.
  unfold opened. destruct (NANOS <=? _); simpl; rewrite wrap_small; auto; lia.
Qed.

Section limiter.
Context (t : Z).

Lemma granted_late ts rl : Forall (fun x => t + NANOS <= x) ts -> granted t (run rl ts) = 0.
Proof.
  revert rl. induction ts as [|x ts IH]; intros rl H; [done|]. inversion_clear H. simpl.
  destruct (allow rl x) as [b rl']. rewrite granted_cons, IH by done.
  unfold in_second. simpl. destruct b; simpl; [|lia].
  destruct (Z.ltb_spec x (t + NANOS)); [lia|]. by rewrite andb_false_r.
Qed.

Definition fits (rl : RateLimiter) (ts : list Z) : Prop :=
  0 < max_per_sec rl /\ 0 <= count rl /\ count rl + Z.of_nat (length ts) <= U32_MAX /\
  Forall (fun x => window_start rl <= x) ts /\ StronglySorted Z.le ts.

Lemma fits_step rl x ts :
  fits rl (x :: ts) -> fits (allow rl x).2 ts /\ window_start rl <= x /\
  max_per_sec (allow rl x).2 = max_per_sec rl /\
  window_start rl <= window_start (allow rl x).2 /\
  (x < window_start rl + NANOS /\ window_start (allow rl x).2 = window_start rl /\
     count (allow rl x).2 = count rl + 1 /\ (allow rl x).1 = (count rl + 1 <=? max_per_sec rl)
   \/ window_start rl + NANOS <= x /\ window_start (allow rl x).2 = x /\
     count (allow rl x).2 = 1 /\ (allow rl x).1 = (1 <=? max_per_sec rl)).
Proof.
  intros (Hm & Hc & Hl & Hw & Hs). inversion_clear Hw. inversion_clear Hs as [|? ? Hs' Hx].
  simpl in Hl. rewrite allow_eq by (unfold U32_MAX in *; lia). simpl.
  unfold opened, sat_sub. destruct (Z.leb_spec NANOS (Z.max 0 (x - window_start rl)));
    simpl; (split; [unfold fits; simpl; repeat split; try done; try lia|]); unfold NANOS in *;
    repeat split; try lia; auto.
Qed.

(** A window opened at or after [t] serves the second alone. *)
Lemma granted_inside ts rl :
  fits rl ts -> t <= window_start rl ->
  granted t (run rl ts) <= Z.max 0 (max_per_sec rl - count rl).
Proof.
  revert rl. induction ts as [|x ts IH]; intros rl Hf Ht; [unfold granted; simpl; lia|].
  destruct (fits_step _ _ _ Hf) as (Hf' & Hx & Hm & _ & Hcase). cbn [run].
  destruct (allow rl x) as [b rl']. simpl in *. rewrite granted_cons.
  destruct Hcase as [(H1 & H2 & H3 & ->)|(H1 & H2 & H3 & ->)].
  - specialize (IH rl' Hf' ltac:(lia)). unfold in_second. simpl.
    destruct (Z.leb_spec (count rl + 1) (max_per_sec rl)); simpl; repeat case_match; lia.
  - rewrite granted_late.
    + unfold in_second. simpl. destruct (Z.ltb_spec x (t + NANOS)); [lia|].
      rewrite andb_false_r. lia.
    + destruct Hf' as (_ & _ & _ & Hw & _). eapply Forall_impl; [exact Hw|]. simpl. lia.
Qed.

Lemma granted_from ts rl :
  fits rl ts -> Forall (fun x => t <= x) ts ->
  granted t (run rl ts) <= Z.max 0 (max_per_sec rl - count rl) + max_per_sec rl.
Proof.
  revert rl. induction ts as [|x ts IH]; intros rl Hf Ht.
  { destruct Hf. unfold granted; simpl; lia. }
  destruct (fits_step _ _ _ Hf) as (Hf' & Hx & Hm & _ & Hcase).
  destruct Hf as (Hpos & Hc & _). inversion_clear Ht. cbn [run].
  destruct (allow rl x) as [b rl']. simpl in *. rewrite granted_cons.
  destruct Hcase as [(H1 & H2 & H3 & ->)|(H1 & H2 & H3 & ->)].
  - specialize (IH rl' Hf' ltac:(done)). unfold in_second. simpl.
    destruct (Z.leb_spec (count rl + 1) (max_per_sec rl)); simpl; repeat case_match; lia.
  - pose proof (granted_inside ts rl' Hf' ltac:(lia)). case_match; lia.
Qed.

Lemma granted_sorted ts rl :
  fits rl ts -> granted t (run rl ts) <= 2 * max_per_sec rl.
Proof.
  revert rl. induction ts as [|x ts IH]; intros rl Hf.
  { destruct Hf. unfold granted; simpl; lia. }
  destruct (decide (t <= x)) as [Ht|Ht].
  - pose proof (granted_from (x :: ts) rl Hf) as H. destruct Hf as (? & ? & _ & _ & Hs).
    apply StronglySorted_inv in Hs as [_ Hs].
    etrans; [apply H|lia]. constructor; [done|]. eapply Forall_impl; [exact Hs|].
    simpl. lia.
  - destruct (fits_step _ _ _ Hf) as (Hf' & _ & Hm & _). cbn [run].
    destruct (allow rl x) as [b rl']. simpl in *. rewrite granted_cons.
    specialize (IH rl' Hf'). unfold in_second. simpl.
    destruct (Z.leb_spec t x); [lia|]. rewrite andb_false_r. simpl. lia.
Qed.
End limiter.

(** The fixed-window limiter bounds every sliding second.  Whatever the
    (monotone) clock readings of the calls on a connection, no interval of one
    second sees more than twice the configured budget accepted; and a budget
    of zero accepts everything. *)
Theorem limiter_second_bound max now ts t :
  0 <= max -> Forall (Z.le now) ts -> StronglySorted Z.le ts ->
  Z.of_nat (length ts) <= U32_MAX ->
  (0 < max -> granted t (run (limiter_new max now) ts) <= 2 * max) /\
  (max = 0 -> run (limiter_new max now) ts = map (fun x => (x, true)) ts).
Proof.
  intros Hmax Hn Hs Hl. split.
  - intros Hpos. apply (granted_sorted t ts (limiter_new max now)).
    unfold fits, limiter_new; simpl. repeat split; auto; lia.
  - intros ->. clear. induction ts as [|x ts IH]; [done|].
    change (run (limiter_new 0 now) (x :: ts))
      with ((x, true) :: run (limiter_new 0 now) ts). by rewrite IH.
Qed.
Lemma limiter_second_bound_witness :
  granted 900000000 (run (limiter_new 2 0) [0; 990000000; 999999999; 1000000000; 1000000001; 1500000000]) <= 4.
Proof.
  refine (proj1 (limiter_second_bound 2 0 [0; 990000000; 999999999; 1000000000; 1000000001; 1500000000]
                   900000000 _ _ _ _) _).
  - lia.
  - repeat constructor; lia.
  - repeat constructor; lia.
  - vm_compute. discriminate.
  - lia.
Defined.
End Limiter.

(** ** The demux, the raw frame and the tunnel *)
Module Framing.

Definition le32 (n : Z) : bytes :=
  map (fun k => ch (Z.to_N (n / 256 ^ k mod 256))) [0; 1; 2; 3].

Lemma u32_le_le32 n : 0 <= n <= U32_MAX -> u32_le (le32 n) = n.
Proof.
  intros Hn. unfold u32_le, le32. cbn [map foldr].
  rewrite !code_ch by (pose proof (Z.mod_pos_bound (n / 256 ^ 0) 256);
    pose proof (Z.mod_pos_bound (n / 256 ^ 1) 256);
    pose proof (Z.mod_pos_bound (n / 256 ^ 2) 256);
    pose proof (Z.mod_pos_bound (n / 256 ^ 3) 256); lia).
  rewrite !Z2N.id by (apply Z.mod_pos_bound; lia). unfold U32_MAX in *.
  change (256 ^ 0) with 1. change (256 ^ 1) with 256. change (256 ^ 2) with (256 * 256).
  change (256 ^ 3) with (256 * 256 * 256). rewrite <- !Z.div_div, Z.div_1_r by lia.
  pose proof (Z.div_mod n 256). pose proof (Z.div_mod (n / 256) 256).
  pose proof (Z.div_mod (n / 256 / 256) 256).
  rewrite (Z.mod_small (n / 256 / 256 / 256)); [lia|].
  split; [repeat apply Z.div_pos; lia|]. rewrite !Z.div_div by lia.
  apply Z.div_lt_upper_bound; lia.
Qed.

Lemma le32_length n : length (le32 n) = 4%nat.
Proof. done. Qed.

Lemma read_exact_app n a b : length a = n -> read_exact n (a ++ b) = Some (a, b).
Proof.
  intros <-. unfold read_exact. rewrite length_app.
  destruct (Nat.ltb_spec (length a + length b) (length a)); [lia|].
  by rewrite take_app_length, drop_app_length.
Qed.
Lemma read_exact_Some n s a b : read_exact n s = Some (a, b) -> s = a ++ b /\ length a = n.
Proof.
  unfold read_exact. destruct (Nat.ltb_spec (length s) n); [discriminate|].
  intros [= <- <-]. by rewrite take_drop, length_take_le.
Qed.

(** The length a client would have to announce for its frame to open like a
    WebSocket handshake. *)
Definition GET_LENGTH : Z := u32_le GET_.

Section framing.
Context (cfg : Config) (ib : Inbox) (pid : N) (dev : bool).
Context (accept : bytes -> option (bytes * list timed)).
Context (connect : NablaNode -> option bytes).
Context (writes : list bool) (chunks : list nat) (cancelled : nat).
Context (entropy : result io_error bytes).

Abbreviation conn :=
  (handle_conn cfg ib pid dev accept connect writes chunks cancelled entropy).

(** The raw leg accepts exactly the frames within the cap.  With a cap
    below the length spelled by the bytes of "GET ", every non-empty frame
    within the cap is delivered verbatim, whatever follows it on the socket;
    and whenever the first four bytes are not "GET ", the connection either
    leaves the whole state untouched and fails, or delivers exactly the
    announced bytes, of a length between one and the cap. *)
Theorem raw_frame_exact now clock t :
  (forall body extra,
   0 < Z.of_nat (length body) <= max_message_bytes cfg ->
   max_message_bytes cfg < GET_LENGTH ->
   conn (le32 (Z.of_nat (length body)) ++ body ++ extra) now clock t
   = inbox_deliver ib clock pid body t) /\
  (forall input,
   take 4 input <> GET_ ->
   (exists e, conn input now clock t = (Err e, t)) \/
   (exists body extra,
      input = take 4 input ++ body ++ extra /\
      Z.of_nat (length body) = u32_le (take 4 input) /\
      0 < Z.of_nat (length body) <= max_message_bytes cfg /\
      conn input now clock t = inbox_deliver ib clock pid body t)).
Proof.
  split.
  - intros body extra Hl Hcap. unfold handle_conn.
    rewrite read_exact_app by done.
    assert (u32_le (le32 (Z.of_nat (length body))) = Z.of_nat (length body)) as E.
    { apply u32_le_le32. change GET_LENGTH with 542393671 in Hcap. unfold U32_MAX. lia. }
    rewrite decide_False by (intros C; rewrite C in E; unfold GET_LENGTH in Hcap; lia).
    unfold tcp_intake_leg. rewrite E.
    destruct (Z.eqb_spec (Z.of_nat (length body)) 0); [lia|].
    destruct (Z.ltb_spec (max_message_bytes cfg) (Z.of_nat (length body))); [lia|].
    by rewrite read_exact_app by lia.
  - intros input Hg. unfold handle_conn.
    destruct (read_exact 4 input) as [[h r]|] eqn:E; [|left; by eexists].
    apply read_exact_Some in E as [-> Hh]. rewrite <- Hh, take_app_length in *.
    rewrite decide_False by done. unfold tcp_intake_leg.
    destruct (Z.eqb_spec (u32_le h) 0); [left; by eexists|].
    destruct (Z.ltb_spec (max_message_bytes cfg) (u32_le h)); [left; by eexists|].
    destruct (read_exact _ r) as [[b x]|] eqn:E; [|left; by eexists].
    apply read_exact_Some in E as [-> Hb]. right. exists b, x.
    assert (0 <= u32_le h); [|repeat split; auto; lia].
    clear. unfold u32_le. induction h; simpl; lia.
Qed.

(** A request for a node outside the configured set never reaches a
    socket: the leg fails before connecting and leaves the state untouched,
    for the attested Nabla set and for the dev set alike. *)
Theorem tunnel_index_confined idx evs t :
  0 <= idx ->
  (Z.of_nat (length (nabla cfg)) <= idx ->
   nabla_leg cfg connect writes chunks cancelled idx evs t = (Err (NablaOutside idx), t)) /\
  (Z.of_nat (length (fatmama cfg)) <= idx ->
   fatmama_leg cfg connect writes chunks cancelled idx evs t = (Err (FatmamaOutside idx), t)) /\
  (forall e t', nabla_leg cfg connect writes chunks cancelled idx evs t = (e, t') ->
   t' <> t -> exists nd, In nd (nabla cfg) /\ connect nd <> None).
Proof.
  intros Hi. unfold nabla_leg, fatmama_leg. repeat split.
  - intros H. by rewrite lookup_ge_None_2 by lia.
  - intros H. by rewrite lookup_ge_None_2 by lia.
  - intros e t'. unfold tunnel_leg, throw.
    destruct (nabla cfg !! Z.to_nat idx) as [nd|] eqn:E; [|congruence].
    destruct (connect nd) eqn:C; [|congruence]. intros _ _. exists nd.
    split; [|by rewrite C]. apply list_elem_of_In. by eapply list_elem_of_lookup_2.
Qed.
End framing.

Lemma raw_frame_exact_witness :
  let cfg := {| listen := $"0.0.0.0:7400"; maildir_inbox := [$"inbox"]; nabla := [];
                custody_outbox := None; fatmama := []; intake_max_msgs_per_sec := 8;
                max_message_bytes := default_max_message_bytes |} in
  let t := {| box := ex_world; sent := []; sends := []; to_node := [] |} in
  handle_conn cfg ex_inbox 7 false (fun _ => None) (fun _ => None) [] [] 0 (Ok [])
    (le32 5 ++ $"hello" ++ $"!") 0 ex_now t
  = inbox_deliver ex_inbox ex_now 7 $"hello" t.
Proof.
  intros cfg t.
  apply (proj1 (raw_frame_exact cfg ex_inbox 7 false (fun _ => None) (fun _ => None) [] [] 0
                  (Ok []) 0 ex_now t) $"hello" $"!").
  - vm_compute. split; [done|discriminate].
  - vm_compute. reflexivity.
Defined.
Lemma tunnel_index_confined_witness :
  let cfg := {| listen := $"0.0.0.0:7400"; maildir_inbox := [$"inbox"];
                nabla := [{| name := $"n0"; addr := $"10.0.0.1:6000" |}];
                custody_outbox := None; fatmama := []; intake_max_msgs_per_sec := 8;
                max_message_bytes := default_max_message_bytes |} in
  let t := {| box := ex_world; sent := []; sends := []; to_node := [] |} in
  nabla_leg cfg (fun _ => Some $"pong") [] [] 0 1 [] t = (Err (NablaOutside 1), t).
Proof.
  intros cfg t.
  apply (proj1 (tunnel_index_confined cfg (fun _ => Some $"pong") [] [] 0 1 [] t ltac:(lia))).
  vm_compute. discriminate.
Defined.

(** ** The pushed-back prefix *)
Lemma poll_read_unread s room chunk :
  (poll_read s room chunk).1 ++ unread (poll_read s room chunk).2 = unread s.
Proof.
  unfold poll_read, unread. destruct (Nat.ltb_spec (pos s) (length (prefix_ s))) as [L|L]; simpl.
  - rewrite <- drop_drop, app_assoc. f_equal. apply take_drop.
  - by rewrite (drop_ge (prefix_ s)), !app_nil_l, take_drop by lia.
Qed.

(** The demux is transparent.  Through the stream that replays the four
    consumed bytes, the handshake parser reads exactly what the client sent:
    whatever buffer sizes it reads with and however the socket chops its data,
    the bytes read so far followed by the bytes still to be read are the
    prefix followed by the socket's data. *)
Theorem prefixed_stream_transparent prefix input rs :
  let '(got, s) := poll_reads (prefixed_new prefix input) rs in
  got ++ unread s = prefix ++ input.
Proof.
  assert (forall s, let '(got, s') := poll_reads s rs in got ++ unread s' = unread s) as H.
  { induction rs as [|[room chunk] rs IH]; intros s; cbn [poll_reads]; [done|].
    pose proof (poll_read_unread s room chunk) as E.
    destruct (poll_read s room chunk) as [b s1]. specialize (IH s1).
    destruct (poll_reads s1 rs) as [bs s2]. simpl in E. by rewrite <- app_assoc, IH. }
  apply (H (prefixed_new prefix input)).
Qed.

(** ** The tunnel relays verbatim *)
Definition payload (m : ws_event) : bytes := match m with Binary b => b | _ => [] end.
(** What precedes the client's close. *)
Fixpoint until_close (ms : list ws_event) : list ws_event :=
  match ms with
  | [] | (Close | RecvError) :: _ => []
  | m :: ms' => m :: until_close ms'
  end.

Lemma client_to_nabla_ok msgs :
  client_to_nabla msgs [] = (concat (map payload (until_close msgs)), true).
Proof.
  induction msgs as [|[] msgs IH]; simpl; try done. by rewrite IH.
Qed.
Lemma client_to_nabla_prefix msgs writes :
  exists rest, concat (map payload (until_close msgs)) = (client_to_nabla msgs writes).1 ++ rest.
Proof.
  revert writes. induction msgs as [|[b| | |] msgs IH]; intros writes; simpl; eauto.
  destruct (IH (tail writes)) as [r Hr]. rewrite Hr. clear IH Hr.
  destruct writes as [|[] writes]; simpl in *; [| |by eexists];
    destruct (client_to_nabla msgs _) as [o f]; exists r; simpl; by rewrite <- app_assoc.
Qed.
Lemma nabla_to_client_chunks fuel input chunks sends_ :
  Forall (fun m => m <> [] /\ (length m <= TUNNEL_BUF)%nat)
    (nabla_to_client fuel input chunks sends_) /\
  (exists rest, input = concat (nabla_to_client fuel input chunks sends_) ++ rest) /\
  ((length input < fuel)%nat -> sends_ = [] ->
     concat (nabla_to_client fuel input chunks sends_) = input).
Proof.
  revert input chunks sends_. induction fuel as [|fuel IH]; intros input chunks sends_.
  { simpl. repeat split; eauto. lia. }
  cbn [nabla_to_client]. set (n := Nat.min TUNNEL_BUF _).
  assert (1 <= n <= TUNNEL_BUF)%nat as Hn.
  { unfold n, TUNNEL_BUF. destruct chunks; lia. }
  case_decide as D.
  { repeat split; [done|by exists input|]. intros _ _.
    destruct input; [done|]. destruct n; [lia|discriminate]. }
  assert (forall sends', let r := take n input :: nabla_to_client fuel (drop n input) (tail chunks) sends' in
    Forall (fun m => m <> [] /\ (length m <= TUNNEL_BUF)%nat) r /\
    (exists rest, input = concat r ++ rest) /\
    ((length input < S fuel)%nat -> sends' = [] -> concat r = input)) as Hr.
  { intros sends'. destruct (IH (drop n input) (tail chunks) sends') as (H1 & [rest H2] & H3).
    simpl. repeat split.
    - constructor; [|done]. split; [done|]. rewrite length_take. lia.
    - exists rest. by rewrite <- app_assoc, <- H2, take_drop.
    - intros Hl Hs. rewrite H3, take_drop; try done. rewrite length_drop.
      assert (length input <> 0)%nat by (destruct input; [by destruct n|done]). lia. }
  destruct sends_ as [|[] sends_]; try apply Hr.
  - destruct (Hr sends_) as (? & ? & _). repeat split; try done.
  - repeat split; [done|by exists input|done].
Qed.

(** The Nabla tunnel is opaque.  Whatever is sent, in however many pieces
    the sockets move it: the node receives a prefix of the client's binary
    payloads up to its close, the client a prefix of the node's bytes in
    non-empty messages of at most 16 KiB; and when no write fails, all of
    both. *)
Theorem tunnel_verbatim msgs writes from_node chunks cancelled t :
  let t' := (pump msgs writes from_node chunks cancelled t).2 in
  exists out back,
    to_node t' = to_node t ++ out /\ sent t' = sent t ++ back /\ box t' = box t /\
    Forall (fun m => m <> [] /\ (length m <= TUNNEL_BUF)%nat) back /\
    (exists rest, concat (map payload (until_close msgs)) = out ++ rest) /\
    (exists rest, from_node = concat back ++ rest) /\
    (writes = [] -> sends t = [] ->
       (pump msgs writes from_node chunks cancelled t).1 = Ok tt /\
       out = concat (map payload (until_close msgs)) /\ concat back = from_node).
Proof.
  unfold pump. pose proof (client_to_nabla_prefix msgs writes) as Hc.
  pose proof (client_to_nabla_ok msgs) as Hok.
  pose proof (nabla_to_client_chunks (S (length from_node)) from_node chunks (sends t)) as Hn.
  destruct (client_to_nabla msgs writes) as [out fine] eqn:E.
  set (full := nabla_to_client _ _ _ _) in *. destruct Hn as (H1 & [rest H2] & H3).
  exists out, (if fine then full else take cancelled full).
  simpl. repeat split; try done.
  - destruct fine; [done|]. by apply Forall_take.
  - destruct fine; [by exists rest|].
    exists (concat (drop cancelled full) ++ rest).
    by rewrite app_assoc, <- concat_app, take_drop.
  - destruct fine; [done|]. subst writes. congruence.
  - subst writes. congruence.
  - subst writes. destruct fine; [|congruence]. apply H3; [lia|done].
Qed.
End Framing.
