(* ===== verification/TotSession.v ===== *)
(** * Sessions: the reply pump, the directory guard and the startup sweep *)
From S2P Require Import Prelude Utf8 Fs TotInbox TotConfig TotServer.
Import TotInbox TotConfig TotServer.

Module TotSession.

(** The outcome list of a machine whose system calls do not fail (writes may
    still be short). *)
Definition no_failure (o : outcome) : bool :=
  match o with Fails _ | Short O => false | _ => true end.
Definition healthy (w : world) : Prop := Forall (fun o => no_failure o = true) (oracle w).

(** ** Computations that keep a directory in place *)
Section keeps.
Context (d : path).
Definition has_dir (t : tot) : Prop := fs (disk t) !! d = Some Dir.
Definition tkeeps {A : Type} (m : TM A) : Prop :=
  forall t, has_dir t -> healthy (disk t) ->
  has_dir (m t).2 /\ healthy (disk (m t).2).

Lemma healthy_suffix u w w' : oracle w = u ++ oracle w' -> healthy w -> healthy w'.
Proof. unfold healthy. intros ->. by intros [_ ?]%Forall_app. Qed.

Lemma tkeeps_ret {A : Type} (a : A) : tkeeps (mret a).
Proof. by intros t. Qed.
Lemma tkeeps_throw {A : Type} e : tkeeps (throw (A := A) e).
Proof. by intros t. Qed.
Lemma tkeeps_lift {A : Type} (r : result tot_error A) : tkeeps (lift r).
Proof. by intros t. Qed.
Lemma tkeeps_bind {A B : Type} (m : TM A) (f : A -> TM B) :
  tkeeps m -> (forall a, tkeeps (f a)) -> tkeeps (m ≫= f).
Proof.
  intros Hm Hf t H Hh. unfold mbind, M_bind. destruct (Hm t H Hh) as [H1 H2].
  destruct (m t) as [[a|e] t']; [by apply Hf|done].
Qed.
Lemma tkeeps_attempt {A : Type} (m : TM A) : tkeeps m -> tkeeps (attempt (F := tot_error) m).
Proof.
  intros Hm t H Hh. unfold attempt. specialize (Hm t H Hh). by destruct (m t).
Qed.
Lemma tkeeps_send b : tkeeps (send b).
Proof. intros t H Hh. unfold send. by destruct (sends t) as [|[] ?]. Qed.
Lemma tkeeps_on_disk {A : Type} f (m : io A) :
  triple (fun s => s !! d = Some Dir) (fun s => s !! d = Some Dir) m
  (fun _ s => s !! d = Some Dir) ->
  tkeeps (on_disk f m).
Proof.
  intros Hm t H Hh. destruct (Hm (disk t) H) as [(n & u & _ & E & _) H'].
  unfold on_disk, with_err, zoom. destruct (m (disk t)) as [r w'].
  split; [done|]. by apply (healthy_suffix u (disk t)).
Qed.
Lemma tkeeps_deliver ib now pid b : tkeeps (inbox_deliver ib now pid b).
Proof.
  intros t H Hh. unfold inbox_deliver, with_err, zoom. rewrite deliver_run.
  set (nm := name_of _ _ _).
  assert (triple (fun s => s !! d = Some Dir) (fun s => s !! d = Some Dir)
            (deliver_as ib nm b) (fun _ s => s !! d = Some Dir)) as Ht.
  { unfold deliver_as, write_all, sync_all. apply keeps_bind; [auto with carriers|intros _].
    apply keeps_bind; [auto with carriers|intros _].
    apply keeps_bind; [auto with carriers|intros _].
    apply keeps_bind; [auto with carriers|intros [[]|e]].
    - by apply triple_sync_dir.
    - apply keeps_bind; [auto with carriers|intros _]. by apply triple_throw. }
  destruct (Ht (files (box t)) H) as [(n & u & _ & E & _) H'].
  split; [done|]. by apply (healthy_suffix u (disk t)).
Qed.
Lemma tkeeps_mapM {A : Type} (f : A -> TM unit) l : (forall x, tkeeps (f x)) -> tkeeps (mapM_ f l).
Proof.
  intros Hf. induction l as [|x l IH]; simpl; [apply tkeeps_ret|].
  by apply tkeeps_bind.
Qed.
Lemma tkeeps_others f :
  (forall s : store, s !! d = Some Dir -> f s !! d = Some Dir) -> tkeeps (others f).
Proof. intros Hf t H Hh. split; [by apply Hf|done]. Qed.
Lemma tkeeps_pump dir : tkeeps (pump_replies dir).
Proof.
  apply tkeeps_bind; [apply tkeeps_on_disk, keeps_read_dir|]. intros names.
  apply tkeeps_mapM. intros n. unfold pump_one.
  apply tkeeps_bind; [apply tkeeps_on_disk, keeps_read_file|]. intros b.
  apply tkeeps_bind; [apply tkeeps_send|]. intros _.
  apply tkeeps_bind; [apply tkeeps_attempt, tkeeps_on_disk, keeps_remove_file|].
  intros _. apply tkeeps_ret.
Qed.

(** Other processes leave the directory in place. *)
Definition respectful (e : timed) : Prop :=
  match event e with
  | Others f => forall s : store, s !! d = Some Dir -> f s !! d = Some Dir
  | _ => True
  end.
Lemma tkeeps_session_loop cfg ib pid id dir limiter evs :
  Forall respectful evs -> tkeeps (session_loop cfg ib pid id dir limiter evs).
Proof.
  intros Hev. revert limiter. induction Hev as [|e evs He Hev IH]; intros limiter;
    cbn [session_loop]; [apply tkeeps_ret|]. unfold respectful in He.
  destruct (event e) as [[b| | |]| |f].
  - destruct (_ <? _); [apply tkeeps_throw|]. destruct (allow _ _) as [[] l']; simpl;
      [|apply tkeeps_throw].
    apply tkeeps_bind; [apply tkeeps_lift|intros s].
    apply tkeeps_bind; [apply tkeeps_deliver|intros _; apply IH].
  - apply tkeeps_ret.
  - apply IH.
  - apply tkeeps_throw.
  - apply tkeeps_bind; [apply tkeeps_pump|intros _; apply IH].
  - apply tkeeps_bind; [by apply tkeeps_others|intros _; apply IH].
Qed.
End keeps.

(** ** The session id is a plain name *)
Lemma hex_digit_code n : (n < 16)%N -> (48 <= code (hex_digit n))%N.
Proof.
  intros H. unfold hex_digit. destruct (N.ltb_spec n 10); rewrite code_ch by lia; lia.
Qed.
Lemma hex_encode_codes b c : c ∈ hex_encode b -> (48 <= code c)%N.
Proof.
  rewrite list_elem_of_In. unfold hex_encode. rewrite in_flat_map.
  intros (x & _ & [<-|[<-|[]]]); apply hex_digit_code; pose proof (code_bound x).
  - apply N.Div0.div_lt_upper_bound. lia.
  - by apply N.mod_lt.
Qed.
Lemma hex_encode_plain b : b <> [] -> plain_name (hex_encode b) = true.
Proof.
  intros Hb. unfold plain_name. apply bool_decide_eq_true.
  assert (forall c, (code c < 48)%N -> c ∉ hex_encode b) as Hc.
  { intros c H E. apply hex_encode_codes in E. lia. }
  repeat split.
  - by apply Hc.
  - destruct b; [done|discriminate].
  - intros E. apply (Hc "."%char); [done|]. rewrite E. set_solver.
  - intros E. apply (Hc "."%char); [done|]. rewrite E. set_solver.
Qed.

Lemma session_drop_removes d t :
  has_dir d t -> healthy (disk t) ->
  forall q, d `prefix_of` q -> fs (disk (session_drop d t).2) !! q = None.
Proof.
  intros H Hh q Hq. unfold session_drop, on_disk, with_err, zoom, attempt, mbind, M_bind.
  unfold remove_dir_all, syscall, next_outcome, mbind, M_bind, gets, throw, mret, M_ret.
  unfold has_dir, healthy in *.
  destruct (oracle (disk t)) as [|[|[|n]|e] os] eqn:E; simpl;
    try (by inversion Hh); rewrite H; simpl;
    by apply map_lookup_filter_None; right; intros ? _ N; apply N.
Qed.

Section cleanup.
Context (cfg : Config) (ib : Inbox) (pid : N) (outbox : path) (b : bytes).

(** C15: no session outlives its connection on disk.  However a session ends
    (close, receive error, oversized or over-rate message, an envelope that
    cannot be stamped, a failing delivery, read or send), once [session_leg]
    returns nothing is left at or below the session's reply directory; the
    only exception is a session refused because that directory could not be
    created.  (The machine's own calls do not fail, other processes do not
    remove or replace the directory while the session runs.) *)
Theorem session_leg_cleans_up now evs t :
  custody_outbox cfg = Some outbox -> length b = 32%nat -> healthy (disk t) ->
  Forall (respectful (outbox ++ [hex_encode b])) evs ->
  let '(r, t') := session_leg cfg ib pid (Ok b) now evs t in
  (exists e, r = Err (SessionDirCreate e)) \/
  (forall q, outbox ++ [hex_encode b] `prefix_of` q -> fs (disk t') !! q = None).
Proof.
  intros Ho Hlen Hh Hev. set (d := outbox ++ [hex_encode b]) in *.
  assert (join outbox (hex_encode b) = d) as Hj.
  { apply join_plain, hex_encode_plain. by destruct b. }
  unfold session_leg. rewrite Ho. unfold mbind, M_bind, lift. simpl.
  unfold session_create. rewrite Hj.
  assert (triple (fun _ => True) (fun _ => True) (create_dir_all d)
            (fun r s => r = Ok tt -> s !! d = Some Dir)) as Hc.
  { apply mkdirs_make; [by destruct outbox|apply prefixes_in; by destruct outbox]. }
  destruct (Hc (disk t) I) as [(n & u & _ & Eo & _) Hd].
  unfold on_disk, with_err, zoom, mbind, M_bind, attempt.
  destruct (create_dir_all d (disk t)) as [[[]|e] w1]; simpl in *; [|left; by eexists].
  set (t1 := set_disk w1 t).
  pose proof (tkeeps_session_loop d cfg ib pid (hex_encode b) d
    (limiter_new (intake_max_msgs_per_sec cfg) now) evs Hev t1 (Hd eq_refl)
    (healthy_suffix u (disk t) w1 Eo Hh)) as [Hd2 Hh2].
  unfold mret, M_ret. cbv beta iota.
  destruct (session_loop _ _ _ _ _ _ _ t1) as [r t2]. simpl in Hd2, Hh2.
  pose proof (session_drop_removes d t2 Hd2 Hh2) as Hq.
  unfold session_drop, attempt, mbind, M_bind in *.
  destruct (on_disk _ _ t2) as [r3 t3]. simpl in *. right. exact Hq.
Qed.
End cleanup.

Lemma session_leg_cleans_up_witness :
  let cfg := {| listen := $"0.0.0.0:7400"; maildir_inbox := [$"inbox"]; nabla := [];
                custody_outbox := Some [$"out"]; fatmama := []; intake_max_msgs_per_sec := 1;
                max_message_bytes := default_max_message_bytes |} in
  let t := {| box := ex_world; sent := []; sends := []; to_node := [] |} in
  let mail := {| instant := 5; wall := ex_now;
                 event := Incoming (Binary ($"From: a@b" ++ crlf ++ crlf ++ $"x")) |} in
  let tick := {| instant := 6; wall := ex_now; event := Tick |} in
  let '(r, t') := session_leg cfg ex_inbox 7 (Ok (repeat (ch 171) 32)) 0
                    [tick; mail; tick; mail] t in
  (exists e, r = Err (SessionDirCreate e)) \/
  (forall q, [$"out"] ++ [hex_encode (repeat (ch 171) 32)] `prefix_of` q ->
     fs (disk t') !! q = None).
Proof.
  intros cfg t mail tick.
  apply (session_leg_cleans_up cfg ex_inbox 7 [$"out"] (repeat (ch 171) 32)).
  - reflexivity.
  - reflexivity.
  - repeat constructor.
  - repeat constructor.
Defined.

(** ** The reply pump *)
Lemma pump_one_cases dir n t :
  let '(r, t') := pump_one dir n t in
  (r <> Ok tt /\ sent t' = sent t /\ fs (disk t') = fs (disk t)) \/
  (r = Ok tt /\ exists b,
     fs (disk t) !! (dir ++ [n]) = Some (File b) /\ sent t' = sent t ++ [b] /\
     (fs (disk t') = fs (disk t) \/ fs (disk t') = delete (dir ++ [n]) (fs (disk t)))).
Proof.
  unfold pump_one, on_disk, with_err, zoom, attempt, mbind, M_bind, mret, M_ret.
  destruct (read_file_cases (dir ++ [n]) (disk t)) as [Hr Hb].
  destruct (read_file (dir ++ [n]) (disk t)) as [[b|e] w1]; simpl in *; [|left; by split].
  specialize (Hb b eq_refl). unfold send. simpl.
  assert (forall t', disk t' = w1 -> sent t' = sent t ++ [b] ->
    (exists b0, fs (disk t) !! (dir ++ [n]) = Some (File b0) /\
       sent (set_disk (remove_file (dir ++ [n]) (disk t')).2 t') = sent t ++ [b0] /\
       (fs (remove_file (dir ++ [n]) (disk t')).2 = fs (disk t) \/
        fs (remove_file (dir ++ [n]) (disk t')).2 = delete (dir ++ [n]) (fs (disk t))))) as Hrem.
  { intros t' E1 E2. exists b. rewrite E1, <- Hr. repeat split; auto.
    - by rewrite Hr.
    - apply remove_file_cases. }
  destruct (sends t) as [|[] snds]; simpl;
    [|  |left; by split];
    match goal with |- context [remove_file _ (disk ?t')] =>
      specialize (Hrem t' eq_refl eq_refl) end;
    destruct (remove_file _ _) as [r w2]; right; split; [done|exact Hrem|done|exact Hrem].
Qed.

Lemma Forall2_weaken {A B : Type} (P Q : A -> B -> Prop) l k :
  Forall2 P l k -> (forall x y, x ∈ l -> P x y -> Q x y) -> Forall2 Q l k.
Proof.
  induction 1 as [|x y l k Hxy H IH]; intros HPQ; constructor.
  - apply HPQ; [set_solver|done].
  - apply IH. intros. apply HPQ; [set_solver|done].
Qed.
Definition at_dir (dir : path) (n : bytes) : path := dir ++ [n].
Lemma at_dir_inj dir n m : at_dir dir n = at_dir dir m -> n = m.
Proof. unfold at_dir. intros E%app_inv_head. congruence. Qed.
Lemma pump_all dir ns t :
  NoDup ns ->
  let '(r, t') := mapM_ (pump_one dir) ns t in
  exists dn rest bs,
    ns = dn ++ rest /\ sent t' = sent t ++ bs /\
    Forall2 (fun n b => fs (disk t) !! at_dir dir n = Some (File b)) dn bs /\
    (forall q, q ∉ map (at_dir dir) dn -> fs (disk t') !! q = fs (disk t) !! q) /\
    (r = Ok tt -> rest = []).
Proof.
  intros Hnd. revert t. induction Hnd as [|n ns Hn Hnd IH]; intros t; cbn [mapM_].
  { exists [], [], []. simpl. rewrite app_nil_r. auto. }
  pose proof (pump_one_cases dir n t) as Hc. unfold mbind, M_bind.
  destruct (pump_one dir n t) as [r t1]. destruct Hc as [(Hr & Hs & Hf)|(-> & b & Hb & Hs & Hf)].
  - destruct r as [[]|e]; [done|]. exists [], (n :: ns), []. rewrite Hs, Hf, app_nil_r.
    repeat split; auto. discriminate.
  - specialize (IH t1). destruct (mapM_ (pump_one dir) ns t1) as [r t2].
    destruct IH as (dn & rest & bs & -> & Hs2 & H2 & Hq & Hr).
    assert (forall q, q <> at_dir dir n -> fs (disk t1) !! q = fs (disk t) !! q) as Ht.
    { intros q Nq. destruct Hf as [->| ->]; [done|by rewrite lookup_delete_ne by (intros <-; by apply Nq)]. }
    exists (n :: dn), rest, (b :: bs). rewrite Hs2, Hs, <- app_assoc.
    split; [done|]. split; [done|]. split; [|split; [|done]].
    + constructor; [done|]. eapply Forall2_weaken; [exact H2|].
      intros n' b' Hn' E. rewrite <- Ht; [done|]. intros ->%at_dir_inj. set_solver.
    + intros q Nq. cbn [map] in Nq. rewrite Hq, Ht; [done|set_solver..].
Qed.

Lemma reply_names_NoDup names : NoDup names -> NoDup (reply_names names).
Proof.
  intros H. unfold reply_names, sort_names. rewrite merge_sort_Permutation.
  by apply NoDup_filter.
Qed.
Lemma elem_of_reply_names n names : n ∈ reply_names names <-> is_reply n = true /\ n ∈ names.
Proof.
  unfold reply_names, sort_names. by rewrite merge_sort_Permutation, list_elem_of_filter.
Qed.

(** What a run of the pump may do, given its result. *)
Definition pumped (dir : path) (t : tot) (rt : result tot_error unit * tot) : Prop :=
  let '(r, t') := rt in
  exists dn rest bs,
    reply_names (children (fs (disk t)) dir) = dn ++ rest /\
    StronglySorted bytes_le (dn ++ rest) /\
    (forall n, n ∈ dn ++ rest <->
       is_reply n = true /\ is_Some (fs (disk t) !! at_dir dir n)) /\
    sent t' = sent t ++ bs /\
    Forall2 (fun n b => fs (disk t) !! at_dir dir n = Some (File b)) dn bs /\
    (forall q, q ∉ map (at_dir dir) dn -> fs (disk t') !! q = fs (disk t) !! q) /\
    (r = Ok tt -> rest = []).

(** C35: the pump sends each reply once, whole and in name order, and deletes
    only what it sent.  For a session directory in any state, with any listing
    order and any failing call or send: the sorted replies split into those
    dealt with and the rest; what went out on the socket is exactly the content
    of the former, in order; every other file is untouched, so no reply is lost
    unsent; and success means none is left out. *)
Theorem pump_replies_in_order dir t :
  is_dir (fs (disk t)) dir = true -> (forall l, listing (disk t) l ≡ₚ l) ->
  pumped dir t (pump_replies dir t).
Proof.
  intros Hd Hl. unfold pumped. set (all := reply_names (children (fs (disk t)) dir)).
  assert (StronglySorted bytes_le all) as Hsort by (apply StronglySorted_merge_sort; apply _).
  assert (forall n, n ∈ all <-> is_reply n = true /\ is_Some (fs (disk t) !! at_dir dir n)) as Hin.
  { intros n. unfold all. by rewrite elem_of_reply_names, elem_of_children. }
  unfold pump_replies, on_disk, with_err, zoom, mbind, M_bind.
  destruct (read_dir_cases dir (disk t)) as [Hf Hns].
  destruct (read_dir dir (disk t)) as [[ns|e] w1]; simpl in *.
  - rewrite (Hns ns eq_refl). clear ns Hns.
    assert (reply_names (listing (disk t) (children (fs (disk t)) dir)) = all) as ->.
    { apply sort_names_perm. by rewrite Hl. }
    pose proof (pump_all dir all (set_disk w1 t)
      (reply_names_NoDup _ (children_NoDup _ _))) as H.
    destruct (mapM_ _ _ _) as [r t']. destruct H as (dn & rest & bs & E & Hs & H2 & Hq & Hr).
    change (fs (disk (set_disk w1 t))) with (fs w1) in H2, Hq. rewrite Hf in H2, Hq.
    exists dn, rest, bs. rewrite <- E. auto 10.
  - exists [], all, []. rewrite app_nil_r.
    split; [done|]. split; [done|]. split; [exact Hin|]. split; [done|].
    split; [constructor|]. split; [|discriminate].
    intros q _. exact (f_equal (lookup q) Hf).
Qed.
Lemma pump_replies_in_order_witness :
  let d := [$"out"; $"s1"] in
  let s : store := {[ [$"out"] := Dir; d := Dir; d ++ [$"b.cbor"] := File $"two";
                      d ++ [$"a.cbor"] := File $"one"; d ++ [$"tmp"] := Dir;
                      d ++ [$"note.txt"] := File $"x" ]} in
  let t := {| box := {| files := {| fs := s; oracle := []; hist := []; listing := @rev _ |};
                        SEQ := 0 |}; sent := []; sends := [true; false]; to_node := [] |} in
  sent (pump_replies d t).2 = [$"one"] /\ pumped d t (pump_replies d t).
Proof.
  intros d s t. split; [vm_compute; reflexivity|].
  apply (pump_replies_in_order d t).
  - vm_compute. reflexivity.
  - intros l. apply Permutation_sym, Permutation_rev.
Defined.

(** ** The startup sweep *)
Definition stale (outbox : path) (s : store) (x : bytes) : Prop :=
  s !! (outbox ++ [x]) = Some Dir.
#[export] Instance stale_dec outbox s x : Decision (stale outbox s x).
Proof. unfold stale. apply _. Defined.

Lemma sweep_entry_spec outbox n x w m w' :
  sweep_entry outbox n x w = (Ok m, w') ->
  if decide (stale outbox (fs w) x)
  then m = n + 1 /\ fs w' = filter (fun kv => ~ (outbox ++ [x] `prefix_of` kv.1)) (fs w)
  else m = n /\ fs w' = fs w.
Proof.
  unfold sweep_entry, mbind, M_bind, gets, mret, M_ret.
  destruct (syscall_cases w) as (w1 & Hf & _ & [->|[e ->]]); [|discriminate].
  unfold is_dir, stale. rewrite Hf. case_bool_decide as D.
  - destruct D as [D|D]; [by destruct outbox|]. rewrite decide_True by done.
    unfold remove_dir_all, mbind, M_bind, gets, put_fs, modify, throw.
    destruct (syscall_cases w1) as (w2 & Hf2 & _ & [->|[e ->]]); [|discriminate].
    rewrite Hf2, Hf, D. by intros [= <- <-].
  - rewrite decide_False by tauto. by intros [= <- <-].
Qed.

Lemma prefix_snoc_ne (ob : path) x y q :
  ob ++ [x] `prefix_of` q -> ob ++ [y] `prefix_of` q -> x = y.
Proof.
  intros [r1 ->] [r2 E]. rewrite <- !app_assoc in E. apply app_inv_head in E. by simplify_eq/=.
Qed.
Lemma lookup_swept ob x y (s : store) q :
  ob ++ [y] `prefix_of` q ->
  filter (fun kv => ~ (ob ++ [x] `prefix_of` kv.1)) s !! q
  = if decide (x = y) then None else s !! q.
Proof.
  intros Hy. case_decide as D.
  - subst. apply map_lookup_filter_None. right. intros v _ N. by apply N.
  - destruct (s !! q) as [v|] eqn:E.
    + apply map_lookup_filter_Some. split; [done|]. intros Hx. apply D.
      by eapply prefix_snoc_ne.
    + apply map_lookup_filter_None. by left.
Qed.

Lemma sweep_entries_spec outbox names n w m w' :
  NoDup names -> sweep_entries outbox n names w = (Ok m, w') ->
  (forall x q, outbox ++ [x] `prefix_of` q ->
     fs w' !! q = if decide (x ∈ names /\ stale outbox (fs w) x) then None else fs w !! q) /\
  m = n + Z.of_nat (length (filter (stale outbox (fs w)) names)).
Proof.
  intros Hnd. revert n w. induction Hnd as [|y names Hy Hnd IH]; intros n w;
    cbn [sweep_entries].
  - intros [= <- <-]. split; [|simpl; lia]. intros x q _.
    rewrite decide_False; [done|]. intros [H _]. by apply not_elem_of_nil in H.
  - unfold mbind, M_bind. destruct (sweep_entry outbox n y w) as [[n1|e] w1] eqn:E;
      [|discriminate]. intros H. apply IH in H as [Hq ->]. apply sweep_entry_spec in E.
    assert (forall x, x <> y -> stale outbox (fs w1) x <-> stale outbox (fs w) x) as Hst.
    { intros x N. unfold stale. case_decide; destruct E as [_ ->]; [|done].
      rewrite (lookup_swept outbox y x) by done. by rewrite decide_False. }
    assert (filter (stale outbox (fs w1)) names = filter (stale outbox (fs w)) names) as Hfl.
    { apply filter_ext_in. intros x Hx. apply Hst. set_solver. }
    split.
    + intros x q Hx. rewrite (Hq x q Hx). destruct (decide (x = y)) as [->|N].
      * rewrite decide_False by tauto. case_decide as D; destruct E as [_ ->].
        -- rewrite (lookup_swept outbox y y _ q), decide_True by done.
           rewrite decide_True; [done|set_solver].
        -- rewrite decide_False; [done|tauto].
      * assert (fs w1 !! q = fs w !! q) as ->.
        { case_decide; destruct E as [_ ->]; [|done].
          by rewrite (lookup_swept outbox y x _ q), decide_False. }
        apply decide_ext. rewrite (Hst x N). set_solver.
    + rewrite Hfl. destruct (decide (stale outbox (fs w) y)) as [D|D].
      * destruct E as [-> _]. rewrite filter_cons_True by done. simpl. lia.
      * destruct E as [-> _]. rewrite filter_cons_False by done. lia.
Qed.

(** The startup sweep removes exactly the stale sessions.  When it reports
    [n], every directory that stood directly in the outbox is gone with all
    below it, [n] of them; and a plain file in the outbox, which may be the
    operator's, is untouched. *)
Theorem sweep_removes_sessions_only outbox w n w' :
  (forall l, listing w l ≡ₚ l) ->
  sweep_stale_sessions outbox w = (Ok n, w') ->
  (forall x q, outbox ++ [x] `prefix_of` q ->
     fs w' !! q = if decide (stale outbox (fs w) x) then None else fs w !! q) /\
  n = Z.of_nat (length (filter (stale outbox (fs w)) (children (fs w) outbox))).
Proof.
  intros Hl. unfold sweep_stale_sessions, mbind, M_bind.
  assert (forall q x, outbox ++ [x] `prefix_of` q ->
            fs (create_dir_all outbox w).2 !! q = fs w !! q) as Hfr.
  { intros q x [r ->]. apply mkdirs_frame. intros y Hy ->. apply prefixes_length in Hy.
    rewrite !length_app in Hy. simpl in Hy. lia. }
  pose proof (mkdirs_listing outbox (prefixes_from [] outbox) w) as Hl1.
  fold (create_dir_all outbox) in Hl1.
  destruct (create_dir_all outbox w) as [[[]|e] w1]; [|discriminate]. simpl in *.
  destruct (read_dir_cases outbox w1) as [Hf Hns].
  destruct (read_dir outbox w1) as [[ns|e] w2]; [|discriminate]. simpl in *.
  specialize (Hns ns eq_refl). intros H.
  assert (ns ≡ₚ children (fs w1) outbox) as Hp by (rewrite Hns, Hl1; apply Hl).
  assert (NoDup ns) as Hnd by (rewrite Hp; apply children_NoDup).
  apply sweep_entries_spec in H as [Hq ->]; [|done]. rewrite Hf in *.
  assert (forall x, stale outbox (fs w1) x <-> stale outbox (fs w) x) as Hst.
  { intros x. unfold stale. by rewrite (Hfr (outbox ++ [x]) x). }
  assert (forall x, x ∈ children (fs w1) outbox <-> x ∈ children (fs w) outbox) as Hch.
  { intros x. rewrite !elem_of_children. by rewrite (Hfr (outbox ++ [x]) x). }
  split.
  - intros x q Hx. rewrite (Hq x q Hx), (Hfr q x Hx).
    apply decide_ext. rewrite Hst, Hp, elem_of_children. unfold stale.
    rewrite (Hfr (outbox ++ [x]) x) by done. split; [by intros [_ ?]|]. intros ->. eauto.
  - rewrite Z.add_0_l. f_equal. apply Permutation_length. rewrite Hp.
    rewrite (list_filter_iff _ _ _ Hst). apply filter_Permutation.
    apply NoDup_Permutation; auto using children_NoDup.
Qed.
Lemma sweep_removes_sessions_only_witness :
  let s : store := {[ [$"out"] := Dir; [$"out"; $"ab"] := Dir;
                      [$"out"; $"ab"; $"r.cbor"] := File $"late"; [$"out"; $"README"] := File $"x" ]} in
  let w := {| fs := s; oracle := []; hist := []; listing := fun l => l |} in
  fs (sweep_stale_sessions [$"out"] w).2 !! [$"out"; $"ab"; $"r.cbor"] = None /\ 1 = 1.
Proof.
  intros s w.
  assert (sweep_stale_sessions [$"out"] w = (Ok 1, (sweep_stale_sessions [$"out"] w).2)) as E
    by (vm_compute; reflexivity).
  destruct (sweep_removes_sessions_only [$"out"] w 1 _ (fun l => reflexivity l) E) as [Hq Hn].
  split; [|reflexivity].
  rewrite (Hq $"ab" [$"out"; $"ab"; $"r.cbor"]); [vm_compute; reflexivity|].
  by exists [$"r.cbor"].
Defined.
End TotSession.
