(* ===== verification/TotRun.v ===== *)
(** * TOT's start: [Config::load] of [tot/src/config.rs], [run] and [serve] of
    [tot/src/main.rs]

    The disk is the world.  What the operating system answers to the rest of
    the start (the address bound, the seccomp filter installed, the runtime
    built) is a parameter each: it touches no file. *)
From S2P Require Import Prelude Utf8 Fs TotInbox TotConfig TotServer TotSession.
Import TotInbox TotConfig TotServer TotSession.

Module TotRun.
Inductive startup_error : Type :=
  | Usage | ReadConfig (e : io_error) | ParseConfig (e : bytes) | InvalidConfig (e : config_error)
  | OpenInbox (e : io_error) | BindListener (e : bytes) | SetNonblocking (e : bytes)
  | OutboxUnusable (e : io_error) | Sandbox (e : bytes) | BuildRuntime (e : bytes)
  | AdoptListener (e : bytes).
Abbreviation SM := (M world startup_error).

Definition read_to_string (p : path) : io bytes :=
  b ← read_file p;
  if is_utf8 b then mret b else throw (IoErr InvalidData $"stream did not contain valid UTF-8").

(** ** The accept loop *)
(** All that [handle_conn] asks of the peer, the nodes, the kernel and the clock. *)
Record peer : Type := Peer {
  handshake : bytes -> option (bytes * list timed);
  answers : NablaNode -> option bytes;
  writes_to : list bool; reads_of : list nat; cancelled_at : nat;
  entropy_of : result io_error bytes;
  input : bytes; accepted_at : Z; wall_at : wall_clock }.
Section serve.
Context (adopt : result bytes unit) (cfg : Config) (inbox : Inbox) (pid : N) (dev_fatmama : bool).
Definition conn_task (p : peer) : TM unit :=
  handle_conn cfg inbox pid dev_fatmama (handshake p) (answers p) (writes_to p) (reads_of p) (cancelled_at p)
    (entropy_of p) (input p) (accepted_at p) (wall_at p).
(** The tasks spawned by as many turns of the loop as there are [accepts]: an
    [accept] that fails is passed over. *)
Definition serve (accepts : list (result io_error peer)) : result startup_error (list (TM unit)) :=
  _ ← map_err AdoptListener adopt;
  mret (omap (fun a => match a with Ok p => Some (conn_task p) | Err _ => None end) accepts).
(** Every peer that was accepted has its task, whatever failed in between. *)
Lemma serve_every_peer accepts tasks p : serve accepts = Ok tasks -> Ok p ∈ accepts -> conn_task p ∈ tasks.
Proof.
  unfold serve. destruct adopt as [u|e]; [|done]. intros [= <-] H. apply list_elem_of_omap. by exists (Ok p).
Qed.
Lemma serve_passes_over a1 e a2 : serve (a1 ++ Err e :: a2) = serve (a1 ++ a2).
Proof. unfold serve. by rewrite !omap_app. Qed.
End serve.

Section run.
(** [toml::from_str] of the file, with the text of its error. *)
Context (toml_config : bytes -> result bytes Config).
Definition load (p : path) : SM Config :=
  text ← with_err ReadConfig (read_to_string p);
  cfg ← lift (map_err ParseConfig (toml_config text));
  _ ← lift (map_err InvalidConfig (validate cfg));
  mret cfg.

(** [args]: the command line after the program's name. *)
Context (bind set_nonblocking sandbox_install build_runtime : result bytes unit).
Definition run (args : list bytes) : SM (Config * Inbox) :=
  cfg_path ← lift (match args with [] => Err Usage | p :: _ => Ok p end);
  cfg ← load (parse_path cfg_path);
  inbox ← with_err OpenInbox (open (maildir_inbox cfg));
  _ ← lift (map_err BindListener bind);
  _ ← lift (map_err SetNonblocking set_nonblocking);
  _ ← match custody_outbox cfg with
      | Some outbox => _ ← with_err OutboxUnusable (sweep_stale_sessions outbox); mret tt
      | None => mret tt
      end;
  _ ← lift (map_err Sandbox sandbox_install);
  _ ← lift (map_err BuildRuntime build_runtime);
  mret (cfg, inbox).

(** ** What stands after a start *)
(** [open]: the directories are there, with all above them. *)
Lemma opened p ib w w' : open p w = (Ok ib, w') ->
  ib = {| tmp := p ++ [$"tmp"]; new := p ++ [$"new"] |} /\ listing w' = listing w /\
  (forall d, d <> [] -> d `prefix_of` tmp ib \/ d `prefix_of` new ib -> fs w' !! d = Some Dir).
Proof.
  unfold open. cbn [mapM_]. unfold mbind, M_bind. rewrite !join_plain by done.
  destruct (create_dir_all (p ++ [$"tmp"]) w) as [[[]|e] w1] eqn:E1; [|done].
  destruct (create_dir_all (p ++ [$"new"]) w1) as [[[]|e] w2] eqn:E2; [|done].
  destruct (create_dir_all (p ++ [$"cur"]) w2) as [[[]|e] w3] eqn:E3; [|done].
  intros [= <- <-]. split; [done|]. split.
  - apply mkdirs_same_listing in E1, E2, E3. congruence.
  - intros d N [H | H]; eapply dir_kept; [done| |done|].
    + eapply dir_kept; [done|]. by eapply mkdirs_made.
    + by eapply mkdirs_made.
Qed.
(** What the sweep spares: whatever is not below a directory of the outbox. *)
Lemma swept_entries_spare outbox d names : forall n w m w',
  (forall x, ~ outbox ++ [x] `prefix_of` d) ->
  sweep_entries outbox n names w = (Ok m, w') -> fs w !! d = Some Dir -> fs w' !! d = Some Dir.
Proof.
  induction names as [|y names IH]; intros n w m w' Hd; cbn [sweep_entries]; [by intros [= _ <-]|].
  unfold mbind, M_bind. destruct (sweep_entry outbox n y w) as [[n1|e] w1] eqn:E; [|done].
  intros H Hw. apply (IH _ _ _ _ Hd H). apply sweep_entry_spec in E. case_decide; destruct E as [_ ->]; [|done].
  apply map_lookup_filter_Some. split; [done|]. apply Hd.
Qed.
Lemma sweep_spares outbox d w n w' : (forall x, ~ outbox ++ [x] `prefix_of` d) ->
  sweep_stale_sessions outbox w = (Ok n, w') -> fs w !! d = Some Dir -> fs w' !! d = Some Dir.
Proof.
  intros Hd. unfold sweep_stale_sessions, mbind, M_bind. intros H Hw.
  destruct (create_dir_all outbox w) as [[[]|e] w1] eqn:E; [|discriminate].
  pose proof (dir_kept _ d _ _ _ E Hw) as H1.
  destruct (read_dir_cases outbox w1) as [Hf _].
  destruct (read_dir outbox w1) as [[ns|e] w2]; [|discriminate]. cbn [snd] in Hf.
  eapply swept_entries_spare; [exact Hd|exact H|by rewrite Hf].
Qed.

Lemma read_listing p w : listing (read_to_string p w).2 = listing w.
Proof.
  unfold read_to_string, read_file, mbind, M_bind, gets, mret, M_ret, throw.
  destruct (syscall_cases w) as (w' & _ & Hl & [->|[e ->]]); [|done].
  destruct (fs w' !! p) as [[|c]|]; cbn; [done| |done]. by destruct (is_utf8 c).
Qed.
Lemma loaded p cfg w w' : load p w = (Ok cfg, w') ->
  validate cfg = Ok tt /\ listing w' = listing w.
Proof.
  unfold load, mbind, M_bind, with_err, lift, mret, M_ret. pose proof (read_listing p w) as Hl.
  destruct (read_to_string p w) as [[text|e] w1]; [|discriminate]. cbn. 
  destruct (toml_config text) as [c|e]; [|discriminate]. cbn. destruct (validate c) as [[]|e] eqn:V; [|discriminate].
  by intros [= <- <-].
Qed.
(** A prefix and the component after it. *)
Lemma prefix_next (o p : path) : o `prefix_of` p -> forall n, exists x, o ++ [x] `prefix_of` p ++ [n].
Proof.
  intros [r ->] n. destruct r as [|x r]; [exists n; by rewrite app_nil_r|].
  exists x, (r ++ [n]). by rewrite <- !app_assoc.
Qed.
Lemma prefix_above (o p : path) x n : o ++ [x] `prefix_of` p ++ [n] -> o `prefix_of` p.
Proof.
  intros [r E]. destruct r as [|y r _] using rev_ind.
  - rewrite app_nil_r in E. apply app_inj_tail in E as [-> _]. done.
  - rewrite app_assoc in E. apply app_inj_tail in E as [-> _]. exists ([x] ++ r). by rewrite app_assoc.
Qed.

(** The sweep of an outbox beside, or above, the inbox just opened. *)
Lemma swept_start outbox inbox n w w' : (forall l, listing w l ≡ₚ l) ->
  (forall d, d <> [] -> d `prefix_of` inbox ++ [$"tmp"] \/ d `prefix_of` inbox ++ [$"new"] -> fs w !! d = Some Dir) ->
  sweep_stale_sessions outbox w = (Ok n, w') ->
  (forall x, fs w' !! (outbox ++ [x]) <> Some Dir) /\
  let there := if decide (outbox `prefix_of` inbox) then None else Some Dir in
  fs w' !! (inbox ++ [$"tmp"]) = there /\ fs w' !! (inbox ++ [$"new"]) = there.
Proof.
  intros Hl Hd E. destruct (sweep_removes_sessions_only outbox w n w' Hl E) as [Hq _]. split.
  { intros x. rewrite (Hq x) by done. unfold stale. case_decide; [done|congruence]. }
  assert (forall q, (exists n, q = inbox ++ [n]) -> (forall d, d <> [] -> d `prefix_of` q -> fs w !! d = Some Dir) ->
    fs w' !! q = if decide (outbox `prefix_of` inbox) then None else Some Dir) as H.
  { intros q [m ->] K. case_decide as D.
    - destruct (prefix_next _ _ D m) as [x Hx]. rewrite (Hq x _ Hx). rewrite decide_True; [done|].
      apply K; [by destruct outbox|done].
    - eapply sweep_spares; [|exact E|apply K; [by destruct inbox|done]].
      intros x Hx. apply D. by eapply prefix_above. }
  split; apply H; eauto.
Qed.

(** C16: TOT serves only when it is fit to.  A start that reaches the accept loop
    has a valid configuration, a bound listener and a sealed sandbox, and no
    directory stands in the custody outbox, so no session can meet another's
    replies.  The inbox it serves is there, unless it lies in the custody outbox:
    then the sweep has just removed it, tmp and new, and nothing refused such a
    configuration. *)
Theorem tot_starts_clean args cfg ib w w' :
  (forall l, listing w l ≡ₚ l) ->
  run args w = (Ok (cfg, ib), w') ->
  nabla cfg <> [] /\ max_message_bytes cfg <> 0 /\ bind = Ok tt /\ sandbox_install = Ok tt /\
  ib = {| tmp := maildir_inbox cfg ++ [$"tmp"]; new := maildir_inbox cfg ++ [$"new"] |} /\
  match custody_outbox cfg with
  | None => fs w' !! tmp ib = Some Dir /\ fs w' !! new ib = Some Dir
  | Some outbox =>
      (forall x, fs w' !! (outbox ++ [x]) <> Some Dir) /\
      let there := if decide (outbox `prefix_of` maildir_inbox cfg) then None else Some Dir in
      fs w' !! tmp ib = there /\ fs w' !! new ib = there
  end.
Proof.
  intros Hl. unfold run, mbind, M_bind, lift, with_err, mret, M_ret.
  destruct args as [|p args]; [discriminate|].
  destruct (load _ w) as [[c|e] w1] eqn:El; [|discriminate]. apply loaded in El as [V Hl1].
  destruct (open (maildir_inbox c) w1) as [[ib0|e] w2] eqn:Eo; [|discriminate].
  apply opened in Eo as (-> & Hl2 & Hd). cbn in Hd. cbn [map_err].
  destruct bind as [[]|e]; [|discriminate]. cbn [map_err]. destruct set_nonblocking as [[]|e]; [|discriminate]. cbn [map_err].
  assert (nabla c <> [] /\ max_message_bytes c <> 0) as [V1 V2].
  { unfold validate in V. case_decide; [done|]. destruct (max_message_bytes c =? 0) eqn:Z; [done|]. split; [done|lia]. }
  destruct (custody_outbox c) as [outbox|] eqn:Ec.
  - destruct (sweep_stale_sessions outbox w2) as [[n|e] w3] eqn:Es; [|discriminate]. cbn [map_err].
    destruct sandbox_install as [[]|e]; cbn; [|intros H; discriminate H]. cbn [map_err]. destruct build_runtime as [[]|e]; cbn; [|intros H; discriminate H].
    cbn. intros [= <- <- <-]. rewrite Ec. do 5 (split; [done|]). apply (swept_start outbox _ n w2); [|exact Hd|exact Es].
    intros l. rewrite Hl2, Hl1. apply Hl.
  - destruct sandbox_install as [[]|e]; cbn; [|intros H; discriminate H]. cbn [map_err].
    destruct build_runtime as [[]|e]; cbn; [|intros H; discriminate H].
    cbn. intros [= <- <- <-]. rewrite Ec. do 5 (split; [done|]). cbn.
    split; apply Hd; auto; by destruct (maildir_inbox c).
Qed.
End run.

(** An outbox one level above the inbox: a start like any other, and no inbox. *)
Definition ex_cfg (outbox : bytes) : Config := {|
  listen := $"0.0.0.0:7400"; maildir_inbox := parse_path $"/v/maildir/inbox";
  nabla := [{| name := $"n"; addr := $"10.0.0.1:1" |}]; custody_outbox := Some (parse_path outbox); fatmama := [];
  intake_max_msgs_per_sec := default_intake_rate; max_message_bytes := default_max_message_bytes |}.
Definition ex_world : world := {|
  fs := {[ parse_path $"/tot.toml" := File $"cfg"; parse_path $"/v/out/old/r.cbor" := File $"late";
           parse_path $"/v/out/old" := Dir; parse_path $"/v/out" := Dir ]};
  oracle := []; hist := []; listing := fun l => l |}.
Definition ex_run (outbox : bytes) :=
  run (fun _ => Ok (ex_cfg outbox)) (Ok tt) (Ok tt) (Ok tt) (Ok tt) [$"/tot.toml"] ex_world.
Definition ex_box : Inbox :=
  {| tmp := maildir_inbox (ex_cfg []) ++ [$"tmp"]; new := maildir_inbox (ex_cfg []) ++ [$"new"] |}.
Lemma started o : (ex_run o).1 = Ok (ex_cfg o, ex_box) -> ex_run o = (Ok (ex_cfg o, ex_box), (ex_run o).2).
Proof. intros <-. apply surjective_pairing. Qed.
Lemma tot_starts_clean_witness :
  (let w' := (ex_run $"/v/out").2 in
   fs w' !! parse_path $"/v/out/old" <> Some Dir /\ fs w' !! parse_path $"/v/maildir/inbox/new" = Some Dir) /\
  fs (ex_run $"/v/maildir").2 !! parse_path $"/v/maildir/inbox/new" = None.
Proof.
  pose proof (fun o w' (E : ex_run o = (Ok (ex_cfg o, ex_box), w')) =>
    tot_starts_clean (fun _ => Ok (ex_cfg o)) (Ok tt) (Ok tt) (Ok tt) (Ok tt) [$"/tot.toml"]
    (ex_cfg o) ex_box ex_world w' (fun l => reflexivity l) E) as T.
  assert (ex_run $"/v/out" = (Ok (ex_cfg $"/v/out", ex_box), (ex_run $"/v/out").2)) as H1
    by (apply started; vm_compute; reflexivity).
  assert (ex_run $"/v/maildir" = (Ok (ex_cfg $"/v/maildir", ex_box), (ex_run $"/v/maildir").2)) as H2
    by (apply started; vm_compute; reflexivity).
  split.
  - destruct (T $"/v/out" (ex_run $"/v/out").2 H1) as (_ & _ & _ & _ & _ & Hs & _ & Hn).
    split; [exact (Hs $"old")|exact Hn].
  - destruct (T $"/v/maildir" (ex_run $"/v/maildir").2 H2) as (_ & _ & _ & _ & _ & _ & _ & Hn).
    exact Hn.
Defined.
End TotRun.
