(* ===== verification/TotSandbox.v ===== *)
(** * TOT's sandbox: [tot/src/sandbox.rs]

    The denylist, its compilation and its installation.  [libc] (the numbers of
    the system calls) and [seccompiler] (rules, filters, BPF) are interfaces; what
    a filter does to a call is the documented behaviour of [seccompiler] and the
    kernel, stated as [Seccompiler.verdict_of]. *)
From S2P Require Import Prelude Fs TotInbox TotConfig TotServer TotRun.

Module TotSandbox.

(** The names of [libc]. *)
Inductive sys : Type :=
  | SYS_execve | SYS_execveat | SYS_ptrace | SYS_process_vm_readv | SYS_process_vm_writev
  | SYS_mount | SYS_umount2 | SYS_pivot_root | SYS_chroot | SYS_setns | SYS_unshare | SYS_bpf.
Definition DENIED : list sys :=
  [SYS_execve; SYS_execveat; SYS_ptrace; SYS_process_vm_readv; SYS_process_vm_writev;
   SYS_mount; SYS_umount2; SYS_pivot_root; SYS_chroot; SYS_setns; SYS_unshare; SYS_bpf].
Inductive TargetArch : Type := X86_64 | Aarch64.
Inductive SeccompAction : Type := Allow | KillProcess.
(** [cfg!(target_arch)]: what the program was compiled for. *)
Inductive machine : Type := Is (a : TargetArch) | OtherArch.
Definition target_arch (m : machine) : result bytes TargetArch :=
  match m with Is a => Ok a | OtherArch => Err $"seccomp: unsupported target architecture" end.

(** The crates.  A rule list that is empty matches its call unconditionally. *)
Class Seccompiler : Type := {
  nr : sys -> Z;
  SeccompRule : Type; SeccompFilter : Type; BpfProgram : Type;
  filter_new : gmap Z (list SeccompRule) -> SeccompAction -> SeccompAction -> TargetArch -> result bytes SeccompFilter;
  try_into : SeccompFilter -> result bytes BpfProgram;
  apply_filter : BpfProgram -> option bytes;    (* the kernel's refusal *)
  verdict : BpfProgram -> Z -> SeccompAction }.

Section sandbox.
Context `{SC : Seccompiler} (m : machine).
Definition rules : gmap Z (list SeccompRule) := foldl (fun r s => <[nr s := []]> r) ∅ DENIED.
Definition compile : result bytes BpfProgram :=
  arch ← target_arch m;
  filter ← map_err (fun e => $"seccomp: build filter: " ++ e) (filter_new rules Allow KillProcess arch);
  map_err (fun e => $"seccomp: compile filter: " ++ e) (try_into filter).
(** The calling thread: the programs applied to it, which [clone] hands on. *)
Abbreviation thread := (list BpfProgram).
Definition apply (prog : BpfProgram) : M thread bytes unit := fun t =>
  match apply_filter prog with
  | None => (Ok tt, t ++ [prog])
  | Some e => (Err ($"seccomp: apply filter: " ++ e), t)
  end.
Definition install : M thread bytes unit := prog ← lift compile; apply prog.

(** The kernel runs every program; the strictest answer counts. *)
Definition permitted (t : thread) (n : Z) : bool :=
  forallb (fun p => match verdict p n with Allow => true | KillProcess => false end) t.
Definition denied (n : Z) : bool := existsb (fun s => nr s =? n) DENIED.

Lemma rules_spec n : rules !! n = if denied n then Some [] else None.
Proof.
  unfold rules, denied. assert (forall l (r : gmap Z (list SeccompRule)),
    foldl (fun r s => <[nr s := []]> r) r l !! n = if existsb (fun s => nr s =? n) l then Some [] else r !! n) as H.
  { induction l as [|s l IH]; intros r; cbn [foldl existsb]; [done|]. rewrite IH. destruct (Z.eqb_spec (nr s) n) as [<-|N]; cbn [orb].
    - destruct (existsb _ l); [done|by rewrite lookup_insert_eq].
    - by rewrite lookup_insert_ne. }
  rewrite H. by destruct (existsb _ _).
Qed.

Lemma ran {W E A B : Type} (c : M W E A) (f : A -> M W E B) w b w' :
  (c ≫= f) w = (Ok b, w') -> exists a w1, c w = (Ok a, w1) /\ f a w1 = (Ok b, w').
Proof. unfold mbind, M_bind. destruct (c w) as [[a|e] w1]; [|discriminate]. eauto. Qed.

(** C18: A sealed tot can make every system call but the twelve.  Whatever filters
    the thread already had, an installation that succeeds leaves exactly the calls
    of the denylist dead and every other as it was; one that fails says so and
    changes nothing; and on another architecture it fails.  tot that has started
    is sealed: no start reaches the accept loop unsealed.  ([Hbuild]: what the
    documentation of seccompiler says of a filter: a call with an empty rule list
    gets the match action, a call without rules the default action.) *)
Theorem sandbox_seals t
  (Hbuild : forall r d k a f p n, filter_new r d k a = Ok f -> try_into f = Ok p ->
     r !! n = Some [] \/ r !! n = None -> verdict p n = match r !! n with Some _ => k | None => d end) :
  match install t with
  | (Ok _, t') => forall n, permitted t' n = permitted t n && negb (denied n)
  | (Err e, t') => t' = t /\ e <> []
  end /\
  (m = OtherArch -> (install t).1 = Err $"seccomp: unsupported target architecture") /\
  (forall toml bind nb rt args cfg ib w w',
     TotRun.run toml bind nb (install t).1 rt args w = (Ok (cfg, ib), w') ->
     forall s, s ∈ DENIED -> permitted (install t).2 (nr s) = false).
Proof.
  assert (match install t with
    | (Ok _, t') => forall n, permitted t' n = permitted t n && negb (denied n)
    | (Err e, t') => t' = t /\ e <> [] end) as H.
  { unfold install, compile, lift, apply, mbind, M_bind, result_bind.
    destruct m as [a|]; cbn [target_arch]; [|by split].
    destruct (filter_new rules Allow KillProcess a) as [f|e] eqn:Ef; cbn [map_err]; [|by split].
    destruct (try_into f) as [p|e] eqn:Ep; cbn [map_err]; [|by split].
    destruct (apply_filter p) as [e|]; [by split|]. intros n. unfold permitted. rewrite forallb_app. f_equal. cbn [forallb].
    rewrite (Hbuild _ _ _ _ _ _ n Ef Ep) by (rewrite rules_spec; destruct (denied n); auto).
    rewrite rules_spec. by destruct (denied n). }
  split; [exact H|]. split; [intros E; unfold install, compile, lift; by rewrite E|]. intros toml bind nb rt args cfg ib w w' Hrun s Hs.
  assert ((install t).1 = Ok tt) as Hi.
  { revert Hrun. generalize (install t).1. intros r Hrun. destruct r as [[]|e]; [done|].
    unfold TotRun.run in Hrun. repeat (apply ran in Hrun as (? & ? & ? & Hrun)). done. }
  destruct (install t) as [[u|e] t']; [|done]. cbn [snd]. rewrite H.
  assert (denied (nr s) = true) as ->; [|apply andb_false_r].
  unfold denied. apply existsb_exists. exists s. split; [by apply list_elem_of_In|apply Z.eqb_refl].
Qed.
End sandbox.

(** A kernel that looks the call up, with the numbers of x86-64. *)
Definition number (s : sys) : Z :=
  match s with
  | SYS_execve => 59 | SYS_execveat => 322 | SYS_ptrace => 101 | SYS_process_vm_readv => 310
  | SYS_process_vm_writev => 311 | SYS_mount => 165 | SYS_umount2 => 166 | SYS_pivot_root => 155
  | SYS_chroot => 161 | SYS_setns => 308 | SYS_unshare => 272 | SYS_bpf => 321
  end.
Definition ex_filter : Type := gmap Z (list unit) * SeccompAction * SeccompAction.
#[export] Instance ex_seccomp : Seccompiler := {|
  nr := number; SeccompRule := unit; SeccompFilter := ex_filter; BpfProgram := ex_filter;
  filter_new := fun r d k _ => Ok (r, d, k); try_into := fun f => Ok f; apply_filter := fun _ => None;
  verdict := fun p n => match p.1.1 !! n with Some _ => p.2 | None => p.1.2 end |}.
Lemma sandbox_seals_witness :
  exists t', install (SC := ex_seccomp) (Is X86_64) [] = (Ok tt, t') /\
    permitted t' 59 = false /\ permitted t' 1 = true /\
    (install (SC := ex_seccomp) OtherArch []).1 = Err $"seccomp: unsupported target architecture".
Proof.
  assert (forall (r : gmap Z (list unit)) d k a f p n, filter_new (Seccompiler := ex_seccomp) r d k a = Ok f ->
    try_into (Seccompiler := ex_seccomp) f = Ok p -> r !! n = Some [] \/ r !! n = None ->
    verdict (Seccompiler := ex_seccomp) p n = match r !! n with Some _ => k | None => d end) as Hb
    by (intros r d k a f p n [= <-] [= <-] _; reflexivity).
  pose proof (sandbox_seals (SC := ex_seccomp) (Is X86_64) [] Hb) as [H _].
  pose proof (sandbox_seals (SC := ex_seccomp) OtherArch [] Hb) as [_ [H2 _]].
  destruct (install (Is X86_64) []) as [[[]|e] t'] eqn:E; [|vm_compute in E; discriminate].
  exists t'. split; [reflexivity|]. rewrite !H. split; [vm_compute; reflexivity|]. split; [vm_compute; reflexivity|]. by apply H2.
Defined.
End TotSandbox.
