(* ===== verification/Errors.v ===== *)
(** * ANTIE's error type and its wire form: [error.rs], [error_response.rs]

    The structured error of the [axiom_errors] crate is an interface: its
    constructor, its message and the categories and code names the source
    uses. *)
From S2P Require Import Prelude Fs.

(** What the [axiom_errors] crate provides. *)
Class ErrorsCrate : Type := {
    ErrorResponse : Type;
    ErrorCategory : Type;
    ErrorCode : Type;
    Operational : ErrorCategory;
    ClientBug : ErrorCategory;
    Internal : ErrorCategory;
    ProtocolReject : ErrorCategory;
    from_static : bytes -> ErrorCode;
    response_new : ErrorCode -> ErrorCategory -> bytes -> ErrorResponse;
    message : ErrorResponse -> bytes;
    code_text : ErrorResponse -> bytes;      (* [Display] of the code *)
    with_request_id : ErrorResponse -> bytes -> ErrorResponse;
}.

(** A concrete crate, for the witnesses. *)
Definition ex_errors : ErrorsCrate := {|
  ErrorResponse := bytes * nat * bytes; ErrorCategory := nat; ErrorCode := bytes;
  Operational := 0%nat; ClientBug := 1%nat; Internal := 2%nat; ProtocolReject := 3%nat;
  from_static := fun s => s; response_new := fun c k m => (c, k, m);
  message := fun r => r.2; code_text := fun r => r.1.1; with_request_id := fun r _ => r |}.

Module Errors.
Section errors.
Context `{EC : ErrorsCrate}.

Inductive AntieError : Type :=
  | MaildirError (s : bytes)
  | EmailParseError (s : bytes)
  | InvalidPayload (s : bytes)
  | CoreError (s : bytes)
  | ValidationFailed (s : bytes)
  | LambdaError (s : bytes)
  | IoError (e : io_error)
  | ConfigError (s : bytes)
  | SerializationError (s : bytes)
  | CoreTTLExpired (s : bytes)
  | RateLimited (s : bytes)
  | WalletBanned (s : bytes)
  | LambdaRejected (er : ErrorResponse).

(** [Display] *)
Definition display (e : AntieError) : bytes :=
  match e with
  | MaildirError s => $"Maildir error: " ++ s
  | EmailParseError s => $"Email parse error: " ++ s
  | InvalidPayload s => $"Invalid payload: " ++ s
  | CoreError s => $"Core error: " ++ s
  | ValidationFailed s => $"Validation failed: " ++ s
  | LambdaError s => $"Lambda error: " ++ s
  | LambdaRejected er => $"Lambda error: " ++ message er
  | IoError e => $"IO error: " ++ io_msg e
  | ConfigError s => $"Config error: " ++ s
  | SerializationError s => $"Serialization error: " ++ s
  | CoreTTLExpired s => $"Core TTL expired: " ++ s
  | RateLimited s => s
  | WalletBanned s => s
  end.

(** [From<&AntieError> for ErrorResponse] *)
Definition to_response (err : AntieError) : ErrorResponse :=
  let make code cat msg := response_new (from_static code) cat msg in
  match err with
  | MaildirError s => make $"E_ANTIE_MAILDIR_ERROR" Operational ($"Maildir error: " ++ s)
  | EmailParseError s => make $"E_ANTIE_EMAIL_PARSE_ERROR" ClientBug ($"Email parse error: " ++ s)
  | InvalidPayload s => make $"E_ANTIE_INVALID_PAYLOAD" ClientBug ($"Invalid payload: " ++ s)
  | CoreError s => make $"E_ANTIE_CORE_ERROR" Internal ($"Core IPC error: " ++ s)
  | ValidationFailed s =>
    make $"E_ANTIE_VALIDATION_FAILED" ProtocolReject ($"Validation failed: " ++ s)
  | LambdaError s =>
    make $"E_ANTIE_LAMBDA_ERROR" Operational ($"Lambda communication error: " ++ s)
  | IoError e => make $"E_ANTIE_IO_ERROR" Internal ($"IO error: " ++ io_msg e)
  | ConfigError s => make $"E_ANTIE_CONFIG_ERROR" Internal ($"Config error: " ++ s)
  | SerializationError s =>
    make $"E_ANTIE_SERIALIZATION" ClientBug ($"Serialization error: " ++ s)
  | CoreTTLExpired s => make $"E_ANTIE_CORE_TTL_EXPIRED" Operational ($"Core TTL expired: " ++ s)
  | RateLimited s => make $"E_ANTIE_RATE_LIMITED" Operational s
  | WalletBanned s => make $"E_ANTIE_WALLET_BANNED" ProtocolReject s
  | LambdaRejected er => er
  end.

(** A Lambda verdict crosses ANTIE unchanged. *)
Lemma to_response_rejected er : to_response (LambdaRejected er) = er.
Proof. done. Qed.

(** How a computation that waits for another process can end without a value:
    with an error the caller handles, by leaving the process, or never. *)
Inductive fault : Type := Failed (e : AntieError) | Exited (status : Z) | Hung.

(** [match m { Ok .. Err .. }] around such a computation. *)
Definition recover {W A : Type} (m : M W fault A) : M W fault (result AntieError A) := fun w =>
  match m w with
  | (Ok a, w') => (Ok (Ok a), w')
  | (Err (Failed e), w') => (Ok (Err e), w')
  | (Err f, w') => (Err f, w')
  end.
(** A computation that only fails. *)
Definition failing_only {W A : Type} (m : M W AntieError A) : M W fault A := with_err Failed m.

(** [?] on an [io::Result]. *)
Definition lift_io {A : Type} (m : io A) : M world AntieError A := with_err IoError m.
End errors.
Arguments AntieError {EC}.
Arguments fault {EC}.
End Errors.
