(* ===== verification/CoreTypes.v ===== *)
(** * What ANTIE exchanges with Core and Lambda

    The wire types of the [axiom_core_logic] crate as far as the source names
    them: every field ANTIE reads, writes or matches on is a field here, with the
    crate's name; what it only carries is [Datum].  The crate's functions are the
    class [CoreFns], and [ciborium] is its encoders and decoders. *)
From S2P Require Import Prelude Fs Errors.
Import Errors.

(** Values the source only moves. *)
Class CoreValues : Type := { Datum : Type }.
Abbreviation Receipt := Datum (only parsing).
Abbreviation WitnessSig := Datum (only parsing).
Abbreviation WitnessSignature := Datum (only parsing).
Abbreviation FactChain := Datum (only parsing).
Abbreviation FactSignature := Datum (only parsing).
Abbreviation VBCProofBundle := Datum (only parsing).
Abbreviation VbcSignature := Datum (only parsing).
Abbreviation ValidationError := Datum (only parsing).
Abbreviation WalletState := Datum (only parsing).
Abbreviation GroupMember := Datum (only parsing).
Abbreviation ValidatorHint := Datum (only parsing).
Abbreviation OriginRecord := Datum (only parsing).
Abbreviation PeerAuditRequest := Datum (only parsing).
Abbreviation PeerAuditResponse := Datum (only parsing).
Abbreviation PeerAuditNotHeld := Datum (only parsing).

Module Core.

(** [ciborium::Value], as far as the source looks into it. *)
Inductive Value `{CoreValues} : Type :=
  | Bytes (b : bytes)
  | Text (s : bytes)
  | Map (entries : list (Value * Value))
  | Carried (v : Datum).

Section types.
Context `{EC : ErrorsCrate} `{CV : CoreValues}.

(** ** Requests *)
Record Transaction : Type := {
    sender_wallet_id : bytes; receiver_wallet_id : bytes; receiver_address : option bytes;
    tx_client_pk : bytes; client_sig : bytes; tx_rest : Datum }.
Record WitnessRequest : Type := {
    wq_request_id : bytes; requester_address : bytes; transaction : Transaction;
    claimed_balance_for_sabr : Z; prev_receipts : list Receipt;
    overlapped_signatures : list WitnessSig; wq_sender_fact_chain : option FactChain;
    fact_certificates : list VBCProofBundle;
    wq_produced_state_id : option bytes; wq_commitment_hash : option bytes; wq_rest : Datum }.
Record RedeemRequestEnvelope : Type := { rq_request_id : bytes; rq_rest : Datum }.
Record AckRequest : Type := {
    ak_request_id : bytes; ak_txid : bytes; ak_validator_pk : bytes; ak_sender_sig : bytes;
    ak_client_pk : bytes }.
Record InitGenesisRequest : Type := {
    ig_request_id : bytes; ig_public_key : bytes; ig_balance : Z;
    ig_group_members : option (list GroupMember); ig_auth_hash : option bytes }.
Record VBCSignRequestPayload : Type := {
    vs_request_id : bytes; vs_sphincs_pk_hex : bytes; vs_dilithium_pk_hex : bytes;
    vs_ed25519_pk_hex : bytes; vs_pgp_fingerprint_hex : bytes; vs_proof_cap : bytes;
    vs_node_name : bytes }.
Record VBCSignCommitPayload : Type := {
    vc_request_id : bytes; vc_sphincs_pk_hex : bytes; vc_dilithium_pk_hex : bytes;
    vc_ed25519_pk_hex : bytes; vc_pgp_fingerprint_hex : bytes; vc_proof_cap : bytes;
    vc_node_name : bytes; vc_issued_at : Z; vc_expires_at : Z; vc_chain_depth : Z;
    vc_issuer_set_hex : list bytes; vc_previous_vbc : option Datum }.
Inductive GatewayRequest : Type :=
  | Witness (r : WitnessRequest)
  | Redeem (r : RedeemRequestEnvelope)
  | Ack (r : AckRequest)
  | InitGenesis (r : InitGenesisRequest)
  | SetCarriers (request_id : bytes) (carriers : list bytes)
  | VBCSignRequest (p : VBCSignRequestPayload)
  | VBCSignCommit (p : VBCSignCommitPayload)
  | SetAuthHash (request_id public_key auth_hash : bytes)
  | FanOutDedup (request_id diffusion_id : bytes)
  | FanOutMark (request_id diffusion_id : bytes)
  | PeerAuditRequestQ (request_id : bytes) (r : PeerAuditRequest)
  | PeerAuditDispatchFailed (request_id target_email error_ : bytes)
  | PeerAuditNotHeldQ (request_id : bytes) (n : PeerAuditNotHeld)
  | PeerAuditResponseQ (request_id : bytes) (r : PeerAuditResponse)
  | QueryState (request_id wallet_pk : bytes)
  | ValidatorStatus (request_id : bytes)
  | Health (request_id : bytes).

(** ** Responses *)
Record ValidatorCheque : Type := { cheque_txid : bytes; cheque_rest : Datum }.
Record ScarConsentNotification : Type := { scar_txid : bytes; scar_rest : Datum }.
Record OutboundPeerAudit : Type := { target_email : bytes; audit_request : PeerAuditRequest }.
Record WitnessResponse : Type := {
    ws_success : bool; cheque_for_receiver : option ValidatorCheque;
    ws_sender_fact_chain : option FactChain; ws_vbc_signature : option VbcSignature;
    scar_consent_for_receiver : option ScarConsentNotification;
    outbound_peer_audit : option OutboundPeerAudit; ws_rest : Datum }.
Record RedeemResponse : Type := {
    rd_success : bool; rd_witness_signature : option WitnessSignature;
    new_state_id : option bytes; rd_commitment_hash : option bytes;
    rd_state_hash : option bytes; rd_receipt_commitment : option bytes;
    rd_receiver_fact_chain : option FactChain; rd_fact_signature : option FactSignature;
    rd_error_response : option ErrorResponse }.
Record AckResponse : Type := {
    as_request_id : bytes; as_success : bool; new_status : option Datum;
    as_error_response : option ErrorResponse }.
(** [result]: its state id. *)
Record InitGenesisResponse : Type := {
    ir_success : bool; ir_state_id : option bytes; ir_error : option bytes }.
Record VBCSignApproval : Type := { approved : bool; reason : option bytes }.
Record VBCSignCommitResponse : Type := { cr_success : bool; cr_error : option bytes }.
Record SetAuthHashResponse : Type := { sr_success : bool; sr_error : option bytes }.
Record PeerAuditResultPayload : Type := {
    pr_success : bool; requester_email : option bytes; pr_response : option PeerAuditResponse;
    not_held : option PeerAuditNotHeld; pr_error : option bytes }.
Record StoredWalletState : Type := {
    st_balance : Z; st_wallet_seq : Z; st_public_key : bytes; st_state_id : bytes; st_rest : Datum }.
Record StateQueryResponse : Type := { found : bool; wallet_state : option StoredWalletState }.
Record ValidatorStatusResponse : Type := { known_validators : list ValidatorHint; vsp_rest : Datum }.
Inductive GatewayResponse : Type :=
  | WitnessResult (r : WitnessResponse)
  | RedeemResult (r : RedeemResponse)
  | AckResult (r : AckResponse)
  | InitGenesisResult (r : InitGenesisResponse)
  | SetCarriersAck (accepted : Z)
  | VBCSignApprovalResult (r : VBCSignApproval)
  | VBCSignCommitResult (r : VBCSignCommitResponse)
  | SetAuthHashResult (r : SetAuthHashResponse)
  | FanOutDedupResult (already_seen : bool)
  | FanOutMarkResult
  | PeerAuditResult (r : PeerAuditResultPayload)
  | StateResult (r : StateQueryResponse)
  | ValidatorStatusResult (r : ValidatorStatusResponse)
  | Error (error_response : ErrorResponse)
  | OtherResponse (v : Datum).

(** ** The reply to a requester *)
Record ResponsePayload : Type := {
    success : bool; resp_request_id : bytes; witness_signature : option WitnessSignature;
    resp_cheque_for_receiver : option ValidatorCheque;
    scar_consent_voucher : option Datum; produced_state_id : option bytes;
    receipt : option Datum; commitment_hash : option bytes; state_hash : option bytes;
    receipt_commitment : option bytes; txid : option bytes; state_id : option bytes;
    error : option bytes; rejection_code : option bytes; error_response : option ErrorResponse;
    validator_hints : list ValidatorHint; sender_fact_chain : option FactChain;
    receiver_fact_chain : option FactChain; fact_signature : option FactSignature;
    query_data : option Value; sender_state : option Datum; vbc_signature : option VbcSignature }.

(** ** Fan-out *)
Record FanOutMessage : Type := { content_type : Z; ttl_current : Z; fanout_rest : Datum }.

(** ** Running Core: the inputs the source sets to something else than [None],
    an empty list or zero, and the two it keeps empty on purpose. *)
Inductive CoreLogicMode : Type := CL2_PREFILTER | CL10.
Record PublicInputs : Type := {
    mode : CoreLogicMode; in_transaction : Transaction; in_prev_receipts : list Receipt;
    in_overlapped_signatures : list WitnessSig; in_vbc_bundle : option VBCProofBundle;
    my_validator_pk : option bytes; in_sender_fact_chain : option FactChain;
    in_fact_certificates : list VBCProofBundle; in_fanout_message : option FanOutMessage;
    current_state : option WalletState; local_core_id : bytes }.
Inductive ValidationResult : Type := Accept | Reject | Fatal.
Record PublicOutputs : Type := {
    result_ : ValidationResult; out_produced_state_id : option bytes; new_wallet_seq : option Z;
    out_commitment_hash : option bytes; fanout_new_ttl : option Z;
    rejection_reason_ : option ValidationError }.
End types.
End Core.

(** ** The crate's functions and [ciborium] *)
Class CoreFns `{EC : ErrorsCrate} `{CV : CoreValues} : Type := {
    BURN_ADDRESS : bytes;
    default_transaction : Core.Transaction;
    is_dev_wallet : bytes -> bool;
    validate_wallet_id : bytes -> bool;
    extract_security_level : bytes -> option Z;
    smt_bucket : bytes -> Z -> bytes;
    signing_message : Core.Transaction -> bytes;
    verify_ed25519 : bytes -> bytes -> bytes -> bool;     (* key, message, signature *)
    origin_of : Core.Transaction -> result bytes OriginRecord;
    cheque_origin_matches : OriginRecord -> bytes -> bool;
    sender_leg : Core.WitnessResponse -> Core.ResponsePayload;
    execute : Core.PublicInputs -> result bytes Core.PublicOutputs;
    show_validation_error : ValidationError -> bytes;
    error_of_validation : ValidationError -> ErrorResponse;
    signer_sphincs_pk : VbcSignature -> bytes;
    subject_pubkey_ed25519 : VBCProofBundle -> bytes;
    bundle_structure_ok : VBCProofBundle -> bool;
    (* [ciborium] *)
    encode_request : Core.GatewayRequest -> result bytes bytes;
    decode_response : bytes -> result bytes Core.GatewayResponse;
    decode_witness_request : bytes -> result bytes Core.WitnessRequest;
    decode_redeem_request : bytes -> result bytes Core.RedeemRequestEnvelope;
    decode_bundle : bytes -> option VBCProofBundle;
    response_cbor : Core.ResponsePayload -> result bytes bytes;
    cheque_cbor : Core.ValidatorCheque -> option FactChain -> OriginRecord -> result bytes bytes;
    vbc_cbor : VbcSignature -> result bytes bytes;
    scar_consent_cbor : Core.ScarConsentNotification -> result bytes bytes;
    peer_audit_request_cbor : PeerAuditRequest -> result bytes bytes;
    peer_audit_response_cbor : PeerAuditResponse -> result bytes bytes;
    not_held_cbor : PeerAuditNotHeld -> result bytes bytes;
    value_of_u64 : Z -> result bytes Core.Value;
    value_of_bytes : bytes -> result bytes Core.Value;
    value_of_vsp : Core.ValidatorStatusResponse -> result bytes Core.Value;
    value_as_bytes : Core.Value -> option bytes;           (* [deserialized::<Vec<u8>>] *)
}.

(** Concrete values and functions, for the witnesses: data are byte strings, a
    reply's CBOR is its request id, and the decoders are given. *)
Definition ex_values : CoreValues := {| Datum := bytes |}.
Definition ex_fns (mk_leg : Core.WitnessResponse (CV := ex_values) -> Core.ResponsePayload)
    (run : Core.PublicInputs -> result bytes Core.PublicOutputs)
    (encode : Core.GatewayRequest -> result bytes bytes) (decode : bytes -> result bytes Core.GatewayResponse)
    (witness : bytes -> result bytes Core.WitnessRequest) : CoreFns (EC := ex_errors) (CV := ex_values) := {|
  BURN_ADDRESS := $"burn";
  default_transaction := Core.Build_Transaction (CV := ex_values) [] [] None [] [] ([] : bytes);
  is_dev_wallet := starts_with $"dev:";
  validate_wallet_id := fun _ => true;
  extract_security_level := fun _ => None; smt_bucket := fun k _ => k;
  signing_message := fun _ => []; verify_ed25519 := fun _ _ s => bool_decide (s = $"good");
  origin_of := fun tx => Ok (Core.tx_rest tx);
  cheque_origin_matches := fun o t => bool_decide (o = t);
  sender_leg := mk_leg; execute := run;
  show_validation_error := fun e => e; error_of_validation := fun e => (((e : @Datum ex_values) : bytes, 3%nat, e : bytes) : @ErrorResponse ex_errors);
  signer_sphincs_pk := fun s => s; subject_pubkey_ed25519 := fun b => b; bundle_structure_ok := fun _ => true;
  encode_request := encode; decode_response := decode; decode_witness_request := witness;
  decode_redeem_request := fun b => Ok (Core.Build_RedeemRequestEnvelope (CV := ex_values) [] b);
  decode_bundle := Some;
  response_cbor := fun p => Ok (Core.resp_request_id p);
  cheque_cbor := fun c _ _ => Ok (Core.cheque_txid c); vbc_cbor := Ok;
  scar_consent_cbor := fun s => Ok (Core.scar_txid s);
  peer_audit_request_cbor := Ok; peer_audit_response_cbor := Ok; not_held_cbor := Ok;
  value_of_u64 := fun n => Ok (Core.Text (show_Z n)); value_of_bytes := fun b => Ok (Core.Bytes b);
  value_of_vsp := fun v => Ok (Core.Carried (Core.vsp_rest v));
  value_as_bytes := fun v => match v with Core.Bytes b => Some b | _ => None end |}.
