(* ===== verification/Confine.v ===== *)
(** * What a computation may change of a disk

    [within R m]: whatever fails on the way, every store [m] makes visible differs
    from the one it began with only inside the regions [R] and in missing
    directories above them.  A conclusion about all stores on the way is one about a
    process that is killed at any call. *)
From S2P Require Import Prelude Fs Errors.

Module Confine.
Implicit Types (R : path -> Prop) (s : store) (w : world).

Definition inside R (q : path) : Prop := exists r, R r /\ r `prefix_of` q.
Definition above R (q : path) : Prop := exists r, R r /\ q `prefix_of` r.
Definition confined R s s' : Prop :=
  forall q, ~ inside R q -> s' !! q = s !! q \/ (s !! q = None /\ s' !! q = Some Dir /\ above R q).
#[export] Instance confined_pre R : PreOrder (confined R).
Proof.
  split; [by left|]. intros s1 s2 s3 H12 H23 q Hq.
  destruct (H12 q Hq) as [E|(E & E' & A)], (H23 q Hq) as [F|(F & F' & A')]; rewrite ?F, ?F'; auto; try congruence.
  - right. split; [congruence|done].
Qed.
Record touches R w w' : Prop := {
  touched_now : confined R (fs w) (fs w');
  touched_before : exists new, hist w' = new ++ hist w /\ Forall (confined R (fs w)) new;
  touched_calls : exists used, oracle w = used ++ oracle w' }.
#[export] Instance touches_pre R : PreOrder (touches R).
Proof.
  split.
  - intros w. split; [done|by exists []|by exists []].
  - intros w1 w2 w3 [A1 (n1 & E1 & F1) (u1 & O1)] [A2 (n2 & E2 & F2) (u2 & O2)]. split.
    + by etransitivity.
    + exists (n2 ++ n1). rewrite E2, E1, app_assoc. split; [done|]. apply Forall_app. split; [|done].
      eapply Forall_impl; [exact F2|]. intros s Hs. by etransitivity.
    + exists (u1 ++ u2). by rewrite O1, O2, app_assoc.
Qed.
Definition within {E A : Type} R (m : M world E A) : Prop := forall w, touches R w (m w).2.

Lemma confined_mono R R' s s' : (forall r, R r -> R' r) -> confined R s s' -> confined R' s s'.
Proof.
  intros H C q Hq. destruct (C q) as [E|(E & E' & r & Hr & Ha)]; [|by left|right].
  - intros (r & Hr & Hp). apply Hq. exists r. auto.
  - do 2 (split; [done|]). exists r. auto.
Qed.
Lemma touches_mono R R' w w' : (forall r, R r -> R' r) -> touches R w w' -> touches R' w w'.
Proof.
  intros H [A1 (n & E1 & F) U]. split; [by eapply confined_mono| |done].
  exists n. split; [done|]. eapply Forall_impl; [exact F|]. intros s. by apply confined_mono.
Qed.
Lemma within_mono {E A : Type} R R' (m : M world E A) :
  (forall r, R r -> R' r) -> within R m -> within R' m.
Proof. intros H Hm w. eapply touches_mono; eauto. Qed.
(** A path outside that holds a file, or nothing but a directory, is as it was. *)
Lemma confined_file R s s' q b : confined R s s' -> ~ inside R q -> s !! q = Some (File b) -> s' !! q = Some (File b).
Proof. intros C Hq E. destruct (C q Hq) as [->|(? & _)]; congruence. Qed.
Lemma confined_dir R s s' q : confined R s s' -> ~ inside R q -> s !! q = Some Dir -> s' !! q = Some Dir.
Proof. intros C Hq E. destruct (C q Hq) as [->|(? & _)]; congruence. Qed.
Lemma confined_no_file R s s' q : confined R s s' -> ~ inside R q -> s !! q = None -> is_file s' q = false.
Proof. intros C Hq E. unfold is_file. by destruct (C q Hq) as [->|(_ & -> & _)]; rewrite ?E. Qed.
(** Clear of the regions: nothing happens there at all. *)
Lemma confined_clear R s s' q : confined R s s' -> ~ inside R q -> ~ above R q -> s' !! q = s !! q.
Proof. intros C Hq Ha. destruct (C q Hq) as [E|(_ & _ & ?)]; [done|by destruct Ha]. Qed.

Section closure.
Context (R : path -> Prop) {E F A B : Type}.
Lemma within_ret (a : A) : within (E := E) R (mret a).
Proof. intros w. reflexivity. Qed.
Lemma within_throw (e : E) : within (A := A) R (throw e).
Proof. intros w. reflexivity. Qed.
Lemma within_lift (r : result E A) : within R (lift r).
Proof. intros w. reflexivity. Qed.
Lemma within_gets (f : world -> A) : within (E := E) R (gets f).
Proof. intros w. reflexivity. Qed.
Lemma within_bind (m : M world E A) (f : A -> M world E B) :
  within R m -> (forall a, within R (f a)) -> within R (m ≫= f).
Proof.
  intros Hm Hf w. unfold mbind, M_bind. specialize (Hm w). destruct (m w) as [[a|e] w']; [|done].
  etransitivity; [exact Hm|]. apply Hf.
Qed.
Lemma within_attempt (m : M world E A) : within R m -> within (E := F) R (attempt m).
Proof. intros Hm w. specialize (Hm w). unfold attempt. by destruct (m w). Qed.
Lemma within_with_err (f : E -> F) (m : M world E A) : within R m -> within R (with_err f m).
Proof. intros Hm w. specialize (Hm w). unfold with_err. by destruct (m w). Qed.
Lemma within_mapM (f : B -> M world E unit) l : (forall x, x ∈ l -> within R (f x)) -> within R (mapM_ f l).
Proof.
  induction l as [|x l IH]; intros Hf; cbn [mapM_].
  - intros w. reflexivity.
  - intros w. unfold mbind, M_bind. pose proof (Hf x ltac:(by left) w) as Hx. destruct (f x w) as [[a|e] w']; [|done].
    etransitivity; [exact Hx|]. apply IH. intros y Hy. apply Hf. by right.
Qed.
End closure.

Section calls.
Context (R : path -> Prop).
Lemma inside_below r q : R r -> r `prefix_of` q -> inside R q.
Proof. by exists r. Qed.
Lemma put_touches s w : confined R (fs w) s -> touches R w (set_fs s w).
Proof. intros H. split; [done|by exists [s]; auto|by exists []]. Qed.
Lemma confined_insert s p v : inside R p -> confined R s (<[p := v]> s).
Proof. intros Hp q Hq. left. apply lookup_insert_ne. by intros ->. Qed.
Lemma confined_delete s p : inside R p -> confined R s (delete p s).
Proof. intros Hp q Hq. left. apply lookup_delete_ne. by intros ->. Qed.
Lemma confined_mkdir s p : s !! p = None -> above R p \/ inside R p -> confined R s (<[p := Dir]> s).
Proof.
  intros Hp Ha q Hq. destruct (decide (q = p)) as [->|N]; [right|left].
  - rewrite lookup_insert_eq. destruct Ha as [Ha|Ha]; done.
  - by rewrite lookup_insert_ne.
Qed.
Lemma within_next : within R next_outcome.
Proof.
  intros w. unfold next_outcome. destruct (oracle w) as [|o os] eqn:E; [reflexivity|].
  split; [done|by exists []|by exists [o]].
Qed.
Lemma within_syscall : within R syscall.
Proof. apply within_bind; [apply within_next|]. intros []; (apply within_ret || apply within_throw). Qed.
(** A call that looks at the disk and then puts a store, or fails. *)
Lemma within_look {A : Type} (f : store -> io A) :
  (forall w, touches R w (f (fs w) w).2) -> within R (m ← gets fs; f m).
Proof. intros H w. apply H. Qed.
Lemma within_call {A : Type} (f : store -> io A) :
  (forall w, touches R w (f (fs w) w).2) -> within R (_ ← syscall; m ← gets fs; f m).
Proof. intros H. apply within_bind; [apply within_syscall|]. intros _. by apply within_look. Qed.
Ltac look := repeat (case_match; try reflexivity); apply put_touches; eauto using confined_insert, confined_delete.

Lemma within_mkdir full p : above R p \/ inside R p -> within R (mkdir_step full p).
Proof.
  intros Ha. apply within_look. intros w. destruct (is_dir (fs w) p); [reflexivity|].
  destruct (fs w !! p) eqn:E; [reflexivity|]. unfold mbind, M_bind.
  destruct (syscall w) as [r w1] eqn:Es. pose proof (within_syscall w) as Hs. rewrite Es in Hs. destruct r as [u|e]; [|exact Hs].
  destruct (syscall_cases w) as (w2 & Hf & _ & H). assert (fs w1 = fs w) as Hw by (destruct H as [H|[e H]]; congruence).
  etransitivity; [exact Hs|]. apply put_touches. rewrite Hw. by apply confined_mkdir.
Qed.
Lemma within_create_dir_all p : inside R p -> within R (create_dir_all p).
Proof.
  intros (r & Hr & Hp). apply within_mapM. intros x Hx. apply within_mkdir. apply prefixes_prefix in Hx. simpl in Hx.
  destruct (prefix_weak_total r x p) as [H|H]; [done|done|right; by exists r|left; by exists r].
Qed.
Lemma within_file_create p : inside R p -> within R (file_create p).
Proof. intros Hp. apply within_call. intros w. look. Qed.
Lemma within_append p b : inside R p -> within R (append_at p b).
Proof. intros Hp. apply within_look. intros w. look. Qed.
Lemma within_write_all p b : inside R p -> within R (write_all p b).
Proof.
  intros Hp. unfold write_all. generalize (length b). intros n. revert b.
  induction n as [|n IH]; intros [|x b]; cbn [write_all_fuel]; try apply within_ret; try apply within_throw.
  apply within_bind; [apply within_next|]. intros [|[|k]|e]; try apply within_throw.
  - by apply within_append.
  - apply within_bind; [by apply within_append|]. intros _. apply IH.
Qed.
Lemma within_fs_write p b : inside R p -> within R (fs_write p b).
Proof. intros Hp. apply within_bind; [by apply within_file_create|]. intros _. by apply within_write_all. Qed.
Lemma within_rename p q : inside R p -> inside R q -> within R (rename p q).
Proof.
  intros Hp Hq. apply within_call. intros w. repeat (case_match; try reflexivity). apply put_touches.
  etransitivity; [by apply (confined_delete _ p)|]. by apply confined_insert.
Qed.
Lemma within_remove_file p : inside R p -> within R (remove_file p).
Proof. intros Hp. apply within_call. intros w. look. Qed.
Lemma within_read_file p : within R (read_file p).
Proof. apply within_call. intros w. repeat (case_match; try reflexivity). Qed.
Lemma within_read_dir p : within R (read_dir p).
Proof. apply within_call. intros w. repeat (case_match; try reflexivity). Qed.
Lemma within_sync_dir p : within R (sync_dir p).
Proof.
  apply within_call. intros w. case_match; [apply within_syscall|reflexivity].
Qed.
End calls.
Create HintDb within.
#[export] Hint Resolve within_ret within_throw within_lift within_gets within_attempt within_with_err within_syscall
  within_create_dir_all within_file_create within_write_all within_fs_write within_rename within_remove_file
  within_read_file within_read_dir within_sync_dir : within.
(** Take a computation apart down to its calls. *)
Ltac stay :=
  repeat first
    [ solve [eauto with within]
    | lazymatch goal with
      | |- within _ (_ ≫= _) => apply within_bind; [|intros ?]
      | |- within _ (attempt _) => apply within_attempt
      | |- within _ (with_err _ _) => apply within_with_err
      | |- within _ (match ?x with _ => _ end) => destruct x
      end ].
End Confine.
