(* ===== verification/CareOf.v ===== *)
(** * Care-of addressing: [care_of.rs]

    The wallet-id checksum belongs to the [axiom_core_logic] crate:
    [validate_wallet_id] is a parameter, no law of it is needed. *)
From S2P Require Import Prelude Fs.

Module CareOf.

Record CareOf : Type := { inner : bytes; pickup : bytes; fingerprint : bytes }.
#[export] Instance CareOf_eq_dec : EqDecision CareOf.
Proof. solve_decision. Defined.

Definition AT : byte := "@"%char.
Definition SLASH : byte := "/"%char.

(** [addr.rfind('/')] cuts the tail off; [find('@')] twice finds the second
    at-sign of what precedes it. *)
Definition parse_care_of (addr : bytes) : option CareOf :=
  match rsplit_once SLASH addr with
  | None => None
  | Some (addressed, fp) =>
      match split_once AT addressed with
      | None => None
      | Some (user, rest) =>
          match split_once AT rest with
          | None => None
          | Some (host, pickup) =>
              if bool_decide (fp = []) || bool_decide (pickup = []) then None
              else Some {| inner := user ++ AT :: host; pickup := pickup; fingerprint := fp |}
          end
      end
  end.

Definition pickup_domain (pickup : bytes) : bytes :=
  match rsplit_once AT pickup with
  | Some (_, d) => to_ascii_lowercase d
  | None => to_ascii_lowercase pickup
  end.

Definition domain_byte (c : byte) : bool :=
  is_alnum c || bool_decide (c ∈ $".-[]:").
Definition domain_is_depositable (domain : bytes) : bool :=
  negb (bool_decide (domain = [])) && negb (contains $".." domain)
  && forallb domain_byte domain.

Inductive refusal : Type :=
  | NoDeliverableReceiver (address : option bytes) (wallet_id : bytes)
  | FingerprintMismatch (inner fingerprint : bytes)
  | BadChecksum (addr : bytes).
Inductive DeliveryPlan : Type :=
  | Email (e : bytes)
  | Deposit (domain inner : bytes)
  | Refuse (reason : refusal).

Section plan.
Context (validate_wallet_id : bytes -> bool).

Definition plan_receiver_delivery (receiver_address : option bytes)
  (receiver_wallet_id : bytes) (pickup_supported : bool) : DeliveryPlan :=
  let fallback :=
  match rsplit_once SLASH receiver_wallet_id with
  | Some (e, _) => Email e
  | None => Refuse (NoDeliverableReceiver receiver_address receiver_wallet_id)
  end in
  match receiver_address with
  | None => fallback
  | Some addr =>
    if negb (contains [SLASH] addr) then fallback
    else match parse_care_of addr with
    | Some co =>
        if negb (validate_wallet_id (inner co ++ [SLASH] ++ fingerprint co))
        then Refuse (FingerprintMismatch (inner co) (fingerprint co))
        else if pickup_supported && domain_is_depositable (pickup_domain (pickup co))
        then Deposit (pickup_domain (pickup co)) (inner co)
        else Email (inner co)
    | None =>
        if negb (validate_wallet_id addr) then Refuse (BadChecksum addr)
        else match rsplit_once SLASH addr with
             | Some (e, _) => Email e
             | None => Refuse (BadChecksum addr) (* unreachable *)
             end
    end
  end.
End plan.

(** [deposit_atomic] *)
Definition deposit_atomic (base : path) (domain filename b : bytes) : io path :=
  let dir := join base domain in
  let tmp_dir := join dir $"tmp" in
  let new_dir := join dir $"new" in
  _ ← create_dir_all tmp_dir;
  _ ← create_dir_all new_dir;
  let tmp := join tmp_dir filename in
  let dst := join new_dir filename in
  _ ← fs_write tmp b;
  _ ← rename tmp dst;
  mret dst.

(** ** Lemmas *)
Lemma parse_care_of_Some addr co :
  parse_care_of addr = Some co <->
  addr = inner co ++ [AT] ++ pickup co ++ [SLASH] ++ fingerprint co /\
  SLASH ∉ fingerprint co /\ fingerprint co <> [] /\ pickup co <> [] /\
  (exists u h, inner co = u ++ AT :: h /\ AT ∉ u /\ AT ∉ h).
Proof.
  unfold parse_care_of. split.
  - destruct (rsplit_once SLASH addr) as [[a fp]|] eqn:E1; [|discriminate].
    destruct (split_once AT a) as [[u r]|] eqn:E2; [|discriminate].
    destruct (split_once AT r) as [[h p]|] eqn:E3; [|discriminate].
    apply rsplit_once_Some in E1 as [-> N1]. apply split_once_Some in E2 as [-> N2].
    apply split_once_Some in E3 as [-> N3].
    case_bool_decide as F; [discriminate|]. case_bool_decide as P; [discriminate|].
    simpl. intros [= <-]. simpl. repeat split; auto.
    + rewrite <- !app_assoc. simpl. by rewrite <- ?app_assoc.
    + by exists u, h.
  - destruct co as [i p fp]. simpl. intros (-> & N & F & P & u & h & -> & Nu & Nh).
    rewrite (proj2 (rsplit_once_Some SLASH _ ((u ++ AT :: h) ++ [AT] ++ p) fp)).
    2:{ split; [|done]. by rewrite <- !app_assoc. }
    rewrite (proj2 (split_once_Some AT _ u (h ++ AT :: p))).
    2:{ split; [|done]. rewrite <- !app_assoc. simpl. by rewrite <- ?app_assoc. }
    rewrite (proj2 (split_once_Some AT _ h p)) by done.
    by rewrite !bool_decide_false.
Qed.

(** The care-of grammar is unambiguous.  Parsing succeeds exactly on the
    addresses printed as inner email, at-sign, pickup, slash, fingerprint, with
    an inner email of exactly one at-sign and the other two parts non-empty,
    and it returns those parts: printing and parsing are inverse. *)
Theorem parse_care_of_roundtrip i p fp :
  (exists u h, i = u ++ AT :: h /\ AT ∉ u /\ AT ∉ h) ->
  p <> [] -> fp <> [] -> SLASH ∉ fp ->
  parse_care_of (i ++ [AT] ++ p ++ [SLASH] ++ fp)
    = Some {| inner := i; pickup := p; fingerprint := fp |} /\
  (forall addr co, parse_care_of addr = Some co ->
     addr = inner co ++ [AT] ++ pickup co ++ [SLASH] ++ fingerprint co).
Proof.
  intros Hi Hp Hf Hs. split.
  - apply parse_care_of_Some. simpl. auto.
  - intros addr co H. by apply parse_care_of_Some in H as [-> _].
Qed.
Lemma parse_care_of_roundtrip_witness :
  parse_care_of $"wallet@example.com@user@fastlane.com/a3f7b232"
  = Some {| inner := $"wallet@example.com"; pickup := $"user@fastlane.com";
            fingerprint := $"a3f7b232" |}.
Proof.
  refine (proj1 (parse_care_of_roundtrip $"wallet@example.com" $"user@fastlane.com" $"a3f7b232" _ _ _ _)).
  - exists $"wallet", $"example.com".
    split; [reflexivity|]. split; apply (bool_decide_unpack _); vm_compute; exact I.
  - discriminate.
  - discriminate.
  - apply (bool_decide_unpack _). vm_compute. exact I.
Defined.

(** C6: verify before deliver.  Whatever override address a sender supplies,
    nothing is delivered anywhere unless the wallet-id checksum holds for the
    very inner email that receives it and the fingerprint the override carries;
    a deposit moreover needs the operator's pickup and a clean domain; and an
    override that verifies is never refused. *)
Theorem plan_delivers_verified_only validate addr wid supported :
  contains [SLASH] addr = true ->
  match plan_receiver_delivery validate (Some addr) wid supported with
  | Email e =>
      exists fp, validate (e ++ [SLASH] ++ fp) = true /\ SLASH ∉ fp /\
        (addr = e ++ [SLASH] ++ fp \/
         exists p, addr = e ++ [AT] ++ p ++ [SLASH] ++ fp)
  | Deposit d e =>
      exists p fp, validate (e ++ [SLASH] ++ fp) = true /\ SLASH ∉ fp /\
        addr = e ++ [AT] ++ p ++ [SLASH] ++ fp /\
        supported = true /\ d = pickup_domain p /\ domain_is_depositable d = true
  | Refuse _ =>
      match parse_care_of addr with
      | Some co => validate (inner co ++ [SLASH] ++ fingerprint co) = false
      | None => validate addr = false
      end
  end.
Proof.
  intros Hs. unfold plan_receiver_delivery. rewrite Hs. simpl negb. cbv iota.
  destruct (parse_care_of addr) as [co|] eqn:E.
  - apply parse_care_of_Some in E as (-> & N & _ & _ & _).
    destruct (validate _) eqn:V; simpl; [|done].
    destruct supported; simpl; [destruct (domain_is_depositable _) eqn:D|].
    + exists (pickup co), (fingerprint co). auto 10.
    + exists (fingerprint co). eauto.
    + exists (fingerprint co). eauto.
  - destruct (validate addr) eqn:V; simpl; [|done].
    destruct (rsplit_once SLASH addr) as [[e fp]|] eqn:R.
    + apply rsplit_once_Some in R as [-> N]. exists fp. auto.
    + exfalso. apply contains_single, list_elem_of_split_r in Hs as (l & r & -> & Nr).
      rewrite (proj2 (rsplit_once_Some SLASH _ l r)) in R; done.
Qed.
Lemma plan_delivers_verified_only_witness :
  let v b := bool_decide (b = $"w@example.com/a3f7") in
  plan_receiver_delivery v (Some $"w@example.com@u@Fast.com/a3f7") $"x@y/z" true
    = Deposit $"fast.com" $"w@example.com" /\
  exists p fp, v ($"w@example.com" ++ [SLASH] ++ fp) = true /\ SLASH ∉ fp /\
    $"w@example.com@u@Fast.com/a3f7" = $"w@example.com" ++ [AT] ++ p ++ [SLASH] ++ fp /\
    true = true /\ $"fast.com" = pickup_domain p /\ domain_is_depositable $"fast.com" = true.
Proof.
  intros v.
  assert (plan_receiver_delivery v (Some $"w@example.com@u@Fast.com/a3f7") $"x@y/z" true
    = Deposit $"fast.com" $"w@example.com") as E by (vm_compute; reflexivity).
  split; [exact E|].
  pose proof (plan_delivers_verified_only v $"w@example.com@u@Fast.com/a3f7" $"x@y/z" true eq_refl) as H.
  rewrite E in H. exact H.
Defined.
End CareOf.
