(* ===== verification/Sinks.v ===== *)
(** * ANTIE's file deliveries: [custody.rs], [uncle_sink.rs], [skip_list.rs],
    [maildir.rs]

    Each writes a private temporary file and renames it into a directory another
    process reads; each is an instance of [AtomicPublish] (Fs). *)
From S2P Require Import Prelude Utf8 Fs TotServer TotSession Errors CareOf.
Import Errors.

(** ** Custody deposits *)
Module Custody.

Definition unsafe_name (name : bytes) : bool :=
  bool_decide (name = []) || contains [CareOf.SLASH] name || contains [BSLASH] name
  || contains $".." name.
Definition err_unsafe (name : bytes) : io_error :=
  IoErr InvalidInput ($"custody: refusing unsafe deposit name " ++ name).

(** The file is tokio's, written through a buffer: an error of the write may be
    reported by the sync.  Either way the call fails before the rename, and what the
    private temporary file then holds is nobody's concern. *)
Definition deposit (dir : path) (name b : bytes) : io path :=
  if unsafe_name name then throw (err_unsafe name)
  else
    let tmp_dir := join dir $"tmp" in
    _ ← create_dir_all tmp_dir;
    let tmp_path := join tmp_dir name in
    let final_path := join dir name in
    _ ← file_create tmp_path;
    _ ← write_all tmp_path b;
    _ ← sync_all;
    _ ← rename tmp_path final_path;
    _ ← attempt (E := io_error) (sync_dir dir);
    mret final_path.
End Custody.

(** ** The UNCLE tee *)
Module UncleSink.

Record UncleSink : Type := { outbox_path : path }.

Definition new (outbox : path) : io UncleSink :=
  _ ← create_dir_all outbox; mret {| outbox_path := outbox |}.

(** [nanos]: nanoseconds since the epoch, zero before it. *)
Definition tee_tmp (s : UncleSink) (pid nanos : N) : path :=
  join (outbox_path s) ($".uncle_tee.tmp." ++ show_N pid ++ $"." ++ show_N nanos).
Definition tee_dest (s : UncleSink) (txid : bytes) : path :=
  join (outbox_path s) (hex_encode txid ++ $".cbor").

(** Errors are swallowed: [None]. *)
Definition tee (s : UncleSink) (pid nanos : N) (txid b : bytes) : io (option path) :=
  let dest := tee_dest s txid in
  let tmp := tee_tmp s pid nanos in
  r ← attempt (fs_write tmp b);
  match r with
  | Err _ => mret None
  | Ok _ =>
      r ← attempt (rename tmp dest);
      match r with
      | Ok _ => mret (Some dest)
      | Err _ => _ ← attempt (E := io_error) (remove_file tmp); mret None
      end
  end.
End UncleSink.

(** ** The skip list *)
Module SkipList.
Section skip_list.
Context `{EC : ErrorsCrate}.

Record SkipList : Type := {
  skip_list_path : path;
  skipped_dir : path;
  entries : gset bytes;
}.

Definition listed (line : bytes) : option bytes :=
  let t := trim line in
  if bool_decide (t = []) || starts_with $"#" t then None else Some t.
(** [load_entries] of a file's text. *)
Definition parse_entries (content : bytes) : gset bytes :=
  list_to_set (omap listed (lines content)).
(** [read_to_string] fails on invalid UTF-8 as well; every failure is the
    empty list. *)
Definition load_entries (p : path) : M world AntieError (gset bytes) :=
  r ← attempt (E := io_error) (read_file p);
  mret (match r with
      | Ok s => if is_utf8 s then parse_entries s else ∅
      | Err _ => ∅
      end).

Definition maybe_open (list_path dir_path : option bytes)
  : M world AntieError (option SkipList) :=
  match list_path, dir_path with
  | Some slp, Some sdp =>
    let skip_list_path := parse_path slp in
    let skipped_dir := parse_path sdp in
    _ ← with_err (fun e => ConfigError ($"create skipped_dir " ++ sdp ++ $": " ++ io_msg e))
          (create_dir_all skipped_dir);
    es ← load_entries skip_list_path;
    mret (Some {| skip_list_path := skip_list_path; skipped_dir := skipped_dir;
                  entries := es |})
  | _, _ => mret None
  end.

Definition reload (l : SkipList) : M world AntieError (nat * SkipList) :=
  es ← load_entries (skip_list_path l);
  mret (size es, {| skip_list_path := skip_list_path l; skipped_dir := skipped_dir l;
                  entries := es |}).

(** The task of [install_sighup_handler]: a reload per signal, whose error is only
    logged.  Each signal comes with what the machine did before it. *)
Fixpoint sighup_task (l : SkipList) (signals : list (world -> world)) : M world AntieError SkipList :=
  match signals with
  | [] => mret l
  | before :: signals' =>
      _ ← modify before;
      r ← attempt (E := AntieError) (reload l);
      sighup_task (match r with Ok (_, l') => l' | Err _ => l end) signals'
  end.
Definition install_sighup_handler (signal : result io_error unit) (l : SkipList)
    (signals : list (world -> world)) : M world AntieError SkipList :=
  match signal with
  | Err _ => mret l
  | Ok _ => sighup_task l signals
  end.

Definition contains (l : SkipList) (receiver_wallet_id : bytes) : bool :=
  bool_decide (receiver_wallet_id ∈ entries l).

Definition skipped_tmp (l : SkipList) (filename_hint : bytes) : path :=
  join (skipped_dir l) ($".tmp." ++ filename_hint).
Definition skipped_dest (l : SkipList) (filename_hint : bytes) : path :=
  join (skipped_dir l) filename_hint.

Definition write_skipped (l : SkipList) (filename_hint content : bytes)
  : M world AntieError path :=
  let tmp := skipped_tmp l filename_hint in
  let dest := skipped_dest l filename_hint in
  _ ← with_err (fun e => MaildirError ($"write skipped tmp " ++ io_msg e)) (fs_write tmp content);
  r ← attempt (rename tmp dest);
  match r with
  | Err e =>
    _ ← attempt (E := io_error) (remove_file tmp);
    throw (MaildirError ($"rename " ++ io_msg (e : io_error)))
  | Ok _ => mret dest
  end.

(** [skipped_dir_count]: entries other than ANTIE's own temporary files; names
    that are not UTF-8 do not count. *)
Definition counted (name : bytes) : bool := is_utf8 name && negb (starts_with $".tmp." name).
Definition skipped_dir_count (l : SkipList) : M world AntieError nat :=
  r ← attempt (E := io_error) (read_dir (skipped_dir l));
  mret (match r with
      | Ok names => length (List.filter counted names)
      | Err _ => O
      end).
End skip_list.
Arguments SkipList : clear implicits.
End SkipList.

(** ** Maildirs *)
Module Maildir.
Section maildir.
Context `{EC : ErrorsCrate}.

Record Maildir : Type := { base : path; new_dir : path; cur_dir : path; tmp_dir : path }.

Definition open (p : path) : M world AntieError Maildir :=
  let md := {| base := p; new_dir := join p $"new"; cur_dir := join p $"cur";
             tmp_dir := join p $"tmp" |} in
  _ ← lift_io (create_dir_all (new_dir md));
  _ ← lift_io (create_dir_all (cur_dir md));
  _ ← lift_io (create_dir_all (tmp_dir md));
  mret md.

(** [is_file] is asked of every entry as it is listed. *)
Definition list_new (md : Maildir) : M world AntieError (list path) :=
  names ← lift_io (read_dir (new_dir md));
  m ← gets fs;
  mret (filter (fun p => is_file m p = true) (map (fun n => new_dir md ++ [n]) names)).

Definition read_message (p : path) : M world AntieError bytes := lift_io (read_file p).

Definition mark_processed (md : Maildir) (p : path) : M world AntieError path :=
  match file_name p with
  | None => throw (MaildirError $"Invalid filename")
  | Some filename =>
    let dest := join (cur_dir md) (from_utf8_lossy filename ++ $":2,S") in
    _ ← lift_io (rename p dest);
    mret dest
  end.

(** [uuid] is a fresh v4 UUID, [timestamp] microseconds since the epoch. *)
Definition message_name (timestamp pid : N) (uuid : bytes) : bytes :=
  show_N timestamp ++ $"." ++ show_N pid ++ $".localhost." ++ uuid.
Definition write_message (md : Maildir) (timestamp pid : N) (uuid content : bytes)
  : M world AntieError path :=
  let filename := message_name timestamp pid uuid in
  let tmp_path := join (tmp_dir md) filename in
  _ ← lift_io (fs_write tmp_path content);
  let new_path := join (new_dir md) filename in
  _ ← lift_io (rename tmp_path new_path);
  mret new_path.
End maildir.
End Maildir.
