(* ===== verification/SinkTheorems.v ===== *)
(** * Theorems about ANTIE's file deliveries *)
From S2P Require Import Prelude Utf8 Fs TotServer TotSession Errors CareOf Sinks.
Import Errors.

Module SinkTheorems.
Section sinks.
Context `{EC : ErrorsCrate}.

(** ** Every delivery is an atomic publication *)
#[export] Instance custody_atomic dir name b :
  AtomicPublish (Custody.deposit dir name b) (join (join dir $"tmp") name) (join dir name) b.
Proof.
  constructor. intros s0. apply pub_start. unfold Custody.deposit.
  destruct (Custody.unsafe_name name); [apply pub_throw|]. cbv zeta. repeat pub_next.
Qed.
#[export] Instance care_of_atomic base domain filename b :
  AtomicPublish (CareOf.deposit_atomic base domain filename b)
  (join (join (join base domain) $"tmp") filename)
  (join (join (join base domain) $"new") filename) b.
Proof.
  constructor. intros s0. apply pub_start. unfold CareOf.deposit_atomic. cbv zeta.
  repeat pub_next.
Qed.
#[export] Instance skipped_atomic l name b :
  AtomicPublish (SkipList.write_skipped l name b)
  (SkipList.skipped_tmp l name) (SkipList.skipped_dest l name) b.
Proof.
  constructor. intros s0. apply pub_start. unfold SkipList.write_skipped. cbv zeta.
  repeat pub_next.
Qed.
#[export] Instance maildir_atomic md ts pid uuid b :
  AtomicPublish (Maildir.write_message md ts pid uuid b)
  (join (Maildir.tmp_dir md) (Maildir.message_name ts pid uuid))
  (join (Maildir.new_dir md) (Maildir.message_name ts pid uuid)) b.
Proof.
  constructor. intros s0. apply pub_start. unfold Maildir.write_message, lift_io. cbv zeta.
  repeat pub_next.
Qed.

(** The tee never fails, so its success is [Some]. *)
Definition teed (s : UncleSink.UncleSink) (pid nanos : N) (txid b : bytes) : io path :=
  r ← UncleSink.tee s pid nanos txid b;
  match r with Some p => mret p | None => throw err_not_found end.
#[export] Instance tee_atomic s pid nanos txid b :
  AtomicPublish (teed s pid nanos txid b)
  (UncleSink.tee_tmp s pid nanos) (UncleSink.tee_dest s txid) b.
Proof.
  constructor. intros s0. apply pub_start. unfold teed.
  set (t := UncleSink.tee_tmp s pid nanos). set (d := UncleSink.tee_dest s txid).
  apply triple_bind with (fun r st => published s0 t d b st /\
    (r <> None -> st !! d = Some (File b))).
  - unfold UncleSink.tee. fold t d. cbv zeta.
    apply triple_bind with (fun r st => published s0 t d b st /\
      (is_ok r = true -> st !! t = Some (File b))).
    { apply triple_attempt. eapply triple_conseq, (step_fs_write s0 t d b); auto. }
    intros [[]|e]; [|by apply triple_ret; intros st [? _]].
    apply triple_bind with (fun r st => published s0 t d b st /\
      (is_ok r = true -> st !! d = Some (File b))).
    { apply triple_attempt. eapply triple_conseq, (step_rename s0 t d b); [|auto].
      intros st [? H]. auto. }
    intros [[]|e]; [by apply triple_ret; intros st [? H]; simpl; auto|].
    apply triple_bind with (fun _ => published s0 t d b).
    + apply triple_attempt. eapply triple_conseq, (remove_tmp_keeps s0 t d b).
      * by intros st [? _].
      * intros r st H. exact H.
    + intros _. by apply triple_ret.
  - intros [p|].
    + apply triple_ret. intros st [? H]. split; [done|]. intros _. by apply H.
    + apply triple_throw. intros st [? _]. by split.
Qed.

(** What the readers of a delivery directory are promised. *)
Definition never_partial {E A : Type} (op : M world E A) (tmp dst : path) (b : bytes) : Prop :=
  forall w,
  (forall s q c, s ∈ hist (op w).2 -> q <> tmp -> s !! q = Some (File c) ->
     s ∈ hist w \/ fs w !! q = Some (File c) \/ (q = dst /\ c = b)) /\
  (is_ok (op w).1 = true -> fs (op w).2 !! dst = Some (File b)).
Lemma atomic_never_partial {E A : Type} (op : M world E A) tmp dst b :
  AtomicPublish op tmp dst b -> never_partial op tmp dst b.
Proof.
  intros H w. split.
  - intros s q c. by apply (publish_reader op tmp dst b w).
  - by apply (publish_done op tmp dst b w).
Qed.

(** C21: no reader of ANTIE's directories ever sees a half-written file.  For a
    custody deposit, a care-of deposit, a skip-listed cheque, a maildir message
    and an UNCLE copy alike, with any names and any failing or short system
    call: at each moment every file but the private temporary one is either as
    it was or the complete destination, and success means it is there. *)
Theorem antie_deliveries_never_partial :
  (forall dir name b,
   never_partial (Custody.deposit dir name b) (join (join dir $"tmp") name) (join dir name) b) /\
  (forall base domain name b,
   never_partial (CareOf.deposit_atomic base domain name b)
     (join (join (join base domain) $"tmp") name) (join (join (join base domain) $"new") name) b) /\
  (forall l name b,
   never_partial (SkipList.write_skipped l name b)
     (SkipList.skipped_tmp l name) (SkipList.skipped_dest l name) b) /\
  (forall md ts pid uuid b,
   never_partial (Maildir.write_message md ts pid uuid b)
     (join (Maildir.tmp_dir md) (Maildir.message_name ts pid uuid))
     (join (Maildir.new_dir md) (Maildir.message_name ts pid uuid)) b) /\
  (forall s pid nanos txid b,
   never_partial (teed s pid nanos txid b)
     (UncleSink.tee_tmp s pid nanos) (UncleSink.tee_dest s txid) b).
Proof. repeat split; intros; by eapply atomic_never_partial; eauto with typeclass_instances. Qed.

(** ** The skip list after a signal *)
Section sighup.
Import SkipList.
(** What a read that gave [r] makes of the list. *)
Definition read_entries (r : result io_error bytes) : gset bytes :=
  match r with Ok s => if is_utf8 s then parse_entries s else ∅ | Err _ => ∅ end.
Lemma reload_run l w : reload l w =
  (let r := read_file (skip_list_path l) w in
   let es := read_entries r.1 in
   (Ok (size es, {| skip_list_path := skip_list_path l; skipped_dir := skipped_dir l; entries := es |}), r.2)).
Proof.
  unfold reload, load_entries, mbind, M_bind, attempt. by destruct (read_file (skip_list_path l) w) as [[s|e] w1].
Qed.
Lemma sighup_task_total signals : forall l w, exists l' w',
  sighup_task l signals w = (Ok l', w') /\ skip_list_path l' = skip_list_path l /\ skipped_dir l' = skipped_dir l.
Proof.
  induction signals as [|f fs IH]; intros l w; cbn [sighup_task]; [by exists l, w|].
  unfold mbind, M_bind, modify, attempt at 1. rewrite reload_run. cbv zeta.
  destruct (IH {| skip_list_path := skip_list_path l; skipped_dir := skipped_dir l;
                  entries := read_entries (read_file (skip_list_path l) (f w)).1 |}
               (read_file (skip_list_path l) (f w)).2) as (l' & w' & E & H1 & H2). by exists l', w'.
Qed.
Lemma sighup_task_app s1 : forall s2 l w,
  sighup_task l (s1 ++ s2) w = (l' ← sighup_task l s1; sighup_task l' s2) w.
Proof.
  induction s1 as [|f s1 IH]; intros s2 l w; [done|]. cbn [app sighup_task].
  unfold mbind, M_bind, modify, attempt. rewrite reload_run. cbv zeta beta iota. by rewrite IH.
Qed.
(** However many signals came before, and whatever the list was: after a signal
    the list is what the file is at that moment, the paths are the configured
    ones, and the task has not died.  A file that cannot be read then, or is no
    UTF-8, is an empty list: nothing is diverted until the next signal. *)
Theorem sighup_reads_last l signals f w :
  exists l0 w0 l' w',
    install_sighup_handler (Ok tt) l signals w = (Ok l0, w0) /\
    install_sighup_handler (Ok tt) l (signals ++ [f]) w = (Ok l', w') /\
    skip_list_path l' = skip_list_path l /\ skipped_dir l' = skipped_dir l /\
    entries l' = read_entries (read_file (skip_list_path l) (f w0)).1 /\
    (is_ok (read_file (skip_list_path l) (f w0)).1 = false -> forall r, contains l' r = false).
Proof.
  destruct (sighup_task_total signals l w) as (l0 & w0 & E & Hp & Hd). exists l0, w0.
  set (r := read_file (skip_list_path l) (f w0)).
  exists {| skip_list_path := skip_list_path l; skipped_dir := skipped_dir l; entries := read_entries r.1 |}, r.2.
  split; [exact E|]. split.
  - cbn [install_sighup_handler]. rewrite sighup_task_app. unfold mbind at 1, M_bind at 1. rewrite E.
    cbn [sighup_task]. unfold mbind, M_bind, modify, attempt. rewrite reload_run. cbv zeta. by rewrite Hp, Hd.
  - repeat split. cbn [entries]. destruct r.1; [done|]. intros _ rid. unfold contains. cbn.
    apply bool_decide_eq_false. set_solver.
Qed.
End sighup.

(** ** A failed delivery leaves no file but the private one *)
Lemma deposit_atomic_failed base domain name b w :
  is_ok (CareOf.deposit_atomic base domain name b w).1 = false ->
  files_kept (join (join (join base domain) $"tmp") name) (fs w) (fs (CareOf.deposit_atomic base domain name b w).2).
Proof.
  set (tmp := join _ name). intros H.
  assert (triple (fun _ => True) (published (fs w) tmp tmp b) (CareOf.deposit_atomic base domain name b)
    (fun r s => is_ok r = false -> published (fs w) tmp tmp b s)) as T.
  { unfold CareOf.deposit_atomic. fold tmp. cbv zeta.
    apply prepares_bind; [apply prepares_mkdir|by intros|intros _].
    apply prepares_bind; [apply prepares_mkdir|by intros|intros _].
    apply prepares_bind; [apply prepares_write|by intros|intros _].
    apply triple_bind with (fun _ _ => True).
    - eapply triple_conseq, rename_fails; [by intros ? ?|]. intros [[]|e] s Hs; simpl; auto.
    - intros _. by apply triple_ret. }
  destruct (T w (published_refl _ _ _ _)) as [_ Q]. by eapply published_nothing, Q.
Qed.
Lemma write_skipped_failed l name b w :
  is_ok (SkipList.write_skipped l name b w).1 = false ->
  files_kept (SkipList.skipped_tmp l name) (fs w) (fs (SkipList.write_skipped l name b w).2).
Proof.
  set (tmp := SkipList.skipped_tmp l name). intros H.
  assert (triple (fun _ => True) (published (fs w) tmp tmp b) (SkipList.write_skipped l name b)
    (fun r s => is_ok r = false -> published (fs w) tmp tmp b s)) as T.
  { unfold SkipList.write_skipped. fold tmp. cbv zeta.
    apply prepares_bind; [apply prepares_err, prepares_write|by intros|intros _].
    apply triple_bind with (fun r s => is_ok r = false -> published (fs w) tmp tmp b s).
    - by apply triple_attempt, rename_fails.
    - intros [[]|e]; [by apply triple_ret|].
      apply triple_bind with (fun _ => published (fs w) tmp tmp b); [|intros _; by apply triple_throw].
      apply triple_attempt. eapply triple_conseq, prepares_remove; [|by intros []]. intros s Hs. by apply Hs. }
  destruct (T w (published_refl _ _ _ _)) as [_ Q]. by eapply published_nothing, Q.
Qed.

(** ** Custody deposits stay in their session *)
Lemma safe_name_plain name :
  Custody.unsafe_name name = false -> name <> $"." -> plain_name name = true.
Proof.
  unfold Custody.unsafe_name. rewrite !orb_false_iff, bool_decide_eq_false.
  intros [[[N S] _] D] P. apply bool_decide_eq_true. repeat split; try done.
  - intros H. apply contains_single in H. unfold CareOf.SLASH in S. congruence.
  - intros ->. vm_compute in D. discriminate.
Qed.

(** What a deposit does, whatever happens: it refuses an unsafe name untouched;
    otherwise it changes no file outside the directory. *)
Definition deposits (dir : path) (name b : bytes) (w w' : world) (r : result io_error path) : Prop :=
  (Custody.unsafe_name name = true -> r = Err (Custody.err_unsafe name) /\ w' = w) /\
  (forall s q c, s ∈ hist w' -> ~ (dir `prefix_of` q) -> s !! q = Some (File c) ->
   s ∈ hist w \/ fs w !! q = Some (File c)) /\
  (forall p, r = Ok p -> p = dir ++ [name] /\ fs w' !! p = Some (File b)).
Lemma deposit_deposits dir name b w :
  name <> $"." ->
  deposits dir name b w (Custody.deposit dir name b w).2 (Custody.deposit dir name b w).1.
Proof.
  intros Hdot. unfold deposits. set (w' := (Custody.deposit dir name b w).2). destruct (Custody.unsafe_name name) eqn:U.
  { assert (Custody.deposit dir name b w = (Err (Custody.err_unsafe name), w)) as E.
    { unfold Custody.deposit. by rewrite U. }
    unfold w'. rewrite E. simpl. repeat split; auto; discriminate. }
  pose proof (safe_name_plain name U Hdot) as Hp.
  assert (join dir name = dir ++ [name]) as Hj by auto with carriers.
  assert (join (join dir $"tmp") name = dir ++ [$"tmp"; name]) as Hj2.
  { rewrite (join_plain dir $"tmp") by done. rewrite join_plain by done.
    by rewrite <- app_assoc. }
  destruct (atomic_never_partial _ _ _ _ (custody_atomic dir name b) w) as [Hr Hd].
  rewrite Hj in *. rewrite Hj2 in *. split; [discriminate|]. split.
  - intros s q c Hs Hq Hc. destruct (Hr s q c Hs) as [?|[?|[-> _]]]; auto.
    + intros ->. apply Hq. by exists [$"tmp"; name].
    + exfalso. apply Hq. by exists [name].
  - intros p Hok. assert (p = dir ++ [name]) as ->.
    { unfold Custody.deposit in Hok. rewrite U in Hok. cbv zeta in Hok. rewrite Hj in Hok.
      revert Hok. unfold mbind, M_bind, mret, M_ret.
      repeat case_match; simpl; congruence. }
    split; [done|]. apply Hd. by rewrite Hok.
Qed.

(** Between two states of the disk no file outside [S] is written, whole or in
    part, at any moment, and in the end all of them are what they were. *)
Definition only_files (S : path -> Prop) (d d' : world) : Prop :=
  (forall s q c, s ∈ hist d' -> ~ S q -> s !! q = Some (File c) -> s ∈ hist d \/ fs d !! q = Some (File c)) /\
  (forall q c, ~ S q -> fs d' !! q = Some (File c) <-> fs d !! q = Some (File c)).
Lemma only_files_refl S d : only_files S d d.
Proof. split; auto. Qed.
Lemma only_files_more (S S' : path -> Prop) d d' : (forall q, S q -> S' q) -> only_files S d d' -> only_files S' d d'.
Proof. intros H [H1 F1]. split; [intros s q c ? ? ?; eapply H1|intros q c ?; apply F1]; eauto. Qed.
Lemma atomic_only_files {E A : Type} (op : M world E A) tmp dst b (S : path -> Prop) w :
  AtomicPublish op tmp dst b -> S tmp -> S dst -> only_files S w (op w).2.
Proof.
  intros H Ht Hd. split.
  - intros s q c Hs Hq Hc. destruct (publish_reader op tmp dst b w s q c Hs) as [?|[?|[-> _]]]; auto; [by intros ->|done].
  - intros q c Hq. split; [|apply (publish_frame op tmp dst b); by intros ->].
    destruct (publish_triple (fs w) w eq_refl) as (_ & P & _). intros Hc.
    destruct (P q ltac:(by intros ->)) as [E'|[[-> _]|[_ E']]]; [congruence|done|congruence].
Qed.
Lemma deposit_only_files dir name b w :
  name <> $"." -> only_files (prefix dir) w (Custody.deposit dir name b w).2.
Proof.
  intros Hdot. destruct (Custody.unsafe_name name) eqn:U.
  { replace (Custody.deposit dir name b w).2 with w; [apply only_files_refl|]. unfold Custody.deposit. by rewrite U. }
  pose proof (safe_name_plain name U Hdot) as Hp.
  apply (atomic_only_files _ _ _ _ _ _ (custody_atomic dir name b)).
  - rewrite (join_plain dir $"tmp"), join_plain, <- app_assoc by done. by eexists.
  - rewrite join_plain by done. by eexists.
Qed.
Lemma tee_only_files s pid nanos txid b w :
  only_files (fun q => q = UncleSink.tee_tmp s pid nanos \/ q = UncleSink.tee_dest s txid) w
    (UncleSink.tee s pid nanos txid b w).2.
Proof.
  replace (UncleSink.tee s pid nanos txid b w).2 with (teed s pid nanos txid b w).2.
  - apply (atomic_only_files _ _ _ _ _ _ (tee_atomic s pid nanos txid b)); auto.
  - unfold teed, mbind, M_bind. by destruct (UncleSink.tee _ _ _ _ _ w) as [[[?|]|?] ?].
Qed.

(** A reply cannot be steered out of its session.  Whatever request id the
    client chose, the deposit of a reply either refuses the name before touching
    the disk, or changes no file outside the session directory at any moment,
    and on success the reply stands directly in it under that name.  (Every
    caller appends ".cbor", so the name is never a lone dot.) *)
Theorem custody_deposit_confined dir name b w :
  name <> $"." ->
  let w' := (Custody.deposit dir name b w).2 in
  (Custody.unsafe_name name = true ->
   Custody.deposit dir name b w = (Err (Custody.err_unsafe name), w)) /\
  (forall s q c, s ∈ hist w' -> ~ (dir `prefix_of` q) -> s !! q = Some (File c) ->
   s ∈ hist w \/ fs w !! q = Some (File c)) /\
  (forall p, (Custody.deposit dir name b w).1 = Ok p ->
   p = dir ++ [name] /\ fs w' !! p = Some (File b)).
Proof.
  intros Hdot w'. destruct (deposit_deposits dir name b w Hdot) as (Hu & Ho & Hd).
  split; [|by split]. intros U. destruct (Hu U) as [E E']. by rewrite (surjective_pairing (Custody.deposit dir name b w)), E, E'.
Qed.
End sinks.

Lemma custody_deposit_confined_witness :
  let w := {| fs := {[ [$"out"] := Dir ]}; oracle := [Go; Go; Go; Short 1]; hist := [];
              listing := fun l => l |} in
  let r := Custody.deposit [$"out"; $"ab12"] $"r1.cbor" $"reply" w in
  fs r.2 !! [$"out"; $"ab12"; $"r1.cbor"] = Some (File $"reply").
Proof.
  intros w r.
  assert (r.1 = Ok [$"out"; $"ab12"; $"r1.cbor"]) as E by (vm_compute; reflexivity).
  refine (proj2 (proj2 (proj2 (custody_deposit_confined [$"out"; $"ab12"] $"r1.cbor" $"reply" w _))
                   _ E)).
  discriminate.
Defined.

(** ** Deposits on a healthy disk *)
Definition put (m : store) (w : world) : world := set_fs m w.
Lemma file_create_ok p w :
  oracle w = [] -> is_dir (fs w) p = false -> is_dir (fs w) (parent p) = true ->
  file_create p w = (Ok tt, put (<[p := File []]> (fs w)) w).
Proof.
  intros Ho H1 H2. unfold file_create, syscall, next_outcome, mbind, M_bind, gets.
  rewrite Ho. simpl. by rewrite H1, H2.
Qed.
Lemma write_all_ok p b w :
  oracle w = [] -> fs w !! p = Some (File []) ->
  exists w', write_all p b w = (Ok tt, w') /\ oracle w' = [] /\
    fs w' = <[p := File b]> (fs w).
Proof.
  intros Ho H. unfold write_all. destruct b as [|x b].
  - exists w. simpl. by rewrite insert_id.
  - exists (put (<[p := File (x :: b)]> (fs w)) w). cbn [write_all_fuel length].
    unfold next_outcome, mbind, M_bind. rewrite Ho. unfold append_at, mbind, M_bind, gets.
    by rewrite H.
Qed.
Lemma rename_ok p q c w :
  oracle w = [] -> fs w !! p = Some (File c) -> is_dir (fs w) q = false ->
  is_dir (fs w) (parent q) = true ->
  rename p q w = (Ok tt, put (<[q := File c]> (delete p (fs w))) w).
Proof.
  intros Ho H1 H2 H3. unfold rename, syscall, next_outcome, mbind, M_bind, gets.
  rewrite Ho. simpl. by rewrite H1, H2, H3.
Qed.
Lemma sync_dir_attempt_fs p w r w' :
  attempt (F := io_error) (sync_dir p) w = (r, w') -> is_ok r = true /\ fs w' = fs w.
Proof.
  unfold attempt. destruct (triple_sync_dir (fun _ => True) (fun s => s = fs w) p
    (fun _ s => s = fs w)) with (w := w) as [_ H]; [auto|done|].
  destruct (sync_dir p w) as [r1 w1]. by intros [= <- <-].
Qed.
Lemma is_dir_some (s : store) p : s !! p = Some Dir -> is_dir s p = true.
Proof. intros H. apply bool_decide_eq_true. by right. Qed.
Lemma not_is_dir (s : store) p : p <> [] -> s !! p <> Some Dir -> is_dir s p = false.
Proof. intros N H. apply bool_decide_eq_false. tauto. Qed.
Lemma parent_snoc (p : path) n : parent (p ++ [n]) = p.
Proof. apply removelast_last. Qed.

(** A deposit whose staging directory is there, on a disk that does not fail. *)
Section deposited.
Context (dir : path) (name b : bytes).
Context (U : Custody.unsafe_name name = false) (Hdot : name <> $".") (Ht : name <> $"tmp") (Hd : dir <> []).
Abbreviation tmpd := (dir ++ [$"tmp"]).
Abbreviation tp := (dir ++ [$"tmp"; name]).
Abbreviation fp := (dir ++ [name]).
Lemma deposit_paths : fp <> tp /\ fp <> tmpd /\ dir <> tp /\ dir <> fp /\ tp <> [] /\ fp <> [].
Proof using Ht Hd.
  clear U Hdot. repeat split; intros E; apply (f_equal length) in E as L; rewrite ?length_app in L; simpl in L; try lia.
  apply app_inv_head in E. congruence.
Qed.
Lemma deposit_runs w w1 :
  create_dir_all tmpd w = (Ok tt, w1) -> oracle w1 = [] -> fs w1 !! dir = Some Dir -> fs w1 !! tmpd = Some Dir ->
  fs w1 !! tp <> Some Dir -> fs w1 !! fp <> Some Dir ->
  exists w', Custody.deposit dir name b w = (Ok fp, w') /\
    fs w' = <[fp := File b]> (delete tp (<[tp := File b]> (fs w1))).
Proof.
  intros E1 Ho1 Hdir Htmp Etp Efp. pose proof (safe_name_plain name U Hdot) as Hp.
  destruct deposit_paths as (N1 & N2 & N3 & N4 & Ntp & Nfp).
  assert (tmpd ++ [name] = tp) as Etp' by (by rewrite <- app_assoc).
  unfold Custody.deposit. rewrite U. cbv zeta. rewrite (join_plain dir $"tmp"), (join_plain dir name), (join_plain _ name) by done.
  rewrite Etp'. unfold mbind, M_bind. rewrite E1.
  rewrite file_create_ok; [|done|by apply not_is_dir|].
  2:{ rewrite <- Etp', parent_snoc. by apply is_dir_some. }
  destruct (write_all_ok tp b (put (<[tp:=File []]> (fs w1)) w1)) as (w2 & E2 & Ho2 & Hf2);
    [done|by simpl; rewrite lookup_insert_eq|].
  rewrite E2. simpl in Hf2. rewrite insert_insert_eq in Hf2.
  unfold sync_all, syscall, next_outcome, mbind, M_bind. rewrite Ho2. simpl.
  rewrite (rename_ok tp fp b).
  2:{ done. } 2:{ by rewrite Hf2, lookup_insert_eq. }
  2:{ apply not_is_dir; [done|]. by rewrite Hf2, lookup_insert_ne. }
  2:{ rewrite parent_snoc. apply is_dir_some. by rewrite Hf2, lookup_insert_ne. }
  destruct (attempt (sync_dir dir) _) as [r3 w3] eqn:E3. apply sync_dir_attempt_fs in E3 as [Hr3 Hf3].
  destruct r3; [|discriminate]. exists w3. split; [done|]. by rewrite Hf3, Hf2.
Qed.
End deposited.

(** A deposit brings a closed session's directory back.  On a healthy disk
    where nothing is left of a session directory (the state in which TOT's
    cleanup leaves it), depositing a reply succeeds: it recreates the directory
    and leaves the reply in it, where no connection will ever collect it. *)
Theorem custody_deposit_recreates_session dir name b w :
  oracle w = [] -> dir <> [] -> Custody.unsafe_name name = false -> name <> $"." ->
  name <> $"tmp" ->
  Forall (fun x => is_file (fs w) x = false) (prefixes_from [] (dir ++ [$"tmp"])) ->
  (forall q, dir `prefix_of` q -> fs w !! q = None) ->
  exists w', Custody.deposit dir name b w = (Ok (dir ++ [name]), w') /\
    fs w' !! dir = Some Dir /\ fs w' !! (dir ++ [name]) = Some (File b).
Proof.
  intros Ho Hd U Hdot Ht Hpre Hnone. set (tmpd := dir ++ [$"tmp"]) in *.
  destruct (mkdirs_ok tmpd _ w Ho Hpre) as (w1 & E1 & Ho1 & Hf1).
  assert (fs w1 !! dir = Some Dir) as Hdir.
  { rewrite Hf1, decide_True; [done|]. split; [by apply (prefixes_has [])|].
    split; [done|by apply Hnone]. }
  assert (fs w1 !! tmpd = Some Dir) as Htmp.
  { rewrite Hf1, decide_True; [done|]. split; [apply prefixes_in; by destruct dir|].
    split; [by destruct dir|]. apply Hnone. by exists [$"tmp"]. }
  assert (forall q, dir `prefix_of` q -> q <> dir -> q <> tmpd -> fs w1 !! q <> Some Dir) as Hrest.
  { intros q Hq N1 N2. rewrite Hf1, (Hnone q Hq), decide_False; [done|].
    intros (Hin & _ & _). destruct Hq as [r ->]. apply prefixes_prefix in Hin.
    unfold tmpd in *. rewrite app_nil_l in Hin. apply prefix_app_inv in Hin. destruct r as [|y r].
    - by rewrite app_nil_r in N1.
    - destruct Hin as [r' E]. simplify_eq/=. by destruct r. }
  destruct (deposit_paths dir name Ht Hd) as (N1 & N2 & N3 & N4 & _).
  destruct (deposit_runs dir name b U Hdot Ht Hd w w1 E1 Ho1 Hdir Htmp) as (w' & -> & Hf').
  - apply Hrest; [by eexists|by apply not_eq_sym|]. unfold tmpd. by intros E%app_inv_head.
  - apply Hrest; [by eexists|by apply not_eq_sym|done].
  - exists w'. split; [done|]. rewrite Hf', lookup_insert_eq, lookup_insert_ne, lookup_delete_ne, lookup_insert_ne by done. done.
Qed.
Lemma custody_deposit_recreates_session_witness :
  let w := {| fs := {[ [$"out"] := Dir ]}; oracle := []; hist := []; listing := fun l => l |} in
  exists w', Custody.deposit [$"out"; $"ab12"] $"r1.cbor" $"reply" w
               = (Ok [$"out"; $"ab12"; $"r1.cbor"], w') /\
    fs w' !! [$"out"; $"ab12"] = Some Dir /\
    fs w' !! [$"out"; $"ab12"; $"r1.cbor"] = Some (File $"reply").
Proof.
  intros w.
  apply (custody_deposit_recreates_session [$"out"; $"ab12"] $"r1.cbor" $"reply" w);
    try reflexivity; try discriminate.
  - vm_compute. repeat constructor.
  - intros q [r ->]. apply lookup_singleton_ne. discriminate.
Defined.

(** ** The skip list *)
Section skip_list.
Context `{EC : ErrorsCrate}.

(** The wallet ids the text of a skip-list file names. *)
Definition named_in (text id : bytes) : Prop :=
  exists line, line ∈ lines text /\ trim line = id /\ id <> [] /\ starts_with $"#" id = false.
Lemma parse_entries_spec text id : id ∈ SkipList.parse_entries text <-> named_in text id.
Proof.
  unfold SkipList.parse_entries, named_in. rewrite elem_of_list_to_set, list_elem_of_omap.
  split; intros (line & H & E); exists line; (split; [done|]).
  - unfold SkipList.listed in E. case_bool_decide as B; [discriminate|]. simpl in E.
    destruct (starts_with _ _) eqn:S; [discriminate|]. injection E as <-. auto.
  - destruct E as (<- & N & S). unfold SkipList.listed.
    by rewrite bool_decide_false, S by done.
Qed.

(** A reload replaces the list by what the file says.  It always succeeds
    and keeps the two paths; nothing that the file does not name as an
    uncommented, trimmed line is diverted; on a machine without failures
    everything it names is diverted, and a file that is missing or not UTF-8
    switches the divert off. *)
Theorem skip_list_reload_exact (l : SkipList.SkipList) (w : world) :
  exists (l' : SkipList.SkipList) (w' : world),
  SkipList.reload (EC := EC) l w = (Ok (size (SkipList.entries l'), l'), w') /\
  fs w' = fs w /\
  SkipList.skip_list_path l' = SkipList.skip_list_path l /\
  SkipList.skipped_dir l' = SkipList.skipped_dir l /\
  (forall id, SkipList.contains l' id = true ->
     exists text, fs w !! SkipList.skip_list_path l = Some (File text) /\ named_in text id) /\
  (oracle w = [] -> forall text,
     fs w !! SkipList.skip_list_path l = Some (File text) -> is_utf8 text = true ->
     forall id, SkipList.contains l' id = true <-> named_in text id) /\
  ((forall text, fs w !! SkipList.skip_list_path l = Some (File text) -> is_utf8 text = false) ->
     SkipList.entries l' = ∅).
Proof.
  unfold SkipList.reload, SkipList.load_entries, mbind, M_bind, mret, M_ret, attempt.
  pose proof (read_file_cases (SkipList.skip_list_path l) w) as [Hf Hr].
  assert (oracle w = [] -> forall text, fs w !! SkipList.skip_list_path l = Some (File text) ->
    (read_file (SkipList.skip_list_path l) w).1 = Ok text) as Hok.
  { intros Ho text E. unfold read_file, syscall, next_outcome, mbind, M_bind, gets.
    rewrite Ho. simpl. by rewrite E. }
  destruct (read_file _ w) as [r w']. simpl in *.
  set (es := match r with Ok s => if is_utf8 s then SkipList.parse_entries s else ∅ | Err _ => ∅ end).
  exists {| SkipList.skip_list_path := SkipList.skip_list_path l;
            SkipList.skipped_dir := SkipList.skipped_dir l; SkipList.entries := es |}, w'.
  split; [done|]. split; [done|]. do 2 (split; [done|]).
  unfold SkipList.contains. simpl. setoid_rewrite bool_decide_eq_true. split; [|split].
  - intros id Hid. destruct r as [s|e]; [|set_solver]. exists s.
    split; [by apply Hr|]. unfold es in Hid. destruct (is_utf8 s); [|set_solver].
    by apply parse_entries_spec.
  - intros Ho text E U id. unfold es. rewrite (Hok Ho text E), U.
    apply parse_entries_spec.
  - intros H. unfold es. destruct r as [s|e]; [|done]. by rewrite (H s) by auto.
Qed.

(** ** The life of a maildir message *)
Definition maildir_at (p : path) : Maildir.Maildir :=
  {| Maildir.base := p; Maildir.new_dir := p ++ [$"new"]; Maildir.cur_dir := p ++ [$"cur"];
   Maildir.tmp_dir := p ++ [$"tmp"] |}.
Definition in_dir (p : path) (d n : bytes) : path := p ++ [d; n].

Lemma in_dir_snoc p d n : (p ++ [d]) ++ [n] = in_dir p d n.
Proof. by rewrite <- app_assoc. Qed.
Lemma in_dir_inj p d n d' n' : in_dir p d n = in_dir p d' n' -> d = d' /\ n = n'.
Proof. unfold in_dir. intros E%app_inv_head. by simplify_eq/=. Qed.
Lemma in_dir_ne p d n e : in_dir p d n <> p ++ [e].
Proof. intros E%app_inv_head. discriminate. Qed.

Lemma fs_write_ok p b w :
  oracle w = [] -> is_dir (fs w) p = false -> is_dir (fs w) (parent p) = true ->
  exists w', fs_write p b w = (Ok tt, w') /\ oracle w' = [] /\ listing w' = listing w /\
  fs w' = <[p := File b]> (fs w).
Proof.
  intros Ho H1 H2. unfold fs_write, mbind, M_bind. rewrite file_create_ok by done.
  unfold write_all. destruct b as [|x b].
  - eexists. split; [done|]. auto.
  - exists (put (<[p := File (x :: b)]> (<[p := File []]> (fs w)))
               (put (<[p := File []]> (fs w)) w)). cbn [write_all_fuel length].
    unfold next_outcome, mbind, M_bind. simpl. rewrite Ho. unfold append_at, mbind, M_bind, gets.
    simpl. rewrite lookup_insert_eq. split; [done|]. by rewrite insert_insert_eq.
Qed.

Lemma read_dir_ok d w :
  oracle w = [] -> is_dir (fs w) d = true ->
  read_dir d w = (Ok (listing w (children (fs w) d)), w).
Proof.
  intros Ho H. unfold read_dir, syscall, next_outcome, mbind, M_bind, gets.
  rewrite Ho. simpl. by rewrite H.
Qed.
Lemma read_file_ok q c w :
  oracle w = [] -> fs w !! q = Some (File c) -> read_file q w = (Ok c, w).
Proof.
  intros Ho H. unfold read_file, syscall, next_outcome, mbind, M_bind, gets.
  rewrite Ho. simpl. by rewrite H.
Qed.

Section message.
Context (p : path) (ts pid : N) (uuid b : bytes).
Abbreviation nm := (Maildir.message_name ts pid uuid).
Abbreviation md := (maildir_at p).
Abbreviation arrived := (in_dir p $"new" nm).
Abbreviation seen := (in_dir p $"cur" (nm ++ $":2,S")).

(** A maildir message is there until it is marked, and then archived.  On a
    healthy disk, a written message is listed with its content; marking it
    removes it from the new messages, keeps its content under the flagged name
    in [cur/], and touches no other file. *)
Theorem maildir_message_lifecycle w :
  oracle w = [] -> (forall l, listing w l ≡ₚ l) ->
  plain_name nm = true -> is_utf8 nm = true -> plain_name (nm ++ $":2,S") = true ->
  fs w !! (p ++ [$"new"]) = Some Dir -> fs w !! (p ++ [$"cur"]) = Some Dir ->
  fs w !! (p ++ [$"tmp"]) = Some Dir ->
  (forall d n, fs w !! in_dir p d n <> Some Dir) ->
  exists w1 w2 ls,
  Maildir.write_message (EC := EC) md ts pid uuid b w = (Ok arrived, w1) /\
  (Maildir.list_new (EC := EC) md w1).1 = Ok ls /\ arrived ∈ ls /\
  (Maildir.read_message (EC := EC) arrived w1).1 = Ok b /\
  Maildir.mark_processed (EC := EC) md arrived w1 = (Ok seen, w2) /\
  fs w2 !! arrived = None /\ fs w2 !! seen = Some (File b) /\
  (forall q, q <> arrived -> q <> seen -> q <> in_dir p $"tmp" nm -> fs w2 !! q = fs w !! q).
Proof.
  intros Ho Hl Hp Hu Hp2 Hn Hc Ht Hnd.
  assert (forall d n, in_dir p d n <> []) as Hne by (unfold in_dir; by destruct p).
  destruct (fs_write_ok (in_dir p $"tmp" nm) b w Ho) as (wa & Ea & Hoa & Hla & Hfa).
  { by apply not_is_dir. }
  { rewrite <- in_dir_snoc, parent_snoc. by apply is_dir_some. }
  assert (in_dir p $"tmp" nm <> arrived) as N1 by (intros E%in_dir_inj; destruct E; discriminate).
  assert (seen <> arrived) as N2 by (intros E%in_dir_inj; destruct E; discriminate).
  assert (seen <> in_dir p $"tmp" nm) as N3 by (intros E%in_dir_inj; destruct E; discriminate).
  set (w1 := put (<[arrived := File b]> (delete (in_dir p $"tmp" nm) (fs wa))) wa).
  assert (Maildir.write_message (EC := EC) md ts pid uuid b w = (Ok arrived, w1)) as E1.
  { unfold Maildir.write_message, lift_io, with_err, mbind, M_bind. cbn [Maildir.tmp_dir Maildir.new_dir maildir_at].
    rewrite !join_plain by done. rewrite !in_dir_snoc, Ea. simpl.
    rewrite (rename_ok _ _ b); [done|done| | |].
    - by rewrite Hfa, lookup_insert_eq.
    - apply not_is_dir; [done|]. by rewrite Hfa, lookup_insert_ne.
    - rewrite <- in_dir_snoc, parent_snoc. apply is_dir_some.
      rewrite Hfa, lookup_insert_ne; [done|]. apply in_dir_ne. }
  assert (forall e, fs w1 !! (p ++ [e]) = fs w !! (p ++ [e])) as Hkeep.
  { intros e. simpl. rewrite lookup_insert_ne by apply in_dir_ne.
    rewrite lookup_delete_ne by apply in_dir_ne.
    rewrite Hfa, lookup_insert_ne by apply in_dir_ne. done. }
  assert (fs w1 !! arrived = Some (File b)) as Harr by apply lookup_insert_eq.
  set (w2 := put (<[seen := File b]> (delete arrived (fs w1))) w1).
  assert (Maildir.mark_processed (EC := EC) md arrived w1 = (Ok seen, w2)) as E2.
  { unfold Maildir.mark_processed, file_name. unfold in_dir at 1.
    rewrite (last_app_cons p). simpl. rewrite (lossy_valid _ Hu).
    cbn [Maildir.cur_dir maildir_at]. rewrite join_plain, in_dir_snoc by done.
    unfold lift_io, with_err, mbind, M_bind.
    rewrite (rename_ok _ _ b); [done|done|done| |].
    - apply not_is_dir; [done|]. simpl. rewrite lookup_insert_ne by done.
      rewrite lookup_delete_ne by done. by rewrite Hfa, lookup_insert_ne.
    - rewrite <- in_dir_snoc, parent_snoc. apply is_dir_some. by rewrite Hkeep. }
  exists w1, w2, (filter (fun p => is_file (fs w1) p = true)
    (map (fun n => Maildir.new_dir md ++ [n]) (listing w1 (children (fs w1) (Maildir.new_dir md))))).
  split; [done|]. split.
  { unfold Maildir.list_new, lift_io, with_err, mbind, M_bind.
    rewrite read_dir_ok; [done|done|]. apply is_dir_some.
    cbn [Maildir.new_dir maildir_at]. by rewrite Hkeep. }
  split.
  { apply list_elem_of_filter. split; [unfold is_file; by rewrite Harr|].
    rewrite list_elem_of_In, in_map_iff. exists nm. split; [apply in_dir_snoc|].
    rewrite <- list_elem_of_In. cbn [Maildir.new_dir maildir_at listing w1 put set_fs].
    rewrite Hla, Hl, elem_of_children, in_dir_snoc. eauto. }
  split.
  { unfold Maildir.read_message, lift_io, with_err. by rewrite (read_file_ok _ b). }
  split; [done|]. split; [|split].
  - simpl. rewrite lookup_insert_ne by done. apply lookup_delete_eq.
  - apply lookup_insert_eq.
  - intros q Q1 Q2 Q3. simpl. rewrite lookup_insert_ne, lookup_delete_ne by done.
    rewrite lookup_insert_ne, lookup_delete_ne by done. by rewrite Hfa, lookup_insert_ne.
Qed.
End message.
End skip_list.

Lemma maildir_message_lifecycle_witness :
  let m := [$"m"] in
  let s : store := <[ m := Dir ]> (<[ m ++ [$"new"] := Dir ]> (<[ m ++ [$"cur"] := Dir ]>
                     (<[ m ++ [$"tmp"] := Dir ]> ∅))) in
  let w := {| fs := s; oracle := []; hist := []; listing := fun l => l |} in
  exists w1 w2,
    Maildir.write_message (EC := ex_errors) (maildir_at m) 17 42 $"u1" $"hi" w
      = (Ok (in_dir m $"new" $"17.42.localhost.u1"), w1) /\
    fs w2 !! in_dir m $"cur" $"17.42.localhost.u1:2,S" = Some (File $"hi").
Proof.
  intros m s w.
  destruct (maildir_message_lifecycle (EC := ex_errors) m 17 42 $"u1" $"hi" w)
    as (w1 & w2 & ls & H1 & _ & _ & _ & _ & _ & H2 & _); try reflexivity.
  - intros d n E. unfold w, s in E. cbn [fs] in E.
    rewrite !lookup_insert_ne in E by discriminate. discriminate E.
  - exists w1, w2. split; [exact H1|exact H2].
Defined.
End SinkTheorems.
