(* ===== verification/TotConcurrent.v ===== *)
(** * TOT's inbox under all its connections at once

    tot runs every connection as a task of its own, so that many calls of
    [deliver] interleave on the one counter [SEQ] and the one disk while ANTIE
    takes messages out of [new/].  Here a call is cut at its system calls: a
    [call] holds what it has done so far, [advance] is its next system call, and
    [step] lets any call advance, a new one begin, ANTIE take a message, and
    everything else on the machine change what is not this process's file.

    [alone_is_deliver]: a call that runs undisturbed is [TotInbox.deliver].
    [Shared]: what holds of every reachable state. *)
From S2P Require Import Prelude Utf8 Fs TotInbox Errors Sinks.
Import Errors TotInbox.

Module TotConcurrent.

(** ** One call, cut at its system calls *)
Inductive stage : Type :=
  | Naming
  | Creating
  | Writing (rest : bytes)
  | Syncing
  | Renaming
  | Removing (e : io_error)
  | OpeningDir
  | SyncingDir
  | Returned (r : result io_error unit).
Record call : Type := Call { body : bytes; clock : wall_clock; name : bytes; at_ : stage }.
Definition goes (c : call) (s : stage) : call := Call (body c) (clock c) (name c) s.

Section calls.
Context (ib : Inbox) (pid : N).
Definition tmp_of (n : bytes) : path := join (tmp ib) n.
Definition new_of (n : bytes) : path := join (new ib) n.

(** One [write(2)] of what is left of the body: what is left after it. *)
Definition write_once (p : path) (rest : bytes) : io bytes :=
  o ← next_outcome;
  match o with
  | Fails e => throw e
  | Short O => throw err_write_zero
  | Short n => _ ← append_at p (take n rest); mret (drop n rest)
  | Go => _ ← append_at p rest; mret []
  end.
(** [File::open(dir)] *)
Definition open_dir (p : path) : io unit :=
  _ ← syscall; m ← gets fs; if is_dir m p || is_file m p then mret tt else throw err_not_found.
(** A system call of the call: on to the next stage, or out with the error. *)
Definition then_ {A : Type} (c : call) (m : io A) (k : A -> stage) (w : inbox_world) : call * inbox_world :=
  let '(r, w') := on_files m w in
  (goes c (match r with Ok a => k a | Err e => Returned (Err e) end), w').
Definition advance (c : call) (w : inbox_world) : call * inbox_world :=
  match at_ c with
  | Naming =>
      let w' := {| files := files w; SEQ := wrap 64 (SEQ w + 1) |} in
      (Call (body c) (clock c) (name_of (clock c) (SEQ w) pid) Creating, w')
  | Creating => then_ c (file_create (tmp_of (name c))) (fun _ => Writing (body c)) w
  | Writing [] => (goes c Syncing, w)
  | Writing rest => then_ c (write_once (tmp_of (name c)) rest) Writing w
  | Syncing => then_ c sync_all (fun _ => Renaming) w
  | Renaming =>
      then_ c (attempt (F := io_error) (rename (tmp_of (name c)) (new_of (name c))))
        (fun r => match r with Ok _ => OpeningDir | Err e => Removing e end) w
  | Removing e =>
      then_ c (attempt (F := io_error) (remove_file (tmp_of (name c)))) (fun _ => Returned (Err e)) w
  | OpeningDir => then_ c (open_dir (new ib)) (fun _ => SyncingDir) w
  | SyncingDir => then_ c sync_all (fun r => Returned (Ok r)) w
  | Returned _ => (c, w)
  end.
Definition begins (b : bytes) (now : wall_clock) : call := Call b now [] Naming.
(** [k] system calls of [c] in a row. *)
Fixpoint advances (k : nat) (c : call) (w : inbox_world) : call * inbox_world :=
  match k with
  | O => (c, w)
  | S k' => let '(c', w') := advance c w in advances k' c' w'
  end.

(** ** All of them *)
Record shared : Type := Shared {
  calls : list call; box : inbox_world;
  taken : list (bytes * bytes) (* what ANTIE took of ours, name and content *) }.
Definition ours (n : bytes) : Prop := exists now seq, n = name_of now seq pid.
Context `{EC : ErrorsCrate} (md : Maildir.Maildir).
Definition on_disk (m : world) (w : inbox_world) : inbox_world := {| files := m; SEQ := SEQ w |}.
Inductive step : shared -> shared -> Prop :=
  | Arrives b now s :
      step s (Shared (calls s ++ [begins b now]) (box s) (taken s))
  | Advances i c c' w' s :
      calls s !! i = Some c -> advance c (box s) = (c', w') ->
      step s (Shared (<[i := c']> (calls s)) w' (taken s))
  | Takes n b q w' s :
      ours n -> fs (files (box s)) !! new_of n = Some (File b) ->
      Maildir.mark_processed md (new_of n) (files (box s)) = (Ok q, w') ->
      step s (Shared (calls s) (on_disk w' (box s)) (taken s ++ [(n, b)]))
  | Others w' s :
      (forall n, ours n -> fs w' !! tmp_of n = fs (files (box s)) !! tmp_of n /\
                           fs w' !! new_of n = fs (files (box s)) !! new_of n) ->
      step s (Shared (calls s) (on_disk w' (box s)) (taken s)).
End calls.

(** ** A call left alone *)
Section alone.
Context (ib : Inbox) (pid : N).
Definition comes_to (c : call) (w : inbox_world) (c' : call) (w' : inbox_world) : Prop :=
  exists k, advances ib pid k c w = (c', w').
Lemma comes_one c w c' w' c2 w2 : advance ib pid c w = (c', w') -> comes_to c' w' c2 w2 -> comes_to c w c2 w2.
Proof. intros E [k Hk]. exists (S k). cbn [advances]. by rewrite E. Qed.
Lemma comes_here c w : comes_to c w c w.
Proof. by exists 0%nat. Qed.
Lemma comes_trans c w c' w' c2 w2 : comes_to c w c' w' -> comes_to c' w' c2 w2 -> comes_to c w c2 w2.
Proof.
  intros [k Hk]. revert c w Hk. induction k as [|k IH]; intros c w; cbn [advances]; [by intros [= -> ->]|].
  destruct (advance ib pid c w) as [c1 w1] eqn:E. intros H H2. eapply comes_one; [exact E|]. by apply IH.
Qed.

Definition outcome_of {A : Type} (k : A -> stage) (r : result io_error A) : stage :=
  match r with Ok a => k a | Err e => Returned (Err e) end.
(** One stage that is one computation on the disk. *)
Lemma stage_alone {A : Type} (m : io A) (k : A -> stage) st c d q c2 w2 :
  (forall w, advance ib pid (goes c st) w = then_ (goes c st) m k w) ->
  comes_to (goes c (outcome_of k (m d).1)) {| files := (m d).2; SEQ := q |} c2 w2 ->
  comes_to (goes c st) {| files := d; SEQ := q |} c2 w2.
Proof.
  intros E. apply comes_one. rewrite E. unfold then_, on_files, zoom. cbn [files SEQ]. by destruct (m d).
Qed.
Lemma bind_run {A B : Type} (m : io A) (f : A -> io B) d :
  (m ≫= f) d = match (m d).1 with Ok a => f a (m d).2 | Err e => (Err e, (m d).2) end.
Proof. unfold mbind, M_bind. by destruct (m d) as [[]]. Qed.

Lemma writes_alone c : forall fuel rest d q, (length rest <= fuel)%nat ->
  let r := write_all_fuel fuel (tmp_of ib (name c)) rest d in
  comes_to (goes c (Writing rest)) {| files := d; SEQ := q |}
    (goes c (outcome_of (fun _ => Syncing) r.1)) {| files := r.2; SEQ := q |}.
Proof.
  assert (forall b d, append_at (tmp_of ib (name c)) b d = (Ok tt, (append_at (tmp_of ib (name c)) b d).2)) as Ha.
  { intros b d. unfold append_at, mbind, M_bind, gets. by destruct (fs d !! _) as [[|?]|]. }
  induction fuel as [|fuel IH]; intros rest d q Hl; destruct rest as [|x rest]; [|cbn in Hl; lia| |].
  1, 2: eapply comes_one; [reflexivity|]; apply comes_here.
  apply stage_alone with (m := write_once (tmp_of ib (name c)) (x :: rest)) (k := Writing); [done|].
  cbn [write_all_fuel]. unfold write_once. rewrite !(bind_run next_outcome).
  destruct (next_outcome d) as [[o|e] d1]; cbn [fst snd]; [|apply comes_here].
  destruct o as [|[|n]|e]; [| apply comes_here| |apply comes_here]; rewrite !(bind_run (append_at _ _)), Ha;
    cbn [fst snd mret M_ret outcome_of].
  - eapply comes_one; [reflexivity|]. rewrite Ha. apply comes_here.
  - apply IH. rewrite length_drop. cbn in Hl |- *. lia.
Qed.

(** From the rename on. *)
Lemma rename_alone c d q :
  let m := r ← attempt (rename (tmp_of ib (name c)) (new_of ib (name c)));
           match r with
           | Err e => _ ← attempt (E := io_error) (remove_file (tmp_of ib (name c))); throw e
           | Ok _ => sync_dir (new ib)
           end in
  comes_to (goes c Renaming) {| files := d; SEQ := q |} (goes c (Returned (m d).1)) {| files := (m d).2; SEQ := q |}.
Proof.
  intros m. eapply stage_alone; [done|]. unfold m. rewrite bind_run.
  destruct (attempt _ d) as [[r|e] d1] eqn:E; cbn [fst snd outcome_of]; [|apply comes_here]. clear E m.
  destruct r as [[]|e].
  - eapply stage_alone; [done|]. unfold sync_dir, open_dir. rewrite !(bind_run syscall).
    destruct (syscall d1) as [[[]|e] d2]; cbn [fst snd outcome_of]; [|apply comes_here].
    rewrite !(bind_run (gets fs)). cbn [gets fst snd]. destruct (_ || _); cbn [fst snd mret M_ret throw outcome_of]; [|apply comes_here].
    eapply stage_alone; [done|]. destruct (sync_all d2) as [[[]|e] d3]; apply comes_here.
  - eapply stage_alone; [done|]. rewrite bind_run. unfold attempt.
    destruct (remove_file _ d1) as [r d2]. apply comes_here.
Qed.

(** A call that nobody disturbs is [deliver]: it comes to the end [deliver] comes
    to, in the world [deliver] leaves, whatever fails on the way. *)
Theorem alone_is_deliver b now w :
  exists c, comes_to (begins b now) w c (deliver ib now pid b w).2 /\
    at_ c = Returned (deliver ib now pid b w).1 /\ body c = b.
Proof.
  rewrite deliver_run. set (c := Call b now (name_of now (SEQ w) pid) Creating). cbv zeta. cbn [fst snd].
  set (r := deliver_as ib (name_of now (SEQ w) pid) b (files w)).
  exists (goes c (Returned r.1)). split; [|done]. eapply comes_one; [reflexivity|].
  change (Call (body (begins b now)) (clock (begins b now)) _ Creating) with (goes c Creating).
  eapply stage_alone; [done|]. unfold r, deliver_as. cbv zeta. rewrite bind_run.
  change (join (tmp ib) (name_of now (SEQ w) pid)) with (tmp_of ib (name c)).
  change (join (new ib) (name_of now (SEQ w) pid)) with (new_of ib (name c)).
  change (name (goes c Creating)) with (name c). change (body (goes c Creating)) with b.
  destruct (file_create (tmp_of ib (name c)) (files w)) as [[[]|e] d1]; cbn [fst snd outcome_of]; [|apply comes_here].
  eapply comes_trans; [apply (writes_alone c (length b)); reflexivity|]. rewrite bind_run.
  change (write_all_fuel (length b) (tmp_of ib (name c)) b) with (write_all (tmp_of ib (name c)) b).
  destruct (write_all (tmp_of ib (name c)) b d1) as [[[]|e] d2]; cbn [fst snd outcome_of]; [|apply comes_here].
  eapply stage_alone; [done|]. rewrite bind_run.
  destruct (sync_all d2) as [[[]|e] d3]; cbn [fst snd outcome_of]; [|apply comes_here].
  apply rename_alone.
Qed.
End alone.

(** ** What one system call does to the disk *)
Section effects.
Lemma create_effect p w : let r := file_create p w in
  match r.1 with Ok _ => fs r.2 = <[p := File []]> (fs w) | Err _ => fs r.2 = fs w end.
Proof.
  unfold file_create, mbind, M_bind, gets. destruct (syscall_cases w) as (w1 & Hf & _ & [->|[e ->]]); [|done].
  destruct (is_dir _ p); [done|]. destruct (is_dir _ (parent p)); [|done]. cbn. by rewrite Hf.
Qed.
Lemma write_effect p rest w : let r := write_once p rest w in
  (fs r.2 = fs w \/ exists v, fs r.2 = <[p := v]> (fs w)) /\
  (forall d rest', fs w !! p = Some (File d) -> r.1 = Ok rest' ->
     exists x, rest = x ++ rest' /\ fs r.2 !! p = Some (File (d ++ x))).
Proof.
  assert (forall b w0, fs w0 = fs w -> let r := append_at p b w0 in r.1 = Ok tt /\
    (fs r.2 = fs w \/ exists v, fs r.2 = <[p := v]> (fs w)) /\
    forall d, fs w !! p = Some (File d) -> fs r.2 !! p = Some (File (d ++ b))) as Ha.
  { intros b w0 E. unfold append_at, mbind, M_bind, gets. rewrite E. destruct (fs w !! p) as [[|c]|] eqn:Ep; cbn.
    1, 3: split; [done|]; split; [by left|]; intros d [=].
    split; [done|]. split; [right; by eexists|]. intros d [= <-]. apply lookup_insert_eq. }
  unfold write_once. rewrite bind_run.
  assert (exists o w1, next_outcome w = (Ok o, w1) /\ fs w1 = fs w) as (o & w1 & -> & E).
  { unfold next_outcome. destruct (oracle w) as [|o os]; by repeat eexists. }
  cbn [fst snd]. destruct o as [|[|n]|e]; cbn [throw fst snd]; try (split; [left; exact E|by intros]).
  - rewrite bind_run. destruct (Ha rest w1 E) as (-> & He & Hd). cbn [mret M_ret fst snd]. split; [exact He|].
    intros d rest' Hp [= <-]. exists rest. rewrite app_nil_r. split; [done|]. by apply Hd.
  - rewrite bind_run. destruct (Ha (take (S n) rest) w1 E) as (-> & He & Hd). cbn [mret M_ret fst snd]. split; [exact He|].
    intros d rest' Hp [= <-]. exists (take (S n) rest). rewrite take_drop. split; [done|]. by apply Hd.
Qed.
Lemma sync_effect w : fs (sync_all w).2 = fs w.
Proof. unfold sync_all. by destruct (syscall_cases w) as (w1 & Hf & _ & [->|[e ->]]). Qed.
Lemma open_dir_effect p w : fs (open_dir p w).2 = fs w.
Proof.
  unfold open_dir, mbind, M_bind, gets. destruct (syscall_cases w) as (w1 & Hf & _ & [->|[e ->]]); [|done].
  by destruct (_ || _).
Qed.
Lemma rename_effect src dst w : let r := rename src dst w in
  match r.1 with
  | Ok _ => exists c, fs w !! src = Some (File c) /\ fs r.2 = <[dst := File c]> (delete src (fs w))
  | Err _ => fs r.2 = fs w
  end.
Proof.
  unfold rename, mbind, M_bind, gets. destruct (syscall_cases w) as (w1 & Hf & _ & [->|[e ->]]); [|done].
  rewrite Hf. destruct (fs w !! src) as [[|c]|]; [done| |done].
  destruct (is_dir _ dst); [done|]. destruct (is_dir _ (parent dst)); [|done]. cbn. by exists c.
Qed.
Lemma remove_effect p w : let r := remove_file p w in fs r.2 = fs w \/ fs r.2 = delete p (fs w).
Proof.
  unfold remove_file, mbind, M_bind, gets. destruct (syscall_cases w) as (w1 & Hf & _ & [->|[e ->]]); [|by left].
  rewrite Hf. destruct (fs w !! p) as [[|c]|]; cbn; auto.
Qed.
End effects.

(** ** Every reachable state *)
Section invariant.
Context (ib : Inbox) (pid : N) `{EC : ErrorsCrate} (md : Maildir.Maildir).
Context (Htn : tmp ib <> new ib) (Hct : Maildir.cur_dir md <> tmp ib) (Hcn : Maildir.cur_dir md <> new ib).
Abbreviation T m n := (m !! tmp_of ib n).
Abbreviation N_ m n := (m !! new_of ib n).

Definition took (n : bytes) (t : list (bytes * bytes)) : list (bytes * bytes) := filter (fun x => x.1 = n) t.
(** Not there and never taken; there and not taken yet, or taken once and gone. *)
Definition unseen (m : store) t n : Prop := N_ m n = None /\ took n t = [].
Definition published (m : store) t n b : Prop :=
  (N_ m n = Some (File b) /\ took n t = []) \/ (N_ m n = None /\ took n t = [(n, b)]).
Definition holds (c : call) (m : store) t : Prop :=
  match at_ c with
  | Naming => True
  | Creating => T m (name c) = None /\ unseen m t (name c)
  | Writing rest => (exists d, body c = d ++ rest /\ T m (name c) = Some (File d)) /\ unseen m t (name c)
  | Syncing | Renaming => T m (name c) = Some (File (body c)) /\ unseen m t (name c)
  | Removing _ => unseen m t (name c)
  | OpeningDir | SyncingDir | Returned (Ok _) => published m t (name c) (body c)
  | Returned (Err _) => unseen m t (name c) \/ published m t (name c) (body c)
  end.
Definition named (c : call) : Prop := at_ c <> Naming.
#[local] Instance named_dec c : Decision (named c).
Proof. unfold named. destruct (at_ c); [right|left..]; abstract (try (intros H; by apply H); by intros [=]). Defined.

Lemma tmp_new n k : ours pid n -> ours pid k -> tmp_of ib n <> new_of ib k.
Proof.
  intros (t1 & s1 & ->) (t2 & s2 & ->). unfold tmp_of, new_of. rewrite !join_plain by apply name_plain.
  intros E%app_inj_2; [|done]. by destruct E.
Qed.
Lemma tmp_inj n k : ours pid n -> ours pid k -> n <> k -> tmp_of ib n <> tmp_of ib k.
Proof.
  intros (t1 & s1 & ->) (t2 & s2 & ->) N. unfold tmp_of. rewrite !join_plain by apply name_plain.
  intros E%app_inj_2; [|done]. destruct E as [_ [= E]]. by apply N.
Qed.
Lemma new_inj n k : ours pid n -> ours pid k -> n <> k -> new_of ib n <> new_of ib k.
Proof.
  intros (t1 & s1 & ->) (t2 & s2 & ->) N. unfold new_of. rewrite !join_plain by apply name_plain.
  intros E%app_inj_2; [|done]. destruct E as [_ [= E]]. by apply N.
Qed.

(** A call that has its name keeps it, leaves every other name alone, and goes on
    as it should. *)
Lemma advance_named c w t : named c -> ours pid (name c) -> holds c (fs (files w)) t ->
  let '(c', w') := advance ib pid c w in
  named c' /\ name c' = name c /\ body c' = body c /\ SEQ w' = SEQ w /\
  (forall q, q <> tmp_of ib (name c) -> q <> new_of ib (name c) -> fs (files w') !! q = fs (files w) !! q) /\
  holds c' (fs (files w')) t.
Proof.
  intros Hn Ho. destruct c as [b now n st]. unfold named in Hn. unfold holds at 1. cbn [at_ name body] in *.
  pose proof (tmp_new n n Ho Ho) as Hx.
  destruct st as [| |rest| | |e| | |r]; [done|..]; unfold advance, then_, on_files, zoom; cbn [at_ name body].
  - intros [HT HU]. pose proof (create_effect (tmp_of ib n) (files w)) as H.
    destruct (file_create _ _) as [[[]|e] m]; cbn in H |- *; rewrite H; split_and!; try done.
    + intros q Hq _. by rewrite lookup_insert_ne.
    + exists []. by rewrite lookup_insert_eq.
    + unfold unseen. by rewrite lookup_insert_ne.
    + by left.
  - intros [(d & -> & HT) HU]. destruct rest as [|x rest]; [cbn; rewrite app_nil_r in *; by split_and!|].
    pose proof (write_effect (tmp_of ib n) (x :: rest) (files w)) as [He Hd].
    destruct (write_once _ _ _) as [[rest'|e] m]; cbn in He, Hd |- *.
    + destruct (Hd d rest' HT eq_refl) as (y & -> & HT'). split_and!; try done.
      * intros q Hq _. destruct He as [->|[v ->]]; [done|by rewrite lookup_insert_ne].
      * exists (d ++ y). by rewrite <- app_assoc.
      * unfold unseen. destruct He as [->|[v ->]]; [done|by rewrite lookup_insert_ne].
    + split_and!; try done.
      * intros q Hq _. destruct He as [->|[v ->]]; [done|by rewrite lookup_insert_ne].
      * left. unfold unseen. destruct He as [->|[v ->]]; [done|by rewrite lookup_insert_ne].
  - intros [HT HU]. pose proof (sync_effect (files w)) as H.
    destruct (sync_all _) as [[[]|e] m]; cbn in H |- *; rewrite H; split_and!; try done. by left.
  - intros [HT HU]. unfold attempt. pose proof (rename_effect (tmp_of ib n) (new_of ib n) (files w)) as H.
    destruct (rename _ _ _) as [[[]|e] m]; cbn in H |- *.
    + destruct H as (c & Hc & ->). rewrite HT in Hc. injection Hc as <-. split_and!; try done.
      * intros q Hq Hq'. by rewrite lookup_insert_ne, lookup_delete_ne.
      * left. rewrite lookup_insert_eq. by destruct HU.
    + rewrite H. by split_and!.
  - intros HU. unfold attempt. pose proof (remove_effect (tmp_of ib n) (files w)) as H.
    destruct (remove_file _ _) as [r m]; cbn in H |- *. split_and!; try done.
    + intros q Hq _. destruct H as [-> | ->]; [done|by rewrite lookup_delete_ne].
    + left. unfold unseen. destruct H as [-> | ->]; [done|by rewrite lookup_delete_ne].
  - intros HP. pose proof (open_dir_effect (new ib) (files w)) as H.
    destruct (open_dir _ _) as [[[]|e] m]; cbn in H |- *; rewrite H; split_and!; try done. by right.
  - intros HP. pose proof (sync_effect (files w)) as H.
    destruct (sync_all _) as [[[]|e] m]; cbn in H |- *; rewrite H; split_and!; try done. by right.
  - cbn. intros H. by split_and!.
Qed.

(** [holds] reads the disk and the log at one name. *)
Lemma holds_at c m m' t t' :
  T m' (name c) = T m (name c) -> N_ m' (name c) = N_ m (name c) -> took (name c) t' = took (name c) t ->
  holds c m t -> holds c m' t'.
Proof. unfold holds, published, unseen. intros -> -> ->. by destruct (at_ c) as [| | | | | | | |[]]. Qed.

Definition count (cs : list call) : nat := length (filter named cs).
Definition has_name (cs : list call) (n : bytes) : Prop := exists i c, cs !! i = Some c /\ named c /\ name c = n.
Record Inv (s : shared) : Prop := {
  inv_seq : SEQ (box s) = wrap 64 (Z.of_nat (count (calls s)));
  inv_name : forall i c, calls s !! i = Some c -> named c ->
    exists now k, name c = name_of now k pid /\ 0 <= k < Z.of_nat (count (calls s));
  inv_inj : forall i j c c', calls s !! i = Some c -> calls s !! j = Some c' -> named c -> named c' ->
    name c = name c' -> i = j;
  inv_free : forall n, ours pid n -> ~ has_name (calls s) n ->
    T (fs (files (box s))) n = None /\ unseen (fs (files (box s))) (taken s) n;
  inv_calls : forall i c, calls s !! i = Some c -> holds c (fs (files (box s))) (taken s);
  inv_taken : forall x, x ∈ taken s -> ours pid x.1 }.

Lemma named_ours s i c : Inv s -> calls s !! i = Some c -> named c -> ours pid (name c).
Proof. intros I Hi Hn. destruct (inv_name s I i c Hi Hn) as (now & k & -> & _). by exists now, k. Qed.
Lemma count_le cs : (count cs <= length cs)%nat.
Proof. apply length_filter. Qed.
Lemma count_insert cs i c c' : cs !! i = Some c ->
  (count (<[i:=c']> cs) + (if decide (named c) then 1 else 0) = count cs + (if decide (named c') then 1 else 0))%nat.
Proof.
  intros Hi. rewrite insert_take_drop by (by eapply lookup_lt_Some).
  rewrite <- (take_drop_middle cs i c Hi) at 3. unfold count. rewrite !filter_app, !length_app, !filter_cons.
  repeat case_decide; cbn; lia.
Qed.

(** A step that changes nothing of ours keeps the invariant. *)
Lemma inv_elsewhere s w' : Inv s ->
  (forall n, ours pid n -> T (fs (files w')) n = T (fs (files (box s))) n /\ N_ (fs (files w')) n = N_ (fs (files (box s))) n) ->
  SEQ w' = SEQ (box s) -> Inv (Shared (calls s) w' (taken s)).
Proof.
  intros I Hw Hs. constructor; cbn [calls box taken].
  - by rewrite Hs, (inv_seq s I).
  - apply (inv_name s I).
  - apply (inv_inj s I).
  - intros n Ho Hf. destruct (Hw n Ho) as [E1 E2]. unfold unseen. rewrite E1, E2. by apply (inv_free s I).
  - intros i c Hi. pose proof (inv_calls s I i c Hi) as H. destruct (decide (named c)) as [Hn|Hn].
    + destruct (Hw _ (named_ours s i c I Hi Hn)) as [E1 E2]. by eapply holds_at.
    + unfold named in Hn. unfold holds. destruct (at_ c); try done; by contradict Hn.
  - apply (inv_taken s I).
Qed.
Lemma inv_arrives s b now : Inv s -> Inv (Shared (calls s ++ [begins b now]) (box s) (taken s)).
Proof.
  intros I.
  assert (count (calls s ++ [begins b now]) = count (calls s)) as Hc.
  { unfold count. rewrite filter_app, length_app, (filter_cons_False named) by (intros H; by apply H).
    rewrite filter_nil. apply Nat.add_0_r. }
  assert (forall i c, (calls s ++ [begins b now]) !! i = Some c -> named c -> calls s !! i = Some c) as Hold.
  { intros i c Hi Hn. apply lookup_app_Some in Hi as [Hi|[_ Hi]]; [done|].
    apply list_lookup_singleton_Some in Hi as [_ <-]. exfalso. by apply Hn. }
  constructor; cbn [calls box taken].
  - by rewrite Hc, (inv_seq s I).
  - intros i c Hi Hn. rewrite Hc. apply (inv_name s I i c); auto.
  - intros i j c c' Hi Hj Hn Hn'. apply (inv_inj s I i j c c'); auto.
  - intros n Ho Hf. apply (inv_free s I n Ho). intros (i & c & Hi & Hn & <-). apply Hf. exists i, c.
    split; [by apply lookup_app_l_Some|done].
  - intros i c Hi. apply lookup_app_Some in Hi as [Hi|[_ Hi]]; [by eapply (inv_calls s I)|].
    apply list_lookup_singleton_Some in Hi as [_ <-]. done.
  - apply (inv_taken s I).
Qed.

(** The call that takes its name: nobody had that one. *)
Lemma inv_names s i c : Inv s -> calls s !! i = Some c -> ~ named c -> Z.of_nat (length (calls s)) <= 2 ^ 64 ->
  let '(c', w') := advance ib pid c (box s) in Inv (Shared (<[i:=c']> (calls s)) w' (taken s)).
Proof.
  intros I Hi Hn Hl. assert (at_ c = Naming) as Ha by (unfold named in Hn; destruct (at_ c); try done; by contradict Hn).
  unfold advance. rewrite Ha. set (n := name_of (clock c) (SEQ (box s)) pid). set (c' := Call (body c) (clock c) n Creating).
  pose proof (count_insert (calls s) i c c' Hi) as Hc. rewrite decide_False, decide_True in Hc by done.
  set (cs := <[i:=c']> (calls s)) in *.
  assert (Hs : SEQ (box s) = Z.of_nat (count (calls s))).
  { rewrite (inv_seq s I). unfold wrap. apply Z.mod_small.
    assert (count cs <= length (calls s))%nat by (etransitivity; [apply count_le|unfold cs; by rewrite length_insert]). lia. }
  assert (ours pid n) as Ho by (by exists (clock c), (SEQ (box s))).
  assert (~ has_name (calls s) n) as Hfree.
  { intros (j & cj & Hj & Hnj & E). destruct (inv_name s I j cj Hj Hnj) as (now & k & E2 & Hk).
    rewrite E2 in E. apply name_seq_inj in E. apply Z2N.inj in E; lia. }
  assert (forall j cj, cs !! j = Some cj -> named cj -> (j = i /\ cj = c') \/ (j <> i /\ calls s !! j = Some cj)) as Hcases.
  { intros j cj Hj _. unfold cs in Hj. apply list_lookup_insert_Some in Hj as [(-> & -> & _)|[? ?]]; [by left|by right]. }
  destruct (inv_free s I n Ho Hfree) as [HT HU].
  constructor; cbn [calls box taken files SEQ].
  - rewrite Hs. f_equal. lia.
  - intros j cj Hj Hnj. destruct (Hcases j cj Hj Hnj) as [[-> ->]|[_ Hj']].
    + exists (clock c), (SEQ (box s)). split; [done|]. lia.
    + destruct (inv_name s I j cj Hj' Hnj) as (now & k & E & Hk). exists now, k. split; [done|lia].
  - intros j k cj ck Hj Hk Hnj Hnk E.
    destruct (Hcases j cj Hj Hnj) as [[-> ->]|[_ Hj']], (Hcases k ck Hk Hnk) as [[-> ->]|[_ Hk']]; [done| | |by eapply (inv_inj s I)].
    + exfalso. apply Hfree. by exists k, ck.
    + exfalso. apply Hfree. by exists j, cj.
  - intros k Hok Hf. apply (inv_free s I k Hok). intros (j & cj & Hj & Hnj & E). apply Hf. exists j, cj.
    split; [|done]. unfold cs. rewrite list_lookup_insert_ne; [done|]. intros <-. congruence.
  - intros j cj Hj. unfold cs in Hj. apply list_lookup_insert_Some in Hj as [(-> & <- & _)|[_ Hj]].
    + unfold holds. cbn. done.
    + by eapply (inv_calls s I).
  - apply (inv_taken s I).
Qed.
(** Any other call: its own files only. *)
Lemma inv_advances s i c : Inv s -> calls s !! i = Some c -> named c ->
  let '(c', w') := advance ib pid c (box s) in Inv (Shared (<[i:=c']> (calls s)) w' (taken s)).
Proof.
  intros I Hi Hn. pose proof (named_ours s i c I Hi Hn) as Ho.
  pose proof (advance_named c (box s) (taken s) Hn Ho (inv_calls s I i c Hi)) as H.
  destruct (advance ib pid c (box s)) as [c' w']. destruct H as (Hn' & En & Eb & Es & Hq & Hh).
  pose proof (count_insert (calls s) i c c' Hi) as Hc. rewrite !decide_True in Hc by done.
  set (cs := <[i:=c']> (calls s)) in *.
  assert (forall j cj, cs !! j = Some cj -> exists cj', calls s !! j = Some cj' /\ name cj' = name cj /\
    ((j = i /\ cj = c' /\ named cj') \/ (j <> i /\ cj' = cj))) as Hcases.
  { intros j cj Hj. unfold cs in Hj. apply list_lookup_insert_Some in Hj as [(-> & <- & _)|[? ?]]; eauto 10. }
  assert (forall n, ours pid n -> n <> name c ->
    T (fs (files w')) n = T (fs (files (box s))) n /\ N_ (fs (files w')) n = N_ (fs (files (box s))) n) as Hother.
  { intros n Hon N. split; apply Hq; auto using tmp_inj, new_inj, tmp_new, not_eq_sym. }
  constructor; cbn [calls box taken].
  - rewrite Es, (inv_seq s I). do 2 f_equal. lia.
  - intros j cj Hj Hnj. destruct (Hcases j cj Hj) as (cj' & Hj' & <- & [(-> & -> & ?) | [? ->]]);
      [destruct (inv_name s I i cj' Hj') as (now & k & E & Hk)|destruct (inv_name s I j cj Hj') as (now & k & E & Hk)]; try done;
      exists now, k; (split; [done|lia]).
  - intros j k cj ck Hj Hk Hnj Hnk E.
    destruct (Hcases j cj Hj) as (cj' & Hj' & Ej & [(-> & -> & ?) | [? ->]]),
      (Hcases k ck Hk) as (ck' & Hk' & Ek & [(-> & -> & ?) | [? ->]]); try done;
      (eapply (inv_inj s I); [exact Hj'|exact Hk'|done|done|congruence]).
  - intros n Hon Hf. assert (~ has_name (calls s) n) as Hf'.
    { intros (j & cj & Hj & Hnj & E). apply Hf. destruct (decide (j = i)) as [->|N].
      - exists i, c'. split; [apply list_lookup_insert_eq; by eapply lookup_lt_Some|]. split; [done|congruence].
      - exists j, cj. split; [unfold cs; by rewrite list_lookup_insert_ne by congruence|done]. }
    destruct (Hother n Hon) as [E1 E2]; [intros ->; apply Hf'; by exists i, c|].
    unfold unseen. rewrite E1, E2. by apply (inv_free s I).
  - intros j cj Hj. unfold cs in Hj. apply list_lookup_insert_Some in Hj as [(<- & <- & _)|[N Hj]]; [done|].
    pose proof (inv_calls s I j cj Hj) as Hhj. destruct (decide (named cj)) as [Hnj|Hnj].
    + destruct (Hother (name cj) (named_ours s j cj I Hj Hnj)) as [E1 E2]; [|by eapply holds_at].
      intros E. apply N. symmetry. by eapply (inv_inj s I).
    + unfold named in Hnj. unfold holds. destruct (at_ cj); try done; by contradict Hnj.
  - apply (inv_taken s I).
Qed.

(** ANTIE takes a message: only one that is there, whole, and only once. *)
Lemma ours_ascii n : ours pid n -> is_ascii n = true /\ plain_name (n ++ $":2,S") = true.
Proof.
  intros (now & k & ->). split.
  - unfold name_of. by rewrite !is_ascii_app, !is_ascii_show.
  - unfold plain_name. apply bool_decide_eq_true. split.
    + intros [H|H]%elem_of_app; [by apply name_no_slash in H|]. rewrite list_elem_of_In in H. simpl in H. intuition discriminate.
    + assert (length (name_of now k pid ++ $":2,S") >= 4)%nat as L by (rewrite length_app; simpl; lia).
      repeat split; intros E; rewrite E in L; simpl in L; lia.
Qed.
Lemma take_effect n b q w w' : ours pid n -> fs w !! new_of ib n = Some (File b) ->
  Maildir.mark_processed (EC := EC) md (new_of ib n) w = (Ok q, w') ->
  fs w' = <[Maildir.cur_dir md ++ [n ++ $":2,S"] := File b]> (delete (new_of ib n) (fs w)).
Proof.
  intros Ho Hb. destruct (ours_ascii n Ho) as [Ha Hp].
  assert (file_name (new_of ib n) = Some n) as Hn.
  { destruct Ho as (now & k & ->). unfold new_of. rewrite join_plain by auto with carriers. unfold file_name. by rewrite last_snoc. }
  unfold Maildir.mark_processed. rewrite Hn, (lossy_ascii n Ha), (join_plain _ _ Hp).
  unfold lift_io, with_err, mbind, M_bind.
  pose proof (rename_effect (new_of ib n) (Maildir.cur_dir md ++ [n ++ $":2,S"]) w) as H.
  destruct (rename _ _ w) as [[[]|e] w1]; cbn in H |- *; intros [= <- <-].
  destruct H as (c & Hc & ->). congruence.
Qed.
Lemma holds_there c m t b : named c -> holds c m t -> N_ m (name c) = Some (File b) ->
  took (name c) t = [] /\ b = body c /\
  forall m' t', published m' t' (name c) (body c) -> holds c m' t'.
Proof.
  unfold holds, named, unseen, published. intros Hn H E. rewrite E in H.
  destruct (at_ c) as [| | | | | | | |[|]]; try done; naive_solver.
Qed.
Lemma inv_takes s n b q w' : Inv s -> ours pid n -> N_ (fs (files (box s))) n = Some (File b) ->
  Maildir.mark_processed (EC := EC) md (new_of ib n) (files (box s)) = (Ok q, w') ->
  Inv (Shared (calls s) (on_disk w' (box s)) (taken s ++ [(n, b)])).
Proof.
  intros I Ho Hb Hq. pose proof (take_effect n b q _ _ Ho Hb Hq) as Hw.
  assert (forall d k, d <> Maildir.cur_dir md -> ours pid k ->
    fs w' !! join d k = delete (new_of ib n) (fs (files (box s))) !! join d k) as Hne.
  { intros d k Hd (now & sq & ->). rewrite Hw, join_plain by auto with carriers.
    rewrite lookup_insert_ne; [done|]. intros E%app_inj_2; [|done]. by destruct E. }
  assert (forall k, ours pid k -> T (fs w') k = T (fs (files (box s))) k) as HT.
  { intros k Hk. etransitivity; [by apply (Hne (tmp ib))|]. apply lookup_delete_ne. by apply not_eq_sym, tmp_new. }
  assert (forall k, ours pid k -> k <> n -> N_ (fs w') k = N_ (fs (files (box s))) k) as HN.
  { intros k Hk N. etransitivity; [by apply (Hne (new ib))|]. apply lookup_delete_ne. by apply not_eq_sym, new_inj. }
  assert (N_ (fs w') n = None) as Hgone.
  { etransitivity; [by apply (Hne (new ib))|]. apply lookup_delete_eq. }
  assert (forall k, k <> n -> took k (taken s ++ [(n, b)]) = took k (taken s)) as Hto.
  { intros k N. unfold took. rewrite filter_app, filter_cons_False by (cbn; congruence). apply app_nil_r. }
  constructor; cbn [calls box taken on_disk files SEQ].
  - apply (inv_seq s I).
  - apply (inv_name s I).
  - apply (inv_inj s I).
  - intros k Hk Hf. destruct (inv_free s I k Hk Hf) as [E1 [E2 E3]].
    assert (k <> n) as N by congruence. unfold unseen. by rewrite HT, HN, Hto.
  - intros i c Hi. pose proof (inv_calls s I i c Hi) as H. destruct (decide (named c)) as [Hn|Hn].
    + pose proof (named_ours s i c I Hi Hn) as Hoc. destruct (decide (name c = n)) as [<-|N].
      * destruct (holds_there c _ _ b Hn H Hb) as (Ht & -> & Hp). apply Hp. right. split; [done|].
        unfold took in *. by rewrite filter_app, Ht, filter_cons_True.
      * eapply holds_at; [by apply HT|by apply HN|by apply Hto|done].
    + unfold named in Hn. unfold holds. destruct (at_ c); try done; by contradict Hn.
  - intros x [Hx|Hx%list_elem_of_singleton]%elem_of_app; [by apply (inv_taken s I)|by subst].
Qed.

Lemma step_grows s s' : step ib pid md s s' -> (length (calls s) <= length (calls s'))%nat.
Proof. intros []; cbn [calls]; rewrite ?length_app, ?length_insert; lia. Qed.
Lemma step_inv s s' : step ib pid md s s' -> Z.of_nat (length (calls s')) <= 2 ^ 64 -> Inv s -> Inv s'.
Proof.
  intros [b now s1|i c c' w' s1 Hi Hc|n b q w' s1 Ho Hb Hq|w' s1 Hw] Hl I; cbn [calls] in Hl.
  - by apply inv_arrives.
  - rewrite length_insert in Hl. destruct (decide (named c)) as [Hn|Hn].
    + pose proof (inv_advances s1 i c I Hi Hn) as H. by rewrite Hc in H.
    + pose proof (inv_names s1 i c I Hi Hn Hl) as H. by rewrite Hc in H.
  - by eapply inv_takes.
  - apply inv_elsewhere; [done| |done]. cbn [on_disk files]. intros n Hn. by apply Hw.
Qed.
(** The process as it starts: nothing called, nothing of its own on the disk. *)
Definition starts (s : shared) : Prop :=
  calls s = [] /\ SEQ (box s) = 0 /\ taken s = [] /\
  forall n, ours pid n -> T (fs (files (box s))) n = None /\ N_ (fs (files (box s))) n = None.
Lemma starts_inv s : starts s -> Inv s.
Proof.
  intros (Ec & Es & Et & Hf). constructor; rewrite ?Ec, ?Et; try done.
  - intros n Ho _. destruct (Hf n Ho). by repeat split.
  - intros x Hx. by apply not_elem_of_nil in Hx.
Qed.
Lemma reach_inv s0 s : starts s0 -> rtc (step ib pid md) s0 s -> Z.of_nat (length (calls s)) <= 2 ^ 64 -> Inv s.
Proof.
  intros H0. revert s. apply (rtc_ind_r (fun s => Z.of_nat (length (calls s)) <= 2 ^ 64 -> Inv s)).
  - intros _. by apply starts_inv.
  - intros s s' _ Hs IH Hl. eapply step_inv; [done|done|]. apply IH. pose proof (step_grows _ _ Hs). lia.
Qed.

(** A name that shows, in [new/] or among what was taken, is one call's, and what
    shows is that call's whole body. *)
Lemma shown_is_a_call s n b : Inv s -> ours pid n ->
  N_ (fs (files (box s))) n = Some (File b) \/ (n, b) ∈ taken s ->
  exists i c, calls s !! i = Some c /\ named c /\ name c = n /\ body c = b /\
    published (fs (files (box s))) (taken s) n b.
Proof.
  intros I Ho Hs. assert (forall c, name c = n -> named c -> holds c (fs (files (box s))) (taken s) ->
    body c = b /\ published (fs (files (box s))) (taken s) n b) as Hc.
  { intros c <- Hn Hh. assert (~ unseen (fs (files (box s))) (taken s) (name c)) as Hu.
    { intros [E1 E2]. destruct Hs as [Hs|Hs]; [congruence|].
      assert ((name c, b) ∈ took (name c) (taken s)) as Hin by (by apply list_elem_of_filter).
      rewrite E2 in Hin. by apply not_elem_of_nil in Hin. }
    assert (published (fs (files (box s))) (taken s) (name c) (body c)) as Hp.
    { unfold holds, named in *. destruct (at_ c) as [| | | | | | | |[|]]; naive_solver. }
    assert (body c = b) as <-; [|done]. destruct Hp as [[E1 E2]|[E1 E2]], Hs as [Hs|Hs]; try congruence.
    - assert ((name c, b) ∈ took (name c) (taken s)) as Hin by (by apply list_elem_of_filter).
      rewrite E2 in Hin. by apply not_elem_of_nil in Hin.
    - assert ((name c, b) ∈ took (name c) (taken s)) as Hin by (by apply list_elem_of_filter).
      rewrite E2 in Hin. apply list_elem_of_singleton in Hin. congruence. }
  destruct (decide (Exists (fun c => named c /\ name c = n) (calls s))) as [H|H].
  - apply Exists_exists in H as (c & Hin & Hn & En). apply list_elem_of_lookup in Hin as [i Hi].
    exists i, c. do 3 (split; [done|]). apply Hc; [done|done|]. by eapply (inv_calls s I).
  - exfalso. destruct (inv_free s I n Ho) as (_ & E1 & E2).
    { intros (i & c & Hi & Hn & En). apply H, Exists_exists. exists c. split; [by eapply list_elem_of_lookup_2|done]. }
    destruct Hs as [Hs|Hs]; [congruence|].
    assert ((n, b) ∈ took n (taken s)) as Hin by (by apply list_elem_of_filter).
    rewrite E2 in Hin. by apply not_elem_of_nil in Hin.
Qed.

(** C2: However the connections of one tot interleave, and whatever else happens
    on the disk, every submission that was accepted is in the inbox whole, under a
    name no other submission has, until ANTIE takes it, and is taken once: a call
    of [deliver] that returned [Ok] has its body in [new/] untaken, or gone and
    taken exactly once; one that returned an error either never showed or is whole
    too; and everything under this process's names in [new/], and everything ANTIE
    took, is the whole body of exactly one call. *)
Theorem inbox_exactly_once s0 s : starts s0 -> rtc (step ib pid md) s0 s ->
  Z.of_nat (length (calls s)) <= 2 ^ 64 ->
  (forall i c r, calls s !! i = Some c -> at_ c = Returned r ->
     published (fs (files (box s))) (taken s) (name c) (body c) \/
     (r <> Ok tt /\ unseen (fs (files (box s))) (taken s) (name c))) /\
  (forall i j c c', calls s !! i = Some c -> calls s !! j = Some c' -> named c -> named c' ->
     name c = name c' -> i = j) /\
  (forall n b, ours pid n -> N_ (fs (files (box s))) n = Some (File b) \/ (n, b) ∈ taken s ->
     exists i c, calls s !! i = Some c /\ named c /\ name c = n /\ body c = b /\
       published (fs (files (box s))) (taken s) n b) /\
  (forall x, x ∈ taken s -> ours pid x.1).
Proof.
  intros H0 Hr Hl. pose proof (reach_inv s0 s H0 Hr Hl) as I. split; [|split; [apply (inv_inj s I)|split]].
  - intros i c r Hi Ha. pose proof (inv_calls s I i c Hi) as H. unfold holds in H. rewrite Ha in H.
    destruct r as [[]|e]; [by left|]. destruct H as [H|H]; [right|by left]. done.
  - intros n b Ho Hs. by eapply shown_is_a_call.
  - apply (inv_taken s I).
Qed.

(** ** No call waits for another *)
Definition rank (c : call) : nat :=
  match at_ c with
  | Naming => length (body c) + 8 | Creating => length (body c) + 7
  | Writing rest => length rest + 6 | Syncing => 5 | Renaming => 4
  | Removing _ => 1 | OpeningDir => 2 | SyncingDir => 1 | Returned _ => 0
  end.
Lemma then_ranks {A : Type} c (m : io A) k w z :
  (forall a d, m (files w) = (Ok a, d) -> rank (goes c (k a)) <= z)%nat -> (rank (then_ c m k w).1 <= z)%nat.
Proof.
  intros H. unfold then_, on_files, zoom. destruct (m (files w)) as [[a|e] d] eqn:E; [by eapply H|]. unfold rank. cbn. lia.
Qed.
Lemma write_shrinks p rest w a d : write_once p rest w = (Ok a, d) -> rest <> [] -> (length a < length rest)%nat.
Proof.
  unfold write_once. rewrite bind_run. intros E Hr.
  assert (0 < length rest)%nat by (destruct rest; [done|cbn; lia]). revert E.
  destruct (next_outcome w) as [[[|[|k]|e0]|e0] m0]; cbn [fst snd throw]; try done;
    rewrite bind_run; destruct (append_at _ _ _) as [[[]|e1] m1]; cbn [fst snd mret M_ret]; intros [= <- <-];
    rewrite ?length_drop; cbn; lia.
Qed.
Lemma advance_ranks c w : (rank (advance ib pid c w).1 <= rank c - 1)%nat.
Proof.
  destruct c as [b now n st]. unfold advance. cbn [at_ name body].
  destruct st as [| |[|x rest]| | |e| | |r]; try (unfold rank; cbn; lia);
    (apply then_ranks; intros a d E; try (unfold rank; cbn; try destruct a; cbn; lia)).
  pose proof (write_shrinks _ _ _ _ _ E). unfold rank in *. cbn in *.
  assert (length a < S (length rest))%nat by auto. lia.
Qed.
(** Executions in which call [i] has [k] turns of its own, among any others. *)
Inductive runs (i : nat) : nat -> shared -> shared -> Prop :=
  | runs_here s : runs i 0 s s
  | runs_turn k s c c' w' s' : calls s !! i = Some c -> advance ib pid c (box s) = (c', w') ->
      runs i k (Shared (<[i := c']> (calls s)) w' (taken s)) s' -> runs i (S k) s s'
  | runs_other k s s1 s' : step ib pid md s s1 -> runs i k s1 s' -> runs i k s s'.
Lemma step_ranks i s s' c : step ib pid md s s' -> calls s !! i = Some c ->
  exists c', calls s' !! i = Some c' /\ (rank c' <= rank c)%nat.
Proof.
  intros [b now s1|j d d' w' s1 Hj Hd|n b q w' s1 _ _ _|w' s1 _] Hi; cbn [calls]; eauto.
  - exists c. split; [by apply lookup_app_l_Some|done].
  - destruct (decide (j = i)) as [->|N].
    + exists d'. rewrite list_lookup_insert_eq by (by eapply lookup_lt_Some). split; [done|].
      pose proof (advance_ranks d (box s1)) as H. rewrite Hd in H. cbn in H. simplify_eq. lia.
    + exists c. by rewrite list_lookup_insert_ne.
Qed.
(** C17: No call of [deliver] waits for another: once it has had as many turns as
    its body has bytes and eight, in whatever company, it has returned. *)
Theorem delivers_in_any_company i k s s' c : runs i k s s' -> calls s !! i = Some c ->
  (rank c <= k)%nat -> exists c' r, calls s' !! i = Some c' /\ at_ c' = Returned r.
Proof.
  intros Hr. revert c. induction Hr as [s|k s c1 c1' w' s' Hi Ha Hr IH|k s s1 s' Hs Hr IH]; intros c Hc Hk.
  - exists c. unfold rank in Hk. destruct (at_ c) as [| | | | | | | |r]; try lia. by exists r.
  - apply (IH c1'); cbn [calls]; [apply list_lookup_insert_eq; by eapply lookup_lt_Some|].
    pose proof (advance_ranks c1 (box s)) as H. rewrite Ha in H. cbn in H. simplify_eq. lia.
  - destruct (step_ranks i s s1 c Hs Hc) as (c' & Hc' & Hl). apply (IH c' Hc'). lia.
Qed.
End invariant.

(** ** A run of two connections, evaluated *)
Module Examples.
Definition inbox : Inbox := {| tmp := [$"in"; $"tmp"]; new := [$"in"; $"new"] |}.
Definition antie : Maildir.Maildir :=
  {| Maildir.base := [$"in"]; Maildir.new_dir := [$"in"; $"new"]; Maildir.cur_dir := [$"in"; $"cur"];
     Maildir.tmp_dir := [$"in"; $"tmp"] |}.
Definition fresh (o : list outcome) : shared :=
  Shared [] {| files := {| fs := {[ [$"in"] := Dir; [$"in"; $"new"] := Dir; [$"in"; $"cur"] := Dir; [$"in"; $"tmp"] := Dir ]};
    oracle := o; hist := []; listing := fun l => l |}; SEQ := 0 |} [].
Inductive act : Type := Arrive (b : bytes) (now : wall_clock) | Turn (i : nat) | Take (now : wall_clock) (k : Z).
Definition do_act (a : act) (s : shared) : option shared :=
  match a with
  | Arrive b now => Some (Shared (calls s ++ [begins b now]) (box s) (taken s))
  | Turn i => c ← calls s !! i;
      let '(c', w') := advance inbox 7 c (box s) in Some (Shared (<[i := c']> (calls s)) w' (taken s))
  | Take now k =>
      let n := name_of now k 7 in
      match fs (files (box s)) !! new_of inbox n, Maildir.mark_processed (EC := ex_errors) antie (new_of inbox n) (files (box s)) with
      | Some (File b), (Ok _, w') => Some (Shared (calls s) (on_disk w' (box s)) (taken s ++ [(n, b)]))
      | _, _ => None
      end
  end.
Fixpoint play (acts : list act) (s : shared) : option shared :=
  match acts with
  | [] => Some s
  | a :: acts' => s1 ← do_act a s; play acts' s1
  end.
Lemma play_reaches acts : forall s s', play acts s = Some s' -> rtc (step inbox 7 (EC := ex_errors) antie) s s'.
Proof.
  induction acts as [|a acts IH]; cbn [play]; intros s s'; [by intros [= ->]|].
  intros (s1 & Ha & Hp)%bind_Some. eapply rtc_l; [|by apply IH]. clear IH Hp. destruct a as [b now|i|now k]; cbn [do_act] in Ha.
  - injection Ha as <-. constructor.
  - apply bind_Some in Ha as (c & Hi & Ha). destruct (advance inbox 7 c (box s)) as [c' w'] eqn:E. injection Ha as <-.
    by eapply Advances.
  - destruct (fs (files (box s)) !! _) as [[|b]|] eqn:E; [done| |done].
    destruct (Maildir.mark_processed antie _ _) as [[q|e] w'] eqn:E2; [|done]. injection Ha as <-.
    eapply Takes; [by eexists _, _|done|exact E2].
Qed.
Lemma fresh_starts o : starts inbox 7 (fresh o).
Proof.
  do 3 (split; [done|]). intros n (now & k & ->). unfold tmp_of, new_of. rewrite !join_plain by auto with carriers.
  split; cbn [app inbox fresh box files fs tmp new]; rewrite !lookup_insert_ne by discriminate; by apply lookup_singleton_ne.
Qed.
Definition at_noon : wall_clock := {| as_secs := 12; subsec_nanos := 0 |}.
(** Two connections at the same instant, one write cut short, ANTIE taking the
    second message while the first is still being written. *)
Definition two : list act :=
  [Arrive $"first" at_noon; Arrive $"second" at_noon; Turn 0; Turn 1; Turn 1; Turn 0; Turn 0; Turn 1; Turn 1; Turn 1; Turn 1;
   Take at_noon 1; Turn 0; Turn 0; Turn 0; Turn 1; Turn 1; Turn 0; Turn 0; Turn 0; Turn 0].
Definition after_two : option shared := play two (fresh [Go; Go; Short 2]).

Definition the_end : shared := default (fresh []) after_two.
Lemma played acts s : is_Some (play acts s) -> play acts s = Some (default (fresh []) (play acts s)).
Proof. by intros [s' ->]. Qed.
Definition first_call : call := Call $"first" at_noon (name_of at_noon 0 7) (Returned (Ok tt)).
Definition second_call : call := Call $"second" at_noon (name_of at_noon 1 7) (Returned (Ok tt)).
Lemma inbox_exactly_once_witness :
  calls the_end = [first_call; second_call] /\
  published inbox (fs (files (box the_end))) (taken the_end) (name first_call) $"first" /\
  published inbox (fs (files (box the_end))) (taken the_end) (name second_call) $"second".
Proof.
  assert (calls the_end = [first_call; second_call]) as Hc by (vm_compute; reflexivity).
  pose proof (inbox_exactly_once inbox 7 (EC := ex_errors) antie ltac:(discriminate) ltac:(discriminate) ltac:(discriminate)
    (fresh [Go; Go; Short 2]) the_end (fresh_starts _)) as H.
  destruct H as (Hr & _).
  - apply (play_reaches two), (played two). apply (bool_decide_unpack _). vm_compute. exact I.
  - rewrite Hc. vm_compute. discriminate.
  - split; [exact Hc|]. split.
    + destruct (Hr 0%nat first_call (Ok tt)) as [H|[H _]]; [by rewrite Hc|done|exact H|by contradict H].
    + destruct (Hr 1%nat second_call (Ok tt)) as [H|[H _]]; [by rewrite Hc|done|exact H|by contradict H].
Defined.
(** [k] turns of the first call and nothing else. *)
Fixpoint turns (k : nat) (s : shared) : shared :=
  match k with
  | O => s
  | S k' => match calls s !! 0%nat with
            | Some c => turns k' (Shared (<[0%nat := (advance inbox 7 c (box s)).1]> (calls s)) (advance inbox 7 c (box s)).2 (taken s))
            | None => s
            end
  end.
Lemma turns_run k : forall s, calls s <> [] -> runs inbox 7 (EC := ex_errors) antie 0 k s (turns k s).
Proof.
  induction k as [|k IH]; intros s Hs; cbn [turns]; [apply runs_here|].
  destruct (calls s) as [|c cs] eqn:E; [done|]. cbn [lookup list_lookup].
  eapply runs_turn; [by rewrite E|apply surjective_pairing|]. rewrite E. by apply IH.
Qed.
Definition one_call : shared := Shared [begins $"first" at_noon] (box (fresh [])) [].
Lemma delivers_in_any_company_witness :
  exists c' r, calls (turns 13 one_call) !! 0%nat = Some c' /\ at_ c' = Returned r.
Proof.
  apply (delivers_in_any_company inbox 7 (EC := ex_errors) antie 0 13 one_call (turns 13 one_call) (begins $"first" at_noon)).
  - apply turns_run. discriminate.
  - reflexivity.
  - apply Nat.leb_le. vm_compute. reflexivity.
Defined.
End Examples.
End TotConcurrent.
