(* ===== verification/Config.v ===== *)
(** * ANTIE's configuration: [config.rs] and the configuration part of
    [carrier.rs]

    TOML parsing and CBOR are third-party: what they return is a parameter.
    Paths of the configuration are strings, as in the file. *)
From S2P Require Import Prelude Utf8 Fs Errors.
Import Errors.

Module Config.

(** ** Outbound *)
Record SmtpOutboundConfig : Type := {
    so_server : bytes; so_port : Z;
    so_username : option bytes; so_password : option bytes;
    so_use_tls : bool; from_address : bytes;
}.
Record OutboundRoute : Type := { domain : bytes; outbox : path }.
Record UncleSinkConfig : Type := { uncle_outbox : path }.
Record CustodyRoute : Type := {
  header : bytes; custody_outbox : path; suppress_email : bool }.
Record PickupConfig : Type := { dir : bytes }.
Record OutboundConfig : Type := {
    route : list OutboundRoute;
    local : option SmtpOutboundConfig;
    external : option SmtpOutboundConfig;
    uncle : option UncleSinkConfig;
    custody : list CustodyRoute;
}.

Definition AT : byte := "@"%char.
Definition SLASH : byte := "/"%char.

(** [s.split('/').next()] *)
Definition before_slash (s : bytes) : bytes :=
  match split_once SLASH s with Some (l, _) => l | None => s end.
(** What [outbox_for] routes on: the recipient without its tail, or the inner
    address of a dual-at recipient. *)
Definition route_on (recipient : bytes) : bytes :=
  let addressed := before_slash recipient in
  let inner := match rsplit_once AT addressed with Some (i, _) => i | None => addressed end in
  if contains [AT] inner then inner else addressed.

Inductive route_error : Type :=
  | NoAtSign (recipient : bytes)
  | NoRoute (domain : bytes).
Definition route_error_text (e : route_error) : bytes :=
  match e with
  | NoAtSign r => $"outbound: recipient " ++ debug_str r ++ $" has no '@' — cannot route, rejecting rather than dropping"
  | NoRoute d => $"outbound: no route for domain " ++ debug_str d
      ++ $" — REJECTING this message. Add an explicit [[outbound.route]] for it; there is no default (fail-closed and LOUD; never a silent drop or a silent misroute)"
  end.

Definition find_route (rs : list OutboundRoute) (d : bytes) : option OutboundRoute :=
  List.find (fun r => eq_ignore_ascii_case (domain r) d) rs.

Definition outbox_for (cfg : OutboundConfig) (recipient : bytes)
    : result route_error (option path) :=
  if decide (route cfg = []) then Ok None
  else match rsplit_once AT (route_on recipient) with
       | None => Err (NoAtSign recipient)
       | Some (_, d) =>
           let d := to_ascii_lowercase (before_slash d) in
           match find_route (route cfg) d with
           | Some r => Ok (Some (outbox r))
           | None => Err (NoRoute d)
           end
       end.
#[export] Instance OutboundRoute_eq_dec : EqDecision OutboundRoute.
Proof. solve_decision. Defined.

(** [split_carrier::recipient_is_local] *)
Definition recipient_is_local (to : bytes) : bool :=
  match rsplit_once AT to with
  | None => false
  | Some (_, d) =>
      let d := before_slash d in
      bool_decide (d = $"axiom") || bool_decide (d = $"axiom.internal")
  end.

(** ** Inbound carriers *)
Record MaildirConfig : Type := { inbox : path; md_outbox : path }.
Record ImapConfig : Type := {
    imap_enabled : bool; imap_server : bytes; imap_port : Z;
    imap_username : bytes; imap_password : bytes; imap_use_tls : bool;
    inbox_folder : bytes; use_idle : bool;
}.
(** [spam_entropy_threshold], an [f32], is kept abstract by its bit pattern. *)
Record Pop3Config : Type := {
    pop3_enabled : bool; pop3_server : bytes; pop3_port : Z;
    pop3_username : bytes; pop3_password : bytes; pop3_use_tls : bool;
    spam_entropy_threshold : option Z;
}.
Record CarriersConfig : Type := {
    maildir : option MaildirConfig;
    imap : list ImapConfig;
    pop3 : list Pop3Config;
    advertise : list bytes;
}.

(** *** [IpAddr] literals *)
Definition octet (s : bytes) : option Z :=
  match s with
  | [] => None
  | c :: r =>
      if bool_decide (c = "0"%char) && negb (bool_decide (r = [])) then None
      else if (3 <? length s)%nat || negb (forallb is_digit s) then None
      else parse_uint U8_MAX s
  end.
Definition parse_ipv4 (s : bytes) : option (list Z) :=
  match split "."%char s with
  | [a; b; c; d] =>
      match octet a, octet b, octet c, octet d with
      | Some a, Some b, Some c, Some d => Some [a; b; c; d]
      | _, _, _, _ => None
      end
  | _ => None
  end.
Definition hex_value (b : byte) : option Z :=
  let c := Z.of_N (code b) in
  if is_digit b then Some (c - 48)
  else if (97 <=? c) && (c <=? 102) then Some (c - 87)
  else if (65 <=? c) && (c <=? 70) then Some (c - 55)
  else None.
Fixpoint hex_number (acc : Z) (s : bytes) : option Z :=
  match s with
  | [] => Some acc
  | b :: s' => match hex_value b with Some v => hex_number (16 * acc + v) s' | None => None end
  end.
Definition group16 (s : bytes) : option Z :=
  if bool_decide (s = []) || (4 <? length s)%nat then None else hex_number 0 s.
(** Colon-separated groups; the last may be a dotted quad where [v4] allows. *)
Fixpoint groups (gs : list bytes) : option (list Z) :=
  match gs with
  | [] => Some []
  | [g] => match group16 g with
           | Some v => Some [v]
           | None => match parse_ipv4 g with
                     | Some [a; b; c; d] => Some [256 * a + b; 256 * c + d]
                     | _ => None
                     end
           end
  | g :: gs' => match group16 g, groups gs' with
                | Some v, Some vs => Some (v :: vs)
                | _, _ => None
                end
  end.
Definition plain_groups (gs : list bytes) : option (list Z) := mapM group16 gs.
Definition colon_list (s : bytes) : list bytes :=
  if decide (s = []) then [] else split ":"%char s.
Definition parse_ipv6 (s : bytes) : option (list Z) :=
  match find_sub $"::" s with
  | None => match groups (split ":"%char s) with
            | Some vs => if (length vs =? 8)%nat then Some vs else None
            | None => None
            end
  | Some i =>
      match plain_groups (colon_list (take i s)), groups (colon_list (drop (i + 2) s)) with
      | Some h, Some t =>
          if (length h + length t <? 8)%nat
          then Some (h ++ repeat 0 (8 - length h - length t) ++ t) else None
      | _, _ => None
      end
  end.
(** [host_is_loopback] *)
Definition host_is_loopback (host : bytes) : bool :=
  bool_decide (host = $"localhost") ||
  match parse_ipv4 host with
  | Some (a :: _) => a =? 127
  | _ => match parse_ipv6 host with
         | Some vs => bool_decide (vs = [0; 0; 0; 0; 0; 0; 0; 1])
         | None => false
         end
  end.

Definition MAX_INBOUND_ACCOUNTS : nat := 5.

Section carriers.
Context `{EC : ErrorsCrate}.

Definition validate_inbound_count (c : CarriersConfig) : result AntieError unit :=
  let n := (length (imap c) + length (pop3 c))%nat in
  if (MAX_INBOUND_ACCOUNTS <? n)%nat
  then Err (ConfigError (show_N (N.of_nat n) ++ $" inbound accounts configured ([[carriers.imap]] + [[carriers.pop3]]); the maximum is "
    ++ show_N (N.of_nat MAX_INBOUND_ACCOUNTS) ++ $". ANTIE will not start — remove entries (design §5.2.2f)."))
  else Ok tt.
Definition has_network_pull (c : CarriersConfig) : bool :=
  negb (bool_decide (imap c = [])) || negb (bool_decide (pop3 c = [])).
Definition is_some {A} (o : option A) : bool := match o with Some _ => true | None => false end.

Definition plaintext_imap (i : ImapConfig) : bool :=
  negb (imap_use_tls i) && negb (host_is_loopback (imap_server i)).
Definition validate (c : CarriersConfig) : result AntieError unit :=
  if negb (is_some (maildir c) || has_network_pull c) then
  Err (ConfigError $"at least one email carrier (maildir, imap, or pop3) must be configured — tcp alone is not valid; email is required for fan-out")
  else if has_network_pull c && negb (is_some (maildir c)) then
  Err (ConfigError $"pop3/imap carriers deliver into [carriers.maildir] inbox/new/ (the single inbound funnel) — configure [carriers.maildir] when using pop3 or imap")
  else match List.find plaintext_imap (imap c) with
     | Some i => Err (ConfigError ($"IMAP to " ++ imap_server i ++ $" with use_tls = false: LOGIN would send the mailbox password in cleartext to a non-loopback host. Enable TLS."))
     | None => Ok tt
     end.
Definition any_enabled (c : CarriersConfig) : bool := is_some (maildir c) || has_network_pull c.
Definition to_uri_list (c : CarriersConfig) (identity_email : bytes) : list bytes :=
  (if is_some (maildir c) || has_network_pull c then [$"email:" ++ identity_email] else [])
  ++ advertise c.
End carriers.
#[export] Instance ImapConfig_eq_dec : EqDecision ImapConfig.
Proof. solve_decision. Defined.
#[export] Instance Pop3Config_eq_dec : EqDecision Pop3Config.
Proof. solve_decision. Defined.

(** ** The rest of [AntieConfig] *)
Inductive OnStall : Type := NotifyOnly | NotifyAndRestart.
Record PerformanceConfig : Type := {
    busy_threshold_ms : Z; lambda_stats_poll_ms : Z;
    lambda_admin_port : option Z; lambda_admin_token : option bytes;
}.
Definition performance_default : PerformanceConfig := {|
  busy_threshold_ms := 15000; lambda_stats_poll_ms := 2000;
  lambda_admin_port := None; lambda_admin_token := None |}.

Record ValidatorConfig : Type := {
    public_key_hex : bytes; dilithium_pk_hex : bytes;
    vbc_path : option bytes; private_key_path : option bytes;
}.
Definition validator_default : ValidatorConfig := {|
  public_key_hex := []; dilithium_pk_hex := []; vbc_path := None; private_key_path := None |}.
Definition has_key (v : ValidatorConfig) : bool := (length (public_key_hex v) =? 64)%nat.
(** [hex::decode] *)
Fixpoint hex_decode (s : bytes) : option bytes :=
  match s with
  | [] => Some []
  | a :: b :: s' =>
      match hex_value a, hex_value b, hex_decode s' with
      | Some x, Some y, Some r => Some (ch (Z.to_N (16 * x + y)) :: r)
      | _, _, _ => None
      end
  | [_] => None
  end.
Definition public_key_bytes (v : ValidatorConfig) : option bytes :=
  if has_key v then hex_decode (public_key_hex v) else None.
Definition dilithium_pk_bytes (v : ValidatorConfig) : option bytes :=
  if bool_decide (dilithium_pk_hex v = []) then None else hex_decode (dilithium_pk_hex v).

Inductive LambdaConfig : Type :=
  | Tcp (address : bytes) (timeout_secs : Z)
        (tls_server_name tls_ca_cert_path : option bytes)
  | Subprocess (binary_path config_path : bytes).
Definition lambda_default : LambdaConfig :=
  Subprocess $"./axiom-lambda/target/release/lambda" $"./config/lambda-config.toml".
Record IdentityConfig : Type := { email : bytes; id_name : bytes }.
Definition identity_default : IdentityConfig :=
  {| email := $"validator@axiom.local"; id_name := $"AXIOM Validator" |}.

Record AntieConfig : Type := {
    carriers : CarriersConfig;
    outbound : OutboundConfig;
    lambda : LambdaConfig;
    validator : ValidatorConfig;
    identity : IdentityConfig;
    log_level : bytes;
    poll_interval_ms : Z;
    health_port : Z;
    health_token : option bytes;
    on_stall : OnStall;
    pickup : option PickupConfig;
    performance : PerformanceConfig;
    wallet_witness_cooldown_ms : option Z;
    nabla_ban_list_path : option bytes;
    skip_list_path : option bytes;
    skipped_dir_path : option bytes;
}.
Definition antie_default : AntieConfig := {|
  carriers := {| maildir := Some {| inbox := parse_path $"./maildir/inbox";
                                    md_outbox := parse_path $"./maildir/outbox" |};
                 imap := []; pop3 := []; advertise := [] |};
  outbound := {| route := []; local := None; external := None; uncle := None; custody := [] |};
  lambda := lambda_default;
  validator := validator_default;
  identity := identity_default;
  log_level := $"info";
  poll_interval_ms := 2000;
  health_port := 7779;
  health_token := None;
  on_stall := NotifyOnly;
  pickup := None;
  performance := performance_default;
  wallet_witness_cooldown_ms := None;
  nabla_ban_list_path := None;
  skip_list_path := None;
  skipped_dir_path := None |}.

Definition set_carriers (c : CarriersConfig) (a : AntieConfig) : AntieConfig := {|
  carriers := c; outbound := outbound a; lambda := lambda a; validator := validator a;
  identity := identity a; log_level := log_level a; poll_interval_ms := poll_interval_ms a;
  health_port := health_port a; health_token := health_token a; on_stall := on_stall a;
  pickup := pickup a; performance := performance a;
  wallet_witness_cooldown_ms := wallet_witness_cooldown_ms a;
  nabla_ban_list_path := nabla_ban_list_path a; skip_list_path := skip_list_path a;
  skipped_dir_path := skipped_dir_path a |}.
Definition set_outbound (o : OutboundConfig) (a : AntieConfig) : AntieConfig := {|
  carriers := carriers a; outbound := o; lambda := lambda a; validator := validator a;
  identity := identity a; log_level := log_level a; poll_interval_ms := poll_interval_ms a;
  health_port := health_port a; health_token := health_token a; on_stall := on_stall a;
  pickup := pickup a; performance := performance a;
  wallet_witness_cooldown_ms := wallet_witness_cooldown_ms a;
  nabla_ban_list_path := nabla_ban_list_path a; skip_list_path := skip_list_path a;
  skipped_dir_path := skipped_dir_path a |}.
Definition set_ban_list (p : option bytes) (a : AntieConfig) : AntieConfig := {|
  carriers := carriers a; outbound := outbound a; lambda := lambda a; validator := validator a;
  identity := identity a; log_level := log_level a; poll_interval_ms := poll_interval_ms a;
  health_port := health_port a; health_token := health_token a; on_stall := on_stall a;
  pickup := pickup a; performance := performance a;
  wallet_witness_cooldown_ms := wallet_witness_cooldown_ms a;
  nabla_ban_list_path := p; skip_list_path := skip_list_path a;
  skipped_dir_path := skipped_dir_path a |}.

Definition NABLA_BAN_FILE : bytes := $"nabla_bans.txt".
(** The directory above the one of the configuration file. *)
Definition default_nabla_ban_list_path (config_path : path) : option path :=
  match config_path with
  | [] | [_] => None
  | _ => Some (join (parent (parent config_path)) NABLA_BAN_FILE)
  end.

(** ** Mail secrets *)
Record MailCred : Type := { username : bytes; password : bytes }.
Record MailSecrets : Type := { ms_external : option MailCred; ms_inbound : list MailCred }.

Definition with_smtp_cred (cred : MailCred) (e : SmtpOutboundConfig) : SmtpOutboundConfig :=
  {| so_server := so_server e; so_port := so_port e;
     so_username := Some (username cred); so_password := Some (password cred);
     so_use_tls := so_use_tls e; from_address := from_address e |}.
Definition with_pop3_cred (cred : MailCred) (c : Pop3Config) : Pop3Config :=
  if decide (pop3_username c = username cred)
  then {| pop3_enabled := pop3_enabled c; pop3_server := pop3_server c; pop3_port := pop3_port c;
          pop3_username := pop3_username c; pop3_password := password cred;
          pop3_use_tls := pop3_use_tls c;
          spam_entropy_threshold := spam_entropy_threshold c |}
  else c.
Definition with_imap_cred (cred : MailCred) (c : ImapConfig) : ImapConfig :=
  if decide (imap_username c = username cred)
  then {| imap_enabled := imap_enabled c; imap_server := imap_server c; imap_port := imap_port c;
          imap_username := imap_username c; imap_password := password cred;
          imap_use_tls := imap_use_tls c; inbox_folder := inbox_folder c;
          use_idle := use_idle c |}
  else c.
Definition apply_cred (c : CarriersConfig) (cred : MailCred) : CarriersConfig :=
  {| maildir := maildir c; imap := map (with_imap_cred cred) (imap c);
     pop3 := map (with_pop3_cred cred) (pop3 c); advertise := advertise c |}.
Definition apply_secrets (s : MailSecrets) (a : AntieConfig) : AntieConfig :=
  let a := match ms_external s, external (outbound a) with
           | Some cred, Some e =>
               set_outbound {| route := route (outbound a); local := local (outbound a);
                               external := Some (with_smtp_cred cred e);
                               uncle := uncle (outbound a); custody := custody (outbound a) |} a
           | _, _ => a
           end in
  set_carriers (foldl apply_cred (carriers a) (ms_inbound s)) a.

Section load.
Context `{EC : ErrorsCrate}.
(** [toml::from_str] of the three file kinds, with the text of its error. *)
Context (toml_config : bytes -> result bytes AntieConfig).
Context (toml_secrets : bytes -> result bytes MailSecrets).
(** The top-level [admin_token] and [admin_port] of a Lambda configuration. *)
Context (toml_admin : bytes -> option (option bytes * option Z)).
(** [$AXIOM_MAIL_SECRETS] *)
Context (env_secrets : option path).

Definition MIN_NETWORK_POLL_MS : Z := 500.
Definition validate_poll_rate (a : AntieConfig) : result AntieError unit :=
  if has_network_pull (carriers a) && (poll_interval_ms a <? MIN_NETWORK_POLL_MS)
  then Err (ConfigError ($"poll_interval_ms = " ++ show_Z (poll_interval_ms a)
    ++ $" is below the " ++ show_Z MIN_NETWORK_POLL_MS
    ++ $"ms floor. A POP3/IMAP carrier is configured, so this loop issues one request per tick to a third-party server — "
    ++ show_Z (poll_interval_ms a) ++ $"ms is ~" ++ show_Z (1000 / Z.max 1 (poll_interval_ms a))
    ++ $" requests/second, sustained. Raise poll_interval_ms."))
  else Ok tt.

Definition read_to_string (p : path) : io bytes :=
  b ← read_file p;
  if is_utf8 b then mret b
  else throw (IoErr InvalidData $"stream did not contain valid UTF-8").
Definition file_exists (p : path) : M world AntieError bool :=
  m ← gets fs; mret (is_some (m !! p) || bool_decide (p = [])).

Definition apply_mail_secrets (config_path : path) (a : AntieConfig)
  : M world AntieError AntieConfig :=
  let secrets_path := match env_secrets with
                    | Some p => p
                    | None => join (parent config_path) $"mail-secrets.toml"
                    end in
  here ← file_exists secrets_path;
  if negb here then mret a
  else
  content ← with_err (fun e => ConfigError ($"mail-secrets read " ++ display_path secrets_path ++ $": " ++ io_msg e))
              (read_to_string secrets_path);
  s ← lift (map_err (fun e => ConfigError ($"mail-secrets parse: " ++ e)) (toml_secrets content));
  mret (apply_secrets s a).

Definition load (config_path : path) : M world AntieError AntieConfig :=
  content ← lift_io (read_to_string config_path);
  a ← lift (map_err ConfigError (toml_config content));
  a ← apply_mail_secrets config_path a;
  let a := if is_some (nabla_ban_list_path a) then a
         else set_ban_list (match default_nabla_ban_list_path config_path with
                            | Some p => Some ($"/" ++ concat (map (fun c => c ++ $"/") (removelast p))
                                              ++ unwrap_or [] (last p))
                            | None => None end) a in
  _ ← lift (validate (carriers a));
  _ ← lift (validate_inbound_count (carriers a));
  _ ← lift (validate_poll_rate a);
  mret a.

Definition nonempty (t : option bytes) : option bytes :=
  match t with Some [] => None | t => t end.
Definition resolve_lambda_admin_token (a : AntieConfig) : M world AntieError (option bytes) :=
  match nonempty (lambda_admin_token (performance a)) with
  | Some t => mret (Some t)
  | None =>
    match lambda a with
    | Tcp _ _ _ _ => mret None
    | Subprocess _ config_path =>
        r ← attempt (E := io_error) (read_to_string (parse_path config_path));
        mret (match r with
              | Err _ => None
              | Ok text => match toml_admin text with
                           | Some (t, _) => nonempty t
                           | None => None
                           end
              end)
    end
  end.
Definition valid_port (p : option Z) : option Z :=
  match p with
  | Some p => if (0 <? p) && (p <=? U16_MAX) then Some p else None
  | None => None
  end.
Definition resolve_lambda_admin_port (a : AntieConfig) : M world AntieError (option Z) :=
  match valid_port (lambda_admin_port (performance a)) with
  | Some p => mret (Some p)
  | None =>
    match lambda a with
    | Tcp _ _ _ _ => mret None
    | Subprocess _ config_path =>
        r ← attempt (E := io_error) (read_to_string (parse_path config_path));
        mret (match r with
              | Err _ => None
              | Ok text => match toml_admin text with
                           | Some (_, p) => valid_port p
                           | None => None
                           end
              end)
    end
  end.
End load.

(** ** Lemmas *)
Lemma split_once_app c l r : c ∉ l -> split_once c (l ++ c :: r) = Some (l, r).
Proof. intros N. by apply split_once_Some. Qed.
Lemma rsplit_once_app c l r : c ∉ r -> rsplit_once c (l ++ c :: r) = Some (l, r).
Proof. intros N. by apply rsplit_once_Some. Qed.
Lemma rsplit_once_None c s : c ∉ s -> rsplit_once c s = None.
Proof.
  intros N. destruct (rsplit_once c s) as [[l r]|] eqn:E; [|done].
  apply rsplit_once_Some in E as [-> _]. set_solver.
Qed.
Lemma contains_false c s : c ∉ s -> contains [c] s = false.
Proof.
  intros N. destruct (contains [c] s) eqn:E; [|done]. by apply contains_single in E.
Qed.
Lemma contains_true c s : c ∈ s -> contains [c] s = true.
Proof. intros N. by apply contains_single. Qed.
(** The tail of a wallet id: nothing, or a slash and anything. *)
Definition is_tail (t : bytes) : Prop := t = [] \/ exists r, t = SLASH :: r.
Lemma before_slash_tail s t : SLASH ∉ s -> is_tail t -> before_slash (s ++ t) = s.
Proof.
  intros N [->|[r ->]]; unfold before_slash.
  - rewrite app_nil_r. by rewrite (proj2 (split_once_None SLASH s)).
  - by rewrite split_once_app.
Qed.
Lemma route_on_plain u d t :
  AT ∉ u -> AT ∉ d -> SLASH ∉ u -> SLASH ∉ d -> is_tail t ->
  route_on (u ++ [AT] ++ d ++ t) = u ++ AT :: d.
Proof.
  intros Hu Hd Su Sd Ht. unfold route_on.
  replace (u ++ [AT] ++ d ++ t) with ((u ++ AT :: d) ++ t) by (by rewrite <- app_assoc).
  rewrite before_slash_tail; [|set_solver|done].
  rewrite rsplit_once_app by done. by rewrite contains_false.
Qed.
Lemma route_on_dual u d h t :
  AT ∉ u -> AT ∉ d -> AT ∉ h -> SLASH ∉ u -> SLASH ∉ d -> SLASH ∉ h -> is_tail t ->
  route_on (u ++ [AT] ++ d ++ [AT] ++ h ++ t) = u ++ AT :: d.
Proof.
  intros Hu Hd Hh Su Sd Sh Ht. unfold route_on.
  replace (u ++ [AT] ++ d ++ [AT] ++ h ++ t) with (((u ++ AT :: d) ++ AT :: h) ++ t)
    by (rewrite <- !app_assoc; simpl; by rewrite <- ?app_assoc).
  rewrite before_slash_tail; [|set_solver|done].
  rewrite rsplit_once_app by done. rewrite contains_true by set_solver. done.
Qed.
Lemma lower_idem b : ascii_lower (ascii_lower b) = ascii_lower b.
Proof.
  unfold ascii_lower. destruct ((65 <=? code b) && (code b <=? 90))%N eqn:E; [|by rewrite E].
  apply andb_true_iff in E as [E1 E2]. rewrite N.leb_le in E1, E2.
  rewrite code_ch by lia. destruct ((65 <=? code b + 32) && (code b + 32 <=? 90))%N eqn:F; [|done].
  apply andb_true_iff in F as [_ F]. rewrite N.leb_le in F. lia.
Qed.
Lemma lowercase_idem s : to_ascii_lowercase (to_ascii_lowercase s) = to_ascii_lowercase s.
Proof. unfold to_ascii_lowercase. rewrite map_map. apply map_ext, lower_idem. Qed.
Lemma find_route_Some rs d r :
  find_route rs d = Some r ->
  r ∈ rs /\ to_ascii_lowercase (domain r) = to_ascii_lowercase d.
Proof.
  intros H. apply List.find_some in H as [Hin E]. split; [by apply list_elem_of_In|].
  by apply bool_decide_eq_true in E.
Qed.

(** What the routing of a domain must be: the first row of that domain. *)
Definition routed_to (cfg : OutboundConfig) (d : bytes) (r : result route_error (option path)) : Prop :=
  match r with
  | Ok (Some p) =>
      exists row, find_route (route cfg) (to_ascii_lowercase d) = Some row /\ p = outbox row /\
        row ∈ route cfg /\ to_ascii_lowercase (domain row) = to_ascii_lowercase d
  | Ok None => False
  | Err e => e = NoRoute (to_ascii_lowercase d) /\
      forall row, row ∈ route cfg -> to_ascii_lowercase (domain row) <> to_ascii_lowercase d
  end.
Lemma routed_to_lookup cfg d :
  SLASH ∉ d ->
  routed_to cfg d
    (let d := to_ascii_lowercase (before_slash d) in
     match find_route (route cfg) d with
     | Some r => Ok (Some (outbox r))
     | None => Err (NoRoute d)
     end).
Proof.
  intros N. assert (before_slash d = d) as ->.
  { rewrite <- (app_nil_r d) at 1. apply before_slash_tail; [done|by left]. }
  cbv zeta. destruct (find_route _ _) as [r|] eqn:E; simpl.
  - exists r. pose proof (find_route_Some _ _ _ E) as [H1 H2].
    rewrite lowercase_idem in H2. auto.
  - split; [done|]. intros row Hrow Heq.
    apply list_elem_of_In in Hrow. pose proof (List.find_none _ _ E row Hrow) as F.
    unfold eq_ignore_ascii_case in F. rewrite lowercase_idem in F.
    by apply bool_decide_eq_false in F.
Qed.

(** C22: outbound routing is exact and fails closed.  With a routing table in
    use, a plain recipient routes on its own domain and a dual-at recipient on
    its inner one, whatever the wallet-id tail: to the first row whose domain is
    that domain up to ASCII case, and to an error, never to a default, when no
    row is.  A recipient without an at-sign is an error; only an empty table
    falls back to the legacy path. *)
Theorem outbox_for_exact cfg u d h t :
  AT ∉ u -> AT ∉ d -> AT ∉ h -> SLASH ∉ u -> SLASH ∉ d -> SLASH ∉ h -> is_tail t ->
  (route cfg <> [] ->
     routed_to cfg d (outbox_for cfg (u ++ [AT] ++ d ++ t)) /\
     routed_to cfg d (outbox_for cfg (u ++ [AT] ++ d ++ [AT] ++ h ++ t)) /\
     outbox_for cfg (u ++ t) = Err (NoAtSign (u ++ t))) /\
  (route cfg = [] -> forall recipient, outbox_for cfg recipient = Ok None).
Proof.
  intros Hu Hd Hh Su Sd Sh Ht. split; [|by intros H r; unfold outbox_for; rewrite decide_True].
  intros Hr. unfold outbox_for. rewrite !decide_False by done. repeat split.
  - rewrite route_on_plain by done. rewrite rsplit_once_app by done. by apply routed_to_lookup.
  - rewrite route_on_dual by done. rewrite rsplit_once_app by done. by apply routed_to_lookup.
  - unfold route_on. rewrite before_slash_tail by done.
    rewrite (rsplit_once_None AT u) by done. rewrite contains_false by done.
    by rewrite rsplit_once_None.
Qed.
Definition ex_table : OutboundConfig := {|
  route := [{| domain := $"Axiom.internal"; outbox := [$"out"; $"cluster"] |};
            {| domain := $"purelymail.com"; outbox := [$"out"; $"mail"] |}];
  local := None; external := None; uncle := None; custody := [] |}.
Lemma outbox_for_exact_witness :
  outbox_for ex_table $"alice@axiom.internal@node.example.com/ab12" = Ok (Some [$"out"; $"cluster"]) /\
  routed_to ex_table $"axiom.internal" (outbox_for ex_table $"alice@axiom.internal@node.example.com/ab12").
Proof.
  split; [vm_compute; reflexivity|].
  refine (proj1 (proj2 (proj1 (outbox_for_exact ex_table $"alice" $"axiom.internal" $"node.example.com"
     $"/ab12" _ _ _ _ _ _ _) _)));
    try (apply (bool_decide_unpack _); vm_compute; exact I).
  right. by exists $"ab12".
Defined.

(** The two readings of "the domain" disagree.  For every dual-at recipient
    of the cluster delivered through another host, and for every recipient that
    spells the cluster domain in upper case, [outbox_for] routes on the cluster
    domain while [recipient_is_local] calls the recipient external. *)
Theorem domain_readings_disagree cfg u h t :
  route cfg <> [] -> AT ∉ u -> AT ∉ h -> SLASH ∉ u -> SLASH ∉ h -> is_tail t ->
  AT ∉ t -> h <> $"axiom" -> h <> $"axiom.internal" ->
  (routed_to cfg $"axiom.internal" (outbox_for cfg (u ++ [AT] ++ $"axiom.internal" ++ [AT] ++ h ++ t)) /\
   recipient_is_local (u ++ [AT] ++ $"axiom.internal" ++ [AT] ++ h ++ t) = false) /\
  (routed_to cfg $"axiom" (outbox_for cfg (u ++ [AT] ++ $"AXIOM" ++ t)) /\
   recipient_is_local (u ++ [AT] ++ $"AXIOM" ++ t) = false).
Proof.
  intros Hr Hu Hh Su Sh Ht Nt N1 N2.
  assert (AT ∉ $"axiom.internal" /\ SLASH ∉ $"axiom.internal" /\ AT ∉ $"AXIOM" /\ SLASH ∉ $"AXIOM")
    as (A1 & A2 & A3 & A4) by (repeat split; apply (bool_decide_unpack _); vm_compute; exact I).
  repeat split.
  - unfold outbox_for. rewrite decide_False by done. rewrite route_on_dual by done.
    rewrite rsplit_once_app by done. by apply routed_to_lookup.
  - unfold recipient_is_local.
    replace (u ++ [AT] ++ $"axiom.internal" ++ [AT] ++ h ++ t)
      with ((u ++ AT :: $"axiom.internal") ++ AT :: (h ++ t)) by (by rewrite <- !app_assoc).
    rewrite rsplit_once_app by set_solver. rewrite before_slash_tail by done.
    by rewrite !bool_decide_false.
  - unfold outbox_for. rewrite decide_False by done. rewrite route_on_plain by done.
    rewrite rsplit_once_app by done. by apply (routed_to_lookup cfg $"AXIOM").
  - unfold recipient_is_local.
    change (u ++ [AT] ++ $"AXIOM" ++ t) with (u ++ AT :: ($"AXIOM" ++ t)).
    rewrite rsplit_once_app by set_solver.
    rewrite before_slash_tail by done. done.
Qed.
Lemma domain_readings_disagree_witness :
  routed_to ex_table $"axiom.internal" (outbox_for ex_table $"bob@axiom.internal@h.net/ff") /\
  recipient_is_local $"bob@axiom.internal@h.net/ff" = false.
Proof.
  refine (proj1 (domain_readings_disagree ex_table $"bob" $"h.net" $"/ff" _ _ _ _ _ _ _ _ _));
    try (apply (bool_decide_unpack _); vm_compute; exact I).
  right. by exists $"ff".
Defined.

(** ** Loading *)
Section load_theorem.
Context `{EC : ErrorsCrate}.
Context (toml_config : bytes -> result bytes AntieConfig).
Context (toml_secrets : bytes -> result bytes MailSecrets).
Context (env_secrets : option path).

(** *** What the secrets file may change *)
Definition imap_with_password (q : bytes) (c : ImapConfig) : ImapConfig := {|
  imap_enabled := imap_enabled c; imap_server := imap_server c; imap_port := imap_port c; imap_username := imap_username c;
  imap_password := q; imap_use_tls := imap_use_tls c; inbox_folder := inbox_folder c; use_idle := use_idle c |}.
Definition pop3_with_password (q : bytes) (c : Pop3Config) : Pop3Config := {|
  pop3_enabled := pop3_enabled c; pop3_server := pop3_server c; pop3_port := pop3_port c; pop3_username := pop3_username c;
  pop3_password := q; pop3_use_tls := pop3_use_tls c; spam_entropy_threshold := spam_entropy_threshold c |}.
Definition smtp_with_login (u q : option bytes) (c : SmtpOutboundConfig) : SmtpOutboundConfig := {|
  so_server := so_server c; so_port := so_port c; so_username := u; so_password := q; so_use_tls := so_use_tls c;
  from_address := from_address c |}.
(** The password of an account: that of the last secret for its user name, its own
    where there is none. *)
Definition password_for (user own : bytes) (creds : list MailCred) : bytes :=
  match List.find (fun c => bool_decide (user = username c)) (rev creds) with Some c => password c | None => own end.
(** A configuration with the passwords of its mailboxes and the login of the
    external relay blanked; all else as it is. *)
Definition without_credentials (a : AntieConfig) : AntieConfig :=
  set_outbound {| route := route (outbound a); local := local (outbound a);
                  external := smtp_with_login None None <$> external (outbound a);
                  uncle := uncle (outbound a); custody := custody (outbound a) |}
    (set_carriers {| maildir := maildir (carriers a); imap := map (imap_with_password []) (imap (carriers a));
                     pop3 := map (pop3_with_password []) (pop3 (carriers a)); advertise := advertise (carriers a) |} a).
(** [a] is [b] with the given secrets, and nothing else, applied. *)
Definition secrets_applied (inbound : list MailCred) (relay : option MailCred) (b a : AntieConfig) : Prop :=
  without_credentials a = without_credentials b /\
  imap (carriers a) = map (fun c => imap_with_password (password_for (imap_username c) (imap_password c) inbound) c) (imap (carriers b)) /\
  pop3 (carriers a) = map (fun c => pop3_with_password (password_for (pop3_username c) (pop3_password c) inbound) c) (pop3 (carriers b)) /\
  external (outbound a) = match relay, external (outbound b) with
    | Some r, Some e => Some (smtp_with_login (Some (username r)) (Some (password r)) e)
    | _, e => e
    end.

Lemma password_for_snoc user own l c :
  password_for user own (l ++ [c]) = if decide (user = username c) then password c else password_for user own l.
Proof.
  unfold password_for. rewrite rev_app_distr. cbn [rev app List.find]. case_decide as D; [by rewrite bool_decide_true|].
  by rewrite bool_decide_false.
Qed.
Lemma imap_creds l c : imap (foldl apply_cred c l) =
  map (fun x => imap_with_password (password_for (imap_username x) (imap_password x) l) x) (imap c).
Proof.
  induction l as [|k l IH] using rev_ind; cbn [foldl]; [rewrite <- (map_id (imap c)) at 1; apply map_ext; by intros []|].
  rewrite foldl_app. cbn [foldl apply_cred imap]. rewrite IH, map_map. apply map_ext. intros x.
  unfold with_imap_cred. cbn [imap_username imap_with_password]. rewrite password_for_snoc. by case_decide.
Qed.
Lemma pop3_creds l c : pop3 (foldl apply_cred c l) =
  map (fun x => pop3_with_password (password_for (pop3_username x) (pop3_password x) l) x) (pop3 c).
Proof.
  induction l as [|k l IH] using rev_ind; cbn [foldl]; [rewrite <- (map_id (pop3 c)) at 1; apply map_ext; by intros []|].
  rewrite foldl_app. cbn [foldl apply_cred pop3]. rewrite IH, map_map. apply map_ext. intros x.
  unfold with_pop3_cred. cbn [pop3_username pop3_with_password]. rewrite password_for_snoc. by case_decide.
Qed.
Lemma creds_keep l c : maildir (foldl apply_cred c l) = maildir c /\ advertise (foldl apply_cred c l) = advertise c.
Proof. revert c. induction l as [|x l IH]; intros c; [done|]. cbn [foldl]. by rewrite !(proj1 (IH _)), !(proj2 (IH _)). Qed.
Lemma secrets_applied_refl a : secrets_applied [] None a a.
Proof.
  split; [done|]. split; [|split; [|done]].
  - rewrite <- (map_id (imap (carriers a))) at 1. apply map_ext. by intros [].
  - rewrite <- (map_id (pop3 (carriers a))) at 1. apply map_ext. by intros [].
Qed.
Lemma apply_secrets_only s a : secrets_applied (ms_inbound s) (ms_external s) a (apply_secrets s a).
Proof.
  set (c := foldl apply_cred (carriers a) (ms_inbound s)).
  destruct (creds_keep (ms_inbound s) (carriers a)) as [K1 K2].
  pose proof (imap_creds (ms_inbound s) (carriers a)) as I. pose proof (pop3_creds (ms_inbound s) (carriers a)) as P.
  fold c in K1, K2, I, P.
  assert (map (imap_with_password []) (imap c) = map (imap_with_password []) (imap (carriers a))) as BI by (by rewrite I, map_map).
  assert (map (pop3_with_password []) (pop3 c) = map (pop3_with_password []) (pop3 (carriers a))) as BP by (by rewrite P, map_map).
  unfold secrets_applied, without_credentials, apply_secrets.
  destruct (ms_external s) as [r|], (external (outbound a)) as [e|] eqn:X; cbn; fold c; rewrite ?X; cbn;
    rewrite K1, K2, BI, BP; by repeat split.
Qed.
(** No secrets file, or one that parses. *)
Definition secrets_file (inbound : list MailCred) (relay : option MailCred) : Prop :=
  (inbound = [] /\ relay = None) \/
  exists content s, toml_secrets content = Ok s /\ ms_inbound s = inbound /\ ms_external s = relay.
Lemma apply_mail_secrets_only p a w :
  match (apply_mail_secrets toml_secrets env_secrets p a w).1 with
  | Ok b => exists inbound relay, secrets_file inbound relay /\ secrets_applied inbound relay a b
  | Err _ => True
  end.
Proof.
  unfold apply_mail_secrets, mbind, M_bind, mret, M_ret, lift, file_exists, mbind, M_bind, gets.
  cbv beta iota zeta. generalize (match env_secrets with Some q => q
    | None => join (parent p) $"mail-secrets.toml" end). intros q.
  destruct (is_some (fs w !! q) || bool_decide (q = [])); simpl.
  2:{ exists [], None. split; [by left|apply secrets_applied_refl]. }
  destruct (with_err _ _ w) as [[c|e] w']; [|done]. simpl.
  destruct (toml_secrets c) as [s|] eqn:T; simpl; [|done]. exists (ms_inbound s), (ms_external s).
  split; [right; by exists c, s|apply apply_secrets_only].
Qed.

(** C24: a configuration that loads is a safe one.  It has an email carrier; an
    IMAP or POP3 account comes with the maildir it delivers into; no IMAP
    password crosses a network in the clear; there are at most five accounts
    and no third-party server is polled faster than every half second.  It is the
    configuration file's in every field, but for the ban list (filled in where the
    file names none) and the secrets: a mailbox's password is that of the last
    secret for its user name, if there is one, and the external relay's login that
    of its secret; servers, ports, folders, TLS switches, user names of mailboxes,
    routes, custody rows and everything else cannot be changed by the secrets file. *)
Theorem load_safe p w a w' :
  load toml_config toml_secrets env_secrets p w = (Ok a, w') ->
  (is_some (maildir (carriers a)) = true) /\
  (forall i, i ∈ imap (carriers a) -> imap_use_tls i = true \/ host_is_loopback (imap_server i) = true) /\
  (length (imap (carriers a)) + length (pop3 (carriers a)) <= 5)%nat /\
  (has_network_pull (carriers a) = true -> 500 <= poll_interval_ms a) /\
  (exists text b, fs w !! p = Some (File text) /\ toml_config text = Ok b /\
   (is_some (nabla_ban_list_path b) = true -> nabla_ban_list_path a = nabla_ban_list_path b) /\
   exists inbound relay, secrets_file inbound relay /\
     secrets_applied inbound relay (set_ban_list (nabla_ban_list_path a) b) a).
Proof.
  unfold load. unfold mbind, M_bind, lift, lift_io, with_err, mret, M_ret.
  unfold read_to_string, mbind, M_bind, mret, M_ret, throw.
  destruct (read_file_cases p w) as [_ Hr].
  destruct (read_file p w) as [[text|e] w1]; [|discriminate]. simpl in Hr.
  specialize (Hr text eq_refl). destruct (is_utf8 text); [|discriminate]. simpl.
  destruct (toml_config text) as [b|e] eqn:Et; [|discriminate]. simpl.
  pose proof (apply_mail_secrets_only p b w1) as Hs.
  destruct (apply_mail_secrets _ _ p b w1) as [[c|e] w2]; [|discriminate]. simpl in Hs.
  set (d := if is_some (nabla_ban_list_path c) then c else set_ban_list _ c).
  assert (d = set_ban_list (nabla_ban_list_path d) c /\
    (is_some (nabla_ban_list_path c) = true -> nabla_ban_list_path d = nabla_ban_list_path c)) as (D1 & D2).
  { unfold d. destruct (is_some _) eqn:I; [by destruct c|]. by destruct c. }
  clearbody d. unfold validate, validate_inbound_count, validate_poll_rate.
  destruct (negb (is_some (maildir (carriers d)) || has_network_pull (carriers d))) eqn:V1;
    [discriminate|].
  destruct (has_network_pull (carriers d) && negb (is_some (maildir (carriers d)))) eqn:V2;
    [discriminate|].
  destruct (List.find plaintext_imap (imap (carriers d))) eqn:V3; [discriminate|].
  destruct (MAX_INBOUND_ACCOUNTS <? _)%nat eqn:V4; [discriminate|].
  destruct (has_network_pull (carriers d) && (poll_interval_ms d <? MIN_NETWORK_POLL_MS))
    eqn:V5; [discriminate|].
  intros [= <- <-]. split; [|split; [|split; [|split]]].
  - revert V1 V2. by destruct (is_some (maildir (carriers d))), (has_network_pull (carriers d)).
  - intros i Hi. apply list_elem_of_In in Hi. pose proof (List.find_none _ _ V3 i Hi) as F.
    unfold plaintext_imap in F. destruct (imap_use_tls i); [by left|right].
    by destruct (host_is_loopback _).
  - apply Nat.ltb_ge in V4. exact V4.
  - intros Hn. rewrite Hn in V5. simpl in V5. apply Z.ltb_ge in V5. exact V5.
  - destruct Hs as (inbound & relay & Hf & Ha). pose proof (proj1 Ha) as Hw.
    exists text, b. split; [done|]. split; [done|].
    assert (nabla_ban_list_path c = nabla_ban_list_path b) as Hn by exact (f_equal nabla_ban_list_path Hw).
    split; [intros Hb; rewrite <- Hn in *; by apply D2|]. exists inbound, relay. split; [done|].
    rewrite D1 at 2. destruct Ha as (_ & H1 & H2 & H3). split; [|done].
    exact (f_equal (set_ban_list (nabla_ban_list_path d)) Hw).
Qed.
End load_theorem.

Lemma load_safe_witness :
  let cfg := {| carriers := {| maildir := Some {| inbox := [$"in"]; md_outbox := [$"o"] |};
                  imap := [{| imap_enabled := true; imap_server := $"mail.example.com";
                    imap_port := 993; imap_username := $"v"; imap_password := $"from-toml";
                    imap_use_tls := true; inbox_folder := $"INBOX"; use_idle := true |}];
                  pop3 := []; advertise := [] |};
                outbound := ex_table; lambda := lambda_default; validator := validator_default;
                identity := identity_default; log_level := $"info"; poll_interval_ms := 2000;
                health_port := 7779; health_token := None; on_stall := NotifyOnly; pickup := None;
                performance := performance_default; wallet_witness_cooldown_ms := None;
                nabla_ban_list_path := None; skip_list_path := None; skipped_dir_path := None |} in
  let secrets := {| ms_external := None;
                    ms_inbound := [{| username := $"v"; password := $"s3cret" |}] |} in
  let w := {| fs := {[ [$"config"; $"antie.toml"] := File $"cfg";
                       [$"config"; $"mail-secrets.toml"] := File $"sec" ]};
              oracle := []; hist := []; listing := fun l => l |} in
  let r := load (EC := ex_errors) (fun _ => Ok cfg) (fun _ => Ok secrets) None
             [$"config"; $"antie.toml"] w in
  exists a, r.1 = Ok a /\ map imap_password (imap (carriers a)) = [$"s3cret"] /\
    nabla_ban_list_path a = Some $"/nabla_bans.txt" /\
    (length (imap (carriers a)) + length (pop3 (carriers a)) <= 5)%nat.
Proof.
  intros cfg secrets w r.
  assert (match r.1 with
          | Ok a => map imap_password (imap (carriers a)) = [$"s3cret"] /\ nabla_ban_list_path a = Some $"/nabla_bans.txt"
          | Err _ => False
          end) as H by (split; vm_compute; reflexivity).
  destruct r as [[a|e] w'] eqn:E; [|destruct H]. destruct H as [H1 H2]. exists a. split; [reflexivity|].
  pose proof (load_safe (EC := ex_errors) _ _ _ _ _ _ _ E) as (_ & _ & H & _).
  split; [exact H1|]. split; [exact H2|exact H].
Defined.
End Config.
