(* ===== verification/Stats.v ===== *)
(** * Statistics and the health endpoint: [stats.rs], [health.rs]

    The [AtomicU64] counters are a total map from the field to its value;
    [fetch_add] wraps at 2^64.  Clocks are arguments.  JSON produced by
    [serde_json] is a parameter. *)
From S2P Require Import Prelude Utf8 Fs Errors Config.

Module Stats.

Inductive counter : Type :=
  | messages_received | messages_processed | messages_failed
  | tcp_connections | tcp_rate_limited | lambda_requests | lambda_errors | emails_sent
  | avg_witness_ms | lambda_stats_poll_failures | lambda_stats_port
  | busy_rejections | rate_limited | ban_rejected | ban_list_unavailable
  | fanout_relay_refused | decrypt_fail | parse_fail | oversize_dropped
  | skipped_dir_count | care_of_verify_rejects | care_of_deposits
  | care_of_default_deliveries | carrier_failures_total | carriers_in_backoff
  | carrier_consecutive_failures | last_inbox_write_unix | last_round_served_unix
  | inbox_oldest_unprocessed_mtime_unix | inbox_scan_unix.
#[export] Instance counter_eq_dec : EqDecision counter.
Proof. solve_decision. Defined.

Record LoopHeartbeat : Type := { name : bytes; max_silence_secs : Z; last_beat : Z }.
Record HeartbeatSnapshot : Type := {
  snap_name : bytes; age_secs : Z; snap_max_silence_secs : Z }.

Record AntieStats : Type := {
    value : counter -> Z;
    started_at : Z;
    active_carriers : bytes;
    core_version : bytes;
    heartbeats : list LoopHeartbeat;
}.

Definition stats_new (now_unix : Z) : AntieStats := {|
  value := fun _ => 0; started_at := now_unix; active_carriers := []; core_version := [];
  heartbeats := [] |}.

(** ** Atomic operations *)
Definition store (c : counter) (v : Z) (s : AntieStats) : AntieStats := {|
  value := fun c' => if decide (c' = c) then v else value s c';
  started_at := started_at s; active_carriers := active_carriers s;
  core_version := core_version s; heartbeats := heartbeats s |}.
Definition fetch_add (c : counter) (n : Z) (s : AntieStats) : AntieStats :=
  store c (wrap 64 (value s c + n)) s.
Definition fetch_sub (c : counter) (n : Z) (s : AntieStats) : AntieStats :=
  store c (wrap 64 (value s c - n)) s.
Definition fetch_max (c : counter) (n : Z) (s : AntieStats) : AntieStats :=
  store c (Z.max (value s c) n) s.
Definition bump (c : counter) : AntieStats -> AntieStats := fetch_add c 1.

Lemma value_store c v s c' :
  value (store c v s) c' = if decide (c' = c) then v else value s c'.
Proof. done. Qed.
Lemma value_store_eq c v s : value (store c v s) c = v.
Proof. rewrite value_store. by rewrite decide_True. Qed.
Lemma value_store_ne c v s c' : c' <> c -> value (store c v s) c' = value s c'.
Proof. intros. rewrite value_store. by rewrite decide_False. Qed.

(** ** Heartbeats, in seconds on the monotonic clock *)
Definition set_heartbeats (h : list LoopHeartbeat) (s : AntieStats) : AntieStats := {|
  value := value s; started_at := started_at s; active_carriers := active_carriers s;
  core_version := core_version s; heartbeats := h |}.
Definition register_heartbeat (n : bytes) (max_silence now : Z) (s : AntieStats) : AntieStats :=
  set_heartbeats (heartbeats s ++ [{| name := n; max_silence_secs := max_silence;
                                      last_beat := now |}]) s.
(** [beat] through the handle of the [i]-th registered loop. *)
Definition beat (i : nat) (now : Z) (s : AntieStats) : AntieStats :=
  set_heartbeats
    (alter (fun h => {| name := name h; max_silence_secs := max_silence_secs h;
                        last_beat := now |}) i (heartbeats s)) s.
Definition snapshot_of (now : Z) (h : LoopHeartbeat) : HeartbeatSnapshot := {|
  snap_name := name h; age_secs := sat_sub now (last_beat h);
  snap_max_silence_secs := max_silence_secs h |}.
Definition heartbeat_snapshot (now : Z) (s : AntieStats) : list HeartbeatSnapshot :=
  map (snapshot_of now) (heartbeats s).

Definition note_inbox_write (now_unix : Z) : AntieStats -> AntieStats :=
  store last_inbox_write_unix now_unix.
Definition note_round_served (now_unix : Z) : AntieStats -> AntieStats :=
  store last_round_served_unix now_unix.

(** ** One pull-carrier attempt; [failures] is the loop's own streak (a [u32]) *)
Definition note_carrier_attempt (failures : Z) (reached : bool) (s : AntieStats)
    : Z * AntieStats :=
  if reached then
    if 0 <? failures then
      let before := value s carriers_in_backoff in
      let s := fetch_sub carriers_in_backoff 1 s in
      (0, if before =? 1 then store carrier_consecutive_failures 0 s else s)
    else (failures, s)
  else
    let s := if failures =? 0 then fetch_add carriers_in_backoff 1 s else s in
    let failures := Z.min U32_MAX (failures + 1) in
    (failures, fetch_max carrier_consecutive_failures failures
                 (fetch_add carrier_failures_total 1 s)).

(** ** [/status]: the JSON is written by hand *)
Definition quoted (k : bytes) : bytes := [DQ] ++ k ++ [DQ].
Definition json_num (k : bytes) (v : Z) : bytes := quoted k ++ $":" ++ show_Z v.
Definition json_str (k v : bytes) : bytes := quoted k ++ $":" ++ quoted v.
Fixpoint comma_sep (l : list bytes) : bytes :=
  match l with
  | [] => []
  | [x] => x
  | x :: l' => x ++ $"," ++ comma_sep l'
  end.
(** [now_unix]: the wall clock; [eof]: the carriers' end-of-stream count. *)
Definition to_json (now_unix eof : Z) (s : AntieStats) : bytes :=
  let n k c := json_num k (value s c) in
  $"{" ++ comma_sep
    [ json_num $"uptime_secs" (sat_sub now_unix (started_at s));
      n $"messages_received" messages_received; n $"messages_processed" messages_processed;
      n $"messages_failed" messages_failed; n $"tcp_connections" tcp_connections;
      n $"tcp_rate_limited" tcp_rate_limited; n $"lambda_requests" lambda_requests;
      n $"lambda_errors" lambda_errors; n $"emails_sent" emails_sent;
      json_str $"active_carriers" (active_carriers s);
      n $"avg_witness_ms" avg_witness_ms;
      n $"lambda_stats_poll_failures" lambda_stats_poll_failures;
      n $"lambda_stats_port" lambda_stats_port; n $"busy_rejections" busy_rejections;
      n $"wallet_rate_limited" rate_limited; n $"ban_rejected" ban_rejected;
      n $"ban_list_unavailable" ban_list_unavailable;
      n $"fanout_relay_refused" fanout_relay_refused; n $"decrypt_fail" decrypt_fail;
      n $"parse_fail" parse_fail; n $"oversize_dropped" oversize_dropped;
      json_str $"core_version" (core_version s);
      n $"skipped_dir_count" skipped_dir_count;
      n $"care_of_verify_rejects" care_of_verify_rejects;
      n $"care_of_deposits" care_of_deposits;
      n $"care_of_default_deliveries" care_of_default_deliveries;
      n $"carrier_failures_total" carrier_failures_total;
      n $"carriers_in_backoff" carriers_in_backoff;
      n $"carrier_consecutive_failures" carrier_consecutive_failures;
      json_num $"carrier_eof_mid_response" eof;
      n $"last_inbox_write_unix" last_inbox_write_unix;
      n $"last_round_served_unix" last_round_served_unix;
      json_num $"inbox_oldest_unprocessed_age_secs"
        (let m := value s inbox_oldest_unprocessed_mtime_unix in
         if m =? 0 then 0 else sat_sub now_unix m);
      n $"inbox_scan_unix" inbox_scan_unix ]
  ++ $"}".
End Stats.

Module Health.
Import Stats.

Definition STALL_EXIT_CODE : Z := 75.

Record Verdict : Type := {
  ok : bool; lambda_alive : bool; stalled : list bytes; oldest_heartbeat_age_secs : Z }.

Definition is_stalled (b : HeartbeatSnapshot) : bool := snap_max_silence_secs b <? age_secs b.
Definition stall_line (b : HeartbeatSnapshot) : bytes :=
  snap_name b ++ $" " ++ show_Z (age_secs b) ++ $"s".
Definition health_verdict (lambda_alive : bool) (beats : list HeartbeatSnapshot) : Verdict :=
  let stalled := map stall_line (List.filter is_stalled beats) in
  {| ok := lambda_alive && bool_decide (stalled = []);
     lambda_alive := lambda_alive;
     stalled := stalled;
     oldest_heartbeat_age_secs := foldr Z.max 0 (map age_secs beats) |}.
Definition verdict_at (s : AntieStats) (alive : bool) (mono_now : Z) : Verdict :=
  health_verdict alive (heartbeat_snapshot mono_now s).

(** ** The stall watchdog: the loops newly reported, the new memory, and the
    exit code it calls [exit] with, if it does. *)
Definition name_of (line : bytes) : bytes :=
  match rsplit_once " "%char line with Some (n, _) => n | None => line end.
Fixpoint report_fresh (names reported : list bytes) : list bytes * list bytes :=
  match names with
  | [] => ([], reported)
  | n :: names' =>
      if bool_decide (n ∈ reported) then report_fresh names' reported
      else let '(fresh, r) := report_fresh names' (reported ++ [n]) in (n :: fresh, r)
  end.
Definition stall_watchdog_tick (v : Verdict) (policy : Config.OnStall) (reported : list bytes)
    : list bytes * list bytes * option Z :=
  let now_stalled := map name_of (stalled v) in
  let kept := filter (fun n => n ∈ now_stalled) reported in
  let '(fresh, reported') := report_fresh now_stalled kept in
  (fresh, reported',
   match fresh, policy with
   | _ :: _, Config.NotifyAndRestart => Some STALL_EXIT_CODE
   | _, _ => None
   end).

(** ** The HTTP endpoint *)
Definition is_param (key p : bytes) : bool :=
  starts_with key p && bool_decide (p !! length key = Some "="%char).
Definition extract_query_param (query key : bytes) : option bytes :=
  match List.find (is_param key) (split "&"%char query) with
  | Some p => Some (drop (S (length key)) p)
  | None => None
  end.
Definition check_auth (p : bytes) (query : option bytes) (auth_token : option bytes) : bool :=
  if decide (p = $"/health") then true
  else match auth_token with
       | None => true
       | Some expected =>
           match query with
           | Some q => bool_decide (extract_query_param q $"token" = Some expected)
           | None => false
           end
       end.

Section server.
Context `{EC : ErrorsCrate}.
(** What [serde_json] prints for the two bodies. *)
Context (health_json : Verdict -> Z -> Z -> Z -> Z -> bytes).
Context (error_json : bytes -> ErrorResponse -> bytes).

Definition health_body (s : AntieStats) (alive : bool) (mono_now now_unix : Z) : Verdict * bytes :=
  let v := verdict_at s alive mono_now in
  (v, health_json v (sat_sub now_unix (started_at s)) (value s carriers_in_backoff)
        (value s carrier_consecutive_failures) (value s carrier_failures_total)).
Definition dual_format_error_body (code_ : bytes) (category : ErrorCategory) (msg : bytes) : bytes :=
  error_json msg (response_new (from_static code_) category msg).

(** Path and query of "GET /path?query HTTP/1.1". *)
Definition target (request : bytes) : bytes * option bytes :=
  let first_line := unwrap_or [] (head (lines (from_utf8_lossy request))) in
  let uri := unwrap_or $"/" (split_whitespace first_line !! 1%nat) in
  match split_once "?"%char uri with
  | Some (p, q) => (p, Some q)
  | None => (uri, None)
  end.
(** Status line and body for the first read of a request. *)
Definition route (s : AntieStats) (auth_token : option bytes) (alive : bool)
    (mono_now now_unix eof : Z) (request : bytes) : bytes * bytes :=
  let '(p, query) := target request in
  if negb (check_auth p query auth_token) then
    ($"401 Unauthorized", dual_format_error_body $"E_ANTIE_UNAUTHORIZED" ClientBug $"unauthorized")
  else if decide (p = $"/health") then
    ($"200 OK", (health_body s alive mono_now now_unix).2)
  else if decide (p = $"/status") then
    ($"200 OK", from_utf8_lossy (to_json now_unix eof s))
  else ($"404 Not Found", dual_format_error_body $"E_ANTIE_NOT_FOUND" ClientBug $"not found").
Definition http_response (sb : bytes * bytes) : bytes :=
  $"HTTP/1.1 " ++ sb.1 ++ crlf ++ $"Content-Type: application/json" ++ crlf
  ++ $"Content-Length: " ++ show_N (N.of_nat (length sb.2)) ++ crlf
  ++ $"Connection: close" ++ crlf ++ crlf ++ sb.2.

(** The one read of a connection, within five seconds and into 1024 bytes, with
    what the task finds when it answers. *)
Inductive first_read : Type := TimedOut | ReadFailed | Arrived (b : bytes).
Record connection : Type := Connection {
  seen : AntieStats; alive_now : bool; mono_at : Z; unix_at : Z; json_eof : Z; first : first_read }.
Definition READ_BUF : nat := 1024.
(** What is written back, if anything is. *)
Definition serve_connection (auth_token : option bytes) (c : connection) : option bytes :=
  match first c with
  | Arrived b =>
      match take READ_BUF b with
      | [] => None
      | request => Some (http_response (route (seen c) auth_token (alive_now c) (mono_at c) (unix_at c) (json_eof c) request))
      end
  | TimedOut | ReadFailed => None
  end.
(** The server: a port that cannot be bound ends it, an [accept] that fails
    ([None]) is passed over, and every connection is a task of its own. *)
Definition spawn_health_server (bind : result bytes unit) (auth_token : option bytes) (accepts : list (option connection))
    : list (option bytes) :=
  match bind with
  | Err _ => []
  | Ok _ => map (serve_connection auth_token) (omap (fun a => a) accepts)
  end.
End server.
End Health.
