(* ===== verification/StatsTheorems.v ===== *)
(** * Theorems about the statistics and the health endpoint *)
From S2P Require Import Prelude Utf8 Fs Errors Config Stats.
Import Stats Health.

Module Progress.

(** ** A wedged loop is always seen *)
Inductive event : Type :=
  | Beat (i : nat) (now : Z)
  | Register (n : bytes) (max_silence now : Z)
  | Count (c : counter) (v : Z).
Definition step (s : AntieStats) (e : event) : AntieStats :=
  match e with
  | Beat i now => beat i now s
  | Register n m now => register_heartbeat n m now s
  | Count c v => store c v s
  end.
Definition beats_loop (i : nat) (e : event) : bool :=
  match e with Beat j _ => (j =? i)%nat | _ => false end.

Lemma silent_step i h s e :
  beats_loop i e = false -> heartbeats s !! i = Some h -> heartbeats (step s e) !! i = Some h.
Proof.
  destruct e as [j now|n m now|c v]; simpl; intros Hb H.
  - rewrite list_lookup_alter_ne; [done|]. intros ->. by rewrite Nat.eqb_refl in Hb.
  - by apply lookup_app_l_Some.
  - done.
Qed.
Lemma silent_run i h es s :
  forallb (fun e => negb (beats_loop i e)) es = true ->
  heartbeats s !! i = Some h -> heartbeats (foldl step s es) !! i = Some h.
Proof.
  revert s. induction es as [|e es IH]; intros s Hb H; [done|]. simpl in *.
  apply andb_true_iff in Hb as [He Hes]. apply negb_true_iff in He.
  apply IH; [done|]. by apply silent_step.
Qed.
Lemma ok_spec s alive now :
  ok (verdict_at s alive now) = true <->
  alive = true /\ forall h, h ∈ heartbeats s -> sat_sub now (last_beat h) <= max_silence_secs h.
Proof.
  unfold verdict_at, health_verdict, heartbeat_snapshot. simpl.
  rewrite andb_true_iff, bool_decide_eq_true. split; intros [Ha Hs]; (split; [done|]).
  - intros h Hh. apply map_eq_nil in Hs.
    destruct (Z.le_gt_cases (sat_sub now (last_beat h)) (max_silence_secs h)); [done|].
    assert (In (snapshot_of now h) (List.filter is_stalled (map (snapshot_of now) (heartbeats s)))) as Hi.
    { apply filter_In. split; [by apply in_map, list_elem_of_In|].
      unfold is_stalled. simpl. by apply Z.ltb_lt. }
    by rewrite Hs in Hi.
  - destruct (List.filter is_stalled (map (snapshot_of now) (heartbeats s))) as [|b l] eqn:E; [done|].
    assert (In b (List.filter is_stalled (map (snapshot_of now) (heartbeats s)))) as Hi
      by (rewrite E; by left).
    apply filter_In in Hi as [Hi Hb]. apply in_map_iff in Hi as (h & <- & Hh).
    apply list_elem_of_In in Hh. specialize (Hs h Hh). unfold is_stalled in Hb. simpl in Hb.
    apply Z.ltb_lt in Hb. lia.
Qed.

(** C37: a wedged loop turns the health endpoint red, by name.  Whatever the
    other loops and counters do, a registered loop that makes no progress for
    longer than its bound makes the verdict not-ok and is named in it; and the
    verdict is ok exactly when the Lambda child is alive and every registered
    loop has beaten within its bound. *)
Theorem wedged_loop_detected i h s es alive now :
  heartbeats s !! i = Some h ->
  forallb (fun e => negb (beats_loop i e)) es = true ->
  last_beat h + max_silence_secs h < now -> 0 <= max_silence_secs h ->
  let s' := foldl step s es in
  ok (verdict_at s' alive now) = false /\
  (name h ++ $" " ++ show_Z (now - last_beat h) ++ $"s") ∈ stalled (verdict_at s' alive now) /\
  (forall t, ok (verdict_at s' alive t) = true <->
     alive = true /\ forall h', h' ∈ heartbeats s' -> sat_sub t (last_beat h') <= max_silence_secs h').
Proof.
  intros H Hes Hlate Hm s'. pose proof (silent_run i h es s Hes H) as H'.
  fold s' in H'. apply list_elem_of_lookup_2 in H' as Hin.
  assert (sat_sub now (last_beat h) = now - last_beat h) as Es by (unfold sat_sub; lia).
  split; [|split; [|intros t; apply ok_spec]].
  - destruct (ok _) eqn:E; [|done]. apply ok_spec in E as [_ E]. specialize (E h Hin). lia.
  - unfold verdict_at, health_verdict, heartbeat_snapshot. simpl.
    apply list_elem_of_In, in_map_iff. exists (snapshot_of now h). split.
    + unfold stall_line. simpl. by rewrite Es.
    + apply filter_In. split; [by apply in_map, list_elem_of_In|].
      unfold is_stalled. simpl. apply Z.ltb_lt. lia.
Qed.
Lemma wedged_loop_detected_witness :
  let s := register_heartbeat $"dispatch" 60 5 (stats_new 1700000000) in
  ok (verdict_at (foldl step s [Register $"imap#0" 90 6; Beat 1 66; Count emails_sent 9]) true 66) = false.
Proof.
  intros s.
  refine (proj1 (wedged_loop_detected 0 {| name := $"dispatch"; max_silence_secs := 60; last_beat := 5 |}
    s [Register $"imap#0" 90 6; Beat 1 66; Count emails_sent 9] true 66 _ _ _ _)).
  - reflexivity.
  - reflexivity.
  - simpl. lia.
  - simpl. lia.
Defined.
End Progress.

Module Watchdog.

Definition stalled_names (beats : list HeartbeatSnapshot) : list bytes :=
  map snap_name (List.filter is_stalled beats).

Lemma show_Z_no_space z : " "%char ∉ show_Z z.
Proof.
  assert (forall n, " "%char ∉ show_N n) as H.
  { intros n Hin. pose proof (show_N_digits n) as D. rewrite Forall_forall in D.
    by apply D in Hin. }
  unfold show_Z. destruct (z <? 0); [|apply H]. intros [E|E]%elem_of_cons; [done|]. by apply H in E.
Qed.
Lemma name_of_line b : name_of (stall_line b) = snap_name b.
Proof.
  unfold name_of, stall_line. simpl.
  rewrite (proj2 (rsplit_once_Some " "%char _ (snap_name b) (show_Z (age_secs b) ++ $"s"))); [done|].
  split; [done|]. pose proof (show_Z_no_space (age_secs b)). set_solver.
Qed.
Lemma names_of_verdict alive beats :
  map name_of (stalled (health_verdict alive beats)) = stalled_names beats.
Proof.
  unfold health_verdict, stalled_names. simpl. rewrite map_map. apply map_ext, name_of_line.
Qed.

Lemma report_fresh_spec names reported :
  let '(fresh, r) := report_fresh names reported in
  (forall n, n ∈ r <-> n ∈ reported \/ n ∈ names) /\
  (forall n, n ∈ fresh <-> n ∈ names /\ n ∉ reported) /\ NoDup fresh.
Proof.
  revert reported. induction names as [|x names IH]; intros reported; cbn [report_fresh].
  - split; [set_solver|]. split; [set_solver|constructor].
  - case_bool_decide as D.
    + specialize (IH reported). destruct (report_fresh names reported) as [f r].
      destruct IH as (H1 & H2 & H3). split; [set_solver|]. split; [set_solver|done].
    + specialize (IH (reported ++ [x])). destruct (report_fresh names (reported ++ [x])) as [f r].
      destruct IH as (H1 & H2 & H3). split; [|split].
      * intros n. rewrite H1. set_solver.
      * intros n. rewrite elem_of_cons, H2. split; [set_solver|].
        intros [Hn Hr]. apply elem_of_cons in Hn as [->|Hn]; [by left|].
        destruct (decide (n = x)) as [->|]; [by left|right]. set_solver.
      * constructor; [|done]. rewrite H2. set_solver.
Qed.

Lemma tick_spec alive beats policy reported :
  let '(fresh, reported', code) :=
    stall_watchdog_tick (health_verdict alive beats) policy reported in
  (forall n, n ∈ reported' <-> n ∈ stalled_names beats) /\
  (forall n, n ∈ fresh <-> n ∈ stalled_names beats /\ n ∉ reported) /\ NoDup fresh /\
  (code = Some STALL_EXIT_CODE <-> fresh <> [] /\ policy = Config.NotifyAndRestart) /\
  (code = None \/ code = Some STALL_EXIT_CODE).
Proof.
  unfold stall_watchdog_tick. rewrite names_of_verdict.
  set (kept := filter _ reported).
  assert (forall n, n ∈ kept <-> n ∈ stalled_names beats /\ n ∈ reported) as Hk
    by (intros n; unfold kept; by rewrite list_elem_of_filter).
  pose proof (report_fresh_spec (stalled_names beats) kept) as H.
  destruct (report_fresh _ kept) as [fresh r]. destruct H as (H1 & H2 & H3).
  repeat split; try done.
  - rewrite H1, Hk. tauto.
  - rewrite H1, Hk. tauto.
  - by apply H2.
  - apply H2 in H as [? Hn]. rewrite Hk in Hn. tauto.
  - intros [? ?]. apply H2. rewrite Hk. tauto.
  - by destruct fresh.
  - by destruct fresh, policy.
  - intros [? ->]. by destruct fresh.
  - destruct fresh, policy; auto.
Qed.

(** The watchdog reports every stall once.  Across two consecutive passes,
    from whatever it remembered, a loop is reported on the second pass exactly
    when it is stalled then and was not stalled on the first: a persisting stall
    is not repeated, a loop that recovered and stalls again is; and the process
    asks to exit, with the stall code, exactly when something is newly reported
    under the restart policy. *)
Theorem watchdog_reports_once policy remembered alive1 beats1 alive2 beats2 :
  let '(_, memory, _) :=
    stall_watchdog_tick (health_verdict alive1 beats1) policy remembered in
  let '(fresh, _, code) := stall_watchdog_tick (health_verdict alive2 beats2) policy memory in
  (forall n, n ∈ fresh <-> n ∈ stalled_names beats2 /\ n ∉ stalled_names beats1) /\
  NoDup fresh /\
  (code = Some STALL_EXIT_CODE <-> fresh <> [] /\ policy = Config.NotifyAndRestart).
Proof.
  pose proof (tick_spec alive1 beats1 policy remembered) as H1.
  destruct (stall_watchdog_tick _ _ remembered) as [[f1 m1] c1].
  pose proof (tick_spec alive2 beats2 policy m1) as H2.
  destruct (stall_watchdog_tick _ _ m1) as [[f2 m2] c2].
  destruct H1 as (Hm & _). destruct H2 as (_ & Hf & Hn & Hc & _).
  split; [|done]. intros n. by rewrite Hf, Hm.
Qed.
End Watchdog.

Module Gauges.

(** The pull loops with their streaks, sharing one statistics object. *)
Definition attempt (st : list Z * AntieStats) (a : nat * bool) : list Z * AntieStats :=
  match st.1 !! a.1 with
  | Some f => let '(f', s') := note_carrier_attempt f a.2 st.2 in (<[a.1 := f']> st.1, s')
  | None => st
  end.
Definition in_backoff (fs : list Z) : list Z := List.filter (fun f => 0 <? f) fs.
Definition longest (fs : list Z) : Z := foldr Z.max 0 fs.

Record sound (st : list Z * AntieStats) : Prop := {
    streaks_nonneg : Forall (fun f => 0 <= f) st.1;
    backoff_counted : value st.2 carriers_in_backoff = Z.of_nat (length (in_backoff st.1));
    longest_covered : longest st.1 <= value st.2 carrier_consecutive_failures;
    idle_is_zero : in_backoff st.1 = [] -> value st.2 carrier_consecutive_failures = 0;
}.

Lemma in_backoff_insert fs i f f' :
  fs !! i = Some f ->
  Z.of_nat (length (in_backoff (<[i := f']> fs))) =
  Z.of_nat (length (in_backoff fs)) + (if 0 <? f' then 1 else 0) - (if 0 <? f then 1 else 0).
Proof.
  revert i. induction fs as [|x fs IH]; intros [|i] H; simplify_eq/=.
  - destruct (0 <? f'), (0 <? f); simpl; lia.
  - specialize (IH i H). destruct (0 <? x); simpl; lia.
Qed.
Lemma longest_le fs b : longest fs <= b <-> 0 <= b /\ Forall (fun f => f <= b) fs.
Proof.
  induction fs as [|x fs IH]; simpl.
  - split; [intros; split; [lia|constructor]|lia].
  - rewrite Forall_cons, Z.max_lub_iff, IH. tauto.
Qed.
Lemma in_backoff_nil fs : in_backoff fs = [] -> Forall (fun f => f <= 0) fs.
Proof.
  induction fs as [|x fs IH]; simpl; [constructor|].
  destruct (Z.ltb_spec 0 x); [discriminate|]. intros H'. constructor; [lia|auto].
Qed.
Lemma length_in_backoff fs : (length (in_backoff fs) <= length fs)%nat.
Proof. apply filter_length_le. Qed.

Lemma attempt_sound st a :
  Z.of_nat (length st.1) <= U64_MAX -> sound st -> sound (attempt st a).
Proof.
  destruct st as [fs s], a as [i reached]. intros Hl [H1 H2 H3 H4]. simpl in *.
  unfold attempt. cbn [fst snd]. destruct (fs !! i) as [f|] eqn:Ei; [|by constructor].
  assert (0 <= f) as Hf by (eapply Forall_lookup_1 in H1; [|exact Ei]; exact H1).
  pose proof (length_in_backoff fs) as Hlb.
  assert (forall f', 0 <= f' -> Forall (fun f => 0 <= f) (<[i := f']> fs)) as Hnn
    by (intros; by apply Forall_insert).
  apply longest_le in H3 as [Hg H3]. unfold note_carrier_attempt. destruct reached.
  - destruct (Z.ltb_spec 0 f) as [Lf|Lf].
    + pose proof (in_backoff_insert fs i f 0 Ei) as Hc. simpl in Hc.
      destruct (Z.ltb_spec 0 f); [|lia].
      assert (0 <= value s carriers_in_backoff - 1 < 2 ^ 64) as Hw
        by (unfold U64_MAX in *; lia).
      destruct (Z.eqb_spec (value s carriers_in_backoff) 1) as [E1|E1].
      * assert (in_backoff (<[i := 0]> fs) = []) as Hnil.
        { apply length_zero_iff_nil. lia. }
        constructor; cbn [fst snd].
        -- by apply Hnn.
        -- unfold fetch_sub. rewrite value_store_ne by done.
           rewrite value_store_eq, wrap_small by done. rewrite Hnil. simpl. lia.
        -- apply in_backoff_nil in Hnil. apply longest_le. split; [done|].
           unfold fetch_sub. by rewrite value_store_eq.
        -- by rewrite value_store_eq.
      * constructor; cbn [fst snd].
        -- by apply Hnn.
        -- unfold fetch_sub. rewrite value_store_eq, wrap_small by done. lia.
        -- unfold fetch_sub. rewrite value_store_ne by done. apply longest_le.
           split; [done|]. apply Forall_insert; [done|lia].
        -- unfold fetch_sub. rewrite value_store_ne by done. intros Hn. rewrite Hn in Hc.
           simpl in Hc. lia.
    + rewrite list_insert_id by done. constructor; cbn [fst snd]; try done.
      apply longest_le. done.
  - set (s1 := if f =? 0 then fetch_add carriers_in_backoff 1 s else s).
    set (f' := Z.min U32_MAX (f + 1)).
    assert (0 < f') as Hf' by (unfold f', U32_MAX; lia).
    pose proof (in_backoff_insert fs i f f' Ei) as Hc.
    destruct (Z.ltb_spec 0 f'); [|lia].
    assert (value s1 carriers_in_backoff = Z.of_nat (length (in_backoff (<[i:=f']> fs)))) as Hb.
    { unfold s1. pose proof (length_in_backoff (<[i:=f']> fs)) as L. rewrite length_insert in L.
      destruct (Z.eqb_spec f 0) as [->|N].
      - unfold fetch_add. rewrite value_store_eq. simpl in Hc.
        rewrite wrap_small; [lia|]. unfold U64_MAX in *. lia.
      - destruct (Z.ltb_spec 0 f); [|lia]. lia. }
    assert (value s1 carrier_consecutive_failures = value s carrier_consecutive_failures) as Hs
      by (unfold s1; by destruct (f =? 0)).
    constructor; cbn [fst snd].
    + apply Hnn. lia.
    + unfold fetch_max, fetch_add. rewrite value_store_ne by done. by rewrite value_store_ne.
    + unfold fetch_max, fetch_add. rewrite value_store_eq, value_store_ne, Hs by done.
      apply longest_le. split; [lia|]. apply Forall_insert; [|lia].
      eapply Forall_impl; [exact H3|]. simpl. lia.
    + intros Hn. exfalso. rewrite Hn in Hc. cbn [length] in Hc.
      destruct (Z.ltb_spec 0 f); [|lia].
      assert (in_backoff fs = []) as Hz by (apply length_zero_iff_nil; lia).
      apply in_backoff_nil in Hz. eapply Forall_lookup_1 in Hz; [|exact Ei]. simpl in Hz. lia.
Qed.

(** The carrier gauges tell who is refused.  For any number of pull loops
    and any interleaving of their attempts, the backoff gauge is the number of
    loops whose last attempt failed, and the streak gauge is at least the
    longest current streak and zero as soon as no loop is in backoff. *)
Theorem carrier_gauges_sound n attempts now :
  Z.of_nat n <= U64_MAX ->
  let st := foldl attempt (repeat 0 n, stats_new now) attempts in
  value st.2 carriers_in_backoff = Z.of_nat (length (in_backoff st.1)) /\
  longest st.1 <= value st.2 carrier_consecutive_failures /\
  (value st.2 carriers_in_backoff = 0 -> value st.2 carrier_consecutive_failures = 0).
Proof.
  intros Hn st.
  assert (forall a st, length (attempt st a).1 = length st.1) as Hlen.
  { intros a [fs s]. unfold attempt. simpl. destruct (fs !! a.1); [|done].
    destruct (note_carrier_attempt _ _ _). apply length_insert. }
  assert (sound st) as [H1 H2 H3 H4].
  { unfold st. assert (forall l s0, Z.of_nat (length s0.1) <= U64_MAX -> sound s0 ->
      sound (foldl attempt s0 l)) as Hrun.
    { induction l as [|a l IH]; intros s0 L S; [done|]. apply IH; [by rewrite Hlen|].
      by apply attempt_sound. }
    apply Hrun; [by simpl; rewrite repeat_length|].
    assert (in_backoff (repeat 0 n) = []) as E by (induction n; [done|]; apply IHn; lia).
    constructor; simpl.
    - apply Forall_forall. intros x Hx%list_elem_of_In%repeat_spec. lia.
    - by rewrite E.
    - apply longest_le. split; [done|]. apply in_backoff_nil. done.
    - done. }
  repeat split; try done. intros E. apply H4. apply length_zero_iff_nil. lia.
Qed.
Lemma carrier_gauges_sound_witness :
  value (foldl attempt (repeat 0 2, stats_new 5) [(0%nat, false); (1%nat, false); (0%nat, true)]).2
    carriers_in_backoff = 1.
Proof.
  exact (proj1 (carrier_gauges_sound 2 [(0%nat, false); (1%nat, false); (0%nat, true)] 5
                  ltac:(vm_compute; discriminate))).
Defined.

Lemma note_failed f s :
  exists s', note_carrier_attempt f false s = (Z.min U32_MAX (f + 1), s') /\
    value s' carriers_in_backoff =
      (if f =? 0 then wrap 64 (value s carriers_in_backoff + 1) else value s carriers_in_backoff) /\
    value s' carrier_consecutive_failures =
      Z.max (value s carrier_consecutive_failures) (Z.min U32_MAX (f + 1)).
Proof.
  eexists. split; [reflexivity|]. unfold fetch_max, fetch_add.
  split; rewrite ?value_store_eq, ?value_store_ne by done; by destruct (f =? 0).
Qed.
Lemma note_recovered f s : 0 < f ->
  exists s', note_carrier_attempt f true s = (0, s') /\
    value s' carriers_in_backoff = wrap 64 (value s carriers_in_backoff - 1) /\
    value s' carrier_consecutive_failures =
      (if value s carriers_in_backoff =? 1 then 0 else value s carrier_consecutive_failures).
Proof.
  intros Hf. unfold note_carrier_attempt. destruct (Z.ltb_spec 0 f); [|lia].
  eexists. split; [reflexivity|]. unfold fetch_sub.
  split; destruct (value s carriers_in_backoff =? 1);
    by rewrite ?value_store_eq, ?value_store_ne, ?value_store_eq by done.
Qed.

Lemma attempt_eq fs s i r f f' s' :
  fs !! i = Some f -> note_carrier_attempt f r s = (f', s') ->
  attempt (fs, s) (i, r) = (<[i := f']> fs, s').
Proof. intros Hi E. unfold attempt. cbn [fst snd]. by rewrite Hi, E. Qed.

(** The streak gauge can overstate.  After one loop failed [k] times and
    recovered while another is at its first failure, the gauge still shows [k],
    not the longest current streak, which is one. *)
Theorem streak_gauge_stale k now :
  (1 < k)%nat -> Z.of_nat k <= U32_MAX ->
  let st := foldl attempt ([0; 0], stats_new now)
              (repeat (0%nat, false) k ++ [(1%nat, false); (0%nat, true)]) in
  longest st.1 = 1 /\ value st.2 carrier_consecutive_failures = Z.of_nat k.
Proof.
  intros Hk Hmax.
  assert (forall j, (1 <= j)%nat -> Z.of_nat j <= U32_MAX ->
    exists s, foldl attempt ([0; 0], stats_new now) (repeat (0%nat, false) j) = ([Z.of_nat j; 0], s) /\
      value s carriers_in_backoff = 1 /\ value s carrier_consecutive_failures = Z.of_nat j) as Hrun.
  { intros j. induction j as [|j IH]; intros H1 H2; [lia|]. destruct j as [|j].
    - eexists. split; [reflexivity|]. done.
    - destruct IH as (s & E & Eb & Ec); [lia|lia|].
      rewrite <- (Nat.add_1_r (S j)), repeat_app, foldl_app, E. cbn [foldl repeat].
      unfold attempt. simpl lookup. cbn [fst snd].
      destruct (note_failed (Z.of_nat (S j)) s) as (s' & -> & Hb & Hc).
      exists s'. rewrite Hb, Hc, Eb, Ec. split; [|split].
      + simpl. do 2 f_equal. lia.
      + destruct (Z.eqb_spec (Z.of_nat (S j)) 0); lia.
      + lia. }
  destruct (Hrun k ltac:(lia) Hmax) as (s & E & Eb & Ec). cbv zeta. rewrite foldl_app, E.
  destruct (note_failed 0 s) as (s1 & E1 & Eb1 & Ec1).
  destruct (note_recovered (Z.of_nat k) s1) as (s2 & E2 & _ & Ec2); [lia|].
  cbn [foldl]. erewrite attempt_eq; [|done|exact E1].
  erewrite attempt_eq; [|by rewrite list_lookup_insert_ne|exact E2].
  split; [done|]. cbn [fst snd]. rewrite Ec2, Eb1, Ec1, Eb, Ec. change (wrap 64 (1 + 1)) with 2.
  simpl. unfold U32_MAX in *. lia.
Qed.
Lemma streak_gauge_stale_witness :
  value (foldl attempt ([0; 0], stats_new 9)
    (repeat (0%nat, false) 5 ++ [(1%nat, false); (0%nat, true)])).2
    carrier_consecutive_failures = 5.
Proof. exact (proj2 (streak_gauge_stale 5 9 ltac:(lia) ltac:(vm_compute; discriminate))). Defined.
End Gauges.

(** ** The health endpoint *)
Module Endpoint.
Section endpoint.
Context `{EC : ErrorsCrate} (health_json : Verdict -> Z -> Z -> Z -> Z -> bytes) (error_json : bytes -> ErrorResponse -> bytes).
Abbreviation serve := (serve_connection health_json error_json).
(** The request carries the token. *)
Definition authorised (tok request : bytes) : bool :=
  match (target request).2 with
  | Some q => bool_decide (extract_query_param q $"token" = Some tok)
  | None => false
  end.
(** What [/health] is made of: the verdict, the seconds since the start, and three
    gauges. *)
Definition uptime (c : connection) : Z := sat_sub (unix_at c) (started_at (seen c)).
Definition same_health (c c' : connection) : Prop :=
  verdict_at (seen c) (alive_now c) (mono_at c) = verdict_at (seen c') (alive_now c') (mono_at c') /\
  uptime c = uptime c' /\
  forall k, k ∈ [carriers_in_backoff; carrier_consecutive_failures; carrier_failures_total] ->
    value (seen c) k = value (seen c') k.
Definition status_of (response : option bytes) (line : bytes) : Prop :=
  exists body, response = Some (http_response (line, body)).

(** C20: The endpoint tells a client only what it may know.  Only the first 1024
    bytes count, and a connection whose read fails, times out or brings nothing is
    closed unanswered.  With a token configured, a request without it gets 401,
    the same whatever the statistics are, unless it asks for /health; /health
    shows the verdict, the uptime in seconds (the clock less the start) and three
    gauges, and depends on nothing else; any other path but /status gets 404.  Every answer is one response whose Content-Length is
    the length of its body. *)
Theorem endpoint_guards_statistics tok c c' :
  first c = first c' ->
  match first c with
  | Arrived b =>
      let request := take READ_BUF b in
      let p := (target request).1 in
      (request = [] -> serve (Some tok) c = None) /\
      (request <> [] -> exists line, status_of (serve (Some tok) c) line) /\
      (request <> [] -> p <> $"/health" -> authorised tok request = false ->
         status_of (serve (Some tok) c) $"401 Unauthorized" /\ serve (Some tok) c = serve (Some tok) c') /\
      (p = $"/health" -> same_health c c' -> serve (Some tok) c = serve (Some tok) c') /\
      (request <> [] -> p <> $"/health" -> p <> $"/status" -> authorised tok request = true ->
         status_of (serve (Some tok) c) $"404 Not Found" /\ serve (Some tok) c = serve (Some tok) c')
  | _ => serve (Some tok) c = None
  end.
Proof.
  intros Hf. unfold serve_connection. rewrite <- Hf. destruct (first c) as [| |b]; [done..|]. cbv zeta.
  destruct (take READ_BUF b) as [|x r]; [by repeat split|]. set (request := x :: r).
  assert (forall d, route health_json error_json (seen d) (Some tok) (alive_now d) (mono_at d) (unix_at d) (json_eof d) request =
    if negb (bool_decide ((target request).1 = $"/health") || authorised tok request) then
      ($"401 Unauthorized", dual_format_error_body error_json $"E_ANTIE_UNAUTHORIZED" ClientBug $"unauthorized")
    else if decide ((target request).1 = $"/health") then ($"200 OK", (health_body health_json (seen d) (alive_now d) (mono_at d) (unix_at d)).2)
    else if decide ((target request).1 = $"/status") then ($"200 OK", from_utf8_lossy (to_json (unix_at d) (json_eof d) (seen d)))
    else ($"404 Not Found", dual_format_error_body error_json $"E_ANTIE_NOT_FOUND" ClientBug $"not found")) as Hr.
  { intros d. unfold route, authorised, check_auth. destruct (target request) as [p q]. cbn [fst snd].
    destruct (decide (p = $"/health")) as [->|N]; [done|]. by rewrite bool_decide_false. }
  rewrite !Hr. split; [done|]. split; [intros _; unfold status_of; repeat case_match; eexists _, _; reflexivity|]. split; [|split].
  - intros _ N A. rewrite bool_decide_false, A by done. cbn [orb negb]. split; [eexists; reflexivity|reflexivity].
  - intros E (Hw & Hu & Hv). rewrite E, bool_decide_true by done. cbn [orb negb]. rewrite !decide_True by done.
    pose proof (Hv carriers_in_backoff ltac:(repeat constructor)) as H1.
    pose proof (Hv carrier_consecutive_failures ltac:(repeat constructor)) as H2.
    pose proof (Hv carrier_failures_total ltac:(repeat constructor)) as H3.
    unfold health_body. unfold uptime in Hu. rewrite Hw, Hu, H1, H2, H3. reflexivity.
  - intros _ N1 N2 A. rewrite bool_decide_false, A by done. cbn [orb negb]. rewrite !decide_False by done. split; [eexists; reflexivity|reflexivity].
Qed.
End endpoint.
Lemma endpoint_guards_statistics_witness :
  let ask n := Connection (store lambda_stats_poll_failures n (stats_new 1)) true 5 9 100 (Arrived ($"GET /status?token=guess HTTP/1.1" ++ crlf)) in
  status_of (serve_connection (EC := ex_errors) (fun _ _ _ _ _ => []) (fun m _ => m) (Some $"secret") (ask 1)) $"401 Unauthorized" /\
  serve_connection (EC := ex_errors) (fun _ _ _ _ _ => []) (fun m _ => m) (Some $"secret") (ask 1) =
  serve_connection (EC := ex_errors) (fun _ _ _ _ _ => []) (fun m _ => m) (Some $"secret") (ask 2).
Proof.
  intros ask.
  destruct (endpoint_guards_statistics (EC := ex_errors) (fun _ _ _ _ _ => []) (fun m _ => m) $"secret" (ask 1) (ask 2) eq_refl)
    as (_ & _ & H & _).
  apply H; vm_compute; [discriminate|discriminate|reflexivity].
Defined.
End Endpoint.
