(* ===== verification/GaugeRace.v ===== *)
(** * The back-off gauges under real interleaving

    [AntieStats::note_carrier_attempt] is several atomic operations, and the pull
    loops run on several threads: here each loop stands between two of them, and
    any loop may take the next.  [alone_is_note]: a loop nobody interrupts does
    what [Stats.note_carrier_attempt] does. *)
From S2P Require Import Prelude Utf8 Fs Errors Config Stats.
Import Stats.

Module GaugeRace.

(** Where a loop stands in [note_carrier_attempt]. *)
Inductive point : Type :=
  | Outside            (* between two attempts *)
  | Totalling          (* failed; the total is next *)
  | Maxing             (* failed; the streak gauge is next *)
  | Clearing.          (* was the last one in backoff; clears the streak gauge next *)
Record loop : Type := Loop { failures : Z; at_ : point }.
(** The next atomic operation; [reached] matters at the start of an attempt. *)
Definition turn (reached : bool) (l : loop) (s : AntieStats) : loop * AntieStats :=
  match at_ l with
  | Outside =>
      if reached then
        if 0 <? failures l then
          (Loop 0 (if value s carriers_in_backoff =? 1 then Clearing else Outside), fetch_sub carriers_in_backoff 1 s)
        else (l, s)
      else (Loop (failures l) Totalling, if failures l =? 0 then fetch_add carriers_in_backoff 1 s else s)
  | Totalling => (Loop (Z.min U32_MAX (failures l + 1)) Maxing, fetch_add carrier_failures_total 1 s)
  | Maxing => (Loop (failures l) Outside, fetch_max carrier_consecutive_failures (failures l) s)
  | Clearing => (Loop (failures l) Outside, store carrier_consecutive_failures 0 s)
  end.
(** One attempt of a loop that is not interrupted. *)
Fixpoint attempt_alone (fuel : nat) (reached : bool) (l : loop) (s : AntieStats) : loop * AntieStats :=
  match fuel with
  | O => (l, s)
  | S fuel' => let '(l, s) := turn reached l s in
               match at_ l with Outside => (l, s) | _ => attempt_alone fuel' reached l s end
  end.
Lemma alone_is_note f reached s : 
  attempt_alone 3 reached (Loop f Outside) s =
  (Loop (note_carrier_attempt f reached s).1 Outside, (note_carrier_attempt f reached s).2).
Proof.
  unfold note_carrier_attempt. cbn [attempt_alone turn at_ failures]. destruct reached; [|done].
  destruct (0 <? f); [|done]. by destruct (value s carriers_in_backoff =? 1).
Qed.

(** ** All loops, and everything else the process counts *)
Record gauges : Type := Gauges { loops : list loop; stats : AntieStats }.
Definition others_keep (s s' : AntieStats) : Prop :=
  forall c, c ∈ [carriers_in_backoff; carrier_consecutive_failures; carrier_failures_total] -> value s' c = value s c.
Inductive step : gauges -> gauges -> Prop :=
  | Turns i reached l l' s' g :
      loops g !! i = Some l -> turn reached l (stats g) = (l', s') -> step g (Gauges (<[i := l']> (loops g)) s')
  | Elsewhere s' g : others_keep (stats g) s' -> step g (Gauges (loops g) s').
Definition starts (n : nat) (now : Z) : gauges := Gauges (repeat (Loop 0 Outside) n) (stats_new now).

(** In backoff as the gauge counts it: from the first failure's first operation. *)
Definition counted (l : loop) : bool :=
  match at_ l with Outside => 0 <? failures l | Totalling | Maxing => true | Clearing => false end.
Definition backed_off (g : gauges) : Z := Z.of_nat (length (List.filter counted (loops g))).
Definition clearing (l : loop) : Prop := at_ l = Clearing.
Record Inv (g : gauges) : Prop := {
  inv_streak : forall i l, loops g !! i = Some l -> 0 <= failures l <= U32_MAX /\
    (at_ l = Clearing -> failures l = 0) /\ (at_ l = Maxing -> 0 < failures l);
  inv_counted : value (stats g) carriers_in_backoff = backed_off g;
  inv_cleared : backed_off g = 0 -> (forall i l, loops g !! i = Some l -> ~ clearing l) ->
    value (stats g) carrier_consecutive_failures = 0 }.

Lemma count_turn ls i l l' : ls !! i = Some l ->
  Z.of_nat (length (List.filter counted (<[i := l']> ls))) =
  Z.of_nat (length (List.filter counted ls)) + (if counted l' then 1 else 0) - (if counted l then 1 else 0).
Proof.
  revert i. induction ls as [|x ls IH]; intros [|i] H; simplify_eq/=.
  - destruct (counted l'), (counted l); simpl; lia.
  - specialize (IH i H). destruct (counted x); simpl; lia.
Qed.
Lemma count_bound ls : (length (List.filter counted ls) <= length ls)%nat.
Proof. apply filter_length_le. Qed.
Lemma counted_some ls i l : ls !! i = Some l -> counted l = true -> (1 <= length (List.filter counted ls))%nat.
Proof.
  intros Hi Hc. assert (In l (List.filter counted ls)) as H.
  { apply filter_In. split; [|done]. apply list_elem_of_In. by eapply list_elem_of_lookup_2. }
  destruct (List.filter counted ls); [done|]. cbn. lia.
Qed.

(** What one operation does. *)
Definition one (b : bool) : Z := if b then 1 else 0.
Definition wf (l : loop) : Prop :=
  0 <= failures l <= U32_MAX /\ (at_ l = Clearing -> failures l = 0) /\ (at_ l = Maxing -> 0 < failures l).
Record effect (l l' : loop) (s s' : AntieStats) : Prop := {
  ef_wf : wf l';
  ef_count : value s' carriers_in_backoff =
    if eqb (counted l) (counted l') then value s carriers_in_backoff
    else wrap 64 (value s carriers_in_backoff + one (counted l') - one (counted l));
  ef_leave : counted l = true -> counted l' = false -> value s carriers_in_backoff = 1 -> clearing l';
  ef_clear : clearing l -> value s' carrier_consecutive_failures = 0;
  ef_streak : counted l' = false ->
    value s' carrier_consecutive_failures = value s carrier_consecutive_failures \/ value s' carrier_consecutive_failures = 0 }.
Ltac effects :=
  constructor; unfold wf, clearing, counted; cbn [at_ failures];
  try match goal with H : (0 <? _) = _ |- _ => rewrite ?H end;
  try done; try (intros; by left); try (repeat split; try done; lia);
  try (unfold fetch_sub, fetch_add; rewrite value_store_eq; simpl eqb; cbv iota; f_equal; unfold one; simpl; lia).
Lemma turn_effect reached l s l' s' : wf l -> turn reached l s = (l', s') -> effect l l' s s'.
Proof.
  intros (Hf & Hc & Hm) Ht. assert (U32_MAX = 4294967295) as Hu by reflexivity.
  destruct l as [f pt]. unfold turn in Ht. cbn in Hf, Hc, Hm, Ht. destruct pt; [destruct reached|..].
  - destruct (Z.ltb_spec 0 f) as [L|L]; simplify_eq.
    + assert ((0 <? f) = true) as Ef by lia. destruct (Z.eqb_spec (value s carriers_in_backoff) 1) as [E|E]; effects.
    + effects. by destruct (0 <? f).
  - simplify_eq. destruct (Z.eqb_spec f 0) as [->|N]; effects. by destruct (Z.ltb_spec 0 f); [|lia].
  - simplify_eq. effects.
  - simplify_eq. assert ((0 <? f) = true) as Ef by (specialize (Hm eq_refl); lia). effects.
  - simplify_eq. rewrite (Hc eq_refl). effects.
Qed.

Lemma turn_inv g i reached l l' s' : Z.of_nat (length (loops g)) <= U64_MAX -> Inv g ->
  loops g !! i = Some l -> turn reached l (stats g) = (l', s') -> Inv (Gauges (<[i := l']> (loops g)) s').
Proof.
  intros Hn [H1 H2 H3] Hi Ht. destruct (turn_effect _ _ _ _ _ (H1 i l Hi) Ht) as [Ew Ec El Ek Es].
  pose proof (count_turn (loops g) i l l' Hi) as Hk. pose proof (count_bound (<[i := l']> (loops g))) as Hb'.
  rewrite length_insert in Hb'. pose proof (counted_some (loops g) i l Hi) as Hcs.
  pose proof (counted_some (<[i := l']> (loops g)) i l') as Hcs'. rewrite list_lookup_insert_eq in Hcs' by (by eapply lookup_lt_Some).
  specialize (Hcs' eq_refl). unfold backed_off in *. constructor; cbn [loops stats].
  - intros j x Hx. apply list_lookup_insert_Some in Hx as [(<- & <- & _)|[_ ?]]; [done|by eapply H1].
  - unfold backed_off. cbn [loops]. rewrite Ec, Hk, H2. unfold one. destruct (counted l), (counted l'); cbn [eqb]; try lia.
    + rewrite wrap_small by (unfold U64_MAX in *; specialize (Hcs eq_refl); lia). lia.
    + rewrite wrap_small by (unfold U64_MAX in *; lia). lia.
  - unfold backed_off. cbn [loops]. intros Hz Hno.
    destruct (counted l') eqn:C'; [specialize (Hcs' eq_refl); lia|]. destruct (Es eq_refl) as [E|E]; [|done]. rewrite E.
    destruct (counted l) eqn:C.
    + exfalso. apply (Hno i l'); [apply list_lookup_insert_eq; by eapply lookup_lt_Some|]. apply El; [done|done|]. rewrite H2. lia.
    + destruct (at_ l) eqn:Ea; [| | |rewrite <- E; by apply Ek].
      all: apply H3; [lia|]; intros j x Hx Hcl; destruct (decide (j = i)) as [->|N];
        [unfold clearing in Hcl; congruence|apply (Hno j x); [by rewrite list_lookup_insert_ne by congruence|done]].
Qed.
Lemma step_inv_gauges g g' : Z.of_nat (length (loops g)) <= U64_MAX -> step g g' -> Inv g ->
  Inv g' /\ length (loops g') = length (loops g).
Proof.
  intros Hn Hs HI. destruct Hs as [i reached l l' s' g Hi Ht|s' g Hk].
  - split; [by eapply turn_inv|apply length_insert].
  - split; [|done]. destruct HI as [H1 H2 H3].
    pose proof (Hk carriers_in_backoff ltac:(repeat constructor)) as E1.
    pose proof (Hk carrier_consecutive_failures ltac:(repeat constructor)) as E2.
    constructor; cbn [loops stats]; rewrite ?E1, ?E2; auto.
Qed.
Lemma starts_inv_gauges n now : Inv (starts n now).
Proof.
  assert (backed_off (starts n now) = 0) as Hz by (unfold backed_off, starts; cbn; by induction n).
  constructor; [|by rewrite Hz|done].
  intros i l Hi. unfold starts in Hi. cbn in Hi. apply list_elem_of_lookup_2, list_elem_of_In, repeat_spec in Hi as ->.
  repeat split; cbn; try done; try lia.
Qed.
Lemma reach_gauges n now g : Z.of_nat n <= U64_MAX -> rtc step (starts n now) g -> Inv g /\ length (loops g) = n.
Proof.
  intros Hn. revert g. apply (rtc_ind_r (fun g => Inv g /\ length (loops g) = n)).
  - split; [apply starts_inv_gauges|apply repeat_length].
  - intros g g' _ Hs [HI Hl]. destruct (step_inv_gauges g g') as [HI' Hl']; [by rewrite Hl|done|done|]. by rewrite Hl'.
Qed.

(** C19: The back-off gauge counts right however the loops interleave.  With any
    number of pull loops, each interrupted by the others between any two of its
    atomic operations: the gauge is at every moment the number of loops that have
    begun a streak and not ended it, so that between attempts it is the number of
    loops in back-off; and once none is, and the last to leave has finished, the
    streak gauge is zero. *)
Theorem gauges_under_race n now g :
  Z.of_nat n <= U64_MAX -> rtc step (starts n now) g ->
  value (stats g) carriers_in_backoff = backed_off g /\
  ((forall i l, loops g !! i = Some l -> at_ l = Outside) ->
   value (stats g) carriers_in_backoff = Z.of_nat (length (List.filter (fun l => 0 <? failures l) (loops g))) /\
   (value (stats g) carriers_in_backoff = 0 -> value (stats g) carrier_consecutive_failures = 0)).
Proof.
  intros Hn Hr. destruct (reach_gauges n now g Hn Hr) as [[H1 H2 H3] _]. split; [done|]. intros Ho. split.
  - rewrite H2. unfold backed_off. do 2 f_equal. apply List.filter_ext_in. intros l Hl%list_elem_of_In.
    apply list_elem_of_lookup in Hl as [i Hi]. unfold counted. by rewrite (Ho i l Hi).
  - intros Hz. apply H3; [by rewrite <- H2|]. intros i l Hi Hc. unfold clearing in Hc. by rewrite (Ho i l Hi) in Hc.
Qed.

(** A schedule: which loop takes its next operation, and whether its server is
    there. *)
Fixpoint schedule (ts : list (nat * bool)) (g : gauges) : gauges :=
  match ts with
  | [] => g
  | (i, reached) :: ts' =>
      match loops g !! i with
      | Some l => schedule ts' (Gauges (<[i := (turn reached l (stats g)).1]> (loops g)) (turn reached l (stats g)).2)
      | None => schedule ts' g
      end
  end.
Lemma schedule_reaches ts : forall g, rtc step g (schedule ts g).
Proof.
  induction ts as [|[i reached] ts IH]; intros g; cbn [schedule]; [done|].
  destruct (loops g !! i) as [l|] eqn:Hi; [|apply IH]. eapply rtc_l; [|apply IH].
  eapply Turns; [exact Hi|apply surjective_pairing].
Qed.
Lemma schedule_app ts ts' g : schedule (ts ++ ts') g = schedule ts' (schedule ts g).
Proof.
  revert g. induction ts as [|[i reached] ts IH]; intros g; [done|]. cbn [app schedule]. by destruct (loops g !! i).
Qed.
Definition fails (i k : nat) : list (nat * bool) := concat (replicate k [(i, false); (i, false); (i, false)]).
(** The other loop's streak, while the first one is about to clear the gauge. *)
Lemma second_fails k : (1 <= k)%nat -> Z.of_nat k <= U32_MAX -> forall s, value s carriers_in_backoff = 0 ->
  exists s', schedule (fails 1 k) (Gauges [Loop 0 Clearing; Loop 0 Outside] s) = Gauges [Loop 0 Clearing; Loop (Z.of_nat k) Outside] s' /\
    value s' carriers_in_backoff = 1.
Proof.
  intros H1. induction k as [|k IH]; [lia|]. intros Hk s Hs. destruct (decide (k = 0%nat)) as [->|N].
  - eexists. split; [reflexivity|]. cbn. by rewrite Hs.
  - destruct (IH ltac:(lia) ltac:(lia) s Hs) as (s' & E & Hs').
    assert (fails 1 (S k) = fails 1 k ++ [(1%nat, false); (1%nat, false); (1%nat, false)]) as ->.
    { unfold fails. rewrite replicate_S_end, concat_app. done. }
    rewrite schedule_app, E. cbn [schedule loops stats lookup list_lookup turn at_ failures list_insert insert fst snd].
    destruct (Z.eqb_spec (Z.of_nat k) 0) as [?|_]; [lia|]. eexists. split.
    + do 4 f_equal. lia.
    + unfold fetch_max, fetch_add. by rewrite !value_store_ne by done.
Qed.

(** A streak can vanish from the gauge.  The last loop in back-off leaves it
    and, before it clears the streak gauge, another loop begins a streak: the
    clearing then wipes the new streak too.  For every length k there is a run that
    ends between attempts with one loop in back-off after k failures in a row, and
    a streak gauge of zero. *)
Theorem streak_lost_in_race k now : (1 <= k)%nat -> Z.of_nat k <= U32_MAX ->
  exists g, rtc step (starts 2 now) g /\ map at_ (loops g) = [Outside; Outside] /\
    map failures (loops g) = [0; Z.of_nat k] /\ value (stats g) carriers_in_backoff = 1 /\
    value (stats g) carrier_consecutive_failures = 0.
Proof.
  intros H1 Hk. set (s0 := stats (schedule (fails 0 1 ++ [(0%nat, true)]) (starts 2 now))).
  assert (schedule (fails 0 1 ++ [(0%nat, true)]) (starts 2 now) = Gauges [Loop 0 Clearing; Loop 0 Outside] s0) as E0 by reflexivity.
  destruct (second_fails k H1 Hk s0 eq_refl) as (s1 & E1 & Hs1).
  exists (schedule ((fails 0 1 ++ [(0%nat, true)]) ++ fails 1 k ++ [(0%nat, true)]) (starts 2 now)).
  split; [apply schedule_reaches|]. rewrite schedule_app, schedule_app, E0, E1. cbn.
  by rewrite Hs1.
Qed.
Lemma streak_lost_in_race_witness : exists g, rtc step (starts 2 5) g /\
  map failures (loops g) = [0; 7] /\ value (stats g) carriers_in_backoff = 1 /\ value (stats g) carrier_consecutive_failures = 0.
Proof.
  destruct (streak_lost_in_race 7 5 ltac:(lia) ltac:(vm_compute; discriminate)) as (g & Hr & _ & H). by exists g.
Defined.
Lemma gauges_under_race_witness :
  let g := schedule [(0%nat, false); (1%nat, false); (0%nat, false); (1%nat, false); (1%nat, false); (0%nat, false); (1%nat, true)] (starts 2 5) in
  value (stats g) carriers_in_backoff = 1.
Proof.
  intros g. transitivity (backed_off g); [|vm_compute; reflexivity].
  exact (proj1 (gauges_under_race 2 5 g ltac:(vm_compute; discriminate) (schedule_reaches _ _))).
Defined.
End GaugeRace.
