(* ===== verification/Carriers.v ===== *)
(** * Mail carriers: [carrier.rs]

    A connection is what its peer makes of it: [Peer] says what a server
    answers to a connect and to each write, cut into the segments successive
    socket reads return.  A session's world is the peer's state, the segments
    not read yet and how the stream ends.  TCP, TLS and the clock are the
    peer's; the protocols are the source's. *)
From S2P Require Import Prelude Utf8 Fs Errors Config Sinks.
Import Errors.

(** ** The trait every carrier implements *)
Record IncomingMessage : Type := { id : bytes; raw : bytes; source : bytes }.
#[export] Instance IncomingMessage_eq_dec : EqDecision IncomingMessage.
Proof. solve_decision. Defined.

Record MailCarrier `{EC : ErrorsCrate} (W : Type) : Type := {
    carrier_name : bytes;
    check_new : M W AntieError (list IncomingMessage);
    mark_processed : bytes -> M W AntieError unit;
    mark_failed : bytes -> bytes -> M W AntieError unit;
    send : bytes -> bytes -> M W AntieError unit;
}.
Arguments carrier_name {EC W}.
Arguments check_new {EC W}.
Arguments mark_processed {EC W}.
Arguments mark_failed {EC W}.
Arguments send {EC W}.

(** ** Sessions *)
Module Io.

(** How a stream ends after the bytes that arrived: nothing more comes before
    the time-out, the peer closed it, or reading fails. *)
Inductive ending : Type := Waiting | Closed | Broken (e : bytes).

(** A server: an [Err] carries the text of the failure. *)
Class Peer (P : Type) : Type := {
    on_connect : P -> result bytes (P * (list bytes * ending));
    on_write : P -> bytes -> result bytes (P * (list bytes * ending));
}.

Record net (P : Type) : Type := Net {
  peer : P; inbound : list bytes; stream_end : ending; eof_mid_response : Z }.
Arguments Net {P}.
Arguments peer {P}.
Arguments inbound {P}.
Arguments stream_end {P}.
Arguments eof_mid_response {P}.

(** One read fills at most the 8 KiB of a [BufReader]. *)
Definition BUF : nat := 8192.
Fixpoint chop_fuel (fuel : nat) (s : bytes) : list bytes :=
  match fuel, s with
  | S fuel', _ :: _ => take BUF s :: chop_fuel fuel' (drop BUF s)
  | _, _ => []
  end.
Definition chop (s : bytes) : list bytes := chop_fuel (length s) s.
Definition receive (segs : list bytes) : list bytes := flat_map chop segs.

(** What [read_line] takes from the buffer and the segments that follow. *)
Inductive taken : Type :=
  | Line (l over : bytes) (segs : list bytes)
  | Partial (l : bytes).
Fixpoint take_line (buf : bytes) (segs : list bytes) : taken :=
  match split_once LF buf with
  | Some (l, over) => Line (l ++ [LF]) over segs
  | None =>
      match segs with
      | [] => Partial buf
      | s :: segs' => take_line (buf ++ s) segs'
      end
  end.
Inductive exactly : Type :=
  | Enough (b over : bytes) (segs : list bytes)
  | Short (missing : N).
Fixpoint take_exact (want : N) (buf : bytes) (segs : list bytes) : exactly :=
  if (want <=? N.of_nat (length buf))%N
  then Enough (take (N.to_nat want) buf) (drop (N.to_nat want) buf) segs
  else match segs with
       | [] => Short (want - N.of_nat (length buf))
       | s :: segs' => take_exact want (buf ++ s) segs'
       end.

Section io.
Context `{EC : ErrorsCrate} {P : Type} `{PP : Peer P}.
Abbreviation S A := (M (net P) AntieError A).

Definition with_inbound (segs : list bytes) (w : net P) : net P :=
  Net (peer w) segs (stream_end w) (eof_mid_response w).
Definition count_eof (w : net P) : net P :=
  Net (peer w) (inbound w) (stream_end w) (wrap 64 (eof_mid_response w + 1)).

(** [connect]: a fresh stream.  The parameter's text is the whole message. *)
Definition connect : S unit := fun w =>
  match on_connect (peer w) with
  | Ok (p, (segs, e)) => (Ok tt, Net p (receive segs) e (eof_mid_response w))
  | Err t => (Err (ConfigError t), w)
  end.
Definition eof (what : bytes) : S (bytes * bytes) :=
  _ ← modify count_eof;
  throw (ConfigError (what ++ $": connection closed by server mid-response")).

(** [read_line] on a reader that has buffered [buf]: the line and what the
    reader holds after it.  End of stream is an error, never an empty line. *)
Definition read_line (what buf : bytes) : S (bytes * bytes) :=
  w ← get;
  match take_line buf (inbound w) with
  | Line l over segs =>
      _ ← modify (with_inbound segs);
      if is_utf8 l then mret (l, over)
      else throw (ConfigError (what ++ $" read: stream did not contain valid UTF-8"))
  | Partial l =>
      _ ← modify (with_inbound []);
      match stream_end w with
      | Closed =>
          if decide (l = []) then eof what
          else if is_utf8 l then mret (l, [])
          else throw (ConfigError (what ++ $" read: stream did not contain valid UTF-8"))
      | Waiting => throw (ConfigError (what ++ $" read: no data for 60s"))
      | Broken e => throw (ConfigError (what ++ $" read: " ++ e))
      end
  end.
Definition read_exact (what detail : bytes) (want : N) (buf : bytes) : S (bytes * bytes) :=
  w ← get;
  match take_exact want buf (inbound w) with
  | Enough b over segs => _ ← modify (with_inbound segs); mret (b, over)
  | Short missing =>
      _ ← modify (with_inbound []);
      match stream_end w with
      | Closed =>
          _ ← modify count_eof;
          throw (ConfigError (what ++ $": connection closed by server mid-response " ++ detail
                              ++ $" (literal " ++ show_N missing ++ $" bytes short)"))
      | Waiting =>
          throw (ConfigError (what ++ $" read " ++ detail ++ $": no data for 60s ("
                              ++ show_N missing ++ $" bytes short)"))
      | Broken e => throw (ConfigError (what ++ $" read " ++ detail ++ $": " ++ e))
      end
  end.
Definition write_all (b what : bytes) : S unit := fun w =>
  match on_write (peer w) b with
  | Ok (p, (segs, e)) =>
      (Ok tt, Net p (inbound w ++ receive segs) e (eof_mid_response w))
  | Err t => (Err (ConfigError (what ++ $" write: " ++ t)), w)
  end.

(** How many bytes the session could still read: the measure of every loop. *)
Definition pending (w : net P) : nat := length (concat (inbound w)).
(** A loop's fuel is one more than the bytes it could consume, those its reader
    buffered included; [None] is an exhausted fuel. *)
Definition run_loop {A : Type} (buf : bytes) (loop : nat -> S (option A)) : S A :=
  w ← get;
  r ← loop (Datatypes.S (length buf + pending w));
  match r with
  | Some a => mret a
  | None => throw (ConfigError $"out of fuel")
  end.
End io.
End Io.

(** ** POP3 *)
Module Pop3.
Import Io.
Section pop3.
Context `{EC : ErrorsCrate} {P : Type} `{PP : Peer P}.
Abbreviation S A := (M (net P) AntieError A).

Record Pop3Carrier : Type := {
  server : bytes; port : Z; username : bytes; password : bytes; use_tls : bool }.

(** A fresh reader for one line: what it buffered beyond the line is dropped
    with it. *)
Definition fresh_line : S bytes := '(line, _) ← read_line $"POP3" []; mret line.
Definition command (cmd : bytes) : S bytes :=
  _ ← write_all (cmd ++ crlf) $"POP3";
  line ← fresh_line;
  if starts_with $"-ERR" line then throw (ConfigError ($"POP3: " ++ trim line))
  else mret line.

Definition unstuff (line : bytes) : bytes :=
  if starts_with $".." line then drop 1 line else line.
Fixpoint multiline_loop (what buf data : bytes) (fuel : nat) : S (option bytes) :=
  match fuel with
  | O => mret None
  | Datatypes.S fuel' =>
      '(line, buf) ← read_line what buf;
      if decide (trim line = $".") then mret (Some data)
      else multiline_loop what buf (data ++ unstuff line) fuel'
  end.
Definition read_multiline (which : bytes) : S bytes :=
  run_loop [] (multiline_loop ($"POP3 RETR " ++ which) [] []).

(** Greeting and login. *)
Definition login (c : Pop3Carrier) : S unit :=
  _ ← connect;
  _ ← fresh_line;
  _ ← command ($"USER " ++ username c);
  _ ← command ($"PASS " ++ password c);
  mret tt.
Definition stat_count (stat_line : bytes) : Z :=
  match split_whitespace stat_line !! 1%nat with
  | Some s => unwrap_or 0 (parse_uint U64_MAX s)
  | None => 0
  end.
Definition source_of (c : Pop3Carrier) (i : bytes) : bytes :=
  $"pop3://" ++ server c ++ $":" ++ show_Z (port c) ++ $"/" ++ i.
(** Messages [i], [i+1], ... *)
Fixpoint retr_from (c : Pop3Carrier) (i : Z) (n : nat) (messages : list IncomingMessage)
    : S (list IncomingMessage) :=
  match n with
  | O => mret messages
  | Datatypes.S n' =>
      _ ← command ($"RETR " ++ show_Z i);
      raw ← read_multiline ($"msg=" ++ show_Z i);
      retr_from c (i + 1) n' (messages ++ [{| id := show_Z i; raw := raw;
                                              source := source_of c (show_Z i) |}])
  end.
Definition check_new (c : Pop3Carrier) : S (list IncomingMessage) :=
  _ ← login c;
  stat_line ← command $"STAT";
  messages ← retr_from c 1 (Z.to_nat (stat_count stat_line)) [];
  _ ← attempt (E := AntieError) (command $"QUIT");
  mret messages.
Definition mark_processed (c : Pop3Carrier) (message_id : bytes) : S unit :=
  _ ← login c;
  _ ← command ($"DELE " ++ message_id);
  _ ← attempt (E := AntieError) (command $"QUIT");
  mret tt.

Definition carrier (c : Pop3Carrier) : MailCarrier (net P) := {|
  carrier_name := $"pop3";
  Carriers.check_new := check_new c;
  Carriers.mark_processed := mark_processed c;
  mark_failed := fun _ _ => mret tt;
  send := fun _ _ => throw (ConfigError $"POP3 cannot send — use SMTP for outbound") |}.
End pop3.
End Pop3.

(** ** IMAP *)
Module Imap.
Import Io.
Section imap.
Context `{EC : ErrorsCrate} {P : Type} `{PP : Peer P}.

Record ImapCarrier : Type := {
  server : bytes; port : Z; username : bytes; password : bytes; use_tls : bool;
  inbox_folder : bytes }.
(** The carrier's own tag counter (a [u32]) beside its session. *)
Record imap : Type := Imap { tag_counter : Z; session : net P }.
Abbreviation S A := (M (net P) AntieError A).
Abbreviation I A := (M imap AntieError A).

Definition set_session (n : net P) (w : imap) : imap := Imap (tag_counter w) n.
Definition on_session {A : Type} (m : S A) : I A := zoom session set_session m.

Definition pad4 (s : bytes) : bytes := repeat "0"%char (4 - length s) ++ s.
Definition next_tag : I bytes := fun w =>
  (Ok ($"A" ++ pad4 (show_Z (tag_counter w))), Imap (wrap 32 (tag_counter w + 1)) (session w)).

Definition replace_byte (c : byte) (r s : bytes) : bytes :=
  flat_map (fun b => if decide (b = c) then r else [b]) s.
Definition imap_quote (s : bytes) : result AntieError bytes :=
  if contains [CR] s || contains [LF] s
  then Err (ConfigError $"IMAP argument contains CR/LF — refusing (command injection)")
  else Ok ([DQ] ++ replace_byte DQ [BSLASH; DQ] (replace_byte BSLASH [BSLASH; BSLASH] s) ++ [DQ]).

(** The status of a tagged line: what follows the tag and one space. *)
Definition tagged (tag trimmed : bytes) : option bytes :=
  match strip_prefix tag trimmed with
  | Some rest => strip_prefix $" " rest
  | None => None
  end.
Fixpoint command_loop (tag buf : bytes) (ls : list bytes) (fuel : nat) : S (option (list bytes)) :=
  match fuel with
  | O => mret None
  | Datatypes.S fuel' =>
      '(line, buf) ← read_line $"IMAP" buf;
      let trimmed := trim line in
      match tagged tag trimmed with
      | Some status =>
          if starts_with $"OK" status then mret (Some (ls ++ [trimmed]))
          else throw (ConfigError ($"IMAP: " ++ trimmed))
      | None => command_loop tag buf (ls ++ [trimmed]) fuel'
      end
  end.
Definition imap_command (tag cmd : bytes) : S (list bytes) :=
  _ ← write_all (tag ++ $" " ++ cmd ++ crlf) $"IMAP";
  run_loop [] (command_loop tag [] []).
(** A command under the next tag. *)
Definition tagged_command (cmd : bytes) : I (list bytes) :=
  tag ← next_tag; on_session (imap_command tag cmd).

Definition read_greeting : S unit :=
  '(line, _) ← read_line $"IMAP greeting" [];
  if contains $"OK" line then mret tt
  else throw (ConfigError ($"IMAP bad greeting: " ++ trim line)).

(** The size a literal announces: [{SIZE}] at the end of the line. *)
Definition literal_size (trimmed : bytes) : option Z :=
  if ends_with $"}" trimmed then
    match rsplit_once "{"%char trimmed with
    | Some (_, r) => parse_uint U64_MAX (removelast r)
    | None => None
    end
  else None.
Fixpoint fetch_loop (tag uid buf data : bytes) (fuel : nat) : S (option bytes) :=
  match fuel with
  | O => mret None
  | Datatypes.S fuel' =>
      '(line, buf) ← read_line ($"IMAP FETCH uid=" ++ uid) buf;
      let trimmed := trim line in
      if starts_with tag trimmed then mret (Some data)
      else match literal_size trimmed with
           | Some size =>
               '(lit, buf) ← read_exact $"IMAP FETCH" ($"uid=" ++ uid) (Z.to_N size) buf;
               fetch_loop tag uid buf (data ++ lit) fuel'
           | None => fetch_loop tag uid buf data fuel'
           end
  end.
Definition fetch_message (tag uid : bytes) : S bytes :=
  _ ← write_all (tag ++ $" UID FETCH " ++ uid ++ $" BODY.PEEK[]" ++ crlf) $"IMAP";
  run_loop [] (fetch_loop tag uid [] []).

(** Greeting, LOGIN, SELECT. *)
Definition open_session (c : ImapCarrier) : I unit :=
  _ ← on_session read_greeting;
  tag ← next_tag;
  u ← lift (imap_quote (username c));
  p ← lift (imap_quote (password c));
  _ ← on_session (imap_command tag ($"LOGIN " ++ u ++ $" " ++ p));
  tag ← next_tag;
  f ← lift (imap_quote (inbox_folder c));
  _ ← on_session (imap_command tag ($"SELECT " ++ f));
  mret tt.

Definition uids_of (search_lines : list bytes) : list bytes :=
  flat_map (fun l => drop 2 (split_whitespace l)) (List.filter (starts_with $"* SEARCH") search_lines).
Definition source_of (c : ImapCarrier) (uid : bytes) : bytes :=
  $"imap://" ++ server c ++ $":" ++ show_Z (port c) ++ $"/" ++ inbox_folder c ++ $"/" ++ uid.
Fixpoint fetch_all (c : ImapCarrier) (uids : list bytes) (messages : list IncomingMessage)
    : I (list IncomingMessage) :=
  match uids with
  | [] => mret messages
  | uid :: uids' =>
      tag ← next_tag;
      raw ← on_session (fetch_message tag uid);
      fetch_all c uids' (messages ++ [{| id := uid; raw := raw; source := source_of c uid |}])
  end.
Definition logout : I unit :=
  tag ← next_tag;
  _ ← attempt (E := AntieError) (on_session (imap_command tag $"LOGOUT"));
  mret tt.
Definition check_new (c : ImapCarrier) : I (list IncomingMessage) :=
  _ ← on_session connect;
  _ ← open_session c;
  search_lines ← tagged_command $"UID SEARCH UNSEEN";
  messages ← fetch_all c (uids_of search_lines) [];
  _ ← logout;
  mret messages.
Definition mark_processed (c : ImapCarrier) (message_id : bytes) : I unit :=
  _ ← on_session connect;
  _ ← open_session c;
  _ ← tagged_command ($"UID STORE " ++ message_id ++ $" +FLAGS (\Deleted)");
  _ ← tagged_command $"EXPUNGE";
  logout.

(** *** IDLE *)
Definition advertises_idle (caps : list bytes) : bool :=
  existsb (fun l => starts_with $"* CAPABILITY" l
                    && existsb (fun w => bool_decide (w = $"IDLE")) (split_whitespace l)) caps.
Definition has_unseen (hits : list bytes) : bool :=
  existsb (fun l => starts_with $"* SEARCH" l
                    && bool_decide (is_Some (split_whitespace l !! 2%nat))) hits.
Definition is_mail_push (t : bytes) : bool :=
  starts_with $"* " t && (ends_with $"EXISTS" t || ends_with $"RECENT" t).
(** Whether mail was pushed before the recycle deadline; a stream on which
    nothing more comes is the quiet recycle (its slices only [beat]). *)
Fixpoint idle_loop (buf : bytes) (fuel : nat) : S (option bool) :=
  match fuel with
  | O => mret None
  | Datatypes.S fuel' =>
      w ← get;
      let listen :=
        '(line, buf) ← read_line $"IMAP idle" buf;
        let t := trim line in
        if starts_with $"+" t then idle_loop buf fuel'
        else if is_mail_push t then mret (Some true)
        else idle_loop buf fuel' in
      match buf, inbound w with
      | [], [] =>
          match stream_end w with
          | Waiting => mret (Some false)
          | Closed => throw (ConfigError $"IMAP: server closed the idle connection")
          | Broken e => throw (ConfigError ($"IMAP idle read: " ++ e))
          end
      | _, _ => listen
      end
  end.
Fixpoint drain_loop (tag buf : bytes) (fuel : nat) : S (option unit) :=
  match fuel with
  | O => mret None
  | Datatypes.S fuel' =>
      r ← attempt (read_line $"IMAP idle DONE" buf);
      match r with
      | Err _ => mret (Some tt)
      | Ok (line, buf) =>
          if starts_with tag (trim line) then mret (Some tt) else drain_loop tag buf fuel'
      end
  end.
Definition idle_wait (c : ImapCarrier) : I bool :=
  _ ← on_session connect;
  _ ← open_session c;
  caps ← tagged_command $"CAPABILITY";
  if negb (advertises_idle caps) then
    throw (ConfigError ($"IdleNotSupported: " ++ server c ++ $":" ++ show_Z (port c)
                        ++ $" does not advertise IDLE"))
  else
    hits ← tagged_command $"UID SEARCH UNSEEN";
    if has_unseen hits then _ ← logout; mret true
    else
      tag ← next_tag;
      _ ← on_session (write_all (tag ++ $" IDLE" ++ crlf) $"IMAP");
      saw_mail ← on_session (run_loop [] (idle_loop []));
      _ ← on_session (write_all ($"DONE" ++ crlf) $"IMAP");
      _ ← on_session (run_loop [] (drain_loop tag []));
      _ ← logout;
      mret saw_mail.

Definition carrier (c : ImapCarrier) : MailCarrier imap := {|
  carrier_name := $"imap";
  Carriers.check_new := check_new c;
  Carriers.mark_processed := mark_processed c;
  mark_failed := fun _ _ => mret tt;
  send := fun _ _ => throw (ConfigError $"IMAP send not supported — use SMTP for outbound") |}.
End imap.
Arguments imap : clear implicits.
End Imap.

(** ** SMTP, and the split between two relays *)
Module Smtp.
Import Io.
Section smtp.
Context `{EC : ErrorsCrate} {P : Type} `{PP : Peer P}.
(** The [base64] crate's standard encoding. *)
Context (b64_encode : bytes -> bytes).
Abbreviation S A := (M (net P) AntieError A).

Record SmtpCarrier : Type := {
  server : bytes; port : Z; username : option bytes; password : option bytes;
  use_tls : bool; from_address : bytes }.

Definition is_positive (line : bytes) : bool := starts_with $"2" line || starts_with $"3" line.
Definition is_continued (line : bytes) : bool := bool_decide (line !! 3%nat = Some "-"%char).
(** One complete reply; only its last line decides. *)
Fixpoint reply_loop (buf : bytes) (fuel : nat) : S (option bytes) :=
  match fuel with
  | O => mret None
  | Datatypes.S fuel' =>
      '(line, buf) ← read_line $"SMTP" buf;
      if is_continued line then reply_loop buf fuel'
      else if is_positive line then mret (Some buf)
      else throw (ConfigError ($"SMTP error: " ++ trim line))
  end.
Definition read_reply (buf : bytes) : S bytes := run_loop buf (reply_loop buf).
Definition send_cmd (b : bytes) : S unit := write_all b $"SMTP".
(** A command and its reply. *)
Definition exchange (b buf : bytes) : S bytes := _ ← send_cmd b; read_reply buf.

Definition has_creds (c : SmtpCarrier) : bool :=
  bool_decide (is_Some (username c)) && bool_decide (is_Some (password c)).
Definition auth_login (c : SmtpCarrier) (buf : bytes) : S bytes :=
  if has_creds c then
    buf ← exchange ($"AUTH LOGIN" ++ crlf) buf;
    buf ← exchange (b64_encode (unwrap_or [] (username c)) ++ crlf) buf;
    exchange (b64_encode (unwrap_or [] (password c)) ++ crlf) buf
  else mret buf.
Definition send (c : SmtpCarrier) (to raw_email : bytes) : S unit :=
  if has_creds c && negb (use_tls c) then
    throw (ConfigError $"SMTP credentials set but use_tls=false — refusing to send AUTH in plaintext (AUTH implies TLS)")
  else
    _ ← connect;
    buf ← read_reply [];
    buf ← exchange ($"EHLO " ++ server c ++ crlf) buf;
    buf ← auth_login c buf;
    buf ← exchange ($"MAIL FROM:<" ++ from_address c ++ $">" ++ crlf) buf;
    buf ← exchange ($"RCPT TO:<" ++ to ++ $">" ++ crlf) buf;
    buf ← exchange ($"DATA" ++ crlf) buf;
    _ ← send_cmd raw_email;
    _ ← exchange (crlf ++ $"." ++ crlf) buf;
    send_cmd ($"QUIT" ++ crlf).
Definition carrier (c : SmtpCarrier) : MailCarrier (net P) := {|
  carrier_name := $"smtp";
  check_new := mret [];
  mark_processed := fun _ => mret tt;
  mark_failed := fun _ _ => mret tt;
  Carriers.send := send c |}.
End smtp.
End Smtp.

Module Split.
Import Io.
Section split.
Context `{EC : ErrorsCrate} {P : Type} `{PP : Peer P} (b64_encode : bytes -> bytes).

Record SplitCarrier : Type := { local : Smtp.SmtpCarrier; external : option Smtp.SmtpCarrier }.
(** The two relays are two peers. *)
Record relays : Type := Relays { local_net : net P; external_net : net P }.
Definition on_local {A : Type} : M (net P) AntieError A -> M relays AntieError A :=
  zoom local_net (fun n w => Relays n (external_net w)).
Definition on_external {A : Type} : M (net P) AntieError A -> M relays AntieError A :=
  zoom external_net (fun n w => Relays (local_net w) n).
Definition send (c : SplitCarrier) (to raw_email : bytes) : M relays AntieError unit :=
  if Config.recipient_is_local to then on_local (Smtp.send b64_encode (local c) to raw_email)
  else match external c with
       | Some ext => on_external (Smtp.send b64_encode ext to raw_email)
       | None =>
           throw (ConfigError ($"no external relay configured ([outbound.external]) — cannot deliver to external recipient "
                               ++ to))
       end.
Definition carrier (c : SplitCarrier) : MailCarrier relays := {|
  carrier_name := $"split";
  check_new := mret [];
  mark_processed := fun _ => mret tt;
  mark_failed := fun _ _ => mret tt;
  Carriers.send := send c |}.
End split.
End Split.

(** ** Maildirs as carriers *)
Module Local.
Section local.
Context `{EC : ErrorsCrate}.
Abbreviation F A := (M world AntieError A).

(** What names a message file: microseconds, process id, a fresh UUID. *)
Record stamp : Type := { micros : N; pid : N; uuid : bytes }.

Definition show_path : path -> bytes := display_path.
Definition exists_path (m : store) (p : path) : bool := is_dir m p || is_file m p.
Fixpoint read_all (paths : list path) (messages : list IncomingMessage) : F (list IncomingMessage) :=
  match paths with
  | [] => mret messages
  | p :: paths' =>
      raw ← Maildir.read_message p;
      read_all paths' (messages ++ [{| id := from_utf8_lossy (unwrap_or [] (file_name p));
                                       raw := raw; source := from_utf8_lossy (show_path p) |}])
  end.
Definition check_new (inbox : Maildir.Maildir) : F (list IncomingMessage) :=
  paths ← Maildir.list_new inbox;
  read_all paths [].
Definition mark_processed (inbox : Maildir.Maildir) (message_id : bytes) : F unit :=
  let p := join (join (Maildir.base inbox) $"new") message_id in
  m ← gets fs;
  if exists_path m p then _ ← Maildir.mark_processed inbox p; mret tt else mret tt.

Record MaildirCarrier : Type := { inbox : Maildir.Maildir; outbox : Maildir.Maildir }.
Definition new (inbox_path outbox_path : path) : F MaildirCarrier :=
  i ← Maildir.open inbox_path;
  o ← Maildir.open outbox_path;
  mret {| inbox := i; outbox := o |}.
Definition send (c : MaildirCarrier) (s : stamp) (raw_email : bytes) : F unit :=
  _ ← Maildir.write_message (outbox c) (micros s) (pid s) (uuid s) raw_email; mret tt.
(** [s]: the stamp of the next message sent. *)
Definition carrier (c : MaildirCarrier) (s : stamp) : MailCarrier world := {|
  carrier_name := $"maildir";
  Carriers.check_new := check_new (inbox c);
  Carriers.mark_processed := mark_processed (inbox c);
  mark_failed := fun message_id _ => mark_processed (inbox c) message_id;
  Carriers.send := fun _ raw_email => send c s raw_email |}.
End local.
End Local.

Module Routed.
Section routed.
Context `{EC : ErrorsCrate}.
Abbreviation F A := (M world AntieError A).

Record RoutedCarrier : Type := {
  inbox : Maildir.Maildir;
  cfg : Config.OutboundConfig;
  outboxes : gmap path Maildir.Maildir }.

Fixpoint open_outboxes (wanted : list path) (opened : gmap path Maildir.Maildir)
    : F (gmap path Maildir.Maildir) :=
  match wanted with
  | [] => mret opened
  | p :: wanted' =>
      if decide (is_Some (opened !! p)) then open_outboxes wanted' opened
      else md ← Maildir.open p; open_outboxes wanted' (<[p := md]> opened)
  end.
Definition new (inbox_path : path) (c : Config.OutboundConfig) : F RoutedCarrier :=
  o ← open_outboxes (map Config.outbox (Config.route c)) ∅;
  i ← Maildir.open inbox_path;
  mret {| inbox := i; cfg := c; outboxes := o |}.
Definition send (c : RoutedCarrier) (s : Local.stamp) (to raw_email : bytes) : F unit :=
  d ← lift (map_err (fun e => ConfigError (Config.route_error_text e)) (Config.outbox_for (cfg c) to));
  match d with
  | None =>
      throw (ConfigError ($"outbound route table empty while RoutedCarrier active (to=" ++ to ++ $")"))
  | Some dir =>
      match outboxes c !! dir with
      | None =>
          throw (ConfigError ($"no open outbox for " ++ Local.show_path dir
                              ++ $" — startup should have created it"))
      | Some md =>
          _ ← Maildir.write_message md (Local.micros s) (Local.pid s) (Local.uuid s) raw_email; mret tt
      end
  end.
Definition carrier (c : RoutedCarrier) (s : Local.stamp) : MailCarrier world := {|
  carrier_name := $"routed";
  Carriers.check_new := Local.check_new (inbox c);
  Carriers.mark_processed := Local.mark_processed (inbox c);
  mark_failed := fun message_id _ => Local.mark_processed (inbox c) message_id;
  Carriers.send := send c s |}.
End routed.
End Routed.
