(* ===== verification/CarrierTheorems.v ===== *)
(** * Theorems about carrier sessions: streams, termination, quoting, SMTP *)
From S2P Require Import Prelude Utf8 Fs Errors Config Sinks Carriers.
Import Errors.

(** ** Streams: what a reader sees does not depend on how it was cut *)
Module Streams.
Import Io.

Lemma concat_chop_fuel fuel s : (length s <= fuel)%nat -> concat (chop_fuel fuel s) = s.
Proof.
  revert s. induction fuel as [|fuel IH]; intros [|x s] H; try done; [simpl in H; lia|].
  cbn [chop_fuel concat]. rewrite IH.
  - apply take_drop.
  - rewrite length_drop. unfold BUF. simpl in *. lia.
Qed.
Lemma concat_receive segs : concat (receive segs) = concat segs.
Proof.
  induction segs as [|s segs IH]; [done|]. cbn [receive flat_map concat].
  rewrite concat_app. f_equal; [|exact IH]. by apply concat_chop_fuel.
Qed.
Lemma chop_nonempty fuel s : Forall (fun p => p <> []) (chop_fuel fuel s).
Proof.
  revert s. induction fuel as [|fuel IH]; intros [|x s]; cbn [chop_fuel]; constructor; auto.
Qed.
Lemma receive_nonempty segs : Forall (fun p => p <> []) (receive segs).
Proof.
  induction segs as [|s segs IH]; [constructor|]. cbn [receive flat_map].
  apply Forall_app. split; [apply chop_nonempty|exact IH].
Qed.
Lemma chop_short s : s <> [] -> (length s <= BUF)%nat -> chop s = [s].
Proof.
  intros Hn Hl. unfold chop. destruct s as [|x s]; [done|].
  cbn [length chop_fuel]. rewrite take_ge, drop_ge by done. by destruct (length s).
Qed.

Lemma cut_unique (c : byte) l r l' r' :
  l ++ c :: r = l' ++ c :: r' -> c ∉ l -> c ∉ l' -> l = l' /\ r = r'.
Proof.
  intros E N N'. pose proof (proj2 (split_once_Some c _ l r) (conj eq_refl N)) as H.
  rewrite E, (proj2 (split_once_Some c _ l' r') (conj eq_refl N')) in H. by injection H as -> ->.
Qed.
Lemma take_line_split buf segs l rest :
  buf ++ concat segs = l ++ LF :: rest -> LF ∉ l ->
  exists over segs', take_line buf segs = Line (l ++ [LF]) over segs' /\ over ++ concat segs' = rest.
Proof.
  revert buf. induction segs as [|s segs IH]; intros buf E N; cbn [take_line].
  - simpl in E. rewrite app_nil_r in E. subst.
    rewrite (proj2 (split_once_Some LF _ l rest)) by done.
    eexists rest, []. split; [done|]. simpl. by rewrite app_nil_r.
  - destruct (split_once LF buf) as [[l' over]|] eqn:D.
    + apply split_once_Some in D as [-> N']. rewrite <- app_assoc in E. simpl in E.
      apply cut_unique in E as [-> <-]; [|done|done].
      by exists over, (s :: segs).
    + apply IH; [|done]. by rewrite <- app_assoc.
Qed.
(** A line that is all its segments hold leaves nothing in the reader. *)
Lemma take_line_alone pre segs buf l :
  Forall (fun p => p <> []) pre -> buf ++ concat pre = l ++ [LF] -> LF ∉ l ->
  take_line buf (pre ++ segs) = Line (l ++ [LF]) [] segs.
Proof.
  intros Hp. revert buf. induction Hp as [|p pre Hn Hp IH]; intros buf E N.
  - simpl in *. rewrite app_nil_r in E. subst.
    assert (split_once LF (l ++ [LF]) = Some (l, [])) as D by (by apply split_once_Some).
    destruct segs; cbn [take_line]; by rewrite D.
  - cbn [app take_line concat] in *.
    destruct (split_once LF buf) as [[l' over]|] eqn:D; [|apply IH; [by rewrite <- app_assoc|done]].
    exfalso. apply split_once_Some in D as [-> N']. rewrite <- app_assoc in E. cbn [app] in E.
    assert (exists z zs, over ++ p ++ concat pre = zs ++ [z]) as (z & zs & E').
    { destruct (p ++ concat pre) eqn:Ep; [by destruct p|].
      destruct (exists_last (l := over ++ a :: l0)) as (zs & z & ->); [by destruct over|]. eauto. }
    rewrite E' in E. rewrite app_comm_cons, app_assoc in E. apply app_inj_tail in E as [E _].
    apply N. rewrite <- E. set_solver.
Qed.

Section streams.
Context `{EC : ErrorsCrate} {P : Type} `{PP : Peer P}.
Implicit Types w : net P.

Lemma take_line_suffix buf segs l over segs' :
  take_line buf segs = Line l over segs' -> segs' `suffix_of` segs.
Proof.
  revert buf. induction segs as [|s segs IH]; intros buf; cbn [take_line];
    destruct (split_once LF buf) as [[a b]|]; try discriminate; try by intros [= <- <- <-].
  intros H. apply suffix_cons_r. by eapply IH.
Qed.
Lemma read_line_suffix what buf w l rest :
  buf ++ concat (inbound w) = l ++ LF :: rest -> LF ∉ l -> is_utf8 (l ++ [LF]) = true ->
  exists over segs, read_line what buf w = (Ok (l ++ [LF], over), with_inbound segs w) /\
    over ++ concat segs = rest /\ segs `suffix_of` inbound w.
Proof.
  intros E N U. destruct (take_line_split buf (inbound w) l rest E N) as (over & segs & T & R).
  exists over, segs. split; [|split; [done|by eapply take_line_suffix]].
  unfold read_line, get, mbind, M_bind. rewrite T. unfold modify. by rewrite U.
Qed.
Lemma read_line_ok what buf w l rest :
  buf ++ concat (inbound w) = l ++ LF :: rest -> LF ∉ l -> is_utf8 (l ++ [LF]) = true ->
  exists over segs, read_line what buf w = (Ok (l ++ [LF], over), with_inbound segs w) /\
    over ++ concat segs = rest.
Proof.
  intros E N U. destruct (read_line_suffix what buf w l rest E N U) as (over & segs & R & Er & _). eauto.
Qed.
Lemma read_line_alone what w pre segs l :
  inbound w = pre ++ segs -> Forall (fun p => p <> []) pre -> concat pre = l ++ [LF] ->
  LF ∉ l -> is_utf8 (l ++ [LF]) = true ->
  read_line what [] w = (Ok (l ++ [LF], []), with_inbound segs w).
Proof.
  intros Ei Hp E N U. unfold read_line, get, mbind, M_bind. rewrite Ei.
  rewrite (take_line_alone pre segs [] l) by done. unfold modify. by rewrite U.
Qed.

(** *** Progress *)
Lemma take_line_progress buf segs l over segs' :
  take_line buf segs = Line l over segs' ->
  (length over + length (concat segs') < length buf + length (concat segs))%nat.
Proof.
  revert buf. induction segs as [|s segs IH]; intros buf; cbn [take_line];
    destruct (split_once LF buf) as [[a b]|] eqn:D; try discriminate.
  - intros [= <- <- <-]. apply split_once_Some in D as [-> _].
    rewrite length_app. simpl. lia.
  - intros [= <- <- <-]. apply split_once_Some in D as [-> _].
    rewrite length_app. simpl. rewrite length_app. lia.
  - intros H. apply IH in H. cbn [concat]. rewrite !length_app in *. lia.
Qed.
Lemma take_line_partial buf segs l : take_line buf segs = Partial l -> l = buf ++ concat segs.
Proof.
  revert buf. induction segs as [|s segs IH]; intros buf; cbn [take_line];
    destruct (split_once LF buf) as [[a b]|] eqn:D; try discriminate.
  - intros [= <-]. simpl. by rewrite app_nil_r.
  - intros H. apply IH in H as ->. simpl. by rewrite app_assoc.
Qed.
Lemma read_line_progress what buf w l over w' :
  read_line what buf w = (Ok (l, over), w') ->
  (length over + pending w' < length buf + pending w)%nat.
Proof.
  unfold read_line, get, mbind, M_bind, modify, pending.
  destruct (take_line buf (inbound w)) as [l0 over0 segs|l0] eqn:T.
  - destruct (is_utf8 l0); intros [= <- <- <-]. by apply take_line_progress in T.
  - apply take_line_partial in T. destruct (stream_end w); try discriminate.
    case_decide; [discriminate|]. destruct (is_utf8 l0); intros [= <- <- <-]. simpl.
    rewrite <- length_app, <- T. destruct l0; [done|simpl; lia].
Qed.
Lemma take_exact_progress want buf segs b over segs' :
  take_exact want buf segs = Enough b over segs' ->
  (length over + length (concat segs') <= length buf + length (concat segs))%nat.
Proof.
  revert buf. induction segs as [|s segs IH]; intros buf; cbn [take_exact];
    destruct (N.leb_spec want (N.of_nat (length buf))); try discriminate.
  - intros [= <- <- <-]. rewrite length_drop. lia.
  - intros [= <- <- <-]. rewrite length_drop. lia.
  - intros Hx. apply IH in Hx. cbn [concat]. rewrite !length_app in *. lia.
Qed.
Lemma read_exact_progress what detail want buf w b over w' :
  read_exact what detail want buf w = (Ok (b, over), w') ->
  (length over + pending w' <= length buf + pending w)%nat.
Proof.
  unfold read_exact, get, mbind, M_bind, modify, pending.
  destruct (take_exact want buf (inbound w)) as [b0 over0 segs|n] eqn:T.
  - intros [= <- <- <-]. by apply take_exact_progress in T.
  - destruct (stream_end w); discriminate.
Qed.
End streams.
End Streams.

(** ** Every session loop ends *)
Module Spin.
Import Io Streams.
Section spin.
Context `{EC : ErrorsCrate} {P : Type} `{PP : Peer P}.
Implicit Types w : net P.

(** Fuel above the bytes a reader and its session hold is never exhausted. *)
Definition ends {A : Type} (buf : bytes) (loop : nat -> M (net P) AntieError (option A)) : Prop :=
  forall fuel w, (length buf + pending w < fuel)%nat -> (loop fuel w).1 <> Ok None.
Lemma multiline_ends what buf data : ends buf (Pop3.multiline_loop what buf data).
Proof.
  intros fuel. revert buf data. induction fuel as [|fuel IH]; intros buf data w Hf; [lia|].
  cbn [Pop3.multiline_loop]. unfold mbind, M_bind.
  destruct (read_line what buf w) as [[[line over]|e] w'] eqn:E; [|done].
  apply read_line_progress in E. case_decide; [done|]. apply IH. lia.
Qed.
Lemma command_ends tag buf ls : ends buf (Imap.command_loop tag buf ls).
Proof.
  intros fuel. revert buf ls. induction fuel as [|fuel IH]; intros buf ls w Hf; [lia|].
  cbn [Imap.command_loop]. unfold mbind, M_bind.
  destruct (read_line _ buf w) as [[[line over]|e] w'] eqn:E; [|done].
  apply read_line_progress in E. destruct (Imap.tagged _ _) as [st|].
  - by destruct (starts_with _ st).
  - apply IH. lia.
Qed.
Lemma fetch_ends tag uid buf data : ends buf (Imap.fetch_loop tag uid buf data).
Proof.
  intros fuel. revert buf data. induction fuel as [|fuel IH]; intros buf data w Hf; [lia|].
  cbn [Imap.fetch_loop]. unfold mbind, M_bind.
  destruct (read_line _ buf w) as [[[line over]|e] w'] eqn:E; [|done].
  apply read_line_progress in E. destruct (starts_with _ _); [done|].
  destruct (Imap.literal_size _) as [z|]; [|apply IH; lia].
  destruct (read_exact _ _ _ over w') as [[[lit over']|e] w2] eqn:E2; [|done].
  apply read_exact_progress in E2. apply IH. lia.
Qed.
Lemma idle_ends buf : ends buf (Imap.idle_loop buf).
Proof.
  intros fuel. revert buf. induction fuel as [|fuel IH]; intros buf w Hf; [lia|].
  cbn [Imap.idle_loop]. unfold mbind, M_bind, get.
  assert (forall over w', (length over + pending w' < length buf + pending w)%nat ->
    (Imap.idle_loop over fuel w').1 <> Ok None) as IH' by (intros; apply IH; lia).
  clear IH Hf.
  destruct buf, (inbound w) as [|s segs]; [by destruct (stream_end w)|..];
    (destruct (read_line _ _ w) as [[[line over]|e] w'] eqn:E; [|done];
    apply read_line_progress in E; destruct (starts_with _ _); [by apply IH'|];
    destruct (Imap.is_mail_push _); [done|by apply IH']).
Qed.
Lemma drain_ends tag buf : ends buf (Imap.drain_loop tag buf).
Proof.
  intros fuel. revert buf. induction fuel as [|fuel IH]; intros buf w Hf; [lia|].
  cbn [Imap.drain_loop]. unfold mbind, M_bind, attempt.
  destruct (read_line _ buf w) as [[[line over]|e] w'] eqn:E; [|done].
  apply read_line_progress in E. destruct (starts_with _ _); [done|]. apply IH. lia.
Qed.
Lemma reply_ends buf : ends buf (Smtp.reply_loop buf).
Proof.
  intros fuel. revert buf. induction fuel as [|fuel IH]; intros buf w Hf; [lia|].
  cbn [Smtp.reply_loop]. unfold mbind, M_bind.
  destruct (read_line _ buf w) as [[[line over]|e] w'] eqn:E; [|done].
  apply read_line_progress in E. destruct (Smtp.is_continued line); [apply IH; lia|].
  by destruct (Smtp.is_positive line).
Qed.
Lemma run_loop_some {A : Type} buf (loop : nat -> M (net P) AntieError (option A)) w r w' :
  ends buf loop -> loop (S (length buf + pending w)) w = (r, w') ->
  run_loop buf loop w = (match r with Ok (Some a) => Ok a | Ok None => Err (ConfigError $"out of fuel")
                         | Err e => Err e end, w') /\ r <> Ok None.
Proof.
  intros He E. specialize (He (S (length buf + pending w)) w ltac:(lia)). rewrite E in He.
  unfold run_loop, get, mbind, M_bind. rewrite E. by destruct r as [[a|]|e].
Qed.

(** C36: no session loop spins (KI#114).  Whatever the server sent and however
    the stream ends - silence, close in the middle of a response, failure -
    each read loop of the POP3, IMAP and SMTP sessions returns after at most
    one turn per byte that arrived. *)
Theorem session_loops_never_spin w n which tag uid buf :
  let fuel := (S (length buf + pending w) + n)%nat in
  (Pop3.multiline_loop which buf [] fuel w).1 <> Ok None /\
  (Imap.command_loop tag buf [] fuel w).1 <> Ok None /\
  (Imap.fetch_loop tag uid buf [] fuel w).1 <> Ok None /\
  (Imap.idle_loop buf fuel w).1 <> Ok None /\
  (Imap.drain_loop tag buf fuel w).1 <> Ok None /\
  (Smtp.reply_loop buf fuel w).1 <> Ok None.
Proof.
  assert (length buf + pending w < S (length buf + pending w) + n)%nat as H by lia.
  repeat split.
  - by apply multiline_ends.
  - by apply command_ends.
  - by apply fetch_ends.
  - by apply idle_ends.
  - by apply drain_ends.
  - by apply reply_ends.
Qed.
End spin.
End Spin.

(** ** IMAP: arguments and literals *)
Module ImapProofs.
Import Io Streams Imap.

(** The quoted string of RFC 9051, section 4.3, as a server reads it. *)
Fixpoint quoted_body (s : bytes) : option (bytes * bytes) :=
  match s with
  | [] => None
  | x :: s' =>
      if decide (x = DQ) then Some ([], s')
      else if decide (x = BSLASH) then
        match s' with
        | y :: s'' => match quoted_body s'' with Some (v, r) => Some (y :: v, r) | None => None end
        | [] => None
        end
      else match quoted_body s' with Some (v, r) => Some (x :: v, r) | None => None end
  end.
Definition unquote (s : bytes) : option (bytes * bytes) :=
  match s with
  | x :: s' => if decide (x = DQ) then quoted_body s' else None
  | [] => None
  end.

Definition escape (b : byte) : bytes :=
  if decide (b = BSLASH) then [BSLASH; BSLASH] else if decide (b = DQ) then [BSLASH; DQ] else [b].
Lemma escapes s :
  replace_byte DQ [BSLASH; DQ] (replace_byte BSLASH [BSLASH; BSLASH] s) = flat_map escape s.
Proof.
  unfold replace_byte. induction s as [|b s IH]; [done|]. cbn [flat_map].
  rewrite flat_map_app, IH. f_equal. unfold escape.
  destruct (decide (b = BSLASH)); [done|]. cbn [flat_map]. by destruct (decide (b = DQ)).
Qed.
Lemma quoted_escaped s rest : quoted_body (flat_map escape s ++ DQ :: rest) = Some (s, rest).
Proof.
  induction s as [|b s IH]; [done|]. cbn [flat_map]. rewrite <- app_assoc. unfold escape at 1.
  assert (BSLASH <> DQ) as Nb by done.
  destruct (decide (b = BSLASH)) as [->|N];
    [cbn [app quoted_body]; by rewrite decide_False, decide_True, IH by done|].
  destruct (decide (b = DQ)) as [->|N'];
    [cbn [app quoted_body]; by rewrite decide_False, decide_True, IH by done|].
  cbn [app quoted_body]. by rewrite !decide_False, IH by done.
Qed.
Lemma escape_no_newline s c :
  (c = CR \/ c = LF) -> c ∉ s -> c ∉ flat_map escape s.
Proof.
  intros Hc. induction s as [|b s IH]; intros N; [done|]. cbn [flat_map].
  rewrite elem_of_app. intros [H|H]; [|apply IH; [set_solver|done]].
  assert (c <> BSLASH /\ c <> DQ) as [N1 N2] by (by destruct Hc as [-> | ->]).
  unfold escape in H.
  destruct (decide (b = BSLASH)), (decide (b = DQ)); set_solver.
Qed.

Section quoting.
Context `{EC : ErrorsCrate}.
(** An IMAP argument cannot inject.  Quoting succeeds exactly on the
    strings without CR and LF; what it prints holds no line break and a server
    reads it back as the same string, whatever follows. *)
Theorem imap_quote_roundtrip s rest :
  match imap_quote s with
  | Ok q => unquote (q ++ rest) = Some (s, rest) /\ CR ∉ q /\ LF ∉ q
  | Err _ => CR ∈ s \/ LF ∈ s
  end.
Proof.
  unfold imap_quote. destruct (contains [CR] s || contains [LF] s) eqn:E.
  - apply orb_true_iff in E as [E|E]; apply contains_single in E; auto.
  - apply orb_false_iff in E as [E1 E2].
    assert (CR ∉ s) as N1 by (intros H; apply contains_single in H; congruence).
    assert (LF ∉ s) as N2 by (intros H; apply contains_single in H; congruence).
    rewrite escapes. split; [|split].
    + cbn [app unquote]. rewrite decide_True by done. rewrite <- app_assoc. apply quoted_escaped.
    + pose proof (escape_no_newline s CR ltac:(auto) N1). set_solver.
    + pose proof (escape_no_newline s LF ltac:(auto) N2). set_solver.
Qed.
End quoting.

Section fetch.
Context `{EC : ErrorsCrate} {P : Type} `{PP : Peer P}.
Implicit Types w : net P.

Lemma fetch_loop_step tag uid buf data fuel w l rest :
  buf ++ concat (inbound w) = l ++ LF :: rest -> LF ∉ l -> is_utf8 (l ++ [LF]) = true ->
  exists over segs, over ++ concat segs = rest /\
    fetch_loop tag uid buf data (S fuel) w =
    (if starts_with tag (trim (l ++ [LF])) then mret (Some data)
     else match literal_size (trim (l ++ [LF])) with
          | Some size =>
              '(lit, buf) ← read_exact $"IMAP FETCH" ($"uid=" ++ uid) (Z.to_N size) over;
              fetch_loop tag uid buf (data ++ lit) fuel
          | None => fetch_loop tag uid over data fuel
          end) (with_inbound segs w).
Proof.
  intros E N U. destruct (read_line_ok ($"IMAP FETCH uid=" ++ uid) buf w l rest E N U)
    as (over & segs & R & Er). exists over, segs. split; [done|].
  cbn [fetch_loop]. unfold mbind at 1, M_bind at 1. by rewrite R.
Qed.
Lemma prefix_split (x y a b : bytes) :
  x ++ y = a ++ b -> (length a <= length x)%nat ->
  take (length a) x = a /\ drop (length a) x ++ y = b.
Proof.
  revert x. induction a as [|c a IH]; intros [|d x] E L; simpl in *; try done; try lia.
  injection E as -> E. destruct (IH x E ltac:(lia)) as [-> D]. done.
Qed.
Lemma take_exact_split want buf segs a b :
  buf ++ concat segs = a ++ b -> N.of_nat (length a) = want ->
  exists over segs', take_exact want buf segs = Enough a over segs' /\ over ++ concat segs' = b.
Proof.
  intros E <-. revert buf E. induction segs as [|s segs IH]; intros buf E; cbn [take_exact];
    destruct (N.leb_spec (N.of_nat (length a)) (N.of_nat (length buf))) as [L|L].
  - destruct (prefix_split buf _ a b E ltac:(lia)) as [T D].
    rewrite Nat2N.id, T. by eexists _, [].
  - exfalso. apply (f_equal length) in E. rewrite !length_app in E. simpl in E. lia.
  - destruct (prefix_split buf _ a b E ltac:(lia)) as [T D].
    rewrite Nat2N.id, T. by eexists _, (s :: segs).
  - apply IH. rewrite <- app_assoc. exact E.
Qed.

Lemma read_exact_ok what detail want buf w a b :
  buf ++ concat (inbound w) = a ++ b -> N.of_nat (length a) = want ->
  exists over segs, read_exact what detail want buf w = (Ok (a, over), with_inbound segs w) /\
    over ++ concat segs = b.
Proof.
  intros E L. destruct (take_exact_split want buf (inbound w) a b E L) as (over & segs & T & R).
  exists over, segs. split; [|done]. unfold read_exact, get, mbind, M_bind, modify. by rewrite T.
Qed.
Lemma with_inbound_twice s1 s2 w : with_inbound s1 (with_inbound s2 w) = with_inbound s1 w.
Proof. done. Qed.
Definition fetch_head (n u size : N) : bytes :=
  $"* " ++ show_N n ++ $" FETCH (UID " ++ show_N u ++ $" BODY[] {" ++ show_N size ++ $"}".
Lemma fetch_head_line n u size :
  is_ascii (fetch_head n u size) = true /\ LF ∉ fetch_head n u size /\
  trim (fetch_head n u size ++ crlf) = fetch_head n u size /\
  (Z.of_N size <= U64_MAX -> literal_size (fetch_head n u size) = Some (Z.of_N size)).
Proof.
  unfold fetch_head. split; [|split; [|split]].
  - by rewrite !is_ascii_app, !is_ascii_show.
  - pose proof (show_N_no LF n eq_refl). pose proof (show_N_no LF u eq_refl).
    pose proof (show_N_no LF size eq_refl). rewrite !not_elem_of_app. repeat split; try done; set_solver.
  - eapply trim_crlf; [done| |done|]; [rewrite !app_assoc; apply (last_snoc "}"%char)|done].
  - intros Hs. unfold literal_size, ends_with. rewrite !app_assoc, rev_app_distr.
    change (rev $"}") with $"}". rewrite starts_with_app.
    rewrite <- app_assoc. set (pre := (_ ++ $" BODY[] {")).
    assert (exists q, pre = q ++ $"{") as [q ->].
    { unfold pre. exists (((($"* " ++ show_N n) ++ $" FETCH (UID ") ++ show_N u) ++ $" BODY[] ").
      by rewrite <- !app_assoc. }
    rewrite <- app_assoc. rewrite (proj2 (rsplit_once_Some "{"%char _ q (show_N size ++ $"}"))).
    + change $"}" with ["}"%char]. rewrite removelast_last. rewrite <- (parse_uint_show U64_MAX (Z.of_N size)) by lia.
      rewrite show_Z_N, N2Z.id by lia. done.
    + split; [done|]. pose proof (show_N_no "{"%char size eq_refl). set_solver.
Qed.

(** A fetched message is the literal, byte for byte.  When the server
    answers the FETCH with a literal of the announced size - any bytes at all,
    in any segments - and completes the tag, the message is those bytes, and
    neither a line of the message that looks like the tag nor the framing
    around it ends up in it or cuts it short. *)
Theorem fetch_literal_exact w t u n lit status c p segs e :
  let tag := $"A" ++ t in
  let answer := fetch_head n u (N.of_nat (length lit)) ++ crlf ++ lit ++ $")" ++ crlf ++
                tag ++ $" OK" ++ status ++ [c] ++ crlf in
  concat (inbound w) = [] ->
  on_write (peer w) (tag ++ $" UID FETCH " ++ show_N u ++ $" BODY.PEEK[]" ++ crlf) = Ok (p, (segs, e)) ->
  concat segs = answer -> Z.of_nat (length lit) <= U64_MAX ->
  is_ascii (t ++ status) = true -> LF ∉ t ++ status -> printable c = true ->
  exists w', fetch_message tag (show_N u) w = (Ok lit, w') /\ peer w' = p /\ concat (inbound w') = [].
Proof.
  intros tag answer Hi Hw Hs Hl Ha Hn Hc. rewrite is_ascii_app in Ha. apply andb_true_iff in Ha as [At As].
  rewrite not_elem_of_app in Hn. destruct Hn as [Nt Ns].
  unfold fetch_message. unfold mbind at 1, M_bind at 1. unfold write_all. rewrite Hw.
  set (w1 := Net p (inbound w ++ receive segs) e (eof_mid_response w)).
  assert (concat (inbound w1) = answer) as E1 by (unfold w1; simpl; by rewrite concat_app, Hi, concat_receive).
  destruct (fetch_head_line n u (N.of_nat (length lit))) as (Ah & Nh & Th & Lh).
  set (head := fetch_head n u (N.of_nat (length lit))) in *. set (fin := tag ++ $" OK" ++ status ++ [c]).
  assert (answer = (head ++ [CR]) ++ LF :: lit ++ ($")" ++ [CR]) ++ LF :: (fin ++ [CR]) ++ [LF]) as Ea
    by (unfold answer, fin, crlf; cbn [app]; by rewrite <- !app_assoc).
  assert (exists k, pending w1 = S (S k)) as [k Ek].
  { exists (pending w1 - 2)%nat. unfold pending. rewrite E1, Ea, !length_app. simpl.
    rewrite !length_app. simpl. lia. }
  assert (is_ascii fin = true /\ LF ∉ fin /\ starts_with tag (trim (fin ++ crlf)) = true) as (Af & Nf & Tf).
  { unfold fin, tag. rewrite !is_ascii_app, At, As. split; [|split].
    - by rewrite printable_ascii.
    - rewrite !not_elem_of_app. assert (LF <> c) by (by intros <-). set_solver.
    - rewrite trim_crlf with (a := "A"%char) (c := c); try done.
      + apply (starts_with_app ($"A" ++ t) ($" OK" ++ status ++ [c])).
      + rewrite !app_assoc. apply last_snoc. }
  assert (forall x, is_ascii x = true -> is_utf8 ((x ++ [CR]) ++ [LF]) = true) as Hu
    by (intros x Hx; apply is_ascii_utf8; by rewrite !is_ascii_app, Hx).
  assert (forall x, LF ∉ x -> LF ∉ x ++ [CR]) as HN by (intros x Hx; set_solver).
  unfold run_loop. unfold mbind at 1, M_bind at 1, get. cbv beta iota zeta. cbn [length]. rewrite Nat.add_0_l, Ek.
  unfold mbind at 1, M_bind at 1.
  destruct (fetch_loop_step tag (show_N u) [] [] (S (S k)) w1 (head ++ [CR]) _ (eq_trans E1 Ea))
    as (o1 & s1 & R1 & ->); [auto..|].
  rewrite <- app_assoc. change ([CR] ++ [LF]) with crlf. rewrite Th, (Lh ltac:(lia)).
  assert (starts_with tag head = false) as -> by done.
  rewrite N2Z.id. unfold mbind at 1, M_bind at 1.
  destruct (read_exact_ok $"IMAP FETCH" ($"uid=" ++ show_N u) (N.of_nat (length lit)) o1
    (with_inbound s1 w1) lit _ R1 eq_refl) as (o2 & s2 & -> & R2).
  destruct (fetch_loop_step tag (show_N u) o2 ([] ++ lit) (S k) (with_inbound s2 w1) ($")" ++ [CR]) _ R2)
    as (o3 & s3 & R3 & E3); [set_solver|done|].
  rewrite with_inbound_twice, E3.
  assert (trim (($")" ++ [CR]) ++ [LF]) = $")") as -> by done.
  assert (starts_with tag $")" = false) as -> by done. change (literal_size $")") with (None (A := Z)).
  destruct (fetch_loop_step tag (show_N u) o3 ([] ++ lit) k (with_inbound s3 w1) (fin ++ [CR]) [])
    as (o4 & s4 & R4 & E4); [by rewrite <- R3|auto..|].
  rewrite with_inbound_twice, E4, <- (app_assoc fin). change ([CR] ++ [LF]) with crlf. rewrite Tf.
  rewrite with_inbound_twice. eexists. split; [reflexivity|]. split; [done|].
  apply app_eq_nil in R4 as [_ R4]. exact R4.
Qed.
End fetch.
End ImapProofs.

(** ** A scripted server *)
Module Script.
Import Io.

(** It answers the connect and then each write with the next entry, in the
    segments given, and keeps what it was sent, newest last. *)
Record script : Type := { answers : list (list bytes * ending); log : list bytes }.
#[export] Instance script_peer : Peer script := {|
  on_connect := fun s =>
    match answers s with
    | [] => Err $"connection refused"
    | a :: r => Ok ({| answers := r; log := log s |}, a)
    end;
  on_write := fun s b =>
    match answers s with
    | [] => Err $"broken pipe"
    | a :: r => Ok ({| answers := r; log := log s ++ [b] |}, a)
    end |}.
Definition fresh (answers : list (list bytes * ending)) : net script :=
  Net {| answers := answers; log := [] |} [] Waiting 0.
End Script.
Import Script.

Lemma fetch_literal_exact_witness :
  let lit := $"A0009 OK not the end" ++ crlf ++ $"." ++ crlf in
  let answer := ImapProofs.fetch_head 7 7 (N.of_nat (length lit)) ++ crlf ++ lit ++ $")" ++ crlf ++
                $"A0009" ++ $" OK" ++ $" FETCH don" ++ $"e" ++ crlf in
  exists w', Imap.fetch_message (EC := ex_errors) $"A0009" (show_N 7)
    (fresh [([take 40 answer; drop 40 answer], Io.Waiting)]) = (Ok lit, w').
Proof.
  intros lit answer.
  destruct (ImapProofs.fetch_literal_exact (EC := ex_errors)
    (fresh [([take 40 answer; drop 40 answer], Io.Waiting)]) $"0009" 7 7 lit $" FETCH don" "e"%char
    {| answers := []; log := [$"A0009" ++ $" UID FETCH " ++ show_N 7 ++ $" BODY.PEEK[]" ++ crlf] |}
    [take 40 answer; drop 40 answer] Io.Waiting) as (w' & E & _).
  - reflexivity.
  - reflexivity.
  - vm_compute. reflexivity.
  - vm_compute. discriminate.
  - reflexivity.
  - apply (bool_decide_unpack _). vm_compute. exact I.
  - reflexivity.
  - by exists w'.
Defined.

(** ** SMTP *)
Module SmtpProofs.
Import Io Streams Spin Smtp.
Section smtp.
Context `{EC : ErrorsCrate} (b64_encode : bytes -> bytes).

(** A reply: its continued lines and its last one, without their line feeds. *)
Record reply : Type := { continued : list bytes; final : bytes }.
Definition whole (l : bytes) : Prop := LF ∉ l /\ is_utf8 (l ++ [LF]) = true.
Record wf_reply (r : reply) : Prop := {
  continued_wf : Forall (fun l => whole l /\ is_continued (l ++ [LF]) = true) (continued r);
  final_wf : whole (final r) /\ is_continued (final r ++ [LF]) = false;
}.
Definition render (r : reply) : bytes :=
  flat_map (fun l => l ++ [LF]) (continued r) ++ final r ++ [LF].
Definition accepts (r : reply) : bool := is_positive (final r ++ [LF]).
Definition refusal (r : reply) : AntieError :=
  ConfigError ($"SMTP error: " ++ trim (final r ++ [LF])).

(** What the client sends for a message: one entry per reply it waits for, with
    the writes before it. *)
Definition commands (c : SmtpCarrier) (to raw : bytes) : list (list bytes) :=
  [[$"EHLO " ++ server c ++ crlf]] ++
  (if has_creds c then
   [[$"AUTH LOGIN" ++ crlf]; [b64_encode (unwrap_or [] (username c)) ++ crlf];
    [b64_encode (unwrap_or [] (password c)) ++ crlf]]
   else []) ++
  [[$"MAIL FROM:<" ++ from_address c ++ $">" ++ crlf]; [$"RCPT TO:<" ++ to ++ $">" ++ crlf];
   [$"DATA" ++ crlf]; [raw; crlf ++ $"." ++ crlf]].
(** The conversation a server following its replies has with the client. *)
Fixpoint converse (cmds : list (list bytes)) (rs : list reply) (sent : list bytes)
  : result AntieError unit * list bytes :=
  match cmds, rs with
  | ws :: cmds', r :: rs' =>
    if accepts r then converse cmds' rs' (sent ++ ws) else (Err (refusal r), sent ++ ws)
  | _, _ => (Ok tt, sent ++ [$"QUIT" ++ crlf])
  end.
Definition outcome (greeting : reply) (cmds : list (list bytes)) (rs : list reply) :=
  if accepts greeting then converse cmds rs [] else (Err (refusal greeting), []).

Section with_cut.
(** How the replies are cut into segments. *)
Context (cut : bytes -> list bytes) (cut_ok : forall b, concat (cut b) = b).
Definition answer (r : reply) : list bytes * ending := (cut (render r), Waiting).
Definition exchange_answers (ws : list bytes) (r : reply) : list (list bytes * ending) :=
  repeat ([], Waiting) (length ws - 1) ++ [answer r].
Definition server_script (greeting : reply) (cmds : list (list bytes)) (rs : list reply)
  : list (list bytes * ending) :=
  answer greeting :: concat (zip_with exchange_answers cmds rs) ++ [([], Waiting)].

Definition at_rest (w : net script) (a : list (list bytes * ending)) (lg : list bytes) : Prop :=
  concat (inbound w) = [] /\ peer w = {| answers := a; log := lg |}.
Definition verdict (r : reply) : result AntieError bytes := if accepts r then Ok [] else Err (refusal r).

Lemma reply_loop_ok conts fin buf fuel (w : net script) :
  Forall (fun l => whole l /\ is_continued (l ++ [LF]) = true) conts ->
  whole fin -> is_continued (fin ++ [LF]) = false ->
  buf ++ concat (inbound w) = flat_map (fun l => l ++ [LF]) conts ++ fin ++ [LF] ->
  (length conts < fuel)%nat ->
  exists segs, concat segs = [] /\
  reply_loop buf fuel w =
  (if is_positive (fin ++ [LF]) then Ok (Some []) else Err (ConfigError ($"SMTP error: " ++ trim (fin ++ [LF]))),
   with_inbound segs w).
Proof.
  intros Hc. revert buf fuel w. induction Hc as [|l conts [[Nl Ul] Cl] Hc IH]; intros buf fuel w [Nf Uf] Cf E Hf.
  - destruct fuel as [|fuel]; [lia|]. cbn [reply_loop].
    destruct (read_line_ok $"SMTP" buf w fin [] E Nf Uf) as (over & segs & R & Er).
    apply app_eq_nil in Er as [-> Er]. exists segs. split; [done|].
    unfold mbind, M_bind. rewrite R, Cf. by destruct (is_positive _).
  - destruct fuel as [|fuel]; [simpl in Hf; lia|]. cbn [reply_loop flat_map] in *.
    rewrite <- !app_assoc in E. cbn [app] in E.
    destruct (read_line_ok $"SMTP" buf w l _ E Nl Ul) as (over & segs & R & Er).
    destruct (IH over fuel (with_inbound segs w)) as (segs' & Hs & Hl); [done|done|done|simpl in Hf; lia|].
    exists segs'. split; [done|]. unfold mbind, M_bind. rewrite R, Cl. exact Hl.
Qed.
Lemma lines_length ls : (length ls <= length (flat_map (fun l : bytes => l ++ [LF]) ls))%nat.
Proof. induction ls; simpl; [lia|]. rewrite !length_app. simpl. lia. Qed.
Lemma read_reply_ok r (w : net script) :
  wf_reply r -> concat (inbound w) = render r ->
  exists segs, concat segs = [] /\ read_reply [] w = (verdict r, with_inbound segs w).
Proof.
  intros [Hc [Hf Cf]] E. unfold read_reply, run_loop, get. unfold mbind at 1, M_bind at 1.
  destruct (reply_loop_ok (continued r) (final r) [] (S (length (@nil byte) + pending w)) w Hc Hf Cf E)
    as (segs & Hs & Hl).
  { unfold pending. rewrite E. unfold render. rewrite !length_app.
    pose proof (lines_length (continued r)). simpl. lia. }
  exists segs. split; [done|]. unfold mbind, M_bind. rewrite Hl. unfold verdict, accepts, refusal.
  by destruct (is_positive _).
Qed.
Lemma send_cmd_ok b (w : net script) a rest lg :
  at_rest w (a :: rest) lg ->
  exists w', send_cmd b w = (Ok tt, w') /\ concat (inbound w') = concat a.1 /\
  peer w' = {| answers := rest; log := lg ++ [b] |}.
Proof.
  intros [Hi Hp]. unfold send_cmd, write_all. rewrite Hp. destruct a as [segs e]. simpl.
  eexists. split; [done|]. simpl. by rewrite concat_app, Hi, concat_receive.
Qed.
Lemma exchange_ok b r (w : net script) rest lg :
  wf_reply r -> at_rest w (answer r :: rest) lg ->
  exists w', exchange b [] w = (verdict r, w') /\ at_rest w' rest (lg ++ [b]).
Proof.
  intros Hr Hw. destruct (send_cmd_ok b w _ _ _ Hw) as (w1 & E1 & Hi & Hp).
  destruct (read_reply_ok r w1 Hr) as (segs & Hs & E2); [by rewrite Hi; simpl|].
  exists (with_inbound segs w1). split; [|done].
  unfold exchange, mbind, M_bind. by rewrite E1, E2.
Qed.
Lemma quiet_ok b (w : net script) rest lg :
  at_rest w (([], Waiting) :: rest) lg ->
  exists w', send_cmd b w = (Ok tt, w') /\ at_rest w' rest (lg ++ [b]).
Proof. intros Hw. destruct (send_cmd_ok b w _ _ _ Hw) as (w1 & E1 & Hi & Hp). by exists w1. Qed.

Definition agrees (run : result AntieError unit * net script)
  (o : result AntieError unit * list bytes) : Prop := (run.1, log (peer run.2)) = o.
Lemma connect_fresh a r :
  connect (fresh (a :: r)) = (Ok (E := AntieError) tt, Net {| answers := r; log := [] |} (receive a.1) a.2 0).
Proof. by destruct a. Qed.
Lemma agrees_intro run o : agrees run o -> let '(r, w') := run in (r, log (peer w')) = o.
Proof. by destruct run. Qed.
Lemma exchange_then b r (w : net script) rest lg cmds rs (k : bytes -> M (net script) AntieError unit) :
  wf_reply r -> at_rest w (answer r :: rest) lg ->
  (forall w', at_rest w' rest (lg ++ [b]) -> agrees (k [] w') (converse cmds rs (lg ++ [b]))) ->
  agrees ((exchange b [] ≫= k) w) (converse ([b] :: cmds) (r :: rs) lg).
Proof.
  intros Hr Hw Hk. destruct (exchange_ok b r w rest lg Hr Hw) as (w' & E & Hw').
  unfold mbind, M_bind. rewrite E. unfold verdict. cbn [converse].
  destruct (accepts r); [by apply Hk|]. unfold agrees. cbn [fst snd].
  destruct Hw' as [_ ->]. done.
Qed.
Lemma bind_assoc {A B C : Type} (m : M (net script) AntieError A) (f : A -> M (net script) AntieError B)
  (g : B -> M (net script) AntieError C) w :
  ((m ≫= f) ≫= g) w = (m ≫= (fun a => f a ≫= g)) w.
Proof. unfold mbind, M_bind. by destruct (m w) as [[a|e] w']. Qed.
Lemma bind_ret {A B : Type} (a : A) (k : A -> M (net script) AntieError B) w :
  (mret a ≫= k) w = k a w.
Proof. done. Qed.
(** The message itself: its last reply decides, then QUIT. *)
Lemma data_then raw r (w : net script) lg :
  wf_reply r -> at_rest w (exchange_answers [raw; crlf ++ $"." ++ crlf] r ++ [([], Waiting)]) lg ->
  agrees ((send_cmd raw ≫= fun _ => exchange (crlf ++ $"." ++ crlf) [] ≫= fun _ =>
           send_cmd ($"QUIT" ++ crlf)) w)
  (converse [[raw; crlf ++ $"." ++ crlf]] [r] lg).
Proof.
  intros Hr Hw. destruct (quiet_ok raw w _ _ Hw) as (w1 & E1 & H1).
  destruct (exchange_ok (crlf ++ $"." ++ crlf) r w1 _ _ Hr H1) as (w2 & E2 & H2).
  unfold mbind, M_bind. rewrite E1, E2. unfold verdict. cbn [converse].
  destruct (accepts r).
  - destruct (quiet_ok ($"QUIT" ++ crlf) w2 _ _ H2) as (w3 & E3 & [_ H3]).
    unfold agrees. rewrite E3. cbn [fst snd]. rewrite H3. cbn [log]. by rewrite <- !app_assoc.
  - unfold agrees. destruct H2 as [_ H2]. cbn [fst snd]. rewrite H2. cbn [log].
    by rewrite <- app_assoc.
Qed.
End with_cut.

(** C29: the SMTP client's conversation.  Credentials never leave without TLS:
    the send fails before connecting.  Otherwise, against a server whose replies
    may have several lines and arrive in any segments, the client writes exactly
    the commands of the message, each only after the previous one was accepted,
    stops at the first refusal with that reply as the error, and succeeds only
    when every reply, that to the message included, was positive. *)
Theorem smtp_send_conversation c to raw greeting rs cut w :
  (forall b, concat (cut b) = b) -> Forall wf_reply (greeting :: rs) ->
  length rs = length (commands c to raw) ->
  if has_creds c && negb (use_tls c)
  then (send b64_encode c to raw w).2 = w /\ is_ok (send b64_encode c to raw w).1 = false
  else
    let '(r, w') := send b64_encode c to raw
                      (fresh (server_script cut greeting (commands c to raw) rs)) in
    (r, log (peer w')) = outcome greeting (commands c to raw) rs.
Proof.
  intros Hcut Hwf Hlen. unfold send. destruct (has_creds c && negb (use_tls c)); [done|].
  apply agrees_intro.
  unfold outcome. inversion_clear Hwf as [|? ? Hg Hrs].
  unfold mbind at 1, M_bind at 1, server_script. rewrite connect_fresh. cbn [answer fst snd].
  set (w1 := Net _ (receive (cut (render greeting))) _ _). unfold mbind at 1, M_bind at 1.
  destruct (read_reply_ok greeting w1 Hg) as (segs & Hs & ->).
  { unfold w1. cbn. by rewrite concat_receive. }
  unfold verdict. destruct (accepts greeting); [|done].
  assert (at_rest (with_inbound segs w1)
    (concat (zip_with (exchange_answers cut) (commands c to raw) rs) ++ [([], Waiting)]) []) as Hw by done.
  clearbody w1. unfold commands in *. unfold auth_login.
  destruct (has_creds c); cbn [app length] in *;
    repeat (destruct rs as [|? rs]; try discriminate); 
    repeat match goal with H : Forall _ (_ :: _) |- _ => apply Forall_cons_1 in H as [? ?] end;
    cbn [zip_with concat] in Hw; rewrite <- !app_assoc in Hw.
  - do 7 (eapply (exchange_then cut Hcut); [eassumption|exact Hw|]; clear Hw; intros ? Hw;
              rewrite ?bind_assoc).
    by apply (data_then cut Hcut).
  - eapply (exchange_then cut Hcut); [eassumption|exact Hw|]; clear Hw; intros ? Hw.
    rewrite bind_ret.
    do 3 (eapply (exchange_then cut Hcut); [eassumption|exact Hw|]; clear Hw; intros ? Hw).
    by apply (data_then cut Hcut).
Qed.
End smtp.

Definition ex_relay : SmtpCarrier := {|
  server := $"mail.example.org"; port := 465; username := None; password := None;
  use_tls := false; from_address := $"alpha@axiom" |}.
Definition ok_reply : reply := {| continued := []; final := $"250 OK" ++ [CR] |}.
Definition ehlo_reply : reply :=
  {| continued := [$"250-mock hi" ++ [CR]; $"250-SIZE 52428800" ++ [CR]]; final := $"250 OK" ++ [CR] |}.
Definition no_such_user : reply := {| continued := []; final := $"550 no such user" ++ [CR] |}.
Lemma ex_whole l : bool_decide (LF ∉ l) && is_utf8 (l ++ [LF]) = true -> whole l.
Proof. intros [H%bool_decide_eq_true U]%andb_true_iff. done. Qed.
Lemma ex_wf : wf_reply ok_reply /\ wf_reply ehlo_reply /\ wf_reply no_such_user.
Proof.
  repeat split; simpl; repeat constructor; try (apply bool_decide_unpack; vm_compute; exact I);
    try (vm_compute; reflexivity); by apply (bool_decide_unpack _).
Qed.
Lemma smtp_send_conversation_witness :
  let rs := [ehlo_reply; ok_reply; no_such_user; ok_reply; ok_reply] in
  let '(r, w') := send (EC := ex_errors) (fun b => b) ex_relay $"bob@nowhere" $"hi"
    (fresh (server_script (fun b => [take 5 b; drop 5 b]) ok_reply
      (commands (fun b => b) ex_relay $"bob@nowhere" $"hi") rs)) in
  (r, log (peer w')) =
    (Err (ConfigError (EC := ex_errors) $"SMTP error: 550 no such user"),
     [$"EHLO mail.example.org" ++ crlf; $"MAIL FROM:<alpha@axiom>" ++ crlf; $"RCPT TO:<bob@nowhere>" ++ crlf]).
Proof.
  intros rs.
  refine (smtp_send_conversation (EC := ex_errors) (fun b => b) ex_relay $"bob@nowhere" $"hi" ok_reply rs
    (fun b => [take 5 b; drop 5 b]) (fresh []) _ _ _).
  - intros b. cbn [concat]. rewrite app_nil_r. apply take_drop.
  - destruct ex_wf as (H1 & H2 & H3). repeat (constructor; [assumption|]). constructor.
  - reflexivity.
Defined.
End SmtpProofs.
