(* ===== verification/Pop3Theorems.v ===== *)
(** * POP3 against a mailbox

    The server is RFC 1939's: USER, PASS, STAT, RETR, DELE and QUIT over a list
    of messages, numbered from 1 in each session; what DELE marked is removed by
    QUIT.  [seg] is how a reply arrives: the status line, then the rest. *)
From S2P Require Import Prelude Utf8 Fs Errors Config Sinks Carriers CarrierTheorems.
Import Errors Io Streams Spin Pop3.

Module Server.

Definition stuff (line : bytes) : bytes := if starts_with $"." line then $"." ++ line else line.
Definition body_of (message : bytes) : bytes :=
  flat_map stuff (split_inclusive LF message) ++ $"." ++ crlf.

Record mailbox : Type := { box : list bytes; marked : gset nat }.
Fixpoint commit_from (k : nat) (m : gset nat) (b : list bytes) : list bytes :=
  match b with
  | [] => []
  | x :: b' => if decide (k ∈ m) then commit_from (S k) m b' else x :: commit_from (S k) m b'
  end.
Definition commit (m : gset nat) (b : list bytes) : list bytes := commit_from 0 m b.

(** The message number of a command, as an index. *)
Definition number (verb cmd : bytes) : option nat :=
  match strip_prefix verb cmd with
  | Some r =>
      match strip_suffix crlf r with
      | Some d => match parse_uint U64_MAX d with
                  | Some z => if 1 <=? z then Some (Z.to_nat (z - 1)) else None
                  | None => None
                  end
      | None => None
      end
  | None => None
  end.
Definition held (s : mailbox) (i : nat) : option bytes :=
  if decide (i ∈ marked s) then None else box s !! i.
Definition OK_LINE : bytes := $"+OK" ++ crlf.
Definition NO_SUCH : bytes := $"-ERR no such message" ++ crlf.
Definition stat_line (s : mailbox) : bytes :=
  $"+OK " ++ show_N (N.of_nat (length (box s))) ++ $" "
  ++ show_N (N.of_nat (length (concat (box s)))) ++ crlf.

Section server.
Context (seg : bytes -> bytes -> list bytes).
Definition on_command (s : mailbox) (cmd : bytes) : mailbox * (list bytes * ending) :=
  if starts_with $"USER " cmd || starts_with $"PASS " cmd then (s, (seg OK_LINE [], Waiting))
  else if decide (cmd = $"STAT" ++ crlf) then (s, (seg (stat_line s) [], Waiting))
  else if decide (cmd = $"QUIT" ++ crlf) then
    ({| box := commit (marked s) (box s); marked := ∅ |}, (seg OK_LINE [], Closed))
  else match number $"RETR " cmd, number $"DELE " cmd with
       | Some i, _ =>
           match held s i with
           | Some m => (s, (seg OK_LINE (body_of m), Waiting))
           | None => (s, (seg NO_SUCH [], Waiting))
           end
       | None, Some i =>
           match held s i with
           | Some _ => ({| box := box s; marked := {[i]} ∪ marked s |}, (seg OK_LINE [], Waiting))
           | None => (s, (seg NO_SUCH [], Waiting))
           end
       | None, None => (s, (seg ($"-ERR unknown" ++ crlf) [], Waiting))
       end.
Definition rfc1939 : Peer mailbox := {|
  on_connect := fun s => Ok ({| box := box s; marked := ∅ |}, (seg OK_LINE [], Waiting));
  on_write := fun s b => Ok (on_command s b) |}.
End server.
Definition closed_with (b : list bytes) : net mailbox := Net {| box := b; marked := ∅ |} [] Waiting 0.
(** The status line in its own segment, the body cut in any way. *)
Definition status_first (seg : bytes -> bytes -> list bytes) : Prop :=
  forall st rest, exists pre, seg st rest = st :: pre /\ concat pre = rest.
End Server.
Import Server.

Module Sessions.
Definition status (st : bytes) : Prop := exists l, st = l ++ [LF] /\ LF ∉ l /\ is_utf8 st = true.
Lemma status_text s : is_ascii s = true -> LF ∉ s -> status (s ++ crlf).
Proof.
  intros A N. exists (s ++ [CR]). split; [by rewrite <- app_assoc|]. split; [set_solver|].
  apply is_ascii_utf8. by rewrite is_ascii_app, A.
Qed.
Lemma status_ok : status OK_LINE.
Proof. apply (status_text $"+OK"); [done|set_solver]. Qed.
Lemma status_no_such : status NO_SUCH.
Proof. apply (status_text $"-ERR no such message"); [done|set_solver]. Qed.
Lemma status_stat s : status (stat_line s).
Proof.
  unfold stat_line. rewrite !app_assoc. apply status_text.
  - by rewrite !is_ascii_app, !is_ascii_show.
  - rewrite !not_elem_of_app. repeat split; try (apply show_N_no; done); set_solver.
Qed.
Lemma stat_count_line s :
  Z.of_nat (length (box s)) <= U64_MAX -> stat_count (stat_line s) = Z.of_nat (length (box s)).
Proof.
  intros Hl. unfold stat_count, stat_line. set (d := show_N (N.of_nat (length (box s)))).
  set (r := show_N _ ++ crlf). unfold split_whitespace.
  change ($"+OK " ++ d ++ $" " ++ r) with ($"+OK" ++ " "%char :: d ++ " "%char :: r).
  rewrite split_ws_word by (done || (simpl; rewrite ?length_app; lia)).
  rewrite split_ws_word; [|apply show_N_printable|rewrite !length_app; simpl; rewrite length_app; simpl; lia].
  destruct (show_N_nonempty (N.of_nat (length (box s)))) as (x & ds & E & _).
  cbn [rev app decide]. rewrite decide_False by done. rewrite decide_False; [|unfold d; by rewrite E].
  cbn [app lookup list_lookup]. simpl lookup.
  assert (d = show_Z (Z.of_nat (length (box s)))) as ->
    by (rewrite show_Z_N by lia; unfold d; f_equal; lia).
  by rewrite parse_uint_show by lia.
Qed.

Lemma number_show verb i :
  1 <= i <= U64_MAX -> number verb ((verb ++ show_Z i) ++ crlf) = Some (Z.to_nat (i - 1)).
Proof.
  intros Hi. unfold number. rewrite <- app_assoc, strip_prefix_app.
  rewrite (proj2 (strip_suffix_Some crlf _ (show_Z i))) by done.
  rewrite parse_uint_show by lia. by destruct (Z.leb_spec 1 i); [|lia].
Qed.
Lemma receive_empty pre : concat pre = [] -> receive pre = [].
Proof.
  induction pre as [|s pre IH]; [done|]. cbn [concat]. intros [-> H]%app_eq_nil. by rewrite <- IH.
Qed.

Section sessions.
Context `{EC : ErrorsCrate} (seg : bytes -> bytes -> list bytes).
(** A reply of one line arrives as that line. *)
Context (Hplain : forall st, exists pre, seg st [] = st :: pre /\ concat pre = []).
#[local] Hint Extern 0 (Peer mailbox) => exact (rfc1939 seg) : typeclass_instances.
Implicit Types w : net mailbox.

(** A session with nothing unread. *)
Definition quiet w : Prop := inbound w = [] /\ stream_end w = Waiting.
(** One status line leaves what follows it on the wire. *)
Lemma fresh_line_ok w st l pre :
  inbound w = receive (st :: pre) -> st = l ++ [LF] -> LF ∉ l -> is_utf8 st = true ->
  fresh_line w = (Ok st, with_inbound (receive pre) w).
Proof.
  intros Hi -> N U. unfold fresh_line, mbind, M_bind.
  rewrite (read_line_alone $"POP3" w (chop (l ++ [LF])) (receive pre) l); try done.
  - apply chop_nonempty.
  - by apply concat_chop_fuel.
Qed.

Lemma command_ok w cmd s' st rest e :
  quiet w -> on_command seg (peer w) (cmd ++ crlf) = (s', (seg st rest, e)) -> status st ->
  (exists pre, seg st rest = st :: pre /\ concat pre = rest) ->
  exists pre, concat pre = rest /\
    command cmd w =
    ((if starts_with $"-ERR" st then Err (ConfigError ($"POP3: " ++ trim st)) else Ok st),
     Net s' (receive pre) e (eof_mid_response w)).
Proof.
  intros [Hi He] Hc (l & -> & N & U) (pre & Es & Er).
  exists pre. split; [done|]. unfold command. unfold mbind at 1, M_bind at 1. unfold write_all at 1.
  cbn [on_write rfc1939]. rewrite Hc, Es, Hi. cbn [app].
  unfold mbind, M_bind. erewrite fresh_line_ok by done. by destruct (starts_with _ _).
Qed.

(** A command answered by one positive line. *)
Lemma command_plain w cmd s' st :
  quiet w -> on_command seg (peer w) (cmd ++ crlf) = (s', (seg st [], Waiting)) -> status st ->
  exists w', command cmd w =
    ((if starts_with $"-ERR" st then Err (ConfigError ($"POP3: " ++ trim st)) else Ok st), w') /\
    quiet w' /\ peer w' = s'.
Proof.
  intros Hq Hc Hs. destruct (command_ok w cmd s' st [] Waiting Hq Hc Hs (Hplain st)) as (pre & Hp & E).
  eexists. split; [exact E|]. by rewrite receive_empty by done.
Qed.
Lemma login_ok c w :
  exists w', login c w = (Ok tt, w') /\ quiet w' /\ peer w' = {| box := box (peer w); marked := ∅ |}.
Proof.
  unfold login. unfold mbind at 1, M_bind at 1. unfold connect. cbn [on_connect rfc1939].
  destruct (Hplain OK_LINE) as (pre & -> & Hp).
  destruct status_ok as (l & El & Nl & Ul).
  unfold mbind at 1, M_bind at 1. erewrite fresh_line_ok; [|done|exact El|done|done].
  rewrite (receive_empty pre) by done. set (w1 := with_inbound _ _).
  destruct (command_plain w1 ($"USER " ++ username c) (peer w1) OK_LINE) as (w2 & E2 & Q2 & P2);
    [done|done|apply status_ok|].
  unfold mbind at 1, M_bind at 1. rewrite E2. change (starts_with $"-ERR" OK_LINE) with false. cbv iota beta.
  destruct (command_plain w2 ($"PASS " ++ password c) (peer w2) OK_LINE) as (w3 & E3 & Q3 & P3);
    [done|done|apply status_ok|].
  unfold mbind at 1, M_bind at 1. rewrite E3. change (starts_with $"-ERR" OK_LINE) with false. cbv iota beta.
  exists w3. split; [done|]. split; [done|]. by rewrite P3, P2.
Qed.

Lemma on_retr s i :
  1 <= i <= U64_MAX ->
  on_command seg s (($"RETR " ++ show_Z i) ++ crlf) =
  (s, ((match held s (Z.to_nat (i - 1)) with Some m => seg OK_LINE (body_of m) | None => seg NO_SUCH [] end),
       Waiting)).
Proof.
  intros Hi. unfold on_command. rewrite number_show by done. cbn [app starts_with strip_prefix decide].
  rewrite !decide_False by done. by destruct (held s _).
Qed.
Lemma on_dele s i :
  1 <= i <= U64_MAX ->
  on_command seg s (($"DELE " ++ show_Z i) ++ crlf) =
  match held s (Z.to_nat (i - 1)) with
  | Some _ => ({| box := box s; marked := {[Z.to_nat (i - 1)]} ∪ marked s |}, (seg OK_LINE [], Waiting))
  | None => (s, (seg NO_SUCH [], Waiting))
  end.
Proof.
  intros Hi. unfold on_command. rewrite (number_show $"DELE ") by done.
  assert (number $"RETR " (($"DELE " ++ show_Z i) ++ crlf) = None) as -> by done.
  cbn [app starts_with strip_prefix decide]. by rewrite !decide_False by done.
Qed.

(** Messages the protocol carries: whole lines, none of which - stuffed - reads
    as the terminator to a client that trims it. *)
Definition wf_line (l : bytes) : Prop := status (stuff l) /\ trim (stuff l) <> $".".
Definition wf_message (m : bytes) : Prop := Forall wf_line (split_inclusive LF m).

Lemma unstuff_stuff l : unstuff (stuff l) = l.
Proof.
  unfold unstuff, stuff. destruct (starts_with $"." l) eqn:E.
  - apply starts_with_spec in E as [r ->].
    change ($"." ++ $"." ++ r) with ($".." ++ r). by rewrite starts_with_app.
  - destruct (starts_with $".." l) eqn:E2; [|done].
    apply starts_with_spec in E2 as [r ->]. change ($".." ++ r) with ($"." ++ $"." ++ r) in E.
    by rewrite starts_with_app in E.
Qed.
Lemma suffix_nonempty (a b : list bytes) : a `suffix_of` b -> Forall (fun p => p <> []) b -> Forall (fun p => p <> []) a.
Proof. intros [k ->]. by intros [_ ?]%Forall_app. Qed.
Lemma all_read (segs : list bytes) : Forall (fun p => p <> []) segs -> concat segs = [] -> segs = [].
Proof. intros H. destruct H as [|p segs Hp]; [done|]. simpl. by intros [-> _]%app_eq_nil. Qed.

Lemma multiline_loop_ok what ls : forall buf data fuel w,
  Forall wf_line ls -> Forall (fun p => p <> []) (inbound w) ->
  buf ++ concat (inbound w) = flat_map stuff ls ++ $"." ++ crlf -> (length ls < fuel)%nat ->
  multiline_loop what buf data fuel w = (Ok (Some (data ++ concat ls)), with_inbound [] w).
Proof.
  induction ls as [|l ls IH]; intros buf data fuel w Hl Hi E Hf; (destruct fuel as [|fuel]; [simpl in Hf; lia|]);
    cbn [multiline_loop].
  - change (flat_map stuff [] ++ $"." ++ crlf) with (($"." ++ [CR]) ++ LF :: []) in E.
    destruct (read_line_suffix what buf w ($"." ++ [CR]) [] E ltac:(by apply (bool_decide_unpack _)) eq_refl)
      as (over & segs & R & Er & Hs).
    unfold mbind, M_bind. rewrite R. change (trim (($"." ++ [CR]) ++ [LF])) with $".".
    rewrite decide_True by done. apply app_eq_nil in Er as [_ Er].
    rewrite (all_read segs (suffix_nonempty _ _ Hs Hi) Er). by rewrite app_nil_r.
  - apply Forall_cons_1 in Hl as [[(b & Eb & Nb & Ub) Ht] Hls]. cbn [flat_map] in E.
    rewrite <- app_assoc, Eb, <- app_assoc in E. cbn [app] in E. rewrite Eb in Ub.
    destruct (read_line_suffix what buf w b _ E Nb Ub) as (over & segs & R & Er & Hs).
    unfold mbind, M_bind. rewrite R, <- Eb, decide_False by done. rewrite unstuff_stuff.
    rewrite IH; [by rewrite <- app_assoc|done|exact (suffix_nonempty _ _ Hs Hi)|done|simpl in Hf; lia].
Qed.
Lemma stuffed_length ls : Forall (fun l => l <> []) ls -> (length ls <= length (flat_map stuff ls))%nat.
Proof.
  induction 1 as [|l ls Hl _ IH]; [done|]. cbn [flat_map length]. rewrite length_app.
  assert (1 <= length (stuff l))%nat; [|lia]. unfold stuff. destruct l; [done|]. case_match; simpl; lia.
Qed.
Lemma read_multiline_ok which w m :
  wf_message m -> Forall (fun p => p <> []) (inbound w) -> concat (inbound w) = body_of m ->
  read_multiline which w = (Ok m, with_inbound [] w).
Proof.
  intros Hm Hi E. unfold read_multiline, run_loop, get. unfold mbind at 1, M_bind at 1.
  unfold mbind, M_bind. rewrite (multiline_loop_ok _ (split_inclusive LF m)).
  - by rewrite concat_split_inclusive.
  - exact Hm.
  - exact Hi.
  - exact E.
  - unfold pending. rewrite E. unfold body_of. rewrite !length_app.
    pose proof (stuffed_length (split_inclusive LF m)) as L. simpl.
    assert (Forall (fun l => l <> []) (split_inclusive LF m)); [|lia].
    apply Forall_forall. intros l. apply split_inclusive_nonempty.
Qed.

Definition message (c : Pop3Carrier) (i : Z) (m : bytes) : IncomingMessage :=
  {| id := show_Z i; raw := m; source := source_of c (show_Z i) |}.
(** The messages of a box, numbered from [i]. *)
Fixpoint numbered (c : Pop3Carrier) (i : Z) (b : list bytes) : list IncomingMessage :=
  match b with
  | [] => []
  | m :: b' => message c i m :: numbered c (i + 1) b'
  end.
Lemma retr_from_ok c todo : status_first seg -> forall done w acc,
  Forall wf_message todo -> quiet w -> peer w = {| box := done ++ todo; marked := ∅ |} ->
  Z.of_nat (length (done ++ todo)) <= U64_MAX ->
  exists w', retr_from c (Z.of_nat (length done) + 1) (length todo) acc w =
    (Ok (acc ++ numbered c (Z.of_nat (length done) + 1) todo), w') /\ quiet w' /\ peer w' = peer w.
Proof.
  intros Hseg. induction todo as [|m todo IH]; intros dn w acc Hm Hq Hp Hlen; cbn [length retr_from numbered].
  - exists w. by rewrite app_nil_r.
  - apply Forall_cons_1 in Hm as [Hm1 Hm2]. rewrite length_app in Hlen. cbn [length] in Hlen.
    set (i := Z.of_nat (length dn) + 1) in *.
    assert (held (peer w) (Z.to_nat (i - 1)) = Some m) as Hh.
    { unfold held. rewrite Hp. cbn [box marked]. rewrite decide_False by set_solver.
      replace (Z.to_nat (i - 1)) with (length dn) by lia. by rewrite list_lookup_middle. }
    pose proof (on_retr (peer w) i ltac:(lia)) as Ho. rewrite Hh in Ho.
    destruct (command_ok w ($"RETR " ++ show_Z i) _ OK_LINE (body_of m) Waiting Hq Ho status_ok
      (Hseg _ _))
      as (pre & Hpre & Ec).
    unfold mbind at 1, M_bind at 1. rewrite Ec. change (starts_with $"-ERR" OK_LINE) with false.
    cbv iota beta. set (w1 := Net _ _ _ _). unfold mbind at 1, M_bind at 1.
    rewrite (read_multiline_ok _ w1 m Hm1); [|apply receive_nonempty|unfold w1; simpl; by rewrite concat_receive].
    destruct (IH (dn ++ [m]) (with_inbound [] w1) (acc ++ [message c i m])) as (w' & E & Q & P); try done.
    + unfold w1. simpl. by rewrite Hp, <- app_assoc.
    + rewrite !length_app. simpl. lia.
    + exists w'. rewrite length_app in E. cbn [length] in E.
      replace (Z.of_nat (length dn + 1) + 1) with (i + 1) in E by lia.
      rewrite <- app_assoc in E. cbn [app] in E. split; [exact E|]. split; [done|].
      rewrite P. reflexivity.
Qed.

Lemma commit_from_empty k b : commit_from k ∅ b = b.
Proof. revert k. induction b as [|x b IH]; intros k; simpl; [done|]. rewrite decide_False by set_solver. by rewrite IH. Qed.
Lemma commit_from_one b : forall i k, commit_from k {[(k + i)%nat]} b = delete i b.
Proof.
  assert (forall b k j, (j < k)%nat -> commit_from k {[j]} b = b) as Hlow.
  { clear b. induction b as [|x b IH]; intros k j Hj; simpl; [done|].
    rewrite decide_False by (rewrite elem_of_singleton; lia). rewrite IH; [done|lia]. }
  induction b as [|x b IH]; intros [|i] k; simpl; try done.
  - rewrite decide_True by (rewrite elem_of_singleton; lia). apply Hlow. lia.
  - rewrite decide_False by (rewrite elem_of_singleton; lia).
    f_equal. rewrite <- (IH i (S k)). do 2 f_equal. lia.
Qed.
Lemma quit_ok w s :
  quiet w -> peer w = s ->
  exists w', attempt (E := AntieError) (command $"QUIT") w = (Ok (E := AntieError) (Ok OK_LINE), w') /\
    box (peer w') = commit (marked s) (box s).
Proof.
  intros Hq <-. destruct (command_ok w $"QUIT" {| box := commit (marked (peer w)) (box (peer w)); marked := ∅ |}
  OK_LINE [] Closed Hq) as (pre & Hp & E).
  - unfold on_command. cbn [app starts_with strip_prefix decide]. by rewrite decide_False, decide_True by done.
  - apply status_ok.
  - apply Hplain.
  - eexists. unfold attempt. rewrite E. done.
Qed.

Lemma check_new_ok c w :
  status_first seg -> Forall wf_message (box (peer w)) -> Z.of_nat (length (box (peer w))) <= U64_MAX ->
  exists w', check_new c w = (Ok (numbered c 1 (box (peer w))), w') /\ box (peer w') = box (peer w).
Proof.
  intros Hseg Hm Hlen. unfold check_new. unfold mbind at 1, M_bind at 1.
  destruct (login_ok c w) as (w1 & -> & Q1 & P1).
  destruct (command_plain w1 $"STAT" (peer w1) (stat_line (peer w1)) Q1) as (w2 & E2 & Q2 & P2);
    [done|apply status_stat|].
  unfold mbind at 1, M_bind at 1. rewrite E2.
  change (starts_with $"-ERR" (stat_line (peer w1))) with false. cbv iota beta.
  rewrite stat_count_line, P1, Nat2Z.id by (rewrite P1; done). cbn [box].
  destruct (retr_from_ok c (box (peer w)) Hseg [] w2 [] Hm Q2) as (w3 & E3 & Q3 & P3); [by rewrite P2, P1|done|].
  change (Z.of_nat (length (@nil bytes)) + 1) with 1 in E3. unfold mbind at 1, M_bind at 1. rewrite E3.
  destruct (quit_ok w3 (peer w3) Q3 eq_refl) as (w4 & E4 & B4). unfold mbind, M_bind. rewrite E4.
  exists w4. split; [done|]. rewrite B4, P3, P2, P1. apply commit_from_empty.
Qed.
(** A RETR answered in one segment: the reader of its status line takes the
    message with it. *)
Lemma retr_merged c w m b :
  seg OK_LINE (body_of m) = [OK_LINE ++ body_of m] -> (length (OK_LINE ++ body_of m) <= BUF)%nat ->
  quiet w -> peer w = {| box := m :: b; marked := ∅ |} ->
  (retr_from c 1 (S (length b)) [] w).1 =
    Err (ConfigError $"POP3 RETR msg=1 read: no data for 60s").
Proof.
  intros Es Hlen [Hi He] Hp. cbn [retr_from].
  pose proof (on_retr (peer w) 1 ltac:(unfold U64_MAX; lia)) as Ho.
  unfold held in Ho. rewrite Hp in Ho. cbn [box marked] in Ho. rewrite decide_False in Ho by set_solver.
  change ((m :: b) !! Z.to_nat (1 - 1)) with (Some m) in Ho.
  cbv iota beta in Ho. rewrite Es in Ho.
  unfold mbind at 1, M_bind at 1. unfold command. unfold mbind at 1, M_bind at 1. unfold write_all at 1.
  cbn [on_write rfc1939]. rewrite Hp, Ho, Hi. cbn [receive flat_map app].
  rewrite chop_short by done. cbn [app].
  unfold fresh_line, mbind, M_bind. unfold read_line, get. unfold mbind, M_bind. cbn [inbound].
  change (OK_LINE ++ body_of m) with ($"+OK" ++ CR :: LF :: body_of m).
  cbn [take_line]. rewrite (proj2 (split_once_Some LF ([] ++ _) ($"+OK" ++ [CR]) (body_of m))); [done|].
  split; [done|by apply (bool_decide_unpack _)].
Qed.
Lemma mark_processed_ok c w i :
  1 <= i <= U64_MAX ->
  exists r w', mark_processed c (show_Z i) w = (r, w') /\
    box (peer w') = delete (Z.to_nat (i - 1)) (box (peer w)) /\
    is_ok r = bool_decide (Z.to_nat (i - 1) < length (box (peer w)))%nat.
Proof.
  intros Hi. unfold mark_processed. unfold mbind at 1, M_bind at 1.
  destruct (login_ok c w) as (w1 & -> & Q1 & P1).
  set (k := Z.to_nat (i - 1)). pose proof (on_dele (peer w1) i Hi) as Ho.
  unfold held in Ho. rewrite P1 in Ho. cbn [box marked] in Ho. rewrite decide_False in Ho by set_solver.
  fold k in Ho. destruct (box (peer w) !! k) as [m|] eqn:Em.
  - destruct (command_plain w1 ($"DELE " ++ show_Z i) _ OK_LINE Q1 ltac:(rewrite P1; exact Ho) status_ok)
      as (w2 & E2 & Q2 & P2).
    unfold mbind at 1, M_bind at 1. rewrite E2. change (starts_with $"-ERR" OK_LINE) with false. cbv iota beta.
    destruct (quit_ok w2 _ Q2 P2) as (w3 & E3 & B3). unfold mbind, M_bind. rewrite E3.
    eexists _, w3. split; [reflexivity|]. rewrite B3. cbn [box marked]. split.
    + unfold commit. rewrite union_empty_r_L. apply (commit_from_one _ k 0).
    + symmetry. apply bool_decide_eq_true, lookup_lt_is_Some. by exists m.
  - destruct (command_plain w1 ($"DELE " ++ show_Z i) _ NO_SUCH Q1 ltac:(rewrite P1; exact Ho) status_no_such)
      as (w2 & E2 & Q2 & P2).
    unfold mbind at 1, M_bind at 1. rewrite E2. change (starts_with $"-ERR" NO_SUCH) with true. cbv iota beta.
    eexists _, w2. split; [reflexivity|]. rewrite P2. cbn [box].
    apply lookup_ge_None_1 in Em. split; [by rewrite delete_take_drop, take_ge, drop_ge, app_nil_r by lia|].
    symmetry. apply bool_decide_eq_false. lia.
Qed.
End sessions.

(** A reply that arrives whole is lost.  When the server's answer to RETR -
    status line and message - reaches the client in one segment that fits the
    reader's buffer, the message is dropped with the reader of the status line:
    the drain fails with a time-out, whatever the mailbox holds, although the
    server answered correctly. *)
Theorem pop3_merged_reply_lost `{EC : ErrorsCrate} c w m b :
  let whole := fun st rest => [st ++ rest] in
  box (peer w) = m :: b -> Z.of_nat (length (m :: b)) <= U64_MAX ->
  (length (OK_LINE ++ body_of m) <= BUF)%nat ->
  (check_new (PP := rfc1939 whole) c w).1 =
    Err (ConfigError $"POP3 RETR msg=1 read: no data for 60s").
Proof.
  intros whole Hb Hlen Hfit.
  assert (forall st, exists pre, whole st [] = st :: pre /\ concat pre = []) as Hpl
    by (intros st; exists []; unfold whole; by rewrite app_nil_r).
  unfold check_new. unfold mbind at 1, M_bind at 1.
  destruct (login_ok whole Hpl c w) as (w1 & -> & Q1 & P1).
  destruct (command_plain whole Hpl w1 $"STAT" (peer w1) (stat_line (peer w1)) Q1) as (w2 & E2 & Q2 & P2);
    [done|apply status_stat|].
  unfold mbind at 1, M_bind at 1. rewrite E2.
  change (starts_with $"-ERR" (stat_line (peer w1))) with false. cbv iota beta.
  rewrite stat_count_line, P1, Hb, Nat2Z.id by (rewrite P1, Hb; done). cbn [box length].
  unfold mbind at 1, M_bind at 1.
  pose proof (retr_merged whole Hpl c w2 m b eq_refl Hfit Q2 ltac:(by rewrite P2, P1, Hb)) as E.
  destruct (retr_from c 1 (S (length b)) [] w2) as [[r|e] w3]; [discriminate|]. exact E.
Qed.

(** C27: a POP3 drain reads the mailbox exactly, from a server that sends each
    reply's status line in a segment of its own.  From such a server, however it
    cuts the bodies, one check returns every message, in order, byte for byte -
    dots un-stuffed - under its number, and leaves the mailbox as it was.  From one
    that sends the status line and what follows in one segment, as RFC 1939 lets
    it, the check of a mailbox whose first message fits the reader's buffer fails
    with a time-out, whatever the mailbox holds. *)
Theorem pop3_check_new_exact `{EC : ErrorsCrate} c w :
  Z.of_nat (length (box (peer w))) <= U64_MAX ->
  (forall seg, status_first seg -> Forall wf_message (box (peer w)) ->
     exists w', check_new (PP := rfc1939 seg) c w = (Ok (numbered c 1 (box (peer w))), w') /\
       box (peer w') = box (peer w)) /\
  (forall m b, box (peer w) = m :: b -> (length (OK_LINE ++ body_of m) <= BUF)%nat ->
     (check_new (PP := rfc1939 (fun st rest => [st ++ rest])) c w).1 =
       Err (ConfigError $"POP3 RETR msg=1 read: no data for 60s")).
Proof.
  intros Hl. split.
  - intros seg Hs Hm. exact (check_new_ok seg (fun st => Hs st []) c w Hs Hm Hl).
  - intros m b Hb Hfit. apply (pop3_merged_reply_lost c w m b Hb); [by rewrite <- Hb|done].
Qed.

Definition ex_account : Pop3Carrier := {|
  server := $"pop.example.org"; port := 995; username := $"alpha"; password := $"pw"; use_tls := true |}.
Definition ex_seg (st rest : bytes) : list bytes := [st; take 7 rest; drop 7 rest].
Lemma ex_seg_ok : status_first ex_seg.
Proof. intros st rest. eexists. split; [done|]. cbn [concat]. rewrite app_nil_r. apply take_drop. Qed.
Definition ex_mail : bytes := $"Subject: AXIOM/query/r1" ++ crlf ++ crlf ++ $".dot" ++ crlf ++ $"end" ++ crlf.
Lemma ex_mail_wf : wf_message ex_mail.
Proof.
  apply Forall_forall. intros l Hl.
  assert (l ∈ [$"Subject: AXIOM/query/r1" ++ crlf; crlf; $".dot" ++ crlf; $"end" ++ crlf]) as Hl' by exact Hl.
  clear Hl. repeat (apply elem_of_cons in Hl' as [-> |Hl']); try (by apply not_elem_of_nil in Hl').
  1: split; [exists ($"Subject: AXIOM/query/r1" ++ [CR])|].
  3: split; [exists [CR]|]. 5: split; [exists ($"..dot" ++ [CR])|]. 7: split; [exists ($"end" ++ [CR])|].
  all: try (repeat split; try (apply (bool_decide_unpack _); vm_compute; exact I); by vm_compute).
  all: vm_compute; discriminate.
Qed.
Lemma pop3_check_new_exact_witness :
  (exists w', check_new (EC := ex_errors) (PP := rfc1939 ex_seg) ex_account (closed_with [ex_mail; ex_mail])
    = (Ok [message ex_account 1 ex_mail; message ex_account 2 ex_mail], w')) /\
  (check_new (EC := ex_errors) (PP := rfc1939 (fun st rest => [st ++ rest])) ex_account (closed_with [ex_mail; ex_mail])).1 =
    Err (ConfigError (EC := ex_errors) $"POP3 RETR msg=1 read: no data for 60s").
Proof.
  destruct (pop3_check_new_exact (EC := ex_errors) ex_account (closed_with [ex_mail; ex_mail])) as [H1 H2];
    [vm_compute; discriminate|]. split.
  - destruct (H1 ex_seg ex_seg_ok) as (w' & E & _); [|by exists w'].
    exact (Forall_cons_2 _ _ _ ex_mail_wf (Forall_cons_2 _ _ _ ex_mail_wf (Forall_nil_2 _))).
  - apply (H2 ex_mail [ex_mail]); [reflexivity|]. apply Nat.leb_le. vm_compute. reflexivity.
Defined.
End Sessions.
