(* ===== verification/Pull.v ===== *)
(** * The inbound funnel: pull carriers into the maildir, [gateway.rs]

    A pull carrier (POP3, IMAP) is a [MailCarrier] over its own far side; the
    loop writes each message it fetched into the maildir inbox and then asks
    the server to delete it.  [env] gives, per message, the clocks and the name
    stamp read while handling it. *)
From S2P Require Import Prelude Utf8 Fs Errors Config Sinks Carriers Stats.
Import Errors.

Module Pull.

(** ** Anti-spam: the entropy of the body *)
Definition body_of (raw_email : bytes) : bytes :=
  match find_sub (crlf ++ crlf) raw_email with
  | Some i => drop (i + 4) raw_email
  | None => match find_sub [LF; LF] raw_email with
            | Some i => drop (i + 2) raw_email
            | None => raw_email
            end
  end.
(** How often each byte occurs ([u32] counters). *)
Definition histogram (body : bytes) : list Z :=
  map (fun n => wrap 32 (Z.of_nat (length (List.filter (fun b => (code b =? N.of_nat n)%N) body))))
    (seq 0 256).
Section entropy.
(** [f32]: its comparison, the constant 8.0 and the sum
    [- p * log2 p] over a histogram. *)
Context {F32 : Type} (f32_ltb : F32 -> F32 -> bool) (f32_eight : F32) (shannon : list Z -> F32).
Definition body_entropy_bits (raw_email : bytes) : F32 :=
  let body := body_of raw_email in
  if (length body <? 64)%nat then f32_eight else shannon (histogram body).
(** The message is dropped as spam. *)
Definition is_spam (threshold : option F32) (raw_email : bytes) : bool :=
  match threshold with
  | Some thr => f32_ltb (body_entropy_bits raw_email) thr
  | None => false
  end.
End entropy.

(** ** Backoff; a [Duration] is a number of nanoseconds *)
Definition MILLIS : Z := 1000000.
Definition CARRIER_BACKOFF_MAX : Z := 30 * 60 * 1000 * MILLIS.
Definition BEAT_SLICE : Z := 60 * 1000 * MILLIS.
Definition DURATION_MAX : Z := U64_MAX * 1000000000 + 999999999.
Definition checked_mul (d n : Z) : option Z := if d * n <=? DURATION_MAX then Some (d * n) else None.
Definition carrier_backoff (base failures : Z) : Z :=
  if failures =? 0 then base
  else Z.min (unwrap_or CARRIER_BACKOFF_MAX (checked_mul base (Z.shiftl 1 (Z.min failures 16))))
             CARRIER_BACKOFF_MAX.

Inductive level : Type := LogError | LogWarn.
Definition report_carrier_failure (wait failures : Z) : level :=
  let at_cap := CARRIER_BACKOFF_MAX <=? wait in
  let prev := if 1 <? failures then carrier_backoff MILLIS (failures - 1) else 0 in
  if at_cap && (prev <? CARRIER_BACKOFF_MAX) then LogError else LogWarn.

(** [sleep_beating]: the instants it beats at, from [now]; each sleep lasts
    exactly what was asked. *)
Fixpoint beats_until (fuel : nat) (now stop : Z) : list Z :=
  match fuel with
  | O => []
  | S fuel' => now :: (if stop <=? now then [] else beats_until fuel' (now + Z.min (stop - now) BEAT_SLICE) stop)
  end.
Definition sleep_beating (now total : Z) : list Z :=
  beats_until (S (S (Z.to_nat (total / BEAT_SLICE)))) now (now + total).

(** ** Fetch and deliver *)
Record tick : Type := { wall : Z; mono : Z; stamp_of : Local.stamp }.

Section pull.
Context `{EC : ErrorsCrate} {W : Type}.

Record funnel : Type := Funnel { disk : world; far : W; stats : Stats.AntieStats }.
Abbreviation G A := (M funnel AntieError A).
Definition on_disk {A : Type} : M world AntieError A -> G A :=
  zoom disk (fun d f => Funnel d (far f) (stats f)).
Definition on_far {A : Type} : M W AntieError A -> G A :=
  zoom far (fun x f => Funnel (disk f) x (stats f)).
Definition on_stats (g : Stats.AntieStats -> Stats.AntieStats) : G unit :=
  modify (fun f => Funnel (disk f) (far f) (g (stats f))).

Definition beat_opt (hb : option nat) (now : Z) : G unit :=
  match hb with Some i => on_stats (Stats.beat i now) | None => mret tt end.

(** One fetched message. *)
Definition deliver_one (c : MailCarrier W) (inbox : Maildir.Maildir) (spam : bytes -> bool)
    (hb : option nat) (t : tick) (msg : IncomingMessage) : G unit :=
  _ ← beat_opt hb (mono t);
  if spam (raw msg) then _ ← attempt (E := AntieError) (on_far (mark_processed c (id msg))); mret tt
  else
    r ← attempt (on_disk (Maildir.write_message inbox (Local.micros (stamp_of t))
                            (Local.pid (stamp_of t)) (Local.uuid (stamp_of t)) (raw msg)));
    match r with
    | Ok _ =>
        _ ← on_stats (Stats.note_inbox_write (wall t));
        _ ← attempt (E := AntieError) (on_far (mark_processed c (id msg))); mret tt
    | Err e =>
        _ ← attempt (E := AntieError) (on_far (mark_failed c (id msg) (display e))); mret tt
    end.
Fixpoint deliver_each (c : MailCarrier W) (inbox : Maildir.Maildir) (spam : bytes -> bool)
    (hb : option nat) (env : nat -> tick) (k : nat) (messages : list IncomingMessage) : G unit :=
  match messages with
  | [] => mret tt
  | msg :: messages' =>
      _ ← deliver_one c inbox spam hb (env k) msg;
      deliver_each c inbox spam hb env (S k) messages'
  end.
(** Whether the carrier could be reached. *)
Definition deliver_carrier_messages (c : MailCarrier W) (inbox : Maildir.Maildir)
    (spam : bytes -> bool) (hb : option nat) (env : nat -> tick) : G bool :=
  r ← attempt (on_far (check_new c));
  match r with
  | Ok messages => _ ← deliver_each c inbox spam hb env 0 messages; mret true
  | Err _ => mret false
  end.

(** One turn of [pull_loop]: the loop's streak after it and the wait. *)
Definition pull_turn (c : MailCarrier W) (inbox : Maildir.Maildir) (spam : bytes -> bool)
    (hb : nat) (now : Z) (env : nat -> tick) (poll_interval failures : Z) : G (Z * Z) :=
  _ ← on_stats (Stats.beat hb now);
  reached ← deliver_carrier_messages c inbox spam (Some hb) env;
  f ← get;
  let '(failures, s) := Stats.note_carrier_attempt failures reached (stats f) in
  _ ← on_stats (fun _ => s);
  mret (failures, carrier_backoff poll_interval failures).
End pull.
Arguments funnel : clear implicits.
End Pull.
