(* ===== verification/PullTheorems.v ===== *)
(** * Theorems about the inbound funnel *)
From S2P Require Import Prelude Utf8 Fs Errors Config Sinks SinkTheorems Carriers CarrierTheorems Pop3Theorems Stats Pull.
Import Errors Pull.

(** ** Backoff and heartbeats *)
Module Waiting.

Lemma pow_shift n : 0 <= n -> Z.shiftl 1 n = 2 ^ n.
Proof. intros H. by rewrite Z.shiftl_mul_pow2, Z.mul_1_l. Qed.
Lemma backoff_eq base failures :
  0 <= base <= DURATION_MAX -> 0 < failures ->
  carrier_backoff base failures = Z.min (base * 2 ^ Z.min failures 16) CARRIER_BACKOFF_MAX.
Proof.
  intros Hb Hf. unfold carrier_backoff. destruct (Z.eqb_spec failures 0); [lia|].
  rewrite pow_shift by lia. unfold checked_mul.
  destruct (Z.leb_spec (base * 2 ^ Z.min failures 16) DURATION_MAX) as [L|L]; [done|].
  simpl. unfold CARRIER_BACKOFF_MAX, DURATION_MAX, MILLIS, U64_MAX in *. lia.
Qed.
Lemma pow_mono a b : 0 <= a <= b -> 2 ^ a <= 2 ^ b.
Proof. intros H. apply Z.pow_le_mono_r; lia. Qed.

Inductive beats_within (slice : Z) : Z -> Z -> list Z -> Prop :=
  | Done t : beats_within slice t t [t]
  | Next t u stop l : t < u <= t + slice -> beats_within slice u stop l -> beats_within slice t stop (t :: l).
Lemma beats_until_within fuel now stop :
  now <= stop -> stop - now <= Z.of_nat fuel * BEAT_SLICE ->
  beats_within BEAT_SLICE now stop (beats_until (S fuel) now stop).
Proof.
  revert now. induction fuel as [|fuel IH]; intros now Hle Hf; cbn [beats_until].
  - change (Z.of_nat 0 * BEAT_SLICE) with 0 in Hf. replace stop with now by lia.
    rewrite Z.leb_refl. constructor.
  - destruct (Z.leb_spec stop now) as [L|L].
    + replace stop with now by lia. constructor.
    + rewrite Nat2Z.inj_succ in Hf.
      econstructor; [|apply IH]; unfold BEAT_SLICE, MILLIS in *; lia.
Qed.

(** A carrier in backoff waits boundedly and stays visibly alive.  The wait
    after a failure is the interval doubled per consecutive failure, never above
    thirty minutes (an overflow of the duration included) and never shorter
    after more failures; and while it sleeps the loop beats from the first to
    the last instant, never more than a slice apart, so the wait is never
    judged a stall. *)
Theorem backoff_waits_alive base failures now :
  0 <= base <= DURATION_MAX -> 0 < failures ->
  let wait := carrier_backoff base failures in
  wait = Z.min (base * 2 ^ Z.min failures 16) CARRIER_BACKOFF_MAX /\
  wait <= carrier_backoff base (failures + 1) <= CARRIER_BACKOFF_MAX /\
  beats_within BEAT_SLICE now (now + wait) (sleep_beating now wait).
Proof.
  intros Hb Hf wait. assert (wait = Z.min (base * 2 ^ Z.min failures 16) CARRIER_BACKOFF_MAX) as E
    by (by apply backoff_eq).
  assert (0 <= 2 ^ Z.min failures 16) as Hp by (apply Z.pow_nonneg; lia).
  split; [done|]. split.
  - rewrite E, backoff_eq by lia. pose proof (pow_mono (Z.min failures 16) (Z.min (failures + 1) 16) ltac:(lia)).
    split; [|lia]. apply Z.min_le_compat_r. nia.
  - unfold sleep_beating. assert (0 <= wait) as Hw.
    { rewrite E. unfold CARRIER_BACKOFF_MAX, MILLIS. nia. }
    apply beats_until_within; [lia|].
    pose proof (Z.div_mod wait BEAT_SLICE ltac:(done)). pose proof (Z.mod_pos_bound wait BEAT_SLICE ltac:(done)).
    pose proof (Z.div_pos wait BEAT_SLICE Hw ltac:(done)). nia.
Qed.
Lemma backoff_waits_alive_witness :
  carrier_backoff (20000 * MILLIS) 3 = 160000 * MILLIS /\
  beats_within BEAT_SLICE 5 (5 + 160000 * MILLIS) (sleep_beating 5 (160000 * MILLIS)).
Proof.
  split; [reflexivity|].
  exact (proj2 (proj2 (backoff_waits_alive (20000 * MILLIS) 3 5 ltac:(vm_compute; split; discriminate)
    ltac:(lia)))).
Defined.

(** The log level at the cap.  Every failure whose wait is at the cap is
    logged as an error, the hundredth like the first: the test for "first time"
    compares a backoff of one millisecond, which never reaches the cap. *)
Theorem every_capped_failure_is_an_error wait failures :
  0 <= failures ->
  report_carrier_failure wait failures = LogError <-> CARRIER_BACKOFF_MAX <= wait.
Proof.
  intros Hf. unfold report_carrier_failure.
  set (prev := if 1 <? failures then _ else _).
  assert (prev < CARRIER_BACKOFF_MAX) as Hp.
  { unfold prev. destruct (Z.ltb_spec 1 failures); [|done].
    rewrite backoff_eq by (unfold DURATION_MAX, MILLIS, U64_MAX; lia).
    pose proof (pow_mono (Z.min (failures - 1) 16) 16 ltac:(lia)).
    change (2 ^ 16) with 65536 in *. unfold CARRIER_BACKOFF_MAX, MILLIS in *. lia. }
  apply Z.ltb_lt in Hp as ->. rewrite andb_true_r.
  destruct (Z.leb_spec CARRIER_BACKOFF_MAX wait); split; intros; try done; lia.
Qed.
Lemma every_capped_failure_is_an_error_witness :
  report_carrier_failure CARRIER_BACKOFF_MAX 12 = LogError /\ report_carrier_failure CARRIER_BACKOFF_MAX 13 = LogError.
Proof.
  split; refine (proj2 (every_capped_failure_is_an_error _ _ _) _); lia.
Defined.
End Waiting.

(** ** What POP3 deletes *)
Module Renumbering.
Import Io Pop3 Server.

(** The first [n] odd positions removed. *)
Fixpoint every_other (n : nat) (b : list bytes) : list bytes :=
  match n, b with
  | S n', _ :: y :: b' => y :: every_other n' b'
  | S _, _ => []
  | O, _ => b
  end.
(** [mark_processed] of the messages numbered 1 to [n], in order. *)
Fixpoint mark_up `{EC : ErrorsCrate} `{PP : Peer mailbox} (c : Pop3Carrier) (i : Z) (n : nat) (w : net mailbox)
    : net mailbox :=
  match n with
  | O => w
  | S n' => mark_up c (i + 1) n' (mark_processed c (show_Z i) w).2
  end.

Section marks.
Context `{EC : ErrorsCrate} (seg : bytes -> bytes -> list bytes)
  (Hplain : forall st, exists pre, seg st [] = st :: pre /\ concat pre = []).
#[local] Hint Extern 0 (Peer mailbox) => exact (rfc1939 seg) : typeclass_instances.

Lemma mark_up_past c n : forall i w,
  Z.of_nat (length (box (peer w))) < i -> 1 <= i -> i + Z.of_nat n <= U64_MAX + 1 ->
  box (peer (mark_up c i n w)) = box (peer w).
Proof.
  induction n as [|n IH]; intros i w Hi H1 Hn; cbn [mark_up]; [done|].
  destruct (Sessions.mark_processed_ok seg Hplain c w i ltac:(lia)) as (r & w' & E & B & _).
  rewrite delete_take_drop, take_ge, drop_ge, app_nil_r in B by lia.
  rewrite E. cbn [snd]. by rewrite IH; rewrite ?B; try lia.
Qed.
Lemma mark_up_box c n : forall kept b w,
  box (peer w) = kept ++ b -> Z.of_nat (length kept + n) <= U64_MAX ->
  box (peer (mark_up c (Z.of_nat (length kept) + 1) n w)) = kept ++ every_other n b.
Proof.
  induction n as [|n IH]; intros kept b w Hb Hn; cbn [mark_up every_other]; [by destruct b|].
  destruct (Sessions.mark_processed_ok seg Hplain c w (Z.of_nat (length kept) + 1) ltac:(lia))
    as (r & w' & E & B & _). rewrite E. cbn [snd].
  replace (Z.to_nat (Z.of_nat (length kept) + 1 - 1)) with (length kept) in B by lia.
  rewrite Hb, delete_take_drop, take_app_length in B.
  replace (S (length kept)) with (length kept + 1)%nat in B by lia.
  rewrite <- drop_drop, drop_app_length in B.
  destruct b as [|x [|y b]]; cbn [drop] in B.
  1, 2: by rewrite mark_up_past, B by (rewrite ?B, ?app_nil_r; lia).
  specialize (IH (kept ++ [y]) b w'). rewrite length_app in IH. cbn [length] in IH.
  replace (Z.of_nat (length kept) + 1 + 1) with (Z.of_nat (length kept + 1) + 1) by lia.
  rewrite IH; [by rewrite <- app_assoc|by rewrite <- app_assoc|lia].
Qed.
End marks.

Lemma every_other_lookup n b k :
  every_other n b !! k = if (k <? n)%nat then b !! (2 * k + 1)%nat else b !! (n + k)%nat.
Proof.
  revert b k. induction n as [|n IH]; intros b k; [by destruct b|].
  destruct b as [|x [|y b]]; cbn [every_other].
  - by destruct (k <? S n)%nat.
  - rewrite lookup_nil. destruct (k <? S n)%nat; [|done].
    replace (2 * k + 1)%nat with (S (2 * k)) by lia. by destruct (2 * k)%nat.
  - destruct k as [|k]; [done|]. cbn [lookup list_lookup]. rewrite IH.
    change (S k <? S n)%nat with (k <? n)%nat. destruct (k <? n)%nat.
    + by replace (2 * S k + 1)%nat with (S (S (2 * k + 1))) by lia.
    + by replace (S n + S k)%nat with (S (S (n + k))) by lia.
Qed.

(** Deleting by number deletes the wrong mail.  Each POP3 deletion is a
    session of its own, and the server numbers the messages afresh in each, but
    the client keeps the numbers of its first session.  Acknowledging the [n]
    messages it fetched leaves the second, fourth, ... of the mailbox: every
    second fetched message stays, to be fetched again, and where mail arrived
    meanwhile the deletions reach into it - the mailbox position [2 * k] goes
    for every [k < n], fetched or not. *)
Theorem pop3_acknowledges_every_other `{EC : ErrorsCrate} seg c n w k :
  (forall st, exists pre, seg st [] = st :: pre /\ concat pre = []) ->
  Z.of_nat n <= U64_MAX ->
  box (peer (mark_up (PP := rfc1939 seg) c 1 n w)) !! k =
  if (k <? n)%nat then box (peer w) !! (2 * k + 1)%nat else box (peer w) !! (n + k)%nat.
Proof.
  intros Hp Hn. rewrite <- every_other_lookup. f_equal.
  exact (mark_up_box seg Hp c n [] (box (peer w)) w eq_refl Hn).
Qed.
(** Three messages were fetched; two more arrived before the deletions: the
    second of them is deleted without having been read. *)
Lemma pop3_acknowledges_every_other_witness :
  let w := closed_with [$"fetched 1"; $"fetched 2"; $"fetched 3"; $"new 1"; $"new 2"] in
  let left := box (peer (mark_up (EC := ex_errors) (PP := rfc1939 Sessions.ex_seg) Sessions.ex_account 1 3 w)) in
  left !! 0%nat = Some $"fetched 2" /\ left !! 1%nat = Some $"new 1" /\ left !! 2%nat = None.
Proof.
  intros w left.
  assert (forall k, left !! k = if (k <? 3)%nat then box (peer w) !! (2 * k + 1)%nat else box (peer w) !! (3 + k)%nat)
    as H.
  { intros k. refine (pop3_acknowledges_every_other (EC := ex_errors) Sessions.ex_seg Sessions.ex_account 3 w k _ _).
    - intros st. exact (Sessions.ex_seg_ok st []).
    - vm_compute. discriminate. }
  rewrite !H. repeat split; reflexivity.
Defined.
End Renumbering.

(** ** At least once *)
Module AtLeastOnce.

(** What the funnel needs of a pull carrier.  [full] is what the server holds under
    each identifier, [mail] what of it is not yet marked for deletion.  Reading
    leaves both alone and reports truly, a deletion marks no message but the one
    named - of an identifier the server could have given out -, a failure report
    marks nothing, and nothing adds mail. *)
Class LeavesMail `{EC : ErrorsCrate} {W : Type} (c : MailCarrier W) (full mail : W -> gmap bytes bytes) : Prop := {
    mail_held : forall w, mail w ⊆ full w;
    check_keeps : forall w, full (check_new c w).2 = full w /\ mail (check_new c w).2 = mail w;
    check_true : forall w msgs w', check_new c w = (Ok msgs, w') ->
      Forall (fun m => full w !! id m = Some (raw m)) msgs;
    mark_removes_only : forall i w j m, (exists v b, full v !! i = Some b) -> mail w !! j = Some m ->
      mail (mark_processed c i w).2 !! j = Some m \/ j = i;
    mark_adds_nothing : forall i w, (exists v b, full v !! i = Some b) -> full (mark_processed c i w).2 ⊆ full w;
    failed_keeps : forall i why w, full (mark_failed c i why w).2 = full w /\ mail (mark_failed c i why w).2 = mail w;
}.

Section funnel.
Context `{EC : ErrorsCrate} {W : Type} (c : MailCarrier W) (full mail : W -> gmap bytes bytes)
  `{LM : !LeavesMail c full mail}.
Context (p : path) (spam : bytes -> bool) (hb : option nat) (env : nat -> tick).
Abbreviation inbox := (SinkTheorems.maildir_at p).
Implicit Types w : funnel W.

Definition name_of (t : tick) : bytes :=
  Maildir.message_name (Local.micros (stamp_of t)) (Local.pid (stamp_of t)) (Local.uuid (stamp_of t)).
Definition staged_at (i : nat) : path := SinkTheorems.in_dir p $"new" (name_of (env i)).
Definition temp_at (i : nat) : path := SinkTheorems.in_dir p $"tmp" (name_of (env i)).
(** The names the clock, the process and the UUIDs make: fresh and plain. *)
Definition fresh_names : Prop :=
  (forall i, plain_name (name_of (env i)) = true) /\
  (forall i j, name_of (env i) = name_of (env j) -> i = j).

Definition kept w0 w (upto : nat) : Prop :=
  forall j m, mail (far w0) !! j = Some m ->
    mail (far w) !! j = Some m \/ spam m = true \/
    exists i, (i < upto)%nat /\ fs (disk w) !! staged_at i = Some (File m).

Lemma staged_ne_temp i j : staged_at i <> temp_at j.
Proof. intros [E _]%SinkTheorems.in_dir_inj. discriminate E. Qed.
Lemma staged_inj i j : fresh_names -> staged_at i = staged_at j -> i = j.
Proof. intros [_ H] [_ E]%SinkTheorems.in_dir_inj. by apply H. Qed.
#[local] Instance staging k b : fresh_names ->
  AtomicPublish (Maildir.write_message inbox (Local.micros (stamp_of (env k))) (Local.pid (stamp_of (env k)))
    (Local.uuid (stamp_of (env k))) b) (temp_at k) (staged_at k) b.
Proof.
  intros [Hp _]. unfold temp_at, staged_at. rewrite <- !SinkTheorems.in_dir_snoc.
  rewrite <- (join_plain (p ++ [$"tmp"])), <- (join_plain (p ++ [$"new"])) by apply Hp.
  apply (SinkTheorems.maildir_atomic inbox).
Qed.

(** Replacing the far side, or the statistics, keeps what is staged. *)
Lemma kept_step w0 w k (f : funnel W) :
  disk f = disk w -> (forall j m, mail (far w) !! j = Some m -> mail (far f) !! j = Some m) ->
  kept w0 w k -> kept w0 f k.
Proof. intros Hd Hm Hk j m Hj. rewrite Hd. destruct (Hk j m Hj) as [H|[H|H]]; auto. Qed.
Lemma kept_weaken w0 w k : kept w0 w k -> kept w0 w (S k).
Proof. intros Hk j m Hj. destruct (Hk j m Hj) as [H|[H|(i & Hi & H)]]; auto. right. right. exists i. split; [lia|done]. Qed.

(** What one message does: spam is only marked; another is written, and then marked
    or, when that failed, reported. *)
Definition stage (k : nat) (b : bytes) : M world AntieError path :=
  Maildir.write_message inbox (Local.micros (stamp_of (env k))) (Local.pid (stamp_of (env k)))
    (Local.uuid (stamp_of (env k))) b.
Lemma deliver_one_run k msg w : let f := (deliver_one c inbox spam hb (env k) msg w).2 in
  if spam (raw msg) then disk f = disk w /\ far f = (mark_processed c (id msg) (far w)).2
  else let '(r, d) := stage k (raw msg) (disk w) in disk f = d /\
    far f = match r with Ok _ => (mark_processed c (id msg) (far w)).2 | Err e => (mark_failed c (id msg) (display e) (far w)).2 end.
Proof.
  unfold deliver_one. assert (exists w1, beat_opt (W := W) hb (mono (env k)) w = (Ok tt, w1) /\ disk w1 = disk w /\ far w1 = far w)
    as (w1 & E1 & <- & <-) by (destruct hb; by eexists).
  cbv [mbind M_bind]. rewrite E1. clear E1. fold (stage k (raw msg)). unfold attempt, on_far, on_disk, on_stats, modify, zoom. destruct (spam (raw msg)).
  - by destruct (mark_processed c (id msg) (far w1)).
  - destruct (stage k (raw msg) (disk w1)) as [[nm|e] d].
    + cbn [far]. by destruct (mark_processed c (id msg) (far w1)).
    + cbn [far]. by destruct (mark_failed c (id msg) (display e) (far w1)).
Qed.
Lemma deliver_one_done k msg w : (deliver_one c inbox spam hb (env k) msg w).1 = Ok tt.
Proof.
  unfold deliver_one. destruct hb; cbv [beat_opt mbind M_bind attempt]; repeat (case_match; simplify_eq/=; try done).
Qed.
(** What is staged stays; what was written is there. *)
Lemma stage_staged k b d : fresh_names -> let '(r, d') := stage k b d in
  (forall i m, i <> k -> fs d !! staged_at i = Some (File m) -> fs d' !! staged_at i = Some (File m)) /\
  (is_ok r = true -> fs d' !! staged_at k = Some (File b)).
Proof.
  intros Hf. pose proof (publish_done _ _ _ _ (AtomicPublish0 := staging k b Hf) d) as Hdone.
  pose proof (publish_frame _ _ _ _ (AtomicPublish0 := staging k b Hf) d) as Hframe. fold (stage k b) in *.
  destruct (stage k b d) as [r d']. cbn [fst snd] in *. split; [|by destruct r].
  intros i m N H. apply Hframe; [apply staged_ne_temp| |done]. by intros E%staged_inj.
Qed.
Lemma marked_keeps w0 w x k msg : full (far w0) !! id msg = Some (raw msg) -> kept w0 w k ->
  disk x = disk w -> far x = (mark_processed c (id msg) (far w)).2 ->
  (spam (raw msg) = true \/ exists i, (i < k)%nat /\ fs (disk w) !! staged_at i = Some (File (raw msg))) -> kept w0 x k.
Proof.
  intros Hmsg Hk Hd Hx Hok j m Hj. rewrite Hd, Hx. destruct (Hk j m Hj) as [H|H]; [|by right].
  destruct (mark_removes_only (id msg) (far w) j m ltac:(eauto) H) as [H'| ->]; [by left|right].
  assert (full (far w0) !! id msg = Some m) as E by (eapply lookup_weaken; [exact Hj|apply (mail_held (c := c))]).
  rewrite Hmsg in E. by injection E as <-.
Qed.
Lemma deliver_one_keeps w0 w k msg :
  fresh_names -> full (far w0) !! id msg = Some (raw msg) -> kept w0 w k ->
  kept w0 (deliver_one c inbox spam hb (env k) msg w).2 (S k).
Proof.
  intros Hf Hmsg Hk. pose proof (deliver_one_run k msg w) as R. cbv zeta in R.
  destruct (deliver_one _ _ _ _ _ _ w) as [r f]. cbn [snd] in *. destruct (spam (raw msg)) eqn:Es.
  - destruct R as [Rd Rf]. apply (marked_keeps w0 w f (S k) msg); auto using kept_weaken.
  - pose proof (stage_staged k (raw msg) (disk w) Hf) as H. destruct (stage k (raw msg) (disk w)) as [rs d]. destruct R as [<- Rf].
    destruct H as [Hkeep Hdone].
    assert (kept w0 (Funnel (disk f) (far w) (stats w)) (S k)) as Hk'.
    { intros j m Hj. destruct (Hk j m Hj) as [H|[H|(i & Hi & H)]]; [by left|by auto|right; right].
      exists i. split; [lia|]. apply Hkeep; [lia|done]. }
    destruct rs as [nm|e].
    + apply (marked_keeps w0 _ f (S k) msg Hmsg Hk'); [done..|]. right. exists k. split; [lia|]. by apply Hdone.
    + intros j m Hj. rewrite Rf. destruct (failed_keeps (id msg) (display e) (far w)) as [_ ->]. exact (Hk' j m Hj).
Qed.

Lemma deliver_each_keeps w0 msgs : forall w k,
  fresh_names -> Forall (fun m => full (far w0) !! id m = Some (raw m)) msgs -> kept w0 w k ->
  kept w0 (deliver_each c inbox spam hb env k msgs w).2 (k + length msgs).
Proof.
  induction msgs as [|msg msgs IH]; intros w k Hf Hm Hk; cbn [deliver_each length].
  - by rewrite Nat.add_0_r.
  - apply Forall_cons_1 in Hm as [H1 H2]. pose proof (deliver_one_keeps w0 w k msg Hf H1 Hk) as Hk1.
    unfold mbind, M_bind. destruct (deliver_one c inbox spam hb (env k) msg w) as [[[]|e] w'] eqn:E.
    + replace (k + S (length msgs))%nat with (S k + length msgs)%nat by lia. by apply IH.
    + cbn [snd] in *. intros j m Hj. destruct (Hk1 j m Hj) as [H|[H|(i & Hi & H)]]; auto.
      right. right. exists i. split; [lia|done].
Qed.

(** The funnel when the loop stops after [n] messages - killed, or at the end. *)
Definition stopped_after (n : nat) w : funnel W :=
  match on_far (check_new c) w with
  | (Ok msgs, w1) => (deliver_each c inbox spam hb env 0 (take n msgs) w1).2
  | (Err _, w1) => w1
  end.
(** The funnel delivers at least once.  For a carrier whose deletions
    remove only the message they name, wherever the delivery stops and whichever
    file or server operations fail on the way, every message of the mailbox is
    afterwards still on the server, or complete in the inbox's [new/], or was
    judged spam. *)
Theorem pull_at_least_once w n j m :
  fresh_names -> mail (far w) !! j = Some m ->
  mail (far (stopped_after n w)) !! j = Some m \/ spam m = true \/
  exists i, fs (disk (stopped_after n w)) !! staged_at i = Some (File m).
Proof.
  intros Hf Hj. unfold stopped_after, on_far, zoom.
  destruct (check_keeps (c := c) (far w)) as [_ Hck].
  destruct (check_new c (far w)) as [[msgs|e] y] eqn:E; cbn [snd] in *.
  - set (w1 := Funnel (disk w) y (stats w)).
    assert (kept w w1 0) as Hk by (intros j' m' H; left; cbn [w1 far]; by rewrite Hck).
    pose proof (check_true (c := c) _ _ _ E) as Ht.
    destruct (deliver_each_keeps w (take n msgs) w1 0 Hf ltac:(by apply Forall_take) Hk j m Hj)
      as [H|[H|(i & _ & H)]]; eauto.
  - left. cbn [far]. by rewrite Hck.
Qed.
Lemma deliver_is_stopped_at_the_end w msgs y :
  check_new c (far w) = (Ok msgs, y) ->
  (deliver_carrier_messages c inbox spam hb env w).2 = stopped_after (length msgs) w.
Proof.
  intros E. unfold deliver_carrier_messages, stopped_after, attempt, on_far, zoom.
  unfold mbind at 1, M_bind at 1. rewrite E. rewrite firstn_all.
  unfold mbind, M_bind. by destruct (deliver_each _ _ _ _ _ _ _ _) as [[[]|e] w'].
Qed.
End funnel.

(** A mailbox keyed by unique ids, as IMAP's UIDs are. *)
Definition uid_carrier : MailCarrier (EC := ex_errors) (gmap bytes bytes) := {|
  carrier_name := $"uid";
  check_new := fun b => (Ok (map (fun kv => {| id := kv.1; raw := kv.2; source := [] |}) (map_to_list b)), b);
  mark_processed := fun i b => (Ok tt, delete i b);
  mark_failed := fun _ _ b => (Ok tt, b);
  send := fun _ _ b => (Ok tt, b) |}.
#[export] Instance uid_leaves_mail : LeavesMail uid_carrier (fun b => b) (fun b => b).
Proof.
  split.
  - done.
  - done.
  - intros w msgs w' [= <- <-]. apply Forall_forall. intros m Hm.
    apply list_elem_of_fmap in Hm as ([k v] & -> & Hk). by apply elem_of_map_to_list in Hk.
  - intros i w j m _ H. destruct (decide (j = i)) as [->|N]; [by right|left]. simpl.
    by rewrite lookup_delete_ne.
  - intros i w _. apply delete_subseteq.
  - done.
Qed.
Definition ex_env (i : nat) : tick :=
  {| wall := 1700000000; mono := 5;
     stamp_of := {| Local.micros := 17; Local.pid := 42; Local.uuid := show_N (N.of_nat i) |} |}.
Lemma ex_env_name i : name_of (ex_env i) = $"17.42.localhost." ++ show_N (N.of_nat i).
Proof. done. Qed.
Lemma ex_env_fresh : fresh_names ex_env.
Proof.
  split.
  - intros i. rewrite ex_env_name. unfold plain_name. apply bool_decide_eq_true.
    pose proof (show_N_no "/"%char (N.of_nat i) eq_refl). split; [|done].
    rewrite not_elem_of_app. split; [by apply (bool_decide_unpack _)|done].
  - intros i j E. rewrite !ex_env_name in E. apply app_inv_head in E. apply (inj show_N) in E. lia.
Qed.
Lemma pull_at_least_once_witness :
  let w := Funnel (W := gmap bytes bytes) {| fs := ∅; oracle := []; hist := []; listing := fun l => l |}
             (<[$"7" := $"body"]> ∅) (Stats.stats_new 5) in
  let w' := stopped_after uid_carrier [$"inbox"] (fun _ => false) None ex_env 1 w in
  far w' !! $"7" = Some $"body" \/ false = true \/
  exists i, fs (disk w') !! staged_at [$"inbox"] ex_env i = Some (File $"body").
Proof.
  intros w w'.
  exact (pull_at_least_once uid_carrier (fun b => b) (fun b => b) [$"inbox"] (fun _ => false) None ex_env w 1 $"7" $"body"
           ex_env_fresh eq_refl).
Defined.
End AtLeastOnce.
