(* ===== verification/ImapTheorems.v ===== *)
(** * IMAP against a mailbox

    The server is RFC 3501's, as far as the carrier talks to it: LOGIN, SELECT,
    UID SEARCH UNSEEN, UID FETCH, UID STORE, EXPUNGE and LOGOUT over messages with
    unique ids.  Which of them are \Seen other clients of the mailbox decide: the
    carrier reads with BODY.PEEK, which leaves the flag alone.  [seqno] is the
    message number the server shows, [seg] how a reply is cut; it may hang up at
    any command, before or after it carried it out. *)
From S2P Require Import Prelude Utf8 Fs Errors Config Sinks SinkTheorems Carriers CarrierTheorems Stats Pull PullTheorems.
Import Errors Io Streams Spin Imap ImapProofs.

Module ImapServer.
(** [flagged]: marked \Deleted; [seen]: marked \Seen. *)
Record mailbox : Type := { box : gmap N bytes; flagged : gset N; seen : gset N }.
Inductive whim : Type := Obeys | Hangs_up (acted : bool).
#[export] Instance whim_eq_dec : EqDecision whim.
Proof. solve_decision. Defined.
Record imapd : Type := Imapd { held : mailbox; whims : list whim }.

(** The number between two texts. *)
Definition number (pre post cmd : bytes) : option N :=
  match strip_prefix pre cmd with
  | Some r => match strip_suffix post r with Some d => digits_value 0 d | None => None end
  | None => None
  end.
Definition DONE : bytes := $" OK complete".
Definition reply (tag : bytes) (untagged : list bytes) : bytes :=
  flat_map (fun l => l ++ crlf) untagged ++ tag ++ DONE ++ crlf.
Definition unseen (s : mailbox) : gmap N bytes := filter (fun kv => kv.1 ∉ seen s) (box s).
Definition search_line (s : mailbox) : bytes :=
  $"* SEARCH" ++ flat_map (fun u => $" " ++ show_N u) (map fst (map_to_list (unseen s))).
Definition kept (s : mailbox) : gmap N bytes := filter (fun kv => kv.1 ∉ flagged s) (box s).

Section server.
Context (seqno : N -> N) (seg : bytes -> list bytes) (refuses : N -> bool).
Definition REFUSAL : bytes := $" NO try again later".
Definition answer (s : mailbox) (tag cmd : bytes) : mailbox * bytes * ending :=
  if starts_with $"LOGIN " cmd then (s, reply tag [], Waiting)
  else if starts_with $"SELECT " cmd then
    (s, reply tag [$"* " ++ show_N (N.of_nat (size (box s))) ++ $" EXISTS"], Waiting)
  else if decide (cmd = $"UID SEARCH UNSEEN") then (s, reply tag [search_line s], Waiting)
  else if decide (cmd = $"EXPUNGE") then
    ({| box := kept s; flagged := ∅; seen := seen s |},
     reply tag (map (fun u => $"* " ++ show_N (seqno u) ++ $" EXPUNGE") (elements (flagged s ∩ dom (box s)))), Waiting)
  else if decide (cmd = $"LOGOUT") then (s, reply tag [$"* BYE"], Closed)
  else match number $"UID FETCH " $" BODY.PEEK[]" cmd, number $"UID STORE " $" +FLAGS (\Deleted)" cmd with
       | Some u, _ =>
           if refuses u then (s, tag ++ REFUSAL ++ crlf, Waiting) else
           match box s !! u with
           | Some m =>
               if Z.of_nat (length m) <=? U64_MAX then
                 (s, fetch_head (seqno u) u (N.of_nat (length m)) ++ crlf ++ m ++ $")" ++ crlf ++ tag ++ DONE ++ crlf, Waiting)
               else (s, [], Closed)
           | None => (s, reply tag [], Waiting)
           end
       | None, Some u =>
           ({| box := box s; flagged := if decide (u ∈ dom (box s)) then {[u]} ∪ flagged s else flagged s; seen := seen s |}, reply tag [], Waiting)
       | None, None => (s, tag ++ $" BAD unknown" ++ crlf, Waiting)
       end.
Definition on_line (s : mailbox) (b : bytes) : mailbox * bytes * ending :=
  match split_once " "%char b with
  | Some (tag, r) =>
      match strip_suffix crlf r with
      | Some cmd => answer s tag cmd
      | None => (s, $"* BAD" ++ crlf, Waiting)
      end
  | None => (s, $"* BAD" ++ crlf, Waiting)
  end.
Definition GREETING : bytes := $"* OK ready" ++ crlf.
Definition rfc3501 : Peer imapd := {|
  on_connect := fun d =>
    let d' := Imapd (held d) (tail (whims d)) in
    match whims d with
    | Hangs_up _ :: _ => Ok (d', ([], Closed))
    | _ => Ok (d', (seg GREETING, Waiting))
    end;
  on_write := fun d b =>
    let '(s, r, e) := on_line (held d) b in
    match whims d with
    | Hangs_up acted :: ws => Ok (Imapd (if acted : bool then s else held d) ws, ([], Closed))
    | _ => Ok (Imapd s (tail (whims d)), (seg r, e))
    end |}.
End server.
End ImapServer.
Import ImapServer.

Module ImapSessions.

(** ** Reading a reply *)
Definition untagged (l : bytes) : Prop :=
  is_ascii l = true /\ LF ∉ l /\ trim (l ++ crlf) = l /\ exists r, l = $"* " ++ r.
Definition tag_of (tag : bytes) : Prop :=
  exists t, tag = $"A" ++ t /\ is_ascii t = true /\ LF ∉ t /\ " "%char ∉ t.
Lemma untagged_text c x : is_ascii x = true -> LF ∉ x -> last ($"* " ++ x) = Some c -> printable c = true -> untagged ($"* " ++ x).
Proof.
  intros A Nx L Pc. split; [by rewrite is_ascii_app, A|]. split; [rewrite not_elem_of_app; split; [by apply (bool_decide_unpack _)|done]|].
  split; [by eapply trim_crlf|by eexists].
Qed.
Lemma not_tagged tag l : tag_of tag -> untagged l -> tagged tag l = None.
Proof. intros (t & -> & _) (_ & _ & _ & r & ->). done. Qed.

(** ** The lines of a reply *)
Lemma split_ws_last w : forall fuel cur, forallb printable w = true -> rev cur ++ w <> [] -> (length w < fuel)%nat ->
  split_ws_fuel fuel cur w = [rev cur ++ w].
Proof.
  induction w as [|x w IH]; intros fuel cur Hw Hn Hf; (destruct fuel as [|fuel]; [simpl in Hf; lia|]); cbn [split_ws_fuel].
  - rewrite decide_False; [by rewrite app_nil_r|]. intros ->. by apply Hn.
  - cbn [forallb] in Hw. apply andb_true_iff in Hw as [Hx Hw]. rewrite ws_prefix_printable by done.
    rewrite IH; [cbn [rev]; by rewrite <- app_assoc|done| |simpl in Hf; lia].
    cbn [rev]. rewrite <- app_assoc. cbn. intros E. apply app_eq_nil in E as [_ E]. done.
Qed.
Definition word (w : bytes) : Prop := w <> [] /\ forallb printable w = true.
Lemma split_words ws : forall w fuel, word w -> Forall word ws -> (length (w ++ flat_map (fun x => $" " ++ x) ws) < fuel)%nat ->
  split_ws_fuel fuel [] (w ++ flat_map (fun x => $" " ++ x) ws) = w :: ws.
Proof.
  induction ws as [|x ws IH]; intros w fuel [Hn Hp] Hws Hf.
  - cbn [flat_map] in *. rewrite app_nil_r in *. by apply split_ws_last.
  - apply Forall_cons_1 in Hws as [Hx Hws]. cbn [flat_map] in *. rewrite !length_app in Hf. change (length $" ") with 1%nat in Hf.
    change ($" " ++ x) with (" "%char :: x). cbn [app]. rewrite split_ws_word by (done || lia).
    cbn [rev app]. rewrite decide_False by done. cbn [app]. f_equal. apply IH; [done|done|]. rewrite length_app. lia.
Qed.
Lemma show_word u : word (show_N u).
Proof.
  split; [|apply show_N_printable]. destruct (show_N_nonempty u) as (x & t & -> & _). done.
Qed.
Lemma word_last x w : word w -> exists c, last (x ++ w) = Some c /\ printable c = true.
Proof.
  intros [Hn Hp]. destruct (exists_last Hn) as (y & c & ->). exists c. split; [by rewrite app_assoc, last_snoc|].
  rewrite forallb_app in Hp. apply andb_true_iff in Hp as [_ Hp]. cbn in Hp. by rewrite andb_true_r in Hp.
Qed.
Lemma search_words us : split_whitespace ($"* SEARCH" ++ flat_map (fun u => $" " ++ show_N u) us) = $"*" :: $"SEARCH" :: map show_N us.
Proof.
  unfold split_whitespace.
  assert ($"* SEARCH" ++ flat_map (fun u => $" " ++ show_N u) us = $"*" ++ flat_map (fun x => $" " ++ x) ($"SEARCH" :: map show_N us)) as ->.
  { cbn [flat_map]. rewrite flat_map_concat_map, (flat_map_concat_map _ (map show_N us)), map_map. done. }
  apply split_words; [by split|constructor; [by split|]|lia].
  apply Forall_forall. intros x (u & <- & _)%list_elem_of_In%in_map_iff. apply show_word.
Qed.
Lemma search_untagged s : untagged (search_line s).
Proof.
  unfold search_line. set (us := map fst _).
  assert (exists x w, $"* SEARCH" ++ flat_map (fun u => $" " ++ show_N u) us = $"* " ++ x /\
    is_ascii x = true /\ LF ∉ x /\ exists y, $"* " ++ x = y ++ w /\ word w) as (x & w & -> & A & Nx & y & E & Hw).
  { exists ($"SEARCH" ++ flat_map (fun u => $" " ++ show_N u) us).
    assert (is_ascii (flat_map (fun u => $" " ++ show_N u) us) = true /\ LF ∉ flat_map (fun u => $" " ++ show_N u) us) as [A Nl].
    { induction us as [|u us' [A Nl]]; [split; [done|set_solver]|]. cbn [flat_map]. rewrite !is_ascii_app, A, is_ascii_show. split; [done|].
      rewrite !not_elem_of_app. repeat split; [by apply (bool_decide_unpack _)|by apply show_N_no|done]. }
    destruct us as [|u us'] eqn:Eu using rev_ind.
    - exists $"SEARCH". split; [done|]. do 2 (split; [done || (by apply (bool_decide_unpack _))|]). exists $"* ". by split.
    - exists (show_N u). split; [done|]. split; [by rewrite is_ascii_app, A|].
      split; [rewrite not_elem_of_app; split; [by apply (bool_decide_unpack _)|done]|].
      exists ($"* SEARCH" ++ flat_map (fun u => $" " ++ show_N u) us' ++ $" "). split; [|apply show_word].
      rewrite flat_map_app. cbn [flat_map]. rewrite app_nil_r. by rewrite <- !app_assoc. }
  destruct (word_last y w Hw) as (c & Hc & Pc). rewrite <- E in Hc. by eapply untagged_text.
Qed.
Lemma uids_reply s tag : tag_of tag -> uids_of [search_line s; tag ++ DONE] = map show_N (map fst (map_to_list (unseen s))).
Proof.
  intros (t & -> & _). unfold uids_of. cbn [List.filter]. unfold search_line. rewrite starts_with_app.
  change (starts_with $"* SEARCH" (($"A" ++ t) ++ DONE)) with false. cbn [flat_map]. rewrite search_words, app_nil_r. done.
Qed.
Section client.
Context `{EC : ErrorsCrate} (seqno : N -> N) (seg : bytes -> list bytes) (refuses : N -> bool) (Hseg : forall b, concat (seg b) = b).
#[local] Hint Extern 0 (Peer imapd) => exact (rfc3501 seqno seg refuses) : typeclass_instances.
Implicit Types n : net imapd.

Lemma final_line tag : tag_of tag ->
  is_ascii (tag ++ DONE) = true /\ LF ∉ tag ++ DONE /\ trim ((tag ++ DONE) ++ crlf) = tag ++ DONE /\
  tagged tag (tag ++ DONE) = Some $"OK complete".
Proof.
  intros (t & -> & A & Nt & _). rewrite !is_ascii_app, A. split; [done|]. split; [|split].
  - rewrite !not_elem_of_app. repeat split; try done; by apply (bool_decide_unpack _).
  - eapply trim_crlf with (a := "A"%char) (c := "e"%char); try done.
    change DONE with ($" OK complet" ++ ["e"%char]). rewrite (app_assoc _ $" OK complet"). apply last_snoc.
  - unfold tagged. by rewrite strip_prefix_app.
Qed.
Lemma command_loop_ok tag us : tag_of tag -> Forall untagged us -> forall buf ls fuel n,
  buf ++ concat (inbound n) = reply tag us -> (length us < fuel)%nat ->
  exists segs, command_loop tag buf ls fuel n = (Ok (Some (ls ++ us ++ [tag ++ DONE])), with_inbound segs n) /\ concat segs = [].
Proof.
  intros Ht Hus. destruct (final_line tag Ht) as (Af & Nf & Tf & Sf).
  assert (forall x, is_ascii x = true -> is_utf8 ((x ++ [CR]) ++ [LF]) = true) as Hu
    by (intros x Hx; apply is_ascii_utf8; by rewrite !is_ascii_app, Hx).
  assert (forall x, LF ∉ x -> LF ∉ x ++ [CR]) as HN by (intros x Hx; set_solver).
  induction Hus as [|l us Hl Hus IH]; intros buf ls fuel n E Hf; (destruct fuel as [|fuel]; [simpl in Hf; lia|]); cbn [command_loop].
  - destruct (read_line_ok $"IMAP" buf n ((tag ++ DONE) ++ [CR]) []) as (over & segs & R & Er); [|auto..|].
    { rewrite E. unfold reply. cbn [flat_map app]. by rewrite <- !app_assoc. }
    unfold mbind, M_bind. rewrite R. rewrite <- app_assoc. change ([CR] ++ [LF]) with crlf. rewrite Tf, Sf.
    change (starts_with $"OK" $"OK complete") with true. exists segs. split; [done|]. by apply app_eq_nil in Er as [_ Er].
  - pose proof Hl as (Al & Nl & Tl & _).
    destruct (read_line_ok $"IMAP" buf n (l ++ [CR]) (reply tag us)) as (over & segs & R & Er); [|auto..|].
    { rewrite E. unfold reply. cbn [flat_map]. by rewrite <- !app_assoc. }
    unfold mbind, M_bind. rewrite R. rewrite <- app_assoc. change ([CR] ++ [LF]) with crlf. rewrite Tl, (not_tagged tag l Ht Hl).
    destruct (IH over (ls ++ [l]) fuel (with_inbound segs n) Er ltac:(simpl in Hf; lia)) as (segs' & -> & Hs).
    exists segs'. by rewrite <- app_assoc.
Qed.

(** ** One command *)
Lemma uid_show pre post u : number pre post (pre ++ show_N u ++ post) = Some u.
Proof.
  unfold number. rewrite strip_prefix_app. rewrite (proj2 (strip_suffix_Some post _ (show_N u))) by done.
  apply digits_value_show.
Qed.
Definition FETCH (i : bytes) : bytes := $"UID FETCH " ++ i ++ $" BODY.PEEK[]".
Definition STORE (i : bytes) : bytes := $"UID STORE " ++ i ++ $" +FLAGS (\Deleted)".
Lemma fetch_line i : $" " ++ FETCH i ++ crlf = $" UID FETCH " ++ i ++ $" BODY.PEEK[]" ++ crlf.
Proof. unfold FETCH. cbn [app]. by rewrite <- !app_assoc. Qed.
Lemma answer_fetch s tag u : answer seqno refuses s tag (FETCH (show_N u)) =
  if refuses u then (s, tag ++ REFUSAL ++ crlf, Waiting) else
  match box s !! u with
  | Some m =>
      if Z.of_nat (length m) <=? U64_MAX then
        (s, fetch_head (seqno u) u (N.of_nat (length m)) ++ crlf ++ m ++ $")" ++ crlf ++ tag ++ DONE ++ crlf, Waiting)
      else (s, [], Closed)
  | None => (s, reply tag [], Waiting)
  end.
Proof.
  unfold answer. change (starts_with $"LOGIN " (FETCH (show_N u))) with false. change (starts_with $"SELECT " (FETCH (show_N u))) with false.
  cbv iota. rewrite !decide_False by discriminate. unfold FETCH at 1. by rewrite uid_show.
Qed.
Definition flag (u : N) (s : mailbox) : mailbox :=
  {| box := box s; flagged := if decide (u ∈ dom (box s)) then {[u]} ∪ flagged s else flagged s; seen := seen s |}.
Lemma answer_store s tag i : answer seqno refuses s tag (STORE i) =
  match number $"UID STORE " $" +FLAGS (\Deleted)" (STORE i) with
  | Some u => (flag u s, reply tag [], Waiting)
  | None => (s, tag ++ $" BAD unknown" ++ crlf, Waiting)
  end.
Proof.
  unfold answer. change (starts_with $"LOGIN " (STORE i)) with false. change (starts_with $"SELECT " (STORE i)) with false.
  cbv iota. rewrite !decide_False by discriminate. by change (number $"UID FETCH " $" BODY.PEEK[]" (STORE i)) with (@None N).
Qed.
Lemma on_line_tagged d tag cmd : tag_of tag -> on_line seqno refuses d (tag ++ $" " ++ cmd ++ crlf) = answer seqno refuses d tag cmd.
Proof.
  intros (t & -> & _ & _ & Ns). unfold on_line.
  rewrite (proj2 (split_once_Some " "%char _ ($"A" ++ t) (cmd ++ crlf))); [|split; [done|set_solver]].
  by rewrite (proj2 (strip_suffix_Some crlf _ cmd)).
Qed.
Lemma silent what n : concat (inbound n) = [] -> stream_end n = Closed ->
  exists e n', read_line what [] n = (Err e, n') /\ peer n' = peer n.
Proof.
  intros Hi He. assert (forall segs, concat segs = [] -> take_line [] segs = Partial []) as H.
  { induction segs as [|s segs IH]; [done|]. cbn. intros [-> Hs]%app_eq_nil. by apply IH. }
  unfold read_line, get, mbind, M_bind. rewrite H, He by done. by eexists _, _.
Qed.
Inductive outcome {A : Type} (d : imapd) (s' : mailbox) (n' : net imapd) (good : A) : result AntieError A -> Prop :=
  | Carried_out : whims d = [] \/ head (whims d) = Some Obeys -> peer n' = Imapd s' (tail (whims d)) ->
      concat (inbound n') = [] -> outcome d s' n' good (Ok good)
  | Hung_up acted e : head (whims d) = Some (Hangs_up acted) -> peer n' = Imapd (if acted : bool then s' else held d) (tail (whims d)) ->
      outcome d s' n' good (Err e).
Lemma write_tagged tag cmd s' r e n : tag_of tag -> answer seqno refuses (held (peer n)) tag cmd = (s', r, e) ->
  concat (inbound n) = [] -> exists n', write_all (tag ++ $" " ++ cmd ++ crlf) $"IMAP" n = (Ok tt, n') /\
  ((whims (peer n) = [] \/ head (whims (peer n)) = Some Obeys) /\ peer n' = Imapd s' (tail (whims (peer n))) /\
     concat (inbound n') = r /\ stream_end n' = e \/
   exists acted, head (whims (peer n)) = Some (Hangs_up acted) /\
     peer n' = Imapd (if acted : bool then s' else held (peer n)) (tail (whims (peer n))) /\
     concat (inbound n') = [] /\ stream_end n' = Closed).
Proof.
  intros Ht Ha Hi. unfold write_all. cbn [on_write rfc3501]. rewrite on_line_tagged, Ha by done.
  destruct (whims (peer n)) as [|[|acted] ws]; eexists; (split; [reflexivity|]); cbn [peer inbound stream_end tail head];
    rewrite concat_app, Hi, concat_receive, ?Hseg; [left; auto..|right; by exists acted].
Qed.
Lemma command_outcome tag cmd us s' e n : tag_of tag -> Forall untagged us ->
  answer seqno refuses (held (peer n)) tag cmd = (s', reply tag us, e) -> concat (inbound n) = [] ->
  let '(r, n') := imap_command tag cmd n in outcome (peer n) s' n' (us ++ [tag ++ DONE]) r.
Proof.
  intros Ht Hus Ha Hi. destruct (write_tagged tag cmd s' _ e n Ht Ha Hi) as (n1 & E & H).
  unfold imap_command. unfold mbind at 1, M_bind at 1. rewrite E.
  unfold run_loop, get. unfold mbind at 1, M_bind at 1. unfold mbind, M_bind. cbn [length]. destruct H as [(Hw & Hp & Hr & _)|(acted & Hw & Hp & Hr & He)].
  - destruct (command_loop_ok tag us Ht Hus [] [] (S (0 + pending n1)) n1 Hr) as (segs & -> & Hs).
    { unfold pending. rewrite Hr. unfold reply. rewrite !length_app.
      assert (length us <= length (flat_map (fun l => l ++ crlf) us))%nat; [|destruct Ht as (t & -> & _); simpl; lia].
      clear. induction us as [|l us IH]; [done|]. cbn [flat_map length]. rewrite !length_app. simpl. lia. }
    by apply Carried_out.
  - destruct (silent $"IMAP" n1 Hr He) as (err & n2 & Es & Hp2). cbn [command_loop]. unfold mbind, M_bind. rewrite Es.
    apply Hung_up with acted; [done|by rewrite Hp2].
Qed.
(** A FETCH that is not answered. *)
Lemma fetch_unanswered tag u s' r e n n1 : write_all (tag ++ $" " ++ FETCH u ++ crlf) $"IMAP" n = (Ok tt, n1) ->
  answer seqno refuses (held (peer n)) tag (FETCH u) = (s', r, e) -> concat (inbound n1) = [] -> stream_end n1 = Closed ->
  exists err n2, fetch_message tag u n = (Err err, n2) /\ peer n2 = peer n1.
Proof.
  intros E Ha Hr He. unfold fetch_message. unfold mbind at 1, M_bind at 1.
  rewrite <- fetch_line, E. unfold run_loop, get. unfold mbind at 1, M_bind at 1. unfold mbind, M_bind. cbn [length fetch_loop].
  destruct (silent ($"IMAP FETCH uid=" ++ u) n1 Hr He) as (err & n2 & Es & Hp2). unfold mbind, M_bind. rewrite Es. by eexists _, _.
Qed.
(** What a FETCH gives: of a refused one, no data at all. *)
Definition got (u : N) (m : bytes) : bytes := if refuses u then [] else m.
Lemma fetch_refused tag u n : tag_of tag -> refuses u = true -> concat (inbound n) = [] ->
  let '(r, n') := fetch_message tag (show_N u) n in outcome (peer n) (held (peer n)) n' [] r.
Proof.
  intros Ht Hu Hi. pose proof (answer_fetch (held (peer n)) tag u) as Ha. rewrite Hu in Ha.
  destruct (write_tagged tag (FETCH (show_N u)) _ _ _ n Ht Ha Hi) as (n1 & E & [(Hw & Hp & Hr & _)|(acted & Hw & Hp & Hr & He)]).
  - unfold fetch_message. unfold mbind at 1, M_bind at 1. rewrite <- fetch_line, E.
    unfold run_loop, get. unfold mbind at 1, M_bind at 1. unfold mbind, M_bind. cbn [length].
    pose proof Ht as (t & Et & At & Nt & _).
    destruct (fetch_loop_step tag (show_N u) [] [] (0 + pending n1) n1 ((tag ++ REFUSAL) ++ [CR]) []) as (over & segs & Er & ->).
    + rewrite Hr. by rewrite <- !app_assoc.
    + rewrite !not_elem_of_app, Et, not_elem_of_app. repeat split; try done; by apply (bool_decide_unpack _).
    + apply is_ascii_utf8. by rewrite Et, !is_ascii_app, At.
    + rewrite <- (app_assoc _ [CR]). change ([CR] ++ [LF]) with crlf.
      rewrite (trim_crlf "A"%char "r"%char); [|by rewrite Et| |done|done].
      * rewrite starts_with_app. apply Carried_out; [done|done|]. by apply app_eq_nil in Er as [_ Er].
      * change REFUSAL with ($" NO try again late" ++ ["r"%char]). rewrite app_assoc. apply last_snoc.
  - destruct (fetch_unanswered tag (show_N u) _ _ _ n n1 E Ha Hr He) as (err & n2 & -> & Hp2).
    apply Hung_up with acted; [done|by rewrite Hp2].
Qed.
Lemma fetch_outcome tag u m n : tag_of tag -> refuses u = false -> box (held (peer n)) !! u = Some m -> Z.of_nat (length m) <= U64_MAX ->
  concat (inbound n) = [] ->
  let '(r, n') := fetch_message tag (show_N u) n in outcome (peer n) (held (peer n)) n' m r.
Proof.
  intros Ht Hu Hm Hl Hi. pose proof Ht as (t & Et & At & Nt & St).
  pose proof (answer_fetch (held (peer n)) tag u) as Ha. rewrite Hu, Hm in Ha. destruct (Z.leb_spec (Z.of_nat (length m)) U64_MAX); [|lia].
  destruct (decide (whims (peer n) = [] \/ head (whims (peer n)) = Some Obeys)) as [Hw|Hw].
  - assert (on_write (Peer := rfc3501 seqno seg refuses) (peer n) (tag ++ $" UID FETCH " ++ show_N u ++ $" BODY.PEEK[]" ++ crlf) =
      Ok (Imapd (held (peer n)) (tail (whims (peer n))), (seg (fetch_head (seqno u) u (N.of_nat (length m)) ++ crlf ++ m ++ $")" ++ crlf ++ tag ++ DONE ++ crlf), Waiting))) as Eo.
    { cbn [on_write rfc3501]. rewrite <- fetch_line, on_line_tagged, Ha by done.
      destruct (whims (peer n)) as [|[|acted] ws]; [done|done|]. destruct Hw; discriminate. }
    subst tag. destruct (fetch_literal_exact n t u (seqno u) m $" complet" "e"%char _ _ _ Hi Eo) as (n' & -> & Hp & Hq).
    + rewrite Hseg. cbn [app]. by rewrite <- ?app_assoc.
    + done.
    + by rewrite is_ascii_app, At.
    + apply not_elem_of_app. split; [done|by apply (bool_decide_unpack _)].
    + done.
    + by apply Carried_out.
  - destruct (write_tagged tag (FETCH (show_N u)) _ _ _ n Ht Ha Hi) as (n1 & E & [(Hw' & _)|(acted & Hw' & Hp & Hr & He)]); [done|].
    destruct (fetch_unanswered tag (show_N u) _ _ _ n n1 E Ha Hr He) as (err & n2 & -> & Hp2).
    apply Hung_up with acted; [done|by rewrite Hp2].
Qed.

(** ** A session: what it may do to the mailbox, and when it succeeds

    [ex] is what excuses a failure; a server that obeys gives none. *)
Abbreviation I A := (M (imap imapd) AntieError A).
Implicit Types w : imap imapd.
Definition srv w : imapd := peer (session w).
Definition quiet w : Prop := concat (inbound (session w)) = [].
Section spec.
Context (Rel : relation mailbox) `{!PreOrder Rel} (ex : Prop).
Definition excused w : Prop := ex \/ whims (srv w) = [].
Definition spec {A : Type} (m : I A) w (Q : A -> imap imapd -> Prop) : Prop :=
  let '(r, w') := m w in
  Rel (held (srv w)) (held (srv w')) /\ match r with Ok a => excused w' /\ Q a w' | Err _ => ex end.
Lemma spec_ret {A : Type} (a : A) w (Q : A -> imap imapd -> Prop) : excused w -> Q a w -> spec (mret a) w Q.
Proof. intros He HQ. split; [reflexivity|done]. Qed.
Lemma spec_bind {A B : Type} (m : I A) (f : A -> I B) w Q Q' :
  spec m w Q -> (forall a w', excused w' -> Q a w' -> spec (f a) w' Q') -> spec (m ≫= f) w Q'.
Proof.
  unfold spec, mbind, M_bind. intros H Hf. destruct (m w) as [[a|e] w']; [|done]. destruct H as [HR [He HQ]].
  specialize (Hf a w' He HQ). destruct (f a w') as [r w2]. destruct Hf as [HR2 H2]. split; [by etransitivity|done].
Qed.
Lemma spec_lift {A : Type} (r : result AntieError A) w : excused w -> (is_ok r = true \/ ex) -> spec (lift r) w (fun a w' => w' = w).
Proof. intros He Hr. split; [reflexivity|]. destruct r; [done|]. by destruct Hr. Qed.
Lemma spec_tag w : excused w -> spec next_tag w (fun tag w' => tag_of tag /\ session w' = session w).
Proof.
  intros He. split; [reflexivity|]. split; [done|]. split; [|done].
  assert (forall c, c = LF \/ c = " "%char -> c ∉ pad4 (show_Z (tag_counter w))) as H.
  { intros c Hc. unfold pad4. rewrite not_elem_of_app. split.
    - intros ->%list_elem_of_In%repeat_spec. by destruct Hc.
    - unfold show_Z. destruct (_ <? 0); [apply not_elem_of_cons; split; [by destruct Hc as [-> | ->]|]|];
        apply show_N_no; by destruct Hc as [-> | ->]. }
  eexists. split; [reflexivity|]. split; [|split; apply H; auto].
  unfold pad4. rewrite is_ascii_app. apply andb_true_iff. split.
  - apply forallb_forall. by intros x ->%repeat_spec.
  - unfold show_Z. destruct (_ <? 0); [change (is_ascii (show_N (Z.to_N (- tag_counter w))) = true)|]; apply is_ascii_show.
Qed.
Lemma spec_outcome {A : Type} (m : M (net imapd) AntieError A) w s' good Q :
  excused w -> (let '(r, n') := m (session w) in outcome (srv w) s' n' good r) -> Rel (held (srv w)) s' ->
  (forall w', quiet w' -> held (srv w') = s' -> Q good w') -> spec (on_session m) w Q.
Proof.
  intros He H HR HQ. unfold spec, on_session, zoom. destruct (m (session w)) as [r n'].
  destruct H as [Hw Hp Hi|acted e Hw Hp]; unfold srv at 2; cbn [set_session session]; rewrite Hp; cbn [held].
  - split; [done|]. split.
    + unfold excused, srv. cbn [set_session session]. rewrite Hp. cbn [whims]. destruct He as [He| ->]; auto.
    + apply HQ; [done|]. unfold srv. cbn. by rewrite Hp.
  - split; [by destruct acted|]. destruct He as [He|He]; [done|]. by rewrite He in Hw.
Qed.
Lemma spec_command tag cmd us s' e w Q : excused w -> quiet w -> tag_of tag -> Forall untagged us ->
  answer seqno refuses (held (srv w)) tag cmd = (s', reply tag us, e) -> Rel (held (srv w)) s' ->
  (forall w', quiet w' -> held (srv w') = s' -> Q (us ++ [tag ++ DONE]) w') ->
  spec (on_session (imap_command tag cmd)) w Q.
Proof. intros He Hq Ht Hus Ha HR HQ. eapply spec_outcome; [done|by eapply command_outcome|done|done]. Qed.
Lemma spec_tagged cmd us s' e w Q : excused w -> quiet w -> Forall untagged us ->
  (forall tag, answer seqno refuses (held (srv w)) tag cmd = (s', reply tag us, e)) -> Rel (held (srv w)) s' ->
  (forall tag w', tag_of tag -> quiet w' -> held (srv w') = s' -> Q (us ++ [tag ++ DONE]) w') ->
  spec (tagged_command cmd) w Q.
Proof.
  intros He Hq Hus Ha HR HQ. unfold tagged_command. eapply spec_bind; [by apply spec_tag|].
  intros tag w' He' [Ht Hs]. unfold quiet, srv in *. rewrite <- Hs in *. eapply spec_command; eauto.
Qed.
Lemma spec_fetch tag u m w Q : excused w -> quiet w -> tag_of tag -> box (held (srv w)) !! u = Some m ->
  (Z.of_nat (length m) <= U64_MAX \/ ex) -> (forall w', quiet w' -> held (srv w') = held (srv w) -> Q (got u m) w') ->
  spec (on_session (fetch_message tag (show_N u))) w Q.
Proof.
  intros He Hq Ht Hm Hl HQ. unfold got in HQ. destruct (refuses u) eqn:Hu.
  { eapply spec_outcome; [done|by apply fetch_refused|reflexivity|done]. }
  destruct (Z.leb_spec (Z.of_nat (length m)) U64_MAX) as [L|L].
  - eapply spec_outcome; [done|by eapply fetch_outcome|reflexivity|done].
  - destruct Hl as [Hl|Hex]; [lia|]. pose proof (answer_fetch (held (srv w)) tag u) as Ha. rewrite Hu, Hm in Ha.
    destruct (Z.leb_spec (Z.of_nat (length m)) U64_MAX); [lia|].
    destruct (write_tagged tag (FETCH (show_N u)) _ _ _ (session w) Ht Ha Hq) as (n1 & E & H').
    assert (concat (inbound n1) = [] /\ stream_end n1 = Closed /\ held (peer n1) = held (srv w)) as (Hr & Hc & Hp).
    { destruct H' as [(_ & Hp & Hr & Hc)|(acted & _ & Hp & Hr & Hc)]; rewrite Hp; [done|]. by destruct acted. }
    destruct (fetch_unanswered tag (show_N u) _ _ _ (session w) n1 E Ha Hr Hc) as (err & n2 & E2 & Hp2).
    unfold spec, on_session, zoom. rewrite E2. split; [|done]. unfold srv at 2. cbn [set_session session]. rewrite Hp2, Hp. reflexivity.
Qed.

(** Connecting and logging in. *)
Definition greeted w : Prop :=
  concat (inbound (session w)) = GREETING \/ (concat (inbound (session w)) = [] /\ stream_end (session w) = Closed /\ ex).
Lemma spec_connect w : excused w -> spec (on_session connect) w (fun _ w' => greeted w' /\ held (srv w') = held (srv w)).
Proof.
  intros He. unfold spec, on_session, zoom, connect. cbn [on_connect rfc3501]. unfold excused, greeted, srv in *.
  destruct (whims (peer (session w))) as [|[|acted] ws] eqn:Ew; cbn [session set_session peer held inbound stream_end whims tail];
    (split; [reflexivity|]); (split; [destruct He as [He|He]; [by left|first [by right|discriminate]]|]);
    (split; [|reflexivity]); rewrite concat_receive, ?Hseg.
  1,2: by left.
  right. split; [done|]. split; [done|]. by destruct He.
Qed.
Lemma spec_greeting w : excused w -> greeted w ->
  spec (on_session read_greeting) w (fun _ w' => quiet w' /\ held (srv w') = held (srv w)).
Proof.
  intros He [Hg|(Hi & Hc & Hex)]; unfold spec, on_session, zoom, read_greeting.
  - destruct (read_line_ok $"IMAP greeting" [] (session w) ($"* OK ready" ++ [CR]) []) as (over & segs & R & E);
      [by rewrite Hg|by apply (bool_decide_unpack _)|done|].
    unfold mbind, M_bind. rewrite R. change (contains $"OK" (($"* OK ready" ++ [CR]) ++ [LF])) with true. cbv iota.
    unfold excused, quiet, srv in *. cbn [mret M_ret session set_session peer with_inbound inbound]. split; [reflexivity|].
    split; [done|]. split; [|done]. by apply app_eq_nil in E as [_ E].
  - destruct (silent $"IMAP greeting" (session w) Hi Hc) as (e & n' & R & Hp). unfold mbind, M_bind. rewrite R.
    split; [|done]. unfold srv. cbn [session set_session]. rewrite Hp. reflexivity.
Qed.
Definition account_ok (c : ImapCarrier) : Prop :=
  is_ok (imap_quote (username c)) = true /\ is_ok (imap_quote (password c)) = true /\ is_ok (imap_quote (inbox_folder c)) = true.
Lemma exists_untagged k : untagged ($"* " ++ k ++ $" EXISTS") -> Forall untagged [$"* " ++ k ++ $" EXISTS"].
Proof. intros H. by constructor. Qed.
Lemma count_untagged k post : post ∈ [$" EXISTS"; $" EXPUNGE"] -> untagged ($"* " ++ show_N k ++ post).
Proof.
  intros Hp.
  assert (is_ascii post = true /\ LF ∉ post /\ exists x c, post = x ++ [c] /\ printable c = true) as (A & Np & x & c & -> & Pc).
  { rewrite !elem_of_cons in Hp. destruct Hp as [->|[->|[]%not_elem_of_nil]]; (split; [done|]); (split; [by apply (bool_decide_unpack _)|]).
    - by exists $" EXIST", "S"%char.
    - by exists $" EXPUNG", "E"%char. }
  apply untagged_text with c; [by rewrite is_ascii_app, is_ascii_show, A| | |done].
  - rewrite not_elem_of_app. split; [by apply show_N_no|done].
  - rewrite !app_assoc. apply last_snoc.
Qed.
Lemma spec_open c w : excused w -> greeted w -> (account_ok c \/ ex) ->
  spec (open_session c) w (fun _ w' => quiet w' /\ held (srv w') = held (srv w)).
Proof.
  intros He Hg Ha. unfold open_session.
  eapply spec_bind; [by apply spec_greeting|]. intros _ w1 He1 [Hq1 Hh1].
  eapply spec_bind; [by apply spec_tag|]. intros tag w2 He2 [Ht Hs2].
  eapply spec_bind; [apply spec_lift; [done|unfold account_ok in Ha; tauto]|]. intros u ? _ ->.
  eapply spec_bind; [apply spec_lift; [done|unfold account_ok in Ha; tauto]|]. intros pw ? _ ->.
  unfold quiet, srv in Hq1, Hh1. rewrite <- Hs2 in Hq1, Hh1.
  eapply spec_bind.
  { eapply (spec_command tag _ []) with (Q := fun _ w' => quiet w' /\ held (srv w') = held (srv w2));
      [done|done|done|constructor|reflexivity|reflexivity|auto]. }
  intros _ w3 He3 [Hq3 Hh3].
  eapply spec_bind; [by apply spec_tag|]. intros tag' w4 He4 [Ht' Hs4].
  eapply spec_bind; [apply spec_lift; [done|unfold account_ok in Ha; tauto]|]. intros f ? _ ->.
  unfold quiet, srv in Hq3, Hh3. rewrite <- Hs4 in Hq3, Hh3.
  eapply spec_bind.
  { eapply (spec_command tag' _ [_]) with (Q := fun _ w' => quiet w' /\ held (srv w') = held (srv w4));
      [done|done|done|apply exists_untagged, count_untagged; by left|reflexivity|reflexivity|auto]. }
  intros _ w5 He5 [Hq5 Hh5]. apply spec_ret; [done|]. split; [done|]. rewrite Hh5. unfold srv. by rewrite Hh3, Hh1.
Qed.
Lemma spec_attempt tag cmd us e w : excused w -> quiet w -> tag_of tag -> Forall untagged us ->
  answer seqno refuses (held (srv w)) tag cmd = (held (srv w), reply tag us, e) ->
  spec (attempt (E := AntieError) (on_session (imap_command tag cmd))) w (fun _ w' => held (srv w') = held (srv w)).
Proof.
  intros He Hq Ht Hus Ha. pose proof (command_outcome tag cmd us _ e (session w) Ht Hus Ha Hq) as H.
  unfold spec, attempt, on_session, zoom, excused, srv in *. destruct (imap_command tag cmd (session w)) as [r n'].
  destruct H as [Hw Hp Hi|acted err Hw Hp]; cbn [session set_session]; rewrite Hp; cbn [held whims].
  - split; [reflexivity|]. split; [|done]. destruct He as [He| ->]; auto.
  - split; [destruct acted; reflexivity|]. split; [|by destruct acted]. left. destruct He as [He|He]; [done|]. by rewrite He in Hw.
Qed.
Lemma spec_logout w : excused w -> quiet w -> spec logout w (fun _ w' => held (srv w') = held (srv w)).
Proof.
  intros He Hq. unfold logout. eapply spec_bind; [by apply spec_tag|]. intros tag w1 He1 [Ht Hs].
  unfold quiet in Hq. rewrite <- Hs in Hq.
  eapply spec_bind; [eapply (spec_attempt tag _ [_]); [done|done|done| |reflexivity]|].
  - constructor; [|done]. by apply (untagged_text "E"%char $"BYE"); [|apply (bool_decide_unpack _)|..].
  - intros x w2 He2 H2. apply spec_ret; [done|]. cbn in H2. rewrite H2. unfold srv. by rewrite Hs.
Qed.

(** ** Checking *)
Definition message (c : ImapCarrier) (kv : N * bytes) : IncomingMessage :=
  {| id := show_N kv.1; raw := got kv.1 kv.2; source := source_of c (show_N kv.1) |}.
(** The mailbox as a check gives it. *)
Definition mails (c : ImapCarrier) (s : mailbox) : list IncomingMessage := map (message c) (map_to_list (unseen s)).
Definition fits (s : mailbox) : Prop := forall u m, box s !! u = Some m -> Z.of_nat (length m) <= U64_MAX.
Lemma spec_fetch_all c kvs : forall acc w, excused w -> quiet w -> (fits (held (srv w)) \/ ex) ->
  Forall (fun kv => box (held (srv w)) !! kv.1 = Some kv.2) kvs ->
  spec (fetch_all c (map show_N (map fst kvs)) acc) w (fun ms w' => ms = acc ++ map (message c) kvs /\ quiet w' /\ held (srv w') = held (srv w)).
Proof.
  induction kvs as [|[u m] kvs IH]; intros acc w He Hq Hf Hk; cbn [map fetch_all].
  - apply spec_ret; [done|]. by rewrite app_nil_r.
  - apply Forall_cons_1 in Hk as [Hu Hk]. cbn [fst snd] in *.
    eapply spec_bind; [by apply spec_tag|]. intros tag w1 He1 [Ht Hs].
    assert (srv w1 = srv w) as Hs' by (unfold srv; by rewrite Hs). unfold quiet in Hq. rewrite <- Hs in Hq.
    eapply spec_bind.
    { eapply spec_fetch with (u := u) (m := m) (Q := fun a w' => a = got u m /\ quiet w' /\ held (srv w') = held (srv w));
        [done|done|done|by rewrite Hs'| |by rewrite Hs'].
      destruct Hf as [Hf|Hf]; [left; by apply (Hf u)|by right]. }
    intros ? w2 He2 (-> & Hq2 & Hh2). specialize (IH (acc ++ [message c (u, m)]) w2 He2 Hq2). rewrite Hh2 in IH.
    specialize (IH Hf Hk). unfold spec in *. cbn [message fst snd] in IH.
    destruct (fetch_all _ _ _ w2) as [r w3]. destruct IH as [HR IH]. rewrite <- app_assoc in IH. rewrite Hh2 in HR. by rewrite Hh2.
Qed.
Lemma spec_check c w : excused w -> (account_ok c /\ fits (held (srv w)) \/ ex) ->
  spec (check_new c) w (fun ms w' => ms = mails c (held (srv w)) /\ held (srv w') = held (srv w)).
Proof.
  intros He Ha. unfold check_new.
  eapply spec_bind; [by apply spec_connect|]. intros _ w1 He1 [Hg1 Hh1].
  eapply spec_bind; [apply (spec_open c w1); [done|done|tauto]|]. intros _ w2 He2 [Hq2 Hh2].
  eapply spec_bind.
  { eapply (spec_tagged _ [search_line (held (srv w2))]) with
      (Q := fun ls w' => uids_of ls = map show_N (map fst (map_to_list (unseen (held (srv w2))))) /\ quiet w' /\ held (srv w') = held (srv w2));
      [done|done|constructor; [apply search_untagged|done]|reflexivity|reflexivity|].
    intros tag w' Ht Hq Hh. split; [by apply uids_reply|done]. }
  intros ls w3 He3 (-> & Hq3 & Hh3).
  eapply spec_bind.
  { apply spec_fetch_all; [done|done|rewrite Hh3, Hh2, Hh1; tauto|].
    apply Forall_forall. intros [u m] Hin. rewrite Hh3. apply elem_of_map_to_list in Hin. by apply map_lookup_filter_Some in Hin as [? _]. }
  intros ms w4 He4 (-> & Hq4 & Hh4).
  eapply spec_bind; [by apply spec_logout|]. intros x w5 He5 Hh5. cbn in Hh5. apply spec_ret; [done|].
  rewrite Hh5, Hh4, Hh3, Hh2, Hh1. split; [|done]. done.
Qed.

(** ** Deleting *)
Definition expunged (s : mailbox) : mailbox := {| box := kept s; flagged := ∅; seen := seen s |}.
Lemma answer_expunge s : exists us, Forall untagged us /\
  forall tag, answer seqno refuses s tag $"EXPUNGE" = (expunged s, reply tag us, Waiting).
Proof.
  eexists. split; [|intros tag; reflexivity]. apply Forall_forall. intros l (u & <- & _)%list_elem_of_In%in_map_iff.
  apply count_untagged. right. by left.
Qed.
Lemma spec_mark c u w (s := held (srv w)) : excused w -> (account_ok c \/ ex) ->
  Rel s (flag u s) -> Rel (flag u s) (expunged (flag u s)) ->
  spec (mark_processed c (show_N u)) w (fun _ w' => held (srv w') = expunged (flag u s)).
Proof.
  intros He Ha R1 R2. unfold mark_processed.
  eapply spec_bind; [by apply spec_connect|]. intros _ w1 He1 [Hg1 Hh1].
  eapply spec_bind; [by apply (spec_open c w1)|]. intros _ w2 He2 [Hq2 Hh2].
  assert (held (srv w2) = s) as E2 by (by rewrite Hh2, Hh1).
  eapply spec_bind.
  { eapply (spec_tagged (STORE (show_N u)) []) with (Q := fun _ w' => quiet w' /\ held (srv w') = flag u s);
      [done|done|constructor| |by rewrite E2|by auto].
    intros tag. rewrite answer_store. unfold STORE. by rewrite uid_show, E2. }
  intros _ w3 He3 [Hq3 Hh3]. destruct (answer_expunge (flag u s)) as (us & Hus & Hx).
  eapply spec_bind.
  { eapply spec_tagged with (us := us) (Q := fun _ w' => quiet w' /\ held (srv w') = expunged (flag u s));
      [done|done|done|intros tag; rewrite Hh3; apply Hx|by rewrite Hh3|by auto]. }
  intros _ w4 He4 [Hq4 Hh4]. unfold spec. pose proof (spec_logout w4 He4 Hq4) as H. unfold spec in H.
  destruct (logout w4) as [[[]|e] w5]; [|done]. destruct H as (HR & He5 & H5). by rewrite H5, Hh4.
Qed.
End spec.

(** ** What a check gives, and what a deletion deletes *)
#[local] Instance anything_pre : PreOrder (fun _ _ : mailbox => True).
Proof. by split. Qed.
Lemma expunged_flag u s : expunged (flag u s) = {| box := delete u (kept s); flagged := ∅; seen := seen s |}.
Proof.
  unfold expunged. f_equal. apply map_eq. intros v. unfold kept. apply option_eq. intros m.
  rewrite map_lookup_filter_Some, lookup_delete_Some, map_lookup_filter_Some. unfold flag. cbn [box flagged fst].
  destruct (decide (u ∈ dom (box s))) as [Hu|Hu].
  - rewrite not_elem_of_union, not_elem_of_singleton. naive_solver.
  - split; [|tauto]. intros [Hv Hf]. split; [|done]. intros ->. apply Hu. by apply elem_of_dom.
Qed.
Lemma check_run c w (s := held (srv w)) : let '(r, w') := check_new c w in
  held (srv w') = s /\ match r with Ok ms => ms = mails c s | Err _ => True end.
Proof.
  pose proof (spec_check eq True c w ltac:(by left) ltac:(by right)) as H. unfold spec in H.
  destruct (check_new c w) as [[ms|e] w']; [|by destruct H]. by destruct H as (_ & _ & -> & ->).
Qed.
(** C28: An IMAP check reads the unseen mail of the mailbox exactly, and a deletion
    removes its message and whatever was already marked as deleted, nothing else.
    Against a server of RFC 3501 that obeys (it neither hangs up nor refuses a
    FETCH; a refused one loses mail, C38), however it cuts its replies and whatever
    the messages hold - tags and literals included -, a check returns every message
    that is not \Seen under its unique id, byte for byte, and leaves the mailbox as
    it was; the deletion of an id expunges the mailbox: that message goes, and so
    does every message some client had flagged \Deleted before. *)
Theorem imap_refines_mailbox c w (s := held (srv w)) :
  account_ok c -> fits s -> whims (srv w) = [] -> (forall u, refuses u = false) ->
  (exists w', check_new c w = (Ok (map (fun '(u, m) => {| id := show_N u; raw := m; source := source_of c (show_N u) |})
     (map_to_list (unseen s))), w') /\ held (srv w') = s) /\
  forall u, exists w', mark_processed c (show_N u) w = (Ok tt, w') /\
    held (srv w') = {| box := delete u (kept s); flagged := ∅; seen := seen s |}.
Proof.
  intros Hc Hf Hw Hr. split.
  - pose proof (spec_check eq False c w ltac:(by right) ltac:(by left)) as H. unfold spec in H.
    destruct (check_new c w) as [[ms|e] w']; [|tauto]. destruct H as (_ & _ & -> & Hh). exists w'. split; [|done]. do 2 f_equal.
    apply list_fmap_ext. intros i [u m] _. unfold message, got. cbn. by rewrite Hr.
  - intros u. pose proof (spec_mark (fun _ _ => True) False c u w ltac:(by right) ltac:(by left) Logic.I Logic.I) as H. unfold spec in H.
    destruct (mark_processed c (show_N u) w) as [[[]|e] w']; [|tauto]. destruct H as (_ & _ & Hh). exists w'.
    split; [done|]. by rewrite Hh, expunged_flag.
Qed.

(** ** The promise to the funnel *)
Definition full_of w : gmap bytes bytes := kmap show_N (box (held (srv w))).
Definition mail_of w : gmap bytes bytes := kmap show_N (kept (held (srv w))).
Definition spares (u : N) (s s' : mailbox) : Prop :=
  box s' ⊆ box s /\ forall v m, v <> u -> kept s !! v = Some m -> kept s' !! v = Some m.
#[local] Instance spares_pre u : PreOrder (spares u).
Proof. split; [by split|]. intros s1 s2 s3 [H1 H2] [H3 H4]. split; [by etransitivity|auto]. Qed.
Lemma mark_spares c u w : spares u (held (srv w)) (held (srv (mark_processed c (show_N u) w).2)).
Proof.
  set (s := held (srv w)).
  assert (forall t v m, kept t !! v = Some m <-> box t !! v = Some m /\ v ∉ flagged t) as K
    by (intros t v m; apply map_lookup_filter_Some).
  pose proof (spec_mark (spares u) True c u w ltac:(by left) ltac:(by right)) as H. unfold spec in H. fold s in H.
  destruct (mark_processed c (show_N u) w) as [r w']. apply H.
  - split; [done|]. intros v m N. rewrite !K. unfold flag. cbn. case_decide; [|done]. set_solver.
  - split; [apply map_filter_subseteq|]. intros v m N [Hb Hf]%K. apply K. split; [by apply K|apply not_elem_of_empty].
Qed.
Lemma kmap_mono (a b : gmap N bytes) : a ⊆ b -> kmap (M2 := gmap bytes) show_N a ⊆ kmap show_N b.
Proof.
  intros H. apply map_subseteq_spec. intros i x (u & -> & Hu)%lookup_kmap_Some; [|apply _].
  rewrite lookup_kmap by apply _. by eapply lookup_weaken.
Qed.
Lemma imap_leaves_mail c : (forall u, refuses u = false) -> AtLeastOnce.LeavesMail (Imap.carrier c) full_of mail_of.
Proof.
  intros Hr. split.
  - intros w. apply kmap_mono, map_filter_subseteq.
  - intros w. pose proof (check_run c w) as H. cbn [Imap.carrier Carriers.check_new]. unfold full_of, mail_of. destruct (check_new c w) as [r w']. destruct H as [E _]. cbn [snd]. by rewrite E.
  - intros w msgs w' E. cbn in E. pose proof (check_run c w) as H. rewrite E in H. destruct H as [_ ->].
    apply Forall_forall. intros m ([u b] & -> & Hin%elem_of_map_to_list)%list_elem_of_fmap. cbn [message id raw fst snd].
    apply map_lookup_filter_Some in Hin as [Hin _].
    unfold got, full_of. rewrite Hr, lookup_kmap by apply _. done.
  - intros i w j m (v & b & (u & -> & _)%lookup_kmap_Some) (k & -> & Hk)%lookup_kmap_Some; [|apply _..].
    destruct (decide (k = u)) as [->|N]; [by right|left]. unfold mail_of. rewrite lookup_kmap by apply _.
    by apply (mark_spares c u w).
  - intros i w (v & b & (u & -> & _)%lookup_kmap_Some); [|apply _]. apply kmap_mono, mark_spares.
  - done.
Qed.

(** ** A refused FETCH *)
(** C38: A message the server refuses to hand out is lost.  The reader of a FETCH
    takes any completion of its tag for success, so when the server answers NO -
    a temporary failure, say - the message is taken to be empty: an empty file is
    staged, the message is deleted on the server, and the pull reports success. *)
Theorem refused_fetch_loses_mail c u m sn p spam hb env (f : Pull.funnel (imap imapd)) :
  refuses u = true -> u ∉ sn -> account_ok c -> Z.of_nat (length m) <= U64_MAX -> whims (srv (Pull.far f)) = [] ->
  held (srv (Pull.far f)) = {| box := {[u := m]}; flagged := ∅; seen := sn |} -> spam [] = false ->
  AtLeastOnce.fresh_names env -> is_ok (AtLeastOnce.stage p env 0 [] (Pull.disk f)).1 = true ->
  let '(r, f') := Pull.deliver_carrier_messages (Imap.carrier c) (SinkTheorems.maildir_at p) spam hb env f in
  r = Ok true /\ box (held (srv (Pull.far f'))) = ∅ /\ fs (Pull.disk f') !! AtLeastOnce.staged_at p env 0 = Some (File []).
Proof.
  intros Hu Hsn Hc Hm Hw Hh Hs Hfresh Hok.
  assert (fits (held (srv (Pull.far f)))) as Hf.
  { rewrite Hh. intros v x. cbn. by intros [-> ->]%lookup_singleton_Some. }
  pose proof (spec_check eq False c (Pull.far f) ltac:(by right) ltac:(by left)) as H. unfold spec in H.
  destruct (check_new c (Pull.far f)) as [[ms|e] y] eqn:Ec; [|tauto]. destruct H as (_ & [[]|Hwy] & -> & Hhy).
  assert (mails c (held (srv (Pull.far f))) = [message c (u, m)]) as Em by (rewrite Hh; unfold mails, unseen; cbn [box seen]; rewrite map_filter_singleton_True by done; by rewrite map_to_list_singleton).
  rewrite Em in Ec. unfold Pull.deliver_carrier_messages, attempt, Pull.on_far, zoom. unfold mbind at 1, M_bind at 1.
  cbn [Imap.carrier Carriers.check_new]. rewrite Ec. cbn [Pull.deliver_each]. unfold mbind, M_bind.
  set (w1 := Pull.Funnel (Pull.disk f) y (Pull.stats f)). pose proof (AtLeastOnce.deliver_one_run (Imap.carrier c) p spam hb env 0 (message c (u, m)) w1) as R.
  assert (raw (message c (u, m)) = []) as Er by (unfold message, got; cbn; by rewrite Hu). cbv zeta in R. rewrite Er, Hs in R.
  pose proof (AtLeastOnce.stage_staged p env 0 [] (Pull.disk f) Hfresh) as St. change (Pull.disk w1) with (Pull.disk f) in R.
  destruct (AtLeastOnce.stage p env 0 [] (Pull.disk f)) as [rs d]. cbn [fst] in Hok. destruct rs as [nm|e]; [|done].
  destruct St as [_ St]. specialize (St eq_refl).
  pose proof (AtLeastOnce.deliver_one_done (Imap.carrier c) p spam hb env 0 (message c (u, m)) w1) as E.
  destruct (Pull.deliver_one _ _ _ _ _ _ w1) as [rd f']. cbn [fst] in E. subst rd. cbn [snd] in R.
  destruct R as [Rd Rf]. split; [done|]. rewrite Rd. split; [|done]. rewrite Rf.
  pose proof (spec_mark (fun _ _ => True) False c u y ltac:(by right) ltac:(by left) Logic.I Logic.I) as H. unfold spec in H.
  cbn [Imap.carrier Carriers.mark_processed Pull.far w1 message id fst].
  destruct (mark_processed c (show_N u) y) as [[[]|e] w']; [|tauto]. destruct H as (_ & _ & Hh'). cbn [snd].
  rewrite Hh', Hhy, Hh, expunged_flag. cbn [box]. apply map_eq. intros v. rewrite lookup_empty. apply eq_None_ne_Some_2. intros x.
  unfold kept. cbn [box flagged].
  rewrite lookup_delete_Some, map_lookup_filter_Some, lookup_singleton_Some. naive_solver.
Qed.
End client.

(** ** Two messages, one of them made to look like a reply *)
Definition ex_account : ImapCarrier := {|
  server := $"imap.example.org"; port := 993; username := $"alpha"; password := $"p\w"; use_tls := true; inbox_folder := $"INBOX" |}.
Definition ex_cut (b : bytes) : list bytes := [take 9 b; drop 9 b].
Lemma ex_cut_ok b : concat (ex_cut b) = b.
Proof. unfold ex_cut. cbn [concat]. rewrite app_nil_r. apply take_drop. Qed.
Definition ex_tricky : bytes := $"A0004 OK" ++ crlf ++ $"* 1 FETCH {5}" ++ crlf.
Definition ex_box : gmap N bytes := {[ 3%N := $"Subject: AXIOM/query/r1" ++ crlf ++ crlf; 7%N := ex_tricky ]}.
Definition ex_imap (b : gmap N bytes) : imap imapd :=
  Imap 1 (Net (Imapd {| box := b; flagged := ∅; seen := ∅ |} []) [] Waiting 0).
Lemma ex_account_ok : account_ok (EC := ex_errors) ex_account.
Proof. by split. Qed.
Lemma ex_fits : fits {| box := ex_box; flagged := ∅; seen := ∅ |}.
Proof.
  intros u m. cbn [box]. unfold ex_box. rewrite lookup_insert_Some, lookup_singleton_Some.
  intros [[_ <-]|[_ [_ <-]]]; vm_compute; discriminate.
Qed.
Lemma imap_refines_mailbox_witness :
  exists w1 w2, check_new (EC := ex_errors) (PP := rfc3501 (fun u => u) ex_cut (fun _ => false)) ex_account (ex_imap ex_box) =
      (Ok [ {| id := $"7"; raw := ex_tricky; source := source_of ex_account $"7" |};
            {| id := $"3"; raw := $"Subject: AXIOM/query/r1" ++ crlf ++ crlf; source := source_of ex_account $"3" |} ], w1) /\
    mark_processed (EC := ex_errors) (PP := rfc3501 (fun u => u) ex_cut (fun _ => false)) ex_account $"7" (ex_imap ex_box) = (Ok tt, w2) /\
    box (held (srv w2)) = delete 7%N ex_box.
Proof.
  destruct (imap_refines_mailbox (EC := ex_errors) (fun u => u) ex_cut (fun _ => false) ex_cut_ok ex_account (ex_imap ex_box)
    ex_account_ok ex_fits eq_refl (fun _ => eq_refl)) as [(w1 & E1 & _) H].
  destruct (H 7%N) as (w2 & E2 & Hb). exists w1, w2. split; [exact E1|]. split; [exact E2|]. rewrite Hb. vm_compute. reflexivity.
Defined.
Definition ex_disk : world :=
  {| fs := <[[$"in"; $"new"] := Dir]> (<[[$"in"; $"tmp"] := Dir]> ∅); oracle := []; hist := []; listing := fun l => l |}.
Lemma refused_fetch_loses_mail_witness :
  let f := Pull.Funnel ex_disk (ex_imap {[ 7%N := $"PDATA" ]}) (Stats.stats_new 5) in
  let '(r, f') := Pull.deliver_carrier_messages (Imap.carrier (EC := ex_errors) (PP := rfc3501 (fun u => u) ex_cut (fun u => (u =? 7)%N)) ex_account)
    (SinkTheorems.maildir_at [$"in"]) (fun _ => false) None AtLeastOnce.ex_env f in
  r = Ok true /\ box (held (srv (Pull.far f'))) = ∅ /\
  fs (Pull.disk f') !! AtLeastOnce.staged_at [$"in"] AtLeastOnce.ex_env 0 = Some (File []).
Proof.
  intros f. apply (refused_fetch_loses_mail (EC := ex_errors) (fun u => u) ex_cut (fun u => (u =? 7)%N) ex_cut_ok ex_account 7 $"PDATA" ∅).
  - reflexivity.
  - apply not_elem_of_empty.
  - apply ex_account_ok.
  - vm_compute. discriminate.
  - reflexivity.
  - reflexivity.
  - reflexivity.
  - apply AtLeastOnce.ex_env_fresh.
  - vm_compute. reflexivity.
Defined.
End ImapSessions.
