(* ===== verification/Lambda.v ===== *)
(** * The Lambda client: [lambda_client.rs]

    Lambda is the other side of a stream: [LambdaHost] says what a connect, a
    write, a spawned process and a wait give.  A stream holds what arrived and was
    not read yet, in the pieces successive reads return.  A read without a time
    limit that finds nothing more is [Hung]. *)
From S2P Require Import Prelude Fs Errors CoreTypes.
Import Errors Core.

(** ** Streams *)
Inductive stream_end : Type := Waiting | Closed | Broken (e : io_error).
Inductive channel : Type := Plain | Tls | Stdio (pid : N).
Inductive dialled (H : Type) : Type :=
  | Reached (h : H) | Refused (e : bytes) (h : H) | Unanswered (h : H).
Arguments Reached {H}.
Arguments Refused {H}.
Arguments Unanswered {H}.
(** What a write makes the other side answer, if it can be written at all. *)
Inductive wrote (H : Type) : Type :=
  | Wrote (h : H) (answer : list bytes) (e : stream_end)
  | WriteFailed (e : io_error) (h : H)
  | Stuck (h : H).
Arguments Wrote {H}.
Arguments WriteFailed {H}.
Arguments Stuck {H}.
Inductive waited : Type := Exit (status : Z) | Running | WaitFailed.

Class LambdaHost (H : Type) : Type := {
    dial : H -> bytes -> dialled H;
    handshake : H -> bytes -> dialled H;
    put : H -> channel -> bytes -> wrote H;
    spawn : H -> path -> path -> path -> result bytes N * H;  (* binary, config, stderr *)
    try_wait : H -> N -> waited * H;
    kill : H -> N -> H;
}.

(** [rustls] as far as a client is set up. *)
Class Rustls : Type := {
    Cert : Type;
    pem_certs : bytes -> list (result bytes Cert);
    root_refused : Cert -> option bytes;
    server_name_of : bytes -> result bytes bytes;
}.

Module Ipc.

Record pipe (H : Type) : Type := Pipe {
  host : H; way : channel; arrived : list bytes; ending : stream_end }.
Arguments Pipe {H}.
Arguments host {H}.
Arguments way {H}.
Arguments arrived {H}.
Arguments ending {H}.

(** [u32::to_be_bytes], [u32::from_be_bytes] *)
Definition be32 (n : Z) : bytes :=
  map (fun k => ch (Z.to_N (Z.shiftr n k mod 256))) [24; 16; 8; 0].
Definition of_be (b : bytes) : Z := foldl (fun acc x => acc * 256 + Z.of_N (code x)) 0 b.
Definition MAX_FRAME : Z := 10 * 1024 * 1024.

(** What a read of at most [n] bytes leaves of a piece. *)
Definition left_of (n : nat) (s : bytes) (segs : list bytes) : list bytes :=
  match drop n s with [] => segs | r => r :: segs end.
(** [read_exact] on the stream itself: never more than it wants. *)
Fixpoint take_direct (want : N) (segs : list bytes) : option (bytes * list bytes) :=
  if (want =? 0)%N then Some ([], segs)
  else match segs with
       | [] => None
       | s :: segs' =>
           if (want <=? N.of_nat (length s))%N
           then Some (take (N.to_nat want) s, left_of (N.to_nat want) s segs')
           else match take_direct (want - N.of_nat (length s)) segs' with
                | Some (b, r) => Some (s ++ b, r)
                | None => None
                end
       end.
(** [read_exact] on a [BufReader] holding [buf]: it fills its 8 KiB, unless it
    is empty and at least as much is wanted, when it reads through. *)
Definition BUF : nat := 8192.
Fixpoint take_buffered (want : N) (buf : bytes) (segs : list bytes) : option (bytes * bytes * list bytes) :=
  if (want <=? N.of_nat (length buf))%N
  then Some (take (N.to_nat want) buf, drop (N.to_nat want) buf, segs)
  else
    let want' := (want - N.of_nat (length buf))%N in
    match segs with
    | [] => None
    | s :: segs' =>
        if (N.of_nat BUF <=? want')%N then
          if (want' <=? N.of_nat (length s))%N
          then Some (buf ++ take (N.to_nat want') s, [], left_of (N.to_nat want') s segs')
          else match take_buffered (want' - N.of_nat (length s)) [] segs' with
               | Some (b, over, r) => Some (buf ++ s ++ b, over, r)
               | None => None
               end
        else if (want' <=? N.of_nat (length (take BUF s)))%N
        then Some (buf ++ take (N.to_nat want') s, drop (N.to_nat want') (take BUF s), left_of BUF s segs')
        else match take_buffered want' s segs' with
             | Some (b, over, r) => Some (buf ++ b, over, r)
             | None => None
             end
    end.

Section ipc.
Context `{EC : ErrorsCrate} {H : Type} `{LH : LambdaHost H}.
Abbreviation P A := (M (pipe H) fault A).

(** ** Writing *)
Definition write_all (b : bytes) : P unit := fun p =>
  match put (host p) (way p) b with
  | Wrote h answer e => (Ok tt, Pipe h (way p) (arrived p ++ answer) e)
  | WriteFailed e h => (Err (Failed (IoError e)), Pipe h (way p) (arrived p) (ending p))
  | Stuck h => (Err Hung, Pipe h (way p) (arrived p) (ending p))
  end.
(** The length, then the payload. *)
Definition write_frame (b : bytes) : P unit :=
  _ ← write_all (be32 (wrap 32 (Z.of_nat (length b))));
  write_all b.

(** ** Reading: why a frame does not arrive *)
Inductive stop : Type := Starved (e : stream_end) | TooLarge.
Abbreviation R A := (M (pipe H) stop A).
Definition with_arrived (segs : list bytes) (p : pipe H) : pipe H :=
  Pipe (host p) (way p) segs (ending p).
Definition starve {A : Type} : R A :=
  p ← get; _ ← modify (with_arrived []); throw (Starved (ending p)).

Definition read_exact (want : N) : R bytes :=
  p ← get;
  match take_direct want (arrived p) with
  | Some (b, segs) => _ ← modify (with_arrived segs); mret b
  | None => starve
  end.
Definition read_direct (capped : bool) : R bytes :=
  len_buf ← read_exact 4;
  if capped && (MAX_FRAME <? of_be len_buf) then throw TooLarge
  else read_exact (Z.to_N (of_be len_buf)).

Definition fill_exact (want : N) (buf : bytes) : R (bytes * bytes) :=
  p ← get;
  match take_buffered want buf (arrived p) with
  | Some (b, over, segs) => _ ← modify (with_arrived segs); mret (b, over)
  | None => starve
  end.
(** A reader made for one frame: what it holds beyond the frame goes with it. *)
Definition read_buffered (capped : bool) : R bytes :=
  '(len_buf, over) ← fill_exact 4 [];
  if capped && (MAX_FRAME <? of_be len_buf) then throw TooLarge
  else '(b, _) ← fill_exact (Z.to_N (of_be len_buf)) over; mret b.

(** ** The callers' errors *)
Definition EARLY_EOF : io_error := IoErr UnexpectedEof $"early eof".
Definition TOO_LARGE : bytes := $"Response too large".
Definition untimed (s : stop) : fault :=
  match s with
  | Starved Waiting => Hung
  | Starved Closed => Failed (IoError EARLY_EOF)
  | Starved (Broken e) => Failed (IoError e)
  | TooLarge => Failed (LambdaError TOO_LARGE)
  end.
Definition RESPONSE_TIMEOUT : bytes :=
  $"Lambda subprocess response timeout (300s) — pipe state now                          suspect, restart this validator pair".
(** Within 300 seconds, as raw requests to the child wait. *)
Definition timed (s : stop) : fault :=
  match s with
  | Starved Waiting => Failed (LambdaError RESPONSE_TIMEOUT)
  | Starved Closed => Failed (LambdaError ($"Subprocess read error: " ++ io_msg EARLY_EOF))
  | Starved (Broken e) => Failed (LambdaError ($"Subprocess read error: " ++ io_msg e))
  | TooLarge => Failed (LambdaError ($"Subprocess read error: " ++ TOO_LARGE))
  end.
End ipc.
End Ipc.

(** ** The client *)
Module Client.
Import Ipc.

(** Both TLS parts are present or both absent; [roots]: the trusted
    certificates of the connector. *)
Inductive LambdaMode `{Rustls} : Type :=
  | Tcp (address : bytes) (timeout_secs : Z) (tls : option (list Cert * bytes))
  | Subprocess (binary_path config_path : path).
Inductive LambdaConnectionMode : Type :=
  | TcpMode (address : bytes) (timeout_secs : Z)
  | SubprocessMode (binary_path config_path : path).

Record Child : Type := { pid : N; out : list bytes; out_end : stream_end }.
(** What the client's fields hold, and the world outside. *)
Record lam (H : Type) : Type := Lam {
  outside : H; child : option Child; lambda_alive : bool; shutting_down : bool;
  carrier_uris : option (list bytes) }.
Arguments Lam {H}.
Arguments outside {H}.
Arguments child {H}.
Arguments lambda_alive {H}.
Arguments shutting_down {H}.
Arguments carrier_uris {H}.
Definition with_outside {H : Type} (h : H) (l : lam H) : lam H :=
  Lam h (child l) (lambda_alive l) (shutting_down l) (carrier_uris l).
Definition with_child {H : Type} (c : option Child) (l : lam H) : lam H :=
  Lam (outside l) c (lambda_alive l) (shutting_down l) (carrier_uris l).
Definition with_alive {H : Type} (b : bool) (l : lam H) : lam H :=
  Lam (outside l) (child l) b (shutting_down l) (carrier_uris l).
Definition with_shutting_down {H : Type} (b : bool) (l : lam H) : lam H :=
  Lam (outside l) (child l) (lambda_alive l) b (carrier_uris l).
Definition with_carriers {H : Type} (u : option (list bytes)) (l : lam H) : lam H :=
  Lam (outside l) (child l) (lambda_alive l) (shutting_down l) u.

Section construction.
Context `{EC : ErrorsCrate} `{RU : Rustls}.
(** Every mode starts believed alive, without a child. *)
Definition with_mode {H : Type} (h : H) : lam H := Lam h None true false None.
Definition new_tcp (address : bytes) (timeout_secs : Z) : LambdaMode := Tcp address timeout_secs None.
Definition new_subprocess (binary_path config_path : path) : LambdaMode := Subprocess binary_path config_path.
Fixpoint load_roots (certs : list (result bytes Cert)) : result AntieError (list Cert) :=
  match certs with
  | [] => Ok []
  | Err e :: _ => Err (ConfigError ($"TLS CA parse: " ++ e))
  | Ok c :: certs' =>
      match root_refused c with
      | Some e => Err (ConfigError ($"TLS CA add: " ++ e))
      | None => cs ← load_roots certs'; Ok (c :: cs)
      end
  end.
(** [shown]: the CA path as given. *)
Definition new_tcp_tls (address : bytes) (timeout_secs : Z) (server_name : bytes)
    (ca_cert_path : option (bytes * path)) : M world AntieError LambdaMode :=
  roots ← match ca_cert_path with
          | None => mret []
          | Some (shown, p) =>
              content ← with_err (fun e => ConfigError ($"TLS CA cert " ++ shown ++ $": " ++ io_msg e)) (read_file p);
              lift (load_roots (pem_certs content))
          end;
  sni ← lift (map_err (fun e => ConfigError ($"TLS server name '" ++ server_name ++ $"': " ++ e))
                (server_name_of server_name));
  mret (Tcp address timeout_secs (Some (roots, sni))).
Definition from_config (m : LambdaConnectionMode) : LambdaMode :=
  match m with
  | TcpMode address timeout_secs => new_tcp address timeout_secs
  | SubprocessMode binary_path config_path => new_subprocess binary_path config_path
  end.
End construction.

Section client.
Context `{EC : ErrorsCrate} `{CV : CoreValues} `{CF : !CoreFns} `{RU : Rustls} {H : Type} `{LH : LambdaHost H}.
Abbreviation L A := (M (lam H) fault A).
Abbreviation P A := (M (pipe H) fault A).

Definition fail {A : Type} (t : bytes) : L A := throw (Failed (LambdaError t)).
Definition encode_error (e : bytes) : AntieError := LambdaError ($"CBOR encode error: " ++ e).
Definition ipc_encode (v : GatewayRequest) : result AntieError bytes := map_err encode_error (encode_request v).
Definition ipc_decode (data : bytes) : result AntieError GatewayResponse :=
  map_err (fun e => LambdaError ($"CBOR decode error: " ++ e)) (decode_response data).
Definition lift_antie {W A : Type} (r : result AntieError A) : M W fault A := lift (map_err Failed r).

(** *** Connections *)
Definition connect_timed (address : bytes) : L unit := fun l =>
  match dial (outside l) address with
  | Reached h => (Ok tt, with_outside h l)
  | Refused e h => (Err (Failed (LambdaError ($"Connect failed: " ++ e))), with_outside h l)
  | Unanswered h => (Err (Failed (LambdaError $"Connection timeout")), with_outside h l)
  end.
Definition connect_untimed (address : bytes) : L unit := fun l =>
  match dial (outside l) address with
  | Reached h => (Ok tt, with_outside h l)
  | Refused e h => (Err (Failed (LambdaError ($"Connect failed: " ++ e))), with_outside h l)
  | Unanswered h => (Err Hung, with_outside h l)
  end.
Definition tls_connect (sni : bytes) : L unit := fun l =>
  match handshake (outside l) sni with
  | Reached h => (Ok tt, with_outside h l)
  | Refused e h => (Err (Failed (LambdaError ($"TLS handshake: " ++ e))), with_outside h l)
  | Unanswered h => (Err Hung, with_outside h l)
  end.
(** A conversation over a fresh connection, dropped at its end. *)
Definition over {A : Type} (w : channel) (m : P A) : L A := fun l =>
  let '(r, p) := m (Pipe (outside l) w [] Waiting) in (r, with_outside (host p) l).
(** A conversation with the child, under its lock. *)
Definition on_child {A : Type} (m : P A) : L A := fun l =>
  match child l with
  | None => (Err (Failed (LambdaError $"Lambda subprocess not running")), l)
  | Some c =>
      let '(r, p) := m (Pipe (outside l) (Stdio (pid c)) (out c) (out_end c)) in
      (r, with_outside (host p) (with_child (Some {| pid := pid c; out := arrived p; out_end := ending p |}) l))
  end.

(** *** Raw requests *)
Definition raw_tcp (ipc_buf : bytes) : P bytes :=
  _ ← write_frame ipc_buf; with_err untimed (read_direct true).
Definition raw_stdio (ipc_buf : bytes) : P bytes :=
  _ ← write_frame ipc_buf; with_err timed (read_direct true).
Definition send_raw_request (m : LambdaMode) (request : GatewayRequest) : L bytes :=
  ipc_buf ← lift_antie (ipc_encode request);
  match m with
  | Tcp address _ _ => _ ← connect_timed address; over Plain (raw_tcp ipc_buf)
  | Subprocess _ _ => on_child (raw_stdio ipc_buf)
  end.
Definition raw_response (m : LambdaMode) (request : GatewayRequest) : L GatewayResponse :=
  response_bytes ← send_raw_request m request; lift_antie (ipc_decode response_bytes).
Definition unexpected {A : Type} (t : bytes) : result AntieError A := Err (LambdaError t).

(** Remembered even when the push fails. *)
Definition send_set_carriers_request (m : LambdaMode) (request_id : bytes) (carriers : list bytes) : L Z :=
  _ ← modify (with_carriers (Some carriers));
  response ← raw_response m (SetCarriers request_id carriers);
  lift_antie (match response with
              | SetCarriersAck accepted => Ok accepted
              | Error er => Err (LambdaRejected er)
              | _ => unexpected $"Unexpected response type for set_carriers"
              end).
Definition send_vbc_sign_request (m : LambdaMode) (payload : VBCSignRequestPayload) : L VBCSignApproval :=
  response ← raw_response m (VBCSignRequest payload);
  lift_antie (match response with
              | VBCSignApprovalResult r => Ok r
              | Error er => Err (LambdaRejected er)
              | _ => unexpected $"Unexpected response type for vbc_sign_request"
              end).
Definition send_vbc_sign_commit (m : LambdaMode) (payload : VBCSignCommitPayload) : L VBCSignCommitResponse :=
  response ← raw_response m (VBCSignCommit payload);
  lift_antie (match response with
              | VBCSignCommitResult r => Ok r
              | Error er => Err (LambdaRejected er)
              | _ => unexpected $"Unexpected response type for vbc_sign_commit"
              end).
Definition send_set_auth_hash_request (m : LambdaMode) (request_id public_key auth_hash : bytes)
    : L SetAuthHashResponse :=
  response ← raw_response m (SetAuthHash request_id public_key auth_hash);
  lift_antie (match response with
              | SetAuthHashResult r => Ok r
              | Error er => Err (LambdaRejected er)
              | _ => unexpected $"Unexpected response type for set_auth_hash"
              end).
(** [diffusion_id]: 32 bytes. *)
Definition send_fanout_dedup (m : LambdaMode) (diffusion_id : bytes) : L bool :=
  response ← raw_response m (FanOutDedup ($"dedup-" ++ hex_encode (take 8 diffusion_id)) diffusion_id);
  lift_antie (match response with
              | FanOutDedupResult already_seen => Ok already_seen
              | Error er => Err (LambdaRejected er)
              | _ => unexpected $"Unexpected response type for fanout_dedup"
              end).
Definition send_fanout_mark (m : LambdaMode) (diffusion_id : bytes) : L unit :=
  response ← raw_response m (FanOutMark ($"mark-" ++ hex_encode (take 8 diffusion_id)) diffusion_id);
  lift_antie (match response with
              | FanOutMarkResult => Ok tt
              | Error er => Err (LambdaRejected er)
              | _ => unexpected $"Unexpected response for fanout_mark"
              end).
(** [uuid]: a fresh request id. *)
Definition send_peer_audit_request (m : LambdaMode) (uuid : bytes) (request : PeerAuditRequest)
    : L PeerAuditResultPayload :=
  response ← raw_response m (PeerAuditRequestQ uuid request);
  lift_antie (match response with
              | PeerAuditResult r => Ok r
              | Error er => Err (LambdaRejected er)
              | _ => unexpected $"Unexpected response type for peer_audit_request"
              end).
(** These three take any reply that decodes. *)
Definition send_peer_audit_dispatch_failed (m : LambdaMode) (uuid target_email_ error_ : bytes) : L unit :=
  _ ← raw_response m (PeerAuditDispatchFailed uuid target_email_ error_); mret tt.
Definition send_peer_audit_not_held (m : LambdaMode) (uuid : bytes) (n : PeerAuditNotHeld) : L unit :=
  _ ← raw_response m (PeerAuditNotHeldQ uuid n); mret tt.
Definition send_peer_audit_response (m : LambdaMode) (uuid : bytes) (r : PeerAuditResponse) : L unit :=
  _ ← raw_response m (PeerAuditResponseQ uuid r); mret tt.
Definition send_query_request (m : LambdaMode) (uuid wallet_pk : bytes) : L StateQueryResponse :=
  response ← raw_response m (QueryState uuid wallet_pk);
  lift_antie (match response with
              | StateResult r => Ok r
              | Error er => Err (LambdaRejected er)
              | _ => unexpected $"Unexpected response type for query"
              end).
Definition send_validator_status_request (m : LambdaMode) (request_id : bytes) : L ValidatorStatusResponse :=
  response ← raw_response m (ValidatorStatus request_id);
  lift_antie (match response with
              | ValidatorStatusResult r => Ok r
              | Error er => Err (LambdaRejected er)
              | _ => unexpected $"Unexpected response type for VSP"
              end).

(** *** Typed requests *)
Definition parse_witness_response (data : bytes) : result AntieError WitnessResponse :=
  response ← ipc_decode data;
  match response with
  | WitnessResult wr => Ok wr
  | Error er => Err (LambdaRejected er)
  | _ => unexpected $"Unexpected response type for witness"
  end.
Definition parse_redeem_response (data : bytes) : result AntieError RedeemResponse :=
  response ← ipc_decode data;
  match response with
  | RedeemResult rr => Ok rr
  | Error er => Err (LambdaRejected er)
  | _ => unexpected $"Unexpected response type for redeem"
  end.
Definition parse_genesis_response (data : bytes) : result AntieError InitGenesisResponse :=
  response ← map_err (fun e => LambdaError ($"Parse genesis response failed: " ++ display e)) (ipc_decode data);
  match response with
  | InitGenesisResult payload => Ok payload
  | Error er => Err (LambdaRejected er)
  | _ => unexpected $"Unexpected response type for genesis"
  end.
Definition parse_ack_response (data : bytes) : result AntieError AckResponse :=
  response ← map_err (fun e => LambdaError ($"Parse ACK response failed: " ++ display e)) (ipc_decode data);
  match response with
  | AckResult ack_resp => Ok ack_resp
  | Error er => Ok {| as_request_id := []; as_success := false; new_status := None;
                      as_error_response := Some er |}
  | _ => unexpected $"Unexpected response type for ACK"
  end.

(** [send_request_framed], and its twin [send_witness_request_tcp]. *)
Definition send_request_framed (request : GatewayRequest) : P WitnessResponse :=
  buf ← lift_antie (ipc_encode request);
  _ ← write_frame buf;
  response_buf ← with_err untimed (read_direct true);
  lift_antie (parse_witness_response response_buf).
Definition send_witness_request_tcp (request : GatewayRequest) : P WitnessResponse :=
  buf ← lift_antie (ipc_encode request);
  _ ← write_frame buf;
  response_buf ← with_err untimed (read_direct true);
  lift_antie (parse_witness_response response_buf).
Definition send_witness_request_stdio (request : GatewayRequest) : P WitnessResponse :=
  buf ← lift_antie (ipc_encode request);
  _ ← write_frame buf;
  response_buf ← with_err untimed (read_direct true);
  lift_antie (parse_witness_response response_buf).
Definition send_witness_request (m : LambdaMode) (request : WitnessRequest) : L WitnessResponse :=
  let envelope := Witness request in
  match m with
  | Tcp address _ tls =>
      _ ← connect_timed address;
      match tls with
      | Some (_, sni) => _ ← tls_connect sni; over Tls (send_request_framed envelope)
      | None => over Plain (send_request_framed envelope)
      end
  | Subprocess _ _ => on_child (send_witness_request_stdio envelope)
  end.

Definition send_redeem_request_tcp (request : GatewayRequest) : P RedeemResponse :=
  buf ← lift_antie (ipc_encode request);
  _ ← write_frame buf;
  response_buf ← with_err untimed (read_direct true);
  lift_antie (parse_redeem_response response_buf).
Definition send_redeem_request_stdio (request : GatewayRequest) : P RedeemResponse :=
  buf ← lift_antie (ipc_encode request);
  _ ← write_frame buf;
  response_buf ← with_err untimed (read_buffered true);
  lift_antie (parse_redeem_response response_buf).
Definition send_redeem_request (m : LambdaMode) (request : RedeemRequestEnvelope) : L RedeemResponse :=
  match m with
  | Tcp address _ _ => _ ← connect_timed address; over Plain (send_redeem_request_tcp (Redeem request))
  | Subprocess _ _ => on_child (send_redeem_request_stdio (Redeem request))
  end.

(** The TCP paths of the next two have no limit on a frame. *)
Definition send_ack_request_tcp (request : GatewayRequest) : P AckResponse :=
  buf ← lift_antie (ipc_encode request);
  _ ← write_frame buf;
  response_buf ← with_err untimed (read_buffered false);
  lift_antie (parse_ack_response response_buf).
Definition send_ack_request_stdio (request : GatewayRequest) : P AckResponse :=
  buf ← lift_antie (ipc_encode request);
  _ ← write_frame buf;
  response_buf ← with_err untimed (read_buffered true);
  lift_antie (parse_ack_response response_buf).
Definition send_ack_request (m : LambdaMode) (request : AckRequest) : L AckResponse :=
  match m with
  | Tcp address _ _ => _ ← connect_timed address; over Plain (send_ack_request_tcp (Ack request))
  | Subprocess _ _ => on_child (send_ack_request_stdio (Ack request))
  end.
Definition send_genesis_request_tcp (request : GatewayRequest) : P InitGenesisResponse :=
  buf ← lift_antie (ipc_encode request);
  _ ← write_frame buf;
  response_buf ← with_err untimed (read_direct false);
  lift_antie (parse_genesis_response response_buf).
Definition send_genesis_request_stdio (request : GatewayRequest) : P InitGenesisResponse :=
  buf ← lift_antie (ipc_encode request);
  _ ← write_frame buf;
  response_buf ← with_err untimed (read_buffered true);
  lift_antie (parse_genesis_response response_buf).
Definition send_genesis_dev_request (m : LambdaMode) (request_id public_key : bytes) (balance : Z)
    (group_members : option (list GroupMember)) (auth_hash : option bytes) : L InitGenesisResponse :=
  let request := InitGenesis {| ig_request_id := request_id; ig_public_key := public_key;
    ig_balance := balance; ig_group_members := group_members; ig_auth_hash := auth_hash |} in
  match m with
  | Tcp address _ _ => _ ← connect_timed address; over Plain (send_genesis_request_tcp request)
  | Subprocess _ _ => on_child (send_genesis_request_stdio request)
  end.

(** Any four bytes are health; a child is healthy while there is a handle. *)
Definition health_tcp (buf : bytes) : P bool :=
  _ ← write_frame buf;
  r ← attempt (read_exact 4);
  match r with
  | Ok _ => mret true
  | Err (Starved Waiting) => throw Hung
  | Err _ => mret false
  end.
Definition health_check (m : LambdaMode) (uuid : bytes) : L bool :=
  match m with
  | Tcp address _ _ =>
      _ ← connect_untimed address;
      buf ← lift_antie (ipc_encode (Health ($"health-" ++ uuid)));
      over Plain (health_tcp buf)
  | Subprocess _ _ => l ← get; mret (match child l with Some _ => true | None => false end)
  end.
End client.
End Client.
