(* ===== verification/LambdaTheorems.v ===== *)
(** * The theorems on the Lambda client: frames, limits, crossed replies, TLS *)
From S2P Require Import Prelude Fs Errors CoreTypes Lambda.
Import Errors Core.

(** ** Frames *)
Module Frames.
Import Ipc.

Definition frame (payload : bytes) : bytes := be32 (Z.of_nat (length payload)) ++ payload.
Lemma length_be32 n : length (be32 n) = 4%nat.
Proof. done. Qed.
Lemma of_be_be32 n : 0 <= n <= U32_MAX -> of_be (be32 n) = n.
Proof.
  intros Hn. unfold of_be, be32. cbn [map foldl].
  assert (forall k, 0 <= k -> Z.of_N (code (ch (Z.to_N (Z.shiftr n k mod 256)))) = (n / 2 ^ k) mod 256) as E.
  { intros k Hk. pose proof (Z.mod_pos_bound (Z.shiftr n k) 256 ltac:(lia)).
    rewrite code_ch, Z2N.id by lia. by rewrite Z.shiftr_div_pow2. }
  rewrite !E by lia. unfold U32_MAX in Hn.
  change (2 ^ 24) with (256 * 65536); change (2 ^ 16) with (256 * 256); change (2 ^ 8) with 256; change (2 ^ 0) with 1.
  change (2 ^ 32 - 1) with 4294967295 in Hn. rewrite <- !Z.div_div by lia.
  change 65536 with (256 * 256). rewrite <- !Z.div_div by lia. rewrite Z.div_1_r.
  set (a := n / 256). set (b := a / 256). set (c := b / 256).
  pose proof (Z.div_mod n 256 ltac:(lia)); pose proof (Z.div_mod a 256 ltac:(lia));
    pose proof (Z.div_mod b 256 ltac:(lia)).
  assert (0 <= c < 256) by (unfold c, b, a; rewrite !Z.div_div by lia; split;
    [apply Z.div_pos; lia|apply Z.div_lt_upper_bound; lia]).
  rewrite (Z.mod_small c) by lia. fold a in H. fold b in H0. fold c in H1. lia.
Qed.

Lemma concat_left_of n s segs : concat (left_of n s segs) = drop n s ++ concat segs.
Proof. unfold left_of. by destruct (drop n s). Qed.
Lemma take_direct_spec segs : forall want,
  (N.to_nat want <= length (concat segs))%nat ->
  exists r, take_direct want segs = Some (take (N.to_nat want) (concat segs), r) /\
            concat r = drop (N.to_nat want) (concat segs).
Proof.
  induction segs as [|s segs IH]; intros want Hw; cbn [take_direct concat] in *;
    destruct (N.eqb_spec want 0) as [->|N]; [by eexists|simpl in Hw; lia|by eexists|].
  rewrite length_app in Hw. destruct (N.leb_spec want (N.of_nat (length s))).
  - eexists. rewrite take_app_le, drop_app_le by lia. split; [done|apply concat_left_of].
  - destruct (IH (want - N.of_nat (length s))%N) as (r & -> & E); [lia|]. exists r.
    rewrite take_app_ge, drop_app_ge by lia. rewrite E.
    by replace (N.to_nat want - length s)%nat with (N.to_nat (want - N.of_nat (length s))) by lia.
Qed.
Lemma take_direct_short segs : forall want,
  (length (concat segs) < N.to_nat want)%nat -> take_direct want segs = None.
Proof.
  induction segs as [|s segs IH]; intros want Hw; cbn [take_direct concat] in *;
    destruct (N.eqb_spec want 0) as [->|N]; try (simpl in Hw; lia); [done|].
  rewrite length_app in Hw. destruct (N.leb_spec want (N.of_nat (length s))); [lia|].
  by rewrite IH by lia.
Qed.
Lemma BUF_pos : (0 < BUF)%nat.
Proof. apply Nat.ltb_lt. vm_compute. reflexivity. Qed.
(** A buffered read delivers the same bytes; between what it took and what the
    stream still holds lies what its buffer keeps, less than 8 KiB. *)
Lemma take_buffered_spec segs : forall want buf,
  (length buf < BUF)%nat -> (N.to_nat want <= length (buf ++ concat segs))%nat ->
  exists over r, take_buffered want buf segs = Some (take (N.to_nat want) (buf ++ concat segs), over, r) /\
    over ++ concat r = drop (N.to_nat want) (buf ++ concat segs) /\ (length over < BUF)%nat.
Proof.
  induction segs as [|s segs IH]; intros want buf Hb Hw; cbn [take_buffered concat] in *;
    (destruct (N.leb_spec want (N.of_nat (length buf))) as [Hl|Hl];
      [eexists _, _; rewrite take_app_le, drop_app_le, length_drop by lia; split; [done|split; [done|lia]]|]);
    rewrite !length_app in Hw; [simpl in Hw; lia|].
  remember (want - N.of_nat (length buf))%N as want' eqn:W.
  assert (N.to_nat want - length buf = N.to_nat want')%nat as Ew by lia.
  rewrite (take_app_ge buf), (drop_app_ge buf), Ew by lia.
  destruct (N.leb_spec (N.of_nat BUF) want') as [Hbig|Hsmall].
  - destruct (N.leb_spec want' (N.of_nat (length s))) as [Hs|Hs].
    + eexists [], _. rewrite take_app_le, drop_app_le by lia. split; [done|]. split; [apply concat_left_of|].
      apply BUF_pos.
    + destruct (IH (want' - N.of_nat (length s))%N []) as (over & r & -> & E & Ho);
        [apply BUF_pos|cbn [app]; lia|].
      exists over, r. cbn [app] in E. rewrite (take_app_ge s), (drop_app_ge s) by lia.
      replace (N.to_nat want' - length s)%nat with (N.to_nat (want' - N.of_nat (length s))) by lia. done.
  - rewrite length_take. destruct (N.leb_spec want' (N.of_nat (BUF `min` length s))) as [Hs|Hs].
    + eexists _, _. rewrite take_app_le by lia. split; [done|]. rewrite concat_left_of, app_assoc.
      rewrite <- (drop_app_le (take BUF s)) by (rewrite length_take; lia). rewrite take_drop.
      rewrite drop_app_le by lia. split; [done|]. rewrite length_drop, length_take. lia.
    + destruct (IH want' s) as (over & r & -> & E & Ho); [lia|rewrite length_app; lia|]. eauto.
Qed.
Lemma take_buffered_short segs : forall want buf,
  (length (buf ++ concat segs) < N.to_nat want)%nat -> take_buffered want buf segs = None.
Proof.
  induction segs as [|s segs IH]; intros want buf Hw; cbn [take_buffered concat] in *;
    rewrite !length_app in Hw; destruct (N.leb_spec want (N.of_nat (length buf))); try lia; [done|].
  case_match; [case_match; [lia|]|rewrite length_take; case_match; [lia|]]; rewrite IH; try done;
    rewrite ?length_app; cbn [length]; lia.
Qed.

Section reads.
Context `{EC : ErrorsCrate} {H : Type}.
Implicit Types p : pipe H.

Lemma read_exact_run want p :
  (N.to_nat want <= length (concat (arrived p)))%nat ->
  exists segs, read_exact want p = (Ok (take (N.to_nat want) (concat (arrived p))), with_arrived segs p) /\
    concat segs = drop (N.to_nat want) (concat (arrived p)).
Proof.
  intros Hw. destruct (take_direct_spec _ _ Hw) as (r & E & Hr). exists r. split; [|done].
  unfold read_exact, get, modify. cbv [mbind M_bind]. by rewrite E.
Qed.
Lemma fill_exact_run want buf p :
  (length buf < BUF)%nat -> (N.to_nat want <= length (buf ++ concat (arrived p)))%nat ->
  exists over segs,
    fill_exact want buf p = (Ok (take (N.to_nat want) (buf ++ concat (arrived p)), over), with_arrived segs p) /\
    over ++ concat segs = drop (N.to_nat want) (buf ++ concat (arrived p)) /\ (length over < BUF)%nat.
Proof.
  intros Hb Hw. destruct (take_buffered_spec _ _ _ Hb Hw) as (over & r & E & Hr). exists over, r. split; [|done].
  unfold fill_exact, get, modify. cbv [mbind M_bind]. by rewrite E.
Qed.
Lemma take_frame payload rest :
  Z.of_nat (length payload) <= U32_MAX ->
  take 4 (frame payload ++ rest) = be32 (Z.of_nat (length payload)) /\
  drop 4 (frame payload ++ rest) = payload ++ rest /\
  of_be (be32 (Z.of_nat (length payload))) = Z.of_nat (length payload).
Proof. intros Hl. split; [done|]. split; [done|]. apply of_be_be32. lia. Qed.

Lemma read_direct_frame capped payload rest p :
  concat (arrived p) = frame payload ++ rest -> Z.of_nat (length payload) <= U32_MAX ->
  exists segs, read_direct capped p =
    (if capped && (MAX_FRAME <? Z.of_nat (length payload)) then Err TooLarge else Ok payload,
     with_arrived segs p) /\
    concat segs = (if capped && (MAX_FRAME <? Z.of_nat (length payload)) then payload else []) ++ rest.
Proof.
  intros Ha Hl. destruct (take_frame payload rest Hl) as (T & D & B).
  destruct (read_exact_run 4 p) as (segs & E & Hs).
  { rewrite Ha, length_app. cbn. lia. }
  change (N.to_nat 4) with 4%nat in *. rewrite Ha, T in E. rewrite Ha, D in Hs.
  unfold read_direct. cbv [mbind M_bind]. rewrite E, B. destruct (capped && _); [by exists segs|].
  rewrite <- nat_N_Z, N2Z.id.
  destruct (read_exact_run (N.of_nat (length payload)) (with_arrived segs p)) as (segs' & E' & Hs');
    cbn [arrived with_arrived] in *; rewrite Hs, Nat2N.id in *.
  { rewrite length_app. lia. }
  rewrite take_app_length in E'. rewrite drop_app_length in Hs'. rewrite E'. by exists segs'.
Qed.
Lemma read_buffered_frame capped payload rest p :
  concat (arrived p) = frame payload ++ rest -> Z.of_nat (length payload) <= U32_MAX ->
  capped && (MAX_FRAME <? Z.of_nat (length payload)) = false ->
  exists segs lost, read_buffered capped p = (Ok payload, with_arrived segs p) /\
    rest = lost ++ concat segs /\ (length lost < BUF)%nat.
Proof.
  intros Ha Hl Hc. destruct (take_frame payload rest Hl) as (T & D & B).
  destruct (fill_exact_run 4 [] p BUF_pos) as (over & segs & E & Hs & Ho).
  { cbn [app]. rewrite Ha, length_app. cbn. lia. }
  cbn [app] in *. change (N.to_nat 4) with 4%nat in *. rewrite Ha, T in E. rewrite Ha, D in Hs.
  unfold read_buffered. cbv [mbind M_bind]. rewrite E, B, Hc. rewrite <- nat_N_Z, N2Z.id.
  destruct (fill_exact_run (N.of_nat (length payload)) over (with_arrived segs p) Ho) as (over' & segs' & E' & Hs' & Ho');
    cbn [arrived with_arrived] in *; rewrite Hs, Nat2N.id in *.
  { rewrite length_app. lia. }
  rewrite take_app_length in E'. rewrite drop_app_length in Hs'. rewrite E'. by exists segs', over'.
Qed.

(** C13: a frame is read exactly.  However the stream cuts it, a complete frame in
    front of anything is delivered byte for byte by every path that admits its
    length; the unbuffered paths leave the stream right behind it, and the paths
    that make a reader per call leave it at most one buffer further, dropping
    what lies between: less than 8 KiB of whatever was already there. *)
Theorem frame_read_exact capped payload rest p :
  concat (arrived p) = frame payload ++ rest -> Z.of_nat (length payload) <= U32_MAX ->
  (capped = true -> Z.of_nat (length payload) <= MAX_FRAME) ->
  (exists segs, read_direct capped p = (Ok payload, with_arrived segs p) /\ concat segs = rest) /\
  (exists segs lost, read_buffered capped p = (Ok payload, with_arrived segs p) /\
     rest = lost ++ concat segs /\ (length lost < BUF)%nat).
Proof.
  intros Ha Hl Hc. assert (capped && (MAX_FRAME <? Z.of_nat (length payload)) = false) as E.
  { destruct capped; [|done]. specialize (Hc eq_refl). cbn. lia. }
  split; [|by apply read_buffered_frame].
  destruct (read_direct_frame capped payload rest p Ha Hl) as (segs & R & Hs). rewrite E in *. by exists segs.
Qed.
End reads.

(** A reply cut inside its length, with another frame right behind it. *)
Lemma frame_read_exact_witness :
  let p := Pipe tt (Stdio 7) [[ch 0; ch 0]; [ch 0; ch 2; "o"%char; "k"%char] ++ frame $"late"] Waiting in
  exists segs lost, read_buffered true p = (Ok $"ok", with_arrived segs p) /\
    frame $"late" = lost ++ concat segs.
Proof.
  intros p. destruct (frame_read_exact true $"ok" (frame $"late") p) as (_ & segs & lost & E & Hl & _);
    [by vm_compute|by vm_compute|intros _; by vm_compute|]. by exists segs, lost.
Defined.
End Frames.

(** ** Conversations *)
Module Exchange.
Import Ipc Frames Client.
Section exchange.
Context `{EC : ErrorsCrate} `{CV : CoreValues} `{CF : !CoreFns} `{RU : Rustls} {H : Type} `{LH : LambdaHost H}.

Lemma wrap_length (b : bytes) :
  Z.of_nat (length b) <= U32_MAX -> wrap 32 (Z.of_nat (length b)) = Z.of_nat (length b).
Proof. intros Hl. apply wrap_small. unfold U32_MAX in Hl. lia. Qed.

(** The one shape of every typed request. *)
Definition typed {A : Type} (read : M (pipe H) stop bytes) (parse : bytes -> result AntieError A)
    (request : GatewayRequest) : M (pipe H) fault A :=
  buf ← lift_antie (ipc_encode request);
  _ ← write_frame buf;
  response_buf ← with_err untimed read;
  lift_antie (parse response_buf).
Lemma typed_run {A : Type} read (parse : bytes -> result AntieError A) request buf p p1 :
  encode_request request = Ok buf -> write_frame buf p = (Ok tt, p1) ->
  typed read parse request p =
  match read p1 with
  | (Ok b, p2) => (map_err Failed (parse b), p2)
  | (Err s, p2) => (Err (untimed s), p2)
  end.
Proof.
  intros He Hw. unfold typed, lift_antie, lift, ipc_encode, with_err. rewrite He. cbv [mbind M_bind map_err].
  rewrite Hw. by destruct (read p1) as [[] ?].
Qed.

(** The frame limit does not hold everywhere.  Given a reply longer than 10
    MiB, the witness, redeem and raw requests refuse it unread - and, on a pipe
    that is used again, leave its body where the next call looks for a length -
    while over TCP the ACK and the genesis request take it in whole, up to the 4
    GiB a length can say. *)
Theorem frame_limit_not_everywhere request buf payload rest (p p1 : pipe H) :
  encode_request request = Ok buf -> write_frame buf p = (Ok tt, p1) ->
  concat (arrived p1) = frame payload ++ rest ->
  MAX_FRAME < Z.of_nat (length payload) <= U32_MAX ->
  (exists segs, concat segs = payload ++ rest /\
     send_request_framed request p = (Err (Failed (LambdaError TOO_LARGE)), with_arrived segs p1) /\
     send_witness_request_stdio request p = (Err (Failed (LambdaError TOO_LARGE)), with_arrived segs p1) /\
     send_redeem_request_tcp request p = (Err (Failed (LambdaError TOO_LARGE)), with_arrived segs p1) /\
     raw_tcp buf p = (Err (Failed (LambdaError TOO_LARGE)), with_arrived segs p1) /\
     raw_stdio buf p = (Err (Failed (LambdaError ($"Subprocess read error: " ++ TOO_LARGE))), with_arrived segs p1)) /\
  (send_genesis_request_tcp request p).1 = map_err Failed (parse_genesis_response payload) /\
  (send_ack_request_tcp request p).1 = map_err Failed (parse_ack_response payload).
Proof.
  intros He Hw Ha [Hm Hl].
  destruct (read_direct_frame true payload rest p1 Ha Hl) as (segs & E & Hs).
  destruct (read_direct_frame false payload rest p1 Ha Hl) as (segs' & E' & _).
  destruct (read_buffered_frame false payload rest p1 Ha Hl eq_refl) as (segs'' & lost & E'' & _).
  assert ((MAX_FRAME <? Z.of_nat (length payload)) = true) as Ht by lia. rewrite Ht in E, Hs. cbn [andb] in *.
  split.
  - exists segs. split; [done|].
    repeat split;
      lazymatch goal with
      | |- raw_tcp _ _ = _ => unfold raw_tcp
      | |- raw_stdio _ _ = _ => unfold raw_stdio
      | |- send_request_framed _ _ = _ => change (send_request_framed request p) with (typed (read_direct true) parse_witness_response request p)
      | |- send_witness_request_stdio _ _ = _ => change (send_witness_request_stdio request p) with (typed (read_direct true) parse_witness_response request p)
      | |- _ => change (send_redeem_request_tcp request p) with (typed (read_direct true) parse_redeem_response request p)
      end; rewrite ?(typed_run _ _ _ _ _ _ He Hw), ?E; [done..| |];
      cbv [mbind M_bind with_err]; rewrite Hw, E; done.
  - split; [change (send_genesis_request_tcp request p) with (typed (read_direct false) parse_genesis_response request p)
           |change (send_ack_request_tcp request p) with (typed (read_buffered false) parse_ack_response request p)];
      rewrite (typed_run _ _ _ _ _ _ He Hw), ?E', ?E''; done.
Qed.

(** *** A child that answers every request with one frame, some of them late *)
(** [idle]: it has not read part of a request; [owed]: the replies it has not
    written yet; a request that is [slow] is answered only after the time limit of
    its caller, in front of the next reply that is on time. *)
Context (idle : H -> Prop) (owed : H -> list bytes) (reply : bytes -> bytes) (slow : bytes -> bool).
Hypothesis reply_fits : forall b, Z.of_nat (length (reply b)) <= MAX_FRAME.
Hypothesis answers : forall h k b, idle h -> exists h1 h2 segs,
  put h (Stdio k) (be32 (wrap 32 (Z.of_nat (length b)))) = Wrote h1 [] Waiting /\
  put h1 (Stdio k) b = Wrote h2 segs Waiting /\ idle h2 /\
  if slow b then segs = [] /\ owed h2 = owed h ++ [reply b]
  else concat segs = concat (map frame (owed h ++ [reply b])) /\ owed h2 = [].

(** The child as a queue: the replies unread in the pipe, and those it owes. *)
Record queue : Type := Queue { piped : list bytes; late : list bytes }.
Definition given_up : result fault bytes := Err (Failed (LambdaError RESPONSE_TIMEOUT)).
(** A caller takes the first reply of the queue, whosever it is; it gives up where
    the pipe stays empty, and its own reply stays owed. *)
Definition asked (q : queue) (b : bytes) : result fault bytes * queue :=
  let '(xs, owing) := if slow b then (piped q, late q ++ [reply b]) else (piped q ++ late q ++ [reply b], []) in
  match xs with
  | [] => (given_up, Queue [] owing)
  | x :: rest => (Ok x, Queue rest owing)
  end.
Fixpoint asked_all (q : queue) (bs : list bytes) : list (result fault bytes) * queue :=
  match bs with
  | [] => ([], q)
  | b :: bs' => let '(r, q1) := asked q b in let '(rs, q2) := asked_all q1 bs' in (r :: rs, q2)
  end.
(** The client's calls, one after another; a failed one does not stop the next. *)
Fixpoint calls (m : LambdaMode) (reqs : list GatewayRequest) (l : lam H) : list (result fault bytes) * lam H :=
  match reqs with
  | [] => ([], l)
  | req :: reqs' =>
      let '(r, l1) := send_raw_request m req l in let '(rs, l2) := calls m reqs' l1 in (r :: rs, l2)
  end.
(** What the client and its child hold agrees with the queue. *)
Record holds (k : N) (q : queue) (l : lam H) : Prop := {
  hd_idle : idle (outside l);
  hd_child : exists segs e, child l = Some {| pid := k; out := segs; out_end := e |} /\ concat segs = concat (map frame (piped q));
  hd_owed : owed (outside l) = late q;
  hd_fits : Forall (fun y => Z.of_nat (length y) <= MAX_FRAME) (piped q ++ late q) }.
(** Everything the client keeps beside its child. *)
Definition same_fields (l l' : lam H) : Prop :=
  lambda_alive l' = lambda_alive l /\ shutting_down l' = shutting_down l /\ carrier_uris l' = carrier_uris l.

Lemma write_frame_answers k b (p : pipe H) :
  idle (host p) -> way p = Stdio k -> exists h2 segs,
  write_frame b p = (Ok tt, Pipe h2 (Stdio k) (arrived p ++ segs) Waiting) /\ idle h2 /\
  if slow b then segs = [] /\ owed h2 = owed (host p) ++ [reply b]
  else concat segs = concat (map frame (owed (host p) ++ [reply b])) /\ owed h2 = [].
Proof.
  intros Hi Hw. destruct (answers (host p) k b Hi) as (h1 & h2 & segs & E1 & E2 & Hi2 & Hs). exists h2, segs.
  split; [|done]. unfold write_frame, write_all. cbv [mbind M_bind]. rewrite Hw, E1. cbn [host way arrived ending].
  by rewrite E2, app_nil_r.
Qed.
(** Reading the first frame of a pipe of frames, or giving up on an empty one. *)
Lemma read_queue xs (p : pipe H) :
  concat (arrived p) = concat (map frame xs) -> ending p = Waiting ->
  Forall (fun y => Z.of_nat (length y) <= MAX_FRAME) xs ->
  exists segs, with_err timed (read_direct true) p =
    (match xs with [] => given_up | x :: _ => Ok x end, with_arrived segs p) /\
    concat segs = concat (map frame (drop 1 xs)).
Proof.
  intros Ha He Hf. destruct xs as [|x xs].
  - exists []. split; [|done]. unfold with_err, read_direct, read_exact, starve, get, modify. cbv [mbind M_bind].
    rewrite take_direct_short by (rewrite Ha; cbn; lia). unfold throw. cbn [ending with_arrived]. by rewrite He.
  - apply Forall_cons in Hf as [Hl _]. cbn [map concat] in Ha.
    destruct (read_direct_frame true _ _ _ Ha) as (segs & E & Hs); [unfold MAX_FRAME, U32_MAX in *; lia|].
    assert ((MAX_FRAME <? Z.of_nat (length x)) = false) as Hc by lia. rewrite Hc in *. cbn [andb app] in *.
    exists segs. split; [|done]. unfold with_err. by rewrite E.
Qed.
Lemma call_asked b1 b2 req b k q l :
  encode_request req = Ok b -> holds k q l ->
  exists l', send_raw_request (Subprocess b1 b2) req l = ((asked q b).1, l') /\ holds k (asked q b).2 l' /\ same_fields l l'.
Proof.
  intros Hb [Hi (segs & e & Hc & Hs) Ho Hf].
  set (p := Pipe (outside l) (Stdio k) segs e).
  destruct (write_frame_answers k b p Hi eq_refl) as (h2 & new & Ew & Hi2 & Hn). cbn [p host arrived] in Ew, Hn. rewrite Ho in Hn.
  pose (xs := if slow b then piped q else piped q ++ late q ++ [reply b]).
  pose (owing := if slow b then late q ++ [reply b] else []).
  assert (concat (segs ++ new) = concat (map frame xs) /\ owed h2 = owing /\
    Forall (fun y => Z.of_nat (length y) <= MAX_FRAME) (xs ++ owing)) as (Hx & Hw & Hfx).
  { unfold xs, owing. rewrite concat_app, Hs. destruct (slow b); destruct Hn as [-> ->].
    - rewrite app_nil_r, app_assoc. do 2 (split; [done|]). apply Forall_app_2; [done|by repeat constructor].
    - rewrite (map_app frame (piped q)), concat_app, !app_assoc, app_nil_r, <- app_assoc. do 2 (split; [done|]).
      rewrite app_assoc. apply Forall_app_2; [done|by repeat constructor]. }
  apply Forall_app in Hfx as [Hf1 Hf2].
  destruct (read_queue xs (Pipe h2 (Stdio k) (segs ++ new) Waiting) Hx eq_refl Hf1) as (left & Er & Hl).
  assert (asked q b = (match xs with [] => given_up | x :: _ => Ok x end, Queue (drop 1 xs) owing)) as ->.
  { unfold asked, xs, owing. destruct (slow b); [by destruct (piped q)|]. by destruct (piped q ++ late q ++ [reply b]). }
  cbn [fst snd]. eexists. split.
  { unfold send_raw_request, lift_antie, lift, ipc_encode. rewrite Hb. cbv [mbind M_bind map_err]. unfold on_child. rewrite Hc.
    cbn [pid out out_end]. fold p. unfold raw_stdio. cbv [mbind M_bind]. rewrite Ew, Er. reflexivity. }
  split; [|done]. cbn [host arrived ending with_arrived]. split; cbn; [done|by exists left, Waiting|done|].
  apply Forall_app_2; [|done]. by apply Forall_drop.
Qed.
Lemma calls_asked b1 b2 reqs bs k q l :
  Forall2 (fun req b => encode_request req = Ok b) reqs bs -> holds k q l ->
  exists l', calls (Subprocess b1 b2) reqs l = ((asked_all q bs).1, l') /\ holds k (asked_all q bs).2 l' /\ same_fields l l'.
Proof.
  intros Hb. revert q l. induction Hb as [|req b reqs bs Hr _ IH]; intros q l Hh; [by exists l|].
  destruct (call_asked b1 b2 req b k q l Hr Hh) as (l1 & E1 & H1 & S1). cbn [calls asked_all]. rewrite E1.
  destruct (asked q b) as [r q1]. cbn [fst snd] in *. destruct (IH q1 l1 H1) as (l2 & E2 & H2 & S2). rewrite E2.
  destruct (asked_all q1 bs) as [rs q2]. cbn [fst snd] in *. exists l2. split; [done|]. split; [done|].
  destruct S1 as (A1 & A2 & A3), S2 as (B1 & B2 & B3). unfold same_fields. by rewrite B1, B2, B3.
Qed.
(** Requests on time take the queue from its front. *)
Lemma asked_prompt bs : forall q, Forall (fun b => slow b = false) bs ->
  (asked_all q bs).1 = map Ok (take (length bs) (piped q ++ late q ++ map reply bs)).
Proof.
  induction bs as [|b bs IH]; intros q Hp; [done|]. apply Forall_cons in Hp as [Hb Hp].
  cbn [asked_all length map]. unfold asked. rewrite Hb.
  replace (piped q ++ late q ++ reply b :: map reply bs) with ((piped q ++ late q ++ [reply b]) ++ map reply bs)
    by (by rewrite <- !app_assoc).
  destruct (piped q ++ late q ++ [reply b]) as [|x rest] eqn:Q; [by destruct (piped q), (late q)|].
  specialize (IH (Queue rest []) Hp). destruct (asked_all _ bs) as [rs q2]. cbn [fst] in *. rewrite IH. done.
Qed.

(** C14: a child is a queue, and a caller's time-out does not change that.  There is
    no correlation between requests and replies, and nothing is restarted.
    Whatever raw requests are sent over a child, some of them answered only after
    the 300 seconds their caller waits, and whatever it still had in the pipe or
    owed: each caller takes the first reply of the queue, whosever it is, or gives
    up with the time-out error when the pipe stays empty; the child stays the same
    process, and the client keeps nothing of what happened.  So from an empty pipe
    callers answered in time get their own replies; but after one request that
    timed out, every later caller, for ever, gets the reply of the caller before. *)
Theorem child_is_a_queue b1 b2 k l :
  (forall q reqs bs, holds k q l -> Forall2 (fun req b => encode_request req = Ok b) reqs bs ->
     let '(results, q') := asked_all q bs in
     exists l', calls (Subprocess b1 b2) reqs l = (results, l') /\ holds k q' l' /\ same_fields l l') /\
  (forall reqs bs, holds k (Queue [] []) l -> Forall2 (fun req b => encode_request req = Ok b) reqs bs ->
     Forall (fun b => slow b = false) bs ->
     (calls (Subprocess b1 b2) reqs l).1 = map Ok (map reply bs)) /\
  (forall req b reqs bs, holds k (Queue [] []) l -> encode_request req = Ok b -> slow b = true ->
     Forall2 (fun req b => encode_request req = Ok b) reqs bs -> Forall (fun b => slow b = false) bs ->
     (calls (Subprocess b1 b2) (req :: reqs) l).1 = given_up :: map Ok (take (length bs) (map reply (b :: bs)))).
Proof.
  split; [|split].
  - intros q reqs bs Hh Hb. destruct (calls_asked b1 b2 reqs bs k q l Hb Hh) as (l' & E). destruct (asked_all q bs). by exists l'.
  - intros reqs bs Hh Hb Hp. destruct (calls_asked b1 b2 reqs bs k _ l Hb Hh) as (l' & -> & _). cbn [fst].
    rewrite asked_prompt by done. cbn [piped late app]. by rewrite <- (length_map reply bs), firstn_all.
  - intros req b reqs bs Hh Hr Hs Hb Hp.
    destruct (calls_asked b1 b2 (req :: reqs) (b :: bs) k _ l ltac:(by constructor) Hh) as (l' & -> & _).
    cbn [fst asked_all]. unfold asked. rewrite Hs. cbn [piped late app].
    pose proof (asked_prompt bs (Queue [] [reply b]) Hp) as Ep. destruct (asked_all (Queue [] [reply b]) bs) as [rs q2].
    cbn [fst piped late app] in *. by rewrite Ep.
Qed.
End exchange.

(** *** Concrete hosts *)
(** One that answers every payload with the given frames. *)
Definition answering (payload : bytes) : LambdaHost unit := {|
  dial := fun h _ => Reached h; handshake := fun h _ => Reached h;
  put := fun h _ b => Wrote h (if (length b =? 4)%nat then [] else [frame payload]) Waiting;
  spawn := fun h _ _ _ => (Err [], h); try_wait := fun h _ => (Running, h); kill := fun h _ => h |}.
(** One that echoes: at once, or, what begins with an exclamation mark, with the
    next request. *)
Definition is_slow (b : bytes) : bool := starts_with $"!" b.
Definition echo : LambdaHost (bool * list bytes) := {|
  dial := fun h _ => Reached h; handshake := fun h _ => Reached h;
  put := fun (h : bool * list bytes) _ b =>
    if h.1 then
      if is_slow b then Wrote (false, h.2 ++ [take 100 b]) [] Waiting
      else Wrote (false, []) (map frame (h.2 ++ [take 100 b])) Waiting
    else Wrote (true, h.2) [] Waiting;
  spawn := fun h _ _ _ => (Err [], h); try_wait := fun h _ => (Running, h); kill := fun h _ => h |}.
Definition ex_leg (w : WitnessResponse (CV := ex_values)) : ResponsePayload (EC := ex_errors) (CV := ex_values) :=
  {| success := ws_success w; resp_request_id := []; witness_signature := None;
      resp_cheque_for_receiver := None; scar_consent_voucher := None; produced_state_id := None;
      receipt := None; commitment_hash := None; state_hash := None; receipt_commitment := None;
      txid := None; state_id := None; error := None; rejection_code := None; error_response := None;
      validator_hints := []; sender_fact_chain := None; receiver_fact_chain := None;
      fact_signature := None; query_data := None; sender_state := None; vbc_signature := None |}.
Definition ex_core : CoreFns (EC := ex_errors) (CV := ex_values) :=
  ex_fns ex_leg (fun _ => Err $"no core") (fun _ => Ok $"REQUEST") (fun b => Ok (OtherResponse (b : @Datum ex_values)))
    (fun _ => Err []).
Definition ex_tls : Rustls := {|
  Cert := unit; pem_certs := fun _ => []; root_refused := fun _ => None; server_name_of := Ok |}.

Definition big : bytes := repeat "x"%char (N.to_nat 10485761).
Lemma length_big : Z.of_nat (length big) = 10485761.
Proof. unfold big. by rewrite repeat_length, N_nat_Z. Qed.
Lemma frame_limit_not_everywhere_witness :
  let p := Pipe tt Plain [] Waiting in
  (send_ack_request_tcp (EC := ex_errors) (CF := ex_core) (LH := answering big) (Health []) p).1
  = map_err Failed (parse_ack_response (CF := ex_core) big).
Proof.
  intros p.
  destruct (frame_limit_not_everywhere (EC := ex_errors) (CF := ex_core) (LH := answering big) (Health []) $"REQUEST"
    big [] p (Pipe tt Plain [frame big] Waiting)) as (_ & _ & E); [done|done| | |exact E].
  - cbn [arrived concat]. by rewrite !app_nil_r.
  - rewrite length_big. by vm_compute.
Defined.
(** A request's encoding: its id. *)
Definition ex_encoding : CoreFns (EC := ex_errors) (CV := ex_values) :=
  ex_fns ex_leg (fun _ => Err $"no core") (fun r => match r with SetCarriers i _ => Ok i | _ => Err [] end)
    (fun b => Ok (OtherResponse (b : @Datum ex_values))) (fun _ => Err []).
Lemma child_is_a_queue_witness :
  let ask i := SetCarriers (CV := ex_values) i [] in
  let l := Lam (false, []) (Some {| pid := 7; out := []; out_end := Waiting |}) true false None in
  (calls (EC := ex_errors) (CF := ex_encoding) (RU := ex_tls) (LH := echo) (Subprocess [] [])
     [ask $"!first"; ask $"second"; ask $"third"] l).1
  = [given_up (EC := ex_errors); Ok $"!first"; Ok $"second"].
Proof.
  intros ask l.
  refine (proj2 (proj2 (child_is_a_queue (EC := ex_errors) (CF := ex_encoding) (RU := ex_tls) (LH := echo)
    (fun h => h.1 = false) snd (take 100) is_slow _ _ [] [] 7 l)) (ask $"!first") $"!first"
    [ask $"second"; ask $"third"] [$"second"; $"third"] _ _ _ _ _).
  - intros b. rewrite length_take. unfold MAX_FRAME. lia.
  - intros [busy o] k b Hi. cbn in Hi. subst busy.
    destruct (is_slow b) eqn:Sb; (eexists _, _, _; split; [reflexivity|]; cbn [put echo fst snd]; rewrite Sb;
      split; [reflexivity|]; by repeat split).
  - split; [reflexivity|by exists [], Waiting|reflexivity|constructor].
  - reflexivity.
  - reflexivity.
  - by repeat constructor.
  - by repeat constructor.
Defined.
End Exchange.

(** ** What an eavesdropper sees *)
Module Sniffing.
Import Ipc Client.
Section sniffing.
Context `{EC : ErrorsCrate} `{CV : CoreValues} `{CF : !CoreFns} `{RU : Rustls} {H : Type} `{LH : LambdaHost H}.
(** The log of everything written, with the channel that carried it. *)
Context (sent : H -> list (channel * bytes)).
Hypothesis put_logs : forall h w b, match put h w b with
  | Wrote h' _ _ => sent h' = sent h ++ [(w, b)]
  | WriteFailed _ h' | Stuck h' => sent h' = sent h ++ [(w, b)] \/ sent h' = sent h
  end.
Hypothesis dial_silent : forall h a, match dial h a with
  | Reached h' | Refused _ h' | Unanswered h' => sent h' = sent h end.
Hypothesis handshake_silent : forall h a, match handshake h a with
  | Reached h' | Refused _ h' | Unanswered h' => sent h' = sent h end.

(** What [m] adds to the log goes over [w], and holds [buf] when [m] succeeds. *)
Definition says {A : Type} (w : channel) (buf : bytes) (m : M (pipe H) fault A) : Prop :=
  forall p, way p = w -> exists log, sent (host (m p).2) = sent (host p) ++ log /\
    Forall (fun e => e.1 = w) log /\ (is_ok (m p).1 = true -> (w, buf) ∈ log) /\ way (m p).2 = w.
Lemma write_says w b p :
  way p = w -> exists log, sent (host (write_all b p).2) = sent (host p) ++ log /\
    Forall (fun e => e.1 = w) log /\ (is_ok (write_all b p).1 = true -> log = [(w, b)]) /\
    way (write_all b p).2 = w.
Proof.
  intros <-. unfold write_all. pose proof (put_logs (host p) (way p) b) as L.
  destruct (put (host p) (way p) b); cbn [fst snd host way is_ok].
  - eexists. split; [exact L|]. split; [by repeat constructor|done].
  - destruct L as [L|L]; [eexists; split; [exact L|]; split; [by repeat constructor|done]|].
    exists []. by rewrite app_nil_r.
  - destruct L as [L|L]; [eexists; split; [exact L|]; split; [by repeat constructor|done]|].
    exists []. by rewrite app_nil_r.
Qed.
Lemma frame_says w b : says w b (write_frame b).
Proof.
  intros p Hw. unfold write_frame. cbv [mbind M_bind].
  destruct (write_says w (be32 (wrap 32 (Z.of_nat (length b)))) p Hw) as (log & E & F & _ & W).
  destruct (write_all _ p) as [[[]|e] p1]; cbn [fst snd] in *; [|by exists log].
  destruct (write_says w b p1 W) as (log' & E' & F' & O & W').
  destruct (write_all b p1) as [r p2]; cbn [fst snd] in *. exists (log ++ log').
  split; [by rewrite app_assoc, <- E|]. split; [by apply Forall_app|]. split; [|done].
  intros Ho. rewrite (O Ho). apply elem_of_app. right. left.
Qed.
(** Reading adds nothing. *)
Definition deaf {E A : Type} (m : M (pipe H) E A) : Prop := forall p, host (m p).2 = host p /\ way (m p).2 = way p.
Lemma deaf_bind {E A B : Type} (m : M (pipe H) E A) (k : A -> M (pipe H) E B) :
  deaf m -> (forall a, deaf (k a)) -> deaf (m ≫= k).
Proof.
  intros Hm Hk p. cbv [mbind M_bind]. destruct (m p) as [[a|e] p1] eqn:R; pose proof (Hm p) as Q; rewrite R in Q; [|done].
  destruct Q as [Q1 Q2], (Hk a p1) as [Q3 Q4]. cbn [snd] in *. split; congruence.
Qed.
Lemma deaf_err {E F A : Type} (f : E -> F) (m : M (pipe H) E A) : deaf m -> deaf (with_err f m).
Proof. intros Hm p. unfold with_err. specialize (Hm p). by destruct (m p). Qed.
Lemma deaf_attempt {E F A : Type} (m : M (pipe H) E A) : deaf m -> deaf (attempt (F := F) m).
Proof. intros Hm p. unfold attempt. specialize (Hm p). by destruct (m p). Qed.
Lemma deaf_lift {E A : Type} (r : result E A) : deaf (lift r).
Proof. done. Qed.
Lemma deaf_exact want : deaf (read_exact want).
Proof. intros p. unfold read_exact, get, modify, starve, throw. cbv [mbind M_bind]. by destruct (take_direct _ _) as [[]|]. Qed.
Lemma deaf_fill want buf : deaf (fill_exact want buf).
Proof. intros p. unfold fill_exact, get, modify, starve, throw. cbv [mbind M_bind]. by destruct (take_buffered _ _ _) as [[[]]|]. Qed.
Lemma deaf_direct capped : deaf (read_direct capped).
Proof. apply deaf_bind; [apply deaf_exact|]. intros l. by destruct (capped && _); [|apply deaf_exact]. Qed.
Lemma deaf_buffered capped : deaf (read_buffered capped).
Proof.
  apply deaf_bind; [apply deaf_fill|]. intros [l over]. destruct (capped && _); [done|].
  apply deaf_bind; [apply deaf_fill|]. by intros [b o].
Qed.
Lemma says_bind {A B : Type} w buf (m : M (pipe H) fault A) (k : A -> M (pipe H) fault B) :
  says w buf m -> (forall a, deaf (k a)) -> says w buf (m ≫= k).
Proof.
  intros Hm Hk p Hw. cbv [mbind M_bind]. destruct (Hm p Hw) as (log & E & F & O & W).
  destruct (m p) as [[a|e] p1]; cbn [fst snd is_ok] in *; [|by exists log].
  destruct (Hk a p1) as [E' W']. exists log. rewrite E', W'. auto.
Qed.
Lemma typed_says {A : Type} w read (parse : bytes -> result AntieError A) request buf :
  encode_request request = Ok buf -> deaf read -> says w buf (Exchange.typed read parse request).
Proof.
  intros He Hr. unfold Exchange.typed, lift_antie, ipc_encode. rewrite He.
  assert (says w buf (_ ← write_frame buf; response_buf ← with_err untimed read;
    lift (map_err Failed (parse response_buf)))) as S; [|exact S].
  apply says_bind; [apply frame_says|]. intros _. apply deaf_bind; [by apply deaf_err|intros; apply deaf_lift].
Qed.

(** [m] puts [buf] on the wire in the clear whenever it succeeds; [m] puts
    nothing there in the clear. *)
Definition exposes {A : Type} (buf : bytes) (m : M (lam H) fault A) : Prop := forall l,
  is_ok (m l).1 = true -> exists log, sent (outside (m l).2) = sent (outside l) ++ log /\ (Plain, buf) ∈ log.
Definition veils {A : Type} (m : M (lam H) fault A) : Prop := forall l,
  exists log, sent (outside (m l).2) = sent (outside l) ++ log /\ Forall (fun e => e.1 = Tls) log.
Lemma over_exposes {A : Type} address buf (m : M (pipe H) fault A) :
  says Plain buf m -> exposes buf (_ ← connect_timed address; over Plain m).
Proof.
  intros Hs l. cbv [mbind M_bind]. unfold connect_timed. pose proof (dial_silent (outside l) address) as D.
  destruct (dial (outside l) address) as [h|e h|h]; [|done..]. unfold over. cbn [outside with_outside].
  destruct (Hs (Pipe h Plain [] Waiting) eq_refl) as (log & E & _ & O & _).
  destruct (m _) as [r p]. cbn [fst snd outside with_outside host] in *. intros Ho. exists log. rewrite <- D. auto.
Qed.
Lemma raw_exposes address t tls request buf :
  encode_request request = Ok buf -> exposes buf (send_raw_request (Tcp address t tls) request).
Proof.
  intros He. unfold send_raw_request, lift_antie, ipc_encode. rewrite He.
  apply (over_exposes address buf (raw_tcp buf)). apply says_bind; [apply frame_says|].
  intros _. apply deaf_err, deaf_direct.
Qed.

Lemma health_exposes address t tls uuid buf :
  encode_request (Health ($"health-" ++ uuid)) = Ok buf -> exposes buf (health_check (Tcp address t tls) uuid).
Proof.
  intros He l. unfold health_check, lift_antie, lift, ipc_encode. rewrite He. cbv [mbind M_bind map_err]. unfold connect_untimed.
  pose proof (dial_silent (outside l) address) as D.
  destruct (dial (outside l) address) as [h|e h|h]; [|done..]. unfold over. cbn [outside with_outside].
  assert (says Plain buf (health_tcp buf)) as Hs.
  { unfold health_tcp. apply says_bind; [apply frame_says|]. intros _. apply deaf_bind; [apply deaf_attempt, deaf_exact|].
    intros [x|[[]|]]; by intros p. }
  destruct (Hs (Pipe h Plain [] Waiting) eq_refl) as (log & E & _ & O & _).
  destruct (health_tcp buf _) as [r p]. cbn [fst snd outside with_outside host] in *. intros Ho. exists log. rewrite <- D. auto.
Qed.

(** C30: a client made with TLS uses it for witness requests only.  In every mode
    with a TLS connector, whatever the host does, a witness request writes nothing
    in the clear; but a redeem, an ACK, a genesis, a health check and every raw
    request - set carriers, certificate signing, auth hashes, queries, peer audits
    - that succeeds has put its whole encoding on the wire as plaintext. *)
Theorem tls_covers_witness_only address t roots sni :
  let m := Tcp address t (Some (roots, sni)) in
  (forall r, veils (send_witness_request m r)) /\
  (forall r buf, encode_request (Redeem r) = Ok buf -> exposes buf (send_redeem_request m r)) /\
  (forall r buf, encode_request (Ack r) = Ok buf -> exposes buf (send_ack_request m r)) /\
  (forall i k b g a buf, encode_request (InitGenesis {| ig_request_id := i; ig_public_key := k;
       ig_balance := b; ig_group_members := g; ig_auth_hash := a |}) = Ok buf ->
     exposes buf (send_genesis_dev_request m i k b g a)) /\
  (forall r buf, encode_request r = Ok buf -> exposes buf (send_raw_request m r)) /\
  (forall uuid buf, encode_request (Health ($"health-" ++ uuid)) = Ok buf -> exposes buf (health_check m uuid)).
Proof.
  intros m. repeat split; [|intros; cbn [send_redeem_request send_ack_request send_genesis_dev_request m]..].
  - intros r l. unfold m, send_witness_request. cbv [mbind M_bind]. unfold connect_timed.
    pose proof (dial_silent (outside l) address) as D.
    destruct (dial (outside l) address) as [h|e h|h]; cbn [fst snd outside with_outside];
      [|exists []; by rewrite app_nil_r..].
    unfold tls_connect. cbn [outside with_outside]. pose proof (handshake_silent h sni) as S.
    destruct (handshake h sni) as [h'|e h'|h']; cbn [fst snd outside with_outside];
      [|exists []; rewrite app_nil_r; by rewrite S..].
    unfold over. cbn [outside with_outside].
    destruct (encode_request (Witness r)) as [buf|e] eqn:He.
    + destruct (typed_says Tls (read_direct true) parse_witness_response _ _ He (deaf_direct true)
        (Pipe h' Tls [] Waiting) eq_refl) as (log & E & F & _).
      change (send_request_framed (Witness r)) with (Exchange.typed (read_direct true) parse_witness_response (Witness r)).
      destruct (Exchange.typed _ _ _ _) as [r' p]. cbn [fst snd outside with_outside host] in *.
      exists log. by rewrite E, S, D.
    + unfold send_request_framed, lift_antie, ipc_encode. rewrite He. exists []. rewrite app_nil_r. split; [|done].
      etransitivity; [exact S|exact D].
  - apply over_exposes. by apply (typed_says Plain (read_direct true) parse_redeem_response), deaf_direct.
  - apply over_exposes. by apply (typed_says Plain (read_buffered false) parse_ack_response), deaf_buffered.
  - apply over_exposes. by apply (typed_says Plain (read_direct false) parse_genesis_response), deaf_direct.
  - by apply raw_exposes.
  - by apply health_exposes.
Qed.
End sniffing.

Definition logging_host : LambdaHost (list (channel * bytes)) := {|
  dial := fun h _ => Reached h; handshake := fun h _ => Reached h;
  put := fun (h : list (channel * bytes)) w b =>
    Wrote (h ++ [(w, b)]) (if (length b =? 4)%nat then [] else [Frames.frame $"ok"]) Waiting;
  spawn := fun h _ _ _ => (Err [], h); try_wait := fun h _ => (Running, h); kill := fun h _ => h |}.
Lemma tls_covers_witness_only_witness :
  let m := Tcp (H := Exchange.ex_tls) $"lambda:9000" 30 (Some ([tt], $"lambda")) in
  let run := send_raw_request (EC := ex_errors) (CF := Exchange.ex_core) (LH := logging_host) m (Health $"h") (with_mode []) in
  let health := health_check (EC := ex_errors) (CF := Exchange.ex_core) (LH := logging_host) m $"h" (with_mode []) in
  (is_ok run.1 = true /\ (Plain, $"REQUEST") ∈ outside run.2) /\
  (is_ok health.1 = true /\ (Plain, $"REQUEST") ∈ outside health.2).
Proof.
  intros m run health.
  destruct (tls_covers_witness_only (EC := ex_errors) (CF := Exchange.ex_core) (RU := Exchange.ex_tls)
    (LH := logging_host) (fun h => h) ltac:(done) ltac:(done) ltac:(done) $"lambda:9000" 30 [tt] $"lambda")
    as (_ & _ & _ & _ & R & Hh).
  assert (is_ok run.1 = true) as Ho by (vm_compute; reflexivity).
  assert (is_ok health.1 = true) as Ho' by (vm_compute; reflexivity). split; (split; [done|]).
  - destruct (R (Health $"h") $"REQUEST" eq_refl (with_mode []) Ho) as (log & E & Hl). assert (outside run.2 = log) as -> by exact E. exact Hl.
  - destruct (Hh $"h" $"REQUEST" eq_refl (with_mode []) Ho') as (log & E & Hl). assert (outside health.2 = log) as -> by exact E. exact Hl.
Defined.
End Sniffing.
