(* ===== verification/Supervisor.v ===== *)
(** * The Lambda child and its supervisor: the process half of [lambda_client.rs]

    [start], [stop] and the supervision loop run concurrently; between two await
    points each runs alone (the child is behind a lock), so the loop is a program
    counter with one definition per critical section, and the system is their
    interleaving. *)
From S2P Require Import Prelude Fs Errors CoreTypes Lambda.
Import Errors Core Client.

(** [Instant]s in nanoseconds. *)
Definition SEC : Z := 1000000000.
Definition RESPAWN_POLL_SECS : Z := 2.
Definition RESPAWN_BACKOFF_MIN_SECS : Z := 1.
Definition RESPAWN_BACKOFF_MAX_SECS : Z := 60.
Definition RESPAWN_STABLE_SECS : Z := 60.

(** The loop's variables and where it stands: asleep, past the first look at the
    flag, backing off, past the second, or telling a new child its carriers. *)
Inductive counter : Type :=
  | Sleeping (until : Z)
  | Polled
  | BackingOff (until : Z)
  | Respawning
  | Repushing (uris : list bytes)
  | Finished.
Record loop : Type := { at_ : counter; backoff_secs : Z; last_spawn : Z }.
Definition loop_start (now : Z) : loop :=
  {| at_ := Sleeping (now + RESPAWN_POLL_SECS * SEC); backoff_secs := RESPAWN_BACKOFF_MIN_SECS;
     last_spawn := now |}.
Definition goto (c : counter) (s : loop) : loop :=
  {| at_ := c; backoff_secs := backoff_secs s; last_spawn := last_spawn s |}.
(** The end of an iteration that respawned or tried to. *)
Definition iterate (now : Z) (s : loop) : loop :=
  {| at_ := Sleeping (now + RESPAWN_POLL_SECS * SEC);
     backoff_secs := Z.min (backoff_secs s * 2) RESPAWN_BACKOFF_MAX_SECS; last_spawn := last_spawn s |}.

(** $AXIOM_LAMBDA_LOG, else [logs/lambda.log] beside the configuration's
    directory, else the working directory. *)
Definition lambda_log_path (env : option path) (config_path : path) : path :=
  match env with
  | Some p => p
  | None =>
      if (2 <=? length config_path)%nat
      then join (join (parent (parent config_path)) $"logs") $"lambda.log"
      else [$"lambda.log"]
  end.

Section supervisor.
Context `{EC : ErrorsCrate} `{CV : CoreValues} `{CF : !CoreFns} `{RU : Rustls} {H : Type}
  `{LH : LambdaHost H} `{HD : HasDisk H}.
(** [{:?}] of a path. *)
Context (show_path : path -> bytes).
Abbreviation L A := (M (lam H) AntieError A).

Definition on_disk {E A : Type} (m : M world E A) : M (lam H) E A :=
  zoom (fun l => disk_of (outside l)) (fun d l => with_outside (set_disk d (outside l)) l) m.
Definition spawn_process (binary_path config_path log : path) : L N := fun l =>
  let '(r, h) := spawn (outside l) binary_path config_path log in
  (map_err (fun e => LambdaError ($"Failed to spawn Lambda: " ++ e)) r, with_outside h l).
Definition spawn_child_into (env : option path) (binary_path config_path : path) : L unit :=
  let lambda_log_path := lambda_log_path env config_path in
  _ ← attempt (E := io_error) (on_disk (create_dir_all (parent lambda_log_path)));
  _ ← with_err (fun e => LambdaError ($"Failed to open Lambda log " ++ show_path lambda_log_path
                                       ++ $": " ++ io_msg e)) (on_disk (open_append lambda_log_path));
  _ ← with_err (fun e => LambdaError ($"Failed to clone Lambda log fd: " ++ io_msg e)) (on_disk syscall);
  p ← spawn_process binary_path config_path lambda_log_path;
  modify (with_child (Some {| pid := p; out := []; out_end := Waiting |})).

Definition start (env : option path) (m : LambdaMode) : L unit :=
  match m with
  | Tcp _ _ _ => mret tt
  | Subprocess binary_path config_path =>
      l ← get;
      match child l with
      | Some _ => mret tt
      | None => _ ← spawn_child_into env binary_path config_path; modify (with_alive true)
      end
  end.
(** [stop]: first the flag, then, under the lock, the child. *)
Definition stop_mark (l : lam H) : lam H := with_shutting_down true l.
Definition stop_kill (l : lam H) : lam H :=
  match child l with
  | Some c => with_outside (kill (outside l) (pid c)) (with_child None l)
  | None => l
  end.

(** ** The loop, for a client in subprocess mode *)
Definition look_at_flag (next : counter) (l : lam H) (s : loop) : lam H * loop :=
  (l, goto (if shutting_down l then Finished else next) s).
(** Whether a child must be spawned; a dead one is reaped. *)
Definition needs_spawn (l : lam H) : bool * lam H :=
  match child l with
  | None => (true, l)
  | Some c =>
      let '(w, h) := try_wait (outside l) (pid c) in
      match w with
      | Exit _ => (true, with_child None (with_outside h l))
      | Running | WaitFailed => (false, with_outside h l)
      end
  end.
Definition check_child (now : Z) (l : lam H) (s : loop) : lam H * loop :=
  let '(needs, l) := needs_spawn l in
  if needs then (with_alive false l, goto (BackingOff (now + backoff_secs s * SEC)) s)
  else (with_alive true l,
        {| at_ := Sleeping (now + RESPAWN_POLL_SECS * SEC);
           backoff_secs := if RESPAWN_STABLE_SECS <=? (now - last_spawn s) / SEC
                           then RESPAWN_BACKOFF_MIN_SECS else backoff_secs s;
           last_spawn := last_spawn s |}).
Definition respawn (env : option path) (binary_path config_path : path) (now : Z) (l : lam H) (s : loop)
    : lam H * loop :=
  match child l with
  | Some _ => (l, iterate now s)
  | None =>
      match spawn_child_into env binary_path config_path l with
      | (Ok _, l) =>
          let s := {| at_ := at_ s; backoff_secs := backoff_secs s; last_spawn := now |} in
          match carrier_uris l with
          | Some uris => (with_alive true l, goto (Repushing uris) s)
          | None => (with_alive true l, iterate now s)
          end
      | (Err _, l) => (l, iterate now s)
      end
  end.
(** The push's failure is only logged; one that never returns keeps the loop. *)
Definition repush (m : LambdaMode) (rid : bytes) (uris : list bytes) (now : Z) (l : lam H) (s : loop)
    : lam H * loop :=
  match send_set_carriers_request m ($"set-carriers-respawn-" ++ rid) uris l with
  | (Err Hung, l) | (Err (Exited _), l) => (l, s)
  | (_, l) => (l, iterate now s)
  end.
(** One turn at time [now]; [None] while a sleep lasts and at the end. *)
Definition turn (env : option path) (m : LambdaMode) (rid : bytes) (now : Z) (l : lam H) (s : loop)
    : option (lam H * loop) :=
  match m with
  | Tcp _ _ _ => None
  | Subprocess binary_path config_path =>
      match at_ s with
      | Sleeping until => if until <=? now then Some (look_at_flag Polled l s) else None
      | Polled => Some (check_child now l s)
      | BackingOff until => if until <=? now then Some (look_at_flag Respawning l s) else None
      | Respawning => Some (respawn env binary_path config_path now l s)
      | Repushing uris => Some (repush m rid uris now l s)
      | Finished => None
      end
  end.

(** ** The system: the loop, one [stop], the clock, and what else uses or befalls
    the child *)
Inductive stopper : Type := NotCalled | Marked | Returned.
Record system : Type := Sys { client : lam H; super : loop; clock : Z; stopping : stopper }.
(** A request through the client, or the child dying: neither sets the flag nor
    replaces the child. *)
Definition same_child (l l' : lam H) : Prop :=
  shutting_down l' = shutting_down l /\ (pid <$> child l') = (pid <$> child l).
(** The respawn attempts of a turn: when, and after which back-off. *)
Definition attempts (t : Z) (s : loop) : list (Z * Z) :=
  match at_ s with Respawning => [(t, backoff_secs s)] | _ => [] end.
Inductive step (env : option path) (m : LambdaMode) (rid : bytes) : system -> list (Z * Z) -> system -> Prop :=
  | time_passes l s t x d : 0 <= d -> step env m rid (Sys l s t x) [] (Sys l s (t + d) x)
  | loop_turns l s t x l' s' :
      turn env m rid t l s = Some (l', s') -> step env m rid (Sys l s t x) (attempts t s) (Sys l' s' t x)
  | stop_marks l s t : step env m rid (Sys l s t NotCalled) [] (Sys (stop_mark l) s t Marked)
  | stop_kills l s t : step env m rid (Sys l s t Marked) [] (Sys (stop_kill l) s t Returned)
  | others_act l s t x l' : same_child l l' -> step env m rid (Sys l s t x) [] (Sys l' s t x).
(** The attempts of a run, latest first. *)
Inductive runs (env : option path) (m : LambdaMode) (rid : bytes) (x : system) : list (Z * Z) -> system -> Prop :=
  | runs_refl : runs env m rid x [] x
  | runs_step log y a z : runs env m rid x log y -> step env m rid y a z -> runs env m rid x (a ++ log) z.
End supervisor.
