(* ===== verification/SupervisorTheorems.v ===== *)
(** * The theorems on the supervisor of the Lambda child *)
From S2P Require Import Prelude Fs Errors CoreTypes Lambda LambdaTheorems Supervisor.
Import Errors Core Client.

Section supervisor.
Context `{EC : ErrorsCrate} `{CV : CoreValues} `{CF : !CoreFns} `{RU : Rustls} {H : Type}
  `{LH : LambdaHost H} `{HD : HasDisk H} (show_path : path -> bytes).
Context (env : option path) (binary config : path) (rid : bytes).
Abbreviation mode := (Subprocess binary config).
Abbreviation turn_ := (turn show_path env mode rid).
Abbreviation step_ := (step show_path env mode rid).
Abbreviation runs_ := (runs show_path env mode rid).

(** ** What the pieces keep *)
Lemma same_child_refl (l : lam H) : same_child l l.
Proof. done. Qed.
Lemma same_child_trans (a b c : lam H) : same_child a b -> same_child b c -> same_child a c.
Proof. intros [] []. split; congruence. Qed.
(** [m] neither sets the flag nor replaces the child. *)
Definition tame {E A : Type} (m : M (lam H) E A) : Prop := forall l, same_child l (m l).2.
Lemma tame_bind {E A B : Type} (m : M (lam H) E A) (k : A -> M (lam H) E B) :
  tame m -> (forall a, tame (k a)) -> tame (m ≫= k).
Proof.
  intros Hm Hk l. cbv [mbind M_bind]. specialize (Hm l). destruct (m l) as [[a|e] l']; [|done].
  eapply same_child_trans; [exact Hm|apply Hk].
Qed.
Lemma tame_err {E F A : Type} (f : E -> F) (m : M (lam H) E A) : tame m -> tame (with_err f m).
Proof. intros Hm l. unfold with_err. specialize (Hm l). by destruct (m l). Qed.
Lemma tame_attempt {E F A : Type} (m : M (lam H) E A) : tame m -> tame (attempt (F := F) m).
Proof. intros Hm l. unfold attempt. specialize (Hm l). by destruct (m l). Qed.
Lemma tame_lift {E A : Type} (r : result E A) : tame (lift r).
Proof. done. Qed.
Lemma tame_disk {E A : Type} (m : M world E A) : tame (on_disk m).
Proof. intros l. unfold on_disk, zoom. by destruct (m _). Qed.
Lemma tame_dial address : tame (connect_timed (H := H) address).
Proof. intros l. unfold connect_timed. by destruct (dial _ _). Qed.
Lemma tame_over {A : Type} w (m : M (Ipc.pipe H) fault A) : tame (over w m).
Proof. intros l. unfold over. by destruct (m _). Qed.
Lemma tame_child {A : Type} (m : M (Ipc.pipe H) fault A) : tame (on_child m).
Proof.
  intros l. unfold on_child. destruct (child l) as [c|] eqn:E; [|done]. destruct (m _) as [r p].
  split; cbn; [done|]. by rewrite E.
Qed.
Lemma tame_raw m request : tame (send_raw_request (H := H) m request).
Proof.
  apply tame_bind; [apply tame_lift|]. intros b. destruct m; [|apply tame_child].
  apply tame_bind; [apply tame_dial|intros; apply tame_over].
Qed.
Lemma tame_carriers m i uris : tame (send_set_carriers_request (H := H) m i uris).
Proof.
  apply tame_bind; [done|]. intros _. apply tame_bind; [|intros; apply tame_lift].
  apply tame_bind; [apply tame_raw|intros; apply tame_lift].
Qed.
(** A spawn sets the child or, when it fails, changes nothing of the client. *)
Lemma spawn_fields b c (l : lam H) :
  let r := spawn_child_into show_path env b c l in
  shutting_down r.2 = shutting_down l /\
  match r.1 with Ok _ => child r.2 <> None | Err _ => pid <$> child r.2 = pid <$> child l end.
Proof.
  unfold spawn_child_into. set (log := lambda_log_path env c).
  assert (tame (_ ← attempt (F := AntieError) (E := io_error) (on_disk (create_dir_all (parent log)));
     _ ← with_err (fun e => LambdaError ($"Failed to open Lambda log " ++ show_path log
                                       ++ $": " ++ io_msg e)) (on_disk (open_append log));
     _ ← with_err (fun e => LambdaError ($"Failed to clone Lambda log fd: " ++ io_msg e)) (on_disk syscall);
     spawn_process b c log)) as T.
  { repeat (apply tame_bind; [|intros _]);
      [apply tame_attempt, tame_disk|apply tame_err, tame_disk|apply tame_err, tame_disk|].
    intros l0. unfold spawn_process. by destruct (spawn _ _ _ _). }
  specialize (T l). revert T. cbv [mbind M_bind attempt with_err modify].
  destruct (on_disk (create_dir_all (parent log)) l) as [r1 l1].
  destruct (on_disk (open_append log) l1) as [[[]|e] l2]; cbn [map_err]; [|by intros []].
  destruct (on_disk syscall l2) as [[[]|e] l3]; cbn [map_err]; [|by intros []].
  destruct (spawn_process b c log l3) as [[p|e] l4]; intros []; done.
Qed.

(** ** The pace of respawning *)
Definition follows (a2 a1 : Z * Z) : Prop :=
  a1.1 + (RESPAWN_POLL_SECS + a2.2) * SEC <= a2.1 /\
  (a2.2 = Z.min (a1.2 * 2) RESPAWN_BACKOFF_MAX_SECS \/
   a2.2 = RESPAWN_BACKOFF_MIN_SECS /\ a1.1 + (RESPAWN_STABLE_SECS + RESPAWN_POLL_SECS + 1) * SEC <= a2.1).
(** At [base], an iteration after the attempt [a] with back-off [bk] next. *)
Definition settled (a : Z * Z) (bk base : Z) : Prop :=
  a.1 <= base /\
  (bk = Z.min (a.2 * 2) RESPAWN_BACKOFF_MAX_SECS \/
   bk = RESPAWN_BACKOFF_MIN_SECS /\ a.1 + RESPAWN_STABLE_SECS * SEC <= base).
Definition since (x : system (H := H)) (a : Z * Z) : Prop :=
  let bk := backoff_secs (super x) in
  let mine := child (client x) = None \/ last_spawn (super x) = a.1 in
  match at_ (super x) with
  | Sleeping u => settled a bk (u - RESPAWN_POLL_SECS * SEC) /\ mine
  | Polled => settled a bk (clock x - RESPAWN_POLL_SECS * SEC) /\ mine
  | BackingOff u => settled a bk (u - (RESPAWN_POLL_SECS + bk) * SEC)
  | Respawning => settled a bk (clock x - (RESPAWN_POLL_SECS + bk) * SEC)
  | Repushing _ => a.1 <= clock x /\ bk = a.2 /\ last_spawn (super x) = a.1
  | Finished => True
  end.
Record paced (log : list (Z * Z)) (x : system (H := H)) : Prop := {
  bounded : 1 <= backoff_secs (super x) <= RESPAWN_BACKOFF_MAX_SECS;
  vacant : match at_ (super x) with BackingOff _ | Respawning => child (client x) = None | _ => True end;
  recent : forall a, head log = Some a -> since x a;
  sane : Forall (fun a => 1 <= a.2 <= RESPAWN_BACKOFF_MAX_SECS) log;
  chained : forall i a2 a1, log !! i = Some a2 -> log !! S i = Some a1 -> follows a2 a1;
}.
Ltac clocks := unfold settled, follows, RESPAWN_POLL_SECS, RESPAWN_BACKOFF_MIN_SECS,
  RESPAWN_BACKOFF_MAX_SECS, RESPAWN_STABLE_SECS, SEC in *; cbn [fst snd] in *.
Lemma settled_later a bk base base' : settled a bk base -> base <= base' -> settled a bk base'.
Proof. clocks. lia. Qed.
Lemma no_child (l l' : lam H) : same_child l l' -> child l = None -> child l' = None.
Proof. intros [_ E] N. rewrite N in E. by destruct (child l'). Qed.

(** Time passing, the other parties, and the end of the loop keep the pace. *)
Lemma paced_time log l s t x d : 0 <= d -> paced log (Sys l s t x) -> paced log (Sys l s (t + d) x).
Proof.
  intros Hd [B V R S C]. split; [done|done| |done|done]. intros a Ha. specialize (R a Ha). revert R.
  unfold since. cbn [super client Supervisor.clock]. destruct (at_ s); try done.
  - intros [Hs ?]. split; [|done]. eapply settled_later; [exact Hs|lia].
  - intros Hs. eapply settled_later; [exact Hs|lia].
  - intros [? ?]. split; [lia|done].
Qed.
Lemma paced_client log l l' s t x x' :
  (child l = None -> child l' = None) -> paced log (Sys l s t x) -> paced log (Sys l' s t x').
Proof.
  intros Hn [B V R S C]. split; [done| | |done|done].
  - cbn [super client] in *. destruct (at_ s); auto.
  - intros a Ha. specialize (R a Ha). revert R. unfold since. cbn [super client Supervisor.clock].
    destruct (at_ s); try done; intros [? [?|?]]; auto.
Qed.
Lemma paced_goto log l l' s t x c :
  paced log (Sys l s t x) -> match c with BackingOff _ | Respawning => child l' = None | _ => True end ->
  (forall a, since (Sys l s t x) a -> since (Sys l' (goto c s) t x) a) ->
  paced log (Sys l' (goto c s) t x).
Proof.
  intros [B V R S C] Hv Hs. split; [done|done| |done|done]. intros a Ha. by apply Hs, R.
Qed.
(** Starting over after an attempt, or without one. *)
Lemma paced_iterate log l l' s s' t x :
  paced log (Sys l s t x) -> backoff_secs s' = backoff_secs s ->
  (forall a, head log = Some a -> a.1 <= t /\ backoff_secs s = a.2 /\ (child l' = None \/ last_spawn s' = a.1)) ->
  paced log (Sys l' (iterate t s') t x).
Proof.
  intros [B V R S C] Hb Ha. split; cbn [super at_ iterate client] in *; [|done| |done|done].
  - cbn [backoff_secs iterate]. rewrite Hb. clocks. lia.
  - intros a E. specialize (Ha a E). unfold since. cbn [at_ iterate super backoff_secs client last_spawn].
    rewrite Hb. split; [|tauto]. clocks. lia.
Qed.
Lemma paced_attempt log l s t x :
  at_ s = Respawning -> paced log (Sys l s t x) -> paced ((t, backoff_secs s) :: log) (Sys l (goto Finished s) t x).
Proof.
  intros E [B V R S C]. split; [done|done|by intros a _|by constructor|].
  intros [|i] a2 a1; [|by apply C]. cbn [lookup list_lookup]. intros [= <-] H1.
  assert (since (Sys l s t x) a1) as H2 by (apply R; by destruct log). unfold since in H2. cbn [super] in H2.
  rewrite E in H2. cbn [Supervisor.clock backoff_secs] in H2. clocks. lia.
Qed.
Lemma paced_turn log l s t x l' s' :
  turn_ t l s = Some (l', s') -> paced log (Sys l s t x) -> paced (attempts t s ++ log) (Sys l' s' t x).
Proof.
  intros T P. unfold turn in T. unfold attempts. destruct (at_ s) as [u| |u| |uris|] eqn:E; cbn [app]; [..|done].
  - destruct (Z.leb_spec u t); [|done]. injection T as <- <-. unfold look_at_flag.
    destruct (shutting_down l); (apply (paced_goto _ l); [done|done|]); intros a; [done|].
    unfold since. cbn [super]. rewrite E. cbn. intros [Hs ?]. split; [|done].
    eapply settled_later; [exact Hs|clocks; lia].
  - injection T as T. unfold check_child in T.
    assert (exists l1, needs_spawn l = (bool_decide (child l1 = None), l1) /\
              (child l = None -> child l1 = None)) as (l1 & N & Hn).
    { unfold needs_spawn. destruct (child l) as [c|] eqn:C; [|exists l; by rewrite C].
      destruct (try_wait (outside l) (pid c)) as [[]]; eexists; (split; [f_equal|]); cbn; try done;
        rewrite ?C; done. }
    rewrite N in T. case_bool_decide as D; injection T as <- <-.
    + apply (paced_goto _ l); [done|done|]. intros a. unfold since. cbn [super at_ goto backoff_secs Supervisor.clock]. rewrite E.
      intros [Hs _]. eapply settled_later; [exact Hs|clocks; lia].
    + destruct P as [B V R S C]. split; cbn [super at_ client] in *; [|done| |done|done].
      * cbn [backoff_secs] in *. destruct (_ <=? _); clocks; lia.
      * intros a Ha. specialize (R a Ha). revert R. unfold since.
        cbn [super at_ backoff_secs client last_spawn Supervisor.clock with_alive child]. rewrite E.
        intros [Hs [?|Hl]]; [by destruct D; auto|]. split; [|by right].
        destruct (Z.leb_spec RESPAWN_STABLE_SECS ((t - last_spawn s) / SEC)) as [Hq|]; [|eapply settled_later; [exact Hs|clocks; lia]].
        rewrite Hl in Hq. pose proof (Z.mul_div_le (t - a.1) SEC ltac:(done)). clocks. lia.
  - destruct (Z.leb_spec u t); [|done]. injection T as <- <-. unfold look_at_flag.
    assert (child l = None) as Hc by (pose proof (vacant _ _ P) as V; cbn [super client] in V; by rewrite E in V).
    destruct (shutting_down l); (apply (paced_goto _ l); [done|done|]); intros a; [done|].
    unfold since. cbn [super]. rewrite E. cbn [at_ goto backoff_secs super Supervisor.clock]. intros Hs.
    eapply settled_later; [exact Hs|clocks; lia].
  - assert (child l = None) as Hc by (pose proof (vacant _ _ P) as V; cbn [super client] in V; by rewrite E in V).
    injection T as T. unfold respawn in T. rewrite Hc in T. pose proof (paced_attempt _ _ _ _ _ E P) as P'.
    pose proof (spawn_fields binary config l) as [_ F].
    destruct (spawn_child_into show_path env binary config l) as [[[]|e] l1]; cbn [fst snd] in F.
    + destruct (carrier_uris l1) as [uris|]; injection T as <- <-.
      * destruct P' as [B V R S C]. split; [done|done| |done|done]. intros a [= <-]. clear R.
        unfold since. cbn. clocks. lia.
      * apply (paced_iterate _ l _ (goto Finished s)); [exact P'|done|]. intros a [= <-]. cbn. split; [lia|]. auto.
    + injection T as <- <-. apply (paced_iterate _ l _ (goto Finished s)); [exact P'|done|]. intros a [= <-]. cbn.
      split; [lia|]. split; [done|]. left. rewrite Hc in F. by destruct (child l1).
  - injection T as T. unfold repush in T.
    pose proof (tame_carriers mode ($"set-carriers-respawn-" ++ rid) uris l) as F.
    assert (forall l1, same_child l l1 -> paced log (Sys l1 (iterate t s) t x)) as Hd.
    { intros l1 F1. apply (paced_iterate _ l _ s); [done|done|]. intros a Ha.
      pose proof (recent _ _ P a Ha) as R. unfold since in R. cbn [super] in R. rewrite E in R.
      cbn [Supervisor.clock] in R. destruct R as (? & ? & ?). auto. }
    assert (forall l1, same_child l l1 -> paced log (Sys l1 s t x)) as Hs.
    { intros l1 F1. eapply paced_client; [exact (no_child _ _ F1)|exact P]. }
    destruct (send_set_carriers_request _ _ _ _) as [[n|[e|z|]] l1]; injection T as <- <-; auto.
Qed.
Lemma paced_runs t0 l log x :
  runs_ (Sys l (loop_start t0) t0 NotCalled) log x -> paced log x.
Proof.
  induction 1 as [|log y a z Hr IH Hs].
  - split; [cbn; clocks; lia|done|done|done|done].
  - destruct Hs; cbn [app]; [by apply paced_time|by eapply paced_turn|..];
      (eapply paced_client; [|exact IH]).
    + done.
    + unfold stop_kill. by case_match.
    + by apply no_child.
Qed.

(** C31: respawning is paced.  On every run from the start of supervision, with
    requests, dying children, [stop] and the clock interleaved at will: every
    attempt to respawn waited a back-off between one and sixty seconds, on top of
    the two-second poll since the attempt before; and a back-off is twice the one
    before, up to sixty, or, when a child lived for a minute in between, one.  So
    a child that keeps dying costs one attempt a minute. *)
Theorem respawns_paced t0 l log x :
  runs_ (Sys l (loop_start t0) t0 NotCalled) log x ->
  Forall (fun a => 1 <= a.2 <= RESPAWN_BACKOFF_MAX_SECS) log /\
  forall i t2 b2 t1 b1, log !! i = Some (t2, b2) -> log !! S i = Some (t1, b1) ->
    t1 + (RESPAWN_POLL_SECS + b2) * SEC <= t2 /\
    (b2 = Z.min (b1 * 2) RESPAWN_BACKOFF_MAX_SECS \/
     b2 = RESPAWN_BACKOFF_MIN_SECS /\ t1 + 63 * SEC <= t2).
Proof.
  intros R%paced_runs. split; [apply (sane _ _ R)|]. intros i t2 b2 t1 b1 H2 H1.
  exact (chained _ _ R i (t2, b2) (t1, b1) H2 H1).
Qed.

(** ** [stop] against the loop *)
Definition settled_down (pids : option N) (x : system (H := H)) : Prop :=
  shutting_down (client x) = true /\ at_ (super x) <> Respawning /\
  (pid <$> child (client x) = pids \/ child (client x) = None).
Lemma turn_settled t l s l' s' x x' p :
  turn_ t l s = Some (l', s') -> settled_down p (Sys l s t x) ->
  settled_down p (Sys l' s' t x') /\ attempts t s = [].
Proof.
  intros T (Hf & Hr & Hc). cbn [client super] in *. unfold turn in T. unfold attempts.
  destruct (at_ s) as [u| |u| |uris|] eqn:E; try done.
  - destruct (u <=? t); [|done]. injection T as <- <-. unfold look_at_flag. by rewrite Hf.
  - injection T as T. unfold check_child, needs_spawn in T.
    destruct (child l) as [c|] eqn:C; [|injection T as <- <-; split; [|done]; split; [done|split; [done|by right]]].
    destruct (try_wait (outside l) (pid c)) as [[] h]; injection T as <- <-; (split; [|done]);
      (split; [done|split; [done|]]); cbn; rewrite ?C; auto.
  - destruct (u <=? t); [|done]. injection T as <- <-. unfold look_at_flag. by rewrite Hf.
  - injection T as T. unfold repush in T.
    destruct (tame_carriers mode ($"set-carriers-respawn-" ++ rid) uris l) as [F1 F2]. rewrite Hf in F1.
    assert (forall l1, shutting_down l1 = true -> pid <$> child l1 = pid <$> child l -> forall s1, at_ s1 <> Respawning ->
      settled_down p (Sys l1 s1 t x')) as G.
    { intros l1 G1 G2 s1 G3. split; [done|]. split; [done|]. cbn [client]. rewrite G2.
      destruct Hc as [Hc|Hc]; [by left|right]. rewrite Hc in G2. by destruct (child l1). }
    destruct (send_set_carriers_request _ _ _ _) as [[n|[e|z|]] l1]; injection T as <- <-; (split; [|done]);
      apply G; try done; by rewrite E.
Qed.
Lemma settled_runs p x log y : runs_ x log y -> settled_down p x -> log = [] /\ settled_down p y.
Proof.
  induction 1 as [|log y a z Hr IH Hs]; intros Hx; [done|]. destruct (IH Hx) as [-> D].
  destruct Hs as [l s t w d Hd|l s t w l' s' T|l s t|l s t|l s t w l' [F1 F2]].
  - split; [done|exact D].
  - by destruct (turn_settled _ _ _ _ _ w w p T D) as [D' ->].
  - split; [done|]. destruct D as (F & R & C). by repeat split.
  - split; [done|]. destruct D as (F & R & C). unfold stop_kill. cbn [client super] in *.
    destruct (child l) as [c|] eqn:E; (split; [done|split; [done|]]); right; [done|exact E].
  - split; [done|]. destruct D as (F & R & C). cbn [client super] in *. split; [by rewrite <- F|].
    split; [done|]. cbn [client]. rewrite F2. destruct C as [C|C]; [by left|right]. rewrite C in F2.
    by destruct (child l').
Qed.

(** [stop] can lose its race.  The comment promises that the loop never
    respawns a child that is being stopped.  It holds when [stop] raises the flag
    anywhere but between the loop's second look at it and the spawn: from then on
    no run attempts another respawn, and no other child ever runs.  But in that
    window - which stays open for as long as the child's lock is held - [stop]
    finds no child, returns, and the loop then spawns one: a Lambda that runs
    after [stop] returned, and that no later step of anybody kills. *)
Theorem stop_can_lose_its_race :
  (forall x log y, shutting_down (client x) = true -> at_ (super x) <> Respawning -> runs_ x log y ->
     log = [] /\ (pid <$> child (client y) = pid <$> child (client x) \/ child (client y) = None)) /\
  (forall l s t l2, at_ s = Respawning -> child l = None ->
     spawn_child_into show_path env binary config (stop_mark l) = (Ok tt, l2) ->
     exists y c, runs_ (Sys l s t NotCalled) [(t, backoff_secs s)] y /\
       stopping y = Returned /\ child (client y) = Some c /\
       forall log z, runs_ y log z ->
         log = [] /\ (pid <$> child (client z) = Some (pid c) \/ child (client z) = None)).
Proof.
  split.
  - intros x log y F R Hr. destruct (settled_runs (pid <$> child (client x)) _ _ _ Hr) as [-> (_ & _ & C)]; [|done].
    split; [done|split; [done|by left]].
  - intros l s t l2 E Hc Hs. pose proof (spawn_fields binary config (stop_mark l)) as [Hf Hn].
    rewrite Hs in Hf, Hn. cbn [fst snd] in *.
    destruct (child l2) as [c|] eqn:C; [|done].
    assert (exists s2, respawn show_path env binary config t (stop_mark l) s = (with_alive true l2, s2) /\
              at_ s2 <> Respawning) as (s2 & R & N).
    { unfold respawn. change (child (stop_mark l)) with (child l). rewrite Hc, Hs.
      destruct (carrier_uris l2); by eexists. }
    assert (stop_kill (stop_mark l) = stop_mark l) as K by (unfold stop_kill; cbn; by rewrite Hc).
    assert (settled_down (Some (pid c)) (Sys (with_alive true l2) s2 t Returned)) as D
      by (split; [done|split; [done|left; cbn; by rewrite C]]).
    exists (Sys (with_alive true l2) s2 t Returned), c. split; [|split; [done|split; [exact C|]]].
    + assert (attempts t s = [(t, backoff_secs s)]) as <- by (unfold attempts; by rewrite E).
      rewrite <- (app_nil_r (attempts t s)).
      apply (runs_step _ _ _ _ _ _ (Sys (stop_mark l) s t Returned)); [|apply loop_turns; unfold turn; by rewrite E, R].
      apply (runs_step _ _ _ _ _ [] (Sys (stop_mark l) s t Marked) []); [|rewrite <- K at 2; apply stop_kills].
      apply (runs_step _ _ _ _ _ [] (Sys l s t NotCalled) []); [apply runs_refl|apply stop_marks].
    + intros log z Hz. destruct (settled_runs _ _ _ _ Hz D) as [-> (_ & _ & D')]. done.
Qed.

(** ** Running the system: ticks and turns *)
Inductive move : Type := Tick (d : nat) | Turn.
Fixpoint simulate (ms : list move) (log : list (Z * Z)) (x : system (H := H)) : option (list (Z * Z) * system (H := H)) :=
  match ms with
  | [] => Some (log, x)
  | Tick d :: ms' => simulate ms' log (Sys (client x) (super x) (clock x + Z.of_nat d * SEC) (stopping x))
  | Turn :: ms' =>
      match turn_ (clock x) (client x) (super x) with
      | Some (l, s) => simulate ms' (attempts (clock x) (super x) ++ log) (Sys l s (clock x) (stopping x))
      | None => None
      end
  end.
Lemma simulate_runs ms x0 : forall log x log' y,
  runs_ x0 log x -> simulate ms log x = Some (log', y) -> runs_ x0 log' y.
Proof.
  induction ms as [|[d|] ms IH]; intros log x log' y Hr; cbn [simulate]; [by intros [= <- <-]|..]; intros E.
  - eapply IH; [|exact E]. destruct x as [l s t w]. change log with ([] ++ log).
    eapply runs_step; [exact Hr|]. apply time_passes. unfold SEC. lia.
  - destruct (turn_ _ _ _) as [[l' s']|] eqn:T; [|done]. eapply IH; [|exact E]. destruct x as [l s t w].
    eapply runs_step; [exact Hr|]. by apply loop_turns.
Qed.
End supervisor.

(** A host on a disk, whose children are dead or run for ever. *)
Definition mortal (alive : bool) : LambdaHost world := {|
  dial := fun h _ => Refused [] h; handshake := fun h _ => Refused [] h;
  put := fun h _ _ => Stuck h;
  spawn := fun h _ _ _ => (if alive then Ok 8%N else Err $"no such file", h);
  try_wait := fun h p => (if (p =? 8)%N then Running else Exit 9, h); kill := fun h _ => h |}.
Definition ex_lam : lam world :=
  Lam {| fs := ∅; oracle := []; hist := []; listing := fun l => l |}
      (Some {| pid := 7; out := []; out_end := Closed |}) true false None.
Definition to_spawn : list move := [Tick 2; Turn; Turn; Tick 1; Turn].

Lemma respawns_paced_witness :
  exists x, runs (EC := ex_errors) (CF := Exchange.ex_core) (LH := mortal false) (RU := Exchange.ex_tls) (fun _ => []) None
    (Subprocess [$"lambda"] [$"antie.toml"]) $"1" (Sys ex_lam (loop_start 0) 0 NotCalled)
    [(7 * SEC, 2); (3 * SEC, 1)] x /\
  3 * SEC + (2 + 2) * SEC <= 7 * SEC.
Proof.
  assert (exists x, simulate (EC := ex_errors) (CF := Exchange.ex_core) (LH := mortal false) (RU := Exchange.ex_tls)
    (fun _ => []) None [$"lambda"] [$"antie.toml"] $"1"
    (to_spawn ++ [Turn; Tick 2; Turn; Turn; Tick 2; Turn; Turn]) [] (Sys ex_lam (loop_start 0) 0 NotCalled)
    = Some ([(7 * SEC, 2); (3 * SEC, 1)], x)) as [x E] by (eexists; vm_compute; reflexivity).
  exists x. pose proof (simulate_runs _ _ _ _ _ _ _ _ _ _ _ (runs_refl _ _ _ _ _) E) as R. split; [exact R|].
  destruct (respawns_paced (EC := ex_errors) (CF := Exchange.ex_core) (LH := mortal false) _ _ _ _ _ _ _ _ _ R) as [_ P].
  exact (proj1 (P 0%nat _ _ _ _ eq_refl eq_refl)).
Defined.
Lemma stop_can_lose_its_race_witness :
  exists l t s, simulate (EC := ex_errors) (CF := Exchange.ex_core) (LH := mortal true) (RU := Exchange.ex_tls)
    (fun _ => []) None [$"lambda"] [$"antie.toml"] $"1" to_spawn [] (Sys ex_lam (loop_start 0) 0 NotCalled)
    = Some ([], Sys l s t NotCalled) /\
  exists y, runs (EC := ex_errors) (CF := Exchange.ex_core) (LH := mortal true) (RU := Exchange.ex_tls) (fun _ => []) None
    (Subprocess [$"lambda"] [$"antie.toml"]) $"1" (Sys l s t NotCalled) [(t, backoff_secs s)] y /\
  stopping y = Returned /\ child (client y) <> None.
Proof.
  do 3 eexists. split; [vm_compute; reflexivity|].
  match goal with |- exists y, runs _ _ _ _ (Sys ?l ?s ?t _) _ _ /\ _ =>
    destruct (proj2 (stop_can_lose_its_race (EC := ex_errors) (CF := Exchange.ex_core) (LH := mortal true)
      (RU := Exchange.ex_tls) (HD := disk_world) (fun _ => []) None [$"lambda"] [$"antie.toml"] $"1") l s t _ eq_refl eq_refl
      ltac:(vm_compute; reflexivity)) as (y & c & R & S & C & _)
  end.
  exists y. split; [exact R|]. split; [exact S|]. by rewrite C.
Defined.
