(* ===== verification/Pgp.v ===== *)
(** * The key cache: [pgp.rs]

    OpenPGP itself (certificates, encryption) and the key server are other
    people's: [OpenPgp] and [Http].  The cache is the process-wide
    [KEY_CACHE]; before its first use it is empty. *)
From S2P Require Import Prelude.

Class OpenPgp : Type := {
    cert_parses : bytes -> bool;
    encrypt : bytes -> bytes -> result bytes bytes;      (* certificate, plaintext *)
}.
(** What a GET gives: no client or no answer, or a status with a body. *)
Inductive fetched : Type :=
  | NoClient | Unreachable
  | Answer (success : bool) (body : option bytes).
(** The HTTP client: GETs to the key server, POSTs nobody waits for. *)
Class Http (N : Type) : Type := {
    vks_get : N -> bytes -> fetched * N;
    post : N -> bytes -> bytes -> N;
}.

Module Pgp.

(** [Instant]s in nanoseconds; [None]: no key was found. *)
Record CachedKey : Type := { key_bytes : option bytes; fetched_at : Z }.
Definition KEY_CACHE_TTL : Z := 3600 * 1000000000.
Record ring (N : Type) : Type := Ring { cache : gmap bytes CachedKey; net : N }.
Arguments Ring {N}.
Arguments cache {N}.
Arguments net {N}.

Definition DEFAULT_KEYSERVER : bytes := $"https://keys.openpgp.org".
Definition vks_url (email : bytes) : bytes :=
  DEFAULT_KEYSERVER ++ $"/vks/v1/by-email/"
  ++ flat_map (fun c => if decide (c = "@"%char) then $"%40" else [c]) email.

Section pgp.
Context `{OP : OpenPgp} {N : Type} `{HT : Http N}.

Definition remember (email : bytes) (b : option bytes) (now : Z) (r : ring N) : ring N :=
  Ring (<[email := {| key_bytes := b; fetched_at := now |}]> (cache r)) (net r).
Definition cache_negative (email : bytes) (now : Z) (r : ring N) : ring N := remember email None now r.
(** The first half: a live entry answers; an expired one is dropped. *)
Definition consult (email : bytes) (now : Z) (r : ring N) : option (option bytes) * ring N :=
  match cache r !! email with
  | Some entry =>
      if now - fetched_at entry <? KEY_CACHE_TTL then (Some (key_bytes entry), r)
      else (None, Ring (delete email (cache r)) (net r))
  | None => (None, r)
  end.
(** [now'] is the clock after the key server answered. *)
Definition lookup_key_bytes (email : bytes) (now now' : Z) (r : ring N) : option bytes * ring N :=
  if ends_with $"@axiom" email then (None, r)
  else
    match consult email now r with
    | (Some b, r) => (b, r)
    | (None, r) =>
        let '(answer, n) := vks_get (net r) (vks_url email) in
        let r := Ring (cache r) n in
        match answer with
        | Answer true (Some b) =>
            if cert_parses b then (Some b, remember email (Some b) now' r)
            else (None, cache_negative email now' r)
        | NoClient | Unreachable | Answer _ _ => (None, cache_negative email now' r)
        end
    end.
Definition is_pgp_encrypted (data : bytes) : bool :=
  match data with
  | [] => false
  | b :: _ =>
      (N.land (code b) 192 =? 192)%N || (N.land (code b) 128 =? 128)%N
      || starts_with $"-----BEGIN PGP MESSAGE-----" data
  end.
(** Without a usable key the plaintext goes out. *)
Definition try_encrypt_for_email (email plaintext : bytes) (now now' : Z) (r : ring N)
    : (bytes * bool) * ring N :=
  let '(k, r) := lookup_key_bytes email now now' r in
  match k with
  | Some cert => match encrypt cert plaintext with
                 | Ok encrypted => ((encrypted, true), r)
                 | Err _ => ((plaintext, false), r)
                 end
  | None => ((plaintext, false), r)
  end.
End pgp.
End Pgp.
