(* ===== verification/PgpTheorems.v ===== *)
(** * The theorem on the key cache *)
From S2P Require Import Prelude Pgp.

Module Keys.
Import Pgp.
Section keys.
Context `{OP : OpenPgp} {N : Type} `{HT : Http N}.

(** A lookup: the address, the clock before and after. *)
Abbreviation lookup_ := (bytes * Z * Z)%type.
Definition look (r : ring N) (q : lookup_) : ring N := (lookup_key_bytes q.1.1 q.1.2 q.2 r).2.
(** The cache answers for [email] with [k], recorded at [now']. *)
Definition holds (email : bytes) (k : option bytes) (now' : Z) (r : ring N) : Prop :=
  cache r !! email = Some {| key_bytes := k; fetched_at := now' |}.

Lemma consult_held email k now' t r : holds email k now' r -> t - now' < KEY_CACHE_TTL ->
  consult email t r = (Some k, r).
Proof. intros H Ht. unfold consult. rewrite H. cbn. by rewrite (proj2 (Z.ltb_lt _ _) Ht). Qed.
Lemma lookup_held email k now' t t' r : ends_with $"@axiom" email = false ->
  holds email k now' r -> t - now' < KEY_CACHE_TTL -> lookup_key_bytes email t t' r = (k, r).
Proof. intros Ha H Ht. unfold lookup_key_bytes. by rewrite Ha, (consult_held _ k now'). Qed.
Lemma look_other email e t t' r : e <> email -> cache (look r (e, t, t')) !! email = cache r !! email.
Proof.
  intros N0. unfold look, lookup_key_bytes. cbn [fst snd]. destruct (ends_with _ _); [done|].
  assert (cache (consult e t r).2 !! email = cache r !! email) as Hc.
  { unfold consult. destruct (cache r !! e); [|done]. case_match; [done|]. cbn. by rewrite lookup_delete_ne. }
  destruct (consult e t r) as [[b|] r1]; cbn [snd] in *; [done|].
  destruct (vks_get _ _) as [x n].
  repeat case_match; cbn [snd cache_negative remember cache]; rewrite lookup_insert_ne; done.
Qed.
Lemma looks_keep email k now' ls : forall r, ends_with $"@axiom" email = false -> holds email k now' r ->
  Forall (fun q : lookup_ => q.1.1 = email -> q.1.2 - now' < KEY_CACHE_TTL) ls ->
  holds email k now' (foldl look r ls).
Proof.
  induction ls as [|[[e t] t'] ls IH]; intros r Ha H F; cbn [foldl]; [done|].
  apply Forall_cons in F as [Hq F]. apply IH; [done| |done].
  destruct (decide (e = email)) as [->|N0]; [|unfold holds; by rewrite look_other].
  unfold look. cbn [fst snd]. rewrite (lookup_held email k now'); auto.
Qed.

(** The key server is asked once an hour, and its silence is believed as
    long as its answers.  When a lookup asks for an address, it asks once, and
    what it returns - the certificate, if the answer parses as one, else nothing,
    be it that there is no such key, that the server was down or that the answer
    was garbage - is what every lookup of that address returns for an hour,
    whatever other addresses are looked up in between, without a request; so after
    one failed request an hour of mail to that address goes out in the clear. *)
Theorem key_cached_for_an_hour email now now' r :
  ends_with $"@axiom" email = false -> (consult email now r).1 = None ->
  let got := lookup_key_bytes email now now' r in
  let asked := vks_get (net r) (vks_url email) in
  net got.2 = asked.2 /\
  got.1 = (match asked.1 with Answer true (Some b) => if cert_parses b then Some b else None | _ => None end) /\
  forall ls t t' mail,
    Forall (fun q : lookup_ => q.1.1 = email -> q.1.2 - now' < KEY_CACHE_TTL) ls -> t - now' < KEY_CACHE_TTL ->
    let later := foldl look got.2 ls in
    lookup_key_bytes email t t' later = (got.1, later) /\
    (got.1 = None -> try_encrypt_for_email email mail t t' later = ((mail, false), later)).
Proof.
  intros Ha Hn got asked.
  assert (net got.2 = asked.2 /\ holds email got.1 now' got.2 /\
    got.1 = (match asked.1 with Answer true (Some b) => if cert_parses b then Some b else None | _ => None end))
    as (Hnet & H & Hk).
  { assert (net (consult email now r).2 = net r) as Hc by (unfold consult; repeat case_match; done).
    unfold got, asked, lookup_key_bytes, holds. rewrite Ha. destruct (consult email now r) as [[b|] r1]; [done|].
    cbn [snd] in *. rewrite Hc. destruct (vks_get _ _) as [answer n]. cbn [fst snd].
    repeat case_match; cbn; by rewrite lookup_insert_eq. }
  split; [done|]. split; [done|]. intros ls t t' mail F Ht later.
  pose proof (lookup_held email got.1 now' t t' later Ha (looks_keep _ _ _ _ _ Ha H F) Ht) as El.
  split; [done|]. intros Hk0. unfold try_encrypt_for_email. by rewrite El, Hk0.
Qed.
End keys.

(** A key server that is down once and then has every key. *)
Definition flaky : Http bool :=
  {| vks_get := fun (up : bool) _ => (if up then Answer true (Some $"KEY") else Unreachable, true); post := fun n _ _ => n |}.
Definition sealing : OpenPgp := {| cert_parses := fun _ => true; encrypt := fun _ m => Ok ($"SEALED " ++ m) |}.
Lemma key_cached_for_an_hour_witness :
  let look1 := lookup_key_bytes (OP := sealing) (HT := flaky) $"a@x.org" 0 5 (Ring ∅ false) in
  net look1.2 = true /\
  try_encrypt_for_email (OP := sealing) (HT := flaky) $"a@x.org" $"hi" 3599000000000 3599000000001 look1.2
  = (($"hi", false), look1.2).
Proof.
  intros look1.
  assert (ends_with $"@axiom" $"a@x.org" = false) as Ha by (vm_compute; reflexivity).
  assert ((consult (N := bool) $"a@x.org" 0 (Ring ∅ false)).1 = None) as Hc by reflexivity.
  pose proof (key_cached_for_an_hour (OP := sealing) (HT := flaky) $"a@x.org" 0 5 (Ring ∅ false) Ha Hc) as K.
  destruct K as (H1 & _ & H2). split; [exact H1|].
  destruct (H2 [] 3599000000000 3599000000001 $"hi" ltac:(constructor) ltac:(vm_compute; reflexivity)) as [_ H3].
  exact (H3 ltac:(vm_compute; reflexivity)).
Defined.
End Keys.
