(* ===== verification/CoreIpc.v ===== *)
(** * Running Core: [core_ipc.rs]

    ANTIE validates with Core's interpreter ([CoreFns.execute]) and turns its
    outputs into a verdict.  A fatal verdict ends the process with status 78. *)
From S2P Require Import Prelude Fs Errors CoreTypes.
Import Errors Core.

Module CoreIpc.
Section core_ipc.
Context `{EC : ErrorsCrate} `{CV : CoreValues} `{CF : !CoreFns}.

Record ValidationOutput : Type := {
    accepted : bool; new_state_id : option bytes; vo_new_wallet_seq : option Z;
    vo_commitment_hash : option bytes; rejection_reason : option bytes;
    rejection : option ValidationError }.
Record FanOutVerifyResult : Type := {
    fv_accepted : bool; new_ttl : Z; fv_rejection_reason : option bytes;
    fv_rejection : option ValidationError }.

Definition ZERO_ID : bytes := repeat (ch 0) 32.
Definition reason_of (r : option ValidationError) : bytes :=
  match r with Some v => show_validation_error v | None => $"Unknown" end.
(** [_declared_balance] is not used. *)
Definition cl2_inputs (transaction : Transaction) (prev_receipts : list Receipt)
    (overlapped_signatures : list WitnessSig) (vbc_bundle : option VBCProofBundle)
    (my_pk : option bytes) (sender_fact_chain : option FactChain)
    (fact_certificates : list VBCProofBundle) : PublicInputs :=
  {| mode := CL2_PREFILTER; in_transaction := transaction; in_prev_receipts := prev_receipts;
     in_overlapped_signatures := overlapped_signatures; in_vbc_bundle := vbc_bundle;
     my_validator_pk := my_pk; in_sender_fact_chain := sender_fact_chain;
     in_fact_certificates := fact_certificates; in_fanout_message := None;
     current_state := None; local_core_id := ZERO_ID |}.
Definition validate_transaction_cl2 (transaction : Transaction) (declared_balance : Z)
    (prev_receipts : list Receipt) (overlapped_signatures : list WitnessSig)
    (vbc_bundle : option VBCProofBundle) (my_pk : option bytes) (sender_fact_chain : option FactChain)
    (fact_certificates : list VBCProofBundle) : result fault ValidationOutput :=
  outputs ← map_err (fun e => Failed (CoreError ($"AVM: " ++ e)))
              (execute (cl2_inputs transaction prev_receipts overlapped_signatures vbc_bundle my_pk
                          sender_fact_chain fact_certificates));
  match result_ outputs with
  | Accept =>
      Ok {| accepted := true; new_state_id := out_produced_state_id outputs;
            vo_new_wallet_seq := new_wallet_seq outputs;
            vo_commitment_hash := out_commitment_hash outputs;
            rejection_reason := None; rejection := None |}
  | Fatal => Err (Exited 78)
  | Reject =>
      Ok {| accepted := false; new_state_id := None; vo_new_wallet_seq := None;
            vo_commitment_hash := None; rejection_reason := Some (reason_of (rejection_reason_ outputs));
            rejection := rejection_reason_ outputs |}
  end.

Definition cl10_inputs (fanout_message : FanOutMessage) (vbc_bundle : option VBCProofBundle) : PublicInputs :=
  {| mode := CL10; in_transaction := default_transaction; in_prev_receipts := [];
     in_overlapped_signatures := []; in_vbc_bundle := vbc_bundle; my_validator_pk := None;
     in_sender_fact_chain := None; in_fact_certificates := []; in_fanout_message := Some fanout_message;
     current_state := None; local_core_id := ZERO_ID |}.
(** Here a fatal verdict is a refusal. *)
Definition verify_fanout_cl10 (fanout_message : FanOutMessage) (vbc_bundle : option VBCProofBundle)
    : result AntieError FanOutVerifyResult :=
  outputs ← map_err (fun e => CoreError ($"CL10 AVM: " ++ e)) (execute (cl10_inputs fanout_message vbc_bundle));
  Ok (match result_ outputs with
      | Accept => {| fv_accepted := true; new_ttl := unwrap_or 0 (fanout_new_ttl outputs);
                     fv_rejection_reason := None; fv_rejection := None |}
      | Reject => {| fv_accepted := false; new_ttl := 0;
                     fv_rejection_reason := Some (reason_of (rejection_reason_ outputs));
                     fv_rejection := rejection_reason_ outputs |}
      | Fatal => {| fv_accepted := false; new_ttl := 0;
                    fv_rejection_reason := Some $"Fatal error in CL10"; fv_rejection := None |}
      end).
End core_ipc.
End CoreIpc.
