(* ===== verification/Email.v ===== *)
(** * Emails: [email.rs]

    Parsing a mail into a request and building the mails ANTIE sends.  MIME
    parsing, base64, CBOR, the envelope and its decryption are other crates: an
    interface.  The texts are the source's. *)
From S2P Require Import Prelude Utf8 Fs Errors CoreTypes.
Import Errors.

(** What [mail_parser] finds in a message. *)
Record mime : Type := {
    mime_from : option bytes; mime_to : option bytes; mime_message_id : option bytes;
    mime_subject : option bytes; mime_header : bytes -> option bytes;
    mime_text : option bytes; mime_html : option bytes;
}.
(** The fields of [AntiePayload] that a body can carry. *)
Record PayloadFields `{CV : CoreValues} : Type := {
    query_params : option Core.Value;
    public_key : option bytes; balance : option Z; group_members : option (list GroupMember);
    txid : option bytes; validator_pk : option bytes; sender_sig : option bytes;
    client_pk : option bytes;
    sphincs_pk_hex : option bytes; dilithium_pk_hex : option bytes; ed25519_pk_hex : option bytes;
    pgp_fingerprint_hex : option bytes; issued_at : option Z; expires_at : option Z;
    chain_depth : option Z; issuer_set_hex : list bytes;
    proof_cap : option bytes; node_name_field : option bytes; auth_hash : option bytes;
    peer_audit_request : option PeerAuditRequest; peer_audit_response : option PeerAuditResponse;
    peer_audit_not_held : option PeerAuditNotHeld;
}.
(** [AntiePayload::default()] *)
Definition no_fields `{CV : CoreValues} : PayloadFields := {|
  query_params := None; public_key := None; balance := None; group_members := None;
  txid := None; validator_pk := None; sender_sig := None; client_pk := None;
  sphincs_pk_hex := None; dilithium_pk_hex := None; ed25519_pk_hex := None;
  pgp_fingerprint_hex := None; issued_at := None; expires_at := None; chain_depth := None;
  issuer_set_hex := []; proof_cap := None; node_name_field := None; auth_hash := None;
  peer_audit_request := None; peer_audit_response := None; peer_audit_not_held := None |}.
(** What the crates provide. *)
Class EmailCrates `{CV : CoreValues} : Type := {
    parse_mime : bytes -> option mime;
    b64_encode : bytes -> bytes;
    b64_decode : bytes -> result bytes bytes;
    Sealed : Type;                         (* [UmpEnvelope::Encrypted] *)
    envelope_of_cbor : bytes -> option (bytes + Sealed);   (* [Plain] or [Encrypted] *)
    verifying_key : bytes -> bytes;        (* of an Ed25519 seed *)
    ed25519_sk_to_x25519_sk : bytes -> bytes;
    open_for_validator : Sealed -> bytes -> bytes -> option bytes;
    payload_of_cbor : bytes -> result bytes PayloadFields;
    vbc_of_cbor : bytes -> option (bytes * VbcSignature);  (* the magic and the signature *)
    hex_decode : bytes -> option bytes;
}.

Module Email.

Definition SLASH : byte := "/"%char.
Definition CUSTODY_HEADERS : list bytes := [$"X-TOT-Session"].
Definition RAW_CBOR_MESSAGE_TYPES : list bytes :=
  [$"peer_audit_request"; $"peer_audit_response"; $"fanout_relay"].
Definition requires_envelope (message_type : bytes) : bool :=
  bool_decide (message_type ∉ RAW_CBOR_MESSAGE_TYPES).

(** [parts.join(sep)] *)
Fixpoint join_with (sep : bytes) (parts : list bytes) : bytes :=
  match parts with
  | [] => []
  | [x] => x
  | x :: parts' => x ++ sep ++ join_with sep parts'
  end.
(** The text without its white space. *)
Fixpoint strip_ws_fuel (fuel : nat) (s : bytes) : bytes :=
  match fuel, s with
  | S fuel', x :: s' =>
      match ws_prefix s with
      | O => x :: strip_ws_fuel fuel' s'
      | n => strip_ws_fuel fuel' (drop n s)
      end
  | _, _ => []
  end.
Definition strip_ws (s : bytes) : bytes := strip_ws_fuel (length s) s.
Definition is_hexdigit (b : byte) : bool :=
  is_digit b || ((65 <=? code b) && (code b <=? 70) || (97 <=? code b) && (code b <=? 102))%N.

Section email.
Context `{EC : ErrorsCrate} `{CV : CoreValues} `{EK : !EmailCrates}.

Record AntiePayload : Type := { raw_ump_body : bytes; fields : PayloadFields }.
Record AntieEmail : Type := {
  from : bytes; to : bytes; message_type : bytes; request_id : bytes;
  message_id : option bytes; payload : AntiePayload; raw : bytes;
  uncle_correlate : option bytes; custody : option (bytes * bytes) }.

(** ** The envelope decryptor, [decrypt.rs] *)
Record Decryptor : Type := { ed25519_pk : bytes; x25519_sk : bytes }.
(** [shown]: the path as [{:?}] prints it. *)
Definition from_key_file (shown : bytes) (p : path) : M world AntieError Decryptor :=
  seed ← with_err (fun e => ConfigError ($"validator.private_key_path read failed at " ++ shown
                                          ++ $": " ++ io_msg e)) (read_file p);
  if (length seed =? 32)%nat then
    mret {| ed25519_pk := verifying_key seed; x25519_sk := ed25519_sk_to_x25519_sk seed |}
  else throw (ConfigError ($"validator.private_key_path: expected 32-byte Ed25519 seed at " ++ shown
                           ++ $", got " ++ show_N (N.of_nat (length seed)) ++ $" bytes")).
Definition open_envelope (d : Decryptor) (env : Sealed) : option bytes :=
  open_for_validator env (ed25519_pk d) (x25519_sk d).

Inductive ParseOutcome : Type := Parsed (e : AntieEmail) | DecryptFailed.
Inductive DecodeError : Type := Undecryptable | Other (e : AntieError).

Definition parse_subject (subject : bytes) : result AntieError (bytes * bytes) :=
  match split SLASH subject with
  | axiom :: t :: r :: rest =>
      if decide (axiom = $"AXIOM") then Ok (t, join_with [SLASH] (r :: rest))
      else Err (EmailParseError ($"Invalid subject format: " ++ subject
                                 ++ $". Expected: AXIOM/<type>/<request_id>"))
  | _ => Err (EmailParseError ($"Invalid subject format: " ++ subject
                               ++ $". Expected: AXIOM/<type>/<request_id>"))
  end.

(** The tag-stripping fallback for HTML bodies. *)
Definition tag_text (s : bytes) : bytes :=
  match split_once ">"%char s with Some (_, r) => trim r | None => trim s end.
Definition extract_body (m : mime) : result AntieError bytes :=
  match mime_text m with
  | Some body => Ok body
  | None =>
      match mime_html m with
      | Some body =>
          let replaced := flat_map (fun b => if decide (b = "<"%char) then $" <" else [b]) body in
          Ok (join_with $" " (map tag_text (split "<"%char replaced)))
      | None => Err (EmailParseError $"No body found")
      end
  end.

Definition unwrap_by_format (message_type decoded : bytes) (decryptor : option Decryptor)
    : result DecodeError bytes :=
  let parsed_envelope := envelope_of_cbor decoded in
  if requires_envelope message_type then
    match parsed_envelope with
    | Some (inl ump_bytes) => Ok ump_bytes
    | Some (inr env) =>
        match decryptor with
        | None => Err Undecryptable
        | Some d => ok_or Undecryptable (open_envelope d env)
        end
    | None =>
        Err (Other (EmailParseError ($"wire format violation: message type " ++ debug_str message_type
          ++ $" requires UmpEnvelope, body parses as raw CBOR (" ++ show_N (N.of_nat (length decoded))
          ++ $" bytes, hex prefix " ++ hex_encode (take 32 decoded) ++ $")")))
    end
  else
    match parsed_envelope with
    | Some _ =>
        Err (Other (EmailParseError ($"wire format violation: message type " ++ debug_str message_type
          ++ $" ships raw CBOR but body parses as UmpEnvelope")))
    | None => Ok decoded
    end.
Definition decode_payload_inner (decoded : bytes) : result AntieError AntiePayload :=
  f ← map_err (fun e => EmailParseError ($"CBOR decode failed: " ++ e)) (payload_of_cbor decoded);
  Ok {| raw_ump_body := decoded; fields := f |}.
Definition decode_payload_with_context (message_type body : bytes) (decryptor : option Decryptor)
    : result DecodeError AntiePayload :=
  decoded ← map_err (fun e => Other (EmailParseError ($"Base64 decode failed: " ++ e)))
              (b64_decode (strip_ws body));
  if decide (decoded = []) then Err (Other (EmailParseError $"Empty payload"))
  else
    inner ← unwrap_by_format message_type decoded decryptor;
    map_err Other (decode_payload_inner inner).

(** The two routing headers. *)
Definition correlate_of (m : mime) : option bytes :=
  match mime_header m $"X-UNCLE-Correlate" with
  | Some raw =>
      let trimmed := trim raw in
      if (length trimmed =? 64)%nat then
        match hex_decode trimmed with
        | Some b => if (length b =? 32)%nat then Some b else None
        | None => None
        end
      else None
  | None => None
  end.
Definition custody_named (m : mime) (name : bytes) : option (bytes * bytes) :=
  match mime_header m name with
  | Some raw =>
      let id := trim raw in
      if (length id =? 64)%nat && forallb is_hexdigit id
      then Some (name, to_ascii_lowercase id) else None
  | None => None
  end.
Fixpoint find_map {A B : Type} (f : A -> option B) (l : list A) : option B :=
  match l with
  | [] => None
  | x :: l' => match f x with Some y => Some y | None => find_map f l' end
  end.
Definition custody_of (m : mime) : option (bytes * bytes) :=
  find_map (custody_named m) CUSTODY_HEADERS.

Definition parse_email_outcome (raw_ : bytes) (decryptor : option Decryptor)
    : result AntieError ParseOutcome :=
  m ← ok_or (EmailParseError $"Failed to parse email") (parse_mime raw_);
  '(t, r) ← parse_subject (unwrap_or [] (mime_subject m));
  body ← extract_body m;
  match decode_payload_with_context t body decryptor with
  | Ok p =>
      Ok (Parsed {| from := unwrap_or [] (mime_from m); to := unwrap_or [] (mime_to m);
                    message_type := t; request_id := r; message_id := mime_message_id m;
                    payload := p; raw := raw_; uncle_correlate := correlate_of m;
                    custody := custody_of m |})
  | Err Undecryptable => Ok DecryptFailed
  | Err (Other e) => Err e
  end.
Definition parse_email_with_context (raw_ : bytes) (decryptor : option Decryptor)
    : result AntieError AntieEmail :=
  o ← parse_email_outcome raw_ decryptor;
  match o with
  | Parsed e => Ok e
  | DecryptFailed => Err (EmailParseError $"envelope decryption failed")
  end.
Definition parse_email (raw_ : bytes) : result AntieError AntieEmail := parse_email_with_context raw_ None.

Definition VBC_DELIVERY_MAGIC : bytes := $"AXIOM-VBC-SIG/1".
Definition try_parse_vbc_delivery (raw_ : bytes) : option VbcSignature :=
  match parse_mime raw_ with
  | Some m =>
      match mime_text m with
      | Some body =>
          match b64_decode (strip_ws body) with
          | Ok b =>
              match vbc_of_cbor b with
              | Some (magic, sig) => if decide (magic = VBC_DELIVERY_MAGIC) then Some sig else None
              | None => None
              end
          | Err _ => None
          end
      | None => None
      end
  | None => None
  end.

(** ** Building *)
Definition sanitize_header (value : bytes) : bytes :=
  List.filter (fun c => negb (bool_decide (c = CR)) && negb (bool_decide (c = LF))) value.
Definition validate_email_addr (addr : bytes) : result AntieError unit :=
  if contains [CR] addr || contains [LF] addr then
    Err (EmailParseError $"Email address contains newline (header injection attempt)")
  else if bool_decide (addr = []) || negb (contains $"@" addr) then
    Err (EmailParseError ($"Invalid email address: '" ++ addr ++ $"'"))
  else Ok tt.

(** What the clock and the UUID generator give a mail. *)
Record mail_stamp : Type := { mail_uuid : bytes; subject_uuid : bytes; mail_time : Z; mail_date : bytes }.
Definition header (name value : bytes) : bytes := name ++ $": " ++ value ++ crlf.
Definition mail_text (s : mail_stamp) (from_ to_ subject : bytes) (in_reply_to : option bytes)
    (encoded : bytes) : bytes :=
  header $"From" (sanitize_header from_) ++ header $"To" (sanitize_header to_)
  ++ header $"Subject" subject
  ++ header $"Message-ID" ($"<" ++ mail_uuid s ++ $"." ++ show_Z (mail_time s) ++ $"@axiom>")
  ++ header $"Date" (mail_date s)
  ++ header $"Content-Type" $"text/plain; charset=utf-8"
  ++ match in_reply_to with Some r => header $"In-Reply-To" (sanitize_header r) | None => [] end
  ++ crlf ++ encoded ++ crlf.

(** [cbor]: what [ciborium] writes for the payload. *)
Definition build_response (s : mail_stamp) (to_ from_ message_type_ request_id_ : bytes)
    (in_reply_to : option bytes) (cbor : result bytes bytes) : result AntieError bytes :=
  _ ← validate_email_addr to_;
  _ ← validate_email_addr from_;
  b ← map_err (fun e => SerializationError ($"CBOR encode: " ++ e)) cbor;
  Ok (mail_text s from_ to_
        ($"AXIOM/" ++ sanitize_header message_type_ ++ $"/" ++ sanitize_header request_id_)
        in_reply_to (b64_encode b)).
(** The builders of typed mails differ in the subject and the error text. *)
Definition build_typed (kind what : bytes) (s : mail_stamp) (from_ to_ : bytes)
    (cbor : result bytes bytes) : result AntieError bytes :=
  b ← map_err (fun e => SerializationError (what ++ $": " ++ e)) cbor;
  Ok (mail_text s from_ to_ ($"AXIOM/" ++ kind ++ $"/" ++ subject_uuid s) None (b64_encode b)).
(** [origin_matches]: Core's check that the origin record reproduces the txid. *)
Definition build_cheque_delivery_email (origin_matches : bool) (txid : bytes) (s : mail_stamp)
    (from_ to_ : bytes) (cbor : result bytes bytes) : result AntieError bytes :=
  if negb origin_matches then
    Err (InvalidPayload ($"cheque " ++ hex_encode (take 4 txid)
      ++ $": send_origin does not reproduce the cheque txid — refusing to deliver a cheque the receiver would reject (KI#241 F-2)"))
  else build_typed $"cheque" $"cheque CBOR" s from_ to_ cbor.
Definition build_vbc_delivery_email : mail_stamp -> bytes -> bytes -> result bytes bytes -> result AntieError bytes :=
  build_typed $"vbc" $"vbc delivery CBOR".
Definition build_scar_consent_email : mail_stamp -> bytes -> bytes -> result bytes bytes -> result AntieError bytes :=
  build_typed $"scar_consent" $"scar consent CBOR".
Definition build_peer_audit_request_email : mail_stamp -> bytes -> bytes -> result bytes bytes -> result AntieError bytes :=
  build_typed $"peer_audit_request" $"CBOR encode".
Definition build_peer_audit_response_email : mail_stamp -> bytes -> bytes -> result bytes bytes -> result AntieError bytes :=
  build_typed $"peer_audit_response" $"CBOR encode".
Definition build_peer_audit_not_held_email : mail_stamp -> bytes -> bytes -> result bytes bytes -> result AntieError bytes :=
  build_typed $"peer_audit_response" $"CBOR encode".
End email.
End Email.
