(* ===== verification/EmailTheorems.v ===== *)
(** * The theorems on emails: subjects, the wire format, the mails ANTIE builds

    [Lines] holds what [str::lines] makes of a text assembled from CRLF lines,
    [Subjects] the subject grammar, [Wire] what a payload may come from,
    [Building] the header block of a reply. *)
From S2P Require Import Prelude Utf8 Fs Errors CoreTypes Email.
Import Errors Email.

(** ** Lines and splits *)
Module Lines.

Lemma split_app c a b : c ∉ a -> split c (a ++ c :: b) = a :: split c b.
Proof.
  induction a as [|x a IH]; intros N; cbn [app split].
  - by rewrite decide_True.
  - rewrite decide_False by set_solver. rewrite IH by set_solver. done.
Qed.
Lemma join_split c s : join_with [c] (split c s) = s.
Proof.
  induction s as [|x s IH]; [done|]. cbn [split]. case_decide as D.
  - subst x. destruct (split c s) as [|h t] eqn:E; [|cbn [join_with app]; by f_equal].
    destruct s; cbn [split] in E; repeat case_match; discriminate.
  - destruct (split c s) as [|h [|h' t]]; cbn [join_with app] in *; by rewrite <- IH.
Qed.
Lemma split_cons c s : exists h t, split c s = h :: t /\ c ∉ h /\ s = join_with [c] (h :: t).
Proof.
  destruct (split c s) as [|h t] eqn:E.
  - destruct s; cbn [split] in E; repeat case_match; discriminate.
  - exists h, t. split; [done|]. split; [|by rewrite <- E, join_split].
    revert h t E. induction s as [|x s IH]; cbn [split]; intros h t E; [set_solver|].
    case_decide; [set_solver|]. destruct (split c s) as [|h' t'] eqn:E'; simplify_eq; [set_solver|].
    specialize (IH _ _ eq_refl). set_solver.
Qed.
(** A text that starts with one CRLF line. *)
Lemma lines_crlf h s : LF ∉ h -> lines (h ++ crlf ++ s) = h :: lines s.
Proof.
  intros N. unfold lines. change (crlf ++ s) with ([CR] ++ LF :: s).
  rewrite app_assoc, split_inclusive_line.
  2: { apply not_elem_of_app. split; [done|]. rewrite list_elem_of_singleton. discriminate. }
  cbn [map]. f_equal.
  rewrite (proj2 (strip_suffix_Some [LF] ((h ++ [CR]) ++ [LF]) (h ++ [CR])) eq_refl).
  unfold drop_one_cr. by rewrite (proj2 (strip_suffix_Some [CR] (h ++ [CR]) h) eq_refl).
Qed.
End Lines.

(** ** Subjects *)
Module Subjects.
Import Lines.
Section subjects.
Context `{EC : ErrorsCrate}.

Lemma axiom_no_slash : SLASH ∉ $"AXIOM".
Proof. apply (bool_decide_unpack _). by vm_compute. Qed.

(** The subject grammar, both ways.  A subject is accepted exactly when it
    is AXIOM/<type>/<request id> with no slash in the type; the request id is
    everything after the second slash, slashes included; anything else is the
    error that quotes the subject. *)
Theorem parse_subject_exact s :
  (forall t r, parse_subject s = Ok (t, r) <-> s = $"AXIOM/" ++ t ++ $"/" ++ r /\ SLASH ∉ t) /\
  (forall e, parse_subject s = Err e <->
     (forall t r, s = $"AXIOM/" ++ t ++ $"/" ++ r -> SLASH ∈ t) /\
     e = EmailParseError ($"Invalid subject format: " ++ s ++ $". Expected: AXIOM/<type>/<request_id>")).
Proof.
  assert (forall t r, SLASH ∉ t -> parse_subject ($"AXIOM/" ++ t ++ $"/" ++ r) = Ok (t, r)) as Hok.
  { intros t r N. unfold parse_subject. change ($"AXIOM/" ++ t ++ $"/" ++ r) with
      ($"AXIOM" ++ SLASH :: t ++ SLASH :: r).
    rewrite split_app, split_app by (done || exact axiom_no_slash).
    destruct (split_cons SLASH r) as (h & tl & -> & _ & ->). by rewrite decide_True. }
  assert (forall t r, parse_subject s = Ok (t, r) -> s = $"AXIOM/" ++ t ++ $"/" ++ r /\ SLASH ∉ t) as Hinv.
  { intros t r. unfold parse_subject. pose proof (join_split SLASH s) as J.
    destruct (split SLASH s) as [|a [|t' [|h tl]]] eqn:E; try discriminate.
    case_decide as D; [|discriminate]. intros [= -> <-]. subst a.
    split; [by rewrite <- J|]. destruct (split_cons SLASH s) as (a & l & E1 & _ & Hs).
    rewrite E in E1. injection E1 as <- <-. rewrite <- J in E.
    change (join_with [SLASH] ($"AXIOM" :: t :: h :: tl)) with
      ($"AXIOM" ++ SLASH :: join_with [SLASH] (t :: h :: tl)) in E.
    rewrite split_app in E by exact axiom_no_slash. apply (f_equal tail) in E. cbn [tail] in E.
    destruct (split_cons SLASH (join_with [SLASH] (t :: h :: tl))) as (t2 & l2 & E2 & N & _).
    rewrite E in E2. by injection E2 as <- _. }
  assert (forall e, parse_subject s = Err e -> e = EmailParseError ($"Invalid subject format: " ++ s
            ++ $". Expected: AXIOM/<type>/<request_id>")) as Herr.
  { intros e. unfold parse_subject. by repeat case_match; intros [= <-]. }
  split.
  - intros t r. split; [apply Hinv|]. intros [-> N]. auto.
  - intros e. split.
    + intros E. split; [|auto]. intros t r Hs. destruct (decide (SLASH ∈ t)) as [|N]; [done|].
      subst s. rewrite Hok in E by done. discriminate.
    + intros [Hno ->]. destruct (parse_subject s) as [[t r]|e] eqn:E; [|by rewrite (Herr e)].
      destruct (Hinv t r eq_refl) as [Hs N]. by apply Hno, N in Hs.
Qed.
End subjects.
End Subjects.

(** ** The wire format *)
Module Wire.
Section wire.
Context `{EC : ErrorsCrate} `{CV : CoreValues} `{EK : !EmailCrates}.

(** The bytes [b] a message of type [t] carries for [d]: raw CBOR for the
    validator-to-validator types; for every other type the content of a plain
    envelope, or of a sealed one that [d]'s own key opens. *)
Inductive carries (t decoded : bytes) (d : option Decryptor) : bytes -> Prop :=
  | carries_raw : t ∈ RAW_CBOR_MESSAGE_TYPES -> envelope_of_cbor decoded = None ->
      carries t decoded d decoded
  | carries_plain b : t ∉ RAW_CBOR_MESSAGE_TYPES -> envelope_of_cbor decoded = Some (inl b) ->
      carries t decoded d b
  | carries_sealed env k b : t ∉ RAW_CBOR_MESSAGE_TYPES -> envelope_of_cbor decoded = Some (inr env) ->
      d = Some k -> open_envelope k env = Some b -> carries t decoded d b.
(** A sealed envelope that [d] cannot open. *)
Definition sealed_against (t decoded : bytes) (d : option Decryptor) : Prop :=
  t ∉ RAW_CBOR_MESSAGE_TYPES /\ exists env, envelope_of_cbor decoded = Some (inr env) /\
  forall k, d = Some k -> open_envelope k env = None.

Lemma unwrap_carries t decoded d b :
  unwrap_by_format t decoded d = Ok b <-> carries t decoded d b.
Proof.
  unfold unwrap_by_format, requires_envelope. split.
  - destruct (bool_decide_reflect (t ∉ RAW_CBOR_MESSAGE_TYPES)) as [N|N].
    + destruct (envelope_of_cbor decoded) as [[u|env]|] eqn:E; [|destruct d as [k|]|]; try discriminate.
      * intros [= ->]. by eapply carries_plain.
      * destruct (open_envelope k env) eqn:O; [|discriminate]. intros [= ->]. by eapply carries_sealed.
    + destruct (envelope_of_cbor decoded) eqn:E; [discriminate|]. intros [= <-].
      apply carries_raw; [by apply dec_stable|done].
  - intros [R E|b' R E|env k b' R E -> O]; rewrite E.
    + by rewrite bool_decide_false by tauto.
    + by rewrite bool_decide_true.
    + rewrite bool_decide_true by done. by rewrite O.
Qed.
Lemma unwrap_undecryptable t decoded d :
  unwrap_by_format t decoded d = Err Undecryptable <-> sealed_against t decoded d.
Proof.
  unfold unwrap_by_format, requires_envelope, sealed_against. split.
  - destruct (bool_decide_reflect (t ∉ RAW_CBOR_MESSAGE_TYPES)) as [N|N];
      destruct (envelope_of_cbor decoded) as [[u|env]|]; try discriminate.
    destruct d as [k|]; [destruct (open_envelope k env) eqn:O; [discriminate|]|]; intros _;
      (split; [done|]; exists env; split; [done|]; naive_solver).
  - intros (R & env & E & O). rewrite bool_decide_true by done. rewrite E.
    destruct d as [k|]; [|done]. by rewrite O.
Qed.

(** C33: no format confusion.  A body is accepted exactly when it is Base64 (white
    space ignored) of a non-empty sequence that carries, in the one format its
    message type has, the CBOR of the payload; the payload keeps those bytes
    verbatim.  It counts as undecryptable - dropped without an answer - exactly
    when it is a sealed envelope this decryptor cannot open, or there is none to
    open it (a sealed envelope is never handed to the inner parser); every other
    fault is an error. *)
Theorem wire_format_exact t body d :
  (forall p, decode_payload_with_context t body d = Ok p <->
     exists decoded, b64_decode (strip_ws body) = Ok decoded /\ decoded <> [] /\
       carries t decoded d (raw_ump_body p) /\ payload_of_cbor (raw_ump_body p) = Ok (fields p)) /\
  (decode_payload_with_context t body d = Err Undecryptable <->
     exists decoded, b64_decode (strip_ws body) = Ok decoded /\ decoded <> [] /\ sealed_against t decoded d).
Proof.
  unfold decode_payload_with_context, mbind, result_bind.
  destruct (b64_decode (strip_ws body)) as [decoded|e]; cbn [map_err].
  2: { split; [intros p|]; (split; [discriminate|]); by intros (? & ? & _). }
  destruct (decide (decoded = [])) as [->|N].
  { split; [intros p|]; (split; [discriminate|]); by intros (? & [= <-] & ? & _). }
  destruct (unwrap_by_format t decoded d) as [b|er] eqn:U.
  - unfold decode_payload_inner, mbind, result_bind. split.
    + intros p. split.
      * destruct (payload_of_cbor b) as [f|] eqn:F; [|discriminate]. cbn. intros [= <-].
        exists decoded. by rewrite <- unwrap_carries.
      * intros (x & [= <-] & _ & C & F). apply unwrap_carries in C. rewrite U in C.
        injection C as ->. rewrite F. by destruct p.
    + split; [by destruct (payload_of_cbor b)|]. intros (x & [= <-] & _ & C).
      apply unwrap_undecryptable in C. congruence.
  - split.
    + intros p. split; [discriminate|]. intros (x & [= <-] & _ & C & _).
      apply unwrap_carries in C. congruence.
    + split.
      * intros [= ->]. exists decoded. by rewrite <- unwrap_undecryptable.
      * intros (x & [= <-] & _ & C). apply unwrap_undecryptable in C. congruence.
Qed.
End wire.
End Wire.

(** ** The mails ANTIE builds *)
Module Building.
Import Lines.
Section building.
Context `{EC : ErrorsCrate} `{CV : CoreValues} `{EK : !EmailCrates}.

Definition one_line (v : bytes) : Prop := CR ∉ v /\ LF ∉ v.
Definition address (v : bytes) : Prop := one_line v /\ contains $"@" v = true.

Lemma sanitize_one_line v : one_line (sanitize_header v).
Proof.
  unfold one_line, sanitize_header. split; intros [_ H]%list_elem_of_In%filter_In;
    by apply andb_true_iff in H as [H1%negb_true_iff%bool_decide_eq_false
                                     H2%negb_true_iff%bool_decide_eq_false].
Qed.
Lemma sanitize_id v : one_line v -> sanitize_header v = v.
Proof.
  unfold one_line, sanitize_header. induction v as [|x v IH]; intros [C L]; [done|].
  cbn [List.filter]. rewrite !bool_decide_false by set_solver. cbn [negb andb].
  rewrite IH; [done|]. set_solver.
Qed.
Lemma validate_address v :
  match validate_email_addr v with Ok _ => address v | Err _ => ~ address v end.
Proof.
  unfold validate_email_addr, address, one_line.
  pose proof (contains_single CR v) as HC. pose proof (contains_single LF v) as HL.
  destruct (contains [CR] v), (contains [LF] v); cbn [orb]; [naive_solver..|].
  destruct (contains $"@" v) eqn:A; cbn [negb]; rewrite ?orb_true_r; [|by intros [_ ?]].
  rewrite bool_decide_false; [done || naive_solver|]. intros ->. discriminate.
Qed.
(** [cleaned v u]: [u] is [v] without its carriage returns and line feeds. *)
Inductive cleaned : bytes -> bytes -> Prop :=
  | cleaned_nil : cleaned [] []
  | cleaned_drop c v u : c = CR \/ c = LF -> cleaned v u -> cleaned (c :: v) u
  | cleaned_keep c v u : c <> CR -> c <> LF -> cleaned v u -> cleaned (c :: v) (c :: u).
Lemma sanitize_cleaned v : cleaned v (sanitize_header v).
Proof.
  unfold sanitize_header. induction v as [|c v IH]; cbn [List.filter]; [constructor|].
  destruct (decide (c = CR)) as [->|N1]; [by apply cleaned_drop; [left|]|].
  destruct (decide (c = LF)) as [->|N2]; [by apply cleaned_drop; [right|]|].
  rewrite !bool_decide_false by done. by apply cleaned_keep.
Qed.
Lemma cleaned_sanitized v u : cleaned v u -> u = sanitize_header v.
Proof.
  unfold sanitize_header. induction 1 as [|c v u [-> | ->] _ ->|c v u N1 N2 _ ->]; [done..|]. cbn [List.filter].
  by rewrite !bool_decide_false.
Qed.
Lemma one_line_app u v : one_line u -> one_line v -> one_line (u ++ v).
Proof. unfold one_line. set_solver. Qed.
Lemma show_Z_line z : one_line (show_Z z).
Proof.
  assert (forall n, one_line (show_N n)) as H by (intros n; split; by apply show_N_no).
  unfold show_Z. destruct (z <? 0); [|apply H]. apply (one_line_app $"-"); [|apply H].
  split; apply (bool_decide_unpack _); vm_compute; exact I.
Qed.
(** A text of closed parts, sanitized values and single lines is a single line. *)
Ltac one_line_text :=
  lazymatch goal with
  | |- one_line (_ ++ _) => apply one_line_app; one_line_text
  | |- one_line (sanitize_header _) => apply sanitize_one_line
  | |- one_line (show_Z _) => apply show_Z_line
  | H : one_line ?v |- one_line ?v => exact H
  | H : address ?v |- one_line ?v => apply H
  | |- one_line ?v => split; apply (bool_decide_unpack _); vm_compute; exact I
  end.
Lemma lines_headers hs s : Forall one_line hs ->
  lines (concat (map (fun l => l ++ crlf) hs) ++ s) = hs ++ lines s.
Proof.
  induction 1 as [|l hs [_ Hl] _ IH]; [done|]. cbn [map concat app]. rewrite <- !app_assoc, lines_crlf by done. by rewrite IH.
Qed.

(** C34: no header injection.  A reply is built exactly when both addresses are
    single lines with an at sign and the payload serializes.  It is then, byte for
    byte, the six headers, the In-Reply-To when the request had a Message-ID, an
    empty line and the Base64 of the payload; the message type, the request id and
    the Message-ID the client chose stand in it without any of their carriage
    returns and line feeds and otherwise as they are, so no header holds either;
    whatever the client put into them adds no header and no body line, not even
    for a reader that takes a lone carriage return for a line break; and From and
    To are the addresses verbatim. *)
Theorem build_response_exact s to_ from_ mt rid irt cbor :
  one_line (mail_uuid s) -> one_line (mail_date s) ->
  match build_response s to_ from_ mt rid irt cbor with
  | Ok mail =>
      address to_ /\ address from_ /\ exists b mt' rid' irt', cbor = Ok b /\
      cleaned mt mt' /\ cleaned rid rid' /\ option_Forall2 cleaned irt irt' /\
      let headers :=
        [$"From: " ++ from_; $"To: " ++ to_;
         $"Subject: AXIOM/" ++ mt' ++ $"/" ++ rid';
         $"Message-ID: <" ++ mail_uuid s ++ $"." ++ show_Z (mail_time s) ++ $"@axiom>";
         $"Date: " ++ mail_date s;
         $"Content-Type: text/plain; charset=utf-8"]
        ++ match irt' with Some r => [$"In-Reply-To: " ++ r] | None => [] end in
      Forall one_line headers /\
      mail = concat (map (fun l => l ++ crlf) headers) ++ crlf ++ b64_encode b ++ crlf /\
      lines mail = headers ++ [[]] ++ lines (b64_encode b ++ crlf)
  | Err e => ~ address to_ \/ ~ address from_ \/
             exists e', cbor = Err e' /\ e = SerializationError ($"CBOR encode: " ++ e')
  end.
Proof.
  intros Hu Hd. unfold build_response, mbind, result_bind.
  pose proof (validate_address to_) as Ht. destruct (validate_email_addr to_); [|by left].
  pose proof (validate_address from_) as Hf. destruct (validate_email_addr from_); [|by right; left].
  destruct cbor as [b|e']; cbn [map_err]; [|by right; right; eauto].
  split; [done|]. split; [done|]. exists b, (sanitize_header mt), (sanitize_header rid), (sanitize_header <$> irt).
  split; [done|]. split; [apply sanitize_cleaned|]. split; [apply sanitize_cleaned|].
  split; [destruct irt; constructor; apply sanitize_cleaned|]. cbv zeta.
  match goal with |- Forall one_line ?hs /\ _ => set (headers := hs) end.
  assert (Forall one_line headers) as Hh.
  { unfold headers. destruct irt as [r|]; cbn [fmap option_fmap option_map app]; repeat (apply Forall_cons_2; [one_line_text|]); apply Forall_nil_2. }
  split; [done|]. match goal with |- ?m = _ /\ _ => set (mail := m) end.
  assert (mail = concat (map (fun l => l ++ crlf) headers) ++ crlf ++ b64_encode b ++ crlf) as E.
  { unfold mail, headers, mail_text, header. rewrite (sanitize_id to_), (sanitize_id from_) by (apply Ht || apply Hf).
    destruct irt as [r|]; cbn [map concat app fmap option_fmap option_map]; rewrite <- !app_assoc; cbn [app]; by rewrite ?app_nil_r. }
  split; [done|]. by rewrite E, lines_headers.
Qed.
End building.

(** Concrete crates: a message is its body, under a witness subject and the given
    headers; Base64 and CBOR are the identity, "P.." a plain and "E.." a sealed
    envelope. *)
Definition crates_with (headers : bytes -> option bytes) : EmailCrates (CV := ex_values) := {|
  parse_mime := fun raw => Some {| mime_from := Some $"w@axiom"; mime_to := None;
    mime_message_id := None; mime_subject := Some $"AXIOM/witness/r1";
    mime_header := headers; mime_text := Some raw; mime_html := None |};
  b64_encode := fun b => b; b64_decode := fun b => Ok b;
  Sealed := bytes;
  envelope_of_cbor := fun b => match b with
    | "E"%char :: b' => Some (inr b') | "P"%char :: b' => Some (inl b') | _ => None end;
  verifying_key := fun b => b; ed25519_sk_to_x25519_sk := fun b => b;
  open_for_validator := fun env _ _ => Some env;
  payload_of_cbor := fun b => Ok (no_fields (CV := ex_values));
  vbc_of_cbor := fun _ => None;
  hex_decode := fun _ => None |}.
Definition ex_crates : EmailCrates (CV := ex_values) := crates_with (fun _ => None).

Lemma build_response_exact_witness :
  let s := {| mail_uuid := $"u1"; subject_uuid := []; mail_time := 7; mail_date := $"now" |} in
  match build_response (EC := ex_errors) (EK := ex_crates) s $"w@axiom" $"v@axiom" $"error"
          ($"r1" ++ [CR] ++ $"Bcc: x@y" ++ crlf) None (Ok $"DATA") with
  | Ok mail => lines mail !! 2%nat = Some $"Subject: AXIOM/error/r1Bcc: x@y"
  | Err _ => False
  end.
Proof.
  intros s. set (rid := $"r1" ++ [CR] ++ $"Bcc: x@y" ++ crlf).
  assert (one_line $"u1" /\ one_line $"now") as [Hu Hd]
    by (repeat split; apply (bool_decide_unpack _); vm_compute; exact I).
  pose proof (build_response_exact (EC := ex_errors) (EK := ex_crates) s $"w@axiom" $"v@axiom" $"error"
                rid None (Ok $"DATA") Hu Hd) as H.
  assert (exists m, build_response (EC := ex_errors) (EK := ex_crates) s $"w@axiom" $"v@axiom" $"error"
            rid None (Ok $"DATA") = Ok m) as [m E]
    by (eexists; vm_compute; reflexivity).
  rewrite E in *. destruct H as (_ & _ & b & mt' & rid' & irt' & _ & Hm & Hr & _ & _ & _ & ->).
  apply cleaned_sanitized in Hm, Hr. subst mt' rid'. reflexivity.
Defined.
End Building.
