(* ===== verification/Gateway.v ===== *)
(** * The gateway: [gateway.rs]

    Admission (busy gate, per-wallet limiter, ban file), dispatch of the inbox,
    and the routing of replies.  The gateway's world holds the disk (through
    [HasDisk], so that a sender writing outboxes on the same disk shares it),
    the statistics, the limiter, the key cache and the Lambda client, known by
    its interface [LambdaOps].  The request handlers are a record of operations,
    whose one implementation is Handlers. *)
From S2P Require Import Prelude Utf8 Fs Errors CoreTypes Config CareOf Sinks Carriers Stats Lambda Pgp Email.
Import Errors Email Core.

(** ** Admission control *)
Module Admission.

(** [Instant]s and [Duration]s in nanoseconds. *)
Record WalletRateLimiter : Type := { last_request : gmap bytes Z; cooldown : Z }.
Definition limiter_new (cooldown_ms : Z) : WalletRateLimiter :=
  {| last_request := ∅; cooldown := cooldown_ms * 1000000 |}.
Definition check_and_record (wallet_id : bytes) (now : Z) (l : WalletRateLimiter)
    : bool * WalletRateLimiter :=
  match last_request l !! wallet_id with
  | Some last =>
      if sat_sub now last <? cooldown l then (false, l)
      else (true, {| last_request := <[wallet_id := now]> (last_request l); cooldown := cooldown l |})
  | None => (true, {| last_request := <[wallet_id := now]> (last_request l); cooldown := cooldown l |})
  end.
Definition evict_stale (now : Z) (l : WalletRateLimiter) : WalletRateLimiter :=
  let cutoff := now - cooldown l * 2 in
  {| last_request := filter (fun kv => cutoff < kv.2) (last_request l); cooldown := cooldown l |}.
(** What a witness request does with it: eviction above a hundred entries. *)
Definition limit (wallet_id : bytes) (now now' : Z) (l : WalletRateLimiter) : bool * WalletRateLimiter :=
  let '(allowed, l) := check_and_record wallet_id now l in
  if negb allowed then (false, l)
  else (true, if (100 <? size (last_request l))%nat then evict_stale now' l else l).

Definition busy_estimate_exceeds (queue_depth avg_ms threshold_ms : Z) : bool :=
  threshold_ms <? wrap 64 (wrap 64 queue_depth * avg_ms).
Definition should_reject_busy (threshold : Z) (s : Stats.AntieStats) (queue_depth : Z) : bool :=
  if threshold =? 0 then false
  else
    let avg_ms := Stats.value s Stats.avg_witness_ms in
    if avg_ms =? 0 then false else busy_estimate_exceeds queue_depth avg_ms threshold.

Definition parse_avg_witness_ms (body : bytes) : option Z :=
  match find_sub ([DQ] ++ $"avg_witness_ms" ++ [DQ] ++ $":") body with
  | Some pos =>
      let after := drop (pos + 17) body in
      match list_find (fun b => b = ","%char \/ b = "}"%char) after with
      | Some (e, _) => parse_uint U64_MAX (trim (take e after))
      | None => None
      end
  | None => None
  end.
Definition record_stats_poll (outcome : result bytes Z) (s : Stats.AntieStats)
    : option bytes * Stats.AntieStats :=
  match outcome with
  | Ok v => (None, Stats.store Stats.avg_witness_ms v s)
  | Err reason =>
      let n := wrap 64 (Stats.value s Stats.lambda_stats_poll_failures + 1) in
      (if (n =? 1) || (n mod 100 =? 0) then Some reason else None,
       Stats.fetch_add Stats.lambda_stats_poll_failures 1 s)
  end.

(** The ban keys of a sender: [smt_bucket] and [security_level] are Core's. *)
Definition nabla_ban_keys (security_level : bytes -> option Z) (smt_bucket : bytes -> Z -> bytes)
    (client_pk sender_wallet_id : bytes) : list bytes :=
  if (length client_pk =? 32)%nat then
    let k_tier := unwrap_or 3 (security_level sender_wallet_id) in
    let bucket := smt_bucket client_pk k_tier in
    hex_encode client_pk :: (if decide (bucket = client_pk) then [] else [hex_encode bucket])
  else [].
(** Whether the file lists a key, and the statistics after looking. *)
Definition nabla_ban_file_lists {E : Type} (p : option path) (keys : list bytes) (s : Stats.AntieStats)
    : M world E (bool * Stats.AntieStats) :=
  match p with
  | None => mret (false, Stats.fetch_add Stats.ban_list_unavailable 1 s)
  | Some p =>
      r ← attempt (read_file p);
      mret (match r with
            | Ok c =>
                if is_utf8 c then (existsb (fun l => bool_decide (trim l ∈ keys)) (lines c), s)
                else (false, Stats.fetch_add Stats.ban_list_unavailable 1 s)
            | Err _ => (false, Stats.fetch_add Stats.ban_list_unavailable 1 s)
            end)
  end.

Definition answers_out_of_band (message_type : bytes) : bool :=
  bool_decide (message_type = $"peer_audit_request" \/ message_type = $"peer_audit_response").
Definition peer_audit_reply_address (hint_email : option bytes) (envelope_from : bytes) : option bytes :=
  match hint_email with
  | Some e => Some e
  | None => if decide (trim envelope_from = []) then None else Some (trim envelope_from)
  end.
End Admission.

(** ** What the gateway asks of Lambda *)
Class LambdaOps `{EC : ErrorsCrate} `{CV : CoreValues} (Lm : Type) : Type := {
    ask_witness : WitnessRequest -> M Lm fault WitnessResponse;
    ask_redeem : RedeemRequestEnvelope -> M Lm fault RedeemResponse;
    ask_ack : AckRequest -> M Lm fault AckResponse;
    (* request id, public key, balance, members, auth hash *)
    ask_genesis : bytes -> bytes -> Z -> option (list GroupMember) -> option bytes -> M Lm fault InitGenesisResponse;
    ask_query : bytes -> bytes -> M Lm fault StateQueryResponse;           (* uuid, key *)
    ask_status : bytes -> M Lm fault ValidatorStatusResponse;
    ask_vbc_sign : VBCSignRequestPayload -> M Lm fault VBCSignApproval;
    ask_vbc_commit : VBCSignCommitPayload -> M Lm fault VBCSignCommitResponse;
    ask_auth_hash : bytes -> bytes -> bytes -> M Lm fault SetAuthHashResponse;
    ask_audit : bytes -> PeerAuditRequest -> M Lm fault PeerAuditResultPayload;
    tell_dispatch_failed : bytes -> bytes -> bytes -> M Lm fault unit;     (* uuid, target, error *)
    tell_not_held : bytes -> PeerAuditNotHeld -> M Lm fault unit;
    tell_audit_response : bytes -> PeerAuditResponse -> M Lm fault unit;
}.
(** The client of lambda_client.rs provides it. *)
#[export] Instance client_ops `{EC : ErrorsCrate} `{CV : CoreValues} `{CF : !CoreFns} `{RU : Rustls}
    {H : Type} `{LH : LambdaHost H} (m : Client.LambdaMode) : LambdaOps (Client.lam H) := {|
  ask_witness := Client.send_witness_request m;
  ask_redeem := Client.send_redeem_request m;
  ask_ack := Client.send_ack_request m;
  ask_genesis := Client.send_genesis_dev_request m;
  ask_query := Client.send_query_request m;
  ask_status := Client.send_validator_status_request m;
  ask_vbc_sign := Client.send_vbc_sign_request m;
  ask_vbc_commit := Client.send_vbc_sign_commit m;
  ask_auth_hash := Client.send_set_auth_hash_request m;
  ask_audit := Client.send_peer_audit_request m;
  tell_dispatch_failed := Client.send_peer_audit_dispatch_failed m;
  tell_not_held := Client.send_peer_audit_not_held m;
  tell_audit_response := Client.send_peer_audit_response m |}.

(** ** Dispatch *)
Module Gateway.
Import Admission.

(** What handling one message reads from outside: the stamps of its reply and of
    the deliveries before it, the clocks, a fresh request id for Lambda. *)
Record ambient : Type := {
  mail_of : mail_stamp; stamp_of : nat -> mail_stamp; proc : N; nanos : N; wall : Z; mono : Z;
  limiter_now : Z; limiter_evict : Z; key_now : nat -> Z * Z; lambda_uuid : bytes }.
(** The gateway's world: everything outside, its counters and limiter, the key
    cache, the Lambda client. *)
Record gw (W N Lm : Type) : Type := Gw {
  outer : W; stats : Stats.AntieStats; limiter : WalletRateLimiter; keys : Pgp.ring N; lambda : Lm }.
Arguments Gw {W N Lm}.
Arguments outer {W N Lm}.
Arguments stats {W N Lm}.
Arguments limiter {W N Lm}.
Arguments keys {W N Lm}.
Arguments lambda {W N Lm}.

Section gateway.
Context `{EC : ErrorsCrate} `{CV : CoreValues} `{CF : !CoreFns} `{EK : !EmailCrates}.
Context {W : Type} `{HD : HasDisk W} {N Lm : Type}.
Abbreviation gw_ := (gw W N Lm).
Abbreviation G A := (M gw_ fault A).

Definition with_outer (x : W) (g : gw_) : gw_ := Gw x (stats g) (limiter g) (keys g) (lambda g).
Definition with_stats (s : Stats.AntieStats) (g : gw_) : gw_ := Gw (outer g) s (limiter g) (keys g) (lambda g).
Definition with_limiter (l : WalletRateLimiter) (g : gw_) : gw_ := Gw (outer g) (stats g) l (keys g) (lambda g).
Definition with_keys (k : Pgp.ring N) (g : gw_) : gw_ := Gw (outer g) (stats g) (limiter g) k (lambda g).
Definition with_lambda (l : Lm) (g : gw_) : gw_ := Gw (outer g) (stats g) (limiter g) (keys g) l.

(** The parts of the configuration and of the environment the gateway reads,
    and its components. *)
Record Gateway : Type := {
    identity_email : bytes;
    busy_threshold_ms : Z;
    custody_table : list Config.CustodyRoute;
    maildir_inbox : option path;           (* [carriers.maildir] *)
    nabla_ban_list_path : option path;
    pickup_dir : option path;              (* [pickup] *)
    vbc_path : option path;                (* [validator] *)
    sig_prefilter : bool;                  (* AXIOM_ANTIE_SIG_PREFILTER=1 *)
    lambda_admin_url : option bytes;       (* LAMBDA_ADMIN_URL *)
    skip_list : option (SkipList.SkipList);
    uncle_sink : option UncleSink.UncleSink;
    envelope_decryptor : option Decryptor;
    sender : ambient -> MailCarrier W;
}.
(** The handlers, per message type. *)
Record Handlers : Type := {
    handle_witness_request : ambient -> AntieEmail -> G ResponsePayload;
    handle_redeem_request : ambient -> AntieEmail -> G ResponsePayload;
    handle_ack_request : ambient -> AntieEmail -> G ResponsePayload;
    handle_query : ambient -> AntieEmail -> G ResponsePayload;
    handle_validator_status : ambient -> AntieEmail -> G ResponsePayload;
    handle_genesis_dev : ambient -> AntieEmail -> G ResponsePayload;
    handle_vbc_sign_request : ambient -> AntieEmail -> G ResponsePayload;
    handle_vbc_sign_commit : ambient -> AntieEmail -> G ResponsePayload;
    handle_set_auth_hash : ambient -> AntieEmail -> G ResponsePayload;
    handle_peer_audit_request : ambient -> AntieEmail -> G ResponsePayload;
    handle_peer_audit_response : ambient -> AntieEmail -> G ResponsePayload;
}.

Definition on_outer {A : Type} (m : M W AntieError A) : G A := failing_only (zoom outer with_outer m).
Definition on_disk {E A : Type} (m : M world E A) : M gw_ E A :=
  zoom (fun g => disk_of (outer g)) (fun d g => with_outer (set_disk d (outer g)) g) m.
Definition on_stats (f : Stats.AntieStats -> Stats.AntieStats) : G unit :=
  modify (fun g => with_stats (f (stats g)) g).
Definition on_lambda {A : Type} (m : M Lm fault A) : G A := zoom lambda with_lambda m.
Definition refuse {A : Type} (e : AntieError) : G A := throw (Failed e).
Definition bump (c : Stats.counter) : G unit := on_stats (Stats.bump c).

Definition antie_rejection (code_ : bytes) (cat : ErrorCategory) (msg request_id_ : bytes)
    : option ErrorResponse :=
  Some (with_request_id (response_new (from_static code_) cat msg) request_id_).
(** The literal most handlers end in: every other field empty. *)
Definition verdict (ok : bool) (request_id_ : bytes) (err rej : option bytes) (er : option ErrorResponse)
    : ResponsePayload :=
  {| success := ok; resp_request_id := request_id_; witness_signature := None;
     resp_cheque_for_receiver := None; scar_consent_voucher := None; produced_state_id := None;
     receipt := None; commitment_hash := None; state_hash := None; receipt_commitment := None;
     txid := None; state_id := None; error := err; rejection_code := rej; error_response := er;
     validator_hints := []; sender_fact_chain := None; receiver_fact_chain := None;
     fact_signature := None; query_data := None; sender_state := None; vbc_signature := None |}.
Definition refusal (request_id_ : bytes) (err rej : bytes) (er : option ErrorResponse) : ResponsePayload :=
  verdict false request_id_ (Some err) (Some rej) er.

(** *** Replies *)
Definition custody_row (table : list Config.CustodyRoute) (hdr : bytes) : option Config.CustodyRoute :=
  List.find (fun r => eq_ignore_ascii_case (Config.header r) hdr) table.
Definition custody_dir (row : Config.CustodyRoute) (id : bytes) : path := join (Config.custody_outbox row) id.
Definition mail_reply (g : Gateway) (a : ambient) (to_ mail : bytes) : G unit :=
  _ ← on_outer (send (sender g a) to_ mail);
  _ ← bump Stats.emails_sent;
  on_stats (Stats.note_round_served (wall a)).
(** Deposit a reply in its row; [true]: nothing is left to mail. *)
Definition custody_reply (row : Config.CustodyRoute) (hdr id : bytes) (p : ResponsePayload) (mail : bytes)
    : G bool :=
  r ← attempt (on_disk (Custody.deposit (custody_dir row id) (resp_request_id p ++ $".cbor") mail));
  match r with
  | Ok _ => mret (Config.suppress_email row)
  | Err e =>
      if Config.suppress_email row then
        refuse (MaildirError ($"custody deposit failed for " ++ hdr ++ $": " ++ io_msg (e : io_error)))
      else mret false
  end.
Definition send_response (g : Gateway) (a : ambient) (original : AntieEmail) (p : ResponsePayload) : G unit :=
  let response_type := if success p then $"witness_response" else $"error" in
  mail ← lift (map_err Failed (build_response (mail_of a) (from original) (identity_email g) response_type
                 (resp_request_id p) (message_id original) (response_cbor p)));
  _ ← match uncle_sink g, uncle_correlate original with
      | Some sink, Some correlate =>
          _ ← attempt (E := io_error) (on_disk (UncleSink.tee sink (proc a) (nanos a) correlate mail)); mret tt
      | _, _ => mret tt
      end;
  match custody original with
  | None => mail_reply g a (from original) mail
  | Some (hdr, id) =>
      if eq_ignore_ascii_case hdr $"X-TOT-Session" && is_dev_wallet (from original) then
        refuse (InvalidPayload ($"custody: " ++ hdr ++ $" is the normal-wallet stamp; sender "
                               ++ from original ++ $" is a dev wallet — stamp and address disagree"))
      else match custody_row (custody_table g) hdr with
           | None => mail_reply g a (from original) mail
           | Some row =>
               stop ← custody_reply row hdr id p mail;
               if (stop : bool) then mret tt else mail_reply g a (from original) mail
           end
  end.

(** *** One message *)
Definition MAX_MESSAGE_BYTES : nat := 8 * 1024 * 1024.
Definition unknown_type (e : AntieEmail) : ResponsePayload :=
  let msg := $"Unknown message type: " ++ message_type e in
  refusal (request_id e) msg $"UNKNOWN_TYPE"
    (antie_rejection $"E_ANTIE_UNKNOWN_MESSAGE_TYPE" ClientBug msg (request_id e)).
Definition FANOUT_REASON : bytes :=
  $"fan-out relay refused: ANTIE is a gateway, not a validator-to-validator channel (YP §28, KI#175) — send fan-out as a wallet-carried transaction".
Definition handle_fanout_relay (e : AntieEmail) : G ResponsePayload :=
  _ ← bump Stats.fanout_relay_refused;
  mret (refusal (request_id e) FANOUT_REASON $"FANOUT_RELAY_REFUSED"
          (antie_rejection $"E_ANTIE_INVALID_PAYLOAD" ClientBug FANOUT_REASON (request_id e))).

(** Certificates received by mail are filed, not answered; every failure is only
    logged. *)
Definition stake_dirs (wallets : path) (names : result io_error (list bytes)) : list path :=
  match names with
  | Ok ns => map (fun n => wallets ++ [n]) (List.filter (fun n => is_utf8 n && ends_with $"_Stake" n) ns)
  | Err _ => []
  end.
Definition file_vbc_delivery (g : Gateway) (a : ambient) (raw_ : bytes) (sig : VbcSignature) : G unit :=
  match maildir_inbox g with
  | None => mret tt
  | Some inbox =>
      let vdir := if (length inbox <=? 1)%nat then inbox else removelast (removelast inbox) in
      names ← attempt (on_disk (E := io_error) (read_dir (join vdir $"wallets")));
      let dest_dir := match stake_dirs (join vdir $"wallets") names with
                      | [d] => join d $"maildir/inbox/new"
                      | _ => join vdir $"maildir/vbc/new"
                      end in
      let name := show_Z (mail_time (mail_of a)) ++ $".vbc-" ++ hex_encode (take 8 (signer_sphincs_pk sig)) ++ $".eml" in
      _ ← attempt (E := io_error) (on_disk (_ ← create_dir_all dest_dir; fs_write (join dest_dir name) raw_));
      mret tt
  end.

Definition dispatch (h : Handlers) (a : ambient) (e : AntieEmail) : G ResponsePayload :=
  let t := message_type e in
  if decide (t = $"witness") then handle_witness_request h a e
  else if decide (t = $"redeem") then handle_redeem_request h a e
  else if decide (t = $"ack") then handle_ack_request h a e
  else if decide (t = $"query") then handle_query h a e
  else if decide (t = $"validator_status") then handle_validator_status h a e
  else if decide (t = $"init_genesis_dev") then handle_genesis_dev h a e
  else if decide (t = $"vbc_sign_request") then handle_vbc_sign_request h a e
  else if decide (t = $"vbc_sign_commit") then handle_vbc_sign_commit h a e
  else if decide (t = $"set_auth_hash") then handle_set_auth_hash h a e
  else if decide (t = $"peer_audit_request") then handle_peer_audit_request h a e
  else if decide (t = $"peer_audit_response") then handle_peer_audit_response h a e
  else if decide (t = $"fanout_relay") then handle_fanout_relay e
  else mret (unknown_type e).
(** The reply to a handler's failure: Lambda's verdict verbatim, anything else
    as an internal error. *)
Definition error_reply (e : AntieEmail) (err : AntieError) : ResponsePayload :=
  match err with
  | LambdaRejected er => refusal (request_id e) (display err) (code_text er) (Some er)
  | _ => refusal (request_id e) (display err) $"INTERNAL_ERROR"
           (Some (with_request_id (to_response err) (request_id e)))
  end.
(** A parsed message: its handler, then the one reply. *)
Definition serve (g : Gateway) (h : Handlers) (a : ambient) (e : AntieEmail) : G unit :=
  response ← recover (dispatch h a e);
  if answers_out_of_band (message_type e) then mret tt
  else match response with
       | Ok p => send_response g a e p
       | Err err => send_response g a e (error_reply e err)
       end.
Definition process_message (g : Gateway) (h : Handlers) (a : ambient) (msg : IncomingMessage) : G unit :=
  if (MAX_MESSAGE_BYTES <? length (Carriers.raw msg))%nat then bump Stats.oversize_dropped
  else match try_parse_vbc_delivery (Carriers.raw msg) with
       | Some sig => file_vbc_delivery g a (Carriers.raw msg) sig
       | None =>
           match parse_email_outcome (Carriers.raw msg) (envelope_decryptor g) with
           | Ok (Parsed e) => serve g h a e
           | Ok DecryptFailed => bump Stats.decrypt_fail
           | Err _ => bump Stats.parse_fail
           end
       end.

(** *** The busy rejection, parsed without the decryptor *)
Definition busy_payload (e : AntieEmail) (avg_ms : Z) : ResponsePayload :=
  refusal (request_id e)
    ($"E_VALIDATOR_BUSY: estimated wait exceeds threshold (avg_witness_ms=" ++ show_Z avg_ms ++ $")")
    $"E_VALIDATOR_BUSY"
    (antie_rejection $"E_ANTIE_VALIDATOR_BUSY" Operational
       ($"validator busy: estimated wait exceeds threshold (avg_witness_ms=" ++ show_Z avg_ms ++ $")")
       (request_id e)).
Definition send_busy_rejection (g : Gateway) (a : ambient) (msg : IncomingMessage) : G unit :=
  match parse_email (Carriers.raw msg) with
  | Err _ => mret tt
  | Ok e =>
      w ← get;
      send_response g a e (busy_payload e (Stats.value (stats w) Stats.avg_witness_ms))
  end.

(** *** The inbox *)
Definition beat_opt (hb : option nat) (now : Z) : G unit :=
  match hb with Some i => on_stats (Stats.beat i now) | None => mret tt end.
Definition dispatch_one (g : Gateway) (h : Handlers) (c : MailCarrier W) (hb : option nat)
    (a : ambient) (queue_depth : Z) (msg : IncomingMessage) : G unit :=
  _ ← beat_opt hb (mono a);
  _ ← bump Stats.messages_received;
  w ← get;
  if should_reject_busy (busy_threshold_ms g) (stats w) queue_depth then
    _ ← recover (send_busy_rejection g a msg);
    _ ← bump Stats.busy_rejections;
    _ ← recover (on_outer (mark_processed c (id msg)));
    mret tt
  else
    r ← recover (process_message g h a msg);
    match r with
    | Err e =>
        _ ← bump Stats.messages_failed;
        _ ← recover (on_outer (mark_failed c (id msg) (display e)));
        mret tt
    | Ok _ =>
        _ ← bump Stats.messages_processed;
        _ ← recover (on_outer (mark_processed c (id msg)));
        mret tt
    end.
Fixpoint dispatch_each (g : Gateway) (h : Handlers) (c : MailCarrier W) (hb : option nat)
    (env : nat -> ambient) (k : nat) (messages : list IncomingMessage) : G unit :=
  match messages with
  | [] => mret tt
  | msg :: messages' =>
      _ ← dispatch_one g h c hb (env k) (Z.of_nat (length messages')) msg;
      dispatch_each g h c hb env (S k) messages'
  end.
(** [now]: the wall clock when the check returned. *)
Definition process_carrier_messages (g : Gateway) (h : Handlers) (c : MailCarrier W) (hb : option nat)
    (now : Z) (env : nat -> ambient) : G unit :=
  r ← recover (on_outer (check_new c));
  match r with
  | Ok messages =>
      _ ← (if decide (messages = []) then mret tt else on_stats (Stats.note_inbox_write now));
      dispatch_each g h c hb env 0 messages
  | Err _ => mret tt
  end.
End gateway.
End Gateway.
