(* ===== verification/Handlers.v ===== *)
(** * The request handlers: the rest of [gateway.rs]

    What ANTIE does with each message type: it asks Core and Lambda, makes the
    deliveries Lambda's verdict calls for, and words the reply.  A handler that
    calls Lambda can fail, hang with it, or leave the process ([fault]). *)
From S2P Require Import Prelude Fs Errors CoreTypes Config CareOf Sinks Carriers Stats Lambda Pgp CoreIpc Email Gateway.
Import Errors Email Core CoreIpc Gateway.

Module Handlers.
Section handlers.
Context `{EC : ErrorsCrate} `{CV : CoreValues} `{CF : !CoreFns} `{EK : !EmailCrates}.
Context {W : Type} `{HD : HasDisk W} {N Lm : Type} `{OP : OpenPgp} `{HT : Http N} `{LO : !LambdaOps Lm}.
Abbreviation G A := (M (gw W N Lm) fault A).
Abbreviation Gateway_ := (Gateway (W := W)).

Definition missing {A : Type} (what : bytes) (o : option A) : G A :=
  lift (ok_or (Failed (InvalidPayload ($"Missing " ++ what))) o).
(** Count a Lambda call, and its failure. *)
Definition track_lambda {A : Type} (f : M Lm fault A) : G A :=
  _ ← bump Stats.lambda_requests;
  r ← recover (on_lambda f);
  match r with
  | Ok v => mret v
  | Err e => _ ← bump Stats.lambda_errors; refuse e
  end.
Definition body_len (e : AntieEmail) : bytes := show_N (N.of_nat (length (raw_ump_body (payload e)))).

(** ** Witness requests: admission *)
Definition substitute_headers (e : AntieEmail) (req : WitnessRequest) : WitnessRequest :=
  {| wq_request_id := if decide (wq_request_id req = []) then request_id e else wq_request_id req;
     requester_address := if decide (requester_address req = []) then from e else requester_address req;
     transaction := transaction req; claimed_balance_for_sabr := claimed_balance_for_sabr req;
     prev_receipts := prev_receipts req; overlapped_signatures := overlapped_signatures req;
     wq_sender_fact_chain := wq_sender_fact_chain req; fact_certificates := fact_certificates req;
     wq_produced_state_id := wq_produced_state_id req; wq_commitment_hash := wq_commitment_hash req;
     wq_rest := wq_rest req |}.
Definition has_overlap (req : WitnessRequest) : bool :=
  match overlapped_signatures req with [] => false | _ => true end.
Definition rate_gate (a : ambient) (wallet_id : bytes) : G unit :=
  if decide (wallet_id = []) then mret tt
  else
    w ← get;
    let '(allowed, l) := Admission.limit wallet_id (limiter_now a) (limiter_evict a) (limiter w) in
    _ ← modify (with_limiter l);
    if allowed then mret tt
    else
      _ ← bump Stats.rate_limited;
      refuse (RateLimited ($"E_WALLET_RATE_LIMITED: wallet " ++ wallet_id ++ $" — retry after cooldown")).
Definition ban_gate (g : Gateway_) (tx : Transaction) : G unit :=
  w ← get;
  '(banned, s) ← on_disk (Admission.nabla_ban_file_lists (nabla_ban_list_path g)
       (Admission.nabla_ban_keys extract_security_level smt_bucket (tx_client_pk tx) (sender_wallet_id tx))
       (stats w));
  _ ← modify (with_stats s);
  if (banned : bool) then
    _ ← bump Stats.ban_rejected;
    refuse (WalletBanned ($"E_WALLET_BANNED: wallet " ++ sender_wallet_id tx ++ $" is banned (YP §32)"))
  else mret tt.
Definition sig_gate (g : Gateway_) (tx : Transaction) : G unit :=
  if sig_prefilter g && negb (bool_decide (client_sig tx = [])) && negb (bool_decide (tx_client_pk tx = []))
     && negb (verify_ed25519 (tx_client_pk tx) (signing_message tx) (client_sig tx))
  then
    _ ← bump Stats.parse_fail;
    refuse (EmailParseError $"E_SIG_PREFILTER: client signature did not verify")
  else mret tt.

(** [ValidatorConfig::load_vbc] *)
Definition load_vbc {E : Type} (p : option path) : M world E (option VBCProofBundle) :=
  match p with
  | None => mret None
  | Some p =>
      r ← attempt (read_file p);
      mret (match r with
            | Err _ => None
            | Ok b =>
                match decode_bundle b with
                | Some bundle => if bundle_structure_ok bundle then Some bundle else None
                | None => None
                end
            end)
  end.
(** Core's prefilter: [inl] the refusal to answer with, [inr] what it computed,
    nothing when Core could not run. *)
Definition cl2_refusal (rid : bytes) (v : ValidationOutput) : ResponsePayload :=
  verdict false rid (rejection_reason v) (Some $"CL2_VALIDATION_FAILED")
    (match rejection v with
     | Some x => Some (with_request_id (error_of_validation x) rid)
     | None => antie_rejection $"E_ANTIE_VALIDATION_FAILED" ProtocolReject
                 (unwrap_or $"CL2 rejected" (rejection_reason v)) rid
     end).
Definition cl2_gate (g : Gateway_) (e : AntieEmail) (req : WitnessRequest)
    : G (ResponsePayload + option ValidationOutput) :=
  vbc_bundle ← on_disk (load_vbc (vbc_path g));
  match validate_transaction_cl2 (transaction req) (claimed_balance_for_sabr req) (prev_receipts req)
          (overlapped_signatures req) vbc_bundle (subject_pubkey_ed25519 <$> vbc_bundle)
          (wq_sender_fact_chain req) (fact_certificates req) with
  | Ok v => mret (if accepted v then inr (Some v) else inl (cl2_refusal (request_id e) v))
  | Err (Failed _) => mret (inr None)
  | Err f => throw f
  end.
Definition with_cl2 (v : option ValidationOutput) (req : WitnessRequest) : WitnessRequest :=
  {| wq_request_id := wq_request_id req; requester_address := requester_address req;
     transaction := transaction req; claimed_balance_for_sabr := claimed_balance_for_sabr req;
     prev_receipts := prev_receipts req; overlapped_signatures := overlapped_signatures req;
     wq_sender_fact_chain := wq_sender_fact_chain req; fact_certificates := fact_certificates req;
     wq_produced_state_id := v ≫= new_state_id; wq_commitment_hash := v ≫= vo_commitment_hash;
     wq_rest := wq_rest req |}.

(** ** Deliveries *)
Definition encrypt_for (a : ambient) (i : nat) (addr mail : bytes) : G (bytes * bool) :=
  w ← get;
  let '(r, k) := Pgp.try_encrypt_for_email addr mail (key_now a i).1 (key_now a i).2 (keys w) in
  _ ← modify (with_keys k);
  mret r.
Definition plan (g : Gateway_) (tx : Transaction) : CareOf.DeliveryPlan :=
  CareOf.plan_receiver_delivery validate_wallet_id (receiver_address tx) (receiver_wallet_id tx)
    (match pickup_dir g with Some _ => true | None => false end).
(** Whom to write to; a refusal is counted. *)
Definition receiver_email (p : CareOf.DeliveryPlan) : G (option bytes) :=
  match p with
  | CareOf.Email e => mret (Some e)
  | CareOf.Deposit _ inner => mret (Some inner)
  | CareOf.Refuse _ => _ ← bump Stats.care_of_verify_rejects; mret None
  end.
(** [true]: the pickup agent owns it from here. *)
Definition pickup_deposit (g : Gateway_) (p : CareOf.DeliveryPlan) (filename mail : bytes) : G bool :=
  match p, pickup_dir g with
  | CareOf.Deposit domain _, Some base =>
      r ← attempt (E := io_error) (on_disk (CareOf.deposit_atomic base domain filename mail));
      match r with
      | Ok _ => _ ← bump Stats.care_of_deposits; mret true
      | Err _ => mret false
      end
  | _, _ => mret false
  end.
Definition count_care_of_default (p : CareOf.DeliveryPlan) (tx : Transaction) : G unit :=
  match p, receiver_address tx ≫= CareOf.parse_care_of with
  | CareOf.Email _, Some _ => bump Stats.care_of_default_deliveries
  | _, _ => mret tt
  end.
(** [true]: a sibling carrier claims it from the skipped directory. *)
Definition divert (g : Gateway_) (tx : Transaction) (filename mail : bytes) : G bool :=
  match skip_list g with
  | Some sl =>
      if SkipList.contains sl (receiver_wallet_id tx) then
        r ← attempt (E := AntieError) (on_disk (SkipList.write_skipped sl filename mail));
        mret (is_ok r)
      else mret false
  | None => mret false
  end.
Definition mail_out (g : Gateway_) (a : ambient) (to_ mail : bytes) : G (result AntieError unit) :=
  recover (on_outer (send (sender g a) to_ mail)).
Definition show_bool (b : bool) : bytes := if b then $"true" else $"false".
Definition delivery_update (g : Gateway_) (txid_ : bytes) (encrypted : bool) : G unit :=
  match lambda_admin_url g with
  | None => mret tt
  | Some url =>
      modify (fun w => with_keys (Pgp.Ring (Pgp.cache (keys w))
        (post (Pgp.net (keys w)) (url ++ $"/delivery-update")
           ($"{" ++ [DQ] ++ $"txid" ++ [DQ] ++ $":" ++ [DQ] ++ hex_encode txid_ ++ [DQ] ++ $"," ++ [DQ]
            ++ $"encrypted" ++ [DQ] ++ $":" ++ show_bool encrypted ++ $"}"))) w)
  end.
Definition cheque_email (g : Gateway_) (a : ambient) (tx : Transaction) (recv : bytes)
    (cheque : ValidatorCheque) (chain : option FactChain) : result AntieError bytes :=
  send_origin ← map_err (fun e => InvalidPayload ($"cheque send_origin: " ++ e)) (origin_of tx);
  build_cheque_delivery_email (cheque_origin_matches send_origin (cheque_txid cheque)) (cheque_txid cheque)
    (stamp_of a 0%nat) (identity_email g) recv (cheque_cbor cheque chain send_origin).
(** A built cheque goes one way: pickup, skip list or mail, in this order. *)
Definition place_cheque (g : Gateway_) (a : ambient) (tx : Transaction) (p : CareOf.DeliveryPlan)
    (recv : bytes) (cheque : ValidatorCheque) (mail : bytes) : G unit :=
  '(final, encrypted) ← encrypt_for a 0 recv mail;
  deposited ← pickup_deposit g p (hex_encode (cheque_txid cheque) ++ $".cheque.eml") final;
  _ ← count_care_of_default p tx;
  skipped ← (if (deposited : bool) then mret false
             else divert g tx (hex_encode (cheque_txid cheque) ++ $".cheque") final);
  if (deposited || skipped : bool) then mret tt
  else
    r ← mail_out g a recv final;
    match r with Ok _ => delivery_update g (cheque_txid cheque) encrypted | Err _ => mret tt end.
Definition deliver_cheque (g : Gateway_) (a : ambient) (tx : Transaction) (resp : WitnessResponse)
    (cheque : ValidatorCheque) : G unit :=
  if decide (receiver_wallet_id tx = BURN_ADDRESS) then mret tt
  else
    recv ← receiver_email (plan g tx);
    match recv with
    | None => mret tt
    | Some recv =>
        match cheque_email g a tx recv cheque (ws_sender_fact_chain resp) with
        | Ok mail => place_cheque g a tx (plan g tx) recv cheque mail
        | Err _ => mret tt
        end
    end.
(** The certificate goes to the mailbox the sender's wallet id names. *)
Definition deliver_certificate (g : Gateway_) (a : ambient) (tx : Transaction) (sig : VbcSignature) : G unit :=
  let to_ := unwrap_or [] (head (split SLASH (sender_wallet_id tx))) in
  if negb (contains $"@" to_) then mret tt
  else match build_vbc_delivery_email (stamp_of a 1%nat) (identity_email g) to_ (vbc_cbor sig) with
       | Ok mail => '(final, _) ← encrypt_for a 1 to_ mail; _ ← mail_out g a to_ final; mret tt
       | Err _ => mret tt
       end.
Definition deliver_scar_consent (g : Gateway_) (a : ambient) (tx : Transaction) (s : ScarConsentNotification)
    : G unit :=
  recv ← receiver_email (plan g tx);
  match recv with
  | None => mret tt
  | Some recv =>
      match build_scar_consent_email (stamp_of a 2%nat) (identity_email g) recv (scar_consent_cbor s) with
      | Ok mail =>
          '(final, _) ← encrypt_for a 2 recv mail;
          deposited ← pickup_deposit g (plan g tx) (hex_encode (scar_txid s) ++ $".scar_consent.eml") final;
          if (deposited : bool) then mret tt else _ ← mail_out g a recv final; mret tt
      | Err _ => mret tt
      end
  end.
(** A request that never left is reported back to Lambda. *)
Definition dispatch_peer_audit (g : Gateway_) (a : ambient) (p : OutboundPeerAudit) : G unit :=
  match build_peer_audit_request_email (stamp_of a 3%nat) (identity_email g) (target_email p)
          (peer_audit_request_cbor (audit_request p)) with
  | Ok mail =>
      r ← mail_out g a (target_email p) mail;
      match r with
      | Ok _ => mret tt
      | Err e =>
          _ ← recover (on_lambda (tell_dispatch_failed (lambda_uuid a) (target_email p) (display e)));
          mret tt
      end
  | Err _ => mret tt
  end.
Definition when_some {A : Type} (o : option A) (f : A -> G unit) : G unit :=
  match o with Some x => f x | None => mret tt end.
Definition deliveries (g : Gateway_) (a : ambient) (tx : Transaction) (resp : WitnessResponse) : G unit :=
  _ ← when_some (cheque_for_receiver resp) (deliver_cheque g a tx resp);
  _ ← when_some (ws_vbc_signature resp) (deliver_certificate g a tx);
  _ ← when_some (scar_consent_for_receiver resp) (deliver_scar_consent g a tx);
  when_some (outbound_peer_audit resp) (dispatch_peer_audit g a).

(** ** The handlers *)
Definition handle_witness_request (g : Gateway_) (a : ambient) (e : AntieEmail) : G ResponsePayload :=
  req ← lift (map_err (fun t => Failed (InvalidPayload ($"WitnessRequest CBOR decode failed: " ++ t
                                  ++ $" (body_len=" ++ body_len e ++ $")")))
                (decode_witness_request (raw_ump_body (payload e))));
  let req := substitute_headers e req in
  let tx := transaction req in
  _ ← (if has_overlap req then mret tt else rate_gate a (sender_wallet_id tx));
  _ ← (if has_overlap req then mret tt else ban_gate g tx);
  _ ← (if has_overlap req then mret tt else sig_gate g tx);
  cl2 ← cl2_gate g e req;
  match cl2 with
  | inl refused => mret refused
  | inr v =>
      resp ← track_lambda (ask_witness (with_cl2 v req));
      _ ← deliveries g a tx resp;
      mret (sender_leg resp)
  end.

(** Queries *)
Definition query_wallet_pk (params : Value) : option bytes :=
  match params with
  | Map entries =>
      match List.find (fun kv => match kv.1 with Text k => bool_decide (k = $"wallet_pk") | _ => false end) entries with
      | Some (_, Bytes b) => Some b
      | Some (_, other) => value_as_bytes other
      | None => None
      end
  | _ => None
  end.
Definition query_value (r : result bytes Value) : result AntieError Value :=
  map_err (fun e => SerializationError ($"query_data: " ++ e)) r.
Definition key_le (x y : bytes * Value) : Prop := bytes_le x.1 y.1.
#[export] Instance key_le_dec : RelDecision key_le.
Proof. intros x y. unfold key_le. apply _. Defined.
Definition query_data_map (entries : list (bytes * Value)) : Value :=
  Map (map (fun kv => (Text kv.1, kv.2)) (merge_sort key_le entries)).
Definition wallet_query_projection (s : StoredWalletState) : result AntieError Value :=
  balance_ ← query_value (value_of_u64 (st_balance s));
  wallet_seq_ ← query_value (value_of_u64 (st_wallet_seq s));
  public_key_ ← query_value (value_of_bytes (st_public_key s));
  state_id_ ← query_value (value_of_bytes (st_state_id s));
  Ok (query_data_map [($"balance", balance_); ($"wallet_seq", wallet_seq_);
                      ($"public_key", public_key_); ($"state_id", state_id_)]).
Definition with_query_data (hints : list ValidatorHint) (d : option Value) (p : ResponsePayload) : ResponsePayload :=
  {| success := success p; resp_request_id := resp_request_id p; witness_signature := witness_signature p;
     resp_cheque_for_receiver := resp_cheque_for_receiver p; scar_consent_voucher := scar_consent_voucher p;
     produced_state_id := produced_state_id p; receipt := receipt p; commitment_hash := commitment_hash p;
     state_hash := state_hash p; receipt_commitment := receipt_commitment p; txid := txid p;
     state_id := state_id p; error := error p; rejection_code := rejection_code p;
     error_response := error_response p; validator_hints := hints; sender_fact_chain := sender_fact_chain p;
     receiver_fact_chain := receiver_fact_chain p; fact_signature := fact_signature p; query_data := d;
     sender_state := sender_state p; vbc_signature := vbc_signature p |}.
Definition handle_query (a : ambient) (e : AntieEmail) : G ResponsePayload :=
  wallet_pk ← lift (ok_or (Failed (InvalidPayload $"Query requires query_params.wallet_pk (byte array)"))
                      (query_params (fields (payload e)) ≫= query_wallet_pk));
  r ← track_lambda (ask_query (lambda_uuid a) wallet_pk);
  if found r then
    info ← lift (map_err Failed (match wallet_state r with
                                 | Some s => v ← wallet_query_projection s; Ok (Some v)
                                 | None => Ok None
                                 end));
    mret (with_query_data [] info (verdict true (request_id e) None None None))
  else mret (refusal (request_id e) $"Wallet not found" $"NOT_FOUND"
               (antie_rejection $"E_ANTIE_NOT_FOUND" ProtocolReject $"Wallet not found" (request_id e))).
Definition vsp_reply (rid : bytes) (vsp : ValidatorStatusResponse) : result AntieError ResponsePayload :=
  v ← query_value (value_of_vsp vsp);
  Ok (with_query_data (known_validators vsp) (Some v) (verdict true rid None None None)).
Definition handle_validator_status (e : AntieEmail) : G ResponsePayload :=
  vsp ← track_lambda (ask_status (request_id e));
  lift (map_err Failed (vsp_reply (request_id e) vsp)).

(** A success is silent; a failure carries its code and its structured twin. *)
Definition lambda_verdict (ok : bool) (rid : bytes) (err : option bytes) (code_ twin default : bytes) : ResponsePayload :=
  verdict ok rid err (if ok then None else Some code_)
    (if ok then None else antie_rejection twin ProtocolReject (unwrap_or default err) rid).
Definition with_state_id (i : option bytes) (p : ResponsePayload) : ResponsePayload :=
  {| success := success p; resp_request_id := resp_request_id p; witness_signature := witness_signature p;
     resp_cheque_for_receiver := resp_cheque_for_receiver p; scar_consent_voucher := scar_consent_voucher p;
     produced_state_id := produced_state_id p; receipt := receipt p; commitment_hash := commitment_hash p;
     state_hash := state_hash p; receipt_commitment := receipt_commitment p; txid := txid p;
     state_id := i; error := error p; rejection_code := rejection_code p;
     error_response := error_response p; validator_hints := validator_hints p;
     sender_fact_chain := sender_fact_chain p; receiver_fact_chain := receiver_fact_chain p;
     fact_signature := fact_signature p; query_data := query_data p; sender_state := sender_state p;
     vbc_signature := vbc_signature p |}.
Definition handle_genesis_dev (e : AntieEmail) : G ResponsePayload :=
  let f := fields (payload e) in
  public_key_ ← missing $"public_key" (public_key f);
  balance_ ← missing $"balance" (balance f);
  r ← track_lambda (ask_genesis (request_id e) public_key_ balance_ (group_members f) (auth_hash f));
  mret (with_state_id (ir_state_id r)
          (lambda_verdict (ir_success r) (request_id e) (ir_error r) $"GENESIS_FAILED"
             $"E_ANTIE_GENESIS_FAILED" $"genesis refused")).
Definition flat_error (er : ErrorResponse) : bytes := code_text er ++ $": " ++ message er.
Definition handle_redeem_request (e : AntieEmail) : G ResponsePayload :=
  req ← lift (map_err (fun t => Failed (InvalidPayload ($"RedeemRequestEnvelope CBOR decode failed: " ++ t
                                  ++ $" (body_len=" ++ body_len e ++ $")")))
                (decode_redeem_request (raw_ump_body (payload e))));
  let req := if decide (rq_request_id req = [])
             then {| rq_request_id := request_id e; rq_rest := rq_rest req |} else req in
  r ← track_lambda (ask_redeem req);
  mret {| success := rd_success r; resp_request_id := request_id e;
          witness_signature := rd_witness_signature r; resp_cheque_for_receiver := None;
          scar_consent_voucher := None; produced_state_id := Core.new_state_id r; receipt := None;
          commitment_hash := rd_commitment_hash r; state_hash := rd_state_hash r;
          receipt_commitment := rd_receipt_commitment r; txid := None; state_id := None;
          error := flat_error <$> rd_error_response r;
          rejection_code := if rd_success r then None else Some $"REDEEM_FAILED";
          error_response := rd_error_response r; validator_hints := []; sender_fact_chain := None;
          receiver_fact_chain := rd_receiver_fact_chain r; fact_signature := rd_fact_signature r;
          query_data := None; sender_state := None; vbc_signature := None |}.
Definition handle_ack_request (e : AntieEmail) : G ResponsePayload :=
  let f := fields (payload e) in
  txid_ ← missing $"txid" (Email.txid f);
  if negb (length txid_ =? 32)%nat then refuse (InvalidPayload $"txid must be 32 bytes")
  else
    validator_pk_ ← missing $"validator_pk" (validator_pk f);
    sender_sig_ ← missing $"sender_sig" (sender_sig f);
    client_pk_ ← missing $"client_pk" (client_pk f);
    r ← track_lambda (ask_ack {| ak_request_id := request_id e; ak_txid := txid_;
                                 ak_validator_pk := validator_pk_; ak_sender_sig := sender_sig_;
                                 ak_client_pk := client_pk_ |});
    mret (verdict (as_success r) (request_id e) (flat_error <$> as_error_response r)
            (if as_success r then None else Some $"ACK_FAILED")
            (if as_success r then None else as_error_response r)).
Definition handle_vbc_sign_request (e : AntieEmail) : G ResponsePayload :=
  let f := fields (payload e) in
  sphincs ← missing $"sphincs_pk_hex" (sphincs_pk_hex f);
  dilithium ← missing $"dilithium_pk_hex" (dilithium_pk_hex f);
  ed25519 ← missing $"ed25519_pk_hex" (ed25519_pk_hex f);
  r ← track_lambda (ask_vbc_sign {| vs_request_id := request_id e; vs_sphincs_pk_hex := sphincs;
        vs_dilithium_pk_hex := dilithium; vs_ed25519_pk_hex := ed25519;
        vs_pgp_fingerprint_hex := unwrap_or [] (pgp_fingerprint_hex f);
        vs_proof_cap := unwrap_or [] (proof_cap f); vs_node_name := unwrap_or [] (node_name_field f) |});
  mret (lambda_verdict (approved r) (request_id e) (reason r) $"VBC_SIGN_FAILED"
          $"E_ANTIE_VBC_SIGN_FAILED" $"certificate sign refused").
Definition handle_vbc_sign_commit (e : AntieEmail) : G ResponsePayload :=
  let f := fields (payload e) in
  sphincs ← missing $"sphincs_pk_hex" (sphincs_pk_hex f);
  dilithium ← missing $"dilithium_pk_hex" (dilithium_pk_hex f);
  ed25519 ← missing $"ed25519_pk_hex" (ed25519_pk_hex f);
  issued_at_ ← missing $"issued_at" (issued_at f);
  expires_at_ ← missing $"expires_at" (expires_at f);
  chain_depth_ ← missing $"chain_depth" (chain_depth f);
  if negb (length (issuer_set_hex f) =? 3)%nat then
    refuse (InvalidPayload ($"issuer_set_hex must have 3 entries, got "
                            ++ show_N (N.of_nat (length (issuer_set_hex f)))))
  else
    r ← track_lambda (ask_vbc_commit {| vc_request_id := request_id e; vc_sphincs_pk_hex := sphincs;
          vc_dilithium_pk_hex := dilithium; vc_ed25519_pk_hex := ed25519;
          vc_pgp_fingerprint_hex := unwrap_or [] (pgp_fingerprint_hex f);
          vc_proof_cap := unwrap_or [] (proof_cap f); vc_node_name := unwrap_or [] (node_name_field f);
          vc_issued_at := issued_at_; vc_expires_at := expires_at_; vc_chain_depth := chain_depth_;
          vc_issuer_set_hex := issuer_set_hex f; vc_previous_vbc := None |});
    mret (lambda_verdict (cr_success r) (request_id e) (cr_error r) $"VBC_SIGN_COMMIT_FAILED"
            $"E_ANTIE_VBC_SIGN_COMMIT_FAILED" $"certificate commit refused").
Definition handle_set_auth_hash (e : AntieEmail) : G ResponsePayload :=
  let f := fields (payload e) in
  public_key_ ← missing $"public_key" (public_key f);
  auth_hash_ ← missing $"auth_hash" (auth_hash f);
  if negb (length auth_hash_ =? 32)%nat then
    refuse (InvalidPayload ($"auth_hash must be 32 bytes, got " ++ show_N (N.of_nat (length auth_hash_))))
  else
    r ← track_lambda (ask_auth_hash (request_id e) public_key_ auth_hash_);
    mret (lambda_verdict (sr_success r) (request_id e) (sr_error r) $"SET_AUTH_HASH_FAILED"
            $"E_ANTIE_SET_AUTH_HASH_FAILED" $"set_auth_hash refused").

(** Peer audits: the answer goes by mail; a mail that cannot be built fails the
    handler, one that cannot be sent does not. *)
Definition answer_audit (g : Gateway_) (a : ambient) (to_ : option bytes) (mail : bytes -> result AntieError bytes)
    : G unit :=
  match to_ with
  | None => mret tt
  | Some addr => m ← lift (map_err Failed (mail addr)); _ ← mail_out g a addr m; mret tt
  end.
Definition handle_peer_audit_request (g : Gateway_) (a : ambient) (e : AntieEmail) : G ResponsePayload :=
  request ← missing $"peer_audit_request" (peer_audit_request (fields (payload e)));
  r ← track_lambda (ask_audit (lambda_uuid a) request);
  let reply_to := Admission.peer_audit_reply_address (requester_email r) (from e) in
  _ ← when_some (pr_response r) (fun x => answer_audit g a reply_to (fun addr =>
        build_peer_audit_response_email (stamp_of a 0%nat) (identity_email g) addr (peer_audit_response_cbor x)));
  _ ← when_some (not_held r) (fun x => answer_audit g a reply_to (fun addr =>
        build_peer_audit_not_held_email (stamp_of a 1%nat) (identity_email g) addr (not_held_cbor x)));
  mret (verdict (pr_success r) (request_id e) (pr_error r) None None).
Definition handle_peer_audit_response (a : ambient) (e : AntieEmail) : G ResponsePayload :=
  let f := fields (payload e) in
  _ ← match peer_audit_not_held f with
      | Some n => recover (track_lambda (tell_not_held (lambda_uuid a) n))
      | None =>
          x ← missing $"peer_audit_response" (peer_audit_response f);
          recover (track_lambda (tell_audit_response (lambda_uuid a) x))
      end;
  mret (verdict true (request_id e) None None None).

Definition gateway_handlers (g : Gateway_) : Gateway.Handlers (W := W) (N := N) (Lm := Lm) := {|
  Gateway.handle_witness_request := handle_witness_request g;
  Gateway.handle_redeem_request := fun _ => handle_redeem_request;
  Gateway.handle_ack_request := fun _ => handle_ack_request;
  Gateway.handle_query := handle_query;
  Gateway.handle_validator_status := fun _ => handle_validator_status;
  Gateway.handle_genesis_dev := fun _ => handle_genesis_dev;
  Gateway.handle_vbc_sign_request := fun _ => handle_vbc_sign_request;
  Gateway.handle_vbc_sign_commit := fun _ => handle_vbc_sign_commit;
  Gateway.handle_set_auth_hash := fun _ => handle_set_auth_hash;
  Gateway.handle_peer_audit_request := handle_peer_audit_request g;
  Gateway.handle_peer_audit_response := handle_peer_audit_response |}.
End handlers.
End Handlers.
