(* ===== verification/GatewayTheorems.v ===== *)
(** * The theorems on the gateway: the limiter, the routing of session replies,
    the accounting of the inbox, the busy gate *)
From S2P Require Import Prelude Utf8 Fs Errors CoreTypes Config CareOf Sinks SinkTheorems Carriers Stats Lambda Pgp Email EmailTheorems LambdaTheorems Gateway.
Import Errors Email Core.

(** ** The per-wallet limiter *)
Module Limits.
Import Admission.

(** Requests of the limiter: the wallet, the clock at the check, the clock at
    the eviction. *)
Abbreviation request := (bytes * Z * Z)%type.
Fixpoint verdicts (l : WalletRateLimiter) (es : list request) : list bool :=
  match es with
  | [] => []
  | (w, now, now') :: es' => let '(b, l') := limit w now now' l in b :: verdicts l' es'
  end.
(** The clock does not run backwards. *)
Fixpoint ticking (clk : Z) (es : list request) : Prop :=
  match es with
  | [] => True
  | (_, now, now') :: es' => clk <= now <= now' /\ ticking now' es'
  end.

(** What the map still knows of the accepted requests [h] at time [clk]: the
    latest of every wallet, unless it is a cooldown old. *)
Record remembers (cd : Z) (h : list (bytes * Z)) (clk : Z) (l : WalletRateLimiter) : Prop := {
  same_cooldown : cooldown l = cd;
  past : forall w t, (w, t) ∈ h -> t <= clk;
  latest : forall w t, last_request l !! w = Some t ->
    (w, t) ∈ h /\ forall t', (w, t') ∈ h -> t' <= t;
  forgotten : forall w t, last_request l !! w = None -> (w, t) ∈ h -> t + cd <= clk;
}.
Lemma remembers_later cd h clk clk' l : clk <= clk' -> remembers cd h clk l -> remembers cd h clk' l.
Proof.
  intros Hc [? Hp ? Hf]. split; [done| |done|].
  - intros w t H. specialize (Hp w t H). lia.
  - intros w t H1 H2. specialize (Hf w t H1 H2). lia.
Qed.
Lemma evict_remembers cd h clk l : 0 <= cd -> remembers cd h clk l -> remembers cd h clk (evict_stale clk l).
Proof.
  intros Hcd [Hc Hp Hl Hf]. split; [done|done| |].
  - cbn [evict_stale last_request]. intros w t [Hw _]%map_lookup_filter_Some. auto.
  - cbn [evict_stale last_request]. intros w t Hw Ht.
    apply map_lookup_filter_None in Hw as [Hw|Hw]; [by eapply Hf|].
    destruct (last_request l !! w) as [t0|] eqn:E; [|by eapply Hf].
    specialize (Hw t0 eq_refl). cbn in Hw. apply Hl in E as [_ E]. apply E in Ht. subst cd. lia.
Qed.
Lemma limit_remembers cd h clk l w now now' :
  0 <= cd -> clk <= now <= now' -> remembers cd h clk l ->
  let '(b, l') := limit w now now' l in
  remembers cd (if b then (w, now) :: h else h) now' l' /\
  (b = false <-> exists t, (w, t) ∈ h /\ now - t < cd).
Proof.
  intros Hcd Hclk R. pose proof (remembers_later _ _ _ now _ (proj1 Hclk) R) as R1.
  assert (forall l', l' = {| last_request := <[w := now]> (last_request l); cooldown := cooldown l |} ->
            remembers cd ((w, now) :: h) now' l') as Hin.
  { intros l' ->. destruct R1 as [Hc Hp Hl Hf]. split; [done| | |]; cbn [last_request].
    - intros w0 t [[= -> ->]|H]%elem_of_cons; [lia|]. apply Hp in H. lia.
    - intros w0 t. destruct (decide (w0 = w)) as [->|N].
      + rewrite lookup_insert_eq. intros [= <-]. split; [set_solver|].
        intros t' [[= ->]|H]%elem_of_cons; [lia|by eapply Hp].
      + rewrite lookup_insert_ne by done. intros [H1 H2]%Hl. split; [set_solver|].
        intros t' [[= -> _]|H]%elem_of_cons; [done|auto].
    - intros w0 t. destruct (decide (w0 = w)) as [->|N]; [by rewrite lookup_insert_eq|].
      rewrite lookup_insert_ne by done. intros H [[= -> _]|H']%elem_of_cons; [done|].
      specialize (Hf _ _ H H'). lia. }
  assert (forall l', l' = {| last_request := <[w := now]> (last_request l); cooldown := cooldown l |} ->
            remembers cd ((w, now) :: h) now'
              (if (100 <? size (last_request l'))%nat then evict_stale now' l' else l')) as Hin'.
  { intros l' E. case_match; [apply evict_remembers|]; auto. }
  unfold limit, check_and_record. destruct R1 as [Hc Hp Hl Hf]. unfold sat_sub.
  destruct (last_request l !! w) as [t0|] eqn:E.
  - destruct (Hl _ _ E) as [H0 Hmax]. pose proof (Hp _ _ H0).
    destruct (Z.ltb_spec (Z.max 0 (now - t0)) (cooldown l)); cbn [negb].
    + split; [by eapply remembers_later; [|done]; lia|]. split; [|done]. intros _. exists t0. split; [done|lia].
    + split; [by apply Hin'|]. split; [discriminate|]. intros (t & Ht & ?). apply Hmax in Ht. lia.
  - cbn [negb]. split; [by apply Hin'|]. split; [discriminate|]. intros (t & Ht & ?).
    specialize (Hf _ _ E Ht). lia.
Qed.
Lemma verdicts_exact cd es h clk l :
  0 <= cd -> ticking clk es -> remembers cd h clk l ->
  forall k w now now', es !! k = Some (w, now, now') ->
  (verdicts l es !! k = Some false <->
   (exists t, (w, t) ∈ h /\ now - t < cd) \/
   (exists i t t', (i < k)%nat /\ es !! i = Some (w, t, t') /\ verdicts l es !! i = Some true /\ now - t < cd)).
Proof.
  intros Hcd. revert h clk l. induction es as [|[[w0 n0] n0'] es IH]; intros h clk l Ht R k w now now' Hk; [done|].
  destruct Ht as [Hclk Ht]. pose proof (limit_remembers cd h clk l w0 n0 n0' Hcd Hclk R) as Hs.
  cbn [verdicts]. destruct (limit w0 n0 n0' l) as [b l'] eqn:L. destruct Hs as [R' Hb].
  destruct k as [|k].
  - cbn in *. injection Hk as -> -> ->. rewrite <- Hb. split.
    + intros [= ->]. by left.
    + intros [->|(i & ? & ? & ? & _)]; [done|lia].
  - cbn [lookup list_lookup] in *. rewrite (IH _ _ _ Ht R' k w now now' Hk). split.
    + intros [(t & H & Hd)|(i & t & t' & Hi & H)].
      * destruct b; [|by left; eauto]. apply elem_of_cons in H as [[= -> ->]|H]; [|by left; eauto].
        right. exists 0%nat, n0, n0'. split; [lia|done].
      * right. exists (S i), t, t'. split; [lia|done].
    + intros [(t & H & Hd)|([|i] & t & t' & Hi & H1 & H2 & Hd)].
      * left. exists t. split; [|done]. destruct b; set_solver.
      * cbn in H1, H2. injection H1 as -> -> ->. injection H2 as ->. left. exists t. split; [set_solver|done].
      * right. exists i, t, t'. split; [lia|done].
Qed.

(** C32: the limiter is exact, evictions included.  On any run of a monotonic
    clock, a request of a wallet is refused exactly when an earlier request of
    the same wallet was accepted less than one cooldown before; so accepted
    requests of one wallet are at least a cooldown apart, no other wallet's
    traffic matters, and dropping entries twice a cooldown old never readmits
    anybody early. *)
Theorem wallet_limiter_exact cooldown_ms start es k w now now' :
  0 <= cooldown_ms -> ticking start es -> es !! k = Some (w, now, now') ->
  (verdicts (limiter_new cooldown_ms) es !! k = Some false <->
   exists i t t', (i < k)%nat /\ es !! i = Some (w, t, t') /\
     verdicts (limiter_new cooldown_ms) es !! i = Some true /\ now - t < cooldown_ms * 1000000).
Proof.
  intros Hcd Ht Hk. rewrite (verdicts_exact (cooldown_ms * 1000000) es [] start); [|lia|done| |done].
  - split; [intros [(t & H & _)|H]; [set_solver|done]|by right].
  - split; [done|set_solver| |set_solver]. intros ? ?. cbn. by rewrite lookup_empty.
Qed.
Lemma wallet_limiter_exact_witness :
  let es := [($"a", 5, 5); ($"b", 6, 6); ($"a", 1000004, 1000004); ($"a", 1000005, 1000006)] in
  verdicts (limiter_new 1) es = [true; true; false; true] /\
  exists i t t', (i < 2)%nat /\ es !! i = Some ($"a", t, t') /\
    verdicts (limiter_new 1) es !! i = Some true /\ 1000004 - t < 1000000.
Proof.
  intros es. assert (verdicts (limiter_new 1) es = [true; true; false; true]) as E by (vm_compute; reflexivity).
  split; [done|].
  apply (proj1 (wallet_limiter_exact 1 0 es 2 $"a" 1000004 1000004 ltac:(lia) ltac:(cbn; lia) eq_refl)).
  by rewrite E.
Defined.
End Limits.

(** ** Replies to held sessions *)
Module Sessions.
Import Gateway.

Lemma find_map_in {A B : Type} (f : A -> option B) l y : find_map f l = Some y -> exists x, x ∈ l /\ f x = Some y.
Proof.
  induction l as [|x l IH]; cbn [find_map]; [done|].
  destruct (f x) as [z|] eqn:E; [|intros H; destruct (IH H) as (x' & ? & ?); exists x'; set_solver].
  intros [= ->]. exists x. split; [set_solver|done].
Qed.
Definition is_hex_lower (b : byte) : bool :=
  is_digit b || ((97 <=? code b) && (code b <=? 102))%N.
Lemma lower_hex b : is_hexdigit b = true -> is_hex_lower (ascii_lower b) = true.
Proof. destruct b as [[] [] [] [] [] [] [] []]; vm_compute; (done || by intros). Qed.
Lemma hex_plain id : (1 <= length id)%nat -> forallb is_hex_lower id = true -> plain_name id = true.
Proof.
  intros Hl Hh. assert (forall c, c ∈ id -> is_hex_lower c = true) as H.
  { intros c Hc. rewrite forallb_forall in Hh. apply Hh. by apply list_elem_of_In. }
  apply bool_decide_eq_true. repeat split.
  - intros Hc. by specialize (H _ Hc).
  - by destruct id; [simpl in Hl; lia|].
  - intros ->. by specialize (H "."%char ltac:(set_solver)).
  - intros ->. by specialize (H "."%char ltac:(set_solver)).
Qed.

Section sessions.
Context `{EC : ErrorsCrate} `{CV : CoreValues} `{CF : !CoreFns} `{EK : !EmailCrates}.
Context {W : Type} `{HD : HasDisk W} `{LD : !LawfulDisk W} {N Lm : Type}.
Abbreviation Gw_ := (Gateway (W := W)).
Abbreviation gw_ := (gw W N Lm).

(** A session id that comes out of a mail is a lower-case SHA-256 in hexadecimal. *)
Lemma custody_of_safe m hdr id :
  custody_of m = Some (hdr, id) ->
  hdr = $"X-TOT-Session" /\ length id = 64%nat /\ forallb is_hex_lower id = true.
Proof.
  intros (n & ->%list_elem_of_singleton & E)%find_map_in. unfold custody_named in E.
  destruct (mime_header m _) as [raw|]; [|done].
  destruct ((length (trim raw) =? 64)%nat) eqn:L, (forallb is_hexdigit (trim raw)) eqn:F; simplify_eq/=.
  split; [done|]. unfold to_ascii_lowercase. rewrite length_map. split; [by apply Nat.eqb_eq|].
  rewrite forallb_forall in F. apply forallb_forall. intros x (y & <- & Hy)%in_map_iff. by apply lower_hex, F.
Qed.
Lemma parsed_custody raw d e hdr id :
  parse_email_outcome raw d = Ok (Parsed e) -> custody e = Some (hdr, id) ->
  hdr = $"X-TOT-Session" /\ length id = 64%nat /\ forallb is_hex_lower id = true.
Proof.
  unfold parse_email_outcome, mbind, result_bind. intros H Hc.
  destruct (parse_mime raw) as [m|]; [|done]. cbn [ok_or] in H.
  destruct (parse_subject _) as [[t r]|]; [|done]. destruct (extract_body m); [|done].
  destruct (decode_payload_with_context _ _ _) as [p|[|]]; try done.
  injection H as <-. by eapply custody_of_safe.
Qed.

Lemma on_disk_run {A : Type} (m : io A) (w : gw_) :
  on_disk m w = ((m (disk_of (outer w))).1,
                 with_outer (set_disk (m (disk_of (outer w))).2 (outer w)) w).
Proof. unfold on_disk, zoom. by destruct (m _). Qed.

(** The copy of a reply for the UNCLE service, where one is configured and the
    request carries its correlation id. *)
Definition copied (g : Gw_) (a : ambient) (e : AntieEmail) (mail : bytes) (d : world) : world :=
  match uncle_sink g, uncle_correlate e with
  | Some sink, Some correlate => (UncleSink.tee sink (proc a) (nanos a) correlate mail d).2
  | _, _ => d
  end.
Definition is_copy (g : Gw_) (a : ambient) (e : AntieEmail) (q : path) : Prop :=
  exists sink correlate, uncle_sink g = Some sink /\ uncle_correlate e = Some correlate /\
    (q = UncleSink.tee_tmp sink (proc a) (nanos a) \/ q = UncleSink.tee_dest sink correlate).
Lemma copied_only_files g a e mail d : SinkTheorems.only_files (is_copy g a e) d (copied g a e mail d).
Proof.
  unfold copied. destruct (uncle_sink g) as [s|] eqn:S; [|apply SinkTheorems.only_files_refl].
  destruct (uncle_correlate e) as [c|] eqn:C; [|apply SinkTheorems.only_files_refl].
  eapply SinkTheorems.only_files_more, SinkTheorems.tee_only_files. intros q H. by exists s, c.
Qed.
Definition with_disk (d : world) (w : gw_) : gw_ := with_outer (set_disk d (outer w)) w.
Definition reply_mail (g : Gw_) (a : ambient) (e : AntieEmail) (p : ResponsePayload) : result AntieError bytes :=
  build_response (mail_of a) (from e) (identity_email g)
    (if success p then $"witness_response" else $"error") (resp_request_id p) (message_id e) (response_cbor p).

(** Only the disk is written, in any number of steps. *)
Definition writes : gw_ -> gw_ -> Prop := rtc (fun w w' => exists d, w' = with_disk d w).
Definition after_copy (g : Gw_) (a : ambient) (e : AntieEmail) (mail : bytes) (w : gw_) : gw_ :=
  match uncle_sink g, uncle_correlate e with
  | Some _, Some _ => with_disk (copied g a e mail (disk_of (outer w))) w
  | _, _ => w
  end.
Lemma after_copy_disk g a e mail w : disk_of (outer (after_copy g a e mail w)) = copied g a e mail (disk_of (outer w)).
Proof. unfold after_copy, copied, with_disk. destruct (uncle_sink g), (uncle_correlate e); cbn [outer with_outer]; by rewrite ?disk_set. Qed.
Lemma after_copy_writes g a e mail w : writes w (after_copy g a e mail w).
Proof. unfold after_copy. destruct (uncle_sink g), (uncle_correlate e); try reflexivity. apply rtc_once. by eexists. Qed.

(** A stamped reply in full: built, copied, cross-checked, deposited; then mailed
    unless the row suppresses that. *)
Lemma stamped_reply_run (g : Gw_) a e p row id (w : gw_) :
  custody e = Some ($"X-TOT-Session", id) -> custody_row (custody_table g) $"X-TOT-Session" = Some row ->
  send_response g a e p w =
  match reply_mail g a e p with
  | Err er => (Err (Failed er), w)
  | Ok mail =>
      let w0 := after_copy g a e mail w in
      if is_dev_wallet (from e) then
        (Err (Failed (InvalidPayload ($"custody: " ++ $"X-TOT-Session" ++ $" is the normal-wallet stamp; sender "
                              ++ from e ++ $" is a dev wallet — stamp and address disagree"))), w0)
      else
        let d := Custody.deposit (custody_dir row id) (resp_request_id p ++ $".cbor") mail (disk_of (outer w0)) in
        let w1 := with_disk d.2 w0 in
        if Config.suppress_email row then
          (match d.1 with
           | Ok _ => Ok tt
           | Err er => Err (Failed (MaildirError ($"custody deposit failed for " ++ $"X-TOT-Session" ++ $": " ++ io_msg er)))
           end, w1)
        else mail_reply g a (from e) mail w1
  end.
Proof.
  intros Hc Hr. unfold send_response, lift, reply_mail. unfold mbind at 1, M_bind at 1.
  destruct (build_response _ _ _ _ _ _ _) as [mail|er]; [|done]. rewrite Hc. cbn [map_err]. cbv zeta.
  assert (forall k : M gw_ fault unit, (_ ← match uncle_sink g, uncle_correlate e with
      | Some sink, Some correlate => _ ← attempt (E := io_error) (on_disk (UncleSink.tee sink (proc a) (nanos a) correlate mail)); mret tt
      | _, _ => mret tt end; k) w = k (after_copy g a e mail w)) as ->.
  { intros k. unfold after_copy, copied. destruct (uncle_sink g) as [s|]; [|done]. destruct (uncle_correlate e) as [x|]; [|done].
    unfold mbind, M_bind, attempt. rewrite on_disk_run. cbn [fst snd]. done. }
  set (w0 := after_copy g a e mail w).
  change (eq_ignore_ascii_case $"X-TOT-Session" $"X-TOT-Session") with true. cbn [andb].
  destruct (is_dev_wallet (from e)); [done|]. rewrite Hr.
  unfold custody_reply, attempt, mbind, M_bind. rewrite on_disk_run. unfold with_disk.
  destruct (Custody.deposit _ _ _ _) as [[q|er] wd]; cbn [fst snd]; by destruct (Config.suppress_email row).
Qed.
(** Where nothing is copied and nothing is mailed. *)
Lemma stamped_reply (g : Gw_) a e p row id (w : gw_) :
  custody e = Some ($"X-TOT-Session", id) -> uncle_correlate e = None ->
  custody_row (custody_table g) $"X-TOT-Session" = Some row -> Config.suppress_email row = true ->
  is_dev_wallet (from e) = false ->
  send_response g a e p w =
  match reply_mail g a e p with
  | Err er => (Err (Failed er), w)
  | Ok mail =>
      let '(rd, wd) := Custody.deposit (custody_dir row id) (resp_request_id p ++ $".cbor") mail (disk_of (outer w)) in
      (match rd with
       | Ok _ => Ok tt
       | Err er => Err (Failed (MaildirError ($"custody deposit failed for " ++ $"X-TOT-Session" ++ $": " ++ io_msg er)))
       end, with_disk wd w)
  end.
Proof.
  intros Hc Hu Hr Hs Hw. rewrite (stamped_reply_run g a e p row id w Hc Hr). destruct (reply_mail g a e p) as [mail|]; [|done].
  cbv zeta. rewrite Hw, Hs. unfold after_copy. rewrite Hu. replace (match uncle_sink g with Some _ | _ => w end) with w by (by destruct (uncle_sink g)).
  by destruct (Custody.deposit _ _ _ _) as [[q|er] wd].
Qed.

(** C9: a reply to a held session goes to that session and nowhere else, unless
    its row says it is mailed as well.  For any mail that parses with a session
    stamp, any row that serves the stamp, whatever the reply's request id and
    whatever fails: at no moment is a file written outside <outbox>/<session id>,
    the UNCLE service's copy apart (made only where the service is configured and
    the request carries its id).  A reply that cannot be built, and a stamped dev
    wallet, are refused with nothing deposited.  Otherwise the complete reply is
    deposited in the session under <request id>.cbor; a row that suppresses mail
    never uses the sender or anything else but the disk, and succeeds exactly when
    the deposit did; and a row that does not suppress it (the default) mails the
    reply to the sender's address besides, whatever came of the deposit. *)
Theorem session_reply_confined (g : Gw_) a raw d e p row id (w : gw_) :
  parse_email_outcome raw d = Ok (Parsed e) ->
  custody e = Some ($"X-TOT-Session", id) -> custody_row (custody_table g) $"X-TOT-Session" = Some row ->
  let dir := Config.custody_outbox row ++ [id] in
  let name := resp_request_id p ++ $".cbor" in
  let out := send_response g a e p w in
  let disk := fun w : gw_ => disk_of (outer w) in
  match reply_mail g a e p with
  | Err er => out = (Err (Failed er), w)
  | Ok mail =>
      exists w0, writes w w0 /\ SinkTheorems.only_files (is_copy g a e) (disk w) (disk w0) /\
      (uncle_sink g = None \/ uncle_correlate e = None -> w0 = w) /\
      if is_dev_wallet (from e) then exists er, out = (Err (Failed er), w0)
      else exists w1, writes w0 w1 /\ SinkTheorems.only_files (prefix dir) (disk w0) (disk w1) /\
        let deposited := (Custody.deposit dir name mail (disk w0)).1 in
        disk w1 = (Custody.deposit dir name mail (disk w0)).2 /\
        (forall q, deposited = Ok q -> fs (disk w1) !! (dir ++ [name]) = Some (File mail)) /\
        if Config.suppress_email row then out.2 = w1 /\ (out.1 = Ok tt <-> is_ok deposited = true)
        else out = mail_reply g a (from e) mail w1
  end.
Proof.
  intros Hp Hc Hr dir name out disk. destruct (parsed_custody _ _ _ _ _ Hp Hc) as (_ & Hl & Hh).
  assert (custody_dir row id = dir) as Hdir by (unfold custody_dir; apply join_plain, hex_plain; [lia|done]).
  unfold out. rewrite (stamped_reply_run g a e p row id w Hc Hr), Hdir.
  destruct (reply_mail g a e p) as [mail|er]; [|done]. cbv zeta. fold name.
  exists (after_copy g a e mail w). split; [apply after_copy_writes|].
  split; [unfold disk; rewrite after_copy_disk; apply copied_only_files|].
  split; [unfold after_copy; destruct (uncle_sink g), (uncle_correlate e); by intros [?|?]|].
  destruct (is_dev_wallet (from e)); [by eexists|]. set (w0 := after_copy g a e mail w).
  assert (name <> $".") as Hdot.
  { intros E. apply (f_equal (@length _)) in E. unfold name in E. rewrite length_app in E. simpl in E. lia. }
  destruct (SinkTheorems.deposit_deposits dir name mail (disk w0) Hdot) as (_ & _ & Hd).
  pose proof (SinkTheorems.deposit_only_files dir name mail (disk w0) Hdot) as Ht.
  fold (disk w0). set (r := Custody.deposit dir name mail (disk w0)) in *.
  assert (disk (with_disk r.2 w0) = r.2) as E by (unfold disk, with_disk; cbn [outer with_outer]; apply disk_set).
  exists (with_disk r.2 w0). rewrite E. split; [apply rtc_once; by eexists|]. split; [done|]. split; [done|].
  split; [intros q Hq; destruct (Hd q Hq) as [-> ?]; done|].
  destruct (Config.suppress_email row); [|done]. split; [done|]. cbn [fst]. destruct (r.1); cbn [is_ok]; by split.
Qed.
End sessions.

(** *** A concrete gateway *)
Definition ex_id : bytes := concat (replicate 16 $"0aF9").
Definition ex_session : EmailCrates (CV := ex_values) := Building.crates_with
  (fun n => if decide (n = $"X-TOT-Session") then Some ex_id else None).
Definition broken {W : Type} `{ErrorsCrate} : MailCarrier W := {|
  carrier_name := $"broken"; check_new := throw (ConfigError []); mark_processed := fun _ => throw (ConfigError []);
  mark_failed := fun _ _ => throw (ConfigError []); send := fun _ _ => throw (ConfigError []) |}.
Definition ex_row : Config.CustodyRoute := {|
  Config.header := $"x-tot-session"; Config.custody_outbox := [$"out"]; Config.suppress_email := true |}.
Definition ex_gateway {W : Type} (busy : Z) (c : MailCarrier (EC := ex_errors) W) : Gateway (EC := ex_errors) (W := W) := {|
  identity_email := $"v@axiom"; busy_threshold_ms := busy; custody_table := [ex_row];
  maildir_inbox := None; nabla_ban_list_path := None; pickup_dir := None; vbc_path := None;
  sig_prefilter := false; lambda_admin_url := None; skip_list := None; uncle_sink := None;
  envelope_decryptor := Some {| ed25519_pk := []; x25519_sk := [] |}; sender := fun _ => c |}.
Definition ex_stamp : mail_stamp :=
  {| mail_uuid := $"u1"; subject_uuid := $"u2"; mail_time := 7; mail_date := $"now" |}.
Definition ex_ambient : ambient := {|
  mail_of := ex_stamp; stamp_of := fun _ => ex_stamp; proc := 1; nanos := 2; wall := 3; mono := 4;
  limiter_now := 5; limiter_evict := 6; key_now := fun _ => (7, 8); lambda_uuid := $"u3" |}.
Definition ex_world {W N Lm : Type} (w : W) (n : N) (l : Lm) (s : Stats.AntieStats) : gw W N Lm :=
  Gw w s (Admission.limiter_new 2000) (Pgp.Ring ∅ n) l.
Definition ex_disk : world :=
  {| fs := {[ [$"out"] := Dir ]}; oracle := []; hist := []; listing := fun l => l |}.

Definition ex_email : AntieEmail (CV := ex_values) :=
  Build_AntieEmail (CV := ex_values) $"w@axiom" [] $"witness" $"r1" None
    (Build_AntiePayload (CV := ex_values) $"DATA" (no_fields (CV := ex_values))) $"PDATA" None
    (Some ($"X-TOT-Session", to_ascii_lowercase ex_id)).
Definition ex_reply : ResponsePayload (EC := ex_errors) (CV := ex_values) :=
  verdict (EC := ex_errors) (CV := ex_values) true $"r1" None None None.

(** A row of the same header that mails as well: the default. *)
Definition ex_row_mailing : Config.CustodyRoute := {|
  Config.header := $"x-tot-session"; Config.custody_outbox := [$"out"]; Config.suppress_email := false |}.
Definition ex_gateway_mailing : Gateway (EC := ex_errors) (W := world) := {|
  identity_email := $"v@axiom"; busy_threshold_ms := 0;
  custody_table := [ex_row_mailing];
  maildir_inbox := None; nabla_ban_list_path := None; pickup_dir := None; vbc_path := None;
  sig_prefilter := false; lambda_admin_url := None; skip_list := None; uncle_sink := None;
  envelope_decryptor := Some {| ed25519_pk := []; x25519_sk := [] |}; sender := fun _ => broken |}.
Definition ex_start : gw world unit unit := ex_world ex_disk tt tt (Stats.stats_new 0).
Definition ex_send (g : Gateway (EC := ex_errors) (W := world)) : result fault unit * gw world unit unit :=
  send_response (EC := ex_errors) (CF := Exchange.ex_core) (EK := ex_session) g ex_ambient ex_email ex_reply ex_start.
Definition ex_built (g : Gateway (EC := ex_errors) (W := world)) : result (AntieError (EC := ex_errors)) bytes :=
  reply_mail (EC := ex_errors) (CF := Exchange.ex_core) (EK := ex_session) g ex_ambient ex_email ex_reply.
Definition ex_sent : bytes := match ex_built (ex_gateway 0 broken) with Ok m => m | Err _ => [] end.
Definition ex_file : path := [$"out"; to_ascii_lowercase ex_id; $"r1.cbor"].
Definition ex_deposited : result io_error path :=
  (Custody.deposit [$"out"; to_ascii_lowercase ex_id] $"r1.cbor" ex_sent ex_disk).1.
Lemma ex_deposit_ok : ex_deposited = Ok ex_file.
Proof. vm_compute. reflexivity. Qed.
Lemma session_reply_confined_witness :
  (ex_send (ex_gateway 0 broken)).1 = Ok tt /\
  fs (outer (ex_send (ex_gateway 0 broken)).2) !! ex_file = Some (File ex_sent) /\
  exists w1, fs (outer w1) !! ex_file = Some (File ex_sent) /\
    ex_send ex_gateway_mailing = mail_reply ex_gateway_mailing ex_ambient $"w@axiom" ex_sent w1.
Proof.
  assert (is_dev_wallet (CoreFns := Exchange.ex_core) (from ex_email) = false) as D by (vm_compute; reflexivity). split; [|split].
  - vm_compute. reflexivity.
  - pose proof (session_reply_confined (EC := ex_errors) (CF := Exchange.ex_core) (EK := ex_session)
      (ex_gateway 0 broken) ex_ambient $"PDATA" None ex_email ex_reply ex_row
      (to_ascii_lowercase ex_id) ex_start
      ltac:(vm_compute; reflexivity) ltac:(vm_compute; reflexivity) ltac:(vm_compute; reflexivity)) as H.
    assert (ex_built (ex_gateway 0 broken) = Ok ex_sent) as B by (vm_compute; reflexivity). unfold ex_built in B.
    rewrite B, D in H. destruct H as (w0 & _ & _ & Hw & w1 & _ & _ & _ & Hd & Ew & _).
    specialize (Hw ltac:(by left)). subst w0. unfold ex_send. rewrite Ew. exact (Hd _ ex_deposit_ok).
  - pose proof (session_reply_confined (EC := ex_errors) (CF := Exchange.ex_core) (EK := ex_session)
      ex_gateway_mailing ex_ambient $"PDATA" None ex_email ex_reply ex_row_mailing
      (to_ascii_lowercase ex_id) ex_start
      ltac:(vm_compute; reflexivity) ltac:(vm_compute; reflexivity) ltac:(vm_compute; reflexivity)) as H.
    assert (ex_built ex_gateway_mailing = Ok ex_sent) as B by (vm_compute; reflexivity). unfold ex_built in B.
    rewrite B, D in H. destruct H as (w0 & _ & _ & Hw & w1 & _ & _ & _ & Hd & E1).
    specialize (Hw ltac:(by left)). subst w0. exists w1. split; [exact (Hd _ ex_deposit_ok)|exact E1].
Defined.
End Sessions.
