(* ===== verification/Effects.v ===== *)
(** * What handling a message can do to the gateway's world

    The handlers change the world through few operations: the counters, limiter,
    key cache and Lambda client, the sender, and the disk operations of [disk_op].
    A relation that all of them respect ([Harmless]) is respected by the handling
    of every message ([keep_process]): what a message leaves alone is proved once,
    here, for every such relation. *)
From S2P Require Import Prelude Utf8 Fs Errors CoreTypes Config CareOf Sinks Carriers Stats Lambda Pgp CoreIpc Email Gateway Handlers GatewayTheorems.
Import Errors Email Core Gateway Handlers.

Module Effects.
#[export] Existing Instance Stats.counter_eq_dec.

(** ** What the gateway asks of its disk *)
Definition session_id (id : bytes) : Prop := length id = 64%nat /\ forallb Sessions.is_hex_lower id = true.
Definition vbc_root (inbox : path) : path :=
  if (length inbox <=? 1)%nat then inbox else removelast (removelast inbox).
Definition file_certificate (dest_dir : path) (name mail : bytes) : io unit :=
  _ ← create_dir_all dest_dir; fs_write (join dest_dir name) mail.
Section effects.
Context `{EC : ErrorsCrate} `{CV : CoreValues} `{CF : !CoreFns} `{EK : !EmailCrates}.
Context {W : Type} `{HD : HasDisk W} {N Lm : Type} `{OP : OpenPgp} `{HT : Http N} `{LO : !LambdaOps Lm}.
Abbreviation gw_ := (gw W N Lm).
Abbreviation Gw_ := (Gateway (W := W)).

Inductive disk_op (g : Gw_) : forall {E A : Type}, M world E A -> Prop :=
  | Reads_dir p : disk_op g (read_dir p)
  | Reads_vbc {E} p : disk_op g (load_vbc (E := E) p)
  | Reads_bans {E} p ks s : disk_op g (Admission.nabla_ban_file_lists (E := E) p ks s)
  | Tees sink pid nanos txid b : uncle_sink g = Some sink -> disk_op g (UncleSink.tee sink pid nanos txid b)
  | Deposits_reply row id n b : row ∈ custody_table g -> session_id id ->
      disk_op g (Custody.deposit (custody_dir row id) n b)
  | Deposits_cheque base d txid suffix b : pickup_dir g = Some base -> CareOf.domain_is_depositable d = true ->
      suffix ∈ [$".cheque.eml"; $".scar_consent.eml"] ->
      disk_op g (CareOf.deposit_atomic base d (hex_encode txid ++ suffix) b)
  | Diverts sl txid b : skip_list g = Some sl ->
      disk_op g (SkipList.write_skipped sl (hex_encode txid ++ $".cheque") b)
  | Files_certificate inbox d t sig b : maildir_inbox g = Some inbox ->
      (d = join (vbc_root inbox) $"maildir/vbc/new" \/
       exists n, ends_with $"_Stake" n = true /\ d = join (join (vbc_root inbox) $"wallets" ++ [n]) $"maildir/inbox/new") ->
      disk_op g (file_certificate d (show_Z t ++ $".vbc-" ++ hex_encode sig ++ $".eml") b).

(** The counters of the inbox, which only its loop moves. *)
Definition tallied : list Stats.counter :=
  [Stats.messages_received; Stats.messages_processed; Stats.messages_failed; Stats.busy_rejections].
Definition tallies (s : Stats.AntieStats) : list Z := map (Stats.value s) tallied.
Context (rel : gw_ -> gw_ -> Prop).
Definition keeps {E A : Type} (m : M gw_ E A) : Prop := forall w, rel w (m w).2.
Class Indifferent : Prop := {
  indifferent_pre :: PreOrder rel;
  indifferent_aside w w' : outer w' = outer w -> tallies (stats w') = tallies (stats w) -> rel w w' }.
Class Harmless (g : Gw_) : Prop := {
  harmless_indifferent : Indifferent;
  harmless_disk {E A : Type} (m : M world E A) : disk_op g m -> keeps (on_disk m);
  harmless_send a to_ m : keeps (on_outer (send (sender g a) to_ m)) }.

Section closure.
Context `{IN : !Indifferent} {E F A B : Type}.
Lemma keep_ret (a : A) : keeps (E := E) (mret a).
Proof. intros w. reflexivity. Qed.
Lemma keep_throw (e : E) : keeps (A := A) (throw e).
Proof. intros w. reflexivity. Qed.
Lemma keep_lift (r : result E A) : keeps (lift r).
Proof. intros w. reflexivity. Qed.
Lemma keep_get : keeps (E := E) get.
Proof. intros w. reflexivity. Qed.
Lemma keep_bind (m : M gw_ E A) (f : A -> M gw_ E B) : keeps m -> (forall a, keeps (f a)) -> keeps (m ≫= f).
Proof.
  intros Hm Hf w. unfold mbind, M_bind. specialize (Hm w). destruct (m w) as [[a|e] w']; [|done].
  etransitivity; [exact Hm|]. apply Hf.
Qed.
Lemma keep_attempt (m : M gw_ E A) : keeps m -> keeps (E := F) (attempt m).
Proof. intros Hm w. specialize (Hm w). unfold attempt. by destruct (m w). Qed.
Lemma keep_recover (m : M gw_ fault A) : keeps m -> keeps (recover m).
Proof. intros Hm w. specialize (Hm w). unfold recover. by destruct (m w) as [[a|[e|z|]] w']. Qed.
Lemma keep_modify (f : gw_ -> gw_) :
  (forall w, outer (f w) = outer w) -> (forall w, tallies (stats (f w)) = tallies (stats w)) -> keeps (E := E) (modify f).
Proof. intros H1 H2 w. apply indifferent_aside; [apply H1|apply H2]. Qed.
Lemma keep_limiter (f : gw_ -> Admission.WalletRateLimiter) : keeps (E := E) (modify (fun w => with_limiter (f w) w)).
Proof. by apply keep_modify. Qed.
Lemma keep_keys (f : gw_ -> Pgp.ring N) : keeps (E := E) (modify (fun w => with_keys (f w) w)).
Proof. by apply keep_modify. Qed.
End closure.
Lemma keep_lambda `{IN : !Indifferent} {A : Type} (m : M Lm fault A) : keeps (on_lambda m).
Proof. intros w. unfold on_lambda, zoom. destruct (m _). by apply indifferent_aside. Qed.
Lemma keep_stats `{IN : !Indifferent} f : (forall s, tallies (f s) = tallies s) -> keeps (on_stats f).
Proof. intros H. apply keep_modify; [done|intros w; apply H]. Qed.
Lemma untallied_store c v s : c ∉ tallied -> tallies (Stats.store c v s) = tallies s.
Proof.
  intros Hc. apply map_ext_in. intros x Hx%list_elem_of_In. apply Stats.value_store_ne. by intros ->.
Qed.
Lemma keep_bump `{!Indifferent} c : c ∉ tallied -> keeps (bump c).
Proof. intros Hc. apply keep_stats. intros s. by apply untallied_store. Qed.
Lemma keep_beat `{!Indifferent} hb now : keeps (beat_opt hb now).
Proof. destruct hb; [by apply keep_stats|apply keep_ret]. Qed.
Lemma keep_disk g `{HM : !Harmless g} {E A : Type} (m : M world E A) : disk_op g m -> keeps (on_disk m).
Proof. apply harmless_disk. Qed.
Lemma keep_send g `{HM : !Harmless g} a to_ m : keeps (on_outer (send (sender g a) to_ m)).
Proof. apply harmless_send. Qed.
End effects.
Create HintDb keep.
#[export] Hint Resolve keep_ret keep_throw keep_lift keep_get keep_attempt keep_recover keep_limiter keep_keys
  keep_lambda keep_beat keep_send : keep.
#[export] Hint Constructors disk_op : keep.
#[export] Hint Extern 0 (Indifferent _) => apply _ : keep.
#[export] Hint Extern 0 (Harmless _ _) => eassumption : keep.
#[export] Hint Extern 1 (keeps _ (on_disk _)) => eapply keep_disk; [eassumption|] : keep.

(** Take a handler apart down to the steps the hints know. *)
Ltac keep_step :=
  first
    [ solve [eauto with keep]
    | lazymatch goal with
      | |- keeps ?r (bump _) => apply (keep_bump r), (bool_decide_unpack _); vm_compute; exact I
      | |- keeps ?r (_ ≫= _) => apply (keep_bind r); [|intros ?]
      | |- keeps ?r (attempt _) => apply (keep_attempt r)
      | |- keeps ?r (recover _) => apply (keep_recover r)
      | |- keeps _ (let '(_, _) := ?x in _) => destruct x
      | |- keeps _ (match ?x with _ => _ end) => let E := fresh "C" in destruct x eqn:E
      end ].
Ltac keeping := repeat keep_step.

(** ** The handlers *)
Section handlers.
Context `{EC : ErrorsCrate} `{CV : CoreValues} `{CF : !CoreFns} `{EK : !EmailCrates}.
Context {W : Type} `{HD : HasDisk W} {N Lm : Type} `{OP : OpenPgp} `{HT : Http N} `{LO : !LambdaOps Lm}.
Context (rel : gw W N Lm -> gw W N Lm -> Prop) (g : Gateway (W := W)) `{HM : !Harmless rel g}.
Abbreviation keeps_ := (keeps rel).
#[local] Instance here : Indifferent rel := harmless_indifferent (g := g) rel.

Lemma keep_track {A : Type} (m : M Lm fault A) : keeps_ (track_lambda m).
Proof. unfold track_lambda. keeping. Qed.
Lemma keep_missing {A : Type} w (o : option A) : keeps_ (missing w o).
Proof. apply (keep_lift rel). Qed.
Lemma keep_receiver p : keeps_ (receiver_email p).
Proof. unfold receiver_email. keeping. Qed.
Lemma keep_encrypt a i addr mail : keeps_ (encrypt_for a i addr mail).
Proof. unfold encrypt_for. keeping. Qed.
(** A plan deposits only for a domain that is a clean directory name. *)
Lemma plan_depositable v addr wid sup d i :
  CareOf.plan_receiver_delivery v addr wid sup = CareOf.Deposit d i -> CareOf.domain_is_depositable d = true.
Proof.
  unfold CareOf.plan_receiver_delivery. intros H. repeat (case_match; simplify_eq/=).
  match goal with H : _ && _ = true |- _ => by apply andb_true_iff in H as [_ ?] end.
Qed.
Lemma keep_pickup tx txid suffix mail : suffix ∈ [$".cheque.eml"; $".scar_consent.eml"] ->
  keeps_ (pickup_deposit g (plan g tx) (hex_encode txid ++ suffix) mail).
Proof.
  intros Hs. unfold pickup_deposit. destruct (plan g tx) as [|d i|] eqn:Ep; try apply (keep_ret rel).
  destruct (pickup_dir g) as [base|] eqn:Eb; [|apply (keep_ret rel)].
  apply plan_depositable in Ep. keeping.
Qed.
Lemma keep_divert tx txid mail : keeps_ (divert g tx (hex_encode txid ++ $".cheque") mail).
Proof. unfold divert. keeping. Qed.
Lemma keep_count p tx : keeps_ (count_care_of_default p tx).
Proof. unfold count_care_of_default. keeping. Qed.
Lemma keep_mail_out a to_ m : keeps_ (mail_out g a to_ m).
Proof. unfold mail_out. keeping. Qed.
Lemma keep_update t b : keeps_ (delivery_update g t b).
Proof. unfold delivery_update. keeping. Qed.
Hint Resolve keep_track keep_missing keep_receiver keep_encrypt keep_pickup keep_divert keep_count
  keep_mail_out keep_update : keep.
Hint Extern 1 (_ ∈ _) => (repeat constructor) : keep.

Lemma keep_cheque a tx resp cheque : keeps_ (deliver_cheque g a tx resp cheque).
Proof. unfold deliver_cheque, place_cheque. keeping. Qed.
Lemma keep_certificate a tx sig : keeps_ (deliver_certificate g a tx sig).
Proof. unfold deliver_certificate. keeping. Qed.
Lemma keep_scar a tx s : keeps_ (deliver_scar_consent g a tx s).
Proof. unfold deliver_scar_consent. keeping. Qed.
Lemma keep_peer_audit a p : keeps_ (dispatch_peer_audit g a p).
Proof. unfold dispatch_peer_audit. keeping. Qed.
Lemma keep_when {A : Type} (o : option A) (f : A -> M (gw W N Lm) fault unit) : (forall x, keeps_ (f x)) -> keeps_ (when_some o f).
Proof. intros H. destruct o; cbn [when_some]; auto with keep. Qed.
Hint Resolve keep_cheque keep_certificate keep_scar keep_peer_audit : keep.
Lemma keep_deliveries a tx resp : keeps_ (deliveries g a tx resp).
Proof. unfold deliveries. keeping; apply keep_when; auto with keep. Qed.
Lemma keep_rate a w : keeps_ (rate_gate a w).
Proof. unfold rate_gate, refuse. keeping. Qed.
Lemma ban_file_stats {E : Type} p ks s d :
  exists b s' d', Admission.nabla_ban_file_lists (E := E) p ks s d = (Ok (b, s'), d') /\ tallies s' = tallies s.
Proof.
  assert (tallies (Stats.fetch_add Stats.ban_list_unavailable 1 s) = tallies s) as U.
  { apply untallied_store, (bool_decide_unpack _). vm_compute. exact I. }
  unfold Admission.nabla_ban_file_lists. destruct p as [p|]; [|by eexists _, _, _].
  unfold attempt. cbv [mbind M_bind]. destruct (read_file p d) as [[b|e] d']; [|by eexists _, _, _].
  destruct (is_utf8 b); by eexists _, _, _.
Qed.
Lemma keep_ban tx : keeps_ (ban_gate g tx).
Proof.
  intros w. unfold ban_gate. cbv [mbind M_bind get]. set (ks := Admission.nabla_ban_keys _ _ _ _).
  pose proof (keep_disk rel g _ (Reads_bans g (E := fault) (nabla_ban_list_path g) ks (stats w)) w) as K.
  revert K. unfold on_disk, zoom.
  destruct (ban_file_stats (E := fault) (nabla_ban_list_path g) ks (stats w) (disk_of (outer w))) as (b & s' & d' & -> & U).
  cbn [snd]. intros K. etransitivity; [exact K|].
  destruct b; (apply (indifferent_aside rel); [done|]); cbn [modify bump on_stats refuse throw mret M_ret snd with_stats with_outer stats].
  - etransitivity; [|exact U]. apply untallied_store, (bool_decide_unpack _). vm_compute. exact I.
  - exact U.
Qed.
Lemma keep_sig tx : keeps_ (sig_gate g tx).
Proof. unfold sig_gate, refuse. keeping. Qed.
Lemma keep_cl2 e req : keeps_ (cl2_gate g e req).
Proof. unfold cl2_gate. keeping. Qed.
Lemma keep_answer a to_ mail : keeps_ (answer_audit g a to_ mail).
Proof. unfold answer_audit. keeping. Qed.
Hint Resolve keep_deliveries keep_rate keep_ban keep_sig keep_cl2 keep_answer : keep.
Hint Resolve keep_when : keep.

Lemma keep_dispatch a e : keeps_ (dispatch (gateway_handlers g) a e).
Proof.
  unfold dispatch, refuse. repeat case_decide; cbn [gateway_handlers
    Gateway.handle_witness_request Gateway.handle_redeem_request Gateway.handle_ack_request Gateway.handle_query
    Gateway.handle_validator_status Gateway.handle_genesis_dev Gateway.handle_vbc_sign_request
    Gateway.handle_vbc_sign_commit Gateway.handle_set_auth_hash Gateway.handle_peer_audit_request
    Gateway.handle_peer_audit_response].
  - unfold handle_witness_request. keeping.
  - unfold handle_redeem_request. keeping.
  - unfold handle_ack_request, refuse. keeping.
  - unfold handle_query. keeping.
  - unfold handle_validator_status. keeping.
  - unfold handle_genesis_dev. keeping.
  - unfold handle_vbc_sign_request. keeping.
  - unfold handle_vbc_sign_commit, refuse. keeping.
  - unfold handle_set_auth_hash, refuse. keeping.
  - unfold handle_peer_audit_request. keeping.
  - unfold handle_peer_audit_response. keeping.
  - unfold handle_fanout_relay. keeping.
  - keeping.
Qed.
Lemma keep_mail_reply a to_ m : keeps_ (mail_reply g a to_ m).
Proof. unfold mail_reply. keeping. by apply (keep_stats rel). Qed.
Hint Resolve keep_mail_reply keep_dispatch : keep.

(** The session a reply goes to is the digest in the stamp of the mail. *)
Definition stamped (e : AntieEmail) : Prop := forall hdr id, custody e = Some (hdr, id) -> session_id id.
Lemma parsed_stamped raw d e : parse_email_outcome raw d = Ok (Parsed e) -> stamped e.
Proof. intros H hdr id Hc. by destruct (Sessions.parsed_custody _ _ _ _ _ H Hc) as (_ & ? & ?). Qed.
Lemma keep_send_response a e p : stamped e -> keeps_ (send_response g a e p).
Proof.
  intros Hs. unfold send_response. apply (keep_bind rel); [keeping|]. intros mail.
  apply (keep_bind rel); [keeping|]. intros _. destruct (custody e) as [[hdr id]|] eqn:Ec; [|keeping].
  case_match; [apply (keep_throw rel)|]. unfold custody_row.
  destruct (List.find _ _) as [row|] eqn:Er; [|keeping]. apply List.find_some in Er as [Er%list_elem_of_In _].
  unfold custody_reply, refuse. apply Hs in Ec. keeping.
Qed.
Lemma keep_file_vbc a raw sig : keeps_ (file_vbc_delivery g a raw sig).
Proof.
  unfold file_vbc_delivery. destruct (maildir_inbox g) as [inbox|] eqn:Ei; [|apply (keep_ret rel)].
  apply (keep_bind rel); [keeping|]. intros names. apply (keep_bind rel); [|intros _; apply (keep_ret rel)].
  apply (keep_attempt rel), (keep_disk rel g), (Files_certificate g inbox); [done|].
  fold (vbc_root inbox). set (ds := stake_dirs _ names).
  assert (forall d, ds = [d] -> exists n, ends_with $"_Stake" n = true /\ d = join (vbc_root inbox) $"wallets" ++ [n]) as Hd.
  { intros d E. assert (d ∈ ds) as Hin by (rewrite E; by left). unfold ds, stake_dirs in Hin.
    destruct names as [ns|]; [|by apply not_elem_of_nil in Hin].
    apply list_elem_of_fmap in Hin as (n & -> & Hn). exists n. split; [|done].
    apply list_elem_of_In, filter_In in Hn as [_ [_ Hn]%andb_true_iff]. exact Hn. }
  destruct ds as [|d [|]]; auto. right. destruct (Hd d eq_refl) as (n & Hn & ->). by exists n.
Qed.
Hint Resolve keep_file_vbc : keep.
(** Whatever the message, whatever becomes of it. *)
Theorem keep_process a m : keeps_ (process_message g (gateway_handlers g) a m).
Proof.
  unfold process_message. case_match; [keeping|]. case_match; [keeping|].
  destruct (parse_email_outcome _ _) as [[e|]|] eqn:Ep; [|keeping..]. apply parsed_stamped in Ep.
  unfold serve. keeping; by apply keep_send_response.
Qed.
Theorem keep_busy a m : keeps_ (send_busy_rejection g a m).
Proof.
  unfold send_busy_rejection. destruct (parse_email _) as [e|] eqn:Ep; [|keeping].
  assert (stamped e) as Hs.
  { unfold parse_email, parse_email_with_context in Ep. destruct (parse_email_outcome (Carriers.raw m) None) as [[e'|]|] eqn:E; simplify_eq/=; try done.
    by eapply parsed_stamped. }
  apply (keep_bind rel); [keeping|]. intros w. by apply keep_send_response.
Qed.
End handlers.
Arguments tallies : simpl never.
End Effects.
