(* ===== verification/InboxTheorems.v ===== *)
(** * The theorems on the inbox: accounting with the real handlers, a Lambda that
    never answers, the busy gate *)
From S2P Require Import Prelude Utf8 Fs Errors CoreTypes Config CareOf Sinks Carriers Stats Lambda Pgp CoreIpc Email EmailTheorems LambdaTheorems Gateway Handlers GatewayTheorems Effects.
Import Errors Email Core.

(** ** The acknowledgements and the counters of the inbox *)
Module Quiet.
Import Gateway Handlers Effects.
Section quiet.
Context `{EC : ErrorsCrate} `{CV : CoreValues} `{CF : !CoreFns} `{EK : !EmailCrates}.
Context {W : Type} `{HD : HasDisk W} {N Lm : Type} `{OP : OpenPgp} `{HT : Http N} `{LO : !LambdaOps Lm}.
Abbreviation gw_ := (gw W N Lm).
(** What the world remembers of the acknowledgements. *)
Context (acks : W -> list bytes).

Record ledger (g : Gateway (W := W)) (c : MailCarrier W) : Prop := {
  ack_processed : forall i w, acks (mark_processed c i w).2 = acks w ++ [i];
  ack_failed : forall i why w, acks (mark_failed c i why w).2 = acks w ++ [i];
  send_silent : forall a to_ m w, acks (send (sender g a) to_ m w).2 = acks w;
  disk_silent : forall d w, acks (set_disk d w) = acks w;
}.
Definition tally (w : gw_) : list bytes * list Z := (acks (outer w), tallies (stats w)).
Definition untouched (w w' : gw_) : Prop := tally w' = tally w.
Definition quiet {E A : Type} (m : M gw_ E A) : Prop := keeps untouched m.

#[export] Instance quiet_aside : Indifferent untouched.
Proof.
  split; [split; [done|]|].
  - intros w1 w2 w3 H1 H2. unfold untouched in *. congruence.
  - intros w w' Ho Ht. unfold untouched, tally. by rewrite Ho, Ht.
Qed.
(** No handler touches the inbox counters or the acknowledgements. *)
Lemma quiet_handlers g c : ledger g c -> Harmless untouched g.
Proof.
  intros L. split; [apply _| |].
  - intros E A m _ w. unfold on_disk, zoom. destruct (m _) as [r d]. unfold untouched, tally. cbn [snd outer stats with_outer].
    by rewrite (disk_silent _ _ L).
  - intros a to_ m w. unfold on_outer, failing_only, with_err, zoom. pose proof (send_silent _ _ L a to_ m (outer w)) as H.
    destruct (send _ _ _ _) as [r o]. unfold untouched, tally. cbn [snd outer stats with_outer] in *. by rewrite H.
Qed.
End quiet.
End Quiet.
Import Gateway.

(** ** The inbox *)
Module Inbox.
Import Gateway Quiet Effects Handlers.
Section inbox.
Context `{EC : ErrorsCrate} `{CV : CoreValues} `{CF : !CoreFns} `{EK : !EmailCrates}.
Context {W : Type} `{HD : HasDisk W} {N Lm : Type} `{OP : OpenPgp} `{HT : Http N} `{LO : !LambdaOps Lm}.
Context (acks : W -> list bytes) (g : Gateway (W := W)) (c : MailCarrier W) (L : ledger acks g c).
Abbreviation gw_ := (gw W N Lm).
Abbreviation tally_ := (tally (N := N) (Lm := Lm) acks).
Abbreviation quiet_ := (quiet (N := N) (Lm := Lm) acks).

(** A counter incremented [k] times. *)
Definition up (k : nat) (v : Z) : Z := Nat.iter k (fun x => wrap 64 (x + 1)) v.
Definition book (ids : list bytes) (r p f b : nat) (t : list bytes * list Z) : list bytes * list Z :=
  (t.1 ++ ids, zip_with up [r; p; f; b] t.2).
Lemma up_up j k v : up j (up k v) = up (k + j) v.
Proof. unfold up. by rewrite <- Nat.iter_add, Nat.add_comm. Qed.
Lemma book_book ids r p f b ids' r' p' f' b' w :
  book ids' r' p' f' b' (book ids r p f b (tally_ w)) =
  book (ids ++ ids') (r + r') (p + p') (f + f') (b + b') (tally_ w).
Proof. unfold book, tally, tallies. cbn [fst snd tallied map zip_with]. by rewrite app_assoc, !up_up. Qed.
Lemma book_nothing w : book [] 0 0 0 0 (tally_ w) = tally_ w.
Proof. unfold book, tally, tallies, tallied. cbn. by rewrite app_nil_r. Qed.

(** [m] never stops, acknowledges exactly [ids] in order, receives [r] messages
    and concludes [n]. *)
Definition books {A : Type} (m : M gw_ fault A) (ids : list bytes) (r n : nat) : Prop :=
  forall w, is_ok (m w).1 = true /\
  exists p f b, (p + f + b)%nat = n /\ tally_ (m w).2 = book ids r p f b (tally_ w).
Lemma books_bind {A B : Type} (m : M gw_ fault A) (k : A -> M gw_ fault B) ids r n ids' r' n' :
  books m ids r n -> (forall a, books (k a) ids' r' n') -> books (m ≫= k) (ids ++ ids') (r + r') (n + n').
Proof.
  intros Hm Hk w. destruct (Hm w) as [Ho (p & f & b & <- & E)]. unfold mbind, M_bind.
  destruct (m w) as [[a|e] w']; [|done]. cbn [fst snd] in *.
  destruct (Hk a w') as [Ho' (p' & f' & b' & <- & E')]. split; [done|].
  exists (p + p')%nat, (f + f')%nat, (b + b')%nat. split; [lia|]. by rewrite E', E, book_book.
Qed.
Lemma quiet_books {A : Type} (m : M gw_ fault A) : quiet_ m -> (forall w, is_ok (m w).1 = true) -> books m [] 0 0.
Proof.
  intros Hq Ht w. split; [done|]. exists 0%nat, 0%nat, 0%nat. split; [done|]. by rewrite Hq, book_nothing.
Qed.
Lemma books_ret : books (mret tt) [] 0 0.
Proof. by apply quiet_books. Qed.
Lemma books_received : books (bump Stats.messages_received) [] 1 0.
Proof.
  intros w. split; [done|]. exists 0%nat, 0%nat, 0%nat. split; [done|].
  unfold book, tally, tallies. cbn [tallied map zip_with fst snd]. by rewrite app_nil_r.
Qed.
Lemma books_concluded k :
  k = Stats.messages_processed \/ k = Stats.messages_failed \/ k = Stats.busy_rejections ->
  books (bump k) [] 0 1.
Proof.
  intros Hk w. split; [done|].
  exists (if decide (k = Stats.messages_processed) then 1 else 0)%nat,
    (if decide (k = Stats.messages_failed) then 1 else 0)%nat,
    (if decide (k = Stats.busy_rejections) then 1 else 0)%nat.
  destruct Hk as [->|[->| ->]]; (split; [done|]);
    unfold book, tally, tallies; cbn [tallied map zip_with fst snd]; by rewrite app_nil_r.
Qed.
(** Whatever the acknowledgement answers, the message is marked. *)
Lemma books_ack {A : Type} (m : M W AntieError A) i :
  (forall w, acks (m w).2 = acks w ++ [i]) -> books (recover (on_outer m)) [i] 0 0.
Proof.
  intros Hm w. unfold recover, on_outer, failing_only, with_err, zoom. specialize (Hm (outer w)).
  destruct (m (outer w)) as [[r|e] o]; cbn [fst snd map_err] in *; (split; [done|]);
    exists 0%nat, 0%nat, 0%nat; (split; [done|]); unfold book, tally, tallies, tallied; cbn; by rewrite Hm.
Qed.
Lemma books_mark {A : Type} k (m : M W AntieError A) i :
  k = Stats.messages_processed \/ k = Stats.messages_failed \/ k = Stats.busy_rejections ->
  (forall w, acks (m w).2 = acks w ++ [i]) ->
  books (_ ← bump k; _ ← recover (on_outer m); mret tt) [i] 0 1.
Proof.
  intros Hk Hm. apply (books_bind _ _ [] 0 1 _ 0 0); [by apply books_concluded|]. intros _.
  apply (books_bind _ _ [_] 0 0 [] 0 0); [by apply books_ack|]. intros _. apply books_ret.
Qed.

(** The process ended or the call never returned. *)
Definition stopped (f : fault) : Prop := match f with Failed _ => False | _ => True end.
(** [m] concludes [n] messages, or stops at one it has received. *)
Definition concludes {A : Type} (m : M gw_ fault A) (ids : list bytes) (r n : nat) : Prop := forall w,
  (is_ok (m w).1 = true /\ exists p f b, (p + f + b)%nat = n /\ tally_ (m w).2 = book ids r p f b (tally_ w)) \/
  (exists s, (m w).1 = Err s /\ stopped s /\ tally_ (m w).2 = tally_ w).
Lemma concludes_recover {A B : Type} (m : M gw_ fault A) (k : result AntieError A -> M gw_ fault B) ids r n :
  quiet_ m -> (forall x, books (k x) ids r n) -> concludes (x ← recover m; k x) ids r n.
Proof.
  intros Hq Hk w. unfold mbind, M_bind. pose proof (keep_recover (untouched acks) m Hq w) as Q. revert Q. unfold untouched. unfold recover.
  destruct (m w) as [[a|[e|z|]] w']; cbn [fst snd]; intros Q;
    [left; destruct (Hk (Ok a) w') as [? R]; by rewrite <- Q
    |left; destruct (Hk (Err e) w') as [? R]; by rewrite <- Q|right; by eexists..].
Qed.

Abbreviation h := (gateway_handlers g).
Lemma concludes_one hb a qd m w :
  let run := dispatch_one g h c hb a qd m in
  (is_ok (run w).1 = true /\ exists p f b, (p + f + b = 1)%nat /\ tally_ (run w).2 = book [Carriers.id m] 1 p f b (tally_ w)) \/
  (exists s, (run w).1 = Err s /\ stopped s /\ tally_ (run w).2 = book [] 1 0 0 0 (tally_ w)).
Proof.
  intros run. set (pre := (_ ← beat_opt hb (mono a); bump Stats.messages_received) : M gw_ fault unit).
  assert (books pre [] 1 0) as Hp.
  { apply (books_bind _ _ [] 0 0 _ 1 0); [apply quiet_books; [apply keep_beat, _|by destruct hb]|].
    intros _. apply books_received. }
  set (rest := fun w1 : gw_ => if Admission.should_reject_busy (busy_threshold_ms g) (stats w1) qd then
      x ← recover (send_busy_rejection g a m);
      _ ← bump Stats.busy_rejections; _ ← recover (on_outer (mark_processed c (Carriers.id m))); mret tt
    else x ← recover (process_message g h a m);
      match x with
      | Err e => _ ← bump Stats.messages_failed; _ ← recover (on_outer (mark_failed c (Carriers.id m) (display e))); mret tt
      | Ok _ => _ ← bump Stats.messages_processed; _ ← recover (on_outer (mark_processed c (Carriers.id m))); mret tt
      end).
  assert (forall w1, concludes (rest w1) [Carriers.id m] 0 1) as Hr.
  { intros w1. unfold rest. destruct (Admission.should_reject_busy _ _ _); (apply concludes_recover;
      [apply keep_busy, quiet_handlers with c, L || apply keep_process, quiet_handlers with c, L|]).
    - intros _. apply books_mark; [auto|apply (ack_processed _ _ _ L)].
    - intros [u|e]; apply books_mark; auto; [apply (ack_processed _ _ _ L)|intros; apply (ack_failed _ _ _ L)]. }
  destruct (Hp w) as [Ho (p & f & b & Hn & E)].
  assert (run w = let '(r, w1) := pre w in match r with Ok _ => rest w1 w1 | Err e => (Err e, w1) end) as ->.
  { unfold run, dispatch_one, pre. cbv [mbind M_bind]. destruct (beat_opt hb (mono a) w) as [[]]; [|done]. done. }
  destruct (pre w) as [[[]|e] w1]; [|done]. cbn [fst snd] in *.
  assert (p = 0 /\ f = 0 /\ b = 0)%nat as (-> & -> & ->) by lia.
  destruct (Hr w1 w1) as [[Ho' (p & f & b & Hn' & E')]|(s & Es & Hs & E')]; [left|right].
  - split; [done|]. exists p, f, b. split; [done|]. by rewrite E', E, book_book.
  - exists s. by rewrite E', E.
Qed.
(** The first [k] messages are concluded; when it is not all of them, the next is
    the one a handler stopped at. *)
Definition accounted (ms : list IncomingMessage) (run : M gw_ fault unit) (w : gw_) : Prop :=
  exists k p f b, (p + f + b = k)%nat /\
  ((k = length ms /\ (run w).1 = Ok tt /\
    tally_ (run w).2 = book (map Carriers.id ms) k p f b (tally_ w)) \/
   (k < length ms)%nat /\ (exists s, (run w).1 = Err s /\ stopped s) /\
    tally_ (run w).2 = book (take k (map Carriers.id ms)) (S k) p f b (tally_ w)).
Lemma accounted_each hb env ms : forall k w, accounted ms (dispatch_each g h c hb env k ms) w.
Proof.
  induction ms as [|m ms IH]; intros k w; cbn [dispatch_each].
  - exists 0%nat, 0%nat, 0%nat, 0%nat. split; [done|]. left. split; [done|]. split; [done|]. by rewrite book_nothing.
  - pose proof (concludes_one hb (env k) (Z.of_nat (length ms)) m w) as H. unfold accounted, mbind, M_bind. cbv zeta in H.
    destruct (dispatch_one g h c hb (env k) (Z.of_nat (length ms)) m w) as [r w1].
    destruct H as [[Ho (p & f & b & Hn & E)]|(s & Es & Hs & E)]; cbn [fst snd] in *.
    + destruct r as [[]|]; [|done]. destruct (IH (S k) w1) as (k' & p' & f' & b' & Hn' & H).
      exists (S k'), (p + p')%nat, (f + f')%nat, (b + b')%nat. split; [lia|].
      destruct H as [(-> & Ho' & E')|(Hk & Hs & E')]; [left|right]; rewrite E', E, book_book; cbn [length map].
      * done.
      * split; [lia|]. split; [done|]. done.
    + subst r. exists 0%nat, 0%nat, 0%nat, 0%nat. split; [done|]. right. split; [cbn; lia|]. eauto.
Qed.

(** C11: the inbox is accounted for, with the handlers the gateway has.  Whatever
    a check of the carrier finds - unparseable, oversized, undecryptable or
    unknown messages, refused or failing requests, failing deliveries and
    replies, a full backlog - every message is acknowledged exactly once, in
    order, and counted once as received and once as processed, failed or refused
    as busy.  Only two things end a pass early, at a message then counted as
    received and left in the inbox with all behind it: Core's fatal verdict, which
    ends the process, and a Lambda that never answers.  When the check itself
    fails, nothing is acknowledged or counted. *)
Theorem inbox_accounted hb now env w :
  let run := process_carrier_messages g (gateway_handlers g) c hb now env in
  let grew k n w' := Stats.value (stats w') k = up n (Stats.value (stats w) k) in
  match check_new c (outer w) with
  | (Ok ms, o) =>
      exists k p f b r w', run w = (r, w') /\ (p + f + b = k)%nat /\
      acks (outer w') = acks o ++ take k (map Carriers.id ms) /\
      grew Stats.messages_processed p w' /\ grew Stats.messages_failed f w' /\
      grew Stats.busy_rejections b w' /\
      ((k = length ms /\ r = Ok tt /\ grew Stats.messages_received k w') \/
       (k < length ms)%nat /\ (r = Err Hung \/ exists z, r = Err (Exited z)) /\
        grew Stats.messages_received (S k) w')
  | (Err _, o) => run w = (Ok tt, with_outer o w)
  end.
Proof.
  intros run grew.
  assert (run w = let '(r, o) := check_new c (outer w) in
    match r with
    | Ok ms => (_ ← (if decide (ms = []) then mret tt else on_stats (Stats.note_inbox_write now));
                dispatch_each g h c hb env 0 ms) (with_outer o w)
    | Err _ => (Ok tt, with_outer o w)
    end) as ->.
  { unfold run, process_carrier_messages, recover, on_outer, failing_only, with_err, zoom. cbv [mbind M_bind].
    by destruct (check_new c (outer w)) as [[]]. }
  destruct (check_new c (outer w)) as [[ms|e] o]; [|done].
  assert (exists w1, (_ ← (if decide (ms = []) then mret tt else on_stats (Stats.note_inbox_write now));
      dispatch_each g h c hb env 0 ms) (with_outer o w) = dispatch_each g h c hb env 0 ms w1 /\
      tally_ w1 = tally_ (with_outer o w)) as (w1 & -> & T) by (case_decide; by eexists).
  destruct (accounted_each hb env ms 0 w1) as (k & p & f & b & Hn & H).
  destruct (dispatch_each g h c hb env 0 ms w1) as [r w']. cbn [fst snd] in H.
  exists k, p, f, b, r, w'. split; [done|]. split; [done|]. rewrite T in H. unfold tally, book, tallied in H.
  cbn [fst snd map zip_with outer stats with_outer] in H.
  destruct H as [(Hk & -> & E)|(Hk & (s & -> & Hs) & E)]; injection E as A R P F B; unfold grew.
  - rewrite take_ge by (rewrite length_map; lia). subst k. repeat split; auto.
  - repeat split; auto. right. repeat split; auto. destruct s; [done|right; by eexists|by left].
Qed.
End inbox.

(** *** A carrier that logs what it is told, a Lambda that always fails *)
Definition logged : Type := world * list bytes.
#[export] Instance logged_disk : HasDisk logged :=
  {| disk_of := fst; set_disk := fun d w => (d, w.2) |}.
Definition ack `{ErrorsCrate} (i : bytes) : M logged AntieError unit :=
  modify (fun w => (w.1, w.2 ++ [i])).
Definition logging `{ErrorsCrate} (ms : list IncomingMessage) : MailCarrier logged := {|
  carrier_name := $"logging"; check_new := mret ms; mark_processed := ack;
  mark_failed := fun i _ => ack i; send := fun _ _ => throw (ConfigError $"no relay") |}.
Definition ex_pgp : OpenPgp := {| cert_parses := fun _ => true; encrypt := fun _ _ => Err [] |}.
Definition offline : Http unit := {| vks_get := fun n _ => (Unreachable, n); post := fun n _ _ => n |}.
Definition down : LambdaOps (EC := ex_errors) (CV := ex_values) unit :=
  let e := Failed (LambdaError $"down") in
  {| ask_witness := fun _ => throw e; ask_redeem := fun _ => throw e; ask_ack := fun _ => throw e;
     ask_genesis := fun _ _ _ _ _ => throw e; ask_query := fun _ _ => throw e; ask_status := fun _ => throw e;
     ask_vbc_sign := fun _ => throw e; ask_vbc_commit := fun _ => throw e; ask_auth_hash := fun _ _ _ => throw e;
     ask_audit := fun _ _ => throw e; tell_dispatch_failed := fun _ _ _ => throw e;
     tell_not_held := fun _ _ => throw e; tell_audit_response := fun _ _ => throw e |}.
Definition ex_msg (i r : bytes) : IncomingMessage := {| Carriers.id := i; Carriers.raw := r; source := [] |}.
Definition ex_empty : world := {| fs := ∅; oracle := []; hist := []; listing := fun l => l |}.
Definition ex_logged (s : Stats.AntieStats) : gw logged unit unit :=
  Sessions.ex_world ((ex_empty, []) : logged) tt tt s.
Lemma ex_ledger ms : ledger snd (Sessions.ex_gateway 0 (logging [])) (logging (H := ex_errors) ms).
Proof. by split. Qed.
Definition ex_handlers (g : Gateway (EC := ex_errors) (W := logged)) : Gateway.Handlers (W := logged) (N := unit) (Lm := unit) :=
  gateway_handlers (EC := ex_errors) (CF := Exchange.ex_core) (EK := Building.ex_crates)
    (OP := ex_pgp) (HT := offline) (LO := down) g.

Lemma inbox_accounted_witness :
  let ms := [ex_msg $"1" $"PDATA"; ex_msg $"2" []] in
  exists r w', process_carrier_messages (EC := ex_errors) (CF := Exchange.ex_core) (EK := Building.ex_crates)
      (Sessions.ex_gateway 0 (logging []))
      (ex_handlers (Sessions.ex_gateway 0 (logging [])))
      (logging ms) None 9 (fun _ => Sessions.ex_ambient) (ex_logged (Stats.stats_new 0)) = (r, w') /\
    r = Ok tt /\ (outer w').2 = [$"1"; $"2"].
Proof.
  intros ms.
  pose proof (inbox_accounted (EC := ex_errors) (CF := Exchange.ex_core) (EK := Building.ex_crates) (OP := ex_pgp)
      (HT := offline) (LO := down) snd (Sessions.ex_gateway 0 (logging [])) (logging ms) (ex_ledger ms)
      None 9 (fun _ => Sessions.ex_ambient) (ex_logged (Stats.stats_new 0)))
    as (k & p & f & b & r & w' & E & _ & Ha & _ & _ & _ & H).
  assert (r = Ok tt) as Hr.
  { transitivity ((r, w').1); [done|]. etransitivity; [apply (f_equal fst); symmetry; exact E|].
    vm_compute. reflexivity. }
  exists r, w'. split; [exact E|]. split; [done|]. rewrite Hr in H.
  destruct H as [(-> & _)|(_ & [H|[z H]] & _)]; [exact Ha|discriminate..].
Defined.
End Inbox.

(** ** The busy gate *)
Module Busy.
Import Inbox Handlers.
Section busy.
Context `{EC : ErrorsCrate} `{CV : CoreValues} `{CF : !CoreFns} `{EK : !EmailCrates}.
Context {W : Type} `{HD : HasDisk W} {N Lm : Type}.

(** A sealed request this gateway can read. *)
Definition sealed_request (g : Gateway (W := W)) (raw : bytes) : Prop :=
  exists e m body decoded env, parse_email_outcome raw (envelope_decryptor g) = Ok (Parsed e) /\
  parse_mime raw = Some m /\ extract_body m = Ok body /\ b64_decode (strip_ws body) = Ok decoded /\
  envelope_of_cbor decoded = Some (inr env).
(** A certificate mail: recognised by its body, its subject free-form. *)
Definition certificate (raw : bytes) : Prop :=
  exists sig m e, try_parse_vbc_delivery raw = Some sig /\ parse_mime raw = Some m /\
  parse_subject (unwrap_or [] (mime_subject m)) = Err e.

Lemma sealed_unreadable g raw : sealed_request g raw -> exists er, parse_email raw = Err er.
Proof.
  intros (e & m & body & decoded & env & Hp & Hm & Hb & Hd & Henv).
  unfold parse_email, parse_email_with_context. unfold parse_email_outcome, mbind, result_bind in *.
  rewrite Hm in *. cbn [ok_or] in *. destruct (parse_subject _) as [[t r]|]; [|done].
  rewrite Hb in *. unfold decode_payload_with_context, mbind, result_bind in *. rewrite Hd in *. cbn [map_err] in *.
  case_decide; [done|]. unfold unwrap_by_format in *. rewrite Henv in *.
  destruct (requires_envelope t); [|done]. eauto.
Qed.
Lemma certificate_unreadable raw : certificate raw -> exists er, parse_email raw = Err er.
Proof.
  intros (sig & m & e & _ & Hm & He). unfold parse_email, parse_email_with_context, parse_email_outcome, mbind, result_bind.
  rewrite Hm. cbn [ok_or]. rewrite He. eauto.
Qed.

(** The statistics when the gate decides on a message. *)
Definition at_gate (hb : option nat) (a : ambient) (s : Stats.AntieStats) : Stats.AntieStats :=
  Stats.bump Stats.messages_received (match hb with Some i => Stats.beat i (mono a) s | None => s end).

(** C40: the busy gate loses mail.  The gate parses without the decryptor and
    before certificates are recognised; so while the backlog is over the
    threshold, a sealed request the gateway could read, or a certificate mail, is
    acknowledged to the carrier with nothing sent, filed or dispatched and no
    drop counted: the client never learns it was refused. *)
Theorem busy_gate_loses_sealed_mail (g : Gateway (W := W)) (h : Gateway.Handlers) c hb a qd m (w : gw W N Lm) :
  sealed_request g (Carriers.raw m) \/ certificate (Carriers.raw m) ->
  Admission.should_reject_busy (busy_threshold_ms g) (at_gate hb a (stats w)) qd = true ->
  dispatch_one g h c hb a qd m w =
  (Ok tt, with_outer (mark_processed c (Carriers.id m) (outer w)).2
            (with_stats (Stats.bump Stats.busy_rejections (at_gate hb a (stats w))) w)).
Proof.
  intros Hm Hb. assert (exists er, parse_email (Carriers.raw m) = Err er) as [er He].
  { destruct Hm as [Hm|Hm]; [by eapply sealed_unreadable|by apply certificate_unreadable]. }
  assert (forall w : gw W N Lm, send_busy_rejection g a m w = (Ok tt, w)) as Hs.
  { intros w0. unfold send_busy_rejection. by rewrite He. }
  destruct w as [o s l k lm]. cbn [outer stats] in *.
  unfold dispatch_one, bump, on_stats, modify, get, on_outer, failing_only, with_err, zoom.
  cbv [mbind M_bind]. assert (forall w1 : gw W N Lm, beat_opt hb (mono a) w1 =
    (Ok tt, with_stats (match hb with Some i => Stats.beat i (mono a) (stats w1) | None => stats w1 end) w1)) as ->
    by (intros []; by destruct hb).
  cbn [outer stats with_stats limiter keys lambda]. fold (at_gate hb a s). rewrite Hb. unfold recover. rewrite Hs.
  cbn [outer stats with_stats limiter keys lambda]. by destruct (mark_processed c (Carriers.id m) o) as [[]].
Qed.
End busy.

Lemma busy_gate_loses_sealed_mail_witness :
  let s := Stats.store Stats.avg_witness_ms 20000 (Stats.stats_new 0) in
  let g := Sessions.ex_gateway 15000 (logging []) in
  let r := dispatch_one (EC := ex_errors) (CF := Exchange.ex_core) (EK := Building.ex_crates) g
      (ex_handlers g)
      (logging []) None Sessions.ex_ambient 1 (ex_msg $"1" $"EDATA") (ex_logged s) in
  outer r.2 = (ex_empty, [$"1"]) /\ Stats.value (stats r.2) Stats.decrypt_fail = 0.
Proof.
  intros s g r.
  assert (r = (Ok tt, with_outer ((ex_empty, [$"1"]) : logged) (with_stats
    (Stats.bump Stats.busy_rejections (at_gate None Sessions.ex_ambient s)) (ex_logged s)))) as ->.
  { apply (busy_gate_loses_sealed_mail (EC := ex_errors) (CF := Exchange.ex_core) (EK := Building.ex_crates));
      [|by vm_compute].
    left. by do 5 eexists. }
  by vm_compute.
Defined.
End Busy.
