(* ===== verification/HandlerTheorems.v ===== *)
(** * The theorems on the request handlers: the shape of replies, what reaches
    Lambda, where a cheque goes, what a query discloses, the key cache *)
From S2P Require Import Prelude Utf8 Fs Errors CoreTypes Config CareOf Sinks SinkTheorems Carriers Stats Lambda Pgp CoreIpc Email EmailTheorems LambdaTheorems Gateway Handlers GatewayTheorems InboxTheorems.
Import Errors Email Core CoreIpc Gateway Handlers.

(** ** The shape of replies *)
Module Replies.
Section replies.
Context `{EC : ErrorsCrate} `{CV : CoreValues} `{CF : !CoreFns} `{EK : !EmailCrates}.
Context {W : Type} `{HD : HasDisk W} {N Lm : Type} `{OP : OpenPgp} `{HT : Http N} `{LO : !LambdaOps Lm}.
Abbreviation gw_ := (gw W N Lm).


(** A reply that reveals nothing of a witness round. *)
Definition bare (p : ResponsePayload) : Prop :=
  resp_cheque_for_receiver p = None /\ scar_consent_voucher p = None /\ vbc_signature p = None /\
  receipt p = None /\ txid p = None /\ sender_fact_chain p = None /\ sender_state p = None.
Definition coded (p : ResponsePayload) : Prop := success p = true <-> rejection_code p = None.
Definition twinned (p : ResponsePayload) : Prop := success p = true <-> error_response p = None.
Lemma verdict_bare ok rid err rej er : bare (verdict ok rid err rej er).
Proof. done. Qed.
Lemma refusal_well rid err rej er : er <> None -> coded (refusal rid err rej er) /\ twinned (refusal rid err rej er).
Proof. intros H. by repeat split. Qed.
Lemma lambda_verdict_well ok rid err c t d :
  coded (lambda_verdict ok rid err c t d) /\ twinned (lambda_verdict ok rid err c t d).
Proof. by destruct ok. Qed.


End replies.
End Replies.

(** ** What a query discloses *)
Module Queries.
Section queries.
Context `{EC : ErrorsCrate} `{CV : CoreValues} `{CF : !CoreFns} `{EK : !EmailCrates}.
Context {W : Type} `{HD : HasDisk W} {N Lm : Type} `{LO : !LambdaOps Lm}.
Abbreviation gw_ := (gw W N Lm).

(** The four fields, in the order of their names. *)
Definition disclosed (s : StoredWalletState) (v : Value) : Prop :=
  exists b pk sid seq, value_of_u64 (st_balance s) = Ok b /\ value_of_bytes (st_public_key s) = Ok pk /\
    value_of_bytes (st_state_id s) = Ok sid /\ value_of_u64 (st_wallet_seq s) = Ok seq /\
    v = Map [(Text $"balance", b); (Text $"public_key", pk); (Text $"state_id", sid); (Text $"wallet_seq", seq)].
Lemma query_map_sorted b seq pk sid :
  query_data_map [($"balance", b); ($"wallet_seq", seq); ($"public_key", pk); ($"state_id", sid)] =
  Map [(Text $"balance", b); (Text $"public_key", pk); (Text $"state_id", sid); (Text $"wallet_seq", seq)].
Proof. vm_compute. reflexivity. Qed.
Lemma projection_discloses s v : wallet_query_projection s = Ok v -> disclosed s v.
Proof.
  unfold wallet_query_projection, query_value, mbind, result_bind, disclosed.
  destruct (value_of_u64 (st_balance s)) as [b|], (value_of_u64 (st_wallet_seq s)) as [seq|],
    (value_of_bytes (st_public_key s)) as [pk|], (value_of_bytes (st_state_id s)) as [sid|]; cbn [map_err]; try done.
  rewrite query_map_sorted. intros [= <-]. by exists b, pk, sid, seq.
Qed.

(** C23: a query discloses four fields.  A request that names no wallet key is
    refused without asking Lambda.  A successful reply is the request's id and
    the success flag, and of the state Lambda keeps for that key its balance,
    public key, state id and sequence number, in canonical order; nothing else
    of the state, and no hints, leave the gateway.  A wallet Lambda does not know
    is a coded refusal. *)
Theorem query_discloses_four_fields a e (w : gw_) :
  match query_params (fields (payload e)) ≫= query_wallet_pk with
  | None => exists er, handle_query a e w = (Err (Failed (InvalidPayload er)), w)
  | Some pk =>
      forall p w', handle_query a e w = (Ok p, w') ->
      exists r, track_lambda (ask_query (lambda_uuid a) pk) w = (Ok r, w') /\
      if found r then
        exists d, p = with_query_data [] d (verdict true (request_id e) None None None) /\
          match wallet_state r, d with
          | Some s, Some v => disclosed s v
          | None, None => True
          | _, _ => False
          end
      else success p = false /\ query_data p = None /\ rejection_code p = Some $"NOT_FOUND"
  end.
Proof.
  unfold handle_query. destruct (query_params (fields (payload e)) ≫= query_wallet_pk) as [pk|]; [|by eexists].
  intros p w'. unfold lift, ok_or, mbind, M_bind. destruct (track_lambda _ w) as [[r|f] w1]; [|done].
  intros H. exists r. destruct (found r) eqn:F; [|by injection H as <- <-].
  destruct (wallet_state r) as [s|].
  - pose proof (projection_discloses s) as D. unfold result_bind in H.
    destruct (wallet_query_projection s) as [v|]; [|done].
    injection H as <- <-. split; [done|]. exists (Some v). auto.
  - injection H as <- <-. split; [done|]. by exists None.
Qed.
End queries.

Definition knowing (s : StoredWalletState (CV := ex_values)) : LambdaOps (EC := ex_errors) (CV := ex_values) unit :=
  let e := Failed (LambdaError $"down") in
  {| ask_witness := fun _ => throw e; ask_redeem := fun _ => throw e; ask_ack := fun _ => throw e;
     ask_genesis := fun _ _ _ _ _ => throw e;
     ask_query := fun _ _ => mret (Build_StateQueryResponse (CV := ex_values) true (Some s)); ask_status := fun _ => throw e;
     ask_vbc_sign := fun _ => throw e; ask_vbc_commit := fun _ => throw e; ask_auth_hash := fun _ _ _ => throw e;
     ask_audit := fun _ _ => throw e; tell_dispatch_failed := fun _ _ _ => throw e;
     tell_not_held := fun _ _ => throw e; tell_audit_response := fun _ _ => throw e |}.
Definition ex_query : AntieEmail (CV := ex_values) :=
  Build_AntieEmail (CV := ex_values) $"w@axiom" [] $"query" $"r1" None
    (Build_AntiePayload (CV := ex_values) []
      {| query_params := Some (Map (H := ex_values) [(Text $"wallet_pk", Bytes $"K")]);
         public_key := None; balance := None; group_members := None;
         Email.txid := None; validator_pk := None; sender_sig := None; client_pk := None;
         sphincs_pk_hex := None; dilithium_pk_hex := None; ed25519_pk_hex := None;
         pgp_fingerprint_hex := None; issued_at := None; expires_at := None; chain_depth := None;
         issuer_set_hex := []; proof_cap := None; node_name_field := None; auth_hash := None;
         Email.peer_audit_request := None; Email.peer_audit_response := None; Email.peer_audit_not_held := None |})
    [] None None.
Definition ex_state : StoredWalletState (CV := ex_values) :=
  Build_StoredWalletState (CV := ex_values) 7 2 $"PK" $"SID" $"hidden".
Lemma query_discloses_four_fields_witness :
  let r := handle_query (EC := ex_errors) (CF := Exchange.ex_core) (LO := knowing ex_state)
    Sessions.ex_ambient ex_query (Inbox.ex_logged (Stats.stats_new 0)) in
  exists p w' d, r = (Ok p, w') /\ query_data p = Some d /\ disclosed (EC := ex_errors) (CF := Exchange.ex_core) ex_state d.
Proof.
  intros r. destruct r as [[p|f] w'] eqn:E; [|vm_compute in E; discriminate].
  pose proof (query_discloses_four_fields (EC := ex_errors) (CF := Exchange.ex_core)
    (LO := knowing ex_state) Sessions.ex_ambient ex_query (Inbox.ex_logged (Stats.stats_new 0))) as Q.
  set (k := _ ≫= _) in Q. assert (k = Some $"K") as -> by (vm_compute; reflexivity).
  destruct (Q p w' E) as (x & Ex & D).
  assert (x = Build_StateQueryResponse (CV := ex_values) true (Some ex_state)) as -> by
    (injection Ex as <- _; reflexivity).
  cbn [found wallet_state] in D. destruct D as ([d|] & -> & D); [|done].
  exists (with_query_data [] (Some d) (verdict true $"r1" None None None)), w', d.
  split; [reflexivity|]. split; [reflexivity|exact D].
Defined.
End Queries.

