(* ===== verification/ChequeTheorems.v ===== *)
(** * The theorem on cheque deliveries: pickup, skip list or mail *)
From S2P Require Import Prelude Utf8 Fs Errors CoreTypes Config CareOf Sinks SinkTheorems Carriers Stats Lambda Pgp Email EmailTheorems LambdaTheorems Gateway Handlers GatewayTheorems InboxTheorems.
Import Errors Email Core Gateway Handlers.

(** ** Where a cheque goes *)
(** What a sender is asked to send, kept in order; the disk is apart from it. *)
Class SendLog `{EC : ErrorsCrate} {W : Type} `{HD : HasDisk W} (c : MailCarrier W)
    (sent : W -> list (bytes * bytes)) : Prop := {
  sent_send : forall to_ m w, sent (send c to_ m w).2 = sent w ++ [(to_, m)];
  sent_disk : forall d w, sent (set_disk d w) = sent w }.

Module Cheques.
Section cheques.
Context `{EC : ErrorsCrate} `{CV : CoreValues} `{CF : !CoreFns} `{EK : !EmailCrates}.
Context {W : Type} `{HD : HasDisk W} `{LD : !LawfulDisk W} {N Lm : Type} `{OP : OpenPgp} `{HT : Http N} `{LO : !LambdaOps Lm}.
Abbreviation gw_ := (gw W N Lm).
Context (sent : W -> list (bytes * bytes)) (g : Gateway (W := W)) (a : ambient) `{SL : !SendLog (sender g a) sent}.

(** [m] runs from [w] to a value, with [Q] of it and of the world left. *)
Definition ends {A : Type} (m : M gw_ fault A) (w : gw_) (Q : A -> gw_ -> Prop) : Prop :=
  exists x w', m w = (Ok x, w') /\ Q x w'.
Lemma ends_ret {A : Type} (x : A) w (Q : A -> gw_ -> Prop) : Q x w -> ends (mret x) w Q.
Proof. by exists x, w. Qed.
Lemma ends_bind {A B : Type} (m : M gw_ fault A) (k : A -> M gw_ fault B) w (R : A -> gw_ -> Prop) (Q : B -> gw_ -> Prop) :
  ends m w R -> (forall x w1, R x w1 -> ends (k x) w1 Q) -> ends (m ≫= k) w Q.
Proof.
  intros (x & w1 & E & H) Hk. destruct (Hk x w1 H) as (y & w2 & E2 & H2).
  exists y, w2. unfold mbind, M_bind. by rewrite E.
Qed.
(** Steps that leave everything outside the gateway alone. *)
Definition inside {A : Type} (m : M gw_ fault A) : Prop := forall w, ends m w (fun _ w' => outer w' = outer w).
Lemma inside_ret {A : Type} (x : A) : inside (mret x).
Proof. intros w. by apply ends_ret. Qed.
Lemma inside_bump c : inside (bump c).
Proof. intros w. by eexists _, _. Qed.
Lemma inside_count p tx : inside (count_care_of_default p tx).
Proof. intros w. unfold count_care_of_default. repeat case_match; first [apply inside_ret|apply inside_bump]. Qed.
Lemma inside_update t b : inside (delivery_update g t b).
Proof. intros w. unfold delivery_update. case_match; [|apply inside_ret]. by eexists _, _. Qed.
Lemma encrypt_ends i addr mail w :
  ends (encrypt_for a i addr mail) w (fun r w' => outer w' = outer w /\
    (r.1 = mail \/ exists cert, encrypt cert mail = Ok r.1)).
Proof.
  unfold encrypt_for, ends, get, modify. cbv [mbind M_bind mret M_ret].
  unfold Pgp.try_encrypt_for_email. destruct (Pgp.lookup_key_bytes _ _ _ _) as [[cert|] k]; [|by eexists _, _; eauto].
  destruct (encrypt cert mail) eqn:E; eexists _, _; repeat split; cbn; eauto.
Qed.

(** Outside [T] every file is as it was, and nothing was sent. *)
Definition aside (T : list path) (o o' : W) : Prop :=
  sent o' = sent o /\
  forall q c, q ∉ T -> fs (disk_of o') !! q = Some (File c) <-> fs (disk_of o) !! q = Some (File c).
Lemma aside_refl T o : aside T o o.
Proof. done. Qed.
Lemma aside_trans T U o o1 o' : aside T o o1 -> aside U o1 o' -> aside (T ++ U) o o'.
Proof.
  intros [S1 H1] [S2 H2]. split; [congruence|]. intros q c Hq.
  rewrite not_elem_of_app in Hq. destruct Hq. rewrite H2, H1 by done. done.
Qed.

(** A delivery on the disk: complete when it succeeds, else nowhere. *)
Lemma on_disk_delivery {E A : Type} (op : M world E A) tmp dst b (w : gw_) (HA : AtomicPublish op tmp dst b) :
  (forall d, is_ok (op d).1 = false -> files_kept tmp (fs d) (fs (op d).2)) ->
  ends (attempt (on_disk op)) w (fun r w' =>
    if is_ok r then fs (disk_of (outer w')) !! dst = Some (File b) /\ aside [tmp; dst] (outer w) (outer w')
    else aside [tmp] (outer w) (outer w')).
Proof.
  intros Hf. unfold ends, attempt, on_disk, zoom.
  pose proof (publish_done op tmp dst b (disk_of (outer w))) as Hd.
  pose proof (Hf (disk_of (outer w))) as Hk.
  destruct (publish_triple (fs (disk_of (outer w))) (disk_of (outer w)) eq_refl) as (_ & Hp & _).
  destruct (op (disk_of (outer w))) as [r d]. exists r. eexists. split; [done|]. cbn [fst snd] in *. unfold aside.
  assert (sent (set_disk d (outer w)) = sent (outer w)) as Hs by apply (sent_disk (c := sender g a)).
  cbn [outer with_outer]. rewrite disk_set. destruct r as [x|e]; cbn.
  - split; [auto|]. split; [done|]. intros q c Hq. rewrite !not_elem_of_cons in Hq. destruct Hq as (H1 & H2 & _).
    destruct (Hp q H1) as [->|[[-> _]|[E1 E2]]]; [done..|]. split; congruence.
  - split; [done|]. intros q c Hq. apply (Hk eq_refl). set_solver.
Qed.

(** *** The three ways out *)
Definition cheque_file (c : ValidatorCheque) : bytes := hex_encode (cheque_txid c) ++ $".cheque.eml".
Definition skipped_file (c : ValidatorCheque) : bytes := hex_encode (cheque_txid c) ++ $".cheque".
Definition pickup_tmp (p : CareOf.DeliveryPlan) (c : ValidatorCheque) : list path :=
  match p, pickup_dir g with
  | CareOf.Deposit domain _, Some base => [join (join (join base domain) $"tmp") (cheque_file c)]
  | _, _ => []
  end.
Definition skip_tmp (c : ValidatorCheque) : list path :=
  match skip_list g with Some sl => [SkipList.skipped_tmp sl (skipped_file c)] | None => [] end.
(** From [o], the mail [final] to [recv] went one way, and only one. *)
Inductive went (tx : Transaction) (c : ValidatorCheque) (recv final : bytes) (o o' : W) : Prop :=
  | PickedUp base domain inner (dst := join (join (join base domain) $"new") (cheque_file c)) :
      plan g tx = CareOf.Deposit domain inner -> pickup_dir g = Some base ->
      fs (disk_of o') !! dst = Some (File final) ->
      aside (pickup_tmp (plan g tx) c ++ [dst]) o o' -> went tx c recv final o o'
  | SetAside sl (dst := SkipList.skipped_dest sl (skipped_file c)) :
      skip_list g = Some sl -> SkipList.contains sl (receiver_wallet_id tx) = true ->
      fs (disk_of o') !! dst = Some (File final) ->
      aside (pickup_tmp (plan g tx) c ++ skip_tmp c ++ [dst]) o o' -> went tx c recv final o o'
  | Posted o1 :
      aside (pickup_tmp (plan g tx) c ++ skip_tmp c) o o1 ->
      o' = (send (sender g a) recv final o1).2 -> sent o' = sent o ++ [(recv, final)] ->
      went tx c recv final o o'.

Lemma pickup_ends tx c final w :
  ends (pickup_deposit g (plan g tx) (cheque_file c) final) w (fun b w' =>
    if b then forall recv, went tx c recv final (outer w) (outer w')
    else aside (pickup_tmp (plan g tx) c) (outer w) (outer w')).
Proof.
  unfold pickup_deposit, pickup_tmp.
  destruct (plan g tx) as [e|domain inner|r] eqn:Ep; [by apply ends_ret| |by apply ends_ret].
  destruct (pickup_dir g) as [base|] eqn:Eb; [|by apply ends_ret].
  eapply ends_bind; [apply (on_disk_delivery _ _ _ _ _ (SinkTheorems.care_of_atomic _ _ _ _)), SinkTheorems.deposit_atomic_failed|].
  intros [p|e] w1 H; cbn in H.
  - eapply ends_bind; [apply (inside_bump Stats.care_of_deposits)|]. intros [] w2 Ho. apply ends_ret.
    intros recv. rewrite Ho. destruct H as [Hd Hk]. eapply PickedUp; eauto.
    unfold pickup_tmp. by rewrite Ep, Eb.
  - by apply ends_ret.
Qed.
Lemma divert_ends tx c final o w :
  aside (pickup_tmp (plan g tx) c) o (outer w) ->
  ends (divert g tx (skipped_file c) final) w (fun b w' =>
    if b then forall recv, went tx c recv final o (outer w')
    else aside (pickup_tmp (plan g tx) c ++ skip_tmp c) o (outer w')).
Proof.
  intros Ho. unfold divert, skip_tmp. destruct (skip_list g) as [sl|] eqn:El.
  2:{ apply ends_ret. by rewrite app_nil_r. }
  assert (aside (pickup_tmp (plan g tx) c ++ [SkipList.skipped_tmp sl (skipped_file c)]) o (outer w)) as Ho'.
  { eapply aside_trans; [done|apply aside_refl]. }
  destruct (SkipList.contains sl (receiver_wallet_id tx)) eqn:Ec; [|by apply ends_ret].
  eapply ends_bind; [apply (on_disk_delivery _ _ _ _ _ (SinkTheorems.skipped_atomic _ _ _)), SinkTheorems.write_skipped_failed|].
  intros r w1 H. apply ends_ret. destruct r as [p|e]; cbn in H |- *.
  - intros recv. destruct H as [Hd Hk]. eapply SetAside; eauto. unfold skip_tmp. rewrite El.
    by eapply aside_trans.
  - by eapply aside_trans.
Qed.
Lemma place_ends tx c recv mail w :
  ends (place_cheque g a tx (plan g tx) recv c mail) w (fun _ w' =>
    exists final, (final = mail \/ exists cert, encrypt cert mail = Ok final) /\
      went tx c recv final (outer w) (outer w')).
Proof.
  unfold place_cheque. eapply ends_bind; [apply encrypt_ends|]. intros [final enc] w1 [E1 Hf]. cbn [fst] in Hf.
  eapply ends_bind; [apply pickup_ends|]. rewrite E1. intros b w2 Hb.
  eapply ends_bind; [apply inside_count|]. intros [] w3 E3. rewrite <- E3 in Hb.
  destruct b; [eapply ends_bind; [apply (ends_ret _ _ (fun x w' => x = false /\ w' = w3)); done|]|].
  { intros ? ? [-> ->]. apply ends_ret. eauto. }
  eapply ends_bind; [by apply divert_ends|]. intros [] w4 Hs; cbn [orb]; [apply ends_ret; eauto|].
  eapply (ends_bind _ _ _ (fun _ w' => outer w' = (send (sender g a) recv final (outer w4)).2)).
  { unfold mail_out, recover, on_outer, failing_only, with_err, zoom, ends.
    destruct (send (sender g a) recv final (outer w4)) as [[[]|e] o]; by eexists _, _. }
  intros r w5 E5. assert (went tx c recv final (outer w) (outer w5)) as Hw.
  { eapply Posted; [done..|]. rewrite E5, sent_send. by destruct Hs as [-> _]. }
  destruct r as [[]|e]; [|apply ends_ret; eauto].
  destruct (inside_update (cheque_txid c) enc w5) as ([] & w6 & E6 & Eo). exists tt, w6. rewrite Eo. eauto.
Qed.

(** With the receiver's address known. *)
Definition delivered_to tx resp c (recv : bytes) (w w' : gw_) : Prop :=
  match cheque_email g a tx recv c (ws_sender_fact_chain resp) with
  | Err _ => outer w' = outer w
  | Ok mail =>
      (exists o, origin_of tx = Ok o /\ cheque_origin_matches o (cheque_txid c) = true) /\
      exists final, (final = mail \/ exists cert, encrypt cert mail = Ok final) /\
        went tx c recv final (outer w) (outer w')
  end.
Lemma origin_checked tx recv c chain mail :
  cheque_email g a tx recv c chain = Ok mail ->
  exists o, origin_of tx = Ok o /\ cheque_origin_matches o (cheque_txid c) = true.
Proof.
  unfold cheque_email, build_cheque_delivery_email, mbind, result_bind.
  destruct (origin_of tx) as [o|]; [|done]. cbn [map_err]. destruct (cheque_origin_matches _ _) eqn:E; [eauto|done].
Qed.
Lemma deliver_ends tx resp c recv w :
  ends (match cheque_email g a tx recv c (ws_sender_fact_chain resp) with
        | Ok mail => place_cheque g a tx (plan g tx) recv c mail | Err _ => mret tt end) w
    (fun _ => delivered_to tx resp c recv w).
Proof.
  unfold delivered_to. destruct (cheque_email _ _ _ _ _ _) as [mail|] eqn:Em; [|by apply ends_ret].
  destruct (place_ends tx c recv mail w) as ([] & w' & E & H). exists tt, w'. eauto using origin_checked.
Qed.

(** C7: a cheque goes one way.  Delivering a cheque never fails the handler.
    Nothing happens outside the gateway when the output is burnt, when the
    delivery plan refuses the receiver's override, or when the cheque's recorded
    origin does not reproduce its transaction id; otherwise the mail that was
    built, or its encryption for the receiver's key, takes exactly one way: it
    lies complete in the pickup directory of the planned domain and nothing is
    sent or written elsewhere; or, the deposit having left no file, complete in
    the directory of a skip list that names the receiver; or, both having left
    no file, it is handed once to the sender, for the planned address. *)
Theorem cheque_goes_one_way tx resp c w :
  ends (deliver_cheque g a tx resp c) w (fun _ w' =>
    if decide (receiver_wallet_id tx = BURN_ADDRESS) then outer w' = outer w
    else match plan g tx with
    | CareOf.Refuse _ => outer w' = outer w
    | CareOf.Email recv | CareOf.Deposit _ recv => delivered_to tx resp c recv w w'
    end).
Proof.
  unfold deliver_cheque. case_decide; [by apply ends_ret|].
  unfold receiver_email. destruct (plan g tx) as [recv|d recv|r] eqn:Ep; [..|by eexists _, _];
    pose proof (deliver_ends tx resp c recv w) as D; rewrite Ep in D; exact D.
Qed.
End cheques.

(** *** A disk and a relay that logs *)
Definition posting : Type := world * list (bytes * bytes).
#[export] Instance posting_disk : HasDisk posting :=
  {| disk_of := fst; set_disk := fun d w => (d, w.2) |}.
Lemma lawful_posting : LawfulDisk posting.
Proof. by intros d []. Qed.
Definition relay : MailCarrier (EC := ex_errors) posting := {|
  carrier_name := $"relay"; check_new := mret []; Carriers.mark_processed := fun _ => mret tt;
  Carriers.mark_failed := fun _ _ => mret tt;
  send := fun to_ m => modify (fun w => (w.1, w.2 ++ [(to_, m)])) |}.
Lemma relay_log : SendLog (HD := posting_disk) relay snd.
Proof. by split. Qed.
Definition ex_tx : Transaction (CV := ex_values) :=
  Build_Transaction (CV := ex_values) $"s@axiom/aa" $"r@axiom/bb" None [] [] $"T1".
Definition ex_cheque : ValidatorCheque (CV := ex_values) := Build_ValidatorCheque (CV := ex_values) $"T1" [].
Definition ex_resp : WitnessResponse (CV := ex_values) :=
  Build_WitnessResponse (CV := ex_values) true (Some ex_cheque) None None None None [].
Definition ex_post : gw posting unit unit :=
  Sessions.ex_world ((Inbox.ex_empty, []) : posting) tt tt (Stats.stats_new 0).

Lemma cheque_goes_one_way_witness :
  let run := deliver_cheque (EC := ex_errors) (CF := Exchange.ex_core) (EK := Building.ex_crates) (OP := Inbox.ex_pgp)
      (HT := Inbox.offline) (Lm := unit) (Sessions.ex_gateway 0 relay) Sessions.ex_ambient ex_tx in
  exists w' mail, run ex_resp ex_cheque ex_post = (Ok tt, w') /\ (outer w').2 = [($"r@axiom", mail)].
Proof.
  intros run.
  destruct (cheque_goes_one_way (EC := ex_errors) (CF := Exchange.ex_core) (EK := Building.ex_crates)
    (OP := Inbox.ex_pgp) (HT := Inbox.offline) (LD := lawful_posting) snd (Sessions.ex_gateway 0 relay)
    Sessions.ex_ambient (SL := relay_log) ex_tx ex_resp ex_cheque ex_post) as ([] & w' & E & H).
  rewrite decide_False in H by (apply (bool_decide_unpack _); vm_compute; exact I).
  change (plan (EC := ex_errors) (CF := Exchange.ex_core) (Sessions.ex_gateway 0 relay) ex_tx) with (CareOf.Email $"r@axiom") in H.
  unfold delivered_to in H.
  set (m := cheque_email _ _ _ _ _ _) in H. destruct m as [mail|] eqn:Em; [|vm_compute in Em; discriminate].
  destruct H as (_ & final & _ & [b ? ? ? B|sl ? B|o1 ? ? S]); [discriminate B..|].
  exists w', final. split; [exact E|exact S].
Defined.
End Cheques.
