(* ===== verification/AdmissionTheorems.v ===== *)
(** * The theorems on the admission of witness requests: the gates before Lambda,
    the limiter's key *)
From S2P Require Import Prelude Utf8 Fs Errors CoreTypes Config CareOf Sinks Carriers Stats Lambda Pgp CoreIpc Email EmailTheorems LambdaTheorems Gateway Handlers GatewayTheorems InboxTheorems.
Import Errors Email Core CoreIpc Gateway Handlers.

Module Gates.
Section gates.
Context `{EC : ErrorsCrate} `{CV : CoreValues} `{CF : !CoreFns} `{EK : !EmailCrates}.
Context {W : Type} `{HD : HasDisk W} `{LD : !LawfulDisk W} {N Lm : Type} `{OP : OpenPgp} `{HT : Http N} `{LO : !LambdaOps Lm}.
Abbreviation gw_ := (gw W N Lm).
Implicit Types (w : gw_).

(** Lambda was not spoken to, no key was looked up, no file changed. *)
Definition calm w w' : Prop :=
  lambda w' = lambda w /\ keys w' = keys w /\ fs (disk_of (outer w')) = fs (disk_of (outer w)).
#[export] Instance calm_preorder : PreOrder calm.
Proof. split; [done|]. intros w1 w2 w3 (? & ? & ?) (? & ? & ?). repeat split; congruence. Qed.
Definition failed {A : Type} (r : result fault A) : Prop := exists er, r = Err (Failed er).

(** What the three gates require of a transaction. *)
Definition unlimited (a : ambient) w (wallet_id : bytes) : Prop :=
  wallet_id = [] \/ (Admission.limit wallet_id (limiter_now a) (limiter_evict a) (limiter w)).1 = true.
Definition unbanned (g : Gateway (W := W)) w (tx : Transaction) : Prop :=
  exists s, (Admission.nabla_ban_file_lists (E := fault) (nabla_ban_list_path g)
    (Admission.nabla_ban_keys extract_security_level smt_bucket (tx_client_pk tx) (sender_wallet_id tx))
    (stats w) (disk_of (outer w))).1 = Ok (false, s).
Definition plausible (g : Gateway (W := W)) (tx : Transaction) : Prop :=
  sig_prefilter g = true -> client_sig tx <> [] -> tx_client_pk tx <> [] ->
  verify_ed25519 (tx_client_pk tx) (signing_message tx) (client_sig tx) = true.
Definition vetted g a w tx : Prop :=
  unlimited a w (sender_wallet_id tx) /\ unbanned g w tx /\ plausible g tx.

Lemma rate_gate_runs a wallet_id w :
  let '(r, w') := rate_gate a wallet_id w in calm w w' /\
  ((r = Ok tt /\ unlimited a w wallet_id /\ stats w' = stats w /\ outer w' = outer w) \/ failed r).
Proof.
  unfold rate_gate, unlimited. case_decide; [by repeat split; auto|].
  unfold get, modify, mbind, M_bind. destruct (Admission.limit _ _ _ _) as [[] l]; repeat split; auto.
  right. by eexists.
Qed.
Lemma read_file_calm p d : fs (read_file p d).2 = fs d.
Proof. apply read_file_cases. Qed.
Lemma ban_list_calm {E : Type} p ks s d :
  exists b s' d', Admission.nabla_ban_file_lists (E := E) p ks s d = (Ok (b, s'), d') /\ fs d' = fs d.
Proof.
  unfold Admission.nabla_ban_file_lists. destruct p as [p|]; [|by eexists _, _, _].
  unfold attempt, mbind, M_bind. pose proof (read_file_calm p d) as H. destruct (read_file p d) as [[c|er] d'].
  - by destruct (is_utf8 c); eexists _, _, _.
  - by eexists _, _, _.
Qed.
Lemma ban_gate_runs g tx w :
  let '(r, w') := ban_gate g tx w in calm w w' /\ ((r = Ok tt /\ unbanned g w tx) \/ failed r).
Proof.
  unfold ban_gate, unbanned. unfold get, modify, on_disk, zoom, mbind, M_bind.
  set (ks := Admission.nabla_ban_keys _ _ _ _).
  destruct (ban_list_calm (E := fault) (nabla_ban_list_path g) ks (stats w) (disk_of (outer w))) as (b & s & d & -> & Hd).
  destruct b; cbn; unfold calm; cbn; rewrite disk_set; repeat split; eauto. right. by eexists.
Qed.
Lemma sig_gate_runs g tx w :
  let '(r, w') := sig_gate g tx w in calm w w' /\ ((r = Ok tt /\ plausible g tx) \/ failed r).
Proof.
  unfold sig_gate. destruct (_ && negb (verify_ed25519 _ _ _)) eqn:E.
  { split; [done|]. right. by eexists. }
  split; [done|]. left. split; [done|].
  intros Hp Hs Hk. rewrite Hp, !bool_decide_false in E by done. cbn in E. by destruct (verify_ed25519 _ _ _).
Qed.

(** Core's prefilter let the request through with [v]. *)
Definition passed (q : WitnessRequest) (v : option ValidationOutput) : Prop := exists bundle,
  match validate_transaction_cl2 (transaction q) (claimed_balance_for_sabr q) (prev_receipts q)
          (overlapped_signatures q) bundle (subject_pubkey_ed25519 <$> bundle)
          (wq_sender_fact_chain q) (fact_certificates q) with
  | Ok x => accepted x = true /\ v = Some x
  | Err (Failed _) => v = None
  | Err _ => False
  end.
Definition turned_away (e : AntieEmail) (r : result fault ResponsePayload) : Prop :=
  failed r \/ r = Err (Exited 78) \/ exists v, accepted v = false /\ r = Ok (cl2_refusal (request_id e) v).
Lemma cl2_gate_runs g e q w :
  let '(r, w') := cl2_gate g e q w in calm w w' /\
  match r with
  | Ok (inr v) => passed q v
  | Ok (inl p) => turned_away e (Ok p)
  | Err f => f = Exited 78
  end.
Proof.
  unfold cl2_gate, on_disk, zoom, mbind, M_bind.
  assert (exists o d, load_vbc (E := fault) (vbc_path g) (disk_of (outer w)) = (Ok o, d) /\ fs d = fs (disk_of (outer w)))
    as (o & d & -> & Hd).
  { unfold load_vbc. destruct (vbc_path g) as [p|]; [|by eexists _, _]. unfold attempt, mbind, M_bind.
    pose proof (read_file_calm p (disk_of (outer w))) as H. destruct (read_file p _) as [[c|er] d']; by eexists _, _. }
  destruct (validate_transaction_cl2 _ _ _ _ _ _ _ _) as [x|[er|z|]] eqn:E; unfold calm; cbn; rewrite disk_set.
  - split; [done|]. destruct (accepted x) eqn:Ha.
    + exists o. by rewrite E.
    + right. right. eauto.
  - split; [done|]. exists o. by rewrite E.
  - split; [done|]. unfold validate_transaction_cl2, mbind, result_bind in E.
    destruct (execute _) as [out|]; [|done]. cbn in E. destruct (result_ out); congruence.
  - split; [done|]. unfold validate_transaction_cl2, mbind, result_bind in E.
    destruct (execute _) as [out|]; [|done]. cbn in E. destruct (result_ out); congruence.
Qed.

(** What follows the gates. *)
Definition asked g a (q : WitnessRequest) (v : option ValidationOutput) : M gw_ fault ResponsePayload :=
  resp ← track_lambda (ask_witness (with_cl2 v q));
  _ ← deliveries g a (transaction q) resp;
  mret (sender_leg resp).
(** How a request that stood [C] so far ends. *)
Definition settled g a e q w (C : Prop) (x : result fault ResponsePayload * gw_) : Prop :=
  (C /\ exists v w1, passed q v /\ calm w w1 /\ x = asked g a q v w1) \/ (calm w x.2 /\ turned_away e x.1).
Lemma core_settles g a e q w w0 (C : Prop) : calm w w0 -> C ->
  settled g a e q w C ((cl2 ← cl2_gate g e q;
    match cl2 with inl refused => mret refused | inr v => asked g a q v end) w0).
Proof.
  intros H0 HC. pose proof (cl2_gate_runs g e q w0) as H. unfold settled. cbv [mbind M_bind].
  destruct (cl2_gate g e q w0) as [[[p|v]|f] w1]; destruct H as [Hc H]; cbn.
  - right. split; [by etransitivity|done].
  - left. split; [done|]. exists v, w1. split; [done|]. split; [by etransitivity|done].
  - right. split; [by etransitivity|]. right. left. by subst.
Qed.
(** One gate more. *)
Lemma gate_settles (m : M gw_ fault unit) (k : M gw_ fault ResponsePayload) g a e q w w0 (C : Prop) (D : gw_ -> Prop) :
  calm w w0 ->
  (let '(r, w') := m w0 in calm w0 w' /\ ((r = Ok tt /\ D w') \/ failed r)) ->
  (forall w1, m w0 = (Ok tt, w1) -> calm w w1 -> D w1 -> settled g a e q w C (k w1)) ->
  settled g a e q w C ((_ ← m; k) w0).
Proof.
  intros H0 Hm Hk. unfold mbind, M_bind. destruct (m w0) as [r w1] eqn:E. destruct Hm as [Hc [[-> Hd]|[er ->]]].
  - apply Hk; [done| |done]. by etransitivity.
  - right. cbn. split; [by etransitivity|]. left. by eexists.
Qed.

(** C8: In the handler of witness requests, Lambda is asked only behind the gates
    (no other handler consults them).  Whatever a witness request brings, either it was decoded, stood the per-wallet limit, the ban file and,
    where enabled, the signature check, or carried an overlapped signature, which
    exempts it from all three whatever that signature is; and Core accepted it or
    could not run; then what Lambda is asked is the decoded request, with an empty
    id and an empty address filled in from the envelope and the two identifiers
    Core computed, nothing else changed.  Or it is turned away: an error, Core's
    refusal worded, or the end of the process on Core's fatal verdict; and then
    Lambda was not spoken to, no key was looked up and no file changed. *)
Theorem lambda_asked_behind_gates g a e w :
  (exists req v w1, decode_witness_request (raw_ump_body (payload e)) = Ok req /\
     let q := substitute_headers e req in
     (has_overlap q = true \/ vetted g a w (transaction q)) /\ passed q v /\ calm w w1 /\
     handle_witness_request g a e w = asked g a q v w1) \/
  (calm w (handle_witness_request g a e w).2 /\ turned_away e (handle_witness_request g a e w).1).
Proof.
  unfold handle_witness_request. destruct (decode_witness_request _) as [req|er].
  2:{ right. split; [done|]. left. by eexists. }
  set (q := substitute_headers e req).
  assert (settled g a e q w (has_overlap q = true \/ vetted g a w (transaction q))
    ((_ ← (if has_overlap q then mret tt else rate_gate a (sender_wallet_id (transaction q)));
      _ ← (if has_overlap q then mret tt else ban_gate g (transaction q));
      _ ← (if has_overlap q then mret tt else sig_gate g (transaction q));
      cl2 ← cl2_gate g e q;
      match cl2 with inl refused => mret refused | inr v => asked g a q v end) w))
    as [(Hv & v & w1 & Hp & Hc & E)|H]; [|left; by exists req, v, w1|by right].
  destruct (has_overlap q).
  { by apply core_settles; auto. }
  eapply (gate_settles _ _ _ _ _ _ _ _ _ (fun w1 => unlimited a w _ /\ stats w1 = stats w /\ outer w1 = outer w)); [done|exact (rate_gate_runs _ _ _)|]. intros w1 _ H1 (Hu & Es & Eo).
  eapply (gate_settles _ _ _ _ _ _ _ _ _ (fun _ => _)); [done|exact (ban_gate_runs _ _ _)|]. intros w2 _ H2 Hb.
  eapply (gate_settles _ _ _ _ _ _ _ _ _ (fun _ => _)); [done|exact (sig_gate_runs _ _ _)|]. intros w3 _ H3 Hs.
  apply core_settles; [done|]. right. unfold unbanned in Hb. rewrite Es, Eo in Hb. by repeat split.
Qed.
End gates.
End Gates.

(** ** The limiter's key *)
Module Starvation.
Import Gates.
Section starvation.
Context `{EC : ErrorsCrate} `{CV : CoreValues} `{CF : !CoreFns} `{EK : !EmailCrates}.
Context {W : Type} `{HD : HasDisk W} `{LD : !LawfulDisk W} {N Lm : Type} `{OP : OpenPgp} `{HT : Http N} `{LO : !LambdaOps Lm}.
Abbreviation gw_ := (gw W N Lm).

(** Only the rate gate writes the limiter. *)
Definition spares {E A : Type} (m : M gw_ E A) : Prop := forall w, limiter (m w).2 = limiter w.
Lemma spares_bind {E A B : Type} (m : M gw_ E A) (k : A -> M gw_ E B) :
  spares m -> (forall x, spares (k x)) -> spares (m ≫= k).
Proof.
  intros Hm Hk w. unfold mbind, M_bind. specialize (Hm w). destruct (m w) as [[x|f] w1]; [|done].
  cbn in Hm. rewrite <- Hm. apply Hk.
Qed.
Lemma spares_attempt {E F A : Type} (m : M gw_ E A) : spares m -> spares (E := F) (attempt m).
Proof. intros Hm w. unfold attempt. specialize (Hm w). by destruct (m w). Qed.
Lemma spares_recover {A : Type} (m : M gw_ fault A) : spares m -> spares (recover m).
Proof. intros Hm w. unfold recover. specialize (Hm w). by destruct (m w) as [[a|[e|z|]] w']. Qed.
Lemma spares_lambda {A : Type} (m : M Lm fault A) : spares (on_lambda m).
Proof. intros w. unfold on_lambda, zoom. by destruct (m _). Qed.
Lemma spares_disk {E A : Type} (m : M world E A) : spares (on_disk m).
Proof. intros w. unfold on_disk, zoom. by destruct (m _). Qed.
Lemma spares_outer {A : Type} (m : M W AntieError A) : spares (on_outer m).
Proof. intros w. unfold on_outer, failing_only, with_err, zoom. by destruct (m _). Qed.
Ltac spare :=
  repeat first
    [ exact (fun w => eq_refl)
    | lazymatch goal with
      | |- spares (_ ≫= _) => apply spares_bind; [|intros ?]
      | |- spares (attempt _) => apply spares_attempt
      | |- spares (recover _) => apply spares_recover
      | |- spares (on_lambda _) => apply spares_lambda
      | |- spares (on_disk _) => apply spares_disk
      | |- spares (on_outer _) => apply spares_outer
      | |- spares (let '(_, _) := ?x in _) => destruct x
      | |- spares (match ?x with _ => _ end) => destruct x
      end ].
Lemma spares_asked g a q v : spares (asked g a q v).
Proof.
  unfold asked, track_lambda, deliveries, deliver_cheque, deliver_certificate, deliver_scar_consent,
    dispatch_peer_audit, place_cheque, receiver_email, encrypt_for, pickup_deposit, divert, mail_out,
    delivery_update, count_care_of_default, when_some. spare.
Qed.
(** A decoded request, past the rate gate. *)
Definition rest g a e (req : WitnessRequest) : M gw_ fault ResponsePayload :=
  let q := substitute_headers e req in
  _ ← (if has_overlap req then mret tt else ban_gate g (transaction req));
  _ ← (if has_overlap req then mret tt else sig_gate g (transaction req));
  cl2 ← cl2_gate g e q;
  match cl2 with inl refused => mret refused | inr v => asked g a q v end.
Lemma spares_rest g a e req : spares (rest g a e req).
Proof. unfold rest, ban_gate, sig_gate, cl2_gate. spare. apply spares_asked. Qed.
Lemma decoded_runs g a e req w : decode_witness_request (raw_ump_body (payload e)) = Ok req ->
  has_overlap req = false ->
  handle_witness_request g a e w = (rate_gate a (sender_wallet_id (transaction req)) ≫= fun _ => rest g a e req) w.
Proof.
  intros D Ho. unfold handle_witness_request, rest. rewrite D, <- Ho.
  change (has_overlap req) with (has_overlap (substitute_headers e req)) at 2 3.
  unfold lift, map_err, mbind at 1, M_bind at 1. cbn beta iota zeta.
  change (has_overlap (substitute_headers e req)) with (has_overlap req). by rewrite Ho.
Qed.

Lemma limit_records id now now' l :
  (Admission.limit id now now' l).1 = true -> now' - now < 2 * Admission.cooldown l ->
  Admission.last_request (Admission.limit id now now' l).2 !! id = Some now /\
  Admission.cooldown (Admission.limit id now now' l).2 = Admission.cooldown l.
Proof.
  intros H Hn. unfold Admission.limit in *.
  assert (forall l', Admission.check_and_record id now l = (true, l') ->
    Admission.last_request l' !! id = Some now /\ Admission.cooldown l' = Admission.cooldown l) as R.
  { intros l'. unfold Admission.check_and_record. destruct (Admission.last_request l !! id) as [t|]; [destruct (_ <? _); [done|]|];
      intros [= <-]; (split; [apply lookup_insert_eq|done]). }
  destruct (Admission.check_and_record id now l) as [[] l']; [|done]. cbn [negb] in *.
  destruct (R l' eq_refl) as [R1 R2]. case_match; cbn; [|done]. split; [|done].
  apply map_lookup_filter_Some. split; [done|]. cbn. rewrite R2. lia.
Qed.

(** The limiter can be turned against a wallet.  It is charged, under the
    sender id a request claims, before anything about the request is checked.  So
    when a request claiming a wallet passes the limit, whatever then becomes of it
    - banned, forged, refused by Core or Lambda - any request of that wallet in
    the following cooldown is refused as rate limited, without Lambda being
    asked. *)
Theorem forged_request_starves_wallet g a a' e e' req req' (w : gw_) :
  decode_witness_request (raw_ump_body (payload e)) = Ok req ->
  decode_witness_request (raw_ump_body (payload e')) = Ok req' ->
  sender_wallet_id (transaction req') = sender_wallet_id (transaction req) ->
  sender_wallet_id (transaction req) <> [] ->
  has_overlap req = false -> has_overlap req' = false ->
  unlimited a w (sender_wallet_id (transaction req)) ->
  limiter_evict a - limiter_now a < 2 * Admission.cooldown (limiter w) ->
  0 < Admission.cooldown (limiter w) ->
  limiter_now a' - limiter_now a < Admission.cooldown (limiter w) ->
  let w1 := (handle_witness_request g a e w).2 in
  exists why w2, handle_witness_request g a' e' w1 = (Err (Failed (RateLimited why)), w2) /\ calm w1 w2.
Proof.
  intros D D' Hid Hne Ho Ho' [?|Hu] Hev Hcd Hnow w1; [done|].
  destruct (limit_records _ _ _ _ Hu Hev) as [R1 R2].
  assert (limiter w1 = (Admission.limit (sender_wallet_id (transaction req)) (limiter_now a) (limiter_evict a) (limiter w)).2) as El.
  { unfold w1. rewrite (decoded_runs _ _ _ req) by done. pose proof (spares_rest g a e req) as S.
    unfold rate_gate. rewrite decide_False by done. unfold get, modify. cbv [mbind M_bind].
    destruct (Admission.limit _ _ _ _) as [b l] eqn:L. cbn in Hu. subst b. exact (S (with_limiter l w)). }
  rewrite (decoded_runs _ _ _ req') by done. unfold rate_gate. rewrite Hid, decide_False by done.
  rewrite <- El in R1, R2. unfold get, modify, bump, on_stats, refuse, throw. cbv [mbind M_bind].
  unfold Admission.limit, Admission.check_and_record. rewrite R1.
  replace (sat_sub (limiter_now a') (limiter_now a) <? Admission.cooldown (limiter w1)) with true
    by (symmetry; apply Z.ltb_lt; unfold sat_sub; lia).
  eexists _, _. split; [reflexivity|]. by repeat split.
Qed.
End starvation.
End Starvation.

(** *** A Core that decodes one request, a Lambda that logs and fails *)
Module Trial.
Import Gates.
#[local] Existing Instance Inbox.logged_disk.
Definition deciding (req : WitnessRequest (CV := ex_values)) : CoreFns (EC := ex_errors) (CV := ex_values) :=
  ex_fns (@sender_leg _ _ Exchange.ex_core) (fun _ => Err $"no core") (fun _ => Ok $"REQUEST")
    (fun b => Ok (OtherResponse (b : @Datum ex_values))) (fun _ => Ok req).
Definition hearing : LambdaOps (EC := ex_errors) (CV := ex_values) (list (WitnessRequest (CV := ex_values))) :=
  let e := Failed (LambdaError $"down") in
  {| ask_witness := fun q l => (Err e, l ++ [q]); ask_redeem := fun _ => throw e; ask_ack := fun _ => throw e;
     ask_genesis := fun _ _ _ _ _ => throw e; ask_query := fun _ _ => throw e; ask_status := fun _ => throw e;
     ask_vbc_sign := fun _ => throw e; ask_vbc_commit := fun _ => throw e; ask_auth_hash := fun _ _ _ => throw e;
     ask_audit := fun _ _ => throw e; tell_dispatch_failed := fun _ _ _ => throw e;
     tell_not_held := fun _ _ => throw e; tell_audit_response := fun _ _ => throw e |}.
Definition request_with (sigs : list bytes) : WitnessRequest (CV := ex_values) :=
  Build_WitnessRequest (CV := ex_values) [] []
    (Build_Transaction (CV := ex_values) $"s@axiom/aa" $"r@axiom/bb" None $"PK" $"bad" $"T1")
    0 [] sigs None [] None None [].
Definition ex_hearing : gw Inbox.logged unit (list (WitnessRequest (CV := ex_values))) :=
  Sessions.ex_world ((Inbox.ex_empty, []) : Inbox.logged) tt [] (Stats.stats_new 0).
Lemma lawful_logged : LawfulDisk Inbox.logged.
Proof. by intros d []. Qed.
Definition handle (sigs : list bytes) := handle_witness_request (EC := ex_errors) (CF := deciding (request_with sigs)) (EK := Building.ex_crates)
  (OP := Inbox.ex_pgp) (HT := Inbox.offline) (LO := hearing) (Sessions.ex_gateway 0 (Inbox.logging []))
  Sessions.ex_ambient Sessions.ex_email.

Lemma lambda_asked_behind_gates_witness :
  exists v, length (lambda (handle [] ex_hearing).2) = 1%nat /\
  passed (CF := deciding (request_with [])) (substitute_headers Sessions.ex_email (request_with [])) v /\
  vetted (EC := ex_errors) (CF := deciding (request_with [])) (W := Inbox.logged) (HD := Inbox.logged_disk)
    (Sessions.ex_gateway 0 (Inbox.logging [])) Sessions.ex_ambient ex_hearing (transaction (request_with [])).
Proof.
  assert (length (lambda (handle [] ex_hearing).2) = 1%nat) as Hl by (vm_compute; reflexivity).
  destruct (lambda_asked_behind_gates (EC := ex_errors) (CF := deciding (request_with [])) (EK := Building.ex_crates)
    (LD := lawful_logged) (OP := Inbox.ex_pgp) (HT := Inbox.offline) (LO := hearing)
    (Sessions.ex_gateway 0 (Inbox.logging [])) Sessions.ex_ambient Sessions.ex_email ex_hearing)
    as [(req & v & w1 & D & Hv & Hp & _)|[(E & _) _]].
  - injection D as <-. exists v. split; [exact Hl|]. split; [exact Hp|]. destruct Hv as [Hv|Hv]; [discriminate|exact Hv].
  - exfalso. fold (handle []) in E. rewrite E in Hl. discriminate.
Defined.

Lemma forged_request_starves_wallet_witness :
  exists why w2, handle [] (handle [] ex_hearing).2 = (Err (Failed (RateLimited why)), w2) /\
    calm (HD := Inbox.logged_disk) (handle [] ex_hearing).2 w2.
Proof.
  refine (Starvation.forged_request_starves_wallet (EC := ex_errors) (CF := deciding (request_with []))
    (EK := Building.ex_crates) (OP := Inbox.ex_pgp) (HT := Inbox.offline) (LO := hearing)
    (Sessions.ex_gateway 0 (Inbox.logging [])) Sessions.ex_ambient Sessions.ex_ambient Sessions.ex_email Sessions.ex_email
    (request_with []) (request_with []) ex_hearing _ _ _ _ _ _ _ _ _ _); try reflexivity; [discriminate|].
  right. vm_compute. reflexivity.
Defined.
End Trial.
