(* ===== verification/Loops.v ===== *)
(** * The carrier loops and the background tasks: the rest of [gateway.rs]

    One iteration of a loop is a function of what it reads from outside (clocks,
    events); a loop runs over the list of what its iterations read, and ends when
    the gateway stops running (the list ends) or by itself. *)
From S2P Require Import Prelude Utf8 Fs Errors CoreTypes Config Sinks Carriers Stats Pull Lambda Pgp Email Gateway.
Import Errors.

Module Loops.

Definition DISPATCH_MAX_SILENCE_SECS : Z := 600.
Definition PULL_MAX_SILENCE_SECS : Z := 900.

(** ** Pull loops *)
Section pulls.
Import Pull.
Context `{EC : ErrorsCrate} {W : Type}.
Abbreviation G A := (M (funnel W) AntieError A).

(** What an iteration reads: the clock at its start and after the fetch, and the
    clocks and stamp of every message. *)
Record round : Type := { began : Z; fetched_at : Z; per : nat -> tick }.
Definition beat (hb : nat) (now : Z) : G unit := on_stats (Stats.beat hb now).
Definition note (failures : Z) (reached : bool) : G Z :=
  f ← get;
  let '(n, s) := Stats.note_carrier_attempt failures reached (stats f) in
  _ ← on_stats (fun _ => s);
  mret n.
(** The waits after each iteration. *)
Fixpoint pull_loop (c : MailCarrier W) (inbox : Maildir.Maildir) (spam : bytes -> bool) (hb : nat)
    (poll_interval : Z) (rounds : list round) (failures : Z) : G (list Z) :=
  match rounds with
  | [] => mret []
  | r :: rounds' =>
      '(failures, wait) ← pull_turn c inbox spam hb (began r) (per r) poll_interval failures;
      waits ← pull_loop c inbox spam hb poll_interval rounds' failures;
      mret (wait :: waits)
  end.
Definition poll_interval (a : Config.AntieConfig) : Z := Config.poll_interval_ms a * MILLIS.
Definition run_polling_loop (a : Config.AntieConfig) (c : MailCarrier W) (spam : bytes -> bool) (hb : nat)
    (rounds : list round) : G (list Z) :=
  match Config.maildir (Config.carriers a) with
  | None => throw (ConfigError (carrier_name c ++ $" carrier requires [carriers.maildir] as the delivery target — pop3/imap fetch into inbox/new/, they do not dispatch directly"))
  | Some md =>
      inbox ← on_disk (Maildir.open (Config.inbox md));
      pull_loop c inbox spam hb (poll_interval a) rounds 0
  end.
Definition no_spam (raw : bytes) : bool := false.

(** *** IMAP: IDLE first, polling when the server does not have it *)
Inductive imap_next : Type := Again (failures wait : Z) | FallBack.
Definition imap_turn (c : MailCarrier W) (idle : M W AntieError bool) (inbox : Maildir.Maildir) (hb : nat)
    (retry : Z) (r : round) (failures : Z) : G imap_next :=
  _ ← beat hb (began r);
  fetched ← deliver_carrier_messages c inbox no_spam (Some hb) (per r);
  _ ← beat hb (fetched_at r);
  saw_mail ← attempt (on_far idle);
  match saw_mail with
  | Ok _ => n ← note failures true; mret (Again n 0)
  | Err e =>
      if contains $"IdleNotSupported" (display e) then mret FallBack
      else
        failures ← (if (fetched : bool) then note failures true else mret failures);
        failures ← note failures false;
        mret (Again failures (carrier_backoff retry failures))
  end.
Fixpoint imap_loop (a : Config.AntieConfig) (c : MailCarrier W) (idle : M W AntieError bool)
    (inbox : Maildir.Maildir) (hb : nat) (rounds : list round) (failures : Z) : G (list Z) :=
  match rounds with
  | [] => mret []
  | r :: rounds' =>
      next ← imap_turn c idle inbox hb (poll_interval a) r failures;
      match next with
      | Again failures wait =>
          waits ← imap_loop a c idle inbox hb rounds' failures; mret (wait :: waits)
      | FallBack => run_polling_loop a c no_spam hb rounds'
      end
  end.
(** Registered when the task starts; the handle is the loop's position. *)
Definition register (name : bytes) (now : Z) : G nat :=
  f ← get;
  _ ← on_stats (Stats.register_heartbeat name PULL_MAX_SILENCE_SECS now);
  mret (length (Stats.heartbeats (stats f))).
Definition account (kind : bytes) (idx : nat) (username server : bytes) : bytes :=
  kind ++ $"#" ++ show_N (N.of_nat idx) ++ $"(" ++ username ++ $"@" ++ server ++ $")".
End pulls.

Section accounts.
Import Pull.
Context `{EC : ErrorsCrate} {P : Type} `{PP : Io.Peer P}.
Definition imap_carrier_of (cfg : Config.ImapConfig) : Imap.ImapCarrier := {|
  Imap.server := Config.imap_server cfg; Imap.port := Config.imap_port cfg;
  Imap.username := Config.imap_username cfg; Imap.password := Config.imap_password cfg;
  Imap.use_tls := Config.imap_use_tls cfg; Imap.inbox_folder := Config.inbox_folder cfg |}.
Definition run_imap_carrier (a : Config.AntieConfig) (cfg : Config.ImapConfig) (idx : nat) (now : Z)
    (rounds : list round) : M (funnel (Imap.imap P)) AntieError (list Z) :=
  let c := imap_carrier_of cfg in
  hb ← register (account $"imap" idx (Config.imap_username cfg) (Config.imap_server cfg)) now;
  if negb (Config.use_idle cfg) then run_polling_loop a (Imap.carrier c) no_spam hb rounds
  else
    match Config.maildir (Config.carriers a) with
    | None => throw (ConfigError $"imap carrier requires [carriers.maildir] as the delivery target")
    | Some md =>
        inbox ← on_disk (Maildir.open (Config.inbox md));
        imap_loop a (Imap.carrier c) (Imap.idle_wait c) inbox hb rounds 0
    end.
(** [F32] and the functions on it: see [Pull.is_spam]. *)
Context {F32 : Type} (f32_of_bits : Z -> F32) (f32_ltb : F32 -> F32 -> bool) (f32_eight : F32)
  (shannon : list Z -> F32).
Definition pop3_carrier_of (cfg : Config.Pop3Config) : Pop3.Pop3Carrier := {|
  Pop3.server := Config.pop3_server cfg; Pop3.port := Config.pop3_port cfg;
  Pop3.username := Config.pop3_username cfg; Pop3.password := Config.pop3_password cfg;
  Pop3.use_tls := Config.pop3_use_tls cfg |}.
Definition run_pop3_carrier (a : Config.AntieConfig) (cfg : Config.Pop3Config) (idx : nat) (now : Z)
    (rounds : list round) : M (funnel (Io.net P)) AntieError (list Z) :=
  hb ← register (account $"pop3" idx (Config.pop3_username cfg) (Config.pop3_server cfg)) now;
  run_polling_loop a (Pop3.carrier (pop3_carrier_of cfg))
    (is_spam f32_ltb f32_eight shannon (f32_of_bits <$> Config.spam_entropy_threshold cfg)) hb rounds.
End accounts.

(** ** The dispatch loop *)
Section dispatching.
Import Gateway.
Context `{EC : ErrorsCrate} `{CV : CoreValues} `{CF : !CoreFns} `{EK : !EmailCrates}.
Context {W : Type} `{HD : HasDisk W} {N Lm : Type}.
Abbreviation D A := (M (gw W N Lm) fault A).

(** A carrier of the disk, as a carrier of the world that holds it. *)
Definition on_the_disk {A : Type} (m : M world AntieError A) : M W AntieError A := zoom disk_of set_disk m.
Definition lift_carrier (c : MailCarrier world) : MailCarrier W := {|
  carrier_name := carrier_name c;
  check_new := on_the_disk (check_new c);
  mark_processed := fun i => on_the_disk (mark_processed c i);
  mark_failed := fun i why => on_the_disk (mark_failed c i why);
  send := fun to_ m => on_the_disk (send c to_ m) |}.
(** A pass over the inbox: the wall clock, and what handling each message reads. *)
Record pass : Type := { at_ : Z; reads : nat -> ambient }.
(** What 500 ms of waiting for the watcher give. *)
Inductive woken : Type := Changed | Quiet | Closed.
Record turn : Type := { now : Z; event : woken; first_pass : pass; second_pass : pass }.
Definition one_pass (g : Gateway (W := W)) (h : Handlers (N := N) (Lm := Lm)) (c : MailCarrier W) (hb : nat) (p : pass) : D unit :=
  process_carrier_messages g h c (Some hb) (at_ p) (reads p).
Fixpoint maildir_loop (g : Gateway) (h : Handlers) (c : MailCarrier W) (hb : nat) (turns : list turn) : D unit :=
  match turns with
  | [] => mret tt
  | t :: turns' =>
      _ ← Gateway.on_stats (Stats.beat hb (now t));
      match event t with
      | Closed => mret tt
      | Changed | Quiet =>
          _ ← one_pass g h c hb (first_pass t);
          _ ← one_pass g h c hb (second_pass t);
          maildir_loop g h c hb turns'
      end
  end.
(** [s]: the stamp a message sent through this carrier would get; none is. *)
Definition run_maildir_carrier (g : Gateway) (h : Handlers) (cfg : Config.MaildirConfig) (s : Local.stamp)
    (started : Z) (p0 : pass) (turns : list turn) : D unit :=
  c ← failing_only (Gateway.on_disk (Local.new (Config.inbox cfg) (Config.md_outbox cfg)));
  w ← get;
  let hb := length (Stats.heartbeats (Gateway.stats w)) in
  _ ← Gateway.on_stats (Stats.register_heartbeat $"dispatch" DISPATCH_MAX_SILENCE_SECS started);
  _ ← one_pass g h (lift_carrier (Local.carrier c s)) hb p0;
  maildir_loop g h (lift_carrier (Local.carrier c s)) hb turns.
End dispatching.

(** ** Background tasks: one tick each *)
Section ticks.
Context `{EC : ErrorsCrate}.
(** What a GET of Lambda's /stats gives: no answer, or a status and a body. *)
Inductive polled : Type := Silent (e : bytes) | Replied (ok : bool) (status : bytes) (body : result bytes bytes).
Definition stats_url (admin_port : Z) (admin_token : option bytes) : bytes :=
  let url := $"http://127.0.0.1:" ++ show_Z admin_port ++ $"/stats" in
  match admin_token with Some token => url ++ $"?token=" ++ token | None => url end.
Definition poll_outcome (p : polled) : result bytes Z :=
  match p with
  | Replied ok status (Ok text) =>
      if ok then match Admission.parse_avg_witness_ms text with
                 | Some v => Ok v
                 | None => Err ($"HTTP " ++ status ++ $" without avg_witness_ms")
                 end
      else Err ($"HTTP " ++ status)
  | Replied _ status (Err e) => Err ($"HTTP " ++ status ++ $", body unreadable: " ++ e)
  | Silent e => Err ($"unreachable: " ++ e)
  end.
Definition poll_lambda_stats (p : polled) (s : Stats.AntieStats) : option bytes * Stats.AntieStats :=
  Admission.record_stats_poll (poll_outcome p) s.

(** [metadata(p).modified()] of a regular file, in seconds since the epoch. *)
Context (modified : world -> path -> option Z).
Definition oldest_mtime_unix (dir : path) : M world io_error (option Z) :=
  r ← attempt (E := io_error) (read_dir dir);
  w ← get;
  mret (match r with
        | Ok names =>
            match omap (fun n => modified w (join dir n)) names with
            | [] => None
            | t :: ts => Some (foldr Z.min t ts)
            end
        | Err _ => None
        end).
Definition scan_tick (new_dir : path) (now_unix : Z) (s : Stats.AntieStats) : M world io_error Stats.AntieStats :=
  oldest ← oldest_mtime_unix new_dir;
  mret (Stats.store Stats.inbox_scan_unix now_unix
          (Stats.store Stats.inbox_oldest_unprocessed_mtime_unix (unwrap_or 0 oldest) s)).
Definition skipped_tick (sl : SkipList.SkipList) (s : Stats.AntieStats) : M world AntieError Stats.AntieStats :=
  count ← SkipList.skipped_dir_count sl;
  mret (Stats.store Stats.skipped_dir_count (wrap 64 (Z.of_nat count)) s).
(** The stall watchdog's tick: what it reports, remembers, and exits with. *)
Definition watchdog_tick (s : Stats.AntieStats) (alive : bool) (mono_now : Z) (policy : Config.OnStall)
    (reported : list bytes) : list bytes * list bytes * option Z :=
  Health.stall_watchdog_tick (Health.verdict_at s alive mono_now) policy reported.
End ticks.
End Loops.
