(* ===== verification/LoopTheorems.v ===== *)
(** * The theorems on the carrier loops and the background tasks *)
From S2P Require Import Prelude Utf8 Fs Errors CoreTypes Config Sinks Carriers Stats StatsTheorems Pull Lambda Pgp Email Gateway Loops.
Import Errors.

(** ** The fallback from IDLE to polling *)
Module Fallback.
Import Pull Loops.
Section fallback.
Context `{EC : ErrorsCrate} {W : Type}.
Abbreviation gauge st := (Stats.value (stats (W := W) st) Stats.carriers_in_backoff).

(** Steps that leave the back-off gauge alone. *)
Definition steady {A : Type} (m : M (funnel W) AntieError A) : Prop := forall st, gauge (m st).2 = gauge st.
Lemma steady_bind {A B : Type} (m : M (funnel W) AntieError A) (k : A -> M (funnel W) AntieError B) :
  steady m -> (forall x, steady (k x)) -> steady (m ≫= k).
Proof.
  intros Hm Hk st. unfold mbind, M_bind. specialize (Hm st). destruct (m st) as [[x|e] st1]; [|done].
  cbn in Hm. rewrite <- Hm. apply Hk.
Qed.
Lemma steady_ret {A : Type} (x : A) : steady (mret x).
Proof. done. Qed.
Lemma steady_attempt {A : Type} (m : M (funnel W) AntieError A) : steady m -> steady (attempt m).
Proof. intros Hm st. unfold attempt. specialize (Hm st). by destruct (m st). Qed.
Lemma steady_disk {A : Type} (m : M world AntieError A) : steady (on_disk m).
Proof. intros st. unfold on_disk, zoom. by destruct (m _). Qed.
Lemma steady_far {A : Type} (m : M W AntieError A) : steady (on_far m).
Proof. intros st. unfold on_far, zoom. by destruct (m _). Qed.
Lemma steady_beat hb now : steady (beat hb now).
Proof. done. Qed.
Lemma steady_deliver_one c inbox spam hb t msg : steady (deliver_one c inbox spam hb t msg).
Proof.
  unfold deliver_one. apply steady_bind; [by destruct hb|intros _]. destruct (spam _).
  - apply steady_bind; [apply steady_attempt, steady_far|intros; apply steady_ret].
  - apply steady_bind; [apply steady_attempt, steady_disk|]. intros [p|e].
    + apply steady_bind; [done|intros _]. apply steady_bind; [apply steady_attempt, steady_far|intros; apply steady_ret].
    + apply steady_bind; [apply steady_attempt, steady_far|intros; apply steady_ret].
Qed.
Lemma steady_deliver c inbox spam hb env : steady (deliver_carrier_messages c inbox spam hb env).
Proof.
  apply steady_bind; [apply steady_attempt, steady_far|]. intros [ms|e]; [|apply steady_ret].
  apply steady_bind; [|intros; apply steady_ret]. generalize 0%nat.
  induction ms as [|m ms IH]; intros k; cbn [deliver_each]; [apply steady_ret|].
  apply steady_bind; [apply steady_deliver_one|intros _; apply IH].
Qed.

(** A server that answers. *)
Definition answers (c : MailCarrier W) : Prop := forall w, is_ok (check_new c w).1 = true.
Lemma deliver_reaches c inbox spam hb env st : answers c ->
  match (deliver_carrier_messages c inbox spam hb env st).1 with Ok b => b = true | Err _ => True end.
Proof.
  intros Hc. unfold deliver_carrier_messages, mbind, M_bind, attempt, on_far, zoom.
  specialize (Hc (far st)). destruct (check_new c (far st)) as [[ms|e] w]; [|done].
  by destruct (deliver_each _ _ _ _ _ _ _ _) as [[]].
Qed.
Lemma pull_turn_steady c inbox spam hb now env pi st : answers c ->
  let '(r, st') := pull_turn c inbox spam hb now env pi 0 st in
  gauge st' = gauge st /\ match r with Ok (n, wait) => n = 0 | Err _ => True end.
Proof.
  intros Hc. unfold pull_turn, mbind, M_bind. set (st1 := (on_stats (Stats.beat hb now) st).2).
  change (on_stats (Stats.beat hb now) st) with (Ok (E := AntieError) tt, st1). cbv beta iota.
  pose proof (deliver_reaches c inbox spam (Some hb) env st1 Hc) as Hr.
  pose proof (steady_deliver c inbox spam (Some hb) env st1) as Hg.
  destruct (deliver_carrier_messages _ _ _ _ _ st1) as [[b|e] st2]; cbn in Hr; [subst b|done]. by split.
Qed.
Lemma pull_loop_steady c inbox spam hb pi rounds : answers c ->
  steady (pull_loop c inbox spam hb pi rounds 0).
Proof.
  intros Hc. induction rounds as [|r rounds IH]; [done|]. intros st. cbn [pull_loop]. unfold mbind at 1, M_bind at 1.
  pose proof (pull_turn_steady c inbox spam hb (began r) (per r) pi st Hc) as H.
  destruct (pull_turn _ _ _ _ _ _ _ _ st) as [[[n wait]|e] st1]; destruct H as [Hg H]; [subst n|done].
  rewrite <- Hg. apply (steady_bind _ _ IH). intros; apply steady_ret.
Qed.

(** How the wait for mail ends. *)
Definition unsupported (idle : M W AntieError bool) : Prop :=
  forall w, exists e, (idle w).1 = Err e /\ contains $"IdleNotSupported" (display e) = true.
(** The second half of a turn whose fetch reached the server. *)
Definition wait_for_mail (idle : M W AntieError bool) (retry failures : Z) : M (funnel W) AntieError imap_next :=
  saw_mail ← attempt (on_far idle);
  match saw_mail with
  | Ok _ => n ← note failures true; mret (Again n 0)
  | Err e =>
      if contains $"IdleNotSupported" (display e) then mret FallBack
      else failures ← note failures true; failures ← note failures false;
           mret (Again failures (carrier_backoff retry failures))
  end.
Lemma turn_waits c idle inbox hb retry r failures st : answers c -> exists st1, gauge st1 = gauge st /\
  ((exists e, imap_turn c idle inbox hb retry r failures st = (Err e, st1)) \/
   imap_turn c idle inbox hb retry r failures st = wait_for_mail idle retry failures st1).
Proof.
  intros Hc. unfold imap_turn, mbind, M_bind. set (st1 := (beat hb (began r) st).2).
  change (beat hb (began r) st) with (Ok (E := AntieError) tt, st1). cbv beta iota.
  pose proof (deliver_reaches c inbox no_spam (Some hb) (per r) st1 Hc) as Hr.
  pose proof (steady_deliver c inbox no_spam (Some hb) (per r) st1) as Hg.
  destruct (deliver_carrier_messages _ _ _ _ _ st1) as [[b|e] st2]; cbn in Hr; [subst b|].
  - exists (beat hb (fetched_at r) st2).2. split; [exact Hg|]. by right.
  - exists st2. split; [exact Hg|]. left. by exists e.
Qed.
Lemma wait_unsupported idle retry failures st : unsupported idle ->
  exists st1, wait_for_mail idle retry failures st = (Ok FallBack, st1) /\ gauge st1 = gauge st.
Proof.
  intros Hu. unfold wait_for_mail, mbind, M_bind, attempt, on_far, zoom. destruct (Hu (far st)) as (e & He & Hn).
  destruct (idle (far st)) as [[] w]; [done|]. cbn in He. injection He as ->. rewrite Hn. by eexists.
Qed.
Lemma polling_steady a c spam hb rounds : answers c -> steady (run_polling_loop a c spam hb rounds).
Proof.
  intros Hc. unfold run_polling_loop. destruct (Config.maildir _) as [md|]; [|done].
  apply steady_bind; [apply steady_disk|]. intros. by apply pull_loop_steady.
Qed.

(** The fallback forgets the streak.  While an account's IDLE loop is failing,
    the back-off gauge counts it, and the next wait that succeeds takes it off the
    gauge.  But when the server then turns out not to have IDLE, the loop goes over
    to polling with a new streak and nothing takes it off: however many polls in a
    row succeed, the gauge stays as it was, and the health body reports a carrier
    in back-off that is healthy. *)
Theorem idle_fallback_leaks_backoff a c idle inbox hb r rounds failures st :
  0 < failures -> answers c ->
  (unsupported idle ->
     gauge (imap_loop a c idle inbox hb (r :: rounds) failures st).2 = gauge st) /\
  ((forall w, is_ok (idle w).1 = true) ->
     forall x st', imap_turn c idle inbox hb (poll_interval a) r failures st = (Ok x, st') ->
     x = Again 0 0 /\ gauge st' = wrap 64 (gauge st - 1)).
Proof.
  intros Hf Hc. split.
  - intros Hu. cbn [imap_loop]. unfold mbind at 1, M_bind at 1.
    destruct (turn_waits c idle inbox hb (poll_interval a) r failures st Hc) as (st1 & <- & [[e E] | E]); rewrite E; [done|].
    destruct (wait_unsupported idle (poll_interval a) failures st1 Hu) as (st2 & -> & <-). by apply polling_steady.
  - intros Hi x st'.
    destruct (turn_waits c idle inbox hb (poll_interval a) r failures st Hc) as (st1 & <- & [[e E] | E]); rewrite E; [done|].
    unfold wait_for_mail, mbind, M_bind, attempt, on_far, zoom. specialize (Hi (far st1)).
    destruct (idle (far st1)) as [[b|] w]; [|done]. unfold note, get, mbind, M_bind. cbn [Pull.stats].
    destruct (Gauges.note_recovered failures (stats st1) Hf) as (s' & -> & Hg & _). cbn. by intros [= <- <-].
Qed.
End fallback.

(** A server that is refused once, then has no IDLE; its mailbox is empty. *)
Definition flaky_box : MailCarrier (EC := ex_errors) nat := {|
  carrier_name := $"imap"; check_new := mret []; mark_processed := fun _ => mret tt;
  mark_failed := fun _ _ => mret tt; send := fun _ _ => mret tt |}.
Definition idle_once (n : nat) : result (AntieError (EC := ex_errors)) bool * nat :=
  (Err (ConfigError (if n then $"timed out" else $"IdleNotSupported: x:993 does not advertise IDLE")), S n).
Definition idle_never (n : nat) : result (AntieError (EC := ex_errors)) bool * nat :=
  (Err (ConfigError $"IdleNotSupported: x:993 does not advertise IDLE"), n).
Definition ex_round : round :=
  {| began := 1; fetched_at := 2; per := fun _ => {| wall := 3; mono := 4; stamp_of := {| Local.micros := 1; Local.pid := 1; Local.uuid := [] |} |} |}.
Definition ex_funnel (v : Z) : funnel nat :=
  Funnel {| fs := {[ [$"in"] := Dir; [$"in"; $"new"] := Dir; [$"in"; $"cur"] := Dir; [$"in"; $"tmp"] := Dir ]};
            oracle := []; hist := []; listing := fun l => l |} 0%nat
    (Stats.store Stats.carriers_in_backoff v (Stats.stats_new 0)).
Lemma idle_fallback_leaks_backoff_witness :
  let run n := imap_loop (EC := ex_errors) Config.antie_default flaky_box idle_never
    {| Maildir.base := [$"in"]; Maildir.new_dir := [$"in"; $"new"]; Maildir.cur_dir := [$"in"; $"cur"];
       Maildir.tmp_dir := [$"in"; $"tmp"] |} 0 (ex_round :: replicate n ex_round) 1 (ex_funnel 1) in
  Stats.value (stats (run 5%nat).2) Stats.carriers_in_backoff = 1 /\
  match (run 5%nat).1 with Ok waits => length waits = 5%nat | Err _ => False end.
Proof.
  intros run. split; [|vm_compute; reflexivity].
  refine (proj1 (idle_fallback_leaks_backoff (EC := ex_errors) Config.antie_default flaky_box idle_never _ 0 ex_round
    (replicate 5 ex_round) 1 (ex_funnel 1) eq_refl _) _).
  - intros w. reflexivity.
  - intros w. exists (ConfigError $"IdleNotSupported: x:993 does not advertise IDLE"). split; [reflexivity|].
    vm_compute. reflexivity.
Defined.
End Fallback.

(** ** Polling Lambda's load *)
Module Load.
Import Loops.
Definition polls (ps : list polled) (s : Stats.AntieStats) : Stats.AntieStats :=
  foldl (fun s p => (poll_lambda_stats p s).2) s ps.
Definition fails (p : polled) : Prop := exists e, poll_outcome p = Err e.

Lemma poll_failed p s : fails p -> exists why,
  poll_lambda_stats p s = (why, Stats.bump Stats.lambda_stats_poll_failures s).
Proof. intros [e E]. unfold poll_lambda_stats. rewrite E. by eexists. Qed.
Lemma polls_failed ps : forall s, Forall fails ps ->
  Stats.value (polls ps s) Stats.avg_witness_ms = Stats.value s Stats.avg_witness_ms.
Proof.
  induction ps as [|p ps IH]; intros s F; [done|]. apply Forall_cons in F as [Hp F]. cbn [polls foldl].
  destruct (poll_failed p s Hp) as (why & ->). cbn [snd]. etransitivity; [exact (IH _ F)|].
  by apply Stats.value_store_ne.
Qed.

(** A failed poll does not turn the busy gate off.  The warning of a failed
    read says that the gate has no load data and that backpressure is off until a
    read succeeds.  That is so before the first success: the gate then lets every
    message in.  But once a read has succeeded, every later failure, however many,
    leaves its average in place: the gate goes on deciding exactly as it did at
    the last good read, on a load that may be long gone. *)
Theorem stale_load_keeps_gate threshold now ps good v ps' queue_depth :
  Forall fails ps -> poll_outcome good = Ok v -> Forall fails ps' ->
  let before := polls ps (Stats.stats_new now) in
  let after := polls ps' (poll_lambda_stats good before).2 in
  Admission.should_reject_busy threshold before queue_depth = false /\
  Admission.should_reject_busy threshold after queue_depth =
  (negb (threshold =? 0) && negb (v =? 0) && Admission.busy_estimate_exceeds queue_depth v threshold).
Proof.
  intros F G F' before after. unfold Admission.should_reject_busy. split.
  - unfold before. rewrite polls_failed by done. cbn. by destruct (threshold =? 0).
  - unfold after. rewrite polls_failed by done. unfold poll_lambda_stats. rewrite G.
    cbn [Admission.record_stats_poll snd]. rewrite Stats.value_store_eq.
    destruct (threshold =? 0); [done|]. by destruct (v =? 0).
Qed.
Lemma stale_load_keeps_gate_witness :
  let good := Replied true $"200 OK" (Ok ([DQ] ++ $"avg_witness_ms" ++ [DQ] ++ $":40000}")) in
  let s := polls [Silent $"refused"; Silent $"refused"] (poll_lambda_stats good (Stats.stats_new 0)).2 in
  Admission.should_reject_busy 15000 s 1 = true.
Proof.
  intros good s.
  destruct (stale_load_keeps_gate 15000 0 [] good 40000 [Silent $"refused"; Silent $"refused"] 1
    ltac:(constructor) ltac:(vm_compute; reflexivity)
    ltac:(repeat constructor; by eexists)) as [_ H].
  exact H.
Defined.
End Load.
