(* ===== verification/Boot.v ===== *)
(** * Construction and start-up: [Gateway::new] and [run] of [gateway.rs]

    [new] turns a configuration into the gateway's components or refuses to
    start; [run] announces the carriers to Lambda and spawns one task per loop.
    The interpreter of Core and the peers of the mail relays are other people's. *)
From S2P Require Import Prelude Utf8 Fs Errors CoreTypes Config CareOf Sinks Carriers Stats Lambda Supervisor Pgp Email Gateway Handlers Loops.
Import Errors Email Core.

(** The interpreter: loading an ELF file (the error as text), its fingerprint. *)
Class Avm : Type := {
    Vm : Type;
    from_paths : path -> M world bytes Vm;
    core_fingerprint : Vm -> bytes;
}.

Module Boot.
Record CoreConfig : Type := { core_bin_path : option path; avm_elf_path : option path; use_embedded_avm : bool }.
Definition core_default : CoreConfig :=
  {| core_bin_path := None; avm_elf_path := None; use_embedded_avm := true |}.

(** ** The world of the senders

    A disk, the two relays, and the stamps of the messages a maildir writes: the
    [k]-th message written is named by [stamps k]. *)
Record outside (P : Type) : Type := Outside {
  o_disk : world; o_relays : @Split.relays P; stamps : nat -> Local.stamp; issued : nat }.
Arguments Outside {P}.
Arguments o_disk {P}.
Arguments o_relays {P}.
Arguments stamps {P}.
Arguments issued {P}.
#[export] Instance outside_disk {P : Type} : HasDisk (outside P) :=
  {| disk_of := o_disk; set_disk := fun d w => Outside d (o_relays w) (stamps w) (issued w) |}.
#[export] Instance lawful_outside {P : Type} : LawfulDisk (outside P).
Proof. done. Qed.

Section boot.
Context `{EC : ErrorsCrate} `{CV : CoreValues} `{CF : !CoreFns} `{EK : !EmailCrates} `{AV : Avm} `{RU : Rustls}.
Context {P : Type} `{PP : Io.Peer P} (b64_encode : bytes -> bytes).
Abbreviation F A := (M world AntieError A).

(** ** The outbound sender *)
Inductive Sender : Type :=
  | Routed (c : Routed.RoutedCarrier)
  | Split (c : Split.SplitCarrier)
  | Outbox (c : Local.MaildirCarrier).
Definition smtp_of (s : Config.SmtpOutboundConfig) : Smtp.SmtpCarrier := {|
  Smtp.server := Config.so_server s; Smtp.port := Config.so_port s;
  Smtp.username := Config.so_username s; Smtp.password := Config.so_password s;
  Smtp.use_tls := Config.so_use_tls s; Smtp.from_address := Config.from_address s |}.
(** The route table first, then the local relay, then the external one for
    everybody, then the outbox nobody collects. *)
Definition choose_sender (a : Config.AntieConfig) : F Sender :=
  let o := Config.outbound a in
  if negb (bool_decide (Config.route o = [])) then
    md ← lift (ok_or (ConfigError $"outbound.route requires [carriers.maildir] for the inbox side")
                 (Config.maildir (Config.carriers a)));
    c ← Routed.new (Config.inbox md) o;
    mret (Routed c)
  else match Config.local o, Config.external o, Config.maildir (Config.carriers a) with
  | Some local, external, _ =>
      mret (Split {| Split.local := smtp_of local; Split.external := smtp_of <$> external |})
  | None, Some ext, _ =>
      mret (Split {| Split.local := smtp_of ext; Split.external := Some (smtp_of ext) |})
  | None, None, Some md =>
      c ← Local.new (Config.inbox md) (Config.md_outbox md);
      mret (Outbox c)
  | None, None, None =>
      throw (ConfigError $"No outbound carrier configured (need outbound.local or carriers.maildir)")
  end.
(** A sender at work: a carrier of the disk writes under a fresh stamp. *)
Definition stamped (send_as : Local.stamp -> F unit) : M (outside P) AntieError unit := fun w =>
  let '(r, d) := send_as (stamps w (issued w)) (o_disk w) in
  (r, Outside d (o_relays w) (stamps w) (S (issued w))).
Definition on_relays {A : Type} (m : M (@Split.relays P) AntieError A) : M (outside P) AntieError A :=
  zoom o_relays (fun r w => Outside (o_disk w) r (stamps w) (issued w)) m.
Definition sender_of (s : Sender) : MailCarrier (outside P) :=
  match s with
  | Routed c =>
      let k := Routed.carrier c {| Local.micros := 0; Local.pid := 0; Local.uuid := [] |} in
      {| carrier_name := carrier_name k;
         check_new := Loops.on_the_disk (check_new k);
         mark_processed := fun i => Loops.on_the_disk (mark_processed k i);
         mark_failed := fun i why => Loops.on_the_disk (mark_failed k i why);
         send := fun to_ m => stamped (fun s => Routed.send c s to_ m) |}
  | Split c =>
      let k := Split.carrier b64_encode c in
      {| carrier_name := carrier_name k;
         check_new := on_relays (check_new k);
         mark_processed := fun i => on_relays (mark_processed k i);
         mark_failed := fun i why => on_relays (mark_failed k i why);
         send := fun to_ m => on_relays (send k to_ m) |}
  | Outbox c =>
      let k := Local.carrier c {| Local.micros := 0; Local.pid := 0; Local.uuid := [] |} in
      {| carrier_name := carrier_name k;
         check_new := Loops.on_the_disk (check_new k);
         mark_processed := fun i => Loops.on_the_disk (mark_processed k i);
         mark_failed := fun i why => Loops.on_the_disk (mark_failed k i why);
         send := fun _ m => stamped (fun s => Local.send c s m) |}
  end.

(** ** [Gateway::new] *)
(** $AXIOM_AVM_ELF is [env]. *)
Definition find_elf (env : option path) (core : CoreConfig) : path :=
  match avm_elf_path core, env, core_bin_path core with
  | Some p, _, _ => p
  | None, Some p, _ => p
  | None, None, Some (_ :: _ as p) => join (parent p) $"axiom-core.elf"
  | None, None, _ => parse_path $"./axiom-core.elf"
  end.
Definition load_avm (elf : path) : F Vm :=
  m ← gets fs;
  if Local.exists_path m elf then
    if is_utf8 (Local.show_path elf)
    then with_err (fun e => ConfigError ($"Failed to load AVM ELF: " ++ e)) (from_paths elf)
    else throw (ConfigError $"AVM ELF path is not valid UTF-8")
  else throw (ConfigError ($"No AVM ELF found at " ++ debug_str (Local.show_path elf)
         ++ $". Set avm_elf_path in config, set AXIOM_AVM_ELF env var, or place axiom-core.elf there. Run build-zkvm.sh to build it.")).
Definition open_lambda (l : Config.LambdaConfig) : F Client.LambdaMode :=
  match l with
  | Config.Tcp address timeout_secs (Some server_name) ca =>
      Client.new_tcp_tls address timeout_secs server_name ((fun p => (p, parse_path p)) <$> ca)
  | Config.Tcp address timeout_secs None _ => mret (Client.new_tcp address timeout_secs)
  | Config.Subprocess binary_path config_path =>
      mret (Client.new_subprocess (parse_path binary_path) (parse_path config_path))
  end.
Definition open_decryptor (p : option bytes) : F (option Decryptor) :=
  match p with
  | None => mret None
  | Some p => d ← from_key_file (debug_str p) (parse_path p); mret (Some d)
  end.
Definition open_uncle (u : option Config.UncleSinkConfig) : F (option UncleSink.UncleSink) :=
  match u with
  | None => mret None
  | Some cfg => s ← lift_io (UncleSink.new (Config.uncle_outbox cfg)); mret (Some s)
  end.
Record parts : Type := {
  p_skip_list : option SkipList.SkipList; p_sender : Sender; p_core : Vm; p_lambda : Client.LambdaMode;
  p_decryptor : option Decryptor; p_uncle_sink : option UncleSink.UncleSink;
  p_stats : Stats.AntieStats; p_limiter : Admission.WalletRateLimiter }.
Definition set_core_version (v : bytes) (s : Stats.AntieStats) : Stats.AntieStats := {|
  Stats.value := Stats.value s; Stats.started_at := Stats.started_at s;
  Stats.active_carriers := Stats.active_carriers s; Stats.core_version := v;
  Stats.heartbeats := Stats.heartbeats s |}.
Definition new (env : option path) (core : CoreConfig) (now_unix : Z) (a : Config.AntieConfig) : F parts :=
  _ ← lift (Config.validate (Config.carriers a));
  skip_list ← SkipList.maybe_open (Config.skip_list_path a) (Config.skipped_dir_path a);
  sender ← choose_sender a;
  avm ← load_avm (find_elf env core);
  lambda ← open_lambda (Config.lambda a);
  envelope_decryptor ← open_decryptor (Config.private_key_path (Config.validator a));
  uncle_sink ← open_uncle (Config.uncle (Config.outbound a));
  mret {| p_skip_list := skip_list; p_sender := sender; p_core := avm; p_lambda := lambda;
          p_decryptor := envelope_decryptor; p_uncle_sink := uncle_sink;
          p_stats := set_core_version (hex_encode (take 16 (core_fingerprint avm))) (Stats.stats_new now_unix);
          p_limiter := Admission.limiter_new (unwrap_or 2000 (Config.wallet_witness_cooldown_ms a)) |}.
(** What the handlers read of it. [sig_prefilter]: AXIOM_ANTIE_SIG_PREFILTER is
    1; [admin_url]: LAMBDA_ADMIN_URL. *)
Definition gateway_of (a : Config.AntieConfig) (p : parts) (sig_prefilter : bool) (admin_url : option bytes)
    : Gateway.Gateway (W := outside P) := {|
  Gateway.identity_email := Config.email (Config.identity a);
  Gateway.busy_threshold_ms := Config.busy_threshold_ms (Config.performance a);
  Gateway.custody_table := Config.custody (Config.outbound a);
  Gateway.maildir_inbox := Config.inbox <$> Config.maildir (Config.carriers a);
  Gateway.nabla_ban_list_path := parse_path <$> Config.nabla_ban_list_path a;
  Gateway.pickup_dir := (fun p => parse_path (Config.dir p)) <$> Config.pickup a;
  Gateway.vbc_path := parse_path <$> Config.vbc_path (Config.validator a);
  Gateway.sig_prefilter := sig_prefilter; Gateway.lambda_admin_url := admin_url;
  Gateway.skip_list := p_skip_list p; Gateway.uncle_sink := p_uncle_sink p;
  Gateway.envelope_decryptor := p_decryptor p; Gateway.sender := fun _ => sender_of (p_sender p) |}.

(** ** [run]: what is spawned *)
Inductive task : Type :=
  | DispatchTask (cfg : Config.MaildirConfig)
  | ImapTask (idx : nat) (cfg : Config.ImapConfig)
  | Pop3Task (idx : nat) (cfg : Config.Pop3Config)
  | WatchdogTask (policy : Config.OnStall)
  | InboxScanTask (new_dir : path)
  | SkipCountTask (sl : SkipList.SkipList)
  | StatsPollTask (admin_port : Z) (admin_token : option bytes) (poll_ms : Z).
(** The busy gate's poller: its own Lambda's port and token, when the gate is on
    and the port known.  [toml_admin] reads Lambda's configuration. *)
Definition arm (toml_admin : bytes -> option (option bytes * option Z)) (a : Config.AntieConfig)
    : F (option (Z * option bytes)) :=
  if 0 <? Config.busy_threshold_ms (Config.performance a) then
    port ← Config.resolve_lambda_admin_port toml_admin a;
    match port with
    | Some p => token ← Config.resolve_lambda_admin_token toml_admin a; mret (Some (p, token))
    | None => mret None
    end
  else mret None.
(** The accounts with their positions, those switched off left out. *)
Definition enabled {A : Type} (on : A -> bool) (l : list A) : list (nat * A) :=
  List.filter (fun x => on x.2) (imap pair l).
(** [armed]: the admin port and token of the busy gate's poller. *)
Definition tasks (a : Config.AntieConfig) (skip_list : option SkipList.SkipList) (armed : option (Z * option bytes))
    : list task :=
  let c := Config.carriers a in
  match Config.maildir c with Some md => [DispatchTask md] | None => [] end
  ++ map (fun x => ImapTask x.1 x.2) (enabled Config.imap_enabled (Config.imap c))
  ++ map (fun x => Pop3Task x.1 x.2) (enabled Config.pop3_enabled (Config.pop3 c))
  ++ [WatchdogTask (Config.on_stall a)]
  ++ match Config.maildir c with Some md => [InboxScanTask (join (Config.inbox md) $"new")] | None => [] end
  ++ match skip_list with Some sl => [SkipCountTask sl] | None => [] end
  ++ match armed with
     | Some (port, token) => [StatsPollTask port token (Config.lambda_stats_poll_ms (Config.performance a))]
     | None => []
     end.
(** The name under which a task's loop beats. *)
Definition heartbeat_of (t : task) : option bytes :=
  match t with
  | DispatchTask _ => Some $"dispatch"
  | ImapTask idx cfg => Some (Loops.account $"imap" idx (Config.imap_username cfg) (Config.imap_server cfg))
  | Pop3Task idx cfg => Some (Loops.account $"pop3" idx (Config.pop3_username cfg) (Config.pop3_server cfg))
  | _ => None
  end.
Definition active_carriers (c : Config.CarriersConfig) : bytes :=
  join_with [","%char]
    ((if Config.is_some (Config.maildir c) then [$"maildir"] else [])
     ++ (if bool_decide (Config.imap c = []) then [] else [$"imap"])
     ++ (if bool_decide (Config.pop3 c = []) then [] else [$"pop3"])).
(** What the status body says of it: the carriers, and the port when it is armed. *)
Definition armed_stats (c : Config.CarriersConfig) (armed : option (Z * option bytes)) (s : Stats.AntieStats)
    : Stats.AntieStats :=
  let s := {| Stats.value := Stats.value s; Stats.started_at := Stats.started_at s;
              Stats.active_carriers := active_carriers c; Stats.core_version := Stats.core_version s;
              Stats.heartbeats := Stats.heartbeats s |} in
  match armed with Some (port, _) => Stats.store Stats.lambda_stats_port port s | None => s end.
(** Before anything is spawned: the child started, the carriers announced; only
    the announcement may fail. *)
Context {H : Type} `{LH : LambdaHost H} `{HH : HasDisk H} (show_path : path -> bytes).
Definition announce (env_log : option path) (a : Config.AntieConfig) (m : Client.LambdaMode) (process_id : N)
    : M (Client.lam H) fault unit :=
  _ ← lift (map_err Failed (Config.validate (Config.carriers a)));
  _ ← failing_only (Supervisor.start show_path env_log m);
  _ ← recover (Client.send_set_carriers_request m ($"set-carriers-startup-" ++ show_N process_id)
                 (Config.to_uri_list (Config.carriers a) (Config.email (Config.identity a))));
  mret tt.
End boot.
End Boot.
