(* ===== verification/Footprint.v ===== *)
(** * What handling a message can change on ANTIE's disk

    The regions a gateway may write to, read off its configuration, and that the
    handling of every message stays in them, whatever the message says and
    whatever fails on the way; with the maildir senders, whose regions are their
    outboxes. *)
From S2P Require Import Prelude Utf8 Fs TotServer TotSession Errors CoreTypes Confine Config CareOf Sinks SinkTheorems Carriers Stats Lambda Pgp CoreIpc Email Gateway Handlers GatewayTheorems Effects LambdaTheorems InboxTheorems Loops Boot.
Import Errors Email Core Gateway Handlers Confine Effects.

Module Footprint.

(** ** Joining names *)
Lemma join_safe p n : "/"%char ∉ n -> n <> $".." -> join p n = p \/ join p n = p ++ [n].
Proof.
  intros Hs Hd. unfold join. destruct (starts_with _ n) eqn:E.
  - apply starts_with_spec in E as [r ->]. exfalso. set_solver.
  - rewrite split_no_sep by done. cbn [resolve foldl]. unfold resolve1. repeat case_decide; auto. tauto.
Qed.
Lemma join_below p n : "/"%char ∉ n -> n <> $".." -> p `prefix_of` join p n.
Proof. intros H1 H2. destruct (join_safe p n H1 H2) as [->| ->]; [done|by eexists]. Qed.
Lemma inside_join (R : path -> Prop) r n : R r -> "/"%char ∉ n -> n <> $".." -> inside R (join r n).
Proof. intros Hr H1 H2. exists r. split; [done|by apply join_below]. Qed.
Lemma inside_here (R : path -> Prop) r : R r -> inside R r.
Proof. by exists r. Qed.
Lemma suffixed_dots n s : (2 < length s)%nat -> n ++ s <> $"..".
Proof. intros H E. apply (f_equal length) in E. rewrite length_app in E. simpl in E. lia. Qed.
Lemma digest_no_slash b : "/"%char ∉ hex_encode b.
Proof. intros H%TotSession.hex_encode_codes. vm_compute in H. by apply H. Qed.
Ltac no_slash :=
  rewrite ?not_elem_of_app; repeat split;
  first [apply digest_no_slash | by apply show_N_no | by apply (bool_decide_unpack _)].
Lemma digest_named b s : "/"%char ∉ s -> (2 < length s)%nat -> "/"%char ∉ hex_encode b ++ s /\ hex_encode b ++ s <> $"..".
Proof. intros H1 H2. split; [rewrite not_elem_of_app; split; [apply digest_no_slash|done]|by apply suffixed_dots]. Qed.
Lemma unsafe_name_safe n : Custody.unsafe_name n = false -> "/"%char ∉ n /\ n <> $"..".
Proof.
  unfold Custody.unsafe_name. rewrite !orb_false_iff. intros [[[_ S] _] D]. split.
  - intros H%contains_single. unfold CareOf.SLASH in S. congruence.
  - intros ->. by vm_compute in D.
Qed.
Lemma depositable_safe d : CareOf.domain_is_depositable d = true -> "/"%char ∉ d /\ d <> $"..".
Proof.
  unfold CareOf.domain_is_depositable. rewrite !andb_true_iff. intros [[_ D] F]. split.
  - intros H%list_elem_of_In. rewrite forallb_forall in F. by specialize (F _ H).
  - intros ->. by vm_compute in D.
Qed.
Lemma message_name_safe t pid uuid : "/"%char ∉ uuid ->
  "/"%char ∉ Maildir.message_name t pid uuid /\ Maildir.message_name t pid uuid <> $"..".
Proof.
  intros H. unfold Maildir.message_name. split.
  - rewrite !not_elem_of_app. repeat split; try (by apply show_N_no); try (by apply (bool_decide_unpack _)). done.
  - intros E. apply (f_equal length) in E. rewrite !length_app in E. simpl in E. lia.
Qed.

(** ** The deliveries *)
Section deliveries.
Context `{EC : ErrorsCrate}.
Lemma within_lift_io {A : Type} (R : path -> Prop) (m : io A) : within R m -> within R (lift_io m).
Proof. apply within_with_err. Qed.
Hint Resolve within_lift_io : within.

(** A reply stays in the directory of its session, whatever its name. *)
Lemma within_custody R dir n b : R dir -> within R (Custody.deposit dir n b).
Proof.
  intros Hr. unfold Custody.deposit. destruct (Custody.unsafe_name n) eqn:U; [apply within_throw|].
  apply unsafe_name_safe in U as [H1 H2]. cbv zeta.
  assert (inside R (join dir n)) as I2 by (by apply inside_join).
  assert (inside R (join dir $"tmp")) as I0 by (apply inside_join; [done|by apply (bool_decide_unpack _)..]).
  assert (inside R (join (join dir $"tmp") n)) as I1.
  { exists dir. split; [done|]. etransitivity; [apply (join_below dir $"tmp"); by apply (bool_decide_unpack _)|].
    by apply join_below. }
  stay.
Qed.
Lemma within_tee R sink pid nanos txid b : R (UncleSink.outbox_path sink) -> within R (UncleSink.tee sink pid nanos txid b).
Proof.
  intros Hr. unfold UncleSink.tee. cbv zeta.
  assert (inside R (UncleSink.tee_dest sink txid)) as I1.
  { apply inside_join; [done|by apply digest_named; try (by apply (bool_decide_unpack _)); simpl; lia..]. }
  assert (inside R (UncleSink.tee_tmp sink pid nanos)) as I2.
  { apply inside_join; [done|no_slash|]. intros E. apply (f_equal length) in E. rewrite length_app in E. simpl in E. lia. }
  stay.
Qed.
Lemma within_pickup R base d n b : "/"%char ∉ n -> n <> $".." ->
  R (join base d ++ [$"tmp"]) -> R (join base d ++ [$"new"]) -> within R (CareOf.deposit_atomic base d n b).
Proof.
  intros H1 H2 Ht Hn. unfold CareOf.deposit_atomic. cbv zeta. rewrite !(join_plain (join base d)) by done.
  assert (inside R (join (join base d ++ [$"tmp"]) n)) as I1 by (by apply inside_join).
  assert (inside R (join (join base d ++ [$"new"]) n)) as I2 by (by apply inside_join).
  pose proof (inside_here R _ Ht). pose proof (inside_here R _ Hn).
  stay.
Qed.
Lemma within_divert R sl n b : "/"%char ∉ n -> n <> $".." -> R (SkipList.skipped_dir sl) ->
  within R (SkipList.write_skipped sl n b).
Proof.
  intros H1 H2 Hr. unfold SkipList.write_skipped. cbv zeta.
  assert (inside R (SkipList.skipped_dest sl n)) as I1 by (by apply inside_join).
  assert (inside R (SkipList.skipped_tmp sl n)) as I2.
  { apply inside_join; [done| |]; [rewrite not_elem_of_app; split; [by apply (bool_decide_unpack _)|done]|].
    intros E. apply (f_equal length) in E. rewrite length_app in E. simpl in E. lia. }
  stay.
Qed.
Lemma within_message R md t pid uuid b : "/"%char ∉ uuid -> R (Maildir.tmp_dir md) -> R (Maildir.new_dir md) ->
  within R (Maildir.write_message md t pid uuid b).
Proof.
  intros Hu Ht Hn. destruct (message_name_safe t pid uuid Hu) as [H1 H2].
  unfold Maildir.write_message. cbv zeta.
  pose proof (inside_join R _ _ Ht H1 H2). pose proof (inside_join R _ _ Hn H1 H2). stay.
Qed.
Lemma within_certificate R d n b : "/"%char ∉ n -> n <> $".." -> R d -> within R (file_certificate d n b).
Proof. intros H1 H2 Hr. unfold file_certificate. pose proof (inside_join R d n Hr H1 H2). pose proof (inside_here R d Hr). stay. Qed.
End deliveries.
(** ** The regions of a gateway *)
Section footprint.
Context `{EC : ErrorsCrate} `{CV : CoreValues} `{CF : !CoreFns} `{EK : !EmailCrates}.
Context {W : Type} `{HD : HasDisk W} `{LD : !LawfulDisk W} {N Lm : Type} `{OP : OpenPgp} `{HT : Http N} `{LO : !LambdaOps Lm}.
Context (g : Gateway (W := W)).

Inductive region : path -> Prop :=
  | Replies row id : row ∈ custody_table g -> session_id id -> region (Config.custody_outbox row ++ [id])
  | Uncle sink : uncle_sink g = Some sink -> region (UncleSink.outbox_path sink)
  | Pickup base d x : pickup_dir g = Some base -> CareOf.domain_is_depositable d = true -> x ∈ [$"tmp"; $"new"] ->
      region (join base d ++ [x])
  | Skipped sl : skip_list g = Some sl -> region (SkipList.skipped_dir sl)
  | Stakes inbox n : maildir_inbox g = Some inbox -> ends_with $"_Stake" n = true ->
      region (join (join (vbc_root inbox) $"wallets" ++ [n]) $"maildir/inbox/new")
  | Unclaimed inbox : maildir_inbox g = Some inbox -> region (join (vbc_root inbox) $"maildir/vbc/new").
(** What a sender promises: on a world that is [well], which the disk does not
    matter to, it writes to the disk in [sends] only. *)
Class SendsWithin (sends : path -> Prop) (well : W -> Prop) : Prop := {
  well_disk d w : well w -> well (set_disk d w);
  sends_within a to_ m w : well w ->
    well (send (sender g a) to_ m w).2 /\ touches sends (disk_of w) (disk_of (send (sender g a) to_ m w).2) }.
Context (sends : path -> Prop) (well : W -> Prop).
Definition footprint (p : path) : Prop := region p \/ sends p.
Definition on_its_disk (w w' : gw W N Lm) : Prop :=
  well (outer w) -> well (outer w') /\ touches footprint (disk_of (outer w)) (disk_of (outer w')).

#[export] Instance aside_stays : Indifferent on_its_disk.
Proof.
  split; [split|].
  - intros w Hw. by split.
  - intros w1 w2 w3 H1 H2 Hw. destruct (H1 Hw) as [Hw2 T1]. destruct (H2 Hw2) as [Hw3 T2]. split; [done|]. by etransitivity.
  - intros w w' Ho _ Hw. rewrite Ho. by split.
Qed.
Lemma op_stays {E A : Type} (m : M world E A) : disk_op g m -> within footprint m.
Proof.
  assert (forall r, region r -> footprint r) as F by (by left).
  intros [p|E' p|E' p ks s|sink pid nanos tx b Hs|row id n b Hr [Hl Hh]|base d tx sx b Hb Hd Hs|sl tx b Hs|inbox d z sig b Hi Hd].
  - apply within_read_dir.
  - unfold load_vbc. stay.
  - unfold Admission.nabla_ban_file_lists. stay.
  - by apply within_tee, F, Uncle.
  - apply within_custody, F. unfold custody_dir. rewrite join_plain by (apply Sessions.hex_plain; [lia|done]). by constructor.
  - assert ("/"%char ∉ sx /\ (2 < length sx)%nat) as [H1 H2].
    { rewrite !elem_of_cons in Hs. destruct Hs as [->|[->|[]%not_elem_of_nil]]; (split; [by apply (bool_decide_unpack _)|simpl; lia]). }
    destruct (digest_named tx sx H1 H2). apply within_pickup; [done|done|apply F, Pickup; try done; by left|].
    apply F, Pickup; try done. right. by left.
  - destruct (digest_named tx $".cheque") as [H1 H2]; [by apply (bool_decide_unpack _)|simpl; lia|].
    by apply within_divert, F, Skipped.
  - apply within_certificate.
    + rewrite !not_elem_of_app. repeat split; try apply digest_no_slash; try (by apply (bool_decide_unpack _)).
      unfold show_Z. destruct (z <? 0); [apply not_elem_of_cons; split; [done|]|]; by apply show_N_no.
    + rewrite !app_assoc. apply suffixed_dots. simpl. lia.
    + apply F. destruct Hd as [->|(n & Hn & ->)]; by econstructor.
Qed.
Context `{SW : !SendsWithin sends well}.
Lemma handlers_stay : Harmless on_its_disk g.
Proof.
  split; [apply _| |].
  - intros E A m Hm%op_stays w Hw. unfold on_disk, zoom. specialize (Hm (disk_of (outer w))).
    destruct (m _) as [r d]. cbn [snd outer with_outer] in *. rewrite disk_set. split; [by apply (well_disk (well := well))|done].
  - intros a to_ m w Hw. unfold on_outer, failing_only, with_err, zoom.
    destruct (sends_within a to_ m (outer w) Hw) as [Hw' Ht].
    destruct (send _ _ _ _) as [r o]. cbn [snd outer with_outer] in *. split; [done|].
    eapply touches_mono; [|exact Ht]. by right.
Qed.

(** C5: What one message can change on the disk.  Whatever it says - a forged
    stamp, a hostile request id, a crafted receiver address, a certificate - and
    whatever fails on the way, every store on the way to the end of its handling,
    so also the one a killed process leaves, agrees with the first one outside
    the regions of the configuration: the session directories of the custody rows
    (named by a digest), the UNCLE outbox, the [tmp/] and [new/] of clean domains
    under the pickup directory, the skip list's directory, the stake wallets'
    inboxes and [maildir/vbc/new], and what the sender writes; outside, the
    missing directories above a region are made and nothing else.  The same holds of a busy rejection. *)
Theorem message_footprint a m w (h := gateway_handlers g) : well (outer w) ->
  forall run, run ∈ [process_message g h a m; send_busy_rejection g a m] ->
  exists on_the_way,
    hist (disk_of (outer (run w).2)) = on_the_way ++ hist (disk_of (outer w)) /\
    forall s, s ∈ fs (disk_of (outer (run w).2)) :: on_the_way ->
    forall q, (forall r, footprint r -> ~ r `prefix_of` q) ->
      s !! q = fs (disk_of (outer w)) !! q \/
      (fs (disk_of (outer w)) !! q = None /\ s !! q = Some Dir /\ exists r, footprint r /\ q `prefix_of` r).
Proof.
  intros Hw run Hrun. assert (keeps on_its_disk run) as K.
  { pose proof handlers_stay. rewrite !elem_of_cons in Hrun. destruct Hrun as [->|[->|[]%not_elem_of_nil]].
    - by apply keep_process.
    - by apply keep_busy. }
  destruct (K w Hw) as [_ [Hnow (new & E & Hnew) _]]. exists new. split; [exact E|]. intros s Hs q Hq.
  assert (~ inside footprint q) as Hq' by (intros (r & Hr & Hp); by apply (Hq r)).
  apply elem_of_cons in Hs as [->|Hs]; [by apply Hnow|].
  rewrite Forall_forall in Hnew. by apply Hnew.
Qed.
End footprint.

(** ** The senders of [Boot] *)
Section senders.
Context `{EC : ErrorsCrate} `{CV : CoreValues} `{CF : !CoreFns} `{EK : !EmailCrates} `{AV : Avm} `{RU : Rustls}.
Context {P : Type} `{PP : Io.Peer P} (b64_encode : bytes -> bytes).
Import Boot.
(** The outboxes of the route table; the outbox; nothing, of a relay. *)
Definition sends_of (s : Sender) (r : path) : Prop :=
  match s with
  | Routed c => exists p md, Routed.outboxes c !! p = Some md /\ (r = Maildir.tmp_dir md \/ r = Maildir.new_dir md)
  | Split _ => False
  | Outbox c => r = Maildir.tmp_dir (Local.outbox c) \/ r = Maildir.new_dir (Local.outbox c)
  end.
(** A UUID has no slash. *)
Definition proper_stamps (w : outside P) : Prop := forall k, "/"%char ∉ Local.uuid (stamps w k).
Lemma stamped_within R (send_as : Local.stamp -> M world AntieError unit) w :
  (forall s, "/"%char ∉ Local.uuid s -> within R (send_as s)) -> proper_stamps w ->
  proper_stamps (stamped send_as w).2 /\ touches R (disk_of w) (disk_of (stamped send_as w).2).
Proof.
  intros Hs Hw. unfold stamped. pose proof (Hs _ (Hw (issued w)) (o_disk w)) as H.
  by destruct (send_as _ _) as [r d].
Qed.
#[export] Instance boot_sends a p pf url :
  SendsWithin (gateway_of b64_encode a p pf url) (sends_of (p_sender p)) proper_stamps.
Proof.
  split; [done|]. intros am to_ m w Hw. cbn [gateway_of sender]. destruct (p_sender p) as [c|c|c]; cbn [sender_of send].
  - apply stamped_within; [|done]. intros s Hs. unfold Routed.send. apply within_bind; [apply within_lift|].
    intros [dir|]; [|apply within_throw]. destruct (Routed.outboxes c !! dir) as [md|] eqn:E; [|apply within_throw].
    apply within_bind; [|intros ?; apply within_ret]. apply within_message; [done|exists dir, md; auto..].
  - unfold on_relays, zoom. by destruct (send _ _ _ _).
  - apply stamped_within; [|done]. intros s Hs. unfold Local.send.
    apply within_bind; [|intros ?; apply within_ret]. apply within_message; [done|by left|by right].
Qed.
End senders.

(** ** A reply among other files *)
Definition ex_store : world :=
  {| fs := <[[$"etc"] := Dir]> (<[[$"etc"; $"keep"] := File $"mine"]> {[ [$"out"] := Dir ]});
     oracle := []; hist := []; listing := fun l => l |}.
Definition ex_gw : Gateway (EC := ex_errors) (W := world) := Sessions.ex_gateway 0 Sessions.broken.
#[export] Instance ex_sends : SendsWithin ex_gw (fun _ => False) (fun _ => True).
Proof. by split. Qed.
Definition ex_msg : IncomingMessage := {| Carriers.id := $"1"; Carriers.raw := $"PDATA"; source := [] |}.
Definition ex_run : M (gw world unit unit) (fault (EC := ex_errors)) unit :=
  process_message (EC := ex_errors) (CF := Exchange.ex_core) (EK := Sessions.ex_session) ex_gw
    (gateway_handlers (EC := ex_errors) (CF := Exchange.ex_core) (EK := Sessions.ex_session) (OP := InboxTheorems.Inbox.ex_pgp)
       (HT := InboxTheorems.Inbox.offline) (LO := InboxTheorems.Inbox.down) ex_gw) Sessions.ex_ambient ex_msg.
Definition ex_before : gw world unit unit := Sessions.ex_world ex_store tt tt (Stats.stats_new 0).
Definition ex_after : world := disk_of (outer (ex_run ex_before).2).
Lemma ex_elsewhere r : footprint ex_gw (fun _ => False) r -> ~ r `prefix_of` [$"etc"; $"keep"].
Proof.
  intros [Hr|[]] Hp. destruct Hr as [row id Hrow _| | | | |]; try discriminate.
  apply list_elem_of_singleton in Hrow as ->. destruct Hp as [x Hx]. discriminate.
Qed.
Lemma message_footprint_witness :
  (0 <? length (hist ex_after))%nat = true /\
  Forall (fun s => s !! [$"etc"; $"keep"] = Some (File $"mine")) (fs ex_after :: hist ex_after).
Proof.
  destruct (message_footprint (EC := ex_errors) (CF := Exchange.ex_core) (EK := Sessions.ex_session) (OP := InboxTheorems.Inbox.ex_pgp)
    (HT := InboxTheorems.Inbox.offline) (LO := InboxTheorems.Inbox.down) ex_gw (fun _ => False) (fun _ => True)
    Sessions.ex_ambient ex_msg ex_before I ex_run ltac:(by left)) as (new & E & H).
  split; [vm_compute; reflexivity|].
  fold ex_after in E, H. change (hist (disk_of (outer ex_before))) with (@nil store) in E. rewrite app_nil_r in E. rewrite E.
  apply Forall_forall. intros s Hs. specialize (H s Hs [$"etc"; $"keep"]).
  specialize (H ex_elsewhere). clear E Hs. destruct H as [Hk|[Hk _]]; [exact Hk|discriminate].
Defined.
End Footprint.
