(* ===== verification/MailFlow.v ===== *)
(** * A mail from the server to its handler

    The pull loops stage mail in ANTIE's inbox, the dispatch loop works it off; they
    meet in one maildir.  Here: what a pass of the dispatch loop does to that
    maildir, whatever the handlers do, and both loops together. *)
From S2P Require Import Prelude Utf8 Fs Errors CoreTypes Confine Config CareOf Sinks SinkTheorems Carriers Stats Pull PullTheorems Lambda Pgp CoreIpc Email Gateway Handlers GatewayTheorems Effects LambdaTheorems InboxTheorems Loops Footprint.
Import Errors Email Core Gateway Handlers Confine Effects Footprint SinkTheorems.
#[local] Abbreviation stopped := InboxTheorems.Inbox.stopped.

Module MailFlow.

(** ** Messages on their way through the maildir [p] *)
Section maildir.
Context (p : path).
Definition waits (n : bytes) : path := in_dir p $"new" n.
Definition seen (n : bytes) : path := in_dir p $"cur" (n ++ $":2,S").
(** A name any of the programs makes. *)
Definition proper (n : bytes) : Prop := plain_name n = true /\ is_utf8 n = true.
(** Each message is where it was; those of [P] may have gone from [new/] to
    [cur/], whole. *)
Definition passes (P : bytes -> Prop) (s s' : store) : Prop := forall n,
  (s' !! waits n = s !! waits n /\ s' !! seen n = s !! seen n) \/
  (P n /\ exists b, s !! waits n = Some (File b) /\ s' !! waits n = None /\ s' !! seen n = Some (File b)).
#[export] Instance passes_pre P : PreOrder (passes P).
Proof.
  split; [by left|]. intros s1 s2 s3 H12 H23 n.
  destruct (H12 n) as [[E1 E2]|(Hn & b & E1 & E2 & E3)], (H23 n) as [[F1 F2]|(Hn' & b' & F1 & F2 & F3)].
  - left. split; congruence.
  - right. split; [done|]. exists b'. split; [congruence|done].
  - right. split; [done|]. exists b. split; [done|]. split; congruence.
  - congruence.
Qed.
Lemma passes_mono (P Q : bytes -> Prop) s s' : (forall n, P n -> Q n) -> passes P s s' -> passes Q s s'.
Proof. intros H F n. destruct (F n) as [E|(Hn & b & E)]; [by left|right]. eauto. Qed.
Definition none (_ : bytes) : Prop := False.
Definition all (_ : bytes) : Prop := True.
Definition dirs : list path := [p ++ [$"new"]; p ++ [$"cur"]].
Record flows (P : bytes -> Prop) (d d' : world) : Prop := {
  flows_dirs x : x ∈ dirs -> fs d !! x = Some Dir -> fs d' !! x = Some Dir;
  flows_now : passes P (fs d) (fs d');
  flows_before : exists new, hist d' = new ++ hist d /\ Forall (passes P (fs d)) new;
  flows_calls : exists used, oracle d = used ++ oracle d' }.
#[export] Instance flows_pre P : PreOrder (flows P).
Proof.
  split.
  - intros d. split; [done|done|by exists []|by exists []].
  - intros d1 d2 d3 [D1 A1 (n1 & E1 & F1) (u1 & O1)] [D2 A2 (n2 & E2 & F2) (u2 & O2)]. split.
    + auto.
    + by etransitivity.
    + exists (n2 ++ n1). rewrite E2, E1, app_assoc. split; [done|]. apply Forall_app. split; [|done].
      eapply Forall_impl; [exact F2|]. intros s Hs. by etransitivity.
    + exists (u1 ++ u2). by rewrite O1, O2, app_assoc.
Qed.
Lemma flows_mono (P Q : bytes -> Prop) d d' : (forall n, P n -> Q n) -> flows P d d' -> flows Q d d'.
Proof.
  intros H [D A (n & E & F) U]. split; [done|by eapply passes_mono| |done]. exists n. split; [done|].
  eapply Forall_impl; [exact F|]. intros s. by apply passes_mono.
Qed.
Lemma flows_calm P d d' : flows P d d' -> oracle d = [] -> oracle d' = [].
Proof. intros [_ _ _ [u Hu]] E. rewrite E in Hu. by destruct u. Qed.

(** What keeps clear of the two directories lets every message be. *)
Definition clear (R : path -> Prop) : Prop := forall r x, R r -> x ∈ dirs ->
  ~ r `prefix_of` x /\ ~ x `prefix_of` r.
Lemma clear_of R x n : clear R -> x ∈ dirs -> ~ inside R (x ++ [n]) /\ ~ above R (x ++ [n]).
Proof.
  intros HR Hx. split; intros (r & Hr & Hp); destruct (HR r x Hr Hx) as [H1 H2].
  - destruct (prefix_weak_total r x (x ++ [n])) as [H|H]; [done|by eexists|by apply H1|by apply H2].
  - apply H2. destruct Hp as [k ->]. exists (n :: k). by rewrite <- app_assoc.
Qed.
Lemma touches_flows P R d d' : clear R -> touches R d d' -> flows P d d'.
Proof.
  intros HR [A (new & E & F) U].
  assert (forall s, confined R (fs d) s -> passes P (fs d) s) as H.
  { intros s C n. left. unfold waits, seen. rewrite <- !in_dir_snoc.
    destruct (clear_of R (p ++ [$"new"]) n HR) as [H1 H2]; [by left|].
    destruct (clear_of R (p ++ [$"cur"]) (n ++ $":2,S") HR) as [H3 H4]; [right; by left|].
    split; by eapply confined_clear. }
  split; [|auto| |done]; [|exists new; split; [done|]; eapply Forall_impl; [exact F|auto]].
  intros x Hx. apply (confined_dir R); [done|]. intros (r & Hr & Hp). by destruct (HR r x Hr Hx).
Qed.

(** ** Acknowledging *)
Context `{EC : ErrorsCrate}.
Abbreviation md := (maildir_at p).
Lemma seen_plain n : proper n -> plain_name (n ++ $":2,S") = true.
Proof.
  intros [H _]. unfold plain_name in *. rewrite bool_decide_eq_true in *. destruct H as (H & _).
  split; [rewrite not_elem_of_app; split; [done|by apply (bool_decide_unpack _)]|].
  split; [by intros [? ?]%app_eq_nil|]. split; intros E; apply (f_equal length) in E; rewrite length_app in E; simpl in E; lia.
Qed.
Lemma waits_inj n m : waits n = waits m -> n = m.
Proof. by intros [_ E]%in_dir_inj. Qed.
Lemma seen_inj n m : seen n = seen m -> n = m.
Proof. intros [_ E]%in_dir_inj. by apply app_inv_tail in E. Qed.
Lemma waits_ne_seen n m : waits n <> seen m.
Proof. intros [E _]%in_dir_inj. discriminate E. Qed.
Lemma moved_passes n b s : s !! waits n = Some (File b) ->
  passes (eq n) s (<[seen n := File b]> (delete (waits n) s)).
Proof.
  intros Hb m. pose proof (waits_ne_seen m n) as N1. destruct (decide (m = n)) as [->|N].
  - right. split; [done|]. exists b. split; [done|]. rewrite lookup_insert_ne by (intros E; by apply N1).
    by rewrite lookup_delete_eq, lookup_insert_eq.
  - left. rewrite !lookup_insert_ne, !lookup_delete_ne; [done|..].
    + intros E. by apply (waits_ne_seen n m).
    + intros E. by apply N, eq_sym, waits_inj.
    + intros E. by apply N, eq_sym, seen_inj.
    + intros E. by apply N1.
Qed.
Lemma calls_flows {E A : Type} P (m : M world E A) : within (fun _ => False) m -> forall d, flows P d (m d).2.
Proof. intros H d. apply (touches_flows P (fun _ => False)); [by intros ? ?|apply H]. Qed.
Lemma rename_flows n d : flows (eq n) d (rename (waits n) (seen n) d).2.
Proof.
  unfold rename. cbv [mbind M_bind gets]. pose proof (calls_flows (eq n) syscall (within_syscall _) d) as T.
  destruct (syscall d) as [[u|e] d1]; [|exact T]. etransitivity; [exact T|]. cbn [snd].
  destruct (fs d1 !! waits n) as [[|b]|] eqn:Eb; try reflexivity. destruct (is_dir _ _); [reflexivity|].
  destruct (is_dir _ _); [|reflexivity]. split; [|by apply moved_passes| |by exists []].
  { intros x Hx Hd. cbn [fs put_fs modify set_fs snd].
    assert (forall a b, x <> in_dir p a b) as N by (intros a b' ->; unfold dirs in Hx; rewrite !elem_of_cons in Hx;
      destruct Hx as [Hx|[Hx|[]%not_elem_of_nil]]; by apply in_dir_ne in Hx).
    rewrite lookup_insert_ne, lookup_delete_ne; [done|..]; intros E; by eapply N. }
  exists [<[seen n := File b]> (delete (waits n) (fs d1))]. split; [done|]. apply Forall_singleton. by apply moved_passes.
Qed.
(** Marking a message moves it or leaves everything alone; on a sound maildir and
    when no call fails it moves it. *)
Lemma mark_run n d : proper n ->
  Local.mark_processed md n d =
  if Local.exists_path (fs d) (waits n)
  then (let r := rename (waits n) (seen n) d in (map_err IoError r.1, r.2)) else (Ok tt, d).
Proof.
  intros Hn. pose proof (seen_plain n Hn) as Hs. destruct Hn as [Hp Hu].
  unfold Local.mark_processed, gets. cbv [mbind M_bind]. cbn [Maildir.base maildir_at].
  rewrite (join_plain p $"new"), (join_plain (p ++ [$"new"])), in_dir_snoc by done. fold (waits n).
  destruct (Local.exists_path (fs d) (waits n)); [|done]. unfold Maildir.mark_processed, file_name, waits at 1, in_dir at 1.
  rewrite (last_app_cons p). cbn [last]. rewrite (lossy_valid _ Hu). cbn [Maildir.cur_dir maildir_at].
  rewrite join_plain, in_dir_snoc by done. fold (seen n). unfold lift_io, with_err. cbv [mbind M_bind].
  destruct (rename _ _ d) as [[[]|e] d']; reflexivity.
Qed.
Lemma mark_flows n d : proper n -> flows (eq n) d (Local.mark_processed md n d).2.
Proof.
  intros Hn. rewrite mark_run by done. case_match; [by apply rename_flows|reflexivity].
Qed.
Lemma mark_moves n d b : proper n -> oracle d = [] -> fs d !! waits n = Some (File b) ->
  fs d !! (p ++ [$"cur"]) = Some Dir -> fs d !! seen n <> Some Dir ->
  fs (Local.mark_processed md n d).2 !! waits n = None /\ fs (Local.mark_processed md n d).2 !! seen n = Some (File b).
Proof.
  intros Hn Ho Hb Hc Hs. rewrite mark_run by done.
  assert (Local.exists_path (fs d) (waits n) = true) as ->.
  { unfold Local.exists_path, is_file. by rewrite Hb, orb_true_r. }
  rewrite (rename_ok _ _ b); [|done|done| |].
  - cbn. rewrite lookup_insert_ne by (intros E; by apply (waits_ne_seen n n)).
    by rewrite lookup_delete_eq, lookup_insert_eq.
  - apply not_is_dir; [by unfold seen, in_dir; destruct p|]. done.
  - unfold seen. rewrite <- in_dir_snoc, parent_snoc. by apply is_dir_some.
Qed.

(** ** What a check finds *)
Definition names (d : world) : list bytes := listing d (children (fs d) (p ++ [$"new"])).
Definition reads_true (t : store) (ms : list IncomingMessage) : Prop :=
  Forall (fun m => proper (Carriers.id m) /\ t !! waits (Carriers.id m) = Some (File (Carriers.raw m))) ms.
Lemma read_all_true t (ns : list bytes) : forall acc d ms d', (forall n, n ∈ ns -> proper n) -> fs d = t -> reads_true t acc ->
  Local.read_all (map (fun n => (p ++ [$"new"]) ++ [n]) ns) acc d = (Ok ms, d') -> reads_true t ms.
Proof.
  induction ns as [|n ns IH]; intros acc d ms d' Hn Hd Ha; cbn [map Local.read_all]; [by intros [= <- _]|].
  unfold mbind, M_bind, Maildir.read_message, lift_io, with_err.
  destruct (read_file_cases ((p ++ [$"new"]) ++ [n]) d) as [Hf Hb].
  destruct (read_file _ d) as [[b|e] d1]; [|done]. cbn [map_err fst snd] in *.
  apply IH; [intros k Hk; apply Hn; by right|congruence|]. apply Forall_app. split; [done|]. apply Forall_singleton.
  cbn [Carriers.id Carriers.raw]. unfold file_name. rewrite last_snoc. cbn [unwrap_or].
  assert (proper n) as [Hp Hu] by (apply Hn; by left). rewrite lossy_valid by done. split; [done|].
  rewrite <- Hd. unfold waits. rewrite <- in_dir_snoc. by apply Hb.
Qed.
Lemma waiting_filter s ns :
  filter (fun q => is_file s q = true) (map (fun n => (p ++ [$"new"]) ++ [n]) ns) =
  map (fun n => (p ++ [$"new"]) ++ [n]) (filter (fun n => is_file s (waits n) = true) ns).
Proof.
  induction ns as [|n ns IH]; [done|]. cbn [map]. rewrite !filter_cons, IH, in_dir_snoc. fold (waits n).
  destruct (decide _); [|done]. cbn [map]. by rewrite in_dir_snoc.
Qed.
Lemma check_reads_true d ms d' : (forall n, n ∈ names d -> proper n) ->
  Local.check_new md d = (Ok ms, d') -> reads_true (fs d) ms.
Proof.
  intros Hn. unfold Local.check_new, Maildir.list_new, lift_io, with_err, gets. cbv [mbind M_bind mret M_ret].
  cbn [Maildir.new_dir maildir_at]. destruct (read_dir_cases (p ++ [$"new"]) d) as [Hf Hl].
  destruct (read_dir _ d) as [[ns|e] d1]; [|done]. cbn [map_err fst snd] in *. specialize (Hl ns eq_refl). subst ns.
  fold (names d) in *. rewrite waiting_filter. apply read_all_true; [|done|constructor].
  intros n Hin%list_elem_of_filter. by apply Hn, Hin.
Qed.
Lemma check_flows P d : flows P d (Local.check_new md d).2.
Proof.
  apply calls_flows. unfold Local.check_new. apply within_bind.
  - unfold Maildir.list_new, lift_io. stay.
  - intros ps. assert (forall acc, within (fun _ => False) (Local.read_all ps acc)) as H; [|apply H].
    induction ps as [|q ps IH]; intros acc; cbn [Local.read_all]; [apply within_ret|].
    apply within_bind; [unfold Maildir.read_message, lift_io; stay|]. intros b. apply IH.
Qed.
Lemma read_all_calm d ns : forall acc, oracle d = [] ->
  (forall n, n ∈ ns -> proper n /\ exists b, fs d !! waits n = Some (File b)) ->
  exists ms, Local.read_all (map (fun n => (p ++ [$"new"]) ++ [n]) ns) acc d = (Ok (acc ++ ms), d) /\
    map Carriers.id ms = ns /\ reads_true (fs d) ms.
Proof.
  induction ns as [|n ns IH]; intros acc Ho Hn; cbn [map Local.read_all].
  - exists []. rewrite app_nil_r. split; [done|]. split; [done|constructor].
  - destruct (Hn n ltac:(by left)) as [Hp [b Hb]]. rewrite in_dir_snoc. fold (waits n).
    unfold Maildir.read_message, lift_io, with_err. unfold mbind at 1, M_bind at 1. rewrite (read_file_ok _ b) by done. cbn [map_err].
    set (m := {| Carriers.id := _; Carriers.raw := b; source := _ |}).
    destruct (IH (acc ++ [m]) Ho (fun k Hk => Hn k ltac:(by right))) as (ms & E & Hi & Ht). exists (m :: ms).
    assert (Carriers.id m = n) as Hid.
    { unfold m; cbn [Carriers.id]. unfold file_name, waits, in_dir. rewrite last_app_cons. cbn [last unwrap_or]. by apply lossy_valid, Hp. }
    split; [by rewrite E, <- app_assoc|]. split; [cbn [map]; by rewrite Hid, Hi|]. constructor; [|done].
    rewrite Hid. by split.
Qed.
(** When no call fails, a check gives every file of [new/], with its content. *)
Lemma check_calm d : oracle d = [] -> fs d !! (p ++ [$"new"]) = Some Dir -> (forall n, n ∈ names d -> proper n) ->
  exists ms, Local.check_new md d = (Ok ms, d) /\ reads_true (fs d) ms /\
    map Carriers.id ms = filter (fun n => is_file (fs d) (waits n) = true) (names d).
Proof.
  intros Ho Hd Hn. unfold Local.check_new, Maildir.list_new, lift_io, with_err, gets. cbv [mbind M_bind mret M_ret].
  cbn [Maildir.new_dir maildir_at]. rewrite read_dir_ok; [|done|by apply is_dir_some]. cbn [map_err].
  fold (names d). rewrite waiting_filter.
  destruct (read_all_calm d (filter (fun n => is_file (fs d) (waits n) = true) (names d)) [] Ho) as (ms & E & Hi & Ht).
  - intros n [Hf Hin]%list_elem_of_filter. split; [by apply Hn|]. unfold is_file in Hf.
    destruct (fs d !! waits n) as [[|b]|]; try done. by exists b.
  - exists ms. by split.
Qed.
End maildir.

(** ** A pass of the dispatch loop *)
Section pass.
Context `{EC : ErrorsCrate} `{CV : CoreValues} `{CF : !CoreFns} `{EK : !EmailCrates}.
Context {W : Type} `{HD : HasDisk W} `{LD : !LawfulDisk W} {N Lm : Type} `{OP : OpenPgp} `{HT : Http N} `{LO : !LambdaOps Lm}.
Context (g : Gateway (W := W)) (sends : path -> Prop) (well : W -> Prop) `{SW : !SendsWithin g sends well}.
Context (p : path) (out : Maildir.Maildir) (s : Local.stamp) (Hclear : clear p (footprint g sends)).
Abbreviation gw_ := (gw W N Lm).
Abbreviation h := (gateway_handlers g).
Abbreviation md := (maildir_at p).
Abbreviation c := (Loops.lift_carrier (Local.carrier {| Local.inbox := md; Local.outbox := out |} s)).
Abbreviation disk w := (disk_of (outer w)).

Definition passing (P : bytes -> Prop) (w w' : gw_) : Prop := well (outer w) -> well (outer w') /\ flows p P (disk w) (disk w').
#[local] Instance passing_aside P : Indifferent (passing P).
Proof.
  split; [split|].
  - intros w Hw. by split.
  - intros w1 w2 w3 H1 H2 Hw. destruct (H1 Hw) as [Hw2 T1]. destruct (H2 Hw2) as [Hw3 T2]. split; [done|]. by etransitivity.
  - intros w w' Ho _ Hw. rewrite Ho. by split.
Qed.
Lemma passing_mono (P Q : bytes -> Prop) w w' : (forall n, P n -> Q n) -> passing P w w' -> passing Q w w'.
Proof. intros H F Hw. destruct (F Hw) as [Hw' F']. split; [done|]. by eapply flows_mono. Qed.
Lemma passing_stats P f : keeps (passing P) (on_stats (W := W) (N := N) (Lm := Lm) f).
Proof. intros w Hw. by split. Qed.
Lemma passing_handlers {E A : Type} P (m : M gw_ E A) : keeps (on_its_disk g sends well) m -> keeps (passing P) m.
Proof. intros H w Hw. destruct (H w Hw) as [Hw' T]. split; [done|]. by eapply touches_flows. Qed.
Lemma passing_disk {A : Type} P (m : M world AntieError A) : (forall d, flows p P d (m d).2) ->
  keeps (passing P) (on_outer (N := N) (Lm := Lm) (Loops.on_the_disk m)).
Proof.
  intros H w Hw. unfold on_outer, failing_only, with_err, Loops.on_the_disk, zoom. specialize (H (disk w)).
  destruct (m _) as [r d]. cbn [snd outer with_outer] in *. rewrite disk_set.
  split; [by apply (well_disk g (sends := sends) (well := well))|done].
Qed.
Lemma passing_process P a m : keeps (passing P) (recover (process_message g h a m)).
Proof. apply (keep_recover (passing P)), passing_handlers. pose proof (handlers_stay (N := N) (Lm := Lm) g sends well). by apply keep_process. Qed.
Lemma passing_busy P a m : keeps (passing P) (recover (send_busy_rejection (N := N) (Lm := Lm) g a m)).
Proof. apply (keep_recover (passing P)), passing_handlers. pose proof (handlers_stay (N := N) (Lm := Lm) g sends well). by apply keep_busy. Qed.

(** A message: what precedes its acknowledgement moves no message; that comes last. *)
Definition handled_then_marked (m : IncomingMessage) (w w' : gw_) : Prop :=
  exists w1 : gw_, passing none w w1 /\
    disk w' = (Local.mark_processed md (Carriers.id m) (disk w1)).2 /\ (well (outer w1) -> well (outer w')).
Lemma marked_last k i w : let r := (_ ← bump k; _ ← recover (on_outer (Loops.on_the_disk (Local.mark_processed md i))); mret tt : M gw_ fault unit) w in
  disk r.2 = (Local.mark_processed md i (disk w)).2 /\ (well (outer w) -> well (outer r.2)) /\ r.1 = Ok tt.
Proof.
  cbv [mbind M_bind bump on_stats modify]. unfold recover, on_outer, failing_only, with_err, Loops.on_the_disk, zoom.
  cbn [outer with_stats]. destruct (Local.mark_processed md i _) as [[r|e] d]; cbn [map_err mret M_ret fst snd outer with_outer];
    rewrite disk_set; (split; [done|]; split; [|done]); intros Hw; by apply (well_disk g (sends := sends) (well := well)).
Qed.
Lemma bind_at {X E A B : Type} (m : M X E A) (f : A -> M X E B) w :
  (m ≫= f) w = match m w with (Ok a, w') => f a w' | (Err e, w') => (Err e, w') end.
Proof. done. Qed.
(** The handling runs through, or ends at a fault that is no error. *)
Lemma recovered {A : Type} (m : M gw_ fault A) w f : (recover m w).1 = Err f -> stopped f.
Proof. unfold recover. destruct (m w) as [[x|[e|z|]] w']; try discriminate; by intros [= <-]. Qed.
Lemma one_passes hb a qd m w : let r := dispatch_one g h c hb a qd m w in
  (r.1 = Ok tt /\ handled_then_marked m w r.2) \/ (exists f, r.1 = Err f /\ stopped f /\ passing none w r.2).
Proof.
  intros r. set (pre := (_ ← beat_opt hb (mono a); bump Stats.messages_received) : M gw_ fault unit).
  assert (keeps (passing none) pre) as Hpre.
  { apply (keep_bind (passing none)); [apply (keep_beat (passing none))|intros _; apply passing_stats]. }
  set (rest := fun w1 : gw_ => if Admission.should_reject_busy (busy_threshold_ms g) (Gateway.stats w1) qd then
      _ ← recover (send_busy_rejection g a m);
      _ ← bump Stats.busy_rejections; _ ← recover (on_outer (mark_processed c (Carriers.id m))); mret tt
    else x ← recover (process_message g h a m);
      match x with
      | Err e => _ ← bump Stats.messages_failed; _ ← recover (on_outer (mark_failed c (Carriers.id m) (display e))); mret tt
      | Ok _ => _ ← bump Stats.messages_processed; _ ← recover (on_outer (mark_processed c (Carriers.id m))); mret tt
      end).
  assert (r = rest (pre w).2 (pre w).2) as Er.
  { unfold r, dispatch_one, pre. cbv [mbind M_bind]. by destruct hb. }
  pose proof (Hpre w) as Hp. set (w0 := (pre w).2) in *. rewrite Er. clear Er. unfold rest.
  destruct (Admission.should_reject_busy _ _ _).
  - pose proof (passing_busy none a m w0) as Hb. rewrite (bind_at (recover (send_busy_rejection g a m))).
    pose proof (recovered (send_busy_rejection (N := N) (Lm := Lm) g a m) w0) as Hs.
    destruct (recover _ w0) as [[x|f] w1]; [left|right].
    + destruct (marked_last Stats.busy_rejections (Carriers.id m) w1) as (Hd & Hw & Ho). split; [exact Ho|].
      exists w1. split; [|by split]. exact (transitivity Hp Hb).
    + exists f. split; [done|]. split; [by apply Hs|]. exact (transitivity Hp Hb).
  - pose proof (passing_process none a m w0) as Hb. rewrite (bind_at (recover (process_message g h a m))).
    pose proof (recovered (process_message g h a m) w0) as Hs.
    destruct (recover _ w0) as [[x|f] w1]; [left|right].
    + destruct x as [x|e]; [destruct (marked_last Stats.messages_processed (Carriers.id m) w1) as (Hd & Hw & Ho)
        |destruct (marked_last Stats.messages_failed (Carriers.id m) w1) as (Hd & Hw & Ho)];
        (split; [exact Ho|]; exists w1; split; [|by split]; exact (transitivity Hp Hb)).
    + exists f. split; [done|]. split; [by apply Hs|]. exact (transitivity Hp Hb).
Qed.
Lemma one_keeps hb a qd m : proper (Carriers.id m) -> keeps (passing (eq (Carriers.id m))) (dispatch_one g h c hb a qd m).
Proof.
  intros Hm w. destruct (one_passes hb a qd m w) as [[_ (w1 & Hp & Hd & Hw)]|(f & _ & _ & Hp)].
  - etransitivity; [eapply passing_mono; [|exact Hp]; by intros|]. intros Hw1. split; [auto|]. rewrite Hd. by apply mark_flows.
  - eapply passing_mono; [|exact Hp]. by intros.
Qed.
Lemma each_keeps hb env ms : forall k, Forall (fun m => proper (Carriers.id m)) ms -> keeps (passing all) (dispatch_each g h c hb env k ms).
Proof.
  induction ms as [|m ms IH]; intros k Hms; cbn [dispatch_each]; [apply (keep_ret (passing all))|].
  apply Forall_cons_1 in Hms as [Hm Hms]. apply (keep_bind (passing all)); [|intros _; by apply IH].
  intros w. eapply passing_mono; [|by apply one_keeps]. by intros.
Qed.

(** A message that is waiting, or already through. *)
Definition through (t : store) (m : IncomingMessage) : Prop :=
  t !! waits p (Carriers.id m) = None /\ t !! seen p (Carriers.id m) = Some (File (Carriers.raw m)).
Definition on_its_way (t : store) (m : IncomingMessage) : Prop :=
  (t !! waits p (Carriers.id m) = Some (File (Carriers.raw m)) /\ t !! seen p (Carriers.id m) <> Some Dir) \/ through t m.
Lemma passes_through P t t' m : passes p P t t' -> through t m -> through t' m.
Proof. intros F [H1 H2]. destruct (F (Carriers.id m)) as [[E1 E2]|(_ & b & E1 & E2 & E3)]; [|congruence]. split; congruence. Qed.
Lemma passes_on_its_way P t t' m : passes p P t t' -> on_its_way t m -> on_its_way t' m.
Proof.
  intros F [[H1 H2]|Ht]; [|right; by eapply passes_through].
  destruct (F (Carriers.id m)) as [[E1 E2]|(_ & b & E1 & E2 & E3)].
  - left. by rewrite E1, E2.
  - right. rewrite H1 in E1. injection E1 as <-. done.
Qed.
(** Without failing calls a message that is handled is through. *)
Lemma marked_through m (w w' : gw_) : proper (Carriers.id m) -> well (outer w) -> oracle (disk w) = [] ->
  fs (disk w) !! (p ++ [$"cur"]) = Some Dir -> on_its_way (fs (disk w)) m -> handled_then_marked m w w' ->
  through (fs (disk w')) m /\ passing all w w'.
Proof.
  intros Hm Hw Ho Hc Hway (w1 & Hp & Hd & Hw1). destruct (Hp Hw) as [Hwell1 F1].
  pose proof (mark_flows p (Carriers.id m) (disk w1) Hm) as F2. rewrite <- Hd in F2. split.
  - destruct (passes_on_its_way none _ _ m (flows_now _ _ _ _ F1) Hway) as [[H1 H2]|Ht].
    + unfold through. rewrite Hd. apply mark_moves; [done|by eapply flows_calm|done| |done].
      apply (flows_dirs _ _ _ _ F1); [right; by left|done].
    + eapply passes_through; [apply F2|done].
  - intros _. split; [auto|]. etransitivity; eapply flows_mono; [| eassumption | | eassumption]; by intros.
Qed.
Lemma each_through hb env ms : forall k w, well (outer w) -> oracle (disk w) = [] -> fs (disk w) !! (p ++ [$"cur"]) = Some Dir ->
  Forall (fun m => proper (Carriers.id m) /\ on_its_way (fs (disk w)) m) ms ->
  exists done_, done_ `prefix_of` ms /\ Forall (through (fs (disk (dispatch_each g h c hb env k ms w).2))) done_ /\
  match (dispatch_each g h c hb env k ms w).1 with
  | Ok _ => done_ = ms
  | Err f => stopped f /\ (length done_ < length ms)%nat
  end.
Proof.
  induction ms as [|m ms IH]; intros k w Hw Ho Hc Hms; cbn [dispatch_each]; [by exists []|].
  rewrite bind_at. apply Forall_cons_1 in Hms as [[Hm Hway] Hms].
  pose proof (one_passes hb (env k) (Z.of_nat (length ms)) m w) as H.
  destruct (dispatch_one g h c hb (env k) _ m w) as [[[]|f] w2]; cbn [fst snd] in *;
    destruct H as [[Hr H]|(f' & Hr & Hs & _)]; try done.
  2:{ injection Hr as <-. exists []. split; [apply prefix_nil|]. split; [constructor|]. split; [done|]. simpl. lia. }
  destruct (marked_through m w w2 Hm Hw Ho Hc Hway H) as [Ht F]. destruct (F Hw) as [Hw2 F2].
  destruct (IH (S k) w2 Hw2) as (done_ & Hpre & Hall & Hend).
  - by eapply flows_calm.
  - apply (flows_dirs _ _ _ _ F2); [right; by left|done].
  - eapply Forall_impl; [exact Hms|]. intros x [Hx Hx']. split; [done|]. eapply passes_on_its_way; [apply F2|done].
  - exists (m :: done_). split; [by apply prefix_cons|]. split.
    + constructor; [|done]. eapply passes_through; [|exact Ht].
      assert (Forall (fun m => proper (Carriers.id m)) ms) as Hms' by (eapply Forall_impl; [exact Hms|]; by intros x [? _]).
      by apply (each_keeps hb env ms (S k) Hms' w2 Hw2).
    + destruct (dispatch_each _ _ _ _ _ _ _ w2).1; [by f_equal|]. simpl. split; [tauto|lia].
Qed.

(** C12: A pass of the dispatch loop works the inbox off, in an undisturbed
    maildir.  Whatever the handlers do and whatever the messages say, the pass
    takes up exactly the files of [new/], each with its content, and each one it is
    done with is no longer in [new/] and lies, with the content it was handled
    with, in [cur/]; it is done with all of them unless a fatal verdict of Core
    ends the process or a call never returns, and then with all before that. *)
Theorem pass_works_off hb now env w (d := disk w) :
  well (outer w) -> oracle d = [] -> (forall l, listing d l ≡ₚ l) ->
  fs d !! (p ++ [$"new"]) = Some Dir -> fs d !! (p ++ [$"cur"]) = Some Dir ->
  (forall n, is_Some (fs d !! waits p n) -> proper n) -> (forall n, fs d !! seen p n <> Some Dir) ->
  let '(r, w') := process_carrier_messages g h c hb now env w in
  exists ms finished, finished `prefix_of` ms /\
    (forall n b, fs d !! waits p n = Some (File b) <-> exists m, m ∈ ms /\ Carriers.id m = n /\ Carriers.raw m = b) /\
    Forall (through (fs (disk w'))) finished /\
    match r with
    | Ok _ => finished = ms
    | Err f => stopped f /\ (length finished < length ms)%nat
    end.
Proof.
  intros Hw Ho Hl Hn Hc Hp Hs.
  assert (forall n, n ∈ names p d <-> is_Some (fs d !! waits p n)) as Hin.
  { intros n. unfold names. rewrite (Hl _), elem_of_children. unfold waits. by rewrite in_dir_snoc. }
  destruct (check_calm p d Ho Hn ltac:(intros n Hi; by apply Hp, Hin)) as (ms & Ec & Ht & Hi).
  unfold process_carrier_messages. rewrite (bind_at (recover (on_outer (check_new c)))).
  assert (recover (on_outer (check_new c)) w = (Ok (Ok ms), with_outer (set_disk d (outer w)) w)) as ->.
  { unfold recover, on_outer, failing_only, with_err. cbn [Loops.lift_carrier check_new Local.carrier Local.inbox].
    unfold Loops.on_the_disk, zoom. fold d. by rewrite Ec. }
  set (note := if decide (ms = []) then mret tt else on_stats (Stats.note_inbox_write now)). rewrite (bind_at note).
  assert (exists w1 : gw_, note (with_outer (set_disk d (outer w)) w) = (Ok tt, w1) /\ outer w1 = set_disk d (outer w)) as (w1 & -> & Hw1).
  { unfold note. case_decide; by eexists. }
  assert (disk w1 = d) as Ed by (by rewrite Hw1, disk_set).
  destruct (each_through hb env ms 0 w1) as (finished & H1 & H2 & H3).
  - rewrite Hw1. by apply (well_disk g (sends := sends) (well := well)).
  - by rewrite Ed.
  - by rewrite Ed.
  - rewrite Ed. eapply Forall_impl; [exact Ht|]. intros m [Hm Hf]. split; [done|]. left. split; [done|apply Hs].
  - destruct (dispatch_each _ _ _ _ _ _ _ w1) as [r w']. exists ms, finished. split; [done|]. split; [|by split].
    intros n b. split.
    + intros Hb. assert (n ∈ map Carriers.id ms) as (m & -> & Hm)%list_elem_of_fmap.
      { rewrite Hi, list_elem_of_filter, Hin. unfold is_file. rewrite Hb. split; [done|by eexists]. }
      exists m. do 2 (split; [done|]). unfold reads_true in Ht. rewrite Forall_forall in Ht. destruct (Ht m Hm) as [_ E].
      rewrite Hb in E. by injection E.
    + intros (m & Hm & <- & <-). unfold reads_true in Ht. rewrite Forall_forall in Ht. by apply Ht.
Qed.
End pass.

(** ** Two messages, one of them a request *)
Definition ex_inbox : path := [$"inbox"].
Definition ex_store : store :=
  <[waits ex_inbox $"1" := File $"PDATA"]> (<[waits ex_inbox $"2" := File []]>
  (<[ex_inbox ++ [$"new"] := Dir]> (<[ex_inbox ++ [$"cur"] := Dir]> {[ [$"out"] := Dir ]}))).
Definition ex_disk : world := {| fs := ex_store; oracle := []; hist := []; listing := fun l => l |}.
Definition ex_stamp : Local.stamp := {| Local.micros := 17; Local.pid := 42; Local.uuid := $"u" |}.
Definition ex_out : Maildir.Maildir := maildir_at [$"outbox"].
Lemma ex_clear : clear ex_inbox (footprint ex_gw (fun _ => False)).
Proof.
  intros r x [Hr|[]] Hx. destruct Hr as [row id Hrow _| | | | |]; try discriminate.
  apply list_elem_of_singleton in Hrow as ->. unfold dirs in Hx.
  rewrite !elem_of_cons in Hx. destruct Hx as [->|[->|[]%not_elem_of_nil]]; split; intros [y Hy]; discriminate.
Qed.
Lemma ex_proper n : is_Some (ex_store !! waits ex_inbox n) -> proper n.
Proof.
  unfold ex_store. rewrite !lookup_insert_is_Some, lookup_singleton_is_Some.
  intros [H|[_ [H|[_ [H|[_ [H|[_ H]]]]]]]]; try discriminate; apply waits_inj in H as <-; by split.
Qed.
Lemma ex_seen n : ex_store !! seen ex_inbox n <> Some Dir.
Proof. unfold ex_store. rewrite !lookup_insert_ne, lookup_singleton_ne; try done; intros E; discriminate E. Qed.
Definition ex_pass : M (gw world unit unit) (fault (EC := ex_errors)) unit :=
  process_carrier_messages (EC := ex_errors) (CF := Exchange.ex_core) (EK := Sessions.ex_session) ex_gw
    (gateway_handlers (EC := ex_errors) (CF := Exchange.ex_core) (EK := Sessions.ex_session) (OP := InboxTheorems.Inbox.ex_pgp)
       (HT := InboxTheorems.Inbox.offline) (LO := InboxTheorems.Inbox.down) ex_gw)
    (Loops.lift_carrier (EC := ex_errors) (Local.carrier {| Local.inbox := maildir_at ex_inbox; Local.outbox := ex_out |} ex_stamp))
    None 9 (fun _ => Sessions.ex_ambient).
Definition ex_world : gw world unit unit := Sessions.ex_world ex_disk tt tt (Stats.stats_new 0).
Lemma pass_works_off_witness :
  fs (disk_of (outer (ex_pass ex_world).2)) !! waits ex_inbox $"1" = None /\
  fs (disk_of (outer (ex_pass ex_world).2)) !! seen ex_inbox $"1" = Some (File $"PDATA").
Proof.
  pose proof (pass_works_off (EC := ex_errors) (CF := Exchange.ex_core) (EK := Sessions.ex_session) (OP := InboxTheorems.Inbox.ex_pgp)
    (HT := InboxTheorems.Inbox.offline) (LO := InboxTheorems.Inbox.down) ex_gw (fun _ => False) (fun _ => True)
    ex_inbox ex_out ex_stamp ex_clear None 9 (fun _ => Sessions.ex_ambient) ex_world I eq_refl (fun l => reflexivity l)
    eq_refl eq_refl ex_proper ex_seen) as H.
  change (process_carrier_messages _ _ _ _ _ _ _) with (ex_pass ex_world) in H.
  assert ((ex_pass ex_world).1 = Ok tt) as E by (vm_compute; reflexivity).
  destruct (ex_pass ex_world) as [r w']. cbn [fst snd] in *. subst r.
  destruct H as (ms & finished & _ & Hm & Ht & ->).
  destruct (proj1 (Hm $"1" $"PDATA") eq_refl) as (m & Hin & Hid & Hraw).
  rewrite Forall_forall in Ht. destruct (Ht m Hin) as [H1 H2]. rewrite Hid in H1, H2. rewrite Hraw in H2. by split.
Defined.
End MailFlow.
