(* ===== verification/MailLoops.v ===== *)
(** * The two loops of the gateway, interleaved

    A pull loop takes mail from a server into the maildir [p]; the dispatch loop
    works that maildir off.  They run concurrently, on the same disk, and either may
    be killed with the process.  The system is a step relation: one message of one of
    the loops at a time, arriving mail, whatever else leaves the two directories
    alone, restarts, and the process being killed inside a handler or while a message
    is being staged. *)
From S2P Require Import Prelude Utf8 Fs Errors CoreTypes Confine Config CareOf Sinks SinkTheorems Carriers Stats Pull PullTheorems ImapTheorems Lambda Pgp CoreIpc Email Gateway Handlers GatewayTheorems Effects LambdaTheorems InboxTheorems Loops Footprint MailFlow.
From stdpp Require Import relations.
Import Errors Email Core Gateway Handlers Confine Effects Footprint SinkTheorems MailFlow.

Module MailLoops.
Import Pull AtLeastOnce.

Section loops.
Context `{EC : ErrorsCrate} `{CV : CoreValues} `{CF : !CoreFns} `{EK : !EmailCrates}.
Context {W : Type} `{HD : HasDisk W} `{LD : !LawfulDisk W} {N Lm : Type} `{OP : OpenPgp} `{HT : Http N} `{LO : !LambdaOps Lm}.
Context (g : Gateway (W := W)) (sends : path -> Prop) (well : W -> Prop) `{SW : !SendsWithin g sends well}.
Context {F : Type} (remote : MailCarrier F) (full mail : F -> gmap bytes bytes) `{LM : !LeavesMail remote full mail}.
Context (p : path) (out : Maildir.Maildir) (s : Local.stamp) (spam : bytes -> bool) (env : nat -> tick).
Abbreviation gw_ := (gw W N Lm).
Abbreviation h := (gateway_handlers g).
Abbreviation md := (maildir_at p).
Abbreviation local := (Loops.lift_carrier (Local.carrier {| Local.inbox := md; Local.outbox := out |} s)).
Abbreviation disk w := (disk_of (outer w)).
Abbreviation nm i := (name_of (env i)).

(** [fetched] and [found] are what the loops hold in memory; [arrived] is all mail
    there ever was on the server, [handled] what the dispatch loop has handled and
    acknowledged, by file name; [issued] counts the names given out. *)
Record state : Type := Loops_at {
  server : F; node : gw_; fetched : list IncomingMessage; found : list IncomingMessage;
  arrived : gmap bytes bytes; handled : list (bytes * bytes); issued : nat }.
Abbreviation store_of x := (fs (disk (node x))).

(** The pull loop's view: the disk, its server and the shared statistics. *)
Definition funnel_of (x : state) : funnel F := Funnel (disk (node x)) (server x) (Gateway.stats (node x)).
Definition node_of (f : funnel F) (w : gw_) : gw_ :=
  with_stats (Pull.stats f) (with_outer (set_disk (Pull.disk f) (outer w)) w).
(** A process started again on what is on the disk. *)
Definition restarted (x : state) (w : gw_) : state :=
  {| server := server x; node := w; fetched := []; found := []; arrived := arrived x; handled := handled x; issued := S (issued x) |}.

Inductive step (x : state) : state -> Prop :=
  | Arrives sv new :
      new ##ₘ arrived x -> full sv = new ∪ full (server x) -> mail sv = new ∪ mail (server x) ->
      step x (Loops_at sv (node x) (fetched x) (found x) (new ∪ arrived x) (handled x) (issued x))
  | Fetches r sv :
      check_new remote (server x) = (r, sv) ->
      step x (Loops_at sv (node x) (match r with Ok ms => ms | Err _ => [] end) (found x) (arrived x) (handled x) (issued x))
  | Delivers hb m ms r f :
      fetched x = m :: ms ->
      deliver_one remote md spam hb (env (issued x)) m (funnel_of x) = (r, f) ->
      step x (Loops_at (far f) (node_of f (node x)) ms (found x) (arrived x) (handled x) (S (issued x)))
  | Finds r w :
      (forall l n, n ∈ listing (disk (node x)) l -> n ∈ l) ->
      recover (on_outer (check_new local)) (node x) = (r, w) ->
      step x (Loops_at (server x) w (fetched x) (match r with Ok (Ok ms) => ms | _ => [] end) (arrived x) (handled x) (issued x))
  | Handles hb a qd m ms r w :
      found x = m :: ms ->
      dispatch_one g h local hb a qd m (node x) = (r, w) ->
      step x (match r with
              | Ok _ => Loops_at (server x) w (fetched x) ms (arrived x) ((Carriers.id m, Carriers.raw m) :: handled x) (issued x)
              | Err _ => Loops_at (server x) w (fetched x) [] (arrived x) (handled x) (issued x)
              end)
  | Meanwhile w :
      well (outer w) -> passes p none (store_of x) (fs (disk w)) ->
      step x (Loops_at (server x) w (fetched x) (found x) (arrived x) (handled x) (issued x))
  | Restarts w : well (outer w) -> fs (disk w) = store_of x -> step x (restarted x w)
  | Killed_handling a m w run new :
      run ∈ [process_message g h a m; send_busy_rejection g a m] ->
      hist (disk (run (node x)).2) = new ++ hist (disk (node x)) ->
      well (outer w) -> fs (disk w) ∈ new -> step x (restarted x w)
  | Killed_staging b w new :
      hist (stage p env (issued x) b (disk (node x))).2 = new ++ hist (disk (node x)) ->
      well (outer w) -> fs (disk w) ∈ new -> step x (restarted x w).

(** Nothing pulled, nothing handled yet, and no file of the inbox has a name that
    will be given out. *)
Record starts (x : state) : Prop := {
  st_well : well (outer (node x));
  st_mail : arrived x = full (server x) /\ arrived x = mail (server x);
  st_idle : fetched x = [] /\ found x = [];
  st_named n : is_Some (store_of x !! waits p n) -> proper n;
  st_fresh i : (issued x <= i)%nat -> store_of x !! waits p (nm i) = None }.

(** ** Staging a message *)
Definition aside (k : nat) (r : path) : Prop := r = temp_at p env k \/ r = staged_at p env k.
Lemma in_dir_prefix a b n m : in_dir p a n `prefix_of` in_dir p b m -> a = b /\ n = m.
Proof. intros H. apply in_dir_inj with p. apply prefix_length_eq; [done|]. unfold in_dir. rewrite !length_app. done. Qed.
Lemma aside_in k a n : inside (aside k) (in_dir p a n) \/ above (aside k) (in_dir p a n) ->
  n = nm k /\ (a = $"tmp" \/ a = $"new").
Proof. intros [(r & [->| ->] & H)|(r & [->| ->] & H)]; apply in_dir_prefix in H as [H1 H2]; auto. Qed.
Lemma aside_else k st st' a n : confined (aside k) st st' -> (a <> $"tmp" /\ a <> $"new" \/ n <> nm k) ->
  st' !! in_dir p a n = st !! in_dir p a n.
Proof. intros C H. apply (confined_clear (aside k)); [done|..]; intros Hi; destruct (aside_in k a n); tauto. Qed.
Lemma aside_waits k st st' n : confined (aside k) st st' -> n <> nm k -> st' !! waits p n = st !! waits p n.
Proof. intros C Ne. apply (aside_else k); auto. Qed.
Lemma aside_seen k st st' n : confined (aside k) st st' -> st' !! seen p n = st !! seen p n.
Proof. intros C. by apply (aside_else k); [done|left]. Qed.
Lemma stage_touches k b d : plain_name (nm k) = true -> touches (aside k) d (stage p env k b d).2.
Proof.
  intros Hp. assert (within (aside k) (stage p env k b)) as H; [|apply H].
  assert (inside (aside k) (temp_at p env k)) as I1 by (apply inside_here; by left).
  assert (inside (aside k) (staged_at p env k)) as I2 by (apply inside_here; by right).
  unfold stage, Maildir.write_message. fold (nm k). cbn [Maildir.tmp_dir Maildir.new_dir maildir_at].
  rewrite !(join_plain _ (nm k)), !in_dir_snoc by done. fold (temp_at p env k) (staged_at p env k). unfold lift_io. stay.
Qed.

(** ** What holds of the disk and the server *)
Definition lodged (st : store) (k : nat) (hd : list (bytes * bytes)) (b : bytes) : Prop := exists i, (i < k)%nat /\
  (st !! waits p (nm i) = Some (File b) \/
   (st !! waits p (nm i) = None /\ st !! seen p (nm i) = Some (File b) /\ (nm i, b) ∈ hd)).
Record keeps_mail (sv arr : gmap bytes bytes) (st : store) (k : nat) (hd : list (bytes * bytes)) : Prop := {
  k_named n : is_Some (st !! waits p n) -> proper n;
  k_fresh i : (k <= i)%nat -> st !! waits p (nm i) = None;
  k_kept j b : arr !! j = Some b -> sv !! j = Some b \/ spam b = true \/ lodged st k hd b }.
Definition held (st : store) (k : nat) (m : IncomingMessage) : Prop :=
  proper (Carriers.id m) /\ (forall b, st !! waits p (Carriers.id m) = Some (File b) -> b = Carriers.raw m) /\
  forall i, (k <= i)%nat -> Carriers.id m <> nm i.

Lemma keeps_passes P sv arr st st' k hd hd' : passes p P st st' ->
  (forall n b, P n -> st !! waits p n = Some (File b) -> (n, b) ∈ hd') -> hd ⊆ hd' ->
  keeps_mail sv arr st k hd -> keeps_mail sv arr st' k hd'.
Proof.
  intros Hp Hd Hsub [K2 K3 K4]. split.
  - intros n H. apply K2. destruct (Hp n) as [[<- _]|(_ & b & -> & _)]; [done|by eexists].
  - intros i Hi. specialize (K3 i Hi). destruct (Hp (nm i)) as [[-> _]|(_ & b & E & _)]; congruence.
  - intros j b Hj. destruct (K4 j b Hj) as [H|[H|(i & Hi & H)]]; auto. right. right. exists i. split; [done|].
    destruct (Hp (nm i)) as [[-> ->]|(Hn & b' & E1 & E2 & E3)].
    + destruct H as [H|(H1 & H2 & H3)]; [by left|right]. auto.
    + right. destruct H as [H|[H _]]; [|congruence]. rewrite H in E1. injection E1 as <-. eauto.
Qed.
Lemma keeps_aside sv arr st st' k hd : fresh_names env -> proper (nm k) -> confined (aside k) st st' ->
  keeps_mail sv arr st k hd -> keeps_mail sv arr st' (S k) hd.
Proof.
  intros [_ Hi] Hp C [K2 K3 K4]. split.
  - intros n H. destruct (decide (n = nm k)) as [->|Ne]; [done|]. apply K2. by rewrite <- (aside_waits k st st').
  - intros i Hk. rewrite (aside_waits k st st' _ C); [apply K3; lia|]. intros E%Hi. lia.
  - intros j b Hj. destruct (K4 j b Hj) as [H|[H|(i & Hk & H)]]; auto. right. right. exists i. split; [lia|].
    rewrite (aside_waits k st st' _ C), (aside_seen k st st' _ C); [done|]. intros E%Hi. lia.
Qed.
Lemma keeps_server sv sv' arr st k hd :
  (forall j b, arr !! j = Some b -> sv !! j = Some b -> sv' !! j = Some b \/ spam b = true \/ lodged st k hd b) ->
  keeps_mail sv arr st k hd -> keeps_mail sv' arr st k hd.
Proof.
  intros H [K2 K3 K4]. split; [done|done|].
  intros j b Hj. destruct (K4 j b Hj) as [?|?]; auto.
Qed.
Lemma held_passes P st st' k m : passes p P st st' -> held st k m -> held st' k m.
Proof.
  intros Hp (H1 & H2 & H3). split; [done|]. split; [|done]. intros b Hb. apply H2.
  destruct (Hp (Carriers.id m)) as [[<- _]|(_ & b' & _ & E & _)]; congruence.
Qed.
Lemma held_aside st st' k m : confined (aside k) st st' -> held st k m -> held st' (S k) m.
Proof.
  intros C (H1 & H2 & H3). split; [done|]. split; [|intros i Hi; apply H3; lia].
  intros b. rewrite (aside_waits k st st' _ C); [apply H2|]. by apply H3.
Qed.

(** ** The invariant *)
Record sound (x : state) : Prop := {
  so_well : well (outer (node x));
  so_full : full (server x) ⊆ arrived x;
  so_kept : keeps_mail (mail (server x)) (arrived x) (store_of x) (issued x) (handled x);
  so_fetched : Forall (fun m => arrived x !! Carriers.id m = Some (Carriers.raw m) /\
    exists v b, full v !! Carriers.id m = Some b) (fetched x);
  so_found : Forall (held (store_of x) (issued x)) (found x) }.
Context (Hclear : clear p (footprint g sends)) (Hfresh : fresh_names env) (Hutf8 : forall i, is_utf8 (nm i) = true).
Lemma named i : proper (nm i).
Proof. split; [apply Hfresh|apply Hutf8]. Qed.

Lemma sound_start x : starts x -> sound x.
Proof.
  intros [H1 [H2 H2'] [H3 H4] H5 H6]. split; [done|by rewrite H2| |rewrite H3; constructor|rewrite H4; constructor].
  split; [done|done|]. intros j b. rewrite H2'. auto.
Qed.
Lemma sound_arrives x sv new : new ##ₘ arrived x -> full sv = new ∪ full (server x) -> mail sv = new ∪ mail (server x) -> sound x ->
  sound (Loops_at sv (node x) (fetched x) (found x) (new ∪ arrived x) (handled x) (issued x)).
Proof.
  intros Hd Hf Hm [H1 H2 [K2 K3 K4] H3 H4]. split; [done|cbn; rewrite Hf; by apply map_union_mono_l| | |done].
  - split; cbn; [done|done|].
    + intros j b [Hj|[_ Hj]]%lookup_union_Some_raw; rewrite Hm.
      * left. by apply lookup_union_Some_l.
      * destruct (K4 j b Hj) as [H|H]; [left|by right]. apply lookup_union_Some_raw. right. split; [|done].
        by eapply map_disjoint_Some_r.
  - eapply Forall_impl; [exact H3|]. intros m [Hj Hid]. cbn in *. split; [|done]. apply lookup_union_Some_raw. right. split; [|done].
    by eapply map_disjoint_Some_r.
Qed.
Lemma sound_fetches x r sv : check_new remote (server x) = (r, sv) -> sound x ->
  sound (Loops_at sv (node x) (match r with Ok ms => ms | Err _ => [] end) (found x) (arrived x) (handled x) (issued x)).
Proof.
  intros E [H1 Hs H2 H3 H4]. destruct (check_keeps (c := remote) (server x)) as [Hf Hk]. rewrite E in Hf, Hk. cbn [snd] in Hf, Hk.
  split; [done|cbn; by rewrite Hf| | |done]; cbn.
  - by rewrite Hk.
  - destruct r as [ms|e]; [|constructor]. eapply Forall_impl; [by eapply (check_true (c := remote))|].
    intros m Hm. cbn in *. split; [by apply (lookup_weaken _ _ _ _ Hm)|eauto].
Qed.
Lemma sound_moves P x w : passing well p P (node x) w ->
  (forall n b, P n -> store_of x !! waits p n = Some (File b) -> (n, b) ∈ handled x) -> sound x ->
  sound (Loops_at (server x) w (fetched x) (found x) (arrived x) (handled x) (issued x)).
Proof.
  intros Hp Hd [H1 Hs H2 H3 H4]. destruct (Hp H1) as [Hw [_ Hf _ _]]. split; [done|done| |done|]; cbn.
  - by eapply keeps_passes.
  - eapply Forall_impl; [exact H4|]. intros m. by eapply held_passes.
Qed.
Lemma sound_finds x r w : (forall l n, n ∈ listing (disk (node x)) l -> n ∈ l) ->
  recover (on_outer (check_new local)) (node x) = (r, w) -> sound x ->
  sound (Loops_at (server x) w (fetched x) (match r with Ok (Ok ms) => ms | _ => [] end) (arrived x) (handled x) (issued x)).
Proof.
  intros Hl E H. assert (passing well p none (node x) w) as Hp.
  { replace w with (recover (on_outer (check_new local)) (node x)).2 by (by rewrite E).
    apply (keep_recover (passing well p none)). eapply passing_disk; [exact SW|]. intros d. apply check_flows. }
  destruct (sound_moves none x w Hp ltac:(done) H) as [H1 Hs H2 H3 H4]. split; [done..|]. cbn in *.
  revert E. unfold recover, on_outer, failing_only, with_err. cbn [Loops.lift_carrier check_new Local.carrier Local.inbox].
  unfold Loops.on_the_disk, zoom. destruct (Local.check_new md (disk (node x))) as [[ms|e] d] eqn:Ec; cbn [map_err];
    intros [= <- <-]; [|constructor].
  assert (reads_true p (fs (disk (node x))) ms) as Ht.
  { eapply check_reads_true; [|exact Ec]. intros n Hn%Hl%elem_of_children. apply H. unfold waits. by rewrite <- in_dir_snoc. }
  destruct H as [H0 _ Hk _ _]. destruct (Hp H0) as [_ [_ Hf _ _]]. eapply Forall_impl; [exact Ht|]. intros m [Hm Hr]. cbn in *.
  eapply held_passes; [exact Hf|]. split; [done|]. split.
  - intros b Hb. rewrite Hr in Hb. by injection Hb.
  - intros i Hi E'. apply Hk in Hi. congruence.
Qed.
Lemma stage_confined b x : confined (aside (issued x)) (store_of x) (fs (stage p env (issued x) b (disk (node x))).2).
Proof. apply (stage_touches (issued x) b (disk (node x))), named. Qed.
(** What the message does to the disk, and what it can cost the server. *)
Lemma delivered hb m x f (d := Pull.disk f) (k := issued x) :
  (exists v b, full v !! Carriers.id m = Some b) ->
  f = (deliver_one remote md spam hb (env k) m (funnel_of x)).2 ->
  confined (aside k) (store_of x) (fs d) /\ full (far f) ⊆ full (server x) /\
  forall j b, mail (server x) !! j = Some b -> mail (far f) !! j = Some b \/
    j = Carriers.id m /\ (spam (Carriers.raw m) = true \/ fs d !! waits p (nm k) = Some (File (Carriers.raw m))).
Proof.
  intros Hid Ef.
  pose proof (deliver_one_run remote p spam hb env k m (funnel_of x)) as R. cbv zeta in R. rewrite <- Ef in R. clear Ef.
  destruct (spam (Carriers.raw m)) eqn:Es; cbn [funnel_of Pull.disk far] in R.
  - destruct R as [Rd Rf]. unfold d. rewrite Rd, Rf. split; [done|]. split; [by apply (mark_adds_nothing (c := remote))|].
    intros j b Hj. destruct (mark_removes_only (c := remote) (Carriers.id m) (server x) j b Hid Hj) as [H|H]; [by left|right]. auto.
  - pose proof (stage_confined (Carriers.raw m) x) as C. fold k in C.
    pose proof (stage_staged p env k (Carriers.raw m) (disk (node x)) Hfresh) as H.
    destruct (stage p env k (Carriers.raw m) (disk (node x))) as [r d']. destruct R as [Rd Rf]. fold d in Rd. subst d'.
    destruct H as [_ H]. split; [exact C|]. destruct r as [n|e]; rewrite Rf.
    + split; [by apply (mark_adds_nothing (c := remote))|]. intros j b Hj.
      destruct (mark_removes_only (c := remote) (Carriers.id m) (server x) j b Hid Hj) as [H'|H']; [by left|right].
      split; [done|]. right. by apply H.
    + destruct (failed_keeps (c := remote) (Carriers.id m) (display e) (server x)) as [-> ->]. split; [done|]. by left.
Qed.
Lemma sound_delivers x hb m ms r f : fetched x = m :: ms ->
  deliver_one remote md spam hb (env (issued x)) m (funnel_of x) = (r, f) -> sound x ->
  sound (Loops_at (far f) (node_of f (node x)) ms (found x) (arrived x) (handled x) (S (issued x))).
Proof.
  intros Em E [H1 Hf H2 H3 H4]. rewrite Em in H3. apply Forall_cons_1 in H3 as [[Hm Hid] H3]. cbn in Hm.
  destruct (delivered hb m x f Hid) as (C & Hs & Hk); [by rewrite E|].
  assert (disk (node_of f (node x)) = Pull.disk f) as Ed by (unfold node_of; cbn; by rewrite disk_set).
  split; cbn [server node fetched found arrived handled issued]; rewrite ?Ed; [|by etransitivity| |done|].
  - unfold node_of. cbn. by apply (well_disk g (sends := sends) (well := well)).
  - pose proof (keeps_aside _ _ _ _ _ _ Hfresh (named _) C H2) as K. apply (keeps_server (mail (server x))); [|done].
    intros j b Ha Hj. destruct (Hk j b Hj) as [H|[-> H]]; [by left|right].
    rewrite Hm in Ha. injection Ha as <-. destruct H as [H|H]; [by left|right]. exists (issued x). split; [lia|by left].
  - eapply Forall_impl; [exact H4|]. intros m'. by apply held_aside.
Qed.
Lemma sound_handles x hb a qd m ms r w : found x = m :: ms ->
  dispatch_one g h local hb a qd m (node x) = (r, w) -> sound x ->
  sound (match r with
    | Ok _ => Loops_at (server x) w (fetched x) ms (arrived x) ((Carriers.id m, Carriers.raw m) :: handled x) (issued x)
    | Err _ => Loops_at (server x) w (fetched x) [] (arrived x) (handled x) (issued x)
    end).
Proof.
  intros Em E H. pose proof (one_passes g sends well p out s Hclear hb a qd m (node x)) as [[Hr Hp]|(e & Hr & _ & Hp)];
    rewrite E in Hr, Hp; cbn [fst snd] in *; rewrite Hr.
  - destruct H as [H1 Hs H2 H3 H4]. rewrite Em in H4. apply Forall_cons_1 in H4 as [(Hm & Hc & _) H4].
    destruct (one_keeps g sends well p out s Hclear hb a qd m Hm (node x) H1) as [Hw [_ Hf _ _]].
    rewrite E in Hw, Hf. cbn [snd] in *. split; [done|done| |done|]; cbn.
    + eapply keeps_passes; [exact Hf| | |exact H2].
      * intros n b <- Hb. rewrite (Hc b Hb). by left.
      * intros y Hy. by right.
    + eapply Forall_impl; [exact H4|]. intros m'. by eapply held_passes.
  - destruct (sound_moves none x w Hp ltac:(done) H) as [H1 Hs H2 H3 H4]. split; [done..|constructor].
Qed.
(** Only the files and the well-formedness of the outside survive a process. *)
Lemma sound_restarted x w : well (outer w) -> full (server x) ⊆ arrived x ->
  keeps_mail (mail (server x)) (arrived x) (fs (disk w)) (S (issued x)) (handled x) -> sound (restarted x w).
Proof. intros Hw Hf K. split; [done|done|done|constructor..]. Qed.
Lemma keeps_later sv arr st k hd : keeps_mail sv arr st k hd -> keeps_mail sv arr st (S k) hd.
Proof. intros K. apply (keeps_aside _ _ st); [done|apply named|done|done]. Qed.
Lemma sound_killed_handling x a m w run new :
  run ∈ [process_message g h a m; send_busy_rejection (N := N) (Lm := Lm) g a m] ->
  hist (disk (run (node x)).2) = new ++ hist (disk (node x)) ->
  well (outer w) -> fs (disk w) ∈ new -> sound x -> sound (restarted x w).
Proof.
  intros Hrun E Hw Hin [H1 Hf H2 _ _]. apply sound_restarted; [done|done|].
  pose proof (handlers_stay (N := N) (Lm := Lm) g sends well) as Hh.
  assert (keeps (on_its_disk g sends well) run) as K.
  { rewrite !elem_of_cons in Hrun. destruct Hrun as [->|[->|[]%not_elem_of_nil]]; [by apply keep_process|by apply keep_busy]. }
  destruct (K (node x) H1) as [_ T]. destruct (touches_flows p none _ _ _ Hclear T) as [_ _ (new' & E' & F') _].
  rewrite E in E'. apply app_inv_tail in E' as <-. rewrite Forall_forall in F'.
  apply keeps_later. eapply keeps_passes; [by apply F'|done|done|done].
Qed.
Lemma sound_killed_staging x b w new :
  hist (stage p env (issued x) b (disk (node x))).2 = new ++ hist (disk (node x)) ->
  well (outer w) -> fs (disk w) ∈ new -> sound x -> sound (restarted x w).
Proof.
  intros E Hw Hin [H1 Hf H2 _ _]. apply sound_restarted; [done|done|].
  pose proof (stage_touches (issued x) b (disk (node x)) ltac:(apply named)) as [_ (new' & E' & F') _].
  rewrite E in E'. apply app_inv_tail in E' as <-. rewrite Forall_forall in F'.
  eapply keeps_aside; [done|apply named|by apply F'|done].
Qed.
Lemma sound_step x y : step x y -> sound x -> sound y.
Proof.
  intros [sv new H1 H2 H3|r sv H|hb m ms r f H1 H2|r w H1 H2|hb a qd m ms r w H1 H2|w H1 H2|w H1 H2|a m w run new H1 H2 H3 H4|b w new H1 H2 H3] Hx.
  - by apply sound_arrives.
  - by apply sound_fetches.
  - by eapply sound_delivers.
  - by eapply sound_finds.
  - by eapply sound_handles.
  - destruct Hx as [K1 K0 K2 K3 K4]. split; [done|done| |done|]; cbn.
    + by eapply keeps_passes.
    + eapply Forall_impl; [exact K4|]. intros m. by eapply held_passes.
  - apply sound_restarted; [done|apply Hx|]. rewrite H2. by apply keeps_later, Hx.
  - by eapply sound_killed_handling.
  - by eapply sound_killed_staging.
Qed.

(** C4: No mail is lost between the server and the handlers, given a carrier that
    names messages by identity and reports them truly ([LeavesMail]): what a check
    returns is what the server holds under that name, and a deletion removes only
    the message it names.  An IMAP account whose server refuses no FETCH is one
    ([imap_leaves_mail]); one whose server refuses a FETCH is not (C38), and a POP3
    account is not (it deletes by numbers the server gives anew each session,
    [pop3_acknowledges_every_other]).  Then, however the pull loop, the
    dispatch loop, arriving mail and the rest of the system interleave, whichever
    server and file calls fail, and wherever the process is killed and started
    again, even inside a handler or while a message is being staged: every message
    that ever arrived on the server is still there, unmarked, or was judged spam, or lies
    whole in the inbox's [new/], or lies whole in [cur/] and then the dispatch loop
    has handled it, with exactly that content. *)
Theorem no_mail_is_lost x0 x j b :
  starts x0 -> rtc step x0 x -> arrived x !! j = Some b ->
  mail (server x) !! j = Some b \/ spam b = true \/
  exists n, store_of x !! waits p n = Some (File b) \/
    (store_of x !! seen p n = Some (File b) /\ (n, b) ∈ handled x).
Proof.
  intros H0 Hr Hj. assert (sound x) as [_ _ K _ _].
  { clear Hj. apply sound_start in H0. induction Hr as [|x0 x1 x2 H1 _ IH]; [done|]. by eapply IH, sound_step. }
  destruct (k_kept _ _ _ _ _ K j b Hj) as [H|[H|(i & _ & H)]]; auto. right. right. exists (nm i).
  destruct H as [H|(_ & H & H')]; auto.
Qed.
End loops.

(** ** One mail, pulled over IMAP and handled *)
Definition ex_disk : world := {| fs := <[ex_inbox ++ [$"new"] := Dir]> (<[ex_inbox ++ [$"cur"] := Dir]>
    (<[ex_inbox ++ [$"tmp"] := Dir]> {[ [$"out"] := Dir ]}));
  oracle := []; hist := []; listing := fun l => l |}.
Abbreviation ex_state := (state (W := world) (N := unit) (Lm := unit) (F := Imap.imap ImapServer.imapd)).
Abbreviation ex_remote := (Imap.carrier (EC := ex_errors)
  (PP := ImapServer.rfc3501 (fun u => u) ImapSessions.ex_cut (fun _ => false)) ImapSessions.ex_account).
Abbreviation ex_step := (step (EC := ex_errors) (CF := Exchange.ex_core) (EK := Sessions.ex_session)
  (OP := InboxTheorems.Inbox.ex_pgp) (HT := InboxTheorems.Inbox.offline) (LO := InboxTheorems.Inbox.down)
  ex_gw (fun _ => True) ex_remote ImapSessions.full_of ImapSessions.mail_of ex_inbox ex_out ex_stamp (fun _ => false) ex_env).
Abbreviation ex_local := (Loops.lift_carrier (EC := ex_errors)
  (Local.carrier {| Local.inbox := maildir_at ex_inbox; Local.outbox := ex_out |} ex_stamp)).
Abbreviation ex_handlers := (gateway_handlers (EC := ex_errors) (CF := Exchange.ex_core) (EK := Sessions.ex_session)
  (OP := InboxTheorems.Inbox.ex_pgp) (HT := InboxTheorems.Inbox.offline) (LO := InboxTheorems.Inbox.down) ex_gw).
Definition ex_mail : IncomingMessage :=
  {| Carriers.id := $"7"; Carriers.raw := $"PDATA"; source := Imap.source_of ImapSessions.ex_account $"7" |}.
Definition ex_name : bytes := name_of (ex_env 0).
Definition ex_file : IncomingMessage := {| Carriers.id := ex_name; Carriers.raw := $"PDATA"; source := $"/inbox/new/" ++ ex_name |}.
Definition x0 : ex_state := Loops_at (ImapSessions.ex_imap {[7%N := $"PDATA"]}) (Sessions.ex_world ex_disk tt tt (Stats.stats_new 0)) [] []
  {[$"7" := $"PDATA"]} [] 0.
Definition fetching := check_new ex_remote (server x0).
Definition x1 : ex_state := Loops_at fetching.2 (node x0) [ex_mail] [] (arrived x0) [] 0.
Definition staging_run := deliver_one ex_remote (maildir_at ex_inbox) (fun _ => false) None (ex_env 0) ex_mail (funnel_of x1).
Definition x2 : ex_state := Loops_at (far staging_run.2) (node_of staging_run.2 (node x1)) [] [] (arrived x1) [] 1.
Definition finding : result (fault (EC := ex_errors)) (result (AntieError (EC := ex_errors)) (list IncomingMessage)) * gw world unit unit :=
  recover (on_outer (check_new ex_local)) (node x2).
Definition x3 : ex_state := Loops_at (server x2) finding.2 [] (match finding.1 with Ok (Ok ms) => ms | _ => [] end) (arrived x2) [] 1.
Definition handling := dispatch_one (EC := ex_errors) (CF := Exchange.ex_core) (EK := Sessions.ex_session)
  ex_gw ex_handlers ex_local None Sessions.ex_ambient 0 ex_file (node x3).
Definition x4 : ex_state := Loops_at (server x3) handling.2 [] [] (arrived x3) [(ex_name, $"PDATA")] 1.

Lemma ex_leaves : LeavesMail ex_remote ImapSessions.full_of ImapSessions.mail_of.
Proof. apply ImapSessions.imap_leaves_mail; [apply ImapSessions.ex_cut_ok|done]. Qed.
Lemma ex_starts : starts (fun _ => True) ImapSessions.full_of ImapSessions.mail_of ex_inbox ex_env x0.
Proof.
  assert (forall n, fs ex_disk !! waits ex_inbox n = None) as H.
  { intros n. cbn [ex_disk fs]. rewrite !lookup_insert_ne, lookup_singleton_ne; try done; intros E; discriminate E. }
  split; [done..| |].
  - intros n Hn. change (is_Some (fs ex_disk !! waits ex_inbox n)) in Hn. rewrite H in Hn. by destruct Hn.
  - intros i _. apply H.
Qed.
Lemma ex_utf8 i : is_utf8 (name_of (ex_env i)) = true.
Proof.
  apply is_ascii_utf8. rewrite ex_env_name, is_ascii_app. apply andb_true_iff. split; [by vm_compute|].
  apply forallb_forall. intros c Hc%list_elem_of_In. pose proof (show_N_digits (N.of_nat i)) as D.
  rewrite Forall_forall in D. apply D in Hc. revert Hc. destruct c as [[] [] [] [] [] [] [] []]; by vm_compute.
Qed.
Lemma ex_run : rtc ex_step x0 x4.
Proof.
  eapply rtc_l; [refine (Fetches _ _ _ _ _ _ _ _ _ _ x0 (Ok [ex_mail]) fetching.2 _);
    vm_compute; reflexivity|].
  eapply rtc_l; [refine (Delivers _ _ _ _ _ _ _ _ _ _ x1 None ex_mail [] staging_run.1 staging_run.2 _ _);
    [reflexivity|apply surjective_pairing]|].
  eapply rtc_l; [refine (Finds _ _ _ _ _ _ _ _ _ _ x2 finding.1 finding.2 (fun l n H => H) _); apply surjective_pairing|].
  apply rtc_once.
  refine (Handles _ _ _ _ _ _ _ _ _ _ x3 None Sessions.ex_ambient 0 ex_file [] (Ok tt) handling.2 _ _);
    [vm_compute; reflexivity|]. unfold handling. etransitivity; [apply surjective_pairing|]. apply (f_equal (fun r => (r, handling.2))). vm_compute. reflexivity.
Qed.
Lemma no_mail_is_lost_witness :
  ImapSessions.mail_of (server x4) !! $"7" = None /\
  exists n, fs (disk_of (outer (node x4))) !! waits ex_inbox n = Some (File $"PDATA") \/
    (fs (disk_of (outer (node x4))) !! seen ex_inbox n = Some (File $"PDATA") /\ (n, $"PDATA") ∈ handled x4).
Proof.
  assert (ImapSessions.mail_of (server x4) !! $"7" = None) as E by (vm_compute; reflexivity). split; [exact E|].
  destruct (no_mail_is_lost (LM := ex_leaves) (EC := ex_errors) (CF := Exchange.ex_core) (EK := Sessions.ex_session)
    (OP := InboxTheorems.Inbox.ex_pgp) (HT := InboxTheorems.Inbox.offline) (LO := InboxTheorems.Inbox.down)
    ex_gw (fun _ => False) (fun _ => True) ex_remote ImapSessions.full_of ImapSessions.mail_of ex_inbox ex_out ex_stamp (fun _ => false) ex_env
    ex_clear ex_env_fresh ex_utf8 x0 x4 $"7" $"PDATA" ex_starts ex_run eq_refl)
    as [H|[H|H]]; [rewrite E in H; discriminate H|discriminate H|exact H].
Defined.
End MailLoops.
