(* ===== verification/BootTheorems.v ===== *)
(** * The theorems on construction and start-up *)
From S2P Require Import Prelude Utf8 Fs Errors CoreTypes Config CareOf Sinks Carriers Stats Lambda Pgp Email LambdaTheorems EmailTheorems Gateway Handlers Loops Boot.
Import Errors Email Core Boot.

(** ** One loop per account *)
Module Tasks.
Section tasks_.
Context `{RU : Rustls}.

Lemma elem_enabled {A : Type} (on : A -> bool) (l : list A) x :
  x ∈ enabled on l <-> l !! x.1 = Some x.2 /\ on x.2 = true.
Proof.
  unfold enabled. rewrite list_elem_of_In, filter_In, <- list_elem_of_In, list_elem_of_lookup.
  split.
  - intros [(i & Hi) Hon]. rewrite list_lookup_imap in Hi. destruct (l !! i) eqn:E; [|done].
    injection Hi as <-. done.
  - intros [Hl Hon]. split; [|done]. exists x.1. rewrite list_lookup_imap, Hl. by destruct x.
Qed.
Lemma NoDup_enabled {A : Type} (on : A -> bool) (l : list A) : NoDup (map fst (enabled on l)).
Proof.
  assert (forall (k : list (nat * A)), NoDup (map fst k) -> NoDup (map fst (List.filter (fun x => on x.2) k))) as Hf.
  { induction k as [|x k IH]; cbn; [done|]. intros [Hx Hk]%NoDup_cons. specialize (IH Hk).
    destruct (on x.2); [|done]. cbn. apply NoDup_cons. split; [|done]. intros Hin. apply Hx.
    apply list_elem_of_fmap in Hin as (y & -> & Hy). rewrite list_elem_of_In, filter_In, <- list_elem_of_In in Hy.
    apply list_elem_of_fmap. exists y. tauto. }
  apply Hf. apply NoDup_alt. intros i j n. rewrite !list_lookup_fmap, !list_lookup_imap.
  destruct (l !! i), (l !! j); cbn; congruence.
Qed.
Lemma account_inj kind i u s j u' s' : Loops.account kind i u s = Loops.account kind j u' s' -> i = j.
Proof.
  unfold Loops.account. intros E%app_inv_head%app_inv_head.
  assert (forall n r, split_once "("%char (show_N n ++ $"(" ++ r) = Some (show_N n, r)) as S.
  { intros n r. apply split_once_Some. split; [done|]. by apply show_N_no. }
  apply (f_equal (split_once "("%char)) in E. rewrite !S in E. injection E as E _. apply (inj show_N) in E. lia.
Qed.
Lemma NoDup_accounts {A : Type} kind (user server : A -> bytes) (l : list (nat * A)) : NoDup (map fst l) ->
  NoDup (map (fun x => Loops.account kind x.1 (user x.2) (server x.2)) l).
Proof.
  induction l as [|x l IH]; cbn; [constructor|]. intros [Hx Hl]%NoDup_cons. apply NoDup_cons. split; [|by apply IH].
  intros (y & E & Hy)%list_elem_of_fmap. apply account_inj in E. apply Hx. apply list_elem_of_fmap. by exists y.
Qed.

Lemma task_names {A : Type} (mk : nat -> A -> task) name (l : list (nat * A)) :
  (forall i x, heartbeat_of (mk i x) = Some (name i x)) ->
  omap heartbeat_of (map (fun x => mk x.1 x.2) l) = map (fun x => name x.1 x.2) l.
Proof. intros H. induction l as [|x l IH]; cbn; [done|]. by rewrite H, IH. Qed.
Lemma heartbeats_of_tasks a skip_list armed :
  omap heartbeat_of (tasks a skip_list armed) =
  (if Config.maildir (Config.carriers a) then [$"dispatch"] else []) ++
  map (fun x => Loops.account $"imap" x.1 (Config.imap_username x.2) (Config.imap_server x.2))
    (enabled Config.imap_enabled (Config.imap (Config.carriers a))) ++
  map (fun x => Loops.account $"pop3" x.1 (Config.pop3_username x.2) (Config.pop3_server x.2))
    (enabled Config.pop3_enabled (Config.pop3 (Config.carriers a))).
Proof.
  unfold tasks. rewrite !omap_app.
  rewrite (task_names ImapTask (fun i x => Loops.account $"imap" i (Config.imap_username x) (Config.imap_server x))) by done.
  rewrite (task_names Pop3Task (fun i x => Loops.account $"pop3" i (Config.pop3_username x) (Config.pop3_server x))) by done.
  f_equal; [by destruct (Config.maildir (Config.carriers a))|]. f_equal. etransitivity; [|apply app_nil_r]. f_equal.
  destruct (Config.maildir (Config.carriers a)), skip_list, armed as [[]|]; reflexivity.
Qed.
(** The tasks that are no carrier's loop. *)
Lemma elem_of_tasks a skip_list armed t : t ∈ tasks a skip_list armed <->
  (exists md, t = DispatchTask md /\ Config.maildir (Config.carriers a) = Some md) \/
  (exists x, t = ImapTask x.1 x.2 /\ x ∈ enabled Config.imap_enabled (Config.imap (Config.carriers a))) \/
  (exists x, t = Pop3Task x.1 x.2 /\ x ∈ enabled Config.pop3_enabled (Config.pop3 (Config.carriers a))) \/
  heartbeat_of t = None /\ t ∈ tasks a skip_list armed.
Proof.
  split; [|unfold tasks; rewrite !elem_of_app, !list_elem_of_fmap;
    intros [(md & -> & ->) | [? | [? | [_ ?]]]]; [left; by apply list_elem_of_singleton| | |]; tauto].
  intros Ht. destruct (heartbeat_of t) eqn:E; [|tauto]. revert Ht.
  unfold tasks. rewrite !elem_of_app, !list_elem_of_fmap.
  intros [H | [? | [? | H]]]; [|tauto|tauto|].
  - left. destruct (Config.maildir (Config.carriers a)) as [md|]; [|by apply elem_of_nil in H].
    apply list_elem_of_singleton in H as ->. by exists md.
  - exfalso. revert E. destruct H as [->%list_elem_of_singleton | [H | [H | H]]]; [done|..].
    + destruct (Config.maildir (Config.carriers a)); [apply list_elem_of_singleton in H as ->|apply elem_of_nil in H]; done.
    + destruct skip_list; [apply list_elem_of_singleton in H as ->|apply elem_of_nil in H]; done.
    + destruct armed as [[]|]; [apply list_elem_of_singleton in H as ->|apply elem_of_nil in H]; done.
Qed.

(** One loop per account, each under its own name.  The gateway spawns an
    IMAP loop for exactly the accounts of the list that are switched on, a POP3
    loop likewise and the dispatch loop for the maildir; no two of the loops beat
    under the same name, so the watchdog never takes one account's silence for
    another's life, two accounts on the same server and under the same user name
    included. *)
Theorem loops_one_per_account a skip_list armed :
  let c := Config.carriers a in
  let ts := tasks a skip_list armed in
  (forall i cfg, ImapTask i cfg ∈ ts <-> Config.imap c !! i = Some cfg /\ Config.imap_enabled cfg = true) /\
  (forall i cfg, Pop3Task i cfg ∈ ts <-> Config.pop3 c !! i = Some cfg /\ Config.pop3_enabled cfg = true) /\
  (forall md, DispatchTask md ∈ ts <-> Config.maildir c = Some md) /\
  NoDup (omap heartbeat_of ts).
Proof.
  intros c ts. repeat split_and.
  - intros i cfg. rewrite <- (elem_enabled Config.imap_enabled _ (i, cfg)). subst ts c. rewrite elem_of_tasks. split.
    + intros [(? & E & H) | [([] & E & H) | [([] & E & H) | [E _]]]]; try discriminate E; by injection E as -> ->.
    + intros H. right. left. by exists (i, cfg).
  - intros i cfg. rewrite <- (elem_enabled Config.pop3_enabled _ (i, cfg)). subst ts c. rewrite elem_of_tasks. split.
    + intros [(? & E & H) | [([] & E & H) | [([] & E & H) | [E _]]]]; try discriminate E; by injection E as -> ->.
    + intros H. right. right. left. by exists (i, cfg).
  - intros md. subst ts c. rewrite elem_of_tasks. split.
    + intros [(? & E & H) | [([] & E & H) | [([] & E & H) | [E _]]]]; try discriminate E. by injection E as ->.
    + intros H. left. by exists md.
  - subst ts. rewrite heartbeats_of_tasks. apply NoDup_app. split; [|split].
    + destruct (Config.maildir (Config.carriers a)); repeat constructor. by intros ?%elem_of_nil.
    + intros x Hx. destruct (Config.maildir (Config.carriers a)); [|by apply elem_of_nil in Hx].
      apply list_elem_of_singleton in Hx as ->.
      intros [(y & E & _)%list_elem_of_fmap | (y & E & _)%list_elem_of_fmap]%elem_of_app; discriminate.
    + apply NoDup_app. split; [apply NoDup_accounts, NoDup_enabled|]. split; [|apply NoDup_accounts, NoDup_enabled].
      intros x (y & -> & _)%list_elem_of_fmap (z & E & _)%list_elem_of_fmap. discriminate.
Qed.
End tasks_.
End Tasks.

(** ** A gateway that starts is the one configured *)
Module Started.
Section started.
Context `{EC : ErrorsCrate} `{CV : CoreValues} `{EK : !EmailCrates} `{AV : Avm} `{RU : Rustls}.
Abbreviation F A := (M world AntieError A).

(** What a computation returns, when it does. *)
Definition yields {A : Type} (m : F A) (Q : A -> Prop) : Prop := forall w x w', m w = (Ok x, w') -> Q x.
Lemma yields_bind {A B : Type} (m : F A) (k : A -> F B) (Q : A -> Prop) (R : B -> Prop) :
  yields m Q -> (forall x, Q x -> yields (k x) R) -> yields (m ≫= k) R.
Proof.
  intros Hm Hk w y w'. unfold mbind, M_bind. destruct (m w) as [[x|e] w1] eqn:E; [|done].
  intros H. exact (Hk x (Hm _ _ _ E) _ _ _ H).
Qed.
Lemma yields_ret {A : Type} (x : A) (Q : A -> Prop) : Q x -> yields (mret x) Q.
Proof. by intros H w y w' [= <- _]. Qed.
Lemma yields_throw {A : Type} e (Q : A -> Prop) : yields (throw e) Q.
Proof. by intros w x w'. Qed.
Lemma yields_lift {A : Type} (r : result AntieError A) : yields (lift r) (fun x => r = Ok x).
Proof. by intros w x w' [= -> _]. Qed.
Lemma yields_any {A : Type} (m : F A) : yields m (fun _ => True).
Proof. by intros w x w' _. Qed.

Lemma yields_skip_list l d : yields (SkipList.maybe_open l d)
  (fun s => Config.is_some s = Config.is_some l && Config.is_some d).
Proof.
  destruct l as [l|], d as [d|]; cbn [SkipList.maybe_open Config.is_some andb]; try by apply yields_ret.
  eapply yields_bind; [apply yields_any|intros _ _]. eapply yields_bind; [apply yields_any|intros es _].
  by apply yields_ret.
Qed.
Lemma yields_decryptor k : yields (open_decryptor k) (fun d => Config.is_some d = Config.is_some k).
Proof.
  destruct k; [|by apply yields_ret]. eapply yields_bind; [apply yields_any|intros d _]. by apply yields_ret.
Qed.
Lemma yields_uncle u : yields (open_uncle u) (fun s => Config.is_some s = Config.is_some u).
Proof.
  destruct u; [|by apply yields_ret]. eapply yields_bind; [apply yields_any|intros s _]. by apply yields_ret.
Qed.

(** The link to Lambda: encrypted when, and only when, a name to check is given. *)
Definition linked (l : Config.LambdaConfig) (m : Client.LambdaMode) : Prop :=
  match l with
  | Config.Tcp address t (Some name) _ => exists roots sni,
      m = Client.Tcp address t (Some (roots, sni)) /\ server_name_of name = Ok sni
  | Config.Tcp address t None _ => m = Client.Tcp address t None
  | Config.Subprocess b c => m = Client.Subprocess (parse_path b) (parse_path c)
  end.
Lemma yields_lambda l : yields (open_lambda l) (linked l).
Proof.
  destruct l as [address t [name|] ca|b c]; cbn [open_lambda]; try by apply yields_ret.
  eapply yields_bind; [apply yields_any|intros roots _]. eapply yields_bind; [apply yields_lift|].
  intros sni H. apply yields_ret. exists roots, sni. split; [done|]. by destruct (server_name_of name); simplify_eq/=.
Qed.

(** The sender, by precedence; every outbox a route can name is open. *)
Definition reaches (o : Config.OutboundConfig) (boxes : gmap path Maildir.Maildir) : Prop :=
  forall recipient, match Config.outbox_for o recipient with
  | Ok (Some dir) => is_Some (boxes !! dir) | Ok None => False | Err _ => True end.
Definition chosen (a : Config.AntieConfig) (s : Sender) : Prop :=
  let o := Config.outbound a in
  match s with
  | Routed c => Config.route o <> [] /\ Routed.cfg c = o /\ reaches o (Routed.outboxes c)
  | Split c => Config.route o = [] /\ match Config.local o with
      | Some l => Split.local c = smtp_of l /\ Split.external c = smtp_of <$> Config.external o
      | None => Split.external c = Some (Split.local c) /\ Some (Split.local c) = smtp_of <$> Config.external o
      end
  | Outbox _ => Config.route o = [] /\ Config.local o = None /\ Config.external o = None
  end.
Lemma yields_outboxes wanted : forall opened, yields (Routed.open_outboxes wanted opened)
  (fun o => (forall p, p ∈ wanted -> is_Some (o !! p)) /\ (forall p, is_Some (opened !! p) -> is_Some (o !! p))).
Proof.
  induction wanted as [|p wanted IH]; intros opened; cbn [Routed.open_outboxes].
  - apply yields_ret. split; [|done]. by intros p ?%elem_of_nil.
  - case_decide as D.
    + intros w o w' H. destruct (IH opened _ _ _ H) as [H1 H2]. split; [|done]. intros q [-> | Hq]%elem_of_cons; auto.
    + eapply yields_bind; [apply yields_any|]. intros md _ w o w' H. destruct (IH _ _ _ _ H) as [H1 H2].
      assert (forall q, q = p \/ is_Some (opened !! q) -> is_Some (o !! q)) as Hq.
      { intros q Hq. apply H2. destruct (decide (p = q)) as [-> | N]; [by rewrite lookup_insert_eq|].
        rewrite lookup_insert_ne by done. destruct Hq; [congruence|done]. }
      split; [|by auto]. intros q [-> | Hin]%elem_of_cons; auto.
Qed.
Lemma outbox_among o recipient : Config.route o <> [] ->
  match Config.outbox_for o recipient with
  | Ok (Some dir) => dir ∈ map Config.outbox (Config.route o) | Ok None => False | Err _ => True end.
Proof.
  intros N. unfold Config.outbox_for. case_decide; [done|].
  destruct (rsplit_once _ _) as [[l d]|]; [|done]. cbv zeta.
  destruct (Config.find_route _ _) as [r|] eqn:E; [|done]. apply find_some in E as [Hin _].
  apply list_elem_of_fmap. exists r. split; [done|]. by apply list_elem_of_In.
Qed.
Lemma yields_sender a : yields (choose_sender a) (chosen a).
Proof.
  unfold choose_sender. destruct (decide (Config.route (Config.outbound a) = [])) as [R | R].
  - rewrite (bool_decide_true _ R). cbn [negb].
    destruct (Config.local _) as [l|] eqn:El, (Config.external _) as [x|] eqn:Ex;
      try (apply yields_ret; unfold chosen; by rewrite ?El, ?Ex).
    destruct (Config.maildir (Config.carriers a)) as [md|]; [|by apply yields_throw].
    eapply yields_bind; [apply yields_any|intros c _]. by apply yields_ret.
  - rewrite (bool_decide_false _ R). cbn [negb]. eapply yields_bind; [apply yields_any|intros md _].
    eapply (yields_bind _ _ (chosen a ∘ Routed)); [|intros c Hc; by apply yields_ret].
    unfold Routed.new. eapply yields_bind; [apply yields_outboxes|]. intros o [Ho _].
    eapply yields_bind; [apply yields_any|intros i _]. apply yields_ret. split; [done|]. split; [done|].
    intros recipient. pose proof (outbox_among (Config.outbound a) recipient R) as H.
    by destruct (Config.outbox_for _ recipient) as [[dir|]|]; auto.
Qed.

(** C25: a gateway that starts is the one configured.  When [new] succeeds, the
    carriers passed their validation; whatever the configuration asks for is there
    (the skip list when both its paths are given, the envelope decryptor when a key
    file is, the tee when its directory is): a part that cannot be opened stops the
    start, it is never left out silently.  A Lambda given with a server name gets a
    client made with TLS under that name, never a clear one (which requests such a
    client covers is C30's).  The sender follows
    the precedence of the table, the local relay, the external one and the outbox,
    and once the table is in use, every outbox a recipient can be routed to is open
    and no recipient meets an empty table. *)
Theorem starts_as_configured env core now a w p w' :
  new env core now a w = (Ok p, w') ->
  Config.validate (Config.carriers a) = Ok tt /\
  Config.is_some (p_skip_list p) = Config.is_some (Config.skip_list_path a) && Config.is_some (Config.skipped_dir_path a) /\
  chosen a (p_sender p) /\
  linked (Config.lambda a) (p_lambda p) /\
  Config.is_some (p_decryptor p) = Config.is_some (Config.private_key_path (Config.validator a)) /\
  Config.is_some (p_uncle_sink p) = Config.is_some (Config.uncle (Config.outbound a)).
Proof.
  revert w p w'. unfold new.
  apply (yields_bind _ _ (fun x => Config.validate (Config.carriers a) = Ok x)); [apply yields_lift|intros [] Hv].
  eapply yields_bind; [apply yields_skip_list|intros sl Hs]. eapply yields_bind; [apply yields_sender|intros s Hc].
  eapply yields_bind; [apply yields_any|intros vm _]. eapply yields_bind; [apply yields_lambda|intros l Hl].
  eapply yields_bind; [apply yields_decryptor|intros d Hd]. eapply yields_bind; [apply yields_uncle|intros u Hu].
  by apply yields_ret.
Qed.
End started.

(** A routed validator: TLS to Lambda, a key file, a tee, no skip list. *)
Definition ex_avm : Avm := {| Vm := bytes; from_paths := fun p w => (Ok $"core", w); core_fingerprint := fun b => b ++ $"0123456789abcdef" |}.
Definition ex_route (d o : bytes) : Config.OutboundRoute :=
  {| Config.domain := d; Config.outbox := parse_path o |}.
Definition ex_config : Config.AntieConfig := {|
  Config.carriers := Config.carriers Config.antie_default;
  Config.outbound := {| Config.route := [ex_route $"axiom" $"/out/a"; ex_route $"example.org" $"/out/b"];
    Config.local := None; Config.external := None;
    Config.uncle := Some {| Config.uncle_outbox := parse_path $"/tee" |}; Config.custody := [] |};
  Config.lambda := Config.Tcp $"10.0.0.1:7000" 30 (Some $"lambda.example") None;
  Config.validator := {| Config.public_key_hex := []; Config.dilithium_pk_hex := [];
    Config.private_key_path := Some $"/key"; Config.vbc_path := None |};
  Config.identity := Config.identity_default; Config.log_level := $"info"; Config.poll_interval_ms := 2000;
  Config.health_port := 7779; Config.health_token := None; Config.on_stall := Config.NotifyOnly;
  Config.pickup := None; Config.performance := Config.performance_default;
  Config.wallet_witness_cooldown_ms := None; Config.nabla_ban_list_path := None;
  Config.skip_list_path := Some $"/skip"; Config.skipped_dir_path := None |}.
Definition ex_world : world := {|
  fs := <[parse_path $"/key" := File (repeat "k"%char 32)]> (<[parse_path $"./axiom-core.elf" := File $"elf"]>
        {[ [] := Dir ]});
  oracle := []; hist := []; listing := fun l => l |}.
Definition ex_new := new (EC := ex_errors) (CV := ex_values) (EK := Building.ex_crates) (AV := ex_avm)
  (RU := Exchange.ex_tls) None core_default 0 ex_config ex_world.
Lemma starts_as_configured_witness :
  match ex_new.1 with
  | Ok p => Config.is_some (p_decryptor p) = true /\ Config.is_some (p_skip_list p) = false /\
      match p_sender p with Routed c => is_Some (Routed.outboxes c !! parse_path $"/out/b") | _ => False end
  | Err _ => False
  end.
Proof.
  assert (is_ok ex_new.1 = true) as Hok by (vm_compute; reflexivity).
  destruct ex_new as [[p|e] w'] eqn:E; [|discriminate Hok].
  destruct (starts_as_configured (EC := ex_errors) (CV := ex_values) (EK := Building.ex_crates) (AV := ex_avm)
    (RU := Exchange.ex_tls) _ _ _ _ _ _ _ E) as (_ & Hs & Hc & _ & Hd & _).
  split; [exact Hd|]. split; [exact Hs|]. cbn [fst].
  destruct (p_sender p) as [c|c|c]; [|by destruct Hc..].
  destruct Hc as (_ & _ & H). exact (H $"alice@example.org/tail").
Defined.
End Started.
