(* ===== verification/Cli.v ===== *)
(** * The command line of ANTIE: [main.rs], and what [config.rs] writes for it

    The printed and the saved configurations and the way back through
    [Config.load].  TOML is third-party: its printer and its parser are
    parameters, and so are the colours of the banner.  Also when the
    periodic trim of [malloc_trim.rs] runs. *)
From S2P Require Import Prelude Utf8 Fs Errors Sinks Config Carriers.
Import Errors.

Module Cli.
Import Config.

Record Cli : Type := {
  config : option path; generate_config : bool;
  pop3_ : bool; imap_ : bool; tcp_ : bool; all : bool;
  init_maildir_at : option path; lambda_at : option bytes }.

(** ** The examples of [--generate-config] *)
Definition with_parts (c : CarriersConfig) (o : OutboundConfig) (l : LambdaConfig) : AntieConfig := {|
  carriers := c; outbound := o; lambda := l;
  validator := validator antie_default; identity := identity antie_default;
  log_level := log_level antie_default; poll_interval_ms := poll_interval_ms antie_default;
  health_port := health_port antie_default; health_token := health_token antie_default;
  on_stall := on_stall antie_default; pickup := pickup antie_default; performance := performance antie_default;
  wallet_witness_cooldown_ms := wallet_witness_cooldown_ms antie_default;
  nabla_ban_list_path := nabla_ban_list_path antie_default; skip_list_path := skip_list_path antie_default;
  skipped_dir_path := skipped_dir_path antie_default |}.
Definition relay (username password : option bytes) (from : bytes) : OutboundConfig := {|
  custody := []; route := [];
  local := Some {| so_server := $"smtp.example.com"; so_port := 587; so_username := username;
                   so_password := password; so_use_tls := true; from_address := from |};
  external := None; uncle := None |}.
Definition example_imap (user password : bytes) : ImapConfig := {|
  imap_enabled := true; imap_server := $"imap.example.com"; imap_port := 993; imap_username := user;
  imap_password := password; imap_use_tls := true; inbox_folder := $"INBOX"; use_idle := true |}.
Definition example_pop3 (user password : bytes) : Pop3Config := {|
  pop3_enabled := true; pop3_server := $"pop.example.com"; pop3_port := 995; pop3_username := user;
  pop3_password := password; pop3_use_tls := true; spam_entropy_threshold := None |}.
Definition here_maildir : MaildirConfig :=
  {| inbox := parse_path $"./maildir/inbox"; md_outbox := parse_path $"./maildir/outbox" |}.
Definition var_maildir : MaildirConfig :=
  {| inbox := parse_path $"/var/mail/axiom/inbox"; md_outbox := parse_path $"/var/mail/axiom/outbox" |}.

Definition imap_example : AntieConfig :=
  with_parts {| maildir := Some here_maildir; imap := [example_imap $"validator@example.com" $"your-password"];
                pop3 := []; advertise := [] |}
    (relay (Some $"validator@example.com") (Some $"your-password") $"validator@example.com") (lambda antie_default).
Definition pop3_example : AntieConfig :=
  with_parts {| maildir := Some here_maildir; imap := [];
                pop3 := [example_pop3 $"validator@example.com" $"your-password"]; advertise := [] |}
    (relay (Some $"validator@example.com") (Some $"your-password") $"validator@example.com") (lambda antie_default).
Definition advertise_example : AntieConfig :=
  with_parts {| maildir := Some var_maildir; imap := []; pop3 := [];
                advertise := [$"fatmama:fatmama.example.com:2525"; $"tot:tot.example.com:7400"] |}
    (outbound antie_default) (lambda antie_default).
Definition all_carriers_example : AntieConfig :=
  with_parts {| maildir := Some var_maildir; imap := [example_imap $"node@example.com" $"secret"];
                pop3 := [example_pop3 $"node@example.com" $"secret"];
                advertise := [$"fatmama:fatmama.example.com:2525"; $"tot:axiom-dev.mooo.com:7400"] |}
    (relay None None $"node@example.com") (lambda antie_default).

(** The heading line and the configuration; imap wins over pop3, and so on. *)
Definition example (cli : Cli) : bytes * AntieConfig :=
  if imap_ cli then ($"# ANTIE IMAP + SMTP Config Example", imap_example)
  else if pop3_ cli then ($"# ANTIE POP3 + SMTP Config Example", pop3_example)
  else if tcp_ cli then ($"# ANTIE Maildir + Advertise (TOT/FATMAMA) Config Example", advertise_example)
  else if all cli then ($"# ANTIE All-Carriers Config Example (kappa node)", all_carriers_example)
  else ($"# ANTIE Default Configuration (Maildir)", antie_default).

Section main.
Context `{EC : ErrorsCrate}.
Context (toml_config : bytes -> result bytes AntieConfig) (toml_secrets : bytes -> result bytes MailSecrets).
Context (env_secrets : option path).
Context (to_string_pretty : AntieConfig -> result bytes bytes).
Abbreviation F A := (M world AntieError A).

Definition save (a : AntieConfig) (p : path) : F unit :=
  content ← lift (map_err ConfigError (to_string_pretty a));
  lift_io (fs_write p content).

(** ** [--init-maildir] *)
Definition make_maildir (p : path) : F unit :=
  _ ← lift_io (create_dir_all (join p $"new"));
  _ ← lift_io (create_dir_all (join p $"cur"));
  lift_io (create_dir_all (join p $"tmp")).
Definition find_lambda (m : store) : bytes :=
  if Local.exists_path m (parse_path $"./axiom-lambda/target/release/lambda")
  then $"./axiom-lambda/target/release/lambda"
  else if Local.exists_path m (parse_path $"../axiom-lambda/target/release/lambda")
  then $"../axiom-lambda/target/release/lambda"
  else if Local.exists_path m (parse_path $"./target/release/lambda")
  then $"./target/release/lambda"
  else $"./axiom-lambda/target/debug/lambda".
Definition initial_config (p : path) (lambda_path : bytes) : AntieConfig :=
  with_parts {| maildir := Some {| inbox := join p $"inbox"; md_outbox := join p $"outbox" |};
                imap := []; pop3 := []; advertise := [] |}
    (outbound antie_default) (Subprocess lambda_path $"../config/lambda-config.toml").
Definition init_maildir (p : path) : F unit :=
  _ ← make_maildir (join p $"inbox");
  _ ← make_maildir (join p $"outbox");
  m ← gets fs;
  save (initial_config p (find_lambda m)) (join p $"antie.toml").

(** ** [main], up to [Gateway::new] *)
Inductive action : Type :=
  | Printed (text : bytes)    (* and the process ends *)
  | PrintPanics               (* [unwrap] in [generate_*] *)
  | Initialised
  | Starts (a : AntieConfig).
Definition set_lambda (l : LambdaConfig) (a : AntieConfig) : AntieConfig := {|
  carriers := carriers a; outbound := outbound a; lambda := l; validator := validator a;
  identity := identity a; log_level := log_level a; poll_interval_ms := poll_interval_ms a;
  health_port := health_port a; health_token := health_token a; on_stall := on_stall a;
  pickup := pickup a; performance := performance a;
  wallet_witness_cooldown_ms := wallet_witness_cooldown_ms a;
  nabla_ban_list_path := nabla_ban_list_path a; skip_list_path := skip_list_path a;
  skipped_dir_path := skipped_dir_path a |}.
Definition override (flag : option bytes) (a : AntieConfig) : AntieConfig :=
  match flag with Some address => set_lambda (Tcp address 30 None None) a | None => a end.
Definition main (cli : Cli) : F action :=
  if generate_config cli then
    mret (match to_string_pretty (example cli).2 with
          | Ok text => Printed ((example cli).1 ++ [LF] ++ text ++ [LF])
          | Err _ => PrintPanics
          end)
  else match init_maildir_at cli with
  | Some p => _ ← init_maildir p; mret Initialised
  | None =>
      a ← match config cli with
          | Some p => load toml_config toml_secrets env_secrets p
          | None => mret antie_default
          end;
      mret (Starts (override (lambda_at cli) a))
  end.
End main.

(** ** The banner: its lines.  [colored] and the printing of paths are other
    crates'. *)
Section banner.
Context (cyan green yellow dimmed : bytes -> bytes) (display debug : path -> bytes).
Definition switched_off (enabled : bool) : bytes := if enabled then [] else $"  (disabled)".
Definition port_of (z : Z) : bytes := show_Z z.
Definition print_banner (a : AntieConfig) : list bytes :=
  [[];
   cyan $"╔═══════════════════════════════════════════════════════════╗";
   cyan $"║               AXIOM ANTIE Gateway                         ║";
   cyan $"║         Multi-Carrier Transaction Gateway                 ║";
   cyan $"╚═══════════════════════════════════════════════════════════╝";
   [];
   $"  " ++ green $"Inbound:" ++ $" Active carriers:"]
  ++ match maildir (carriers a) with
     | Some c => [$"    Maildir   inbox=" ++ display (inbox c)]
     | None => []
     end
  ++ map (fun c => $"    IMAP      " ++ imap_server c ++ $":" ++ port_of (imap_port c) ++ $" user=" ++ imap_username c
                   ++ switched_off (imap_enabled c)) (imap (carriers a))
  ++ map (fun c => $"    POP3      " ++ pop3_server c ++ $":" ++ port_of (pop3_port c) ++ $" user=" ++ pop3_username c
                   ++ switched_off (pop3_enabled c)) (pop3 (carriers a))
  ++ match advertise (carriers a) with
     | [] => []
     | uris => ($"  " ++ green $"Hints:" ++ $" Advertised (discovery URIs only — ANTIE doesn't parse):")
               :: map (fun uri => $"    " ++ uri) uris
     end
  ++ match local (outbound a) with
     | Some s => [$"  " ++ green $"Outbound:" ++ $" local " ++ so_server s ++ $":" ++ port_of (so_port s) ++ $" from="
                  ++ from_address s ++ $" (@axiom/@axiom.internal)"]
     | None => []
     end
  ++ match external (outbound a) with
     | Some s => [$"  " ++ green $"Outbound:" ++ $" external relay " ++ so_server s ++ $":" ++ port_of (so_port s) ++ $" (real domains)"]
     | None => []
     end
  ++ [match lambda a with
      | Tcp address _ _ _ => $"  " ++ green $"Lambda:" ++ $" " ++ address ++ $" (TCP)"
      | Subprocess binary_path _ => $"  " ++ green $"Lambda:" ++ $" " ++ debug (parse_path binary_path) ++ $" (Subprocess)"
      end;
      $"  " ++ green $"Identity:" ++ $" " ++ email (identity a);
      [];
      yellow $"Architecture:";
      $"  Carrier(s) → ANTIE → Core(CL2) → Lambda → Core(CL3) → Carrier(s)";
      [];
      dimmed $"Press Ctrl+C to stop";
      []].
End banner.

(** ** [malloc_trim.rs], which [main] starts once the gateway is built *)
Definition DEFAULT_INTERVAL_SECS : Z := 60.
(** [env]: the variable ANTIE_MALLOC_TRIM_INTERVAL_SECS, if it is set and UTF-8.
    The period of the task, if there is one. *)
Definition spawn_periodic (env : option bytes) : option Z :=
  let secs := match env with
              | Some s => unwrap_or DEFAULT_INTERVAL_SECS (parse_uint U64_MAX s)
              | None => DEFAULT_INTERVAL_SECS
              end in
  if secs =? 0 then None else Some secs.
(** How often the task has trimmed after [now] seconds; the tick at 0 is skipped. *)
Definition trims (period : option Z) (now : Z) : Z :=
  match period with Some secs => now / secs | None => 0 end.
End Cli.
