(* ===== verification/CliTheorems.v ===== *)
(** * The theorems on the command line: what ANTIE writes, it starts from *)
From S2P Require Import Prelude Utf8 Fs Errors Sinks Config Carriers Cli.
Import Errors Config Cli.

Module Written.
(** ** The disk under [init_maildir] *)
Lemma write_all_frame q p fuel : forall b w, q <> p -> fs (write_all_fuel fuel p b w).2 !! q = fs w !! q.
Proof.
  assert (forall b w, q <> p -> fs (append_at p b w).2 !! q = fs w !! q) as Ha.
  { intros b w N. unfold append_at, mbind, M_bind, gets. destruct (fs w !! p) as [[|c]|]; [done| |done].
    cbn. by rewrite lookup_insert_ne. }
  induction fuel as [|fuel IH]; intros b w N; destruct b as [|x b]; try done.
  cbn [write_all_fuel]. unfold next_outcome, mbind, M_bind.
  destruct (oracle w) as [|[|[|n]|e] os]; try done; try by rewrite Ha.
  specialize (Ha (take (S n) (x :: b)) (set_oracle os w) N).
  destruct (append_at p _ (set_oracle os w)) as [[[]|e] w1]; [|done]. cbn in Ha. by rewrite IH.
Qed.
Lemma write_frame q p b w : q <> p -> fs (fs_write p b w).2 !! q = fs w !! q.
Proof.
  intros N. unfold fs_write, file_create, mbind, M_bind, gets, put_fs, modify, throw.
  destruct (syscall_cases w) as (w1 & Hf & _ & [->|[e ->]]); [|by rewrite <- Hf].
  destruct (is_dir (fs w1) p); [by rewrite <- Hf|]. destruct (is_dir (fs w1) (parent p)); [|by rewrite <- Hf].
  unfold write_all. rewrite write_all_frame by done. cbn. by rewrite lookup_insert_ne, Hf.
Qed.
Lemma written p b w w' : fs_write p b w = (Ok tt, w') -> fs w' !! p = Some (File b).
Proof.
  intros E. destruct (fs_write_keeps (fs w) p p b w (published_refl _ _ _ _)) as [_ [_ H]].
  rewrite E in H. by apply H.
Qed.

Section maildirs.
Context `{EC : ErrorsCrate}.
(** A maildir made at [p]: its three directories are there, and nothing beside. *)
Definition maildir_at (m : store) (p : path) : Prop :=
  Forall (fun n => m !! (p ++ [n]) = Some Dir) [$"new"; $"cur"; $"tmp"].
Lemma made p w w' : make_maildir p w = (Ok tt, w') ->
  maildir_at (fs w') p /\ (forall d, fs w !! d = Some Dir -> fs w' !! d = Some Dir) /\
  (forall q, ~ q `prefix_of` p -> q ∉ map (fun n => p ++ [n]) [$"new"; $"cur"; $"tmp"] -> fs w' !! q = fs w !! q).
Proof.
  unfold make_maildir, lift_io, with_err, mbind, M_bind. rewrite !join_plain by done.
  destruct (create_dir_all (p ++ [$"new"]) w) as [[[]|e] w1] eqn:E1; cbn [map_err]; [|discriminate].
  destruct (create_dir_all (p ++ [$"cur"]) w1) as [[[]|e] w2] eqn:E2; cbn [map_err]; [|discriminate].
  destruct (create_dir_all (p ++ [$"tmp"]) w2) as [[[]|e] w3] eqn:E3; cbn [map_err]; [|discriminate]. intros [= <-].
  split; [|split].
  - assert (forall n, p ++ [n] <> []) as N by (intros n; by destruct p).
    repeat constructor.
    + eapply dir_kept; [exact E3|]. eapply dir_kept; [exact E2|]. by apply (mkdirs_made _ _ _ _ (N _) (reflexivity _) E1).
    + eapply dir_kept; [exact E3|]. by apply (mkdirs_made _ _ _ _ (N _) (reflexivity _) E2).
    + by apply (mkdirs_made _ _ _ _ (N _) (reflexivity _) E3).
  - intros d Hd. eapply dir_kept; [done|]. eapply dir_kept; [done|]. by eapply dir_kept.
  - intros q N Hq.
    assert (forall n, n ∈ [$"new"; $"cur"; $"tmp"] -> ~ q `prefix_of` p ++ [n]) as Hn.
    { intros n Hn [r E]. destruct r as [|y r _] using rev_ind.
      - rewrite app_nil_r in E. apply Hq. subst q. apply list_elem_of_fmap. by exists n.
      - rewrite app_assoc in E. apply app_inj_tail in E as [E _]. apply N. by exists r. }
    rewrite (mkdirs_beside _ q _ _ _ (Hn $"tmp" ltac:(set_solver)) E3),
      (mkdirs_beside _ q _ _ _ (Hn $"cur" ltac:(set_solver)) E2). by apply (mkdirs_beside _ q _ _ _ (Hn $"new" ltac:(set_solver)) E1).
Qed.
End maildirs.

(** ** Back through [load] *)
Section back.
Context `{EC : ErrorsCrate}.
Context (toml_config : bytes -> result bytes AntieConfig) (toml_secrets : bytes -> result bytes MailSecrets).
Context (to_string_pretty : AntieConfig -> result bytes bytes).
(** The secrets file beside a configuration. *)
Definition secrets_of (p : path) : path := join (parent p) $"mail-secrets.toml".
Definition acceptable (a : AntieConfig) : Prop :=
  validate (carriers a) = Ok tt /\ validate_inbound_count (carriers a) = Ok tt /\ validate_poll_rate a = Ok tt.
Definition without_failures (m : store) (w : world) : world :=
  {| fs := m; oracle := []; hist := hist w; listing := listing w |}.
Lemma loads_back p text a m w : m !! p = Some (File text) -> is_utf8 text = true -> toml_config text = Ok a ->
  nabla_ban_list_path a = None -> acceptable a -> m !! secrets_of p = None ->
  exists ban, load toml_config toml_secrets None p (without_failures m w)
  = (Ok (set_ban_list ban a), without_failures m w).
Proof.
  intros Hp Hu Ht Hb (V1 & V2 & V3) Hs. unfold load.
  assert (lift_io (read_to_string p) (without_failures m w) = (Ok text, without_failures m w)) as E.
  { unfold lift_io, with_err, read_to_string, read_file, syscall, next_outcome, mbind, M_bind, gets, mret, M_ret, throw, without_failures.
    cbn. rewrite Hp. cbn. by rewrite Hu. }
  unfold mbind, M_bind. rewrite E. unfold lift. rewrite Ht. cbn [map_err].
  unfold apply_mail_secrets, file_exists, mbind, M_bind, gets. fold (secrets_of p). cbn [fs without_failures].
  rewrite Hs, bool_decide_false by (unfold secrets_of; rewrite join_plain by done; by destruct (parent p)).
  unfold mret, M_ret. cbn beta iota delta [is_some orb negb]. rewrite Hb. cbn [is_some]. eexists.
  change (carriers (set_ban_list _ a)) with (carriers a). rewrite V1, V2.
  assert (forall b, validate_poll_rate (set_ban_list b a) = Ok tt) as -> by done. reflexivity.
Qed.

(** Every printed example starts.  Whichever configuration --generate-config
    prints, a file holding what was printed, heading line included, is one that
    ANTIE starts from: it passes every check of the loader and it is, the ban list
    found beside it aside, the configuration that was printed. *)
Theorem examples_start cli p m w text :
  generate_config cli = true ->
  (forall t, to_string_pretty (example cli).2 = Ok t ->
     let printed := (example cli).1 ++ [LF] ++ t ++ [LF] in
     toml_config printed = Ok (example cli).2 /\ is_utf8 printed = true) ->
  (main toml_config toml_secrets None to_string_pretty cli w).1 = Ok (Printed text) ->
  m !! p = Some (File text) -> m !! secrets_of p = None ->
  let again := {| config := Some p; generate_config := false; pop3_ := false; imap_ := false; tcp_ := false;
                  all := false; init_maildir_at := None; lambda_at := None |} in
  exists ban, main toml_config toml_secrets None to_string_pretty again (without_failures m w)
  = (Ok (Starts (set_ban_list ban (example cli).2)), without_failures m w).
Proof.
  intros Hg Hlaw Hm Hp Hs again. cbn [main] in Hm. unfold main in Hm. rewrite Hg in Hm.
  destruct (to_string_pretty (example cli).2) as [t|e] eqn:Et; [|discriminate Hm].
  destruct (Hlaw t eq_refl) as [Ht Hu]. injection Hm as <-.
  destruct (loads_back p _ (example cli).2 m w Hp Hu Ht) as [ban E]; [| |done|].
  1, 2: unfold example; by destruct (imap_ cli), (pop3_ cli), (tcp_ cli), (all cli).
  exists ban. unfold main. cbn [again generate_config init_maildir_at config]. unfold mbind, M_bind. by rewrite E.
Qed.

(** C26: what --init-maildir prepares is ready to run.  When it succeeds, both
    maildirs stand with their three directories each, and starting ANTIE on the
    configuration file it wrote, as its last line says to, gives the configuration
    whose inbox and outbox are those two maildirs. *)
Theorem init_then_starts p w w' :
  (forall l t, to_string_pretty (initial_config p l) = Ok t ->
     toml_config t = Ok (initial_config p l) /\ is_utf8 t = true) ->
  fs w !! (p ++ [$"mail-secrets.toml"]) = None ->
  init_maildir to_string_pretty p w = (Ok tt, w') ->
  let again := {| config := Some (join p $"antie.toml"); generate_config := false; pop3_ := false; imap_ := false;
                  tcp_ := false; all := false; init_maildir_at := None; lambda_at := None |} in
  exists a ban, main toml_config toml_secrets None to_string_pretty again (without_failures (fs w') w')
  = (Ok (Starts (set_ban_list ban a)), without_failures (fs w') w') /\
  maildir (carriers a) = Some {| inbox := p ++ [$"inbox"]; md_outbox := p ++ [$"outbox"] |} /\
  maildir_at (fs w') (p ++ [$"inbox"]) /\ maildir_at (fs w') (p ++ [$"outbox"]).
Proof.
  intros Hlaw Hs. unfold init_maildir, save, mbind, M_bind, lift, gets. rewrite !join_plain by done.
  destruct (make_maildir (p ++ [$"inbox"]) w) as [[[]|e] w1] eqn:E1; [|discriminate].
  apply made in E1 as (I1 & _ & F1).
  destruct (make_maildir (p ++ [$"outbox"]) w1) as [[[]|e] w2] eqn:E2; [|discriminate].
  apply made in E2 as (O2 & K2 & F2).
  set (l := find_lambda (fs w2)). destruct (to_string_pretty (initial_config p l)) as [t|e] eqn:Et; [|discriminate].
  cbn [map_err]. unfold lift_io, with_err.
  destruct (fs_write (p ++ [$"antie.toml"]) t w2) as [[[]|e] w3] eqn:E3; [|discriminate]. intros [= <-].
  pose proof (fun q N => write_frame q (p ++ [$"antie.toml"]) t w2 N) as F3. rewrite E3 in F3. cbn [snd] in F3.
  apply written in E3.
  destruct (Hlaw l t Et) as [Ht Hu].
  assert (forall m, parent (p ++ [m]) = p) as Hpar by (intros m; apply removelast_last).
  assert (forall d, d <> $"antie.toml" -> forall n, p ++ [d; n] <> p ++ [$"antie.toml"]) as Hne.
  { intros d N n E%app_inv_head. discriminate. }
  destruct (loads_back (p ++ [$"antie.toml"]) t (initial_config p l) (fs w3) w3 E3 Hu Ht) as [ban E]; [done|by split| |].
  { unfold secrets_of. rewrite Hpar, join_plain by done.
    rewrite F3 by (intros E%app_inv_head; discriminate).
    rewrite F2, F1; [exact Hs| | | |].
    1, 3: intros Hp%prefix_length_eq; [by apply app_inv_head in Hp|rewrite !length_app; done].
    all: intros (n & E & _)%list_elem_of_fmap; rewrite <- app_assoc in E; apply app_inv_head in E; discriminate. }
  exists (initial_config p l), ban. split; [|split; [|split]].
  - unfold main. cbn [generate_config init_maildir_at config].
    unfold mbind, M_bind. by rewrite E.
  - cbn. by rewrite !join_plain.
  - unfold maildir_at in *. eapply Forall_impl; [exact I1|]. intros n Hn. cbn in Hn. rewrite F3; [by apply K2|].
    rewrite <- app_assoc. by apply Hne.
  - unfold maildir_at in *. eapply Forall_impl; [exact O2|]. intros n Hn. cbn in Hn. rewrite F3; [done|].
    rewrite <- app_assoc. by apply Hne.
Qed.
End back.

(** A printer that writes a fixed text, one that writes the Lambda binary only. *)
Definition ex_flags (all_ : bool) : Cli := {|
  config := None; generate_config := true; pop3_ := false; imap_ := false; tcp_ := false; all := all_;
  init_maildir_at := None; lambda_at := None |}.
Definition ex_disk (m : store) : world := {| fs := m; oracle := []; hist := []; listing := fun l => l |}.
Definition ex_printed : bytes := $"# ANTIE All-Carriers Config Example (kappa node)" ++ [LF] ++ $"x" ++ [LF].
Lemma examples_start_witness :
  match (main (EC := ex_errors) (fun _ => Ok all_carriers_example) (fun _ => Err []) None (fun _ => Ok $"x")
    {| config := Some [$"antie.toml"]; generate_config := false; pop3_ := false; imap_ := false; tcp_ := false;
       all := false; init_maildir_at := None; lambda_at := None |}
    (ex_disk {[ [$"antie.toml"] := File ex_printed ]})).1 with
  | Ok (Starts a) => carriers a = carriers all_carriers_example
  | _ => False
  end.
Proof.
  destruct (examples_start (EC := ex_errors) (fun _ => Ok all_carriers_example) (fun _ => Err []) (fun _ => Ok $"x")
    (ex_flags true) [$"antie.toml"] {[ [$"antie.toml"] := File ex_printed ]} (ex_disk ∅) ex_printed) as [ban E].
  - reflexivity.
  - intros t [= <-]. split; [reflexivity|vm_compute; reflexivity].
  - reflexivity.
  - vm_compute. reflexivity.
  - vm_compute. reflexivity.
  - change (ex_disk {[ [$"antie.toml"] := File ex_printed ]})
      with (without_failures {[ [$"antie.toml"] := File ex_printed ]} (ex_disk ∅)).
    rewrite E. reflexivity.
Defined.

Definition ex_printer (a : AntieConfig) : result bytes bytes :=
  match lambda a with Subprocess b _ => if is_utf8 b then Ok b else Err [] | Tcp _ _ _ _ => Err [] end.
Lemma initialised p w : (init_maildir (EC := ex_errors) ex_printer p w).1 = Ok tt ->
  init_maildir (EC := ex_errors) ex_printer p w = (Ok tt, (init_maildir (EC := ex_errors) ex_printer p w).2).
Proof. intros <-. apply surjective_pairing. Qed.
Lemma init_then_starts_witness :
  let w := ex_disk {[ parse_path $"./target/release/lambda" := File [] ]} in
  let w' := (init_maildir (EC := ex_errors) ex_printer [$"t"] w).2 in
  fs w' !! [$"t"; $"antie.toml"] = Some (File $"./target/release/lambda") /\
  maildir_at (fs w') [$"t"; $"inbox"] /\ maildir_at (fs w') [$"t"; $"outbox"].
Proof.
  intros w w'. split; [vm_compute; reflexivity|].
  destruct (init_then_starts (EC := ex_errors) (fun t => Ok (initial_config [$"t"] t)) (fun _ => Err []) ex_printer
    [$"t"] w w') as (a & ban & _ & _ & H).
  - intros l t. unfold ex_printer. cbn [initial_config with_parts lambda]. destruct (is_utf8 l) eqn:U; [|discriminate].
    by intros [= <-].
  - vm_compute. reflexivity.
  - apply initialised. vm_compute. reflexivity.
  - exact H.
Defined.
End Written.

(** ** What a start shows *)
Module Shown.
(** The configuration without its secrets. *)
Definition blank (a : AntieConfig) : AntieConfig := {|
  carriers := {| maildir := maildir (carriers a); imap := map (imap_with_password []) (imap (carriers a));
                 pop3 := map (pop3_with_password []) (pop3 (carriers a)); advertise := advertise (carriers a) |};
  outbound := {| route := route (outbound a); local := smtp_with_login None None <$> local (outbound a);
                 external := smtp_with_login None None <$> external (outbound a); uncle := uncle (outbound a); custody := custody (outbound a) |};
  lambda := lambda a; validator := validator a; identity := identity a; log_level := log_level a;
  poll_interval_ms := poll_interval_ms a; health_port := health_port a; health_token := None; on_stall := on_stall a;
  pickup := pickup a; performance := performance a; wallet_witness_cooldown_ms := wallet_witness_cooldown_ms a;
  nabla_ban_list_path := nabla_ban_list_path a; skip_list_path := skip_list_path a; skipped_dir_path := skipped_dir_path a |}.
(** The banner shows no secret: it is the same without the passwords of the
    mailboxes and relays and without the token of the health endpoint. *)
Theorem banner_shows_no_secret cyan green yellow dimmed display debug a :
  print_banner cyan green yellow dimmed display debug (blank a) = print_banner cyan green yellow dimmed display debug a.
Proof.
  unfold print_banner. cbn [blank carriers outbound maildir imap pop3 advertise local external lambda identity].
  rewrite !map_map. by destruct (local (outbound a)), (external (outbound a)).
Qed.
(** The trimming task runs with a period of at least a second, or not at all; a
    variable that is no number counts as absent; and in any stretch of time it
    trims once for every full period. *)
Theorem trim_paced env now : 0 <= now ->
  match spawn_periodic env with
  | Some secs => 1 <= secs <= U64_MAX /\ secs * trims (spawn_periodic env) now <= now < secs * (trims (spawn_periodic env) now + 1)
  | None => exists s, env = Some s /\ parse_uint U64_MAX s = Some 0
  end.
Proof.
  intros Hn. unfold spawn_periodic, trims, DEFAULT_INTERVAL_SECS.
  assert (forall secs, 1 <= secs <= U64_MAX ->
    1 <= secs <= U64_MAX /\ secs * (now / secs) <= now < secs * (now / secs + 1)) as H.
  { intros secs Hs. split; [done|]. pose proof (Z.div_mod now secs). pose proof (Z.mod_pos_bound now secs). lia. }
  destruct env as [s|]; [|apply H; vm_compute; split; discriminate].
  destruct (parse_uint U64_MAX s) as [z|] eqn:E; cbn [unwrap_or]; [|apply H; vm_compute; split; discriminate].
  pose proof (parse_uint_bounds _ _ _ E). destruct (Z.eqb_spec z 0) as [->|N]; [eauto|]. apply H. lia.
Qed.
End Shown.
