(* ===== verification/RoundTrip.v ===== *)
(** * A request over a session and its reply: TOT and ANTIE together

    TOT stamps what a client sends with the id of its session and drops it in
    ANTIE's inbox; ANTIE reads the stamp, and its reply goes to the directory of
    that session; the session's next tick sends it on the client's socket.  The
    two processes meet in two directories of one disk and in one header line.

    What the parser of [mail_parser] does with that line is a hypothesis
    ([ReadsHeaders]): of a header block in which one line bears a name, it gives
    that line's value. *)
From S2P Require Import Prelude Utf8 Fs TotInbox TotConfig TotServer TotStamp TotSession Errors CoreTypes Config Sinks SinkTheorems Carriers Stats Email EmailTheorems Gateway LambdaTheorems GatewayTheorems.
Import Errors Email Core TotStamp TotSession SinkTheorems.

Module RoundTrip.

(** ** The stamp, as a parser of mail sees it *)
Definition field_name (line : bytes) : bytes :=
  to_ascii_lowercase (trim (match split_once ":"%char line with Some (n, _) => n | None => line end)).
Definition is_wsp (c : byte) : bool := bool_decide (c = " "%char \/ c = ch 9).
(** A line that continues the one before. *)
Definition folded (line : bytes) : bool := match line with c :: _ => is_wsp c | [] => false end.
Definition SESSION : bytes := $"x-tot-session".
(** The header lines left under the stamp: none continues it, none bears its name
    (TOT strips the name only where the colon follows it directly). *)
Definition clean_below (ls : list bytes) : Prop :=
  match ls with l :: _ => folded l = false | [] => True end /\
  Forall (fun l => field_name l <> SESSION) (header_lines ls).

(** What [clean_below] excludes can happen: of a custody header the client folded
    over two lines only the first is dropped; the second stays under the stamp,
    which it then continues. *)
Lemma folded_value_survives id :
  let raw := $"X-TOT-Session:" ++ crlf ++ $" evil" ++ crlf ++ $"From: a@b" ++ crlf ++ crlf ++ $"body" in
  let rest := [$" evil" ++ crlf; $"From: a@b" ++ crlf; crlf; $"body"] in
  TotServer.stamp_session raw id = Ok (TotServer.stamp_header id ++ concat rest) /\ ~ clean_below rest.
Proof. split; [reflexivity|]. intros [H _]. by vm_compute in H. Qed.


(** ** A session directory in service *)
Record standing (s : store) (dir : path) (n : bytes) : Prop := {
  op_some : dir <> [];
  op_dirs : Forall (fun x => s !! x = Some Dir) (prefixes_from [] dir);
  op_tmp : is_file s (dir ++ [$"tmp"]) = false;
  op_free : s !! (dir ++ [n]) <> Some Dir /\ s !! (dir ++ [$"tmp"; n]) <> Some Dir }.
Record opened (s : store) (dir : path) (n : bytes) : Prop := {
  op_standing : standing s dir n;
  op_idle : forall k, TotServer.is_reply k = true -> s !! (dir ++ [k]) = None }.
Lemma prefixes_snoc p r c : prefixes_from p (r ++ [c]) = prefixes_from p r ++ [p ++ r ++ [c]].
Proof.
  revert p. induction r as [|x r IH]; intros p; [done|]. cbn [app prefixes_from]. by rewrite IH, <- app_assoc.
Qed.
Lemma standing_dir s dir n : standing s dir n -> s !! dir = Some Dir.
Proof.
  intros [Hs Hd _ _]. rewrite Forall_forall in Hd. apply Hd.
  by apply prefixes_in.
Qed.
Lemma opened_dir s dir n : opened s dir n -> s !! dir = Some Dir.
Proof. intros [H _]. by eapply standing_dir.
Qed.
Lemma not_below (d r : path) : r <> [] -> d <> d ++ r.
Proof. intros H E. apply H, (app_inv_head d). by rewrite app_nil_r. Qed.
(** A deposit into it changes the reply, its staging file and, the first time, the
    staging directory. *)
Lemma deposit_opened dir n b w :
  oracle w = [] -> standing (fs w) dir n -> Custody.unsafe_name n = false -> n <> $"." -> n <> $"tmp" ->
  exists w', Custody.deposit dir n b w = (Ok (dir ++ [n]), w') /\ fs w' !! (dir ++ [n]) = Some (File b) /\
    forall q, q <> dir ++ [n] -> q <> dir ++ [$"tmp"; n] -> q <> dir ++ [$"tmp"] -> fs w' !! q = fs w !! q.
Proof.
  intros Ho Hop U Hdot Ht. pose proof (standing_dir _ _ _ Hop) as Hdir. destruct Hop as [Hs Hd Htmp [Hf Hf2]].
  assert (prefixes_from [] (dir ++ [$"tmp"]) = prefixes_from [] dir ++ [dir ++ [$"tmp"]]) as Hpre by apply (prefixes_snoc []).
  destruct (mkdirs_ok (dir ++ [$"tmp"]) (prefixes_from [] (dir ++ [$"tmp"])) w Ho) as (w1 & E1 & Ho1 & Hf1).
  { rewrite Hpre. apply Forall_app. split; [|by repeat constructor].
    eapply Forall_impl; [exact Hd|]. intros x Hx. unfold is_file. by rewrite Hx. }
  assert (forall q, q <> dir ++ [$"tmp"] -> fs w1 !! q = fs w !! q) as Hsame.
  { intros q Nq. rewrite Hf1, decide_False; [done|]. rewrite Hpre. intros (Hin & _ & Hq).
    apply elem_of_app in Hin as [Hin|Hin%list_elem_of_singleton]; [|done].
    rewrite Forall_forall in Hd. rewrite (Hd q Hin) in Hq. done. }
  assert (fs w1 !! (dir ++ [$"tmp"]) = Some Dir) as Htmp1.
  { rewrite Hf1. unfold is_file in Htmp. destruct (fs w !! (dir ++ [$"tmp"])) as [[]|] eqn:E; [|done|].
    - rewrite decide_False; [done|by intros (_ & _ & [=])].
    - rewrite decide_True; [done|]. rewrite Hpre. split; [set_solver|]. split; [by destruct dir|done]. }
  destruct (deposit_paths dir n Ht Hs) as (N1 & N2 & N3 & N4 & _).
  destruct (deposit_runs dir n b U Hdot Ht Hs w w1 E1 Ho1) as (w' & -> & Hf').
  - rewrite Hsame; [done|]. intros E. apply (f_equal length) in E. rewrite length_app in E. simpl in E. lia.
  - done.
  - rewrite Hsame; [done|]. by intros E%app_inv_head.
  - rewrite Hsame; done.
  - exists w'. split; [done|]. rewrite Hf'. split; [by rewrite lookup_insert_eq|].
    intros q Q1 Q2 Q3. rewrite lookup_insert_ne, lookup_delete_ne, lookup_insert_ne by done. by apply Hsame.
Qed.


(** *** A reply that replaces the one being sent

    [pump_one] is three steps for the rest of the machine: it reads, it sends, it
    removes by name. *)
Definition read_and_send (dir : path) (n : bytes) : M TotServer.tot TotServer.tot_error unit :=
  b ← TotServer.on_disk TotServer.ReadReply (read_file (dir ++ [n])); TotServer.send b.
Definition remove_sent (dir : path) (n : bytes) : M TotServer.tot TotServer.tot_error unit :=
  _ ← attempt (E := TotServer.tot_error) (TotServer.on_disk TotServer.ReadReply (remove_file (dir ++ [n]))); mret tt.
Lemma pump_one_cut dir n t : TotServer.pump_one dir n t = (_ ← read_and_send dir n; remove_sent dir n) t.
Proof.
  unfold TotServer.pump_one, read_and_send, mbind, M_bind.
  destruct (TotServer.on_disk _ _ t) as [[b|e] t1]; [|done]. by destruct (TotServer.send b t1) as [[[]|e] t2].
Qed.
(** C39: A reply can be lost while another with its name is sent.  When ANTIE
    deposits a second reply under a request id (a busy refusal, then the answer to
    the retry) after tot has sent the first and before it removes the file, tot
    removes the second: it was deposited with success, it is on no socket and it is
    gone.  (No call fails.) *)
Theorem replaced_reply_is_lost dir n first second (t : TotServer.tot) (w : world) :
  oracle (TotServer.disk t) = [] -> TotServer.sends t = [] -> oracle w = [] ->
  standing (fs (TotServer.disk t)) dir n -> fs (TotServer.disk t) !! (dir ++ [n]) = Some (File first) ->
  Custody.unsafe_name n = false -> n <> $"." -> n <> $"tmp" ->
  exists t1 w' t2,
    read_and_send dir n t = (Ok tt, t1) /\
    Custody.deposit dir n second (set_fs (fs (TotServer.disk t1)) w) = (Ok (dir ++ [n]), w') /\
    fs w' !! (dir ++ [n]) = Some (File second) /\
    remove_sent dir n (TotServer.set_disk (set_fs (fs w') (TotServer.disk t1)) t1) = (Ok tt, t2) /\
    TotServer.sent t2 = TotServer.sent t ++ [first] /\ fs (TotServer.disk t2) !! (dir ++ [n]) = None.
Proof.
  intros Ho Hse How Hst Hf U Hdot Ht.
  assert (exists t1, read_and_send dir n t = (Ok tt, t1) /\ TotServer.disk t1 = TotServer.disk t /\
    TotServer.sent t1 = TotServer.sent t ++ [first]) as (t1 & E1 & Ed & Hs1).
  { unfold read_and_send, TotServer.on_disk, with_err, zoom, mbind, M_bind. rewrite (read_file_ok _ first) by done.
    cbn [map_err]. unfold TotServer.send. cbn [TotServer.set_disk TotServer.set_box TotServer.sends]. rewrite Hse. by eexists. }
  destruct (deposit_opened dir n second (set_fs (fs (TotServer.disk t1)) w) How) as (w' & E2 & Hm & _);
    [cbn; by rewrite Ed|done|done|done|].
  exists t1, w'. eexists. split; [done|]. split; [done|]. split; [done|].
  unfold remove_sent, TotServer.on_disk, attempt, with_err, zoom, mbind, M_bind, mret, M_ret.
  cbn [TotServer.set_disk TotServer.set_box TotServer.disk TotServer.box TotInbox.files].
  unfold remove_file, syscall, next_outcome, mbind, M_bind, gets. change (TotInbox.files (TotServer.box t1)) with (TotServer.disk t1).
  rewrite Ed. cbn [set_fs oracle fs]. rewrite Ho. cbn [mret M_ret fs]. change (fs (set_fs (fs w') (TotServer.disk t))) with (fs w'). rewrite Hm. cbn.
  split; [reflexivity|]. cbn. split; [done|]. apply lookup_delete_eq.
Qed.



Section round_trip.
Context `{EC : ErrorsCrate} `{CV : CoreValues} `{CF : !CoreFns} `{EK : !EmailCrates} `{RH : !ReadsHeaders}.


(** ** ANTIE's turn, as TOT sees it: what [send_response] does to the disk both use *)
Import Gateway.
Section both.
Context {W : Type} `{HD : HasDisk W} `{LD : !LawfulDisk W} {N Lm : Type}.
Context (g : Gateway (W := W)) (a : ambient) (e : AntieEmail) (p : ResponsePayload) (row : Config.CustodyRoute) (mail : bytes).
Context (w : gw W N Lm).
Definition sees (s : store) : gw W N Lm := with_outer (set_disk (set_fs s (disk_of (outer w))) (outer w)) w.
Definition answered (s : store) : result fault unit * gw W N Lm := send_response g a e p (sees s).
Definition reply_name : bytes := resp_request_id p ++ $".cbor".

(** A stamped request, the row that serves the stamp, and a reply that can be built. *)
Record served (id : bytes) : Prop := {
  sv_custody : custody e = Some ($"X-TOT-Session", id); sv_uncle : uncle_correlate e = None;
  sv_row : custody_row (custody_table g) $"X-TOT-Session" = Some row; sv_only : Config.suppress_email row = true;
  sv_wallet : is_dev_wallet (from e) = false;
  sv_mail : build_response (mail_of a) (from e) (identity_email g)
    (if success p then $"witness_response" else $"error") (resp_request_id p) (message_id e) (response_cbor p) = Ok mail;
  sv_healthy : oracle (disk_of (outer w)) = [] }.
(** The name of a reply is never one of the special names. *)
Lemma reply_name_usable : reply_name <> $"." /\ reply_name <> $"tmp".
Proof.
  unfold reply_name. split; intros E; apply (f_equal (fun s => (length s, last s))) in E; rewrite length_app, last_app in E;
    cbn in E; injection E; [lia|discriminate].
Qed.
Lemma answered_in_session id s : plain_name id = true -> served id ->
  let dir := Config.custody_outbox row ++ [id] in
  opened s dir reply_name -> Custody.unsafe_name reply_name = false ->
  (answered s).1 = Ok tt /\ fs (disk_of (outer (answered s).2)) !! (dir ++ [reply_name]) = Some (File mail) /\
  forall q, q <> dir ++ [reply_name] -> q <> dir ++ [$"tmp"; reply_name] -> q <> dir ++ [$"tmp"] ->
    fs (disk_of (outer (answered s).2)) !! q = s !! q.
Proof.
  intros Hid [Hc Hu Hr Hso Hw Hm Ho] dir Hop U. destruct reply_name_usable as [Hdot Ht].
  unfold answered. rewrite (Sessions.stamped_reply g a e p row id _ Hc Hu Hr Hso Hw). unfold Sessions.reply_mail, Sessions.with_disk. rewrite Hm.
  unfold custody_dir. rewrite (join_plain _ id Hid). fold dir.
  unfold sees. cbn [outer with_outer]. rewrite disk_set.
  destruct (deposit_opened dir reply_name mail (set_fs s (disk_of (outer w))) Ho (op_standing _ _ _ Hop) U Hdot Ht) as (w' & E & Hf & Hq).
  fold reply_name. rewrite E. cbn [fst snd outer with_outer]. by rewrite disk_set.
Qed.

Lemma tick_event cfg ib pid id dir lim (ev : TotServer.timed) evs (t t' : TotServer.tot) :
  TotServer.event ev = TotServer.Tick -> TotServer.pump_replies dir t = (Ok tt, t') ->
  TotServer.session_loop cfg ib pid id dir lim (ev :: evs) t = TotServer.session_loop cfg ib pid id dir lim evs t'.
Proof. intros He Hp. cbn [TotServer.session_loop]. rewrite He. unfold mbind, M_bind. by rewrite Hp. Qed.


(** A reply without a request id is lost in its own session.  The subject
    AXIOM/<type>/ gives a request the empty id; ANTIE's answer then is the file
    ".cbor", whose only dot is its first byte: ANTIE has answered, and counts the
    message as done, but to the pump the file has no extension, so that however
    often the session ticks it stays where it is and nothing is sent. *)
Theorem reply_without_id_is_stuck cfg ib pid id lim k (ev : TotServer.timed) evs (t : TotServer.tot) :
  let dir := Config.custody_outbox row ++ [id] in
  resp_request_id p = [] -> plain_name id = true -> served id -> opened (fs (TotServer.disk t)) dir reply_name ->
  TotServer.event ev = TotServer.Tick -> oracle (TotServer.disk t) = [] -> (forall l, listing (TotServer.disk t) l ≡ₚ l) ->
  let r := answered (fs (TotServer.disk t)) in
  let t1 := TotServer.set_disk (set_fs (fs (disk_of (outer r.2))) (TotServer.disk t)) t in
  r.1 = Ok tt /\ fs (TotServer.disk t1) !! (dir ++ [$".cbor"]) = Some (File mail) /\
  TotServer.session_loop cfg ib pid id dir lim (replicate k ev ++ evs) t1 = TotServer.session_loop cfg ib pid id dir lim evs t1.
Proof.
  intros dir Hid Hpl Hsv Hop He Ho Hl r t1. assert (reply_name = $".cbor") as Hn by (unfold reply_name; by rewrite Hid).
  destruct (answered_in_session id _ Hpl Hsv Hop) as (Hr & Hm & Hq); [by rewrite Hn|]. rewrite Hn in *.
  split; [done|]. split; [done|]. induction k as [|k IH]; [done|]. cbn [replicate app].
  rewrite (tick_event _ _ _ _ _ _ ev _ t1 t1 He); [exact IH|]. clear IH.
  unfold TotServer.pump_replies, TotServer.on_disk, with_err, zoom, mbind, M_bind. fold dir.
  rewrite (read_dir_ok dir (TotServer.disk t1) Ho).
  2:{ apply is_dir_some. change (fs (TotServer.disk t1)) with (fs (disk_of (outer r.2))).
      unfold r, dir. rewrite Hq; [by apply (opened_dir _ _ _ Hop)|..]; by apply not_below. }
  cbn [map_err]. assert (TotServer.reply_names (listing (TotServer.disk t1) (children (fs (TotServer.disk t1)) dir)) = []) as ->.
  { apply elem_of_nil_inv. intros x. rewrite elem_of_reply_names. change (listing (TotServer.disk t1)) with (listing (TotServer.disk t)).
    rewrite Hl, elem_of_children. intros [Hx [v Hv]]. change (fs (TotServer.disk t1)) with (fs (disk_of (outer r.2))) in Hv.
    assert (fs (disk_of (outer r.2)) !! (dir ++ [x]) = None) as E0; [|by rewrite E0 in Hv].
    etransitivity; [apply Hq|by apply (op_idle _ _ _ Hop)]; intros E%app_inv_head; injection E as ->; by vm_compute in Hx. }
  cbn [mapM_]. unfold mret, M_ret. by destruct t as [[] ? ? ?].
Qed.
End both.
End round_trip.

(** ** A parser of headers, and one session on it *)
Module Example.
Import Gateway.
Definition value_of (line : bytes) : option bytes := snd <$> split_once ":"%char line.
Definition ex_header (text name : bytes) : option bytes :=
  match List.find (fun l => bool_decide (field_name l = to_ascii_lowercase name)) (header_lines (split_inclusive LF text)) with
  | Some line => value_of line
  | None => None
  end.
(** A request of a type ANTIE does not know; [rid] its request id. *)
Definition ex_mail (rid : bytes) : EmailCrates (CV := ex_values) := {|
  parse_mime := fun text => Some {| mime_from := Some $"w@axiom"; mime_to := None; mime_message_id := None;
    mime_subject := Some ($"AXIOM/hello/" ++ rid); mime_header := ex_header text; mime_text := Some $"PDATA"; mime_html := None |};
  b64_encode := fun b => b; b64_decode := fun b => Ok b; Sealed := bytes;
  envelope_of_cbor := fun b => match b with "P"%char :: b' => Some (inl b') | _ => None end;
  verifying_key := fun b => b; ed25519_sk_to_x25519_sk := fun b => b; open_for_validator := fun env _ _ => Some env;
  payload_of_cbor := fun b => Ok (no_fields (CV := ex_values)); vbc_of_cbor := fun _ => None;
  hex_decode := fun _ => None |}.

Definition ex_key : bytes := repeat (ch 171) 32.
Definition ex_raw : bytes := $"From: a@b" ++ crlf ++ $"x-tot-SESSION:evil" ++ crlf ++ crlf ++ $"body".
Definition ex_dir : path := [$"out"; hex_encode ex_key].
Definition ex_store : store :=
  {[ [$"out"] := Dir; ex_dir := Dir; [$"inbox"] := Dir; [$"inbox"; $"new"] := Dir; [$"inbox"; $"cur"] := Dir; [$"inbox"; $"tmp"] := Dir ]}.
Definition ex_tot : TotServer.tot :=
  {| TotServer.box := {| TotInbox.files := {| fs := ex_store; oracle := []; hist := []; listing := @rev _ |}; TotInbox.SEQ := 3 |};
     TotServer.sent := []; TotServer.sends := []; TotServer.to_node := [] |}.
Definition ex_cfg : TotConfig.Config :=
  {| TotConfig.listen := $"0.0.0.0:7400"; TotConfig.maildir_inbox := [$"inbox"]; TotConfig.nabla := [];
     TotConfig.custody_outbox := Some [$"out"]; TotConfig.fatmama := []; TotConfig.intake_max_msgs_per_sec := 1;
     TotConfig.max_message_bytes := 1000 |}.
Definition ex_request (rid : bytes) : AntieEmail (CV := ex_values) :=
  Build_AntieEmail (CV := ex_values) $"w@axiom" [] $"hello" rid None
    (Build_AntiePayload (CV := ex_values) $"DATA" (no_fields (CV := ex_values)))
    (match TotServer.stamp_session ex_raw (hex_encode ex_key) with Ok out => out | Err _ => [] end) None
    (Some ($"X-TOT-Session", hex_encode ex_key)).
Definition ex_now (ev : TotServer.conn_event) : TotServer.timed :=
  {| TotServer.instant := 5; TotServer.wall := TotInbox.ex_now; TotServer.event := ev |}.
Definition ex_antie : gw world unit unit := Sessions.ex_world Sessions.ex_disk tt tt (Stats.stats_new 0).
Section ex.
Context (rid : bytes).
Definition ex_answer : ResponsePayload (EC := ex_errors) (CV := ex_values) := unknown_type (ex_request rid).
Definition ex_built : result (AntieError (EC := ex_errors)) bytes :=
  build_response (EC := ex_errors) (CV := ex_values) (EK := ex_mail rid) Sessions.ex_stamp $"w@axiom" $"v@axiom" $"error" rid None
    (response_cbor (CoreFns := Exchange.ex_core) ex_answer).
Definition ex_sent : bytes := match ex_built with Ok m => m | Err _ => [] end.
End ex.

Lemma ex_opened rid : Custody.unsafe_name (rid ++ $".cbor") = false -> opened ex_store ex_dir (rid ++ $".cbor").
Proof.
  intros U. assert (forall r, r <> [] -> ex_store !! (ex_dir ++ r) = None) as Hnone.
  { intros [|x r] Hr; [done|]. unfold ex_store, ex_dir. cbn [app]. rewrite !lookup_insert_ne by discriminate.
    by apply lookup_singleton_ne. }
  constructor; [constructor; [done| | |]|].
  - repeat constructor.
  - done.
  - by rewrite !Hnone.
  - intros k _. by apply Hnone.
Qed.
Lemma ex_served rid : ex_built rid = Ok (ex_sent rid) ->
  served (CF := Exchange.ex_core) (EK := ex_mail rid) (Sessions.ex_gateway 0 Sessions.broken) Sessions.ex_ambient
    (ex_request rid) (ex_answer rid) Sessions.ex_row (ex_sent rid) ex_antie (hex_encode ex_key).
Proof. intros E. by constructor. Qed.

Lemma reply_without_id_is_stuck_witness :
  let tick := ex_now TotServer.Tick in
  let r := answered (CF := Exchange.ex_core) (EK := ex_mail []) (Sessions.ex_gateway 0 Sessions.broken) Sessions.ex_ambient
    (ex_request []) (ex_answer []) ex_antie ex_store in
  let t1 := TotServer.set_disk (set_fs (fs (disk_of (outer r.2))) (TotServer.disk ex_tot)) ex_tot in
  r.1 = Ok tt /\ fs (TotServer.disk t1) !! (ex_dir ++ [$".cbor"]) = Some (File (ex_sent [])) /\
  TotServer.session_loop ex_cfg TotInbox.ex_inbox 7 (hex_encode ex_key) ex_dir (TotServer.limiter_new 1 5)
    (replicate 100 tick ++ []) t1 = (Ok tt, t1).
Proof.
  intros tick r t1.
  destruct (reply_without_id_is_stuck (CF := Exchange.ex_core) (EK := ex_mail [])
    (Sessions.ex_gateway 0 Sessions.broken) Sessions.ex_ambient (ex_request []) (ex_answer []) Sessions.ex_row
    (ex_sent []) ex_antie ex_cfg TotInbox.ex_inbox 7 (hex_encode ex_key) (TotServer.limiter_new 1 5) 100 tick [] ex_tot)
    as (Hr & Hm & Hl); [reflexivity|vm_compute; reflexivity|apply ex_served; vm_compute; reflexivity
    |apply (ex_opened []); vm_compute; reflexivity|reflexivity|reflexivity|intros l; symmetry; apply Permutation_rev|].
  split; [exact Hr|]. split; [exact Hm|]. etransitivity; [exact Hl|reflexivity].
Defined.
Definition ex_waiting : store := <[ex_dir ++ [$"r1.cbor"] := File $"busy"]> ex_store.
Definition ex_tot_waiting : TotServer.tot := TotServer.set_disk
  {| fs := ex_waiting; oracle := []; hist := []; listing := fun l => l |} ex_tot.
Lemma replaced_reply_is_lost_witness : exists t1 w' t2,
  read_and_send ex_dir $"r1.cbor" ex_tot_waiting = (Ok tt, t1) /\
  Custody.deposit ex_dir $"r1.cbor" $"signed" (set_fs (fs (TotServer.disk t1)) Sessions.ex_disk) = (Ok (ex_dir ++ [$"r1.cbor"]), w') /\
  fs w' !! (ex_dir ++ [$"r1.cbor"]) = Some (File $"signed") /\
  remove_sent ex_dir $"r1.cbor" (TotServer.set_disk (set_fs (fs w') (TotServer.disk t1)) t1) = (Ok tt, t2) /\
  TotServer.sent t2 = [$"busy"] /\ fs (TotServer.disk t2) !! (ex_dir ++ [$"r1.cbor"]) = None.
Proof.
  apply (replaced_reply_is_lost ex_dir $"r1.cbor" $"busy" $"signed" ex_tot_waiting Sessions.ex_disk);
    [reflexivity|reflexivity|reflexivity| |reflexivity|vm_compute; reflexivity|discriminate|discriminate].
  constructor; [discriminate|repeat constructor|reflexivity|]. split; vm_compute; discriminate.
Defined.
End Example.
End RoundTrip.
